(* ===== verification/_CoqProject ===== *)
-Q . S2P
Prelude.v
KvProtocol.v
Buffer.v
Executor.v
Serializer.v
EventLoop.v
AsyncTransport.v
AsyncTransportInv.v
AsyncTransportRun.v
AsyncTransportStable.v
AsyncTransportSteps.v
AsyncTransportCorrectness.v
TcpConnection.v
ConnectionPool.v
TcpServer.v
TcpServerInv.v
TcpServerWalk.v
TcpServerCorrectness.v
TcpServerBacklog.v
TcpServerLifecycle.v
TcpServerShutdown.v
TcpServerProgress.v
TcpServerReplies.v
TcpServerOrder.v
ServerRuns.v
TcpServerWitnesses.v
TcpServerShutdownWitnesses.v
RpcProtocol.v
RpcServer.v
RpcCorrectness.v
RpcWitnesses.v
Crc32.v
LruCache.v
ShardedCache.v
Disk.v
Aof.v
AofLog.v
AofDurability.v
CacheService.v
ServiceHistory.v
ServiceCorrectness.v
ServiceInputs.v
ServiceRecovery.v
ServiceWitnesses.v
ServerMain.v
ServerProgram.v
TransportRuns.v
Network.v
KvClient.v
KvEndToEnd.v
KvSystem.v
KvClientWitnesses.v
KvSystemWitnesses.v
RpcEndToEnd.v
RpcSystem.v
RpcSystemWitnesses.v
Examples.v
ExampleClients.v
ExampleWitnesses.v
