(* ===== verification/Prelude.v ===== *)
(** * KVRPC: a verification of the KV cache server, the RPC library and their clients

    KVRPC (sources under src/) is a C++ library for RPC over TCP and a persistent key-value cache built on it.
    This development translates the program into Rocq functions and proves what makes it correct, from the
    bytes of a frame to a call that crosses client, connection, server, log and cache.  Paths below are
    relative to src/.

    ** The program and its models

    - Wire formats.  include/kvrpc/kv_protocol.h is [KvProtocol] (header, [Message], the frame sizer installed by
      server and client); include/kvrpc/rpc_protocol.h and the messages of proto/rpc.proto are [RpcProtocol];
      include/kvrpc/serializer.h is [Serializer]; include/kvrpc/buffer.h, the input buffer of every connection, is
      [Buffer]; the error codes of include/kvrpc/error.h are [ErrorCode] and [exn] below.
    - Storage.  [Crc] of KVCache/src/aof.cpp is [Crc32]; its loops around read, write and fsync are [Disk]; the
      logger is [Aof].  KVCache/include/lru_cache.h is [LruCache], sharded_cache.h is [ShardedCache], and
      cache_service.h, which joins protocol, log and cache, is [CacheService].
    - Servers.  src/event_loop.cpp is [EventLoop]; src/tcp_server.cpp is [TcpServer] (acceptor, reactors, job queue
      and workers) and [TcpServerLifecycle] (handlers, [start], [Run] and [stop] with their threads);
      include/kvrpc/rpc_server.h is [RpcServer], on its server in [RpcSystem]; KVCache/src/main.cpp is [ServerMain]
      (up to the start of the server) and [ServerProgram] (signals, start, stop and exit).
    - Clients.  src/async_transport.cpp is [AsyncTransport], which runs on [EventLoop] and [Buffer];
      include/kvrpc/kvcache_client.h is [KvClient]; rpc_client.h is split over [RpcServer] (a request and its
      completion) and [RpcEndToEnd] (the client over the transport); src/tcp_connection.cpp is [TcpConnection],
      connection_pool.h is [ConnectionPool], executor.h is [Executor].
    - Programs of examples/.  rpc_server.cpp and profile_demo.cpp are [Examples], kvcache.cpp and rpc_client.cpp
      [ExampleClients].

    A C++ object is a record with the members of the class, a method a function in the monad [M S A], that is
    [S -> S * outcome A].  An [outcome] is a value, an exception, undefined behaviour ([Undef]: a dangling
    iterator, an index out of range, a read past a buffer) or [Blocked] (a call that does not return), so
    safety and termination are statements about results.  Pointers that the code shares are addresses into a
    map: list nodes of the LRU cache, requests of the transport, connections of the pool.  Integers keep their
    width: [u64], [u32] and the like wrap.  The kernel is a script of answers that the theorems quantify over:
    short counts, EINTR, EAGAIN, failures.  Threads interleave as step relations at the granularity of critical
    sections and reactor callbacks.  Fields that only record history (bytes that passed on a connection, disk
    states gone through, requests submitted and completed) are named as such where they are declared.

    ** What is proved

    - [KvProtocol], [RpcProtocol], [Serializer], [Crc32], [Buffer]: encodings round-trip and are canonical, truncated
      or foreign bytes are rejected, the table-driven CRC is the bit-serial one and detects bursts, the buffer
      is a queue.
    - [LruCache], [ShardedCache]: the linked list with its index implements a list in recency order; no iterator
      dangles after any sequence of calls, failed ones included, for any limits; the byte limit holds as long as
      the costs of the cached objects add up below 2^64, always with a limit below 2^63.
    - [AofLog], [AofDurability]: replay delivers exactly the records of the file; a crash at any disk state leaves
      the old log and a leading part of the batch, or during a compaction the old log or the snapshot.
    - [ServiceHistory], [ServiceCorrectness], [ServiceRecovery]: acknowledged writes are durable before they are
      visible, replies are never stale, a restart after a crash at any point recovers the history.
      [ServiceInputs]: which inputs are requests, by the format on the wire; those that are not leave no trace on
      the rest of their batch.
    - [EventLoop]: no wake-up is lost; the firing of timers ends, in order, and fires all that is due, timers that
      were armed meanwhile included.
    - [TcpServerInv], [TcpServerCorrectness]: in every interleaving no byte is lost or reordered, answers come in
      order, limits and counters hold, every callback returns.  [TcpServerWalk] is the induction over callbacks
      that the files after it share.
    - [TcpServerBacklog]: what a connection has received and not yet handed to the workers, and why.
    - [TcpServerShutdown], [TcpServerProgress]: [stop] at any moment ends the server, every thread with it; no
      request that was handed to the workers is left without its answer, no connection is left open.  Requests that
      were received but held back, because the client does not read its replies or the connection has had its
      turn, are dropped, as docs/ARCHITECTURE.md allows.  [ServerProgram]: so does the program, with its signal thread.
    - [RpcCorrectness]: a remote call is the registered function on the converted arguments, errors included; any
      bytes are rejected before a callback runs unless they are the frame of a request, which is answered.
    - [AsyncTransportInv], [AsyncTransportRun], [AsyncTransportSteps], [AsyncTransportStable],
      [AsyncTransportCorrectness]: every request is completed exactly once, with a response of its own or an
      error; deadlines end requests; limits hold; every callback returns, also through the mutual recursion of
      [Finish] and [Disconnect]; a drained transport has stopped its reactor.
    - [TcpServerReplies]: the server with a handler behind its workers; a reply accepted on a connection is one
      the handler gave for that input.  [TcpServerOrder]: a request received after some moment is answered with
      a reply given after it.  [Network]: a client's session connected to such a server over TCP.
    - [KvEndToEnd], [RpcEndToEnd]: clients over the transport.  Over peers that answer as services do, in order for
      the KV protocol and in any order for RPC, a call completed with a response has the answer to its own request.
    - [KvSystem], [RpcSystem]: everything composed, client, transport, TCP, server, and service or registered
      functions.  The future of a KV call holds what one batch of the one running service made of it: a write is
      in the log, a read is current, and the order of the batches respects the real time of the calls, which
      makes the system linearizable.  The future of an RPC holds what the direct call of the function gives.
    - [Executor], [TcpConnection], [ConnectionPool]: admitted tasks run once and drain; exact transfers end by
      their deadline; connections are lent to one holder and no descriptor leaks.
    - [ServerMain]: what [main] assembles satisfies the assumptions of the server theorems.
    - [Examples]: the same for the RPC example, whose methods are exact; the read-through cache answers as its
      source does whatever its cache suffers, and its [main] waits for the server before the variables of the
      methods go.

    The files named after witnesses ([TcpServerWitnesses], [TcpServerShutdownWitnesses], [RpcWitnesses],
    [ServiceWitnesses], [KvClientWitnesses], [KvSystemWitnesses], [RpcSystemWitnesses], [ExampleWitnesses], with
    [ServerRuns] and [TransportRuns]) hold concrete runs on which
    the theorems apply, with codecs that satisfy the laws assumed below.

    ** Assumptions

    The code that protoc generates is a parameter: [CacheValueCodec] and [EnvelopeCodec], with the laws
    [CodecLaws] and [EnvelopeLaws] (parsing what was serialized gives it back, fields have their range, text is
    UTF-8); so is the user's message type ([MessageCodec]).  The hash function of the cache is any function, the
    iteration order of unordered tables any permutation, clocks any sequence, allocation may fail.  Theorems on
    the reactors ask for fewer than 2^64 identifiers given out.  TCP is reliable: what an end has received is a
    prefix of what the other has sent.  Registered functions and [HandleBatch] run as single steps, one after the
    other, although several workers may run registered functions at once ([RpcSystem]); so do the methods of the
    profile example, over a cache whose writes take effect at once ([Examples]).  The transport's [Submit] is one
    step, although it releases its mutex between the admission of a request and the posting of it to the reactor.

    ** Fuel

    Loops that end for a reason other than the shape of their data take fuel computed from the state, and
    running out of it is [Blocked], which the theorems exclude: the frames of an input buffer (its number of
    bytes, each frame taking one), the nesting of [Finish] (one more than the requests in the table, each call
    removing one), the requests waiting for a connection, the evictions of a [put] (the entries), the timers
    due.  A loop over a kernel script ends with the script; an exhausted script is EAGAIN for a reactor, which
    returns there, and [Blocked] for a blocking call.

    ** Not modelled

    - The generated protobuf code, beyond the laws above, and the conversion of a float argument to a double.
    - The system calls on the listening socket, beyond their two outcomes, and its options.
    - Errors of a reactor that leaves its loop: the server stops accepting and [start] throws, which is modelled,
      but progress after [stop] and the closing of connections are shown for reactors that did not fail.
    - Closing of descriptors in the logger and in the reactors' destructors, and the contents of the lock
      file.  The log is opened for appending and a replacement is written from empty, so writes append.
    - Text of exceptions and of the standard error; only codes and types are kept.
    - Weak memory: atomic counters and mutex-protected sections are single steps.
    - Tests and benchmarks, and the exception runtime under third_party/, which is GCC's. *)
From Stdlib Require Export String.
From Stdlib Require Export Btauto.
From coqutil Require Export Byte Word.LittleEndianList Z.prove_Zeq_bitwise.
From stdpp Require Export prelude gmap.

#[global] Open Scope Z_scope.
#[global] Open Scope list_scope.
#[global] Unset Printing Records.

Declare Scope kvrpc_scope.
Delimit Scope kvrpc_scope with kvrpc.
#[global] Open Scope kvrpc_scope.

Create HintDb kv.
Create Rewrite HintDb kv.

(** * Bytes and machine integers *)

Abbreviation byte := Corelib.Init.Byte.byte.
Abbreviation bytes := (list Corelib.Init.Byte.byte).

(** [zlen l] is [size()] of a container as the 64-bit number the code compares. *)
Definition zlen {A} (l : list A) : Z := Z.of_nat (length l).

(** Wrap-around of [uint32_t] and of [uint64_t]/[size_t]. *)
Definition u32 (z : Z) : Z := z mod 2 ^ 32.
Definition u64 (z : Z) : Z := z mod 2 ^ 64.

(** Network-order integers: what [htonl]/[htons] followed by [memcpy] stores,
    and what [memcpy] followed by [ntohl]/[ntohs] loads. *)
Definition be_split (n : nat) (z : Z) : bytes := rev (le_split n z).
Definition be_combine (l : bytes) : Z := le_combine (rev l).

Definition str (s : string) : bytes := list_byte_of_string s.

Notation "l .[ i , n ]" := (take n (drop i l)) (at level 1, left associativity, format "l .[ i , n ]") : kvrpc_scope.

#[export] Instance byte_eq_dec : EqDecision byte := Byte.byte_eq_dec.

#[export] Instance byte_countable : Countable byte.
Proof. apply (inj_countable' Byte.to_N (fun n => default Byte.x00 (Byte.of_N n))). intros x. by rewrite Byte.of_to_N. Defined.

(** * Exceptions and outcomes *)

(** [kvrpc::ErrorCode] of error.h. *)
Inductive ErrorCode :=
| invalid_argument | overloaded | closed | timeout | connection | transport | protocol | remote.

#[export] Instance ErrorCode_eq_dec : EqDecision ErrorCode.
Proof. solve_decision. Defined.

(** The C++ exceptions the sources throw, by type. *)
Inductive exn :=
| std_runtime_error
| std_invalid_argument
| std_length_error
| std_logic_error
| std_out_of_range
| std_bad_alloc
| std_system_error
| AofCapacityError
| KvError (code : ErrorCode)
| RemoteError (status : Z) (message : bytes)
| BadArguments.

#[export] Instance exn_eq_dec : EqDecision exn.
Proof. solve_decision. Defined.

(** Outcome of a call: it returns, it throws, it is undefined behaviour (a
    dangling iterator, an out-of-range access), or the kernel has not
    answered yet. *)
Inductive outcome (A : Type) :=
| Ret (a : A)
| Throw (e : exn)
| Undef
| Blocked.
Arguments Ret {A} a.
Arguments Throw {A} e.
Arguments Undef {A}.
Arguments Blocked {A}.

#[export] Instance outcome_ret : MRet outcome := fun A a => Ret a.
#[export] Instance outcome_bind : MBind outcome := fun A B f c =>
  match c with Ret a => f a | Throw e => Throw e | Undef => Undef | Blocked => Blocked end.

(** Stateful code: a state transformer whose state survives exceptions. *)
Definition M (S A : Type) : Type := S -> S * outcome A.
#[export] Instance M_ret {S} : MRet (M S) := fun A a s => (s, Ret a).
#[export] Instance M_bind {S} : MBind (M S) := fun A B f c s =>
  match c s with
  | (s', Ret a) => f a s'
  | (s', Throw e) => (s', Throw e)
  | (s', Undef) => (s', Undef)
  | (s', Blocked) => (s', Blocked)
  end.

Definition throw {S A} (e : exn) : M S A := fun s => (s, Throw e).
Definition get_state {S} : M S S := fun s => (s, Ret s).
Definition set_state {S} (s : S) : M S unit := fun _ => (s, Ret tt).
Definition modify {S} (f : S -> S) : M S unit := fun s => (f s, Ret tt).
Definition lift {S A} (o : outcome A) : M S A := fun s => (s, o).
(** [try { c } catch (...) { h(e) }] *)
Definition try_catch {S A} (c : M S A) (h : exn -> M S A) : M S A := fun s =>
  match c s with (s', Throw e) => h e s' | r => r end.

(** * Tactics *)

(** Split the first [match]/[if] on a boolean or option in sight. *)
Ltac bdestr b :=
  let E := fresh "E" in destruct b eqn:E.
Ltac zify_bools :=
  repeat match goal with
  | H : (_ && _)%bool = true |- _ => apply andb_true_iff in H as [? ?]
  | H : (_ && _)%bool = false |- _ => apply andb_false_iff in H
  | H : (_ || _)%bool = true |- _ => apply orb_true_iff in H
  | H : (_ || _)%bool = false |- _ => apply orb_false_iff in H as [? ?]
  | H : negb _ = true |- _ => apply negb_true_iff in H
  | H : negb _ = false |- _ => apply negb_false_iff in H
  | H : (_ <=? _) = true |- _ => apply Z.leb_le in H
  | H : (_ <=? _) = false |- _ => apply Z.leb_gt in H
  | H : (_ <? _) = true |- _ => apply Z.ltb_lt in H
  | H : (_ <? _) = false |- _ => apply Z.ltb_ge in H
  | H : (_ =? _) = true |- _ => apply Z.eqb_eq in H
  | H : (_ =? _) = false |- _ => apply Z.eqb_neq in H
  | H : bool_decide _ = true |- _ => apply bool_decide_eq_true in H
  | H : bool_decide _ = false |- _ => apply bool_decide_eq_false in H
  end.

(** * Lemmas on outcomes *)

Lemma outcome_bind_Ret {A B} (c : outcome A) (f : A -> outcome B) b :
  mbind f c = Ret b -> exists a, c = Ret a /\ f a = Ret b.
Proof. destruct c; try done; eauto. Qed.

Lemma M_bind_Ret {S A B} (c : M S A) (f : A -> M S B) s s' b :
  mbind f c s = (s', Ret b) -> exists s1 a, c s = (s1, Ret a) /\ f a s1 = (s', Ret b).
Proof. unfold mbind, M_bind. destruct (c s) as [s1 []]; try done; eauto. Qed.

Lemma bind_Ret {A B} (a : A) (f : A -> outcome B) : mbind f (Ret a) = f a.
Proof. done. Qed.

Lemma M_bind_run {S A B} (c : M S A) (f : A -> M S B) s s' a : c s = (s', Ret a) -> mbind f c s = f a s'.
Proof. intros E. unfold mbind, M_bind. by rewrite E. Qed.
Lemma M_bind_Throw {S A B} (c : M S A) (f : A -> M S B) s s' e : c s = (s', Throw e) -> mbind f c s = (s', Throw e).
Proof. intros E. unfold mbind, M_bind. by rewrite E. Qed.
Lemma lift_bind_Ret {S A B} (o : outcome A) (f : A -> M S B) s a : o = Ret a -> mbind f (lift o) s = f a s.
Proof. by intros ->. Qed.
Lemma lift_bind_Throw {S A B} (o : outcome A) (f : A -> M S B) s e : o = Throw e -> mbind f (lift o) s = (s, Throw e).
Proof. by intros ->. Qed.

Lemma outcome_of {S A} (r : S * outcome A) o : r.2 = o -> r = (r.1, o).
Proof. by destruct r; simpl; intros ->. Qed.

(** ** Postconditions *)

(** [m] run from [s] returns with [Q] or throws with [R]; it is neither undefined behaviour nor stuck. *)
Definition wpx {S A} (m : M S A) (Q : A -> S -> Prop) (R : exn -> S -> Prop) (s : S) : Prop :=
  match m s with (s', Ret a) => Q a s' | (s', Throw e) => R e s' | (_, _) => False end.
(** In a reactor the only exception is a failure of [epoll_ctl], which ends the thread. *)
Abbreviation wp m Q := (wpx m Q (fun e _ => e = std_system_error)).
Definition triple {S A} (P : S -> Prop) (m : M S A) (Q : A -> S -> Prop) : Prop := forall s, P s -> wp m Q s.

Section Wp.
Context {S A B : Type} {R : exn -> S -> Prop}.
Lemma wp_ret (a : A) (Q : A -> S -> Prop) s : Q a s -> wpx (mret a) Q R s.
Proof. done. Qed.
Lemma wp_bind (c : M S A) (f : A -> M S B) Q s : wpx c (fun a => wpx (f a) Q R) R s -> wpx (mbind f c) Q R s.
Proof. unfold wpx, mbind, M_bind. by destruct (c s) as [s' [a|e| |]]. Qed.
Lemma wp_mono (m : M S A) (Q Q' : A -> S -> Prop) s : wpx m Q R s -> (forall a s', Q a s' -> Q' a s') -> wpx m Q' R s.
Proof. unfold wpx. destruct (m s) as [s' [a|e| |]]; try done. intros H HQ. by apply HQ. Qed.
Lemma wpx_mono (m : M S A) (Q Q' : A -> S -> Prop) (R' : exn -> S -> Prop) s :
  wpx m Q R' s -> (forall a s', Q a s' -> Q' a s') -> (forall e s', R' e s' -> R e s') -> wpx m Q' R s.
Proof. unfold wpx. destruct (m s) as [s' [a|e| |]]; try done; intros H HQ HR; [by apply HQ|by apply HR]. Qed.
Lemma wp_get (Q : S -> S -> Prop) s : Q s s -> wpx get_state Q R s.
Proof. done. Qed.
Lemma wp_modify (f : S -> S) (Q : unit -> S -> Prop) s : Q tt (f s) -> wpx (modify f) Q R s.
Proof. done. Qed.
Lemma wp_throw e (Q : A -> S -> Prop) s : R e s -> wpx (throw e) Q R s.
Proof. done. Qed.
Lemma wp_lift (o : outcome A) (Q : A -> S -> Prop) s :
  match o with Ret a => Q a s | Throw e => R e s | _ => False end -> wpx (lift o) Q R s.
Proof. unfold wpx, lift. by destruct o. Qed.
Lemma wp_try (c : M S A) h Q s : wpx c Q (fun e s' => wpx (h e) Q R s') s -> wpx (try_catch c h) Q R s.
Proof. unfold wpx, try_catch. by destruct (c s) as [s' [a|e| |]]. Qed.
End Wp.

Lemma triple_ret {S A} (a : A) (Q : A -> S -> Prop) : triple (Q a) (mret a) Q.
Proof. by intros s H. Qed.
Lemma triple_bind {S A B} (P : S -> Prop) (c : M S A) (R : A -> S -> Prop) (f : A -> M S B) (Q : B -> S -> Prop) :
  triple P c R -> (forall a, triple (R a) (f a) Q) -> triple P (mbind f c) Q.
Proof. intros Hc Hf s HP. apply wp_bind. eapply wp_mono; [by apply Hc|]. intros a s' H. by apply Hf. Qed.
Lemma triple_weaken {S A} (P P' : S -> Prop) (c : M S A) (Q Q' : A -> S -> Prop) :
  triple P' c Q' -> (forall s, P s -> P' s) -> (forall a s, Q' a s -> Q a s) -> triple P c Q.
Proof. intros Hc HP HQ s H. eapply wp_mono; [by apply Hc, HP|done]. Qed.

(** [m] keeps [J], whether it returns or throws. *)
Section Keeps.
Context {S : Type} (J : S -> Prop).
Definition keeps {A} (m : M S A) : Prop := forall s, J s -> match m s with (s', Ret _) | (s', Throw _) => J s' | _ => True end.

Lemma keeps_ret {A} (a : A) : keeps (mret a).
Proof. by intros s. Qed.
Lemma keeps_bind {A B} (c : M S A) (f : A -> M S B) : keeps c -> (forall a, keeps (f a)) -> keeps (mbind f c).
Proof. intros Hc Hf s Hs. specialize (Hc s Hs). unfold mbind, M_bind. destruct (c s) as [s' [a|e| |]]; try done. by apply Hf. Qed.
Lemma keeps_lift {A} (o : outcome A) : keeps (lift o).
Proof. intros s Hs. unfold lift. by destruct o. Qed.
Lemma keeps_throw {A} e : keeps (throw e : M S A).
Proof. by intros s. Qed.
Lemma keeps_get : keeps get_state.
Proof. by intros s. Qed.
Lemma keeps_modify f : (forall s, J s -> J (f s)) -> keeps (modify f).
Proof. intros H s Hs. by apply H. Qed.
Lemma keeps_try {A} (c : M S A) h : keeps c -> (forall e, keeps (h e)) -> keeps (try_catch c h).
Proof. intros Hc Hh s Hs. specialize (Hc s Hs). unfold try_catch. destruct (c s) as [s' [a|e| |]]; try done. by apply Hh. Qed.
Lemma keeps_run {A} (f : S -> M S A) : (forall s, keeps (f s)) -> keeps (fun s => f s s).
Proof. intros H s Hs. by apply H. Qed.
End Keeps.

(** * Lemmas on sizes and integers *)

Lemma zlen_nonneg {A} (l : list A) : 0 <= zlen l.
Proof. unfold zlen; lia. Qed.
Lemma zlen_nil {A} : zlen (@nil A) = 0.
Proof. done. Qed.
Lemma zlen_cons {A} (x : A) l : zlen (x :: l) = 1 + zlen l.
Proof. unfold zlen; simpl; lia. Qed.
Lemma zlen_app {A} (l k : list A) : zlen (l ++ k) = zlen l + zlen k.
Proof. unfold zlen; rewrite length_app; lia. Qed.
#[export] Hint Rewrite @zlen_nil @zlen_cons @zlen_app : kv.
#[export] Hint Resolve zlen_nonneg : kv.

Lemma u64_small z : 0 <= z < 2 ^ 64 -> u64 z = z.
Proof. apply Z.mod_small. Qed.
Lemma u32_small z : 0 <= z < 2 ^ 32 -> u32 z = z.
Proof. apply Z.mod_small. Qed.
Lemma u64_range z : 0 <= u64 z < 2 ^ 64.
Proof. apply Z.mod_pos_bound; lia. Qed.
#[export] Hint Resolve u64_range : kv.
Lemma u64_add_l a b : u64 (u64 a + b) = u64 (a + b).
Proof. apply Zplus_mod_idemp_l. Qed.
Lemma u64_sub_l a b : u64 (u64 a - b) = u64 (a - b).
Proof. apply Zminus_mod_idemp_l. Qed.

Lemma be_split_reverse n z : be_split n z = reverse (le_split n z).
Proof. apply rev_alt. Qed.
Lemma be_combine_reverse l : be_combine l = le_combine (reverse l).
Proof. unfold be_combine. f_equal. apply rev_alt. Qed.
Lemma length_be_split n z : length (be_split n z) = n.
Proof. unfold be_split. by rewrite length_rev, length_le_split. Qed.
Lemma be_combine_split n z : be_combine (be_split n z) = z mod 2 ^ (Z.of_nat n * 8).
Proof. unfold be_combine, be_split. by rewrite rev_involutive, le_combine_split. Qed.
Lemma be_split_combine l n : length l = n -> be_split n (be_combine l) = l.
Proof.
  intros <-. unfold be_combine, be_split.
  rewrite <-(length_rev l), split_le_combine. apply rev_involutive.
Qed.
Lemma be_combine_range l : 0 <= be_combine l < 2 ^ (8 * Z.of_nat (length l)).
Proof. unfold be_combine. rewrite <-(length_rev l). apply le_combine_bound. Qed.
Lemma be_combine_split_small n z : 0 <= z < 2 ^ (Z.of_nat n * 8) -> be_combine (be_split n z) = z.
Proof. intros. rewrite be_combine_split. by apply Z.mod_small. Qed.
#[export] Hint Rewrite length_be_split : kv.

(** * Lemmas on slices *)

Lemma slice_app_l {A} (a b : list A) n : length a = n -> (a ++ b).[0, n] = a.
Proof. intros <-. rewrite drop_0. apply take_app_length. Qed.
Lemma slice_app_r {A} (a b : list A) i n : length a = i -> (a ++ b).[i, n] = take n b.
Proof. intros <-. by rewrite drop_app_length. Qed.

Lemma take_min_length {A} k (l : list A) : take (Nat.min k (length l)) l = take k l.
Proof.
  destruct (Nat.le_gt_cases k (length l)); [by rewrite Nat.min_l|].
  by rewrite Nat.min_r, !take_ge by lia.
Qed.

(** * Lemmas on filters *)

Lemma filter_ext_in {A} (P Q : A -> Prop) `{!forall x, Decision (P x), !forall x, Decision (Q x)} (l : list A) :
  (forall x, x ∈ l -> P x <-> Q x) -> filter P l = filter Q l.
Proof.
  induction l as [|x l IH]; intros HPQ; [done|]. rewrite !filter_cons.
  rewrite IH by (intros; apply HPQ; by right). pose proof (HPQ x ltac:(by left)).
  by repeat case_decide; try tauto.
Qed.

Lemma filter_all_in {A} (P : A -> Prop) `{!forall x, Decision (P x)} (l : list A) :
  (forall x, x ∈ l -> P x) -> filter P l = l.
Proof.
  induction l as [|x l IH]; intros HP; [done|]. rewrite filter_cons, decide_True by (apply HP; by left).
  f_equal. apply IH. intros. apply HP. by right.
Qed.

Lemma Forall_filter_keep {A} (P Q : A -> Prop) `{!forall x, Decision (P x)} (l : list A) :
  Forall Q l -> Forall Q (filter P l).
Proof. rewrite !Forall_forall. intros HQ x [_ Hx]%list_elem_of_filter. auto. Qed.
Lemma NoDup_snoc {A} (x : A) l : NoDup l -> x ∉ l -> NoDup (l ++ [x]).
Proof.
  intros Hl Hx. apply NoDup_app. split; [done|]. split; [|apply NoDup_singleton]. by intros y Hy ->%list_elem_of_singleton.
Qed.

Lemma NoDup_fmap_filter {A B} (f : A -> B) (P : A -> Prop) `{!forall x, Decision (P x)} (l : list A) :
  NoDup (f <$> l) -> NoDup (f <$> filter P l).
Proof.
  induction l as [|x l IH]; [done|]. rewrite fmap_cons, filter_cons. intros [Hx Hl]%NoDup_cons.
  case_decide; [|auto]. rewrite fmap_cons. constructor; [|auto].
  intros (y & E & [_ Hy]%list_elem_of_filter)%list_elem_of_fmap. apply Hx, list_elem_of_fmap. eauto.
Qed.

(** * Lemmas on sublists *)

Lemma sublist_fmap {A B} (f : A -> B) l k : l `sublist_of` k -> f <$> l `sublist_of` f <$> k.
Proof. induction 1; simpl; by constructor. Qed.
Lemma sublist_reverse {A} (l k : list A) : l `sublist_of` k -> reverse l `sublist_of` reverse k.
Proof.
  induction 1; [done|..]; rewrite ?reverse_cons.
  - by apply sublist_app.
  - rewrite <-(app_nil_r (reverse l1)). apply sublist_app; [done|apply sublist_nil_l].
Qed.
Lemma sublist_elem {A} (l k : list A) x : l `sublist_of` k -> x ∈ l -> x ∈ k.
Proof. induction 1; intros Hx; [done|..]; [apply elem_of_cons in Hx as [->|Hx]; [by left|]|]; right; auto. Qed.

#[global] Opaque be_split be_combine.
