(* ===== verification/KvProtocol.v ===== *)
(** The KV wire protocol (include/kvrpc/kv_protocol.h): constants, commands, the
    12-byte header, [Message::encode]/[decodeHeader]/[validate], and the frame
    sizer that the server (KVCache/src/main.cpp) and the client
    (include/kvrpc/kvcache_client.h) install.  Frames round-trip, the encoding is
    canonical, and the sizer delimits a frame in any stream that starts with it. *)
From S2P Require Import Prelude.

Definition MAGIC : Z := 0xCAFE.
Definition VERSION : Z := 1.
Definition HEADER_SIZE : Z := 12.
Definition MAX_KEY_SIZE : Z := 64 * 1024.
Definition MAX_VALUE_SIZE : Z := 1024 * 1024.
Definition MAX_WIRE_VALUE_SIZE : Z := MAX_VALUE_SIZE + 64.
Definition MAX_FRAME_SIZE : Z := HEADER_SIZE + MAX_KEY_SIZE + MAX_WIRE_VALUE_SIZE.

Inductive Command := SET | GET | DEL | STATS | LOOKUP | SET_TTL | UNKNOWN.

#[export] Instance Command_eq_dec : EqDecision Command.
Proof. solve_decision. Defined.

(** The underlying [uint8_t] of a command, and the [static_cast] back. *)
Definition command_code (c : Command) : Z :=
  match c with
  | SET => 1 | GET => 2 | DEL => 3 | STATS => 4 | LOOKUP => 5 | SET_TTL => 6 | UNKNOWN => 0
  end.
Definition command_of (z : Z) : Command :=
  if z =? 1 then SET else if z =? 2 then GET else if z =? 3 then DEL
  else if z =? 4 then STATS else if z =? 5 then LOOKUP else if z =? 6 then SET_TTL
  else UNKNOWN.

Record Header := mkHeader {
  magic : Z;
  version : Z;
  command : Z;
  key_len : Z;
  value_len : Z
}.

Module Message.

Definition valid (h : Header) : bool :=
  negb (negb (magic h =? MAGIC) || negb (version h =? VERSION) || (command h <? 1) || (6 <? command h) ||
        (MAX_KEY_SIZE <? key_len h) || (MAX_WIRE_VALUE_SIZE <? value_len h)).

Definition validate (h : Header) : outcome unit :=
  if valid h then Ret tt else Throw std_runtime_error.

Definition encode (c : Command) (key value : bytes) : outcome bytes :=
  if (MAX_KEY_SIZE <? zlen key) || (MAX_WIRE_VALUE_SIZE <? zlen value) then Throw std_length_error
  else
    let header := mkHeader MAGIC VERSION (command_code c) (u32 (zlen key)) (u32 (zlen value)) in
    _ ← validate header;
    Ret (be_split 2 MAGIC ++ [byte.of_Z VERSION] ++ [byte.of_Z (command header)] ++
         be_split 4 (key_len header) ++ be_split 4 (value_len header) ++ key ++ value).

(** Reading fewer than [HEADER_SIZE] bytes runs off the buffer. *)
Definition decodeHeader (b : bytes) : outcome Header :=
  match b !! 2%nat, b !! 3%nat with
  | Some ver, Some cmd =>
      if zlen b <? HEADER_SIZE then Undef
      else Ret (mkHeader (be_combine b.[0, 2]) (byte.unsigned ver) (byte.unsigned cmd)
                         (be_combine b.[4, 4]) (be_combine b.[8, 4]))
  | _, _ => Undef
  end.

(** [HEADER_SIZE + size_t(h.key_len) + h.value_len] *)
Definition total (h : Header) : Z := HEADER_SIZE + key_len h + value_len h.

(** [std::string(data + HEADER_SIZE, h.key_len)] and the value that follows it. *)
Definition body_key (h : Header) (b : bytes) : bytes := b.[Z.to_nat HEADER_SIZE, Z.to_nat (key_len h)].
Definition body_value (h : Header) (b : bytes) : bytes :=
  b.[Z.to_nat (HEADER_SIZE + key_len h), Z.to_nat (value_len h)].

End Message.

(** The frame sizer given to [TcpServer::setFrameSizer] and to [AsyncTransport]. *)
Definition frame_size (b : bytes) : outcome Z :=
  if zlen b <? HEADER_SIZE then Ret 0
  else h ← Message.decodeHeader b; _ ← Message.validate h; Ret (Message.total h).

(** * Header lemmas *)

Section HeaderLemmas.

Lemma command_of_code c : command_of (command_code c) = c.
Proof. by destruct c. Qed.

Lemma command_code_of z : 1 <= z <= 6 -> command_code (command_of z) = z.
Proof.
  intros. assert (z = 1 \/ z = 2 \/ z = 3 \/ z = 4 \/ z = 5 \/ z = 6) as Hz by lia.
  by destruct Hz as [->|[->|[->|[->|[->| ->]]]]].
Qed.

Lemma valid_iff h :
  Message.valid h = true <->
  magic h = MAGIC /\ version h = VERSION /\ 1 <= command h <= 6 /\
  key_len h <= MAX_KEY_SIZE /\ value_len h <= MAX_WIRE_VALUE_SIZE.
Proof. unfold Message.valid. lia. Qed.

Lemma validate_Ret h u : Message.validate h = Ret u <-> Message.valid h = true.
Proof. unfold Message.validate. destruct u. by destruct (Message.valid h). Qed.

(** The bytes of a header followed by a body. *)
Definition header_bytes (h : Header) : bytes :=
  be_split 2 (magic h) ++ [byte.of_Z (version h)] ++ [byte.of_Z (command h)] ++
  be_split 4 (key_len h) ++ be_split 4 (value_len h).

Lemma length_header_bytes h : length (header_bytes h) = 12%nat.
Proof. unfold header_bytes. by rewrite !length_app, !length_be_split. Qed.

Definition header_ok (h : Header) : Prop :=
  0 <= magic h < 2 ^ 16 /\ 0 <= version h < 2 ^ 8 /\ 0 <= command h < 2 ^ 8 /\
  0 <= key_len h < 2 ^ 32 /\ 0 <= value_len h < 2 ^ 32.

Lemma decodeHeader_header_bytes h rest :
  header_ok h -> Message.decodeHeader (header_bytes h ++ rest) = Ret h.
Proof.
  intros (Hm & Hv & Hc & Hk & Hl). unfold Message.decodeHeader, header_bytes.
  assert (exists a b, be_split 2 (magic h) = [a; b]) as (a & b & Em).
  { pose proof (length_be_split 2 (magic h)) as L.
    destruct (be_split 2 (magic h)) as [|? [|? []]]; try done. eauto. }
  pose proof (be_combine_split_small 2 (magic h)) as Bm.
  pose proof (be_combine_split_small 4 (key_len h)) as Bk.
  pose proof (be_combine_split_small 4 (value_len h)) as Bv.
  pose proof (length_be_split 4 (key_len h)) as Lk.
  pose proof (length_be_split 4 (value_len h)) as Lv.
  destruct (be_split 4 (key_len h)) as [|k0 [|k1 [|k2 [|k3 []]]]] eqn:Ek; try done.
  destruct (be_split 4 (value_len h)) as [|v0 [|v1 [|v2 [|v3 []]]]] eqn:Ev; try done.
  rewrite Em in *. simpl app.
  simpl. assert (zlen rest >= 0) by (pose proof (zlen_nonneg rest); lia).
  destruct (Z.ltb_spec (zlen (a :: b :: byte.of_Z (version h) :: byte.of_Z (command h) ::
    k0 :: k1 :: k2 :: k3 :: v0 :: v1 :: v2 :: v3 :: rest)) HEADER_SIZE) as [Hs|_].
  { autorewrite with kv in Hs. unfold HEADER_SIZE in Hs. lia. }
  rewrite !byte.unsigned_of_Z. unfold byte.wrap.
  rewrite take_0, !Z.mod_small, Bm, Bk, Bv by lia. by destruct h.
Qed.

(** Decoding any buffer of at least twelve bytes succeeds, and its first twelve
    bytes are the encoding of the decoded header. *)
Lemma decodeHeader_total b :
  HEADER_SIZE <= zlen b ->
  exists h, Message.decodeHeader b = Ret h /\ header_ok h /\
            b = header_bytes h ++ drop 12 b.
Proof.
  intros Hlen. unfold zlen, HEADER_SIZE in Hlen. unfold Message.decodeHeader.
  destruct b as [|b0 [|b1 [|b2 [|b3 [|b4 [|b5 [|b6 [|b7 [|b8 [|b9 [|b10 [|b11 r]]]]]]]]]]]];
    simpl in Hlen; try lia.
  simpl. destruct (Z.ltb_spec (zlen (b0 :: b1 :: b2 :: b3 :: b4 :: b5 :: b6 :: b7 :: b8 :: b9 :: b10 :: b11 :: r)) HEADER_SIZE).
  { unfold zlen, HEADER_SIZE in *. simpl in *. lia. }
  eexists; split; [done|]. rewrite take_0.
  pose proof (byte.unsigned_range b2). pose proof (byte.unsigned_range b3).
  pose proof (be_combine_range [b0; b1]). pose proof (be_combine_range [b4; b5; b6; b7]).
  pose proof (be_combine_range [b8; b9; b10; b11]). simpl length in *.
  split.
  - unfold header_ok. simpl in *. lia.
  - unfold header_bytes. simpl. rewrite !byte.of_Z_unsigned, !be_split_combine by done. done.
Qed.

End HeaderLemmas.

(** * Encoding *)

Definition encodable (c : Command) (key value : bytes) : Prop :=
  c <> UNKNOWN /\ zlen key <= MAX_KEY_SIZE /\ zlen value <= MAX_WIRE_VALUE_SIZE.

#[export] Instance encodable_dec c k v : Decision (encodable c k v).
Proof. unfold encodable. apply _. Defined.

Definition header_of (c : Command) (key value : bytes) : Header :=
  mkHeader MAGIC VERSION (command_code c) (zlen key) (zlen value).

Lemma header_of_valid c key value :
  encodable c key value -> Message.valid (header_of c key value) = true.
Proof. intros (Hc & Hk & Hv). apply valid_iff. simpl. by destruct c. Qed.

Lemma header_of_ok c key value : encodable c key value -> header_ok (header_of c key value).
Proof.
  intros (Hc & Hk & Hv). pose proof (zlen_nonneg key). pose proof (zlen_nonneg value).
  unfold header_ok, MAX_KEY_SIZE, MAX_WIRE_VALUE_SIZE, MAX_VALUE_SIZE in *. simpl.
  unfold MAGIC, VERSION. repeat split; try lia; destruct c; simpl; lia.
Qed.

Lemma encode_Ret c key value :
  encodable c key value ->
  Message.encode c key value = Ret (header_bytes (header_of c key value) ++ key ++ value).
Proof.
  intros He. pose proof (header_of_valid _ _ _ He) as Hv. destruct He as (Hc & Hk & Hl).
  unfold Message.encode. rewrite (proj2 (Z.ltb_ge _ _)), (proj2 (Z.ltb_ge _ _)) by done. simpl.
  pose proof (zlen_nonneg key). pose proof (zlen_nonneg value).
  rewrite !u32_small by (unfold MAX_KEY_SIZE, MAX_WIRE_VALUE_SIZE, MAX_VALUE_SIZE in *; lia).
  unfold header_of in Hv. unfold Message.validate. rewrite Hv. unfold header_bytes, header_of. simpl.
  by rewrite <-!app_assoc.
Qed.

Lemma encode_Ret_inv c key value b :
  Message.encode c key value = Ret b ->
  encodable c key value /\ b = header_bytes (header_of c key value) ++ key ++ value.
Proof.
  intros E. assert (encodable c key value) as He.
  { revert E. unfold Message.encode, Message.validate, encodable.
    destruct (Z.ltb_spec MAX_KEY_SIZE (zlen key)); [done|].
    destruct (Z.ltb_spec MAX_WIRE_VALUE_SIZE (zlen value)); [done|]. simpl.
    intros E. split; [|lia]. by intros ->. }
  split; [done|]. rewrite encode_Ret in E by done. by injection E.
Qed.

Lemma decodeHeader_frame c key value rest :
  encodable c key value ->
  Message.decodeHeader ((header_bytes (header_of c key value) ++ key ++ value) ++ rest) =
  Ret (header_of c key value).
Proof. intros. rewrite <-app_assoc. by apply decodeHeader_header_bytes, header_of_ok. Qed.

Lemma body_key_frame c key value rest :
  Message.body_key (header_of c key value) ((header_bytes (header_of c key value) ++ key ++ value) ++ rest) = key.
Proof.
  unfold Message.body_key. rewrite <-!app_assoc. simpl key_len. unfold zlen. rewrite Nat2Z.id.
  rewrite slice_app_r by (by rewrite length_header_bytes). apply take_app_length.
Qed.

Lemma body_value_frame c key value rest :
  Message.body_value (header_of c key value) ((header_bytes (header_of c key value) ++ key ++ value) ++ rest) = value.
Proof.
  unfold Message.body_value. rewrite <-!app_assoc. simpl key_len. simpl value_len.
  unfold zlen. rewrite Nat2Z.id, app_assoc, slice_app_r; [apply take_app_length|].
  rewrite length_app, length_header_bytes. unfold HEADER_SIZE. lia.
Qed.

Lemma zlen_frame c key value :
  zlen (header_bytes (header_of c key value) ++ key ++ value) = HEADER_SIZE + zlen key + zlen value.
Proof. autorewrite with kv. unfold zlen at 1. rewrite length_header_bytes. unfold HEADER_SIZE. lia. Qed.

Lemma encode_cases c key value :
  (exists b, Message.encode c key value = Ret b) \/ Message.encode c key value = Throw std_length_error \/
  (c = UNKNOWN /\ Message.encode c key value = Throw std_runtime_error).
Proof.
  destruct (decide (encodable c key value)) as [He|He]; [left; rewrite encode_Ret by done; eauto|right].
  unfold Message.encode, encodable in *. destruct (_ || _)%bool eqn:E; [by left|].
  apply orb_false_iff in E as [? ?]. zify_bools. right. destruct (decide (c = UNKNOWN)) as [->|]; [done|].
  exfalso. apply He. split_and!; [done|lia|lia].
Qed.

(** * Framing lemmas *)

Lemma frame_size_frame c key value rest :
  encodable c key value ->
  frame_size ((header_bytes (header_of c key value) ++ key ++ value) ++ rest) =
  Ret (HEADER_SIZE + zlen key + zlen value).
Proof.
  intros He. unfold frame_size. pose proof (zlen_nonneg key). pose proof (zlen_nonneg value).
  pose proof (zlen_nonneg rest).
  rewrite zlen_app, zlen_frame, (proj2 (Z.ltb_ge _ _)) by lia.
  rewrite decodeHeader_frame by done. simpl. unfold Message.validate. by rewrite header_of_valid.
Qed.

(** Any buffer the sizer accepts decodes, and its size is a valid frame's size. *)
Lemma frame_size_Ret_inv b n :
  frame_size b = Ret n ->
  (n = 0 /\ zlen b < HEADER_SIZE) \/
  exists h, Message.decodeHeader b = Ret h /\ Message.valid h = true /\ header_ok h /\ n = Message.total h.
Proof.
  unfold frame_size. destruct (Z.ltb_spec (zlen b) HEADER_SIZE) as [|Hl]; [intros [= <-]; by left|].
  destruct (decodeHeader_total b Hl) as (h & -> & Hok & _). simpl. unfold Message.validate.
  destruct (Message.valid h) eqn:Ev; [|done]. intros [= <-]. right. eauto.
Qed.

Lemma total_bounds h :
  header_ok h -> Message.valid h = true -> HEADER_SIZE <= Message.total h <= MAX_FRAME_SIZE.
Proof.
  intros (_ & _ & _ & Hk & Hv) (_ & _ & _ & ? & ?)%valid_iff. unfold Message.total, MAX_FRAME_SIZE. lia.
Qed.

(** A strict prefix that already holds a whole header has the same header. *)
Lemma decodeHeader_prefix p b :
  p `prefix_of` b -> HEADER_SIZE <= zlen p -> Message.decodeHeader p = Message.decodeHeader b.
Proof.
  intros [k ->] Hl. destruct (decodeHeader_total p Hl) as (h & -> & Hok & ->).
  rewrite <-app_assoc. by rewrite decodeHeader_header_bytes.
Qed.

(** * Properties *)

(** C38. Round trip: whatever [Message::encode] produces, [decodeHeader] reads back a
    header that [validate] accepts, with the command and the two lengths, and slicing the
    body by those lengths gives the key and the value back, whatever bytes follow. *)
Theorem encode_decode_roundtrip c key value frame rest :
  Message.encode c key value = Ret frame ->
  exists h, Message.decodeHeader (frame ++ rest) = Ret h /\ Message.validate h = Ret tt /\
    command_of (command h) = c /\ Message.total h = zlen frame /\
    Message.body_key h (frame ++ rest) = key /\ Message.body_value h (frame ++ rest) = value.
Proof.
  intros [He ->]%encode_Ret_inv. exists (header_of c key value).
  split; [by apply decodeHeader_frame|]. split; [by apply validate_Ret, header_of_valid|].
  split; [apply command_of_code|]. split; [by rewrite zlen_frame|].
  split; [apply body_key_frame|apply body_value_frame].
Qed.

Lemma encode_decode_roundtrip_witness :
  Message.encode SET (str "k") (str "v") = Ret (map byte.of_Z [0xca; 0xfe; 1; 1; 0; 0; 0; 1; 0; 0; 0; 1; 107; 118]) /\
  exists h, Message.decodeHeader (map byte.of_Z [0xca; 0xfe; 1; 1; 0; 0; 0; 1; 0; 0; 0; 1; 107; 118] ++ []) = Ret h /\
    Message.validate h = Ret tt /\ command_of (command h) = SET /\ Message.total h = 14 /\
    Message.body_key h (map byte.of_Z [0xca; 0xfe; 1; 1; 0; 0; 0; 1; 0; 0; 0; 1; 107; 118] ++ []) = str "k" /\
    Message.body_value h (map byte.of_Z [0xca; 0xfe; 1; 1; 0; 0; 0; 1; 0; 0; 0; 1; 107; 118] ++ []) = str "v".
Proof.
  assert (E : Message.encode SET (str "k") (str "v") =
    Ret (map byte.of_Z [0xca; 0xfe; 1; 1; 0; 0; 0; 1; 0; 0; 0; 1; 107; 118])) by (vm_compute; reflexivity).
  split; [exact E|]. exact (encode_decode_roundtrip _ _ _ _ [] E).
Defined.

(** The encoding is canonical: a buffer that decodes to a valid header and has exactly
    the announced length is what [Message::encode] produces from the sliced key and value. *)
Lemma decode_encode_canonical b h :
  Message.decodeHeader b = Ret h -> Message.valid h = true -> zlen b = Message.total h ->
  Message.encode (command_of (command h)) (Message.body_key h b) (Message.body_value h b) = Ret b.
Proof.
  intros Hd Hv Hl. assert (HEADER_SIZE <= zlen b) as Hlen.
  { unfold Message.decodeHeader in Hd. destruct (b !! 2%nat), (b !! 3%nat); try done.
    by destruct (Z.ltb_spec (zlen b) HEADER_SIZE). }
  destruct (decodeHeader_total b Hlen) as (h' & Hd' & Hok & Hb).
  rewrite Hd in Hd'. injection Hd' as <-.
  pose proof (proj1 (valid_iff h) Hv) as (Hm & Hver & Hc & Hk & Hval).
  destruct Hok as (_ & _ & _ & Hk0 & Hv0). unfold Message.total in Hl. unfold zlen, HEADER_SIZE in *.
  assert (zlen (Message.body_key h b) = key_len h) as Lk.
  { unfold Message.body_key, zlen, HEADER_SIZE. rewrite length_take, length_drop. lia. }
  assert (zlen (Message.body_value h b) = value_len h) as Lv.
  { unfold Message.body_value, zlen, HEADER_SIZE. rewrite length_take, length_drop. lia. }
  rewrite encode_Ret.
  - transitivity (Ret (header_bytes h ++ drop 12 b)); [|by rewrite <-Hb]. f_equal. f_equal.
    + f_equal. unfold header_of. rewrite Lk, Lv, command_code_of by done. destruct h; simpl in *. congruence.
    + unfold Message.body_key, Message.body_value.
      replace (Z.to_nat (HEADER_SIZE + key_len h)) with (12 + Z.to_nat (key_len h))%nat
        by (unfold HEADER_SIZE; lia).
      change (Z.to_nat HEADER_SIZE) with 12%nat. rewrite <-drop_drop, (take_ge (drop _ _) (Z.to_nat (value_len h))).
      * by rewrite take_drop.
      * rewrite !length_drop. lia.
  - split_and!; [|lia|lia]. intros E. pose proof (command_code_of _ Hc) as E'. rewrite E in E'. simpl in E'. lia.
Qed.

(** [Message::encode] fails exactly on its documented conditions: a key or value above
    the protocol limit gives [length_error], the [UNKNOWN] command gives [runtime_error], and
    every other input is encoded into [HEADER_SIZE + key + value] bytes. *)
Lemma encode_outcome c key value :
  Message.encode c key value =
    if bool_decide (MAX_KEY_SIZE < zlen key \/ MAX_WIRE_VALUE_SIZE < zlen value) then Throw std_length_error
    else if bool_decide (c = UNKNOWN) then Throw std_runtime_error
    else Ret (be_split 2 0xCAFE ++ [byte.of_Z 1; byte.of_Z (command_code c)] ++
              be_split 4 (zlen key) ++ be_split 4 (zlen value) ++ key ++ value).
Proof.
  case_bool_decide as Hlong.
  { unfold Message.encode. replace ((MAX_KEY_SIZE <? zlen key) || (MAX_WIRE_VALUE_SIZE <? zlen value))%bool with true by lia. done. }
  case_bool_decide as Hc.
  { subst c. unfold Message.encode. replace ((MAX_KEY_SIZE <? zlen key) || (MAX_WIRE_VALUE_SIZE <? zlen value))%bool with false by lia. done. }
  rewrite encode_Ret by (split_and!; [done|lia|lia]). unfold header_bytes, header_of. simpl.
  by rewrite <-!app_assoc.
Qed.

(** Framing: in a stream that starts with an encoded frame the sizer answers that frame's
    length, never more than [MAX_FRAME_SIZE]; on every strict prefix of the frame it answers
    "not yet" (zero, or a size above what has arrived), so a frame is never cut short. *)
Lemma frame_size_delimits c key value frame :
  Message.encode c key value = Ret frame ->
  (forall rest, frame_size (frame ++ rest) = Ret (zlen frame)) /\ zlen frame <= MAX_FRAME_SIZE /\
  (forall p, p `prefix_of` frame -> p <> frame ->
     exists n, frame_size p = Ret n /\ (n = 0 \/ zlen p < n)).
Proof.
  intros [He ->]%encode_Ret_inv. rewrite zlen_frame. split; [|split].
  - intros rest. by apply frame_size_frame.
  - destruct He as (_ & ? & ?). unfold MAX_FRAME_SIZE. lia.
  - intros p Hp Hne. destruct (Z.lt_ge_cases (zlen p) HEADER_SIZE) as [Hs|Hs].
    { exists 0. unfold frame_size. rewrite (proj2 (Z.ltb_lt _ _)) by done. by split; [|left]. }
    exists (HEADER_SIZE + zlen key + zlen value). split.
    + pose proof (frame_size_frame c key value [] He) as F. rewrite app_nil_r in F.
      unfold frame_size in F |- *. rewrite (proj2 (Z.ltb_ge (zlen p) _)) by done.
      pose proof (zlen_nonneg key). pose proof (zlen_nonneg value).
      rewrite zlen_frame, (proj2 (Z.ltb_ge _ _)) in F by lia.
      by rewrite (decodeHeader_prefix p _ Hp Hs).
    + right. rewrite <-(zlen_frame c). destruct Hp as [k Hk]. rewrite Hk, zlen_app.
      destruct k; [by rewrite app_nil_r in Hk|]. rewrite zlen_cons. pose proof (zlen_nonneg k). lia.
Qed.

