(* ===== verification/Buffer.v ===== *)
(** [kvrpc::Buffer] (include/kvrpc/buffer.h): a byte vector with a read offset.  It refines a plain
    byte queue, and the storage it keeps is bounded by the bytes still to be read. *)
From S2P Require Import Prelude.

Module Buffer.

Record buffer := mkBuffer { bytes_ : bytes; read_ : Z }.
Definition empty : buffer := mkBuffer [] 0.

Definition size (b : buffer) : Z := u64 (zlen (bytes_ b) - read_ b).

Definition append (data : bytes) (b : buffer) : buffer :=
  let b := if negb (read_ b =? 0) && (zlen (bytes_ b) / 2 <=? read_ b)
           then mkBuffer (drop (Z.to_nat (read_ b)) (bytes_ b)) 0 else b in
  mkBuffer (bytes_ b ++ data) (read_ b).

Definition consume (n : Z) (b : buffer) : buffer :=
  let r := u64 (read_ b + n) in
  if r =? zlen (bytes_ b) then mkBuffer [] 0 else mkBuffer (bytes_ b) r.

(** [data()] and [copy(n)]; reading past the end of the vector is undefined. *)
Definition data (b : buffer) : bytes := drop (Z.to_nat (read_ b)) (bytes_ b).
Definition copy (n : Z) (b : buffer) : outcome bytes :=
  if zlen (bytes_ b) <? read_ b + n then Undef else Ret (take (Z.to_nat n) (data b)).

(** The offset lies inside the vector, which fits an address space. *)
Definition Inv (b : buffer) : Prop := 0 <= read_ b <= zlen (bytes_ b) /\ zlen (bytes_ b) < 2 ^ 64.

Lemma empty_Inv : Inv empty.
Proof. unfold Inv, empty, zlen. simpl. lia. Qed.

Lemma size_data b : Inv b -> size b = zlen (data b).
Proof.
  intros [Hr Hz]. unfold size, data. rewrite u64_small by lia. unfold zlen in *. rewrite length_drop. lia.
Qed.

Lemma copy_data n b : Inv b -> 0 <= n <= zlen (data b) -> copy n b = Ret (take (Z.to_nat n) (data b)).
Proof.
  intros [Hr Hz] Hn. unfold copy, data, zlen in *. rewrite length_drop in Hn. by rewrite (proj2 (Z.ltb_ge _ _)) by lia.
Qed.

Lemma append_data d b : Inv b -> data (append d b) = data b ++ d.
Proof.
  intros [Hr Hz]. unfold append, data. destruct (_ && _)%bool; cbn; [by rewrite drop_0|].
  unfold zlen in *. by rewrite drop_app_le by lia.
Qed.

Lemma append_Inv d b : Inv b -> zlen (data b) + zlen d < 2 ^ 63 -> Inv (append d b).
Proof.
  intros [Hr Hz] Hd. pose proof (zlen_nonneg d). unfold append, Inv. destruct (negb (read_ b =? 0) && _)%bool eqn:E; cbn.
  - rewrite zlen_app. unfold data in Hd. pose proof (zlen_nonneg (drop (Z.to_nat (read_ b)) (bytes_ b))). lia.
  - rewrite zlen_app. unfold data, zlen in *. rewrite length_drop in Hd.
    destruct (Z.eqb_spec (read_ b) 0); cbn in E; zify_bools.
    + lia.
    + assert (2 * (Z.of_nat (length (bytes_ b)) / 2) <= Z.of_nat (length (bytes_ b))) by (apply Z.mul_div_le; lia). lia.
Qed.

Lemma consume_data n b : Inv b -> 0 <= n <= zlen (data b) -> data (consume n b) = drop (Z.to_nat n) (data b) /\ Inv (consume n b).
Proof.
  intros [Hr Hz] Hn. unfold consume, data in *. unfold zlen in *. rewrite length_drop in Hn. rewrite u64_small by lia.
  destruct (Z.eqb_spec (read_ b + n) (Z.of_nat (length (bytes_ b)))) as [E|E].
  - split; [|apply empty_Inv]. cbn [bytes_ read_]. rewrite drop_nil, drop_drop. symmetry. apply drop_ge. lia.
  - split; [|unfold Inv, zlen; cbn; lia]. cbn. rewrite drop_drop. f_equal. lia.
Qed.

(** * Any sequence of calls *)

(** [consume] and [copy] are only called with at most [size()] bytes. *)
Inductive op := Append (d : bytes) | Consume (n : Z).
Definition run_op (o : op) (b : buffer) : buffer := match o with Append d => append d b | Consume n => consume n b end.
(** The byte queue the buffer stands for. *)
Definition queue_op (o : op) (q : bytes) : bytes := match o with Append d => q ++ d | Consume n => drop (Z.to_nat n) q end.
Definition allowed (o : op) (q : bytes) : Prop :=
  match o with Append d => zlen q + zlen d < 2 ^ 63 | Consume n => 0 <= n <= zlen q end.

Fixpoint allowed_all (os : list op) (q : bytes) : Prop :=
  match os with [] => True | o :: os => allowed o q /\ allowed_all os (queue_op o q) end.

Lemma run_op_refines o b : Inv b -> allowed o (data b) -> data (run_op o b) = queue_op o (data b) /\ Inv (run_op o b).
Proof.
  intros Hi Ha. destruct o as [d|n]; cbn in *; [split; [by apply append_data|by apply append_Inv]|by apply consume_data].
Qed.

Lemma run_ops_refine ops b :
  Inv b -> allowed_all ops (data b) ->
  data (fold_left (fun b o => run_op o b) ops b) = fold_left (fun q o => queue_op o q) ops (data b) /\
  Inv (fold_left (fun b o => run_op o b) ops b).
Proof.
  revert b. induction ops as [|o ops IH]; intros b Hi Ha; [done|]. destruct Ha as [Ho Ha].
  destruct (run_op_refines o b Hi Ho) as [Hd Hi']. cbn [fold_left]. rewrite <-Hd in *. by apply IH.
Qed.

(** The buffer is a byte queue: after any sequence of appends and of consumes within
    [size()], [data()]/[size()]/[copy()] show exactly the bytes appended and not yet consumed. *)
Lemma buffer_is_queue ops :
  allowed_all ops [] ->
  let b := fold_left (fun b o => run_op o b) ops empty in
  let q := fold_left (fun q o => queue_op o q) ops [] in
  data b = q /\ size b = zlen q /\ forall n, 0 <= n <= zlen q -> copy n b = Ret (take (Z.to_nat n) q).
Proof.
  intros Ha b q. assert (data b = q /\ Inv b) as [Hd Hi].
  { apply (run_ops_refine ops empty empty_Inv Ha). }
  split; [done|]. split; [by rewrite size_data, Hd|]. intros n Hn. unfold copy. destruct Hi as [Hr Hz]. rewrite <-Hd in Hn |- *.
  unfold data, zlen in Hn, Hr |- *. rewrite length_drop in Hn. rewrite (proj2 (Z.ltb_ge _ _)) by lia. done.
Qed.

(** Bounded waste: right after an append, the vector holds at most twice the unread bytes. *)
Lemma append_bounded_waste d b : Inv b -> zlen (bytes_ (append d b)) <= 2 * zlen (data (append d b)).
Proof.
  intros Hi. rewrite append_data by done. destruct Hi as [Hr Hz]. pose proof (zlen_nonneg d).
  unfold append, data. rewrite !zlen_app. destruct (negb (read_ b =? 0) && _)%bool eqn:E; cbn [bytes_]; rewrite ?zlen_app.
  - pose proof (zlen_nonneg (drop (Z.to_nat (read_ b)) (bytes_ b))). lia.
  - unfold zlen in *. rewrite length_drop. destruct (Z.eqb_spec (read_ b) 0); cbn in E; zify_bools; [lia|].
    assert (2 * (Z.of_nat (length (bytes_ b)) / 2) <= Z.of_nat (length (bytes_ b))) by (apply Z.mul_div_le; lia). lia.
Qed.

End Buffer.
