(* ===== verification/Executor.v ===== *)
(** [kvrpc::ClientOptions] and [kvrpc::Executor] (include/kvrpc/executor.h): a bounded queue of functions
    run by worker threads.  The threads interleave at the critical sections of [mutex_]; a wait on
    [ready_] is a guard, since it is made with a predicate. *)
From S2P Require Import Prelude.

Record ClientOptions := mkClientOptions {
  o_workers : Z; queue_capacity : Z; max_frame_bytes : Z; queue_bytes : Z; max_inflight : Z
}.
Definition default_client_options : ClientOptions := mkClientOptions 4 64 (2 * 1024 * 1024) (64 * 1024 * 1024) 16.

Module Executor.
Section Executor.
Context {Result : Type}.

(** A function is what running it gives: [std::packaged_task] stores a result or an exception. *)
Abbreviation function := (outcome Result).
Inductive future := Pending | Ready (r : outcome Result).
(** A queued task is the future it makes ready and its function. *)
Abbreviation task := (nat * function)%type.
Inductive worker := Waiting | Running (t : task) | Returned.

(** [futures] are the futures handed out, [functions] what was submitted for each. *)
Record executor := mkExecutor {
  capacity_ : Z; tasks_ : list task; stopping_ : bool; workers_ : list worker;
  futures : list future; functions : list function
}.

(** [spawned] is whether the threads could be started; a failure stops and joins those that were. *)
Definition make (o : ClientOptions) (spawned : bool) : outcome executor :=
  if (o_workers o =? 0) || (256 <? o_workers o) || (queue_capacity o =? 0) || (65536 <? queue_capacity o) ||
     (max_frame_bytes o =? 0) || (64 * 1024 * 1024 <? max_frame_bytes o)
  then Throw (KvError invalid_argument)
  else if spawned then Ret (mkExecutor (queue_capacity o) [] false (replicate (Z.to_nat (o_workers o)) Waiting) [] [])
  else Throw std_system_error.

Definition Submit (f : function) (e : executor) : executor :=
  if stopping_ e || (capacity_ e <=? zlen (tasks_ e))
  then mkExecutor (capacity_ e) (tasks_ e) (stopping_ e) (workers_ e)
         (futures e ++ [Ready (Throw (KvError (if stopping_ e then closed else overloaded)))]) (functions e ++ [f])
  else mkExecutor (capacity_ e) (tasks_ e ++ [(length (futures e), f)]) (stopping_ e) (workers_ e)
         (futures e ++ [Pending]) (functions e ++ [f]).

(** The start of [Stop]; it then joins the workers. *)
Definition Stop (e : executor) : executor :=
  mkExecutor (capacity_ e) (tasks_ e) true (workers_ e) (futures e) (functions e).

(** One turn of [Run] by worker [i]: past the wait, or running the task it took. *)
Definition Run (i : nat) (e : executor) : option executor :=
  match workers_ e !! i with
  | Some Waiting =>
      if stopping_ e || negb (bool_decide (tasks_ e = [])) then
        match tasks_ e with
        | [] => Some (mkExecutor (capacity_ e) [] (stopping_ e) (<[i := Returned]> (workers_ e)) (futures e) (functions e))
        | t :: ts => Some (mkExecutor (capacity_ e) ts (stopping_ e) (<[i := Running t]> (workers_ e)) (futures e) (functions e))
        end
      else None
  | Some (Running t) =>
      Some (mkExecutor (capacity_ e) (tasks_ e) (stopping_ e) (<[i := Waiting]> (workers_ e)) (<[t.1 := Ready t.2]> (futures e)) (functions e))
  | Some Returned | None => None
  end.

Inductive step : executor -> executor -> Prop :=
| step_submit f e : step e (Submit f e)
| step_stop e : step e (Stop e)
| step_run i e e' : Run i e = Some e' -> step e e'.

(** * What the executor promises *)

Definition running (w : worker) : list task := match w with Running t => [t] | _ => [] end.
(** The tasks that have been accepted and not finished. *)
Definition held (e : executor) : list task := tasks_ e ++ (workers_ e ≫= running).
Definition rejection (r : outcome Result) : Prop := r = Throw (KvError closed) \/ r = Throw (KvError overloaded).

Record Inv (e : executor) : Prop := {
  i_capacity : zlen (tasks_ e) <= capacity_ e;
  i_functions : length (functions e) = length (futures e);
  i_nodup : NoDup (held e).*1;
  i_held : forall k f, (k, f) ∈ held e -> futures e !! k = Some Pending /\ functions e !! k = Some f;
  i_pending : forall k, futures e !! k = Some Pending -> k ∈ (held e).*1;
  i_ready : forall k r, futures e !! k = Some (Ready r) -> functions e !! k = Some r \/ rejection r;
  i_returned : Returned ∈ workers_ e -> stopping_ e = true /\ tasks_ e = []
}.

Lemma running_insert (ws : list worker) i w w' : ws !! i = Some w ->
  running w ++ (<[i := w']> ws ≫= running) ≡ₚ running w' ++ (ws ≫= running).
Proof.
  intros H. rewrite insert_take_drop by (by eapply lookup_lt_Some). rewrite <-(take_drop_middle ws i w H) at 3.
  rewrite !bind_app, !bind_cons. solve_Permutation.
Qed.

Lemma elem_of_insert {A} (x y : A) i (l : list A) : x ∈ <[i := y]> l -> x = y \/ x ∈ l.
Proof.
  intros [j Hj]%list_elem_of_lookup. apply list_lookup_insert_Some in Hj as [(_ & -> & _)|[_ Hj]]; [by left|right]. by eapply list_elem_of_lookup_2.
Qed.

Lemma executor_Inv o b e : 0 < queue_capacity o -> make o b = Ret e -> Inv e.
Proof.
  intros Hc. unfold make. destruct (_ || _); [done|]. destruct b; [|done]. intros [= <-].
  assert (replicate (Z.to_nat (o_workers o)) Waiting ≫= running = []) as Hr by (induction (Z.to_nat _); [done|by cbn]).
  assert (held (mkExecutor (queue_capacity o) [] false (replicate (Z.to_nat (o_workers o)) Waiting) [] []) = []) as Hh by (unfold held; cbn; by rewrite Hr).
  split; rewrite ?Hh; cbn; try done.
  - rewrite zlen_nil. lia.
  - constructor.
  - intros k f H. by apply not_elem_of_nil in H.
  - intros H. by apply elem_of_replicate in H as [? _].
Qed.

Lemma Submit_Inv f e : Inv e -> Inv (Submit f e).
Proof.
  intros [I1 I2 I3 I4 I5 I6 I7]. unfold Submit. destruct (stopping_ e || _) eqn:E.
  - split; cbn; try done; rewrite ?length_app; cbn; try lia.
    + intros k g H. destruct (I4 k g H). split; by apply lookup_app_l_Some.
    + intros k H. apply I5. apply lookup_snoc_Some in H as [[_ H]|[_ H]]; [done|by destruct (stopping_ e)].
    + intros k r H. apply lookup_snoc_Some in H as [[Hk H]|[_ H]]; [|simplify_eq; right; destruct (stopping_ e); [by left|by right]].
      destruct (I6 k r H) as [?|?]; [left|by right]. by apply lookup_app_l_Some.
  - apply orb_false_iff in E as [Es Ec]. zify_bools. assert (held (mkExecutor (capacity_ e) (tasks_ e ++ [(length (futures e), f)]) (stopping_ e) (workers_ e)
         (futures e ++ [Pending]) (functions e ++ [f])) ≡ₚ (length (futures e), f) :: held e) as Hp by (unfold held; cbn; solve_Permutation).
    assert (length (futures e) ∉ (held e).*1) as Hfresh.
    { intros ([k g] & Hk & Hin)%list_elem_of_fmap. cbn in Hk. subst. apply I4 in Hin as [Hin _]. apply lookup_lt_Some in Hin. lia. }
    split; cbn; rewrite ?Hp, ?length_app; cbn; try lia.
    + rewrite zlen_app, zlen_cons, zlen_nil. lia.
    + by constructor.
    + intros k g. rewrite Hp. intros [[= -> ->]|H]%elem_of_cons.
      * split; [by rewrite list_lookup_middle|rewrite <-I2; by rewrite list_lookup_middle].
      * destruct (I4 k g H). split; by apply lookup_app_l_Some.
    + intros k H. rewrite Hp. apply elem_of_cons. apply lookup_snoc_Some in H as [[_ H]|[-> _]]; [right; by apply I5|by left].
    + intros k r H. apply lookup_snoc_Some in H as [[_ H]|[_ H]]; [|done]. destruct (I6 k r H) as [?|?]; [left|by right].
      by apply lookup_app_l_Some.
    + intros H. destruct (I7 H) as [? _]. congruence.
Qed.

(** A turn that only moves a task between the queue and a worker. *)
Lemma move_Inv e ts ws : Inv e -> zlen ts <= capacity_ e ->
  held (mkExecutor (capacity_ e) ts (stopping_ e) ws (futures e) (functions e)) ≡ₚ held e ->
  (Returned ∈ ws -> stopping_ e = true /\ ts = []) ->
  Inv (mkExecutor (capacity_ e) ts (stopping_ e) ws (futures e) (functions e)).
Proof.
  intros [I1 I2 I3 I4 I5 I6 I7] Hc Hp Hr. split; cbn; try done.
  - by rewrite Hp.
  - intros k f. rewrite Hp. apply I4.
  - intros k. rewrite Hp. apply I5.
Qed.

Lemma Run_Inv i e e' : Inv e -> Run i e = Some e' -> Inv e'.
Proof.
  intros I. unfold Run. destruct (workers_ e !! i) as [[|t|]|] eqn:Ew; try done.
  - pose proof (i_capacity _ I) as Hc. destruct (stopping_ e || _) eqn:Es; [|done]. destruct (tasks_ e) as [|t ts] eqn:Et; intros [= <-].
    + rewrite orb_false_r in Es. apply move_Inv; [done|lia| |done]. unfold held. cbn. rewrite Et.
      by apply (running_insert _ _ _ Returned) in Ew.
    + rewrite zlen_cons in Hc. apply move_Inv; [done|lia| |].
      * unfold held. cbn. rewrite Et. apply (running_insert _ _ _ (Running t)) in Ew. cbn in Ew. rewrite Ew. solve_Permutation.
      * intros H. apply elem_of_insert in H as [H|H]; [done|]. destruct (i_returned _ I H) as [_ H']. congruence.
  - intros [= <-]. destruct t as [k f]. destruct I as [I1 I2 I3 I4 I5 I6 I7].
    assert (held e ≡ₚ (k, f) :: (tasks_ e ++ (<[i := Waiting]> (workers_ e) ≫= running))) as Hp.
    { unfold held. apply (running_insert _ _ _ Waiting) in Ew. cbn in Ew. rewrite <-Ew. solve_Permutation. }
    rewrite Hp in I3. cbn in I3. apply NoDup_cons in I3 as [Hk I3]. destruct (I4 k f) as [Hfk Hgk]; [rewrite Hp; by left|].
    split; cbn; try done.
    + by rewrite length_insert.
    + intros k' g Hin. assert (k' <> k) by (intros ->; apply Hk; by apply (list_elem_of_fmap_2 fst) in Hin).
      rewrite list_lookup_insert_ne by done. apply I4. rewrite Hp. by right.
    + intros k' H. apply list_lookup_insert_Some in H as [(_ & ? & _)|[Hne H]]; [done|]. apply I5 in H. rewrite Hp in H. by apply elem_of_cons in H as [->|H].
    + intros k' r H. apply list_lookup_insert_Some in H as [(<- & [= <-] & _)|[_ H]]; [by left|by apply I6].
    + intros H. apply elem_of_insert in H as [H|H]; [done|by apply I7].
Qed.

Lemma step_Inv e e' : step e e' -> Inv e -> Inv e'.
Proof.
  intros [f|?|i]; [by apply Submit_Inv| |by intros; eapply Run_Inv]. intros [I1 I2 I3 I4 I5 I6 I7]. split; cbn; try done. intros H; by destruct (I7 H).
Qed.

(** How many more turns the workers take once [Stop] has begun. *)
Definition turns_of (w : worker) : nat := match w with Waiting => 1 | Running _ => 2 | Returned => 0 end%nat.
Definition turns_left (e : executor) : nat := (2 * length (tasks_ e) + sum_list_with turns_of (workers_ e))%nat.

Lemma turns_insert (g : worker -> nat) ws i w w' : ws !! i = Some w ->
  (sum_list_with g (<[i := w']> ws) + g w = sum_list_with g ws + g w')%nat.
Proof.
  revert i. induction ws as [|x ws IH]; intros [|i]; simpl; try done; [intros [= ->]; lia|]. intros H. specialize (IH i H). lia.
Qed.

Lemma Run_decreases i e e' : Run i e = Some e' -> (turns_left e' < turns_left e)%nat.
Proof.
  unfold Run, turns_left. destruct (workers_ e !! i) as [[|t|]|] eqn:Ew; try done.
  - destruct (stopping_ e || _); [|done]. destruct (tasks_ e) as [|t ts]; intros [= <-]; cbn [tasks_ workers_ length];
      [pose proof (turns_insert turns_of _ _ _ Returned Ew)
      |pose proof (turns_insert turns_of _ _ _ (Running t) Ew)]; cbn in *; lia.
  - intros [= <-]. cbn [tasks_ workers_].
    pose proof (turns_insert turns_of _ _ _ Waiting Ew). cbn in *. lia.
Qed.

Lemma Run_enabled i w e : stopping_ e = true -> workers_ e !! i = Some w -> w <> Returned -> is_Some (Run i e).
Proof. intros Hs Hw Hn. unfold Run. rewrite Hw, Hs. destruct w; [|by eexists|done]. cbn. destruct (tasks_ e); by eexists. Qed.

(** C28. The executor runs every accepted function exactly once and drains on destruction, in every
    interleaving: the queue stays within its capacity; a future is ready with its function's own result
    or a rejection, or its task is held exactly once; once stopping, every turn of a worker brings the
    end nearer, a worker that has not returned can always take one, and when all have returned no
    future is left pending. *)
Theorem executor_drains o e0 e : make o true = Ret e0 -> 0 <= queue_capacity o -> rtc step e0 e ->
  zlen (tasks_ e) <= capacity_ e /\
  (forall k x, futures e !! k = Some x -> exists f, functions e !! k = Some f /\
    match x with
    | Ready r => r = f \/ rejection r
    | Pending => exists a b, held e = a ++ (k, f) :: b /\ k ∉ (a ++ b).*1
    end) /\
  (forall i e', Run i e = Some e' -> (turns_left e' < turns_left e)%nat) /\
  (stopping_ e = true -> forall i w, workers_ e !! i = Some w -> w <> Returned -> is_Some (Run i e)) /\
  (Forall (eq Returned) (workers_ e) -> workers_ e <> [] -> Pending ∉ futures e).
Proof.
  intros Hm Hc Hs. assert (0 < queue_capacity o) as Hc' by (unfold make in Hm; destruct (queue_capacity o =? 0) eqn:?; [by rewrite !orb_true_r in Hm|lia]).
  apply executor_Inv in Hm; [|done]. assert (Inv e) as I by (clear -Hm Hs; induction Hs as [|x y z Hxy _ IH]; [done|by apply IH, (step_Inv x)]). split; [apply I|]. split.
  - intros k x Hx. pose proof (lookup_lt_Some _ _ _ Hx) as Hl. rewrite <-(i_functions _ I) in Hl. apply lookup_lt_is_Some in Hl as [f Hf].
    exists f. split; [done|]. destruct x as [|r]; [|destruct (i_ready _ I k r Hx); [left; congruence|by right]].
    apply (i_pending _ I) in Hx as ([k' f'] & Hk & Hin)%list_elem_of_fmap. cbn in Hk. subst k'.
    pose proof (i_held _ I k f' Hin) as [_ Hf']. simplify_eq. apply list_elem_of_split in Hin as (a & b & Hab). exists a, b. split; [done|].
    pose proof (i_nodup _ I) as Hn. rewrite Hab in Hn. rewrite fmap_app, fmap_cons in Hn. rewrite <-Permutation_middle in Hn.
    apply NoDup_cons in Hn as [Hn _]. by rewrite fmap_app.
  - split; [intros i e1; apply Run_decreases|]. split; [intros Hst i w; by apply Run_enabled|]. intros Hr Hne Hp.
    apply list_elem_of_lookup in Hp as [k Hk]. apply (i_pending _ I) in Hk. unfold held in Hk.
    assert (workers_ e ≫= running = []) as Hw by (clear -Hr; induction Hr as [|w ws <- _ IH]; [done|by rewrite bind_cons, IH]).
    assert (Returned ∈ workers_ e) as Hin by (destruct (workers_ e); [done|]; apply Forall_cons in Hr as [<- _]; by left).
    destruct (i_returned _ I Hin) as [_ Ht]. rewrite Hw, Ht in Hk. by apply not_elem_of_nil in Hk.
Qed.
End Executor.

(** One worker and a queue of one: a second function is rejected while the first waits; both futures are
    ready once the worker has returned. *)
Lemma executor_drains_witness : exists e : @executor Z, workers_ e = [Returned] /\ futures e = [Ready (Ret 7); Ready (Throw (KvError overloaded))] /\ Pending ∉ futures e.
Proof.
  pose (e0 := mkExecutor 1 [] false [Waiting] [] [] : @executor Z).
  pose (run i (e : @executor Z) := default e (Run i e)). pose (e1 := Stop (Submit (Ret 8) (Submit (Ret 7) e0))).
  exists (run 0%nat (run 0%nat (run 0%nat e1))). split; [reflexivity|]. split; [reflexivity|].
  eapply (executor_drains (mkClientOptions 1 1 1024 1 1) e0); [reflexivity|cbn; lia| |repeat constructor|done].
  apply (rtc_l _ _ _ _ (step_submit (Ret 7) e0)). apply (rtc_l _ _ _ _ (step_submit (Ret 8) _)). apply (rtc_l _ _ _ _ (step_stop _)).
  apply (rtc_l _ _ (run 0%nat e1)); [by eapply (step_run 0%nat)|].
  apply (rtc_l _ _ (run 0%nat (run 0%nat e1))); [by eapply (step_run 0%nat)|].
  apply (rtc_l _ _ (run 0%nat (run 0%nat (run 0%nat e1)))); [by eapply (step_run 0%nat)|]. apply rtc_refl.
Defined.
End Executor.
