(* ===== verification/Serializer.v ===== *)
(** [kvrpc::Serializer] (include/kvrpc/serializer.h): scalars and strings on a byte vector.  The wire
    format is little endian whatever the byte order of the host; every value list that fits the limit
    is read back by any host, and no truncated encoding is accepted. *)
From S2P Require Import Prelude.

Module Serializer.

(** The byte order of the host, which [memcpy] from and to a scalar exposes. *)
Inductive host := Little | Big.
Definition memory (h : host) (n : nat) (z : Z) : bytes := match h with Little => le_split n z | Big => be_split n z end.
Definition scalar (h : host) (l : bytes) : Z := match h with Little => le_combine l | Big => be_combine l end.

(** The argument types: [bool], an arithmetic type of [n] bytes (as its bit pattern), [std::string],
    and [const char*], which may be null. *)
Inductive value := VBool (b : bool) | VNum (n : nat) (bits : Z) | VStr (s : bytes) | VCStr (s : option bytes).
Inductive type := TBool | TNum (n : nat) | TStr.

Record serializer := mkSerializer { max_bytes_ : Z; buffer_ : bytes; offset_ : Z }.
Definition Serializer_limit (max_bytes : Z) : serializer := mkSerializer max_bytes [] 0.
Definition Serializer_buffer (buffer : bytes) : serializer := mkSerializer (64 * 1024 * 1024) buffer 0.
Definition Remaining (s : serializer) : Z := u64 (zlen (buffer_ s) - offset_ s).
Definition Reset (s : serializer) : serializer := mkSerializer (max_bytes_ s) [] 0.

Definition push (l : bytes) : M serializer unit := modify (fun s => mkSerializer (max_bytes_ s) (buffer_ s ++ l) (offset_ s)).
Definition skip (n : Z) : M serializer unit := modify (fun s => mkSerializer (max_bytes_ s) (buffer_ s) (u64 (offset_ s + n))).

Definition LittleEndian (h : host) : bool := bool_decide (head (memory h 2 1) = Some Byte.x01).

Definition Require (n : Z) : M serializer unit := fun s =>
  if Remaining s <? n then (s, Throw std_out_of_range) else (s, Ret tt).
Definition ReserveFor (n : Z) : M serializer unit := fun s =>
  if (max_bytes_ s <? zlen (buffer_ s)) || (max_bytes_ s - zlen (buffer_ s) <? n) then (s, Throw std_length_error) else (s, Ret tt).

Section Host.
Context (h : host).

Definition at_index (n i : nat) : nat := if LittleEndian h then i else (n - 1 - i)%nat.

Definition Serialize_bool (b : bool) : M serializer unit :=
  ReserveFor 1 ;; push [if b then Byte.x01 else Byte.x00].
Definition Serialize_num (n : nat) (bits : Z) : M serializer unit :=
  ReserveFor (Z.of_nat n) ;;
  let mem := memory h n bits in
  push ((fun i => default Byte.x00 (mem !! at_index n i)) <$> seq 0 n).
Definition Serialize_string (s : bytes) : M serializer unit :=
  if 2 ^ 32 - 1 <? zlen s then throw std_length_error else
  ReserveFor (u64 (4 + zlen s)) ;;
  Serialize_num 4 (u32 (zlen s)) ;;
  push s.
Definition Serialize (v : value) : M serializer unit :=
  match v with
  | VBool b => Serialize_bool b
  | VNum n bits => Serialize_num n bits
  | VStr s => Serialize_string s
  | VCStr None => throw std_invalid_argument
  | VCStr (Some s) => Serialize_string s
  end.
Fixpoint Serialize_all (vs : list value) : M serializer unit :=
  match vs with [] => mret tt | v :: vs => Serialize v ;; Serialize_all vs end.

(** [buffer_[offset_ + i]]; past the end it is undefined. *)
Definition byte_at (i : nat) : M serializer byte := fun s =>
  match buffer_ s !! (Z.to_nat (offset_ s) + i)%nat with Some b => (s, Ret b) | None => (s, Undef) end.

Definition Deserialize_bool : M serializer bool :=
  Require 1 ;; b ← byte_at 0 ;
  if 1 <? byte.unsigned b then throw std_invalid_argument else
  skip 1 ;; mret (byte.unsigned b =? 1).
Fixpoint load (n : nat) (ix : list nat) (mem : bytes) : M serializer bytes :=
  match ix with
  | [] => mret mem
  | i :: ix => b ← byte_at i ; load n ix (<[at_index n i := b]> mem)
  end.
Definition Deserialize_num (n : nat) : M serializer Z :=
  Require (Z.of_nat n) ;;
  mem ← load n (seq 0 n) (replicate n Byte.x00) ;
  skip (Z.of_nat n) ;;
  mret (scalar h mem).
Definition Deserialize_string : M serializer bytes :=
  n ← Deserialize_num 4 ; Require n ;;
  s ← get_state ;
  skip n ;;
  mret (take (Z.to_nat n) (drop (Z.to_nat (offset_ s)) (buffer_ s))).
Definition Deserialize (t : type) : M serializer value :=
  match t with
  | TBool => b ← Deserialize_bool ; mret (VBool b)
  | TNum n => z ← Deserialize_num n ; mret (VNum n z)
  | TStr => s ← Deserialize_string ; mret (VStr s)
  end.
Fixpoint Deserialize_all (ts : list type) : M serializer (list value) :=
  match ts with
  | [] => mret []
  | t :: ts => v ← Deserialize t ; vs ← Deserialize_all ts ; mret (v :: vs)
  end.
End Host.

(** * The wire format *)

Definition wire (v : value) : bytes :=
  match v with
  | VBool b => [if b then Byte.x01 else Byte.x00]
  | VNum n bits => le_split n bits
  | VStr s | VCStr (Some s) => le_split 4 (zlen s) ++ s
  | VCStr None => []
  end.
(** What the reader of a value gets: a C string is read back as a string. *)
Definition typeof (v : value) : type := match v with VBool _ => TBool | VNum n _ => TNum n | _ => TStr end.
Definition as_read (v : value) : value := match v with VCStr (Some s) => VStr s | v => v end.
Definition ok (v : value) : Prop :=
  match v with
  | VBool _ => True
  | VNum n bits => 0 < Z.of_nat n <= 8 /\ 0 <= bits < 2 ^ (8 * Z.of_nat n)
  | VStr s | VCStr (Some s) => zlen s < 2 ^ 32
  | VCStr None => False
  end.

Lemma LittleEndian_iff h : LittleEndian h = match h with Little => true | Big => false end.
Proof. by destruct h. Qed.

Lemma length_memory h n z : length (memory h n z) = n.
Proof. destruct h; [apply length_le_split|apply length_be_split]. Qed.

(** * Both loops undo the byte order of the host *)

Lemma num_bytes h n z : ((fun i => default Byte.x00 (memory h n z !! at_index h n i)) <$> seq 0 n) = le_split n z.
Proof.
  apply list_eq. intros i. rewrite list_lookup_fmap. destruct (decide (i < n)%nat) as [Hi|Hi].
  - rewrite lookup_seq_lt by done. cbn. unfold at_index. rewrite LittleEndian_iff.
    destruct (lookup_lt_is_Some_2 (le_split n z) i) as [b Hb]; [by rewrite length_le_split|]. rewrite Hb.
    destruct h; cbn [memory]; [by rewrite Hb|]. rewrite be_split_reverse.
    rewrite reverse_lookup by (rewrite length_le_split; lia).
    rewrite length_le_split. replace (n - S (n - 1 - i))%nat with i by lia. by rewrite Hb.
  - rewrite lookup_seq_ge by lia. cbn. symmetry. apply lookup_ge_None_2. rewrite length_le_split. lia.
Qed.

Definition at_offset (s : serializer) (l rest : bytes) : Prop :=
  exists pre, buffer_ s = pre ++ l ++ rest /\ offset_ s = zlen pre /\ zlen (buffer_ s) < 2 ^ 64.

Lemma byte_at_run s l rest i b : at_offset s l rest -> l !! i = Some b -> byte_at i s = (s, Ret b).
Proof.
  intros (pre & Hb & Ho & _) Hi. unfold byte_at. rewrite Hb, Ho. unfold zlen. rewrite Nat2Z.id.
  rewrite lookup_app_r by lia. replace (length pre + i - length pre)%nat with i by lia.
  by rewrite (lookup_app_l_Some l rest i b Hi).
Qed.

(** The array after the first [k] turns of the loading loop. *)
Definition loaded (h : host) (n k : nat) (l : bytes) : bytes :=
  match h with
  | Little => take k l ++ replicate (n - k) Byte.x00
  | Big => replicate (n - k) Byte.x00 ++ reverse (take k l)
  end.

Lemma loaded_S h n k l b : length l = n -> l !! k = Some b -> <[at_index h n k := b]> (loaded h n k l) = loaded h n (S k) l.
Proof.
  intros Hl Hk. pose proof (lookup_lt_Some _ _ _ Hk) as Hlt. unfold at_index. rewrite LittleEndian_iff.
  rewrite Hl in Hlt. destruct h; cbn [loaded]; rewrite (take_S_r l k b Hk).
  - replace (n - k)%nat with (S (n - S k))%nat by lia. cbn [replicate].
    rewrite <-app_assoc. rewrite insert_app_r_alt by (rewrite length_take; lia).
    rewrite length_take. replace (k - k `min` length l)%nat with O by lia. done.
  - rewrite reverse_app. cbn. replace (n - k)%nat with ((n - S k) + 1)%nat by lia. rewrite replicate_add, <-!app_assoc. cbn.
    rewrite insert_app_r_alt by (rewrite length_replicate; lia).
    rewrite length_replicate. replace (n - 1 - k - (n - S k))%nat with O by lia. done.
Qed.

Lemma load_run h n s l rest ks k :
  at_offset s l rest -> length l = n -> (k + ks = n)%nat ->
  load h n (seq k ks) (loaded h n k l) s = (s, Ret (loaded h n n l)).
Proof.
  intros Ha Hl. revert k. induction ks as [|ks IH]; intros k Hk; cbn [seq load].
  - by replace k with n by lia.
  - destruct (lookup_lt_is_Some_2 l k) as [b Hb]; [lia|].
    rewrite (M_bind_run _ _ _ _ _ (byte_at_run _ _ _ _ _ Ha Hb)). rewrite (loaded_S h n k l b Hl Hb). apply IH. lia.
Qed.

Lemma scalar_loaded h n l : length l = n -> scalar h (loaded h n n l) = le_combine l.
Proof.
  intros <-. unfold loaded. rewrite Nat.sub_diag, firstn_all. destruct h; cbn; [by rewrite app_nil_r|].
  by rewrite be_combine_reverse, reverse_involutive.
Qed.

(** * Reading *)

Definition moved (s : serializer) (l : bytes) : serializer := mkSerializer (max_bytes_ s) (buffer_ s) (offset_ s + zlen l).

Lemma at_offset_Remaining s l rest : at_offset s l rest -> Remaining s = zlen l + zlen rest.
Proof.
  intros (pre & Hb & Ho & Hz). unfold Remaining. rewrite Ho, u64_small; rewrite Hb in *; rewrite !zlen_app in *;
  pose proof (zlen_nonneg pre); pose proof (zlen_nonneg l); pose proof (zlen_nonneg rest); lia.
Qed.

Lemma at_offset_moved s l k rest : at_offset s (l ++ k) rest -> at_offset (moved s l) k rest.
Proof.
  intros (pre & Hb & Ho & Hz). exists (pre ++ l). split_and!; cbn; [by rewrite Hb, <-!app_assoc|rewrite zlen_app; lia|done].
Qed.

Lemma at_offset_split s l k rest : at_offset s (l ++ k) rest <-> at_offset s l (k ++ rest).
Proof. unfold at_offset. by setoid_rewrite <-app_assoc. Qed.

Lemma at_offset_nil s l : at_offset s [] l <-> at_offset s l [].
Proof. unfold at_offset. cbn. by setoid_rewrite app_nil_r. Qed.

Lemma Require_run s l rest n : at_offset s l rest -> n <= zlen l + zlen rest -> Require n s = (s, Ret tt).
Proof. intros Ha Hn. unfold Require. rewrite (at_offset_Remaining _ _ _ Ha). by rewrite (proj2 (Z.ltb_ge _ _)). Qed.

Lemma Require_short s l rest n : at_offset s l rest -> zlen l + zlen rest < n -> Require n s = (s, Throw std_out_of_range).
Proof. intros Ha Hn. unfold Require. rewrite (at_offset_Remaining _ _ _ Ha). by rewrite (proj2 (Z.ltb_lt _ _)). Qed.

Lemma skip_run s l rest n : at_offset s l rest -> n = zlen l -> skip n s = (moved s l, Ret tt).
Proof.
  intros (pre & Hb & Ho & Hz) ->. unfold skip, modify, moved. rewrite u64_small; [done|].
  rewrite Hb, !zlen_app in Hz. pose proof (zlen_nonneg pre). pose proof (zlen_nonneg l). pose proof (zlen_nonneg rest). lia.
Qed.

Lemma Deserialize_num_run h n s l rest :
  at_offset s l rest -> length l = n -> Deserialize_num h n s = (moved s l, Ret (le_combine l)).
Proof.
  intros Ha Hl. unfold Deserialize_num. pose proof (zlen_nonneg rest). assert (Z.of_nat n = zlen l) as Hn by (unfold zlen; lia).
  rewrite (M_bind_run _ _ _ _ _ (Require_run _ _ _ (Z.of_nat n) Ha ltac:(lia))).
  assert (replicate n Byte.x00 = loaded h n 0 l) as ->.
  { unfold loaded. rewrite Nat.sub_0_r. destruct h; cbn; [done|by rewrite app_nil_r]. }
  rewrite (M_bind_run _ _ _ _ _ (load_run h n s l rest n 0 Ha Hl ltac:(lia))).
  rewrite (M_bind_run _ _ _ _ _ (skip_run _ _ _ _ Ha Hn)). by rewrite scalar_loaded.
Qed.

Lemma Deserialize_num_short h n s rest :
  at_offset s [] rest -> zlen rest < Z.of_nat n -> exists s', Deserialize_num h n s = (s', Throw std_out_of_range).
Proof.
  intros Ha Hn. eexists. unfold Deserialize_num.
  apply (M_bind_Throw (Require (Z.of_nat n)) _ _ _ _ (Require_short _ _ _ (Z.of_nat n) Ha Hn)).
Qed.

Lemma Deserialize_string_run h s str rest :
  at_offset s (le_split 4 (zlen str) ++ str) rest -> zlen str < 2 ^ 32 ->
  Deserialize_string h s = (moved s (le_split 4 (zlen str) ++ str), Ret str).
Proof.
  intros Ha Hz. pose proof (zlen_nonneg str) as H0. pose proof (zlen_nonneg rest).
  pose proof (proj1 (at_offset_split _ _ _ _) Ha) as Ha4. pose proof (at_offset_moved _ _ _ _ Ha) as Hs.
  unfold Deserialize_string.
  rewrite (M_bind_run _ _ _ _ _ (Deserialize_num_run h 4 s _ _ Ha4 (length_le_split _ _))).
  rewrite le_combine_split. change (Z.of_nat 4 * 8) with 32. rewrite (Z.mod_small (zlen str)) by lia.
  rewrite (M_bind_run _ _ _ _ _ (Require_run _ _ _ (zlen str) Hs ltac:(lia))).
  rewrite (M_bind_run get_state _ _ _ _ eq_refl).
  rewrite (M_bind_run _ _ _ _ _ (skip_run _ _ _ _ Hs eq_refl)).
  destruct Hs as (pre & Hb & Ho & _). rewrite Hb, Ho. unfold zlen. rewrite !Nat2Z.id, drop_app_length, take_app_length.
  unfold moved. cbn [max_bytes_ buffer_ offset_]. by rewrite zlen_app, Z.add_assoc.
Qed.

Lemma Deserialize_string_short h s rest :
  at_offset s [] rest ->
  (zlen rest < 4 \/ zlen rest < 4 + le_combine (take 4 rest)) -> exists s', Deserialize_string h s = (s', Throw std_out_of_range).
Proof.
  intros Ha Hn. unfold Deserialize_string. destruct (decide (zlen rest < 4)) as [H4|H4].
  - destruct (Deserialize_num_short h 4 s rest Ha ltac:(lia)) as [s' E]. eexists. by rewrite (M_bind_Throw _ _ _ _ _ E).
  - destruct Hn as [Hn|Hn]; [lia|].
    assert (at_offset s (take 4 rest ++ drop 4 rest) []) as Ha' by (rewrite take_drop; apply (proj1 (at_offset_nil _ _) Ha)).
    pose proof (at_offset_moved _ _ _ _ Ha') as Hs. apply at_offset_split in Ha'.
    assert (length (take 4 rest) = 4)%nat as Hl by (rewrite length_take; unfold zlen in *; lia).
    rewrite (M_bind_run _ _ _ _ _ (Deserialize_num_run h 4 s _ _ Ha' Hl)). eexists.
    apply (M_bind_Throw (Require (le_combine (take 4 rest)))). eapply Require_short; [exact Hs|].
    unfold zlen in *. rewrite length_drop. cbn. lia.
Qed.

Lemma Deserialize_bool_run s b rest : at_offset s [if b : bool then Byte.x01 else Byte.x00] rest ->
  Deserialize_bool s = (moved s [if b then Byte.x01 else Byte.x00], Ret b).
Proof.
  intros Ha. unfold Deserialize_bool. pose proof (zlen_nonneg rest).
  rewrite (M_bind_run _ _ _ _ _ (Require_run _ _ _ 1 Ha ltac:(rewrite zlen_cons, zlen_nil; lia))).
  rewrite (M_bind_run _ _ _ _ _ (byte_at_run _ _ _ 0 _ Ha eq_refl)).
  pose proof (skip_run _ _ _ 1 Ha eq_refl) as Hk. destruct b; cbn [byte.unsigned Byte.to_N Z.of_N];
  rewrite (proj2 (Z.ltb_ge _ _)) by (cbv; congruence); by rewrite (M_bind_run _ _ _ _ _ Hk).
Qed.

Lemma Deserialize_run h s v rest :
  ok v -> at_offset s (wire v) rest -> Deserialize h (typeof v) s = (moved s (wire v), Ret (as_read v)).
Proof.
  intros Hok Ha. destruct v as [b|n z|str|[str|]]; cbn [typeof Deserialize wire as_read] in *; [| | | |done].
  - by rewrite (M_bind_run _ _ _ _ _ (Deserialize_bool_run _ _ _ Ha)).
  - rewrite (M_bind_run _ _ _ _ _ (Deserialize_num_run h n s _ _ Ha (length_le_split _ _))).
    rewrite le_combine_split, Z.mod_small; [done|]. destruct Hok as [_ Hz]. by rewrite Z.mul_comm.
  - by rewrite (M_bind_run _ _ _ _ _ (Deserialize_string_run h s str rest Ha Hok)).
  - by rewrite (M_bind_run _ _ _ _ _ (Deserialize_string_run h s str rest Ha Hok)).
Qed.

Lemma Deserialize_short h s v p :
  ok v -> at_offset s [] p -> p `prefix_of` wire v -> p <> wire v -> exists s', Deserialize h (typeof v) s = (s', Throw std_out_of_range).
Proof.
  intros Hok Ha [k Hk] Hne. assert (k <> []) as Hk0 by (intros ->; by rewrite app_nil_r in Hk).
  assert (0 < zlen k) as Hkl by (destruct k; [done|rewrite zlen_cons; pose proof (zlen_nonneg k); lia]).
  assert (zlen (wire v) = zlen p + zlen k) as Hlen by (by rewrite Hk, zlen_app).
  assert (forall str, wire v = le_split 4 (zlen str) ++ str -> zlen str < 2 ^ 32 ->
    exists s', Deserialize_string h s = (s', Throw std_out_of_range)) as Hstr.
  { intros str Hw Hz. apply (Deserialize_string_short h s p Ha). destruct (decide (zlen p < 4)); [by left|right].
    rewrite Hw in Hk, Hlen. rewrite zlen_app in Hlen. unfold zlen in Hlen at 1. rewrite length_le_split in Hlen.
    assert (take 4 p = le_split 4 (zlen str)) as ->.
    { rewrite <-(take_app_le p k 4) by (unfold zlen in *; lia). rewrite <-Hk.
      rewrite take_app_le by (rewrite length_le_split; lia). apply take_ge. rewrite length_le_split. lia. }
    rewrite le_combine_split, Z.mod_small by (pose proof (zlen_nonneg str); lia). lia. }
  destruct v as [b|n z|str|[str|]]; cbn [typeof Deserialize]; [| | | |done].
  - assert (zlen p < 1) by (cbn [wire] in Hlen; rewrite zlen_cons, zlen_nil in Hlen; lia).
    eexists. apply M_bind_Throw, (M_bind_Throw (Require 1)). by eapply Require_short.
  - destruct (Deserialize_num_short h n s p Ha) as [s' E].
    { cbn [wire] in Hlen. unfold zlen in Hlen at 1. rewrite length_le_split in Hlen. lia. }
    eexists. by rewrite (M_bind_Throw _ _ _ _ _ E).
  - destruct (Hstr str eq_refl Hok) as [s' E]. eexists. by rewrite (M_bind_Throw _ _ _ _ _ E).
  - destruct (Hstr str eq_refl Hok) as [s' E]. eexists. by rewrite (M_bind_Throw _ _ _ _ _ E).
Qed.

(** * Writing *)

Lemma length_zlen {A} (l : list A) n : length l = n -> zlen l = Z.of_nat n.
Proof. by intros <-. Qed.

Definition pushed (s : serializer) (l : bytes) : serializer := mkSerializer (max_bytes_ s) (buffer_ s ++ l) (offset_ s).

Lemma ReserveFor_cases s n : 0 <= n ->
  ReserveFor n s = (s, if max_bytes_ s <? zlen (buffer_ s) + n then Throw std_length_error else Ret tt).
Proof.
  intros Hn. unfold ReserveFor. destruct (Z.ltb_spec (max_bytes_ s) (zlen (buffer_ s))); cbn [orb].
  - by rewrite (proj2 (Z.ltb_lt _ _)) by lia.
  - destruct (Z.ltb_spec (max_bytes_ s - zlen (buffer_ s)) n), (Z.ltb_spec (max_bytes_ s) (zlen (buffer_ s) + n)); lia || done.
Qed.

Lemma Serialize_num_cases h n z s :
  Serialize_num h n z s =
  if max_bytes_ s <? zlen (buffer_ s) + Z.of_nat n then (s, Throw std_length_error) else (pushed s (le_split n z), Ret tt).
Proof.
  unfold Serialize_num. unfold mbind, M_bind. rewrite ReserveFor_cases by lia. destruct (_ <? _); [done|].
  unfold push, modify. by rewrite num_bytes.
Qed.

Lemma Serialize_string_cases h str s : zlen str < 2 ^ 32 ->
  Serialize_string h str s =
  if max_bytes_ s <? zlen (buffer_ s) + (4 + zlen str) then (s, Throw std_length_error)
  else (pushed s (le_split 4 (zlen str) ++ str), Ret tt).
Proof.
  intros Hz. pose proof (zlen_nonneg str). unfold Serialize_string. rewrite (proj2 (Z.ltb_ge _ _)) by lia.
  rewrite u64_small by lia. rewrite u32_small by lia. unfold mbind at 1, M_bind at 1. rewrite ReserveFor_cases by lia.
  destruct (Z.ltb_spec (max_bytes_ s) (zlen (buffer_ s) + (4 + zlen str))); [done|].
  unfold mbind, M_bind. rewrite Serialize_num_cases. rewrite (proj2 (Z.ltb_ge _ _)) by lia.
  unfold push, modify, pushed. cbn [max_bytes_ buffer_ offset_]. by rewrite app_assoc.
Qed.

(** One value is written whole or not at all. *)
Lemma Serialize_cases h v s : ok v ->
  Serialize h v s =
  if max_bytes_ s <? zlen (buffer_ s) + zlen (wire v) then (s, Throw std_length_error) else (pushed s (wire v), Ret tt).
Proof.
  intros Hok. destruct v as [b|n z|str|[str|]]; cbn [Serialize wire]; [| | | |done].
  - unfold Serialize_bool, mbind, M_bind. rewrite ReserveFor_cases by lia. rewrite zlen_cons, zlen_nil. by destruct (_ <? _).
  - by rewrite Serialize_num_cases, (length_zlen (le_split n z) n) by apply length_le_split.
  - rewrite Serialize_string_cases by done. by rewrite zlen_app, (length_zlen (le_split 4 (zlen str)) 4) by apply length_le_split.
  - rewrite Serialize_string_cases by done. by rewrite zlen_app, (length_zlen (le_split 4 (zlen str)) 4) by apply length_le_split.
Qed.

Definition wire_all (vs : list value) : bytes := vs ≫= wire.

Lemma Serialize_all_cases h vs s : Forall ok vs ->
  if max_bytes_ s <? zlen (buffer_ s) + zlen (wire_all vs)
  then vs = [] \/ exists s', Serialize_all h vs s = (s', Throw std_length_error)
  else Serialize_all h vs s = (pushed s (wire_all vs), Ret tt).
Proof.
  intros Hok. revert s. induction Hok as [|v vs Hv Hvs IH]; intros s.
  - cbn. unfold pushed. rewrite app_nil_r. destruct s. destruct (_ <? _); [by left|done].
  - change (wire_all (v :: vs)) with (wire v ++ wire_all vs). rewrite zlen_app. cbn [Serialize_all].
    pose proof (Serialize_cases h v s Hv) as Hc. pose proof (zlen_nonneg (wire_all vs)).
    destruct (Z.ltb_spec (max_bytes_ s) (zlen (buffer_ s) + zlen (wire v))).
    { rewrite (proj2 (Z.ltb_lt _ _)) by lia. right. eexists. apply (M_bind_Throw _ _ _ _ _ Hc). }
    rewrite (M_bind_run _ _ _ _ _ Hc). specialize (IH (pushed s (wire v))). cbn [pushed max_bytes_ buffer_] in IH.
    rewrite zlen_app, <-Z.add_assoc in IH. destruct (Z.ltb_spec (max_bytes_ s) (zlen (buffer_ s) + (zlen (wire v) + zlen (wire_all vs)))).
    + destruct IH as [->|IH]; [|by right]. change (wire_all []) with (@nil byte) in *. rewrite zlen_nil in *. lia.
    + rewrite IH. unfold pushed. cbn [max_bytes_ buffer_ offset_]. by rewrite app_assoc.
Qed.

Lemma Deserialize_all_run h s vs rest :
  Forall ok vs -> at_offset s (wire_all vs) rest ->
  Deserialize_all h (typeof <$> vs) s = (moved s (wire_all vs), Ret (as_read <$> vs)).
Proof.
  intros Hok. revert s. induction Hok as [|v vs Hv Hvs IH]; intros s Ha.
  - cbn. unfold moved. rewrite zlen_nil, Z.add_0_r. by destruct s.
  - change (wire_all (v :: vs)) with (wire v ++ wire_all vs) in *. cbn [fmap list_fmap Deserialize_all].
    pose proof (at_offset_moved _ _ _ _ Ha) as Hm. apply at_offset_split in Ha.
    rewrite (M_bind_run _ _ _ _ _ (Deserialize_run h s v _ Hv Ha)). rewrite (M_bind_run _ _ _ _ _ (IH _ Hm)).
    unfold mret, M_ret, moved. cbn [max_bytes_ buffer_ offset_]. by rewrite zlen_app, Z.add_assoc.
Qed.

Lemma Deserialize_all_short h s vs p :
  Forall ok vs -> at_offset s [] p -> p `prefix_of` wire_all vs -> p <> wire_all vs ->
  exists s', Deserialize_all h (typeof <$> vs) s = (s', Throw std_out_of_range).
Proof.
  intros Hok. revert s p. induction Hok as [|v vs Hv Hvs IH]; intros s p Ha Hp Hne.
  - by apply prefix_nil_inv in Hp.
  - change (wire_all (v :: vs)) with (wire v ++ wire_all vs) in *. cbn [fmap list_fmap Deserialize_all].
    destruct (decide (wire v `prefix_of` p)) as [[k ->]|Hn].
    + apply prefix_app_inv in Hp. apply at_offset_nil in Ha.
      pose proof (at_offset_moved s (wire v) k [] Ha) as Hm. apply at_offset_split in Ha.
      rewrite (M_bind_run _ _ _ _ _ (Deserialize_run h s v _ Hv Ha)).
      destruct (IH (moved s (wire v)) k) as [s' E]; [by apply at_offset_nil|done|by intros ->|].
      eexists. by rewrite (M_bind_Throw _ _ _ _ _ E).
    + assert (p `prefix_of` wire v) as Hs.
      { destruct (prefix_weak_total p (wire v) _ Hp) as [?|?]; [by exists (wire_all vs)|done|done]. }
      destruct (Deserialize_short h s v p Hv Ha Hs) as [s' E]; [by intros ->; apply Hn|].
      eexists. by rewrite (M_bind_Throw _ _ _ _ _ E).
Qed.

(** Round trip across hosts: a value list that fits the limit is written without an error, in
    the same bytes on a little-endian and on a big-endian host, and a reader of either byte order
    gets the same values and leaves nothing unread. *)
Lemma serialize_roundtrip (writer reader : host) max vs :
  Forall ok vs -> zlen (wire_all vs) <= max < 2 ^ 64 ->
  exists s s',
    Serialize_all writer vs (Serializer_limit max) = (s, Ret tt) /\ buffer_ s = wire_all vs /\
    Deserialize_all reader (typeof <$> vs) (Serializer_buffer (buffer_ s)) = (s', Ret (as_read <$> vs)) /\ Remaining s' = 0.
Proof.
  intros Hok Hmax. pose proof (Serialize_all_cases writer vs (Serializer_limit max) Hok) as Hs. cbn [Serializer_limit max_bytes_ buffer_] in Hs.
  rewrite zlen_nil, (proj2 (Z.ltb_ge _ _)) in Hs by lia.
  assert (at_offset (Serializer_buffer (wire_all vs)) (wire_all vs) []) as Ha.
  { exists []. cbn [Serializer_buffer buffer_ offset_]. rewrite app_nil_r. split_and!; [done|done|lia]. }
  do 2 eexists. split; [exact Hs|]. split; [done|]. split; [apply (Deserialize_all_run _ _ _ [] Hok Ha)|].
  unfold Remaining, moved. cbn [buffer_ offset_ Serializer_buffer]. by rewrite Z.add_0_l, Z.sub_diag.
Qed.

(** No truncated encoding is accepted: reading the types of a value list from any strict prefix
    of its encoding throws [std::out_of_range]. *)
Lemma deserialize_rejects_truncation (reader : host) vs p :
  Forall ok vs -> zlen (wire_all vs) < 2 ^ 64 -> p `prefix_of` wire_all vs -> p <> wire_all vs ->
  exists s', Deserialize_all reader (typeof <$> vs) (Serializer_buffer p) = (s', Throw std_out_of_range).
Proof.
  intros Hok Hz Hp Hne. apply (Deserialize_all_short _ _ _ p Hok); [|done|done].
  exists []. cbn [Serializer_buffer buffer_ offset_]. split_and!; [done|done|].
  destruct Hp as [k Hk]. rewrite Hk, zlen_app in Hz. pose proof (zlen_nonneg k). lia.
Qed.

End Serializer.
