(* ===== verification/EventLoop.v ===== *)
(** [kvrpc::EventLoop] (src/event_loop.cpp, include/kvrpc/event_loop.h): an edge-triggered reactor with
    descriptors, timers and tasks posted from other threads.  Tasks and callbacks are data of the client
    component, which says how to execute them. *)
From Stdlib Require Import Sorted.
From S2P Require Import Prelude.

Module EventLoop.

Definition EPOLLIN : Z := 1.
Definition EPOLLOUT : Z := 4.
Definition EPOLLERR : Z := 8.
Definition EPOLLRDHUP : Z := 8192.
Definition EPOLLET : Z := 2 ^ 31.

Section Loop.
Context {task callback : Type}.

Record Watch := mkWatch { w_fd : Z; w_callback : callback }.

(** [timers_] is the multimap in iteration order, [timer_index_] maps an identifier to the key of its
    node, [interest] is the kernel's side: the mask registered for a token. *)
Record loop := mkLoop {
  next_ : Z;
  watches_ : gmap Z Watch;
  interest : gmap Z Z;
  timers_ : list (Z * (Z * task));
  timer_index_ : gmap Z Z;
  tasks_ : list task;
  stopping_ : bool
}.
Definition new_loop : loop := mkLoop 1 ∅ ∅ [] ∅ [] false.

(** ** Construction *)

(** What [epoll_create1] and [eventfd] return, [None] when they fail, and whether [epoll_ctl] succeeds: the
    descriptors [epoll_] and [wake_], and those closed on the way. *)
Definition EventLoop_make (epoll wake : option Z) (ctl : bool) : outcome (Z * Z) * list Z :=
  match epoll with
  | None => (Throw std_system_error, [])
  | Some epoll_ =>
      match wake with
      | None => (Throw std_system_error, [epoll_])
      | Some wake_ => if ctl then (Ret (epoll_, wake_), []) else (Throw std_system_error, [wake_; epoll_])
      end
  end.
Definition EventLoop_destroy (fds : Z * Z) : list Z := [fds.2; fds.1].

(** ** Descriptors; [ok] is whether [epoll_ctl] succeeds *)

Definition Add (ok : bool) (fd events : Z) (cb : callback) : M loop Z := fun l =>
  let id := next_ l in
  let l := mkLoop (u64 (id + 1)) (watches_ l) (interest l) (timers_ l) (timer_index_ l) (tasks_ l) (stopping_ l) in
  if ok then
    (mkLoop (next_ l) (<[id := mkWatch fd cb]> (watches_ l)) (<[id := Z.lor events EPOLLET]> (interest l))
            (timers_ l) (timer_index_ l) (tasks_ l) (stopping_ l), Ret id)
  else (l, Throw std_system_error).

Definition Modify (ok : bool) (token events : Z) : M loop unit := fun l =>
  match watches_ l !! token with
  | None => (l, Ret tt)
  | Some _ =>
      if ok then (mkLoop (next_ l) (watches_ l) (<[token := Z.lor events EPOLLET]> (interest l)) (timers_ l) (timer_index_ l) (tasks_ l) (stopping_ l), Ret tt)
      else (l, Throw std_system_error)
  end.

Definition Remove (token : Z) : M loop unit := fun l =>
  match watches_ l !! token with
  | None => (l, Ret tt)
  | Some _ => (mkLoop (next_ l) (delete token (watches_ l)) (delete token (interest l)) (timers_ l) (timer_index_ l) (tasks_ l) (stopping_ l), Ret tt)
  end.

(** ** Timers *)

(** [multimap::emplace] puts a key after the equal ones. *)
Fixpoint emplace (d : Z) (x : Z * task) (ts : list (Z * (Z * task))) : list (Z * (Z * task)) :=
  match ts with
  | [] => [(d, x)]
  | t :: ts' => if d <? t.1 then (d, x) :: ts else t :: emplace d x ts'
  end.
(** [multimap::erase] of the node of [id]; an iterator to no node is undefined. *)
Fixpoint erase (d id : Z) (ts : list (Z * (Z * task))) : option (list (Z * (Z * task))) :=
  match ts with
  | [] => None
  | t :: ts => if bool_decide (t.1 = d /\ t.2.1 = id) then Some ts else rest ← erase d id ts ; Some (t :: rest)
  end.

Definition set_timers (ts : list (Z * (Z * task))) (ix : gmap Z Z) (l : loop) : loop :=
  mkLoop (next_ l) (watches_ l) (interest l) ts ix (tasks_ l) (stopping_ l).

Definition At (deadline : Z) (t : task) : M loop Z := fun l =>
  let id := next_ l in
  let l := mkLoop (u64 (id + 1)) (watches_ l) (interest l) (timers_ l) (timer_index_ l) (tasks_ l) (stopping_ l) in
  (set_timers (emplace deadline (id, t) (timers_ l)) (<[id := deadline]> (timer_index_ l)) l, Ret id).

Definition Cancel (id : Z) : M loop unit := fun l =>
  match timer_index_ l !! id with
  | None => (l, Ret tt)
  | Some d =>
      match erase d id (timers_ l) with
      | None => (l, Undef)
      | Some ts => (set_timers ts (delete id (timer_index_ l)) l, Ret tt)
      end
  end.

(** ** Tasks *)

(** [Post], up to the wake-up (see [Wakeup] below). *)
Definition Post (t : task) : M loop unit := modify (fun l =>
  mkLoop (next_ l) (watches_ l) (interest l) (timers_ l) (timer_index_ l) (tasks_ l ++ [t]) (stopping_ l)).
Definition Stop (nothing : task) : M loop unit :=
  modify (fun l => mkLoop (next_ l) (watches_ l) (interest l) (timers_ l) (timer_index_ l) (tasks_ l) true) ;; Post nothing.
Definition swap_tasks : M loop (list task) := fun l =>
  (mkLoop (next_ l) (watches_ l) (interest l) (timers_ l) (timer_index_ l) [] (stopping_ l), Ret (tasks_ l)).

(** The timeout of [epoll_wait], times in nanoseconds ([duration_cast] truncates towards zero). *)
Definition wait_timeout (now : Z) (l : loop) : Z :=
  match timers_ l with
  | [] => -1
  | t :: _ => Z.max 0 (Z.min (Z.quot (t.1 - now) 1000000 + 1) (2 ^ 31 - 1))
  end.
End Loop.
Arguments loop : clear implicits.
Arguments Watch : clear implicits.

(** ** [Run], for a component whose state [W] contains the loop *)

Section Run.
Context {task callback W : Type}.
Context (get : W -> loop task callback) (put : loop task callback -> W -> W).
Context (exec : task -> M W unit) (notify : callback -> Z -> M W unit).

Definition on_loop {A} (m : M (loop task callback) A) : M W A := fun w =>
  let '(l, r) := m (get w) in (put l w, r).

Fixpoint exec_all (ts : list task) : M W unit :=
  match ts with [] => mret tt | t :: ts => exec t ;; exec_all ts end.

(** One entry of [epoll_wait]; token 0 is the wake-up descriptor. *)
Definition on_event (ev : Z * Z) : M W unit :=
  if ev.1 =? 0 then ts ← on_loop swap_tasks ; exec_all ts
  else w ← get_state ;
       match watches_ (get w) !! ev.1 with
       | Some x => notify (w_callback x) ev.2
       | None => mret tt
       end.
Fixpoint on_events (evs : list (Z * Z)) : M W unit :=
  match evs with [] => mret tt | ev :: evs => on_event ev ;; on_events evs end.

(** Removal of the first timer and its index entry. *)
Definition pop_timer (t : Z * (Z * task)) : M (loop task callback) unit :=
  modify (fun l => set_timers (tail (timers_ l)) (delete t.2.1 (timer_index_ l)) l).

(** The loop over expired timers; [clock] lists the readings of [Clock::now()]. *)
Fixpoint fire (clock : list Z) : M W unit := fun w =>
  match timers_ (get w) with
  | [] => (w, Ret tt)
  | t :: _ =>
      match clock with
      | [] => (w, Blocked)
      | now :: clock =>
          if t.1 <=? now then (on_loop (pop_timer t) ;; exec t.2.2 ;; fire clock) w else (w, Ret tt)
      end
  end.

(** What one turn of [Run] observes. *)
Inductive wait_result := Events (evs : list (Z * Z)) | Interrupted | WaitFailed.
Fixpoint Run (turns : list (wait_result * list Z)) : M W unit := fun w =>
  if stopping_ (get w) then (w, Ret tt) else
  match turns with
  | [] => (w, Blocked)
  | (Interrupted, _) :: turns => Run turns w
  | (WaitFailed, _) :: _ => (w, Throw std_system_error)
  | (Events evs, clock) :: turns => (on_events evs ;; fire clock ;; Run turns) w
  end.
End Run.

(** * Timers are a map from identifiers, kept in deadline order *)

Section Timers.
Context {task callback : Type}.
Implicit Types (l : loop task callback) (ts : list (Z * (Z * task))).

Definition node (t : Z * (Z * task)) : Z * (Z * task) := (t.2.1, (t.1, t.2.2)).
(** The timers that are armed: deadline and task by identifier. *)
Definition armed l : gmap Z (Z * task) := list_to_map (node <$> timers_ l).
Definition ids ts : list Z := (fun t => t.2.1) <$> ts.
Definition earlier (a b : Z * (Z * task)) : Prop := a.1 <= b.1.

Definition Inv l : Prop :=
  StronglySorted earlier (timers_ l) /\ NoDup (ids (timers_ l)) /\ timer_index_ l = fst <$> armed l /\
  0 < next_ l < 2 ^ 64 /\ Forall (fun t => t.2.1 < next_ l) (timers_ l) /\
  dom (watches_ l) = dom (interest l) /\ map_Forall (fun token _ => 0 < token < next_ l) (watches_ l).

Lemma node_ids ts : (node <$> ts).*1 = ids ts.
Proof. unfold ids. rewrite <-list_fmap_compose. by apply list_fmap_ext. Qed.

Lemma armed_perm ts ts' : ts ≡ₚ ts' -> NoDup (ids ts) ->
  list_to_map (M := gmap Z (Z * task)) (node <$> ts) = list_to_map (node <$> ts').
Proof. intros Hp Hn. apply list_to_map_proper; [by rewrite node_ids|by rewrite Hp]. Qed.

Lemma emplace_perm d x ts : emplace d x ts ≡ₚ (d, x) :: ts.
Proof.
  induction ts as [|t ts IH]; cbn; [done|]. destruct (_ <? _); [done|]. rewrite IH. apply Permutation_swap.
Qed.

Lemma emplace_sorted d x ts : StronglySorted earlier ts -> StronglySorted earlier (emplace d x ts).
Proof.
  induction 1 as [|t ts Hs IH Hall]; cbn; [repeat constructor|]. destruct (Z.ltb_spec d t.1).
  - constructor; [by constructor|]. constructor; [unfold earlier; cbn; lia|]. eapply Forall_impl; [exact Hall|].
    unfold earlier. cbn. intros. lia.
  - constructor; [done|]. rewrite emplace_perm. constructor; [unfold earlier; cbn; lia|done].
Qed.

Lemma erase_Some d id ts ts' : erase d id ts = Some ts' ->
  exists a b t, ts = a ++ (d, (id, t)) :: b /\ ts' = a ++ b.
Proof.
  revert ts'. induction ts as [|[d' [id' t']] ts IH]; intros ts'; cbn; [done|]. case_bool_decide as E.
  - destruct E as [-> ->]. intros [= <-]. by exists [], ts, t'.
  - destruct (erase d id ts) as [r|]; [|done]. cbn. intros [= <-]. destruct (IH r eq_refl) as (a & b & t & -> & ->).
    by exists ((d', (id', t')) :: a), b, t.
Qed.

Lemma erase_None d id t ts : erase d id ts = None -> (d, (id, t)) ∉ ts.
Proof.
  induction ts as [|[d' [id' t']] ts IH]; cbn; [set_solver|]. case_bool_decide as E; [done|].
  destruct (erase d id ts); [done|]. intros _ [H|H]%elem_of_cons; [|by apply IH]. apply E. by simplify_eq.
Qed.

Lemma sorted_remove a t b ts : ts = a ++ t :: b -> StronglySorted earlier ts -> StronglySorted earlier (a ++ b).
Proof.
  intros ->. induction a as [|x a IH]; cbn; intros H; apply StronglySorted_inv in H as [Hs Hall]; [done|].
  constructor; [by apply IH|]. rewrite Forall_app, Forall_cons in Hall. destruct Hall as (? & ? & ?). by apply Forall_app.
Qed.

Lemma armed_lookup ts id d t : NoDup (ids ts) ->
  (list_to_map (node <$> ts) : gmap Z (Z * task)) !! id = Some (d, t) <-> (d, (id, t)) ∈ ts.
Proof.
  intros Hn. rewrite <-elem_of_list_to_map by (by rewrite node_ids). rewrite list_elem_of_fmap. split.
  - intros ([d' [id' t']] & [= -> -> ->] & H). done.
  - intros H. by exists (d, (id, t)).
Qed.

(** Every descriptor the constructor opens is closed exactly once, by itself when it fails or by the destructor. *)
Lemma loop_descriptors epoll wake ctl : let '(r, shut) := EventLoop_make epoll wake ctl in
  option_list epoll ++ match epoll with Some _ => option_list wake | None => [] end ≡ₚ shut ++ match r with Ret fds => EventLoop_destroy fds | _ => [] end.
Proof. destruct epoll as [e|], wake as [w|], ctl; cbn; try done; apply perm_swap. Qed.

Lemma Inv_new : Inv (new_loop : loop task callback).
Proof. split_and!; cbn; try done; try constructor; try lia. Qed.

(** The operations, and what each does to the armed timers. *)
Inductive op := OAdd (ok : bool) (fd events : Z) (cb : callback) | OModify (ok : bool) (token events : Z) | ORemove (token : Z)
| OAt (deadline : Z) (t : task) | OCancel (id : Z) | OPost (t : task) | OPop.
Definition run_op (o : op) : M (loop task callback) unit :=
  match o with
  | OAdd ok fd ev cb => Add ok fd ev cb ;; mret tt
  | OModify ok token ev => Modify ok token ev
  | ORemove token => Remove token
  | OAt d t => At d t ;; mret tt
  | OCancel id => Cancel id
  | OPost t => Post t
  | OPop => fun l => match timers_ l with [] => (l, Ret tt) | t :: _ => pop_timer t l end
  end.

Lemma At_spec d t l : Inv l -> next_ l + 1 < 2 ^ 64 ->
  (At d t l).2 = Ret (next_ l) /\ Inv (At d t l).1 /\ armed (At d t l).1 = <[next_ l := (d, t)]> (armed l) /\
  next_ (At d t l).1 = next_ l + 1 /\ timers_ (At d t l).1 = emplace d (next_ l, t) (timers_ l).
Proof.
  intros (Hs & Hn & Hix & Hnx & Hlt & Hd & Hw) Hb. split; [done|].
  assert (NoDup (ids (emplace d (next_ l, t) (timers_ l)))) as Hn'.
  { unfold ids. rewrite emplace_perm. cbn. constructor; [|done]. rewrite list_elem_of_fmap. intros ([d' [id' t']] & Heq & Hin).
    rewrite Forall_forall in Hlt. specialize (Hlt _ Hin). cbn in Hlt, Heq. lia. }
  assert (armed (At d t l).1 = <[next_ l := (d, t)]> (armed l)) as Ha.
  { unfold armed, At. cbn [fst timers_ set_timers]. by rewrite (armed_perm _ _ (emplace_perm _ _ _) Hn'). }
  assert (next_ (At d t l).1 = next_ l + 1) as Hnx' by (cbn; apply u64_small; lia). split; [|done].
  unfold Inv. rewrite Ha, Hnx'. cbn [At fst timers_ set_timers timer_index_ watches_ interest]. split_and!.
  - by apply emplace_sorted.
  - done.
  - by rewrite Hix, fmap_insert.
  - lia.
  - lia.
  - rewrite emplace_perm. constructor; [cbn; lia|]. eapply Forall_impl; [exact Hlt|]. cbn. lia.
  - done.
  - intros k x Hk. specialize (Hw k x Hk). cbn in Hw. lia.
Qed.

Lemma remove_node_spec a d id t b l ix :
  Inv l -> timers_ l = a ++ (d, (id, t)) :: b -> ix = delete id (timer_index_ l) ->
  Inv (set_timers (a ++ b) ix l) /\ armed (set_timers (a ++ b) ix l) = delete id (armed l).
Proof.
  intros (Hs & Hn & Hix & Hnx & Hlt & Hd & Hw) Ht ->.
  assert (timers_ l ≡ₚ (d, (id, t)) :: a ++ b) as Hp by (rewrite Ht; symmetry; apply Permutation_middle).
  assert (NoDup (ids ((d, (id, t)) :: a ++ b))) as Hn2 by (unfold ids in *; by rewrite <-Hp).
  assert (armed (set_timers (a ++ b) (delete id (timer_index_ l)) l) = delete id (armed l)) as Ha.
  { unfold armed. cbn [timers_ set_timers]. rewrite (armed_perm _ _ Hp Hn). cbn. rewrite delete_insert_id; [done|].
    apply not_elem_of_list_to_map. rewrite node_ids. by inversion Hn2. }
  split; [|done]. unfold Inv. rewrite Ha. cbn [timers_ set_timers timer_index_ watches_ interest next_]. split_and!; try done; try lia.
  - by eapply sorted_remove.
  - by inversion Hn2.
  - by rewrite Hix, fmap_delete.
  - rewrite Hp in Hlt. by inversion Hlt.
Qed.

Lemma Cancel_spec id l : Inv l ->
  (Cancel id l).2 = Ret tt /\ Inv (Cancel id l).1 /\ armed (Cancel id l).1 = delete id (armed l) /\ next_ (Cancel id l).1 = next_ l.
Proof.
  intros Hi. pose proof Hi as (Hs & Hn & Hix & _). unfold Cancel. rewrite Hix, lookup_fmap.
  destruct (armed l !! id) as [[d t]|] eqn:E; cbn [fmap option_fmap option_map fst].
  - pose proof E as Hin. apply armed_lookup in Hin; [|done]. destruct (erase d id (timers_ l)) as [ts|] eqn:Ee.
    + apply erase_Some in Ee as (a & b & t' & Ht & ->). split; [done|]. cbn [fst].
      destruct (remove_node_spec a d id t' b l _ Hi Ht eq_refl) as [? ?]. rewrite <-Hix. done.
    + by apply (erase_None d id t) in Ee.
  - split; [done|]. split; [done|]. split; [|done]. cbn [fst]. by rewrite delete_id.
Qed.

Lemma Cancel_rest id l :
  tasks_ (Cancel id l).1 = tasks_ l /\ stopping_ (Cancel id l).1 = stopping_ l /\ watches_ (Cancel id l).1 = watches_ l.
Proof. unfold Cancel. destruct (_ !! id); [destruct (erase _ _ _)|]; done. Qed.

Lemma pop_spec t ts l : Inv l -> timers_ l = t :: ts ->
  Inv (pop_timer t l).1 /\ armed (pop_timer t l).1 = delete t.2.1 (armed l) /\ timers_ (pop_timer t l).1 = ts /\
  next_ (pop_timer t l).1 = next_ l.
Proof.
  intros Hi Ht. destruct t as [d [id t]]. unfold pop_timer, modify. cbn [fst]. rewrite Ht. cbn [tail].
  destruct (remove_node_spec [] d id t ts l _ Hi Ht eq_refl) as [? ?]. done.
Qed.

#[local] Ltac inv_split :=
  unfold Inv, armed in *; cbn [fst timers_ timer_index_ next_ watches_ interest]; split_and!; try done; try lia.

Lemma Modify_Inv ok tk ev l : Inv l -> Inv (Modify ok tk ev l).1 /\ next_ (Modify ok tk ev l).1 = next_ l /\
  tasks_ (Modify ok tk ev l).1 = tasks_ l /\ timers_ (Modify ok tk ev l).1 = timers_ l /\ match (Modify ok tk ev l).2 with Ret _ => True | Throw e => e = std_system_error | _ => False end.
Proof.
  intros Hi. pose proof Hi as (Hs & Hn & Hix & Hnx & Hlt & Hd & Hw). unfold Modify.
  destruct (watches_ l !! tk) as [w|] eqn:E; [|done]. destruct ok; [|done]. split; [|done]. inv_split.
  rewrite dom_insert_L, <-Hd. symmetry. apply subseteq_union_1_L, singleton_subseteq_l. by apply elem_of_dom_2 in E.
Qed.

Lemma Remove_Inv tk l : Inv l -> Inv (Remove tk l).1 /\ next_ (Remove tk l).1 = next_ l /\ tasks_ (Remove tk l).1 = tasks_ l /\ timers_ (Remove tk l).1 = timers_ l /\
  (Remove tk l).2 = Ret tt.
Proof.
  intros Hi. pose proof Hi as (Hs & Hn & Hix & Hnx & Hlt & Hd & Hw). unfold Remove.
  destruct (watches_ l !! tk) as [w|] eqn:E; [|done]. split; [|done]. inv_split.
  - by rewrite !dom_delete_L, Hd.
  - by apply map_Forall_delete.
Qed.

Lemma Add_Inv ok fd ev cb l : Inv l -> next_ l + 1 < 2 ^ 64 ->
  Inv (Add ok fd ev cb l).1 /\ next_ (Add ok fd ev cb l).1 = next_ l + 1 /\ tasks_ (Add ok fd ev cb l).1 = tasks_ l /\
  timers_ (Add ok fd ev cb l).1 = timers_ l /\ (Add ok fd ev cb l).2 = if ok then Ret (next_ l) else Throw std_system_error.
Proof.
  intros Hi Hb. pose proof Hi as (Hs & Hn & Hix & Hnx & Hlt & Hd & Hw).
  assert (u64 (next_ l + 1) = next_ l + 1) as Hu by (apply u64_small; lia).
  assert (Forall (fun t => t.2.1 < next_ l + 1) (timers_ l)) as Hlt'.
  { eapply Forall_impl; [exact Hlt|]. cbn. lia. }
  assert (map_Forall (fun k (_ : Watch callback) => 0 < k < next_ l + 1) (watches_ l)) as Hw'.
  { intros k x Hk. specialize (Hw k x Hk). cbn in Hw. lia. }
  unfold Add. destruct ok; cbn -[u64]; rewrite Hu; (split; [|done]); inv_split.
  - rewrite !dom_insert_L. by rewrite Hd.
  - apply map_Forall_insert_2; [lia|done].
Qed.

Lemma run_op_Inv o l : Inv l -> next_ l + 1 < 2 ^ 64 ->
  Inv (run_op o l).1 /\ next_ l <= next_ (run_op o l).1 <= next_ l + 1 /\ (run_op o l).2 <> Undef.
Proof.
  intros Hi Hb. pose proof Hi as (Hs & Hn & Hix & Hnx & Hlt & Hd & Hw). destruct o as [ok fd ev cb|ok tk ev|tk|d t|id|t|]; cbn [run_op].
  - destruct (Add_Inv ok fd ev cb l Hi Hb) as (Hi' & Hn' & _ & _ & Hr). unfold mbind, M_bind. destruct (Add ok fd ev cb l) as [l' r]. cbn in *. subst r.
    destruct ok; (split; [done|split; [cbn; lia|done]]).
  - destruct (Modify_Inv ok tk ev l Hi) as (? & -> & _ & _ & Hr). split; [done|]. split; [lia|]. by destruct (Modify ok tk ev l) as [? []].
  - destruct (Remove_Inv tk l Hi) as (? & -> & _ & _ & ->). split; [done|]. split; [lia|done].
  - destruct (At_spec d t l Hi Hb) as (Hr & Hi' & _ & Hn' & _). unfold mbind, M_bind. destruct (At d t l) as [l' r]. cbn in *. subst r. cbn.
    split; [done|]. split; [lia|done].
  - destruct (Cancel_spec id l Hi) as (Hr & Hi' & _ & Hn'). rewrite Hr, Hn'. split; [done|]. split; [lia|done].
  - cbn. split; [done|]. split; [lia|done].
  - destruct (timers_ l) as [|t ts] eqn:E; [split; [done|split; [cbn; lia|done]]|].
    destruct (pop_spec t ts l Hi E) as (Hi' & _ & _ & Hn'). rewrite Hn'. split; [done|]. split; [lia|done].
Qed.

Definition run_ops (ops : list op) (l : loop task callback) : loop task callback := fold_left (fun l o => (run_op o l).1) ops l.

Lemma run_ops_Inv ops l : Inv l -> next_ l + zlen ops < 2 ^ 64 -> Inv (run_ops ops l) /\ next_ (run_ops ops l) <= next_ l + zlen ops.
Proof.
  revert l. induction ops as [|o ops IH]; intros l Hi Hb; [change (run_ops [] l) with l; rewrite zlen_nil; split; [done|lia]|].
  change (run_ops (o :: ops) l) with (run_ops ops (run_op o l).1).
  rewrite zlen_cons in *. pose proof (zlen_nonneg ops). destruct (run_op_Inv o l Hi ltac:(lia)) as (Hi' & Hn & _).
  destruct (IH _ Hi' ltac:(lia)). split; [done|lia].
Qed.

(** Whatever sequence of operations the reactor has run, its timers are exactly a map from
    identifiers: kept in deadline order, indexed by [timer_index_], extended by [At] under an unused
    identifier, shrunk by [Cancel], which never follows a dangling iterator; and each registered
    descriptor is registered with the kernel. *)
Lemma timers_refine_map (ops : list op) :
  zlen ops < 2 ^ 63 ->
  let l := run_ops ops new_loop in
  StronglySorted earlier (timers_ l) /\ timer_index_ l = fst <$> armed l /\ dom (watches_ l) = dom (interest l) /\
  (forall o, (run_op o l).2 <> Undef) /\
  (forall id, (Cancel id l).2 = Ret tt /\ armed (Cancel id l).1 = delete id (armed l)) /\
  (forall d t, armed l !! next_ l = None /\ armed (At d t l).1 = <[next_ l := (d, t)]> (armed l)).
Proof.
  intros Hb l. destruct (run_ops_Inv ops new_loop Inv_new) as [Hi Hn]; [cbn; lia|]. fold l in Hi, Hn. cbn in Hn.
  pose proof Hi as (Hs & Hnd & Hix & Hnx & Hlt & Hd & Hw). assert (next_ l + 1 < 2 ^ 64) by lia. split_and!; try done.
  - intros o. by apply run_op_Inv.
  - intros id. destruct (Cancel_spec id l Hi) as (? & _ & ? & _). done.
  - intros d t. destruct (At_spec d t l Hi) as (_ & _ & Ha & _); [done|]. split; [|done].
    destruct (armed l !! next_ l) as [[d' t']|] eqn:E; [|done]. apply armed_lookup in E; [|done].
    rewrite Forall_forall in Hlt. specialize (Hlt _ E). cbn in Hlt. lia.
Qed.

End Timers.
Arguments op : clear implicits.

(** * Firing *)

Section Fire.
Context {task callback : Type}.
(** The timers a task arms again when it runs. *)
Context (rearms : task -> list (Z * task)).
Implicit Types (l : loop task callback).

Definition arm (l : loop task callback) (x : Z * task) : loop task callback := (At x.1 x.2 l).1.
(** A client that records the tasks it executes. *)
Definition logging (t : task) : M (loop task callback * list task) unit := fun '(l, log) =>
  ((fold_left arm (rearms t) l, log ++ [t]), Ret tt).
Definition fire_logging : list Z -> M (loop task callback * list task) unit := fire fst (fun l w => (l, w.2)) logging.

(** Deadlines with their tasks, and the timers that a list of fired ones has armed. *)
Definition pairs (ts : list (Z * (Z * task))) : list (Z * task) := (fun t => (t.1, t.2.2)) <$> ts.
Definition rearmed (fired : list (Z * task)) : list (Z * task) := fired ≫= (fun x => rearms x.2).

Lemma arms_spec xs l : Inv l -> next_ l + zlen xs < 2 ^ 64 ->
  let l' := fold_left arm xs l in Inv l' /\ pairs (timers_ l') ≡ₚ xs ++ pairs (timers_ l) /\ next_ l' = next_ l + zlen xs.
Proof.
  revert l. induction xs as [|[d t] xs IH]; intros l Hi Hn; cbn [fold_left]; [rewrite zlen_nil; split; [done|]; split; [done|lia]|].
  rewrite zlen_cons in *. pose proof (zlen_nonneg xs). destruct (At_spec d t l Hi ltac:(lia)) as (_ & Hi' & _ & Hn' & Ht').
  change (At d t l).1 with (arm l (d, t)) in *. destruct (IH (arm l (d, t)) Hi' ltac:(lia)) as (H1 & H2 & H3). split; [done|]. split; [|lia].
  rewrite H2, Ht'. unfold pairs. rewrite emplace_perm. cbn [fmap list_fmap fst snd]. symmetry. apply Permutation_middle.
Qed.

Section Weights.
(** [w t] bounds the number of tasks that the execution of [t] leads to before [T]: its own, and those of the timers it
    arms with a deadline before [T]. *)
Context (T : Z) (w : task -> nat) (k : Z).
Definition weight (xs : list (Z * task)) : nat := sum_list_with (fun x => if x.1 <? T then w x.2 else O) xs.
Context (bounded : forall t, (weight (rearms t) < w t)%nat) (few : forall t, zlen (rearms t) <= k).

Lemma weight_app xs ys : weight (xs ++ ys) = (weight xs + weight ys)%nat.
Proof. apply sum_list_with_app. Qed.
#[local] Instance weight_perm : Proper ((≡ₚ) ==> (=)) weight.
Proof. intros xs ys H. induction H; cbn [weight sum_list_with] in *; unfold weight in *; cbn [sum_list_with]; lia. Qed.

(** Each fired timer is the earliest of those armed at that moment. *)
Definition earliest_first (initial fired : list (Z * task)) : Prop :=
  forall a x b, fired = a ++ x :: b -> exists now_armed, now_armed ++ a ≡ₚ initial ++ rearmed a /\ x ∈ now_armed /\ Forall (fun y => x.1 <= y.1) now_armed.

Lemma sorted_first t ts : StronglySorted earlier (t :: ts) -> Forall (fun y => t.1 <= y.1) (pairs (t :: ts)).
Proof. intros [_ H]%StronglySorted_inv. constructor; [done|]. apply Forall_fmap. eapply Forall_impl; [exact H|]. by intros []. Qed.
Lemma first_remains a c initial fired : initial ≡ₚ a :: c -> Forall (fun y => a.1 <= y.1) initial -> earliest_first (rearms a.2 ++ c) fired -> earliest_first initial (a :: fired).
Proof.
  intros Hp Hf He [|y p] x b E; injection E as <- E.
  - exists initial. split; [cbn; by rewrite !app_nil_r|]. split; [rewrite Hp; constructor|done].
  - destruct (He p x b E) as (m & Hm & Hx). exists m. split; [|done]. rewrite <-Permutation_middle, Hm, Hp. cbn [rearmed mbind list_bind app]. constructor.
    fold (rearmed p). rewrite (Permutation_app_comm (rearms a.2) c). by rewrite app_assoc.
Qed.

Lemma fire_spec clock l log :
  Inv l -> StronglySorted Z.le clock -> Forall (fun c => c < T) clock -> next_ l + k * zlen clock < 2 ^ 64 -> (weight (pairs (timers_ l)) < length clock)%nat ->
  exists l' fired now, fire_logging clock (l, log) = ((l', log ++ fired.*2), Ret tt) /\ now ∈ clock /\
    pairs (timers_ l) ++ rearmed fired ≡ₚ fired ++ pairs (timers_ l') /\
    Forall (fun x => x.1 <= now) fired /\ Forall (fun x => now < x.1) (pairs (timers_ l')) /\ earliest_first (pairs (timers_ l)) fired.
Proof.
  revert l log. induction clock as [|now clock IH]; intros l log Hi Hm Hc Hn Hlen; [cbn in Hlen; lia|].
  apply StronglySorted_inv in Hm as [Hm Hle]. apply Forall_cons in Hc as [Hnow Hc]. unfold fire_logging. cbn [fire fst]. pose proof Hi as (Hs & _). rewrite zlen_cons in Hn. cbn [length] in Hlen.
  destruct (timers_ l) as [|t ts] eqn:Et.
  { exists l, [], now. rewrite app_nil_r, Et. split; [done|]. split; [constructor|]. split; [done|]. split; [constructor|]. split; [constructor|]. by intros [|]. }
  pose proof (sorted_first t ts Hs) as Hfirst. destruct (Z.leb_spec t.1 now) as [Hdue|Hgt].
  2:{ exists l, [], now. rewrite app_nil_r, Et. split; [done|]. split; [constructor|]. split; [by rewrite app_nil_r|]. split; [constructor|]. split; [|by intros [|]].
      eapply Forall_impl; [exact Hfirst|]. cbn. lia. }
  destruct (pop_spec t ts l Hi Et) as (Hi1 & _ & Ht1 & Hn1). set (l1 := (pop_timer t l).1) in *. pose proof (few t.2.2). pose proof (zlen_nonneg (rearms t.2.2)). pose proof (zlen_nonneg clock).
  destruct (arms_spec (rearms t.2.2) l1 Hi1 ltac:(nia)) as (Hi2 & Hp2 & Hn2). set (l2 := fold_left arm (rearms t.2.2) l1) in *. rewrite Ht1 in Hp2.
  assert (weight (pairs (timers_ l2)) < length clock)%nat as Hw2.
  { rewrite Hp2, weight_app. pose proof (bounded t.2.2). cbn in Hlen. rewrite (proj2 (Z.ltb_lt t.1 T)) in Hlen by lia. unfold weight, pairs in *. lia. }
  destruct (IH l2 (log ++ [t.2.2]) Hi2 Hm Hc ltac:(nia) Hw2) as (l' & fired & now' & Hf & Hin & Hp & Hd & Hr & He).
  assert (now <= now') by (rewrite Forall_forall in Hle; by apply Hle).
  exists l', ((t.1, t.2.2) :: fired), now'. split; [rewrite <-app_assoc in Hf; exact Hf|]. split; [by constructor|]. split.
  { cbn [pairs fmap list_fmap rearmed mbind list_bind app fst snd]. fold (rearmed fired) (pairs ts). constructor. rewrite <-Hp, Hp2, (Permutation_app_comm (rearms t.2.2) (pairs ts)). by rewrite app_assoc. }
  split; [constructor; [cbn; lia|done]|]. split; [done|]. apply (first_remains _ (pairs ts)); [done|done|]. cbn [snd].
  intros a x b E. destruct (He a x b E) as (m & Hm' & Hx). exists m. by rewrite <-Hp2.
Qed.

(** C32. The timer loop of [Run] terminates and fires exactly what is due.  The clock does not go back and reads less than [T]
    during the loop, and the tasks arm timers of their own as they run, for any time, a task leading to at most [w] executions before [T]
    (the loop would not end if tasks kept arming timers that are due).  The loop then ends within as many readings as there are
    executions due, and at its last reading [now]: the timers that were armed, at the start or by a task that the loop ran,
    are those it fired, each once, and those it left; all that it fired were due by [now], and none that it left is,
    so that a timer armed meanwhile is fired too when it is due; and each fired timer had the earliest deadline
    of those armed at that moment. *)
Theorem fire_terminates_in_order clock l :
  Inv l -> StronglySorted Z.le clock -> Forall (fun c => c < T) clock -> next_ l + k * zlen clock < 2 ^ 64 -> (weight (pairs (timers_ l)) < length clock)%nat ->
  exists l' fired now, fire_logging clock (l, []) = ((l', fired.*2), Ret tt) /\ now ∈ clock /\
    pairs (timers_ l) ++ rearmed fired ≡ₚ fired ++ pairs (timers_ l') /\
    Forall (fun x => x.1 <= now) fired /\ Forall (fun x => now < x.1) (pairs (timers_ l')) /\ earliest_first (pairs (timers_ l)) fired.
Proof. apply fire_spec. Qed.
End Weights.
End Fire.

Definition three_timers : loop string unit :=
  run_ops [OAt 30 "late"%string; OAt 10 "first"%string; OAt 12 "second"%string] new_loop.
(** The first task arms a timer that is due at once, and the second one that is not. *)
Definition arms_more (t : string) : list (Z * string) :=
  if bool_decide (t = "first"%string) then [(11, "third"%string)] else if bool_decide (t = "second"%string) then [(25, "later"%string)] else [].
Definition executions (t : string) : nat := if bool_decide (t = "first"%string) then 2 else 1.

Lemma fire_terminates_in_order_witness :
  exists l' now, fire_logging (callback := unit) arms_more [20; 20; 21; 22; 22] (three_timers, []) = ((l', ["first"; "third"; "second"]%string), Ret tt) /\
    Forall (fun x => now < x.1) (pairs (timers_ l')) /\ 20 <= now.
Proof.
  destruct (fire_terminates_in_order (callback := unit) arms_more 23 executions 1) with (clock := [20; 20; 21; 22; 22]) (l := three_timers) as (l' & fired & now & H & Hin & _ & _ & Hl & _).
  - intros t. unfold arms_more, executions. destruct (bool_decide (t = "first"%string)); [vm_compute; lia|]. destruct (bool_decide _); vm_compute; lia.
  - intros t. unfold arms_more. destruct (bool_decide _); [vm_compute; discriminate|]. destruct (bool_decide _); vm_compute; discriminate.
  - apply run_ops_Inv; [apply Inv_new|]. vm_compute. reflexivity.
  - repeat constructor; lia.
  - repeat constructor; lia.
  - vm_compute. reflexivity.
  - vm_compute. lia.
  - exists l', now. assert (fired.*2 = ["first"; "third"; "second"]%string) as E by (apply (f_equal (fun x => x.1.2)) in H; symmetry; exact H).
    rewrite E in H. split; [exact H|]. split; [exact Hl|]. repeat (apply elem_of_cons in Hin as [->|Hin]; [lia|]). inversion Hin.
Defined.

(** The reactor neither spins nor oversleeps: with the first deadline up to 24 days ahead,
    [epoll_wait] sleeps past the deadline by at most a millisecond, never less than up to it; with no
    timer it sleeps until an event, and a deadline a millisecond past does not sleep. *)
Lemma wait_timeout_tight {task callback : Type} (now : Z) (l : loop task callback) :
  match timers_ l with
  | [] => wait_timeout now l = -1
  | t :: _ =>
      (0 <= t.1 - now < (2 ^ 31 - 2) * 1000000 -> t.1 - now < wait_timeout now l * 1000000 <= t.1 - now + 1000000) /\
      (t.1 - now <= - 1000000 -> wait_timeout now l = 0)
  end.
Proof.
  unfold wait_timeout. destruct (timers_ l) as [|t ts]; [done|]. split; intros H.
  - rewrite Z.quot_div_nonneg by lia. pose proof (Z.mul_div_le (t.1 - now) 1000000 ltac:(lia)).
    pose proof (Z.mul_succ_div_gt (t.1 - now) 1000000 ltac:(lia)). lia.
  - pose proof (Z.quot_opp_l (- (t.1 - now)) 1000000 ltac:(lia)) as E. rewrite Z.opp_involutive in E. rewrite E.
    rewrite Z.quot_div_nonneg by lia. assert (1 <= - (t.1 - now) / 1000000) by (apply Z.div_le_lower_bound; lia). lia.
Qed.

(** * Posting from other threads *)

(** [Post] is a push under the mutex and then a write to the event descriptor; [Run] drains the
    descriptor and then swaps the queue out under the mutex.  Each system call and each critical
    section is one step, and any thread may post between any two. *)
Module Wakeup.
Section Wakeup.
Context {task : Type}.

(** Where the reactor is: in [epoll_wait], reading the descriptor, before the swap, running tasks. *)
Inductive place := Waiting | Draining | Swapping | Running (ts : list task).

(** [counter] is the event descriptor's, [edge] an event not yet reported by the edge-triggered
    [epoll_wait], [writers] the threads between their push and their write. *)
Record state := mkState {
  tasks_ : list task;
  counter : Z;
  edge : bool;
  at_ : place;
  writers : nat;
  posted : list task;
  executed : list task
}.
Definition start : state := mkState [] 0 false Waiting 0 [] [].
Definition full : Z := 2 ^ 64 - 2.

Inductive post_step : state -> state -> Prop :=
| post_push t q c e a n p x : post_step (mkState q c e a n p x) (mkState (q ++ [t]) c e a (S n) (p ++ [t]) x)
| post_write q c e a n p x : c < full -> post_step (mkState q c e a (S n) p x) (mkState q (c + 1) true a n p x)
| post_full q c e a n p x : c = full -> post_step (mkState q c e a (S n) p x) (mkState q c e a n p x).

Inductive run_step : state -> state -> Prop :=
| run_wait q c n p x : run_step (mkState q c true Waiting n p x) (mkState q c false Draining n p x)
| run_read q c e n p x : 0 < c -> run_step (mkState q c e Draining n p x) (mkState q 0 e Draining n p x)
| run_drained q e n p x : run_step (mkState q 0 e Draining n p x) (mkState q 0 e Swapping n p x)
| run_swap q c e n p x : run_step (mkState q c e Swapping n p x) (mkState [] c e (Running q) n p x)
| run_task t ts q c e n p x : run_step (mkState q c e (Running (t :: ts)) n p x) (mkState q c e (Running ts) n p (x ++ [t]))
| run_done q c e n p x : run_step (mkState q c e (Running []) n p x) (mkState q c e Waiting n p x).

Definition step (s s' : state) : Prop := post_step s s' \/ run_step s s'.
Definition reachable : state -> Prop := rtc step start.

Definition running (s : state) : list task := match at_ s with Running ts => ts | _ => [] end.
Definition Inv (s : state) : Prop :=
  executed s ++ running s ++ tasks_ s = posted s /\ 0 <= counter s <= full /\
  (tasks_ s <> [] -> writers s <> O \/ 0 < counter s \/ at_ s = Draining \/ at_ s = Swapping) /\
  (0 < counter s -> edge s = true \/ at_ s = Draining).

Lemma post_Inv s s' : Inv s -> post_step s s' -> Inv s'.
Proof.
  unfold Inv. intros (Hf & Hc & Ht & He) H. destruct H; unfold running in *; cbn [tasks_ counter edge at_ writers posted executed] in *.
  - split; [rewrite <-Hf; by rewrite <-!app_assoc|]. split; [done|]. split; [by left|done].
  - split; [done|]. split; [lia|]. split; [intros _; right; left; lia|by left].
  - split; [done|]. split; [lia|]. split; [intros _; right; left; subst; done|done].
Qed.

Lemma run_Inv s s' : Inv s -> run_step s s' -> Inv s'.
Proof.
  unfold Inv. intros (Hf & Hc & Ht & He) H. destruct H; unfold running in *; cbn [tasks_ counter edge at_ writers posted executed] in *.
  - split; [done|]. split; [done|]. split; [by auto|by right].
  - split; [done|]. split; [unfold full; lia|]. split; [by auto|lia].
  - split; [done|]. split; [done|]. split; [by auto|lia].
  - split; [rewrite <-Hf; by rewrite app_nil_r|]. split; [done|]. split; [done|]. intros H. left. by destruct (He H).
  - split; [rewrite <-Hf; by rewrite <-!app_assoc|]. split; [done|].
    split; [intros Hq; destruct (Ht Hq) as [|[|[|]]]; by auto|]. intros H. left. by destruct (He H).
  - split; [done|]. split; [done|]. split; [intros Hq; destruct (Ht Hq) as [|[|[|]]]; by auto|]. intros H. left. by destruct (He H).
Qed.

Lemma wakeup_Inv s : reachable s -> Inv s.
Proof.
  intros H. unfold reachable in H. remember start as s0 eqn:E. assert (Inv s0) as Hi.
  { subst. unfold Inv, full. cbn. split_and!; try done; lia. }
  clear E. induction H as [|s1 s2 s3 Hs _ IH]; [done|]. apply IH. destruct Hs; [by eapply post_Inv|by eapply run_Inv].
Qed.

(** From [epoll_wait], the reactor drains its queue by its own steps when an event is due. *)
Lemma drain_run ts q c e n p x : rtc run_step (mkState q c e (Running ts) n p x) (mkState q c e Waiting n p (x ++ ts)).
Proof.
  revert x. induction ts as [|t ts IH]; intros x; [rewrite app_nil_r; apply rtc_once; constructor|].
  eapply rtc_l; [constructor|]. rewrite (cons_middle t x ts), app_assoc. apply IH.
Qed.

Lemma swap_run q c e n p x : rtc run_step (mkState q c e Swapping n p x) (mkState [] c e Waiting n p (x ++ q)).
Proof. eapply rtc_l; [constructor|]. apply drain_run. Qed.

Lemma draining_run q c e n p x : 0 <= c -> rtc run_step (mkState q c e Draining n p x) (mkState [] 0 e Waiting n p (x ++ q)).
Proof.
  intros Hc. destruct (decide (c = 0)) as [->|Hn].
  - eapply rtc_l; [apply run_drained|]. apply swap_run.
  - eapply rtc_l; [apply run_read; lia|]. eapply rtc_l; [apply run_drained|]. apply swap_run.
Qed.

Lemma waiting_run q c e p x : 0 <= c -> (q <> [] -> e = true) ->
  exists s, rtc run_step (mkState q c e Waiting 0 p x) s /\ at_ s = Waiting /\ tasks_ s = [] /\ executed s = x ++ q /\ posted s = p.
Proof.
  intros Hc Hq. destruct q as [|t q]; [eexists; split; [constructor|]; by rewrite app_nil_r|]. rewrite Hq by done.
  eexists. split; [eapply rtc_l; [constructor|by apply draining_run]|]. done.
Qed.

(** C19. No posted task is lost or reordered, whatever the interleaving of posting threads with the
    reactor: executed, running and queued tasks are the posted ones in order; the reactor never sleeps
    on a non-empty queue once the posting threads have finished; and from every such state its own
    steps execute everything posted. *)
Theorem no_lost_wakeup (s : state) :
  reachable s ->
  executed s ++ running s ++ tasks_ s = posted s /\
  (writers s = O -> at_ s = Waiting -> tasks_ s <> [] -> edge s = true) /\
  (writers s = O -> exists s', rtc run_step s s' /\ at_ s' = Waiting /\ executed s' = posted s).
Proof.
  intros Hr. apply wakeup_Inv in Hr as (Hf & Hc & Ht & He). split; [done|].
  assert (writers s = O -> at_ s = Waiting -> tasks_ s <> [] -> edge s = true) as Hw.
  { intros Hn Ha Hq. destruct (Ht Hq) as [|[H|[H|H]]]; [done| |by rewrite Ha in H..]. destruct (He H) as [|H']; [done|by rewrite Ha in H']. }
  split; [done|]. intros Hn. destruct s as [q c e a n p x]. cbn in *. subst n. unfold running in Hf. cbn in Hf.
  destruct a as [| | |ts].
  - destruct (waiting_run q c e p x) as (s' & H1 & H2 & _ & H4 & _); [lia|by apply Hw|]. exists s'. split; [done|]. split; [done|].
    by rewrite H4, <-Hf.
  - eexists. split; [by apply draining_run, Hc|]. split; [done|]. by rewrite <-Hf.
  - eexists. split; [by apply swap_run|]. split; [done|]. by rewrite <-Hf.
  - assert (q <> [] -> e = true) as Hq'.
    { intros Hq. destruct (Ht Hq) as [|[H|[|]]]; [done| |done..]. by destruct (He H). }
    destruct (waiting_run q c e p (x ++ ts)) as (s' & H1 & H2 & _ & H4 & _); [lia|done|].
    exists s'. split; [etrans; [apply drain_run|exact H1]|]. split; [done|]. by rewrite H4, <-app_assoc.
Qed.
End Wakeup.
Arguments state : clear implicits.

(** The event of one post is reported, then another thread posts before the descriptor is read. *)
Lemma no_lost_wakeup_witness :
  exists s', rtc run_step (mkState ["a"; "b"]%string 2 true Draining 0 ["a"; "b"]%string []) s' /\ executed s' = ["a"; "b"]%string.
Proof.
  destruct (no_lost_wakeup (mkState ["a"; "b"]%string 2 true Draining 0 ["a"; "b"]%string [])) as (_ & _ & H).
  - apply rtc_l with (mkState ["a"]%string 0 false Waiting 1 ["a"]%string []); [left; exact (post_push "a"%string [] 0 false Waiting 0 [] [])|].
    apply rtc_l with (mkState ["a"]%string 1 true Waiting 0 ["a"]%string []); [left; apply (post_write ["a"%string] 0); vm_compute; reflexivity|].
    apply rtc_l with (mkState ["a"]%string 1 false Draining 0 ["a"]%string []); [right; apply run_wait|].
    apply rtc_l with (mkState ["a"; "b"]%string 1 false Draining 1 ["a"; "b"]%string []); [left; exact (post_push "b"%string ["a"%string] 1 false Draining 0 ["a"%string] [])|].
    apply rtc_once. left. apply (post_write ["a"%string; "b"%string] 1). vm_compute. reflexivity.
  - destruct (H eq_refl) as (s' & H1 & _ & H2). exists s'. split; [exact H1|exact H2].
Defined.
End Wakeup.

End EventLoop.
