(* ===== verification/AsyncTransport.v ===== *)
(** [kvrpc::AsyncTransport] (src/async_transport.cpp, include/kvrpc/async_transport.h): one reactor drives a
    set of persistent connections, the requests waiting for them and all the deadlines.  Every function
    of [Impl] is a definition; [Submit] and the reactor's callbacks interleave as whole steps. *)
From S2P Require Import Prelude Buffer Executor EventLoop.
Import EventLoop.

(** [TransportOptions] of tcp_connection.h, in milliseconds; clock readings are in nanoseconds. *)
Record TransportOptions := mkTransportOptions { connect_timeout : Z; io_timeout : Z }.
Definition default_transport_options : TransportOptions := mkTransportOptions 2000 5000.

Module AsyncTransport.

(** * Data *)

(** A [std::shared_ptr<Request>] is an address in the [store]. *)
Abbreviation ref := nat.
(** [complete] is the callback's verdict on a response or an error; [slot] is [None] for [SIZE_MAX].
    [deadline] records what [Submit] computed. *)
Record Request := mkRequest {
  id : Z; timer : Z; req_bytes : bytes; complete : bytes -> option exn -> bool; slot : option nat; was_sent : bool; deadline : Z
}.
Definition set_timer (t : Z) (r : Request) : Request :=
  mkRequest (id r) t (req_bytes r) (complete r) (slot r) (was_sent r) (deadline r).
Definition set_slot (i : nat) (r : Request) : Request :=
  mkRequest (id r) (timer r) (req_bytes r) (complete r) (Some i) (was_sent r) (deadline r).
Definition set_sent (r : Request) : Request :=
  mkRequest (id r) (timer r) (req_bytes r) (complete r) (slot r) true (deadline r).

(** The history of one connection from its opening to its disconnection: the requests put on it, the
    bytes sent and received, and the response frames with the request each was attributed to. *)
Record Session := mkSession { dispatched : list (Z * bytes); wire : bytes; stream : bytes; answers : list (Z * bytes) }.
Definition new_session : Session := mkSession [] [] [] [].

Record Connection := mkConnection {
  fd : Z; token : Z; connect_timer : Z; connecting : bool; scheduled : bool;
  input : Buffer.buffer; output : list ref; order : list Z; sent : Z; inflight : Z; retired : gset Z;
  session : Session
}.
Definition new_connection : Connection := mkConnection (-1) 0 0 false false Buffer.empty [] [] 0 0 ∅ new_session.

(** Updates of one connection. *)
Definition count_inflight (d : Z) (c : Connection) : Connection :=
  mkConnection (fd c) (token c) (connect_timer c) (connecting c) (scheduled c) (input c) (output c) (order c) (sent c) (u64 (inflight c + d)) (retired c) (session c).
Definition cleared (c : Connection) : Connection :=
  mkConnection (-1) (token c) (connect_timer c) false (scheduled c) Buffer.empty [] [] 0 (inflight c) ∅ new_session.
Definition opened (f : Z) (c : Connection) : Connection :=
  mkConnection f (token c) (connect_timer c) (connecting c) (scheduled c) (input c) (output c) (order c) (sent c) (inflight c) (retired c) (session c).
Definition watched (t : Z) (c : Connection) : Connection :=
  mkConnection (fd c) t (connect_timer c) (connecting c) (scheduled c) (input c) (output c) (order c) (sent c) (inflight c) (retired c) (session c).
Definition set_connecting (b : bool) (c : Connection) : Connection :=
  mkConnection (fd c) (token c) (connect_timer c) b (scheduled c) (input c) (output c) (order c) (sent c) (inflight c) (retired c) (session c).
Definition set_connect_timer (t : Z) (c : Connection) : Connection :=
  mkConnection (fd c) (token c) t (connecting c) (scheduled c) (input c) (output c) (order c) (sent c) (inflight c) (retired c) (session c).
Definition set_scheduled (b : bool) (c : Connection) : Connection :=
  mkConnection (fd c) (token c) (connect_timer c) (connecting c) b (input c) (output c) (order c) (sent c) (inflight c) (retired c) (session c).
Definition took (n : Z) (chunk : bytes) (c : Connection) : Connection :=
  mkConnection (fd c) (token c) (connect_timer c) (connecting c) (scheduled c) (input c) (output c) (order c) (sent c + n) (inflight c) (retired c)
    (mkSession (dispatched (session c)) (wire (session c) ++ chunk) (stream (session c)) (answers (session c))).
Definition pop_output (c : Connection) : Connection :=
  mkConnection (fd c) (token c) (connect_timer c) (connecting c) (scheduled c) (input c) (tail (output c)) (order c) 0 (inflight c) (retired c) (session c).
Definition received (chunk : bytes) (c : Connection) : Connection :=
  mkConnection (fd c) (token c) (connect_timer c) (connecting c) (scheduled c) (Buffer.append chunk (input c)) (output c) (order c) (sent c) (inflight c) (retired c)
    (mkSession (dispatched (session c)) (wire (session c)) (stream (session c) ++ chunk) (answers (session c))).
(** A response of [size] bytes leaves the input and is attributed to request [i]. *)
Definition answered (i : Z) (response : bytes) (size : Z) (os : list Z) (rs : gset Z) (c : Connection) : Connection :=
  mkConnection (fd c) (token c) (connect_timer c) (connecting c) (scheduled c) (Buffer.consume size (input c)) (output c) os (sent c) (inflight c) rs
    (mkSession (dispatched (session c)) (wire (session c)) (stream (session c)) (answers (session c) ++ [(i, response)])).
Definition retire (i : Z) (c : Connection) : Connection :=
  mkConnection (fd c) (token c) (connect_timer c) (connecting c) (scheduled c) (input c) (output c) (order c) (sent c) (inflight c) ({[i]} ∪ retired c) (session c).
Definition pushed (a : ref) (i : Z) (bs : bytes) (ordered : bool) (c : Connection) : Connection :=
  mkConnection (fd c) (token c) (connect_timer c) (connecting c) (scheduled c) (input c) (output c ++ [a]) (if ordered then order c ++ [i] else order c)
    (sent c) (u64 (inflight c + 1)) (retired c)
    (mkSession (dispatched (session c) ++ [(i, bs)]) (wire (session c)) (stream (session c)) (answers (session c))).

(** The tasks and timers given to the reactor; the callback of a descriptor holds its connection. *)
Inductive task := TSubmit (a : ref) (d : Z) | TTimeout (i : Z) | TConnectTimeout (index : nat) | TPump (index : nat) | TDrain | TNothing.
Definition callback : Type := nat.

(** ** What the system calls answer *)

Inductive send_reply := Took (n : Z) | SEintr | SEagain | SFailed.
(** [Got []] is the end of the stream. *)
Inductive recv_reply := Got (chunk : bytes) | REintr | REagain | RFailed.
(** For one [Pump]: [getsockopt] reports an error, [getpeername] succeeds, the calls of the loops, and
    [epoll_ctl]. A finished list reads as EAGAIN. *)
Record pump_env := mkPumpEnv { so_error : bool; has_peer : bool; sends : list send_reply; recvs : list recv_reply; modify_ok : bool }.
(** For one [Connect]: no socket, refused at once, or a descriptor that is connected or connecting, and
    whether [epoll_ctl] accepts it. *)
Inductive dial_reply := NoSocket | Refused (f : nat) | Dialed (f : nat) (in_progress : bool) (add_ok : bool) (now : Z).
Definition quiet_pump : pump_env := mkPumpEnv false false [] [] true.

(** ** The state *)

(** [completed] and [submitted] are the history: every call of a completion, every call of [Submit];
    [past] holds the sessions that have ended; [pumps] and [dials] what the current callback observes. *)
Record impl := mkImpl {
  evloop : loop task callback;
  sockets : list Connection;
  waiting : list ref;
  requests : gmap Z ref;
  store : gmap ref Request;
  admitted : Z;
  queued : Z;
  closing : bool;
  draining : bool;
  pumps : list pump_env;
  dials : list dial_reply;
  past : list Session;
  completed : list (Z * (bytes * option exn));
  submitted : list Z
}.
Definition upd_loop (l : loop task callback) (s : impl) : impl :=
  mkImpl l (sockets s) (waiting s) (requests s) (store s) (admitted s) (queued s) (closing s) (draining s) (pumps s) (dials s) (past s) (completed s) (submitted s).
Definition upd_sockets (cs : list Connection) (s : impl) : impl :=
  mkImpl (evloop s) cs (waiting s) (requests s) (store s) (admitted s) (queued s) (closing s) (draining s) (pumps s) (dials s) (past s) (completed s) (submitted s).
Definition upd_waiting (w : list ref) (s : impl) : impl :=
  mkImpl (evloop s) (sockets s) w (requests s) (store s) (admitted s) (queued s) (closing s) (draining s) (pumps s) (dials s) (past s) (completed s) (submitted s).
Definition upd_requests (m : gmap Z ref) (s : impl) : impl :=
  mkImpl (evloop s) (sockets s) (waiting s) m (store s) (admitted s) (queued s) (closing s) (draining s) (pumps s) (dials s) (past s) (completed s) (submitted s).
Definition upd_store (m : gmap ref Request) (s : impl) : impl :=
  mkImpl (evloop s) (sockets s) (waiting s) (requests s) m (admitted s) (queued s) (closing s) (draining s) (pumps s) (dials s) (past s) (completed s) (submitted s).
Definition upd_admission (n b : Z) (s : impl) : impl :=
  mkImpl (evloop s) (sockets s) (waiting s) (requests s) (store s) n b (closing s) (draining s) (pumps s) (dials s) (past s) (completed s) (submitted s).
Definition upd_closing (s : impl) : impl :=
  mkImpl (evloop s) (sockets s) (waiting s) (requests s) (store s) (admitted s) (queued s) true (draining s) (pumps s) (dials s) (past s) (completed s) (submitted s).
Definition upd_draining (s : impl) : impl :=
  mkImpl (evloop s) (sockets s) (waiting s) (requests s) (store s) (admitted s) (queued s) (closing s) true (pumps s) (dials s) (past s) (completed s) (submitted s).
Definition upd_env (ps : list pump_env) (ds : list dial_reply) (s : impl) : impl :=
  mkImpl (evloop s) (sockets s) (waiting s) (requests s) (store s) (admitted s) (queued s) (closing s) (draining s) ps ds (past s) (completed s) (submitted s).
Definition archive (x : Session) (s : impl) : impl :=
  mkImpl (evloop s) (sockets s) (waiting s) (requests s) (store s) (admitted s) (queued s) (closing s) (draining s) (pumps s) (dials s) (past s ++ [x]) (completed s) (submitted s).
Definition complete_with (i : Z) (b : bytes) (e : option exn) (s : impl) : impl :=
  mkImpl (evloop s) (sockets s) (waiting s) (requests s) (store s) (admitted s) (queued s) (closing s) (draining s) (pumps s) (dials s) (past s) (completed s ++ [(i, (b, e))]) (submitted s).
Definition record_submit (i : Z) (s : impl) : impl :=
  mkImpl (evloop s) (sockets s) (waiting s) (requests s) (store s) (admitted s) (queued s) (closing s) (draining s) (pumps s) (dials s) (past s) (completed s) (submitted s ++ [i]).

(** Access to the parts; a connection or a request that does not exist is undefined behaviour. *)
Definition in_loop {A} (m : M (loop task callback) A) : M impl A := fun s => let '(l, r) := m (evloop s) in (upd_loop l s, r).
Definition get_conn (i : nat) : M impl Connection := fun s => (s, match sockets s !! i with Some c => Ret c | None => Undef end).
Definition on_conn (i : nat) (f : Connection -> Connection) : M impl unit := fun s =>
  match sockets s !! i with Some c => (upd_sockets (<[i := f c]> (sockets s)) s, Ret tt) | None => (s, Undef) end.
Definition get_request (a : ref) : M impl Request := fun s => (s, match store s !! a with Some r => Ret r | None => Undef end).
Definition on_request (a : ref) (f : Request -> Request) : M impl unit := fun s =>
  match store s !! a with Some r => (upd_store (<[a := f r]> (store s)) s, Ret tt) | None => (s, Undef) end.
Definition pop_pump : M impl pump_env := fun s => (upd_env (tail (pumps s)) (dials s) s, Ret (hd quiet_pump (pumps s))).
Definition pop_dial : M impl dial_reply := fun s => (upd_env (pumps s) (tail (dials s)) s, Ret (hd NoSocket (dials s))).

(** * Operations *)

(** [visit] is the iteration order of the [requests] table, which the library leaves open. *)
Record config := mkConfig {
  timeouts : TransportOptions; options : ClientOptions; framing : bytes -> outcome Z; ids : option (bytes -> outcome Z);
  visit : gmap Z ref -> list (Z * ref)
}.

(** The constructor of [Impl]; [valid_address] is the result of [inet_pton]. *)
Definition make (port : Z) (valid_address : bool) (connections : Z) (cfg : config) : outcome impl :=
  let t := timeouts cfg in
  let o := options cfg in
  if (port =? 0) || negb valid_address || (io_timeout t <=? 0) || (connect_timeout t <=? 0) || (connections =? 0) ||
     (queue_capacity o =? 0) || (max_frame_bytes o =? 0) || (queue_bytes o =? 0) || (max_inflight o =? 0)
  then Throw (KvError invalid_argument)
  else Ret (mkImpl new_loop (replicate (Z.to_nat connections) new_connection) [] ∅ ∅ 0 0 false false [] [] [] [] []).

Section Transport.
Context (cfg : config).

(** The requests on a connection, in the order the table is visited. *)
Definition failed_on (index : nat) (s : impl) : list Z :=
  (filter (fun x => slot <$> (store s !! x.2) = Some (Some index)) (visit cfg (requests s))).*1.

Fixpoint finish_all (finish : Z -> bytes -> option exn -> M impl unit) (code : ErrorCode) (failed : list Z) : M impl unit :=
  match failed with
  | [] => mret tt
  | i :: failed => finish i [] (Some (KvError code)) ;; finish_all finish code failed
  end.

(** [Disconnect] over the [Finish] it calls: the two are mutually recursive. *)
Definition Disconnect_with (finish : Z -> bytes -> option exn -> M impl unit) (index : nat) (code : ErrorCode) : M impl unit :=
  c ← get_conn index ;
  (if 0 <=? fd c then in_loop (Remove (token c)) else mret tt) ;;
  in_loop (Cancel (connect_timer c)) ;;
  on_conn index cleared ;;
  modify (archive (session c)) ;;
  s ← get_state ;
  finish_all finish code (failed_on index s).

Definition not_request (s : impl) (i : Z) (a : ref) : Prop := id <$> (store s !! a) <> Some i.
#[export] Instance not_request_dec s i a : Decision (not_request s i a).
Proof. unfold not_request. apply _. Defined.

(** [fuel] bounds the nesting; it is chosen above the number of requests, each call removing one. *)
Fixpoint Finish_fuel (fuel : nat) (i : Z) (response : bytes) (error : option exn) : M impl unit :=
  match fuel with
  | O => lift Blocked
  | S fuel =>
      s ← get_state ;
      match requests s !! i with
      | None => mret tt
      | Some a =>
          r ← get_request a ;
          modify (fun s => upd_requests (delete i (requests s)) s) ;;
          in_loop (Cancel (timer r)) ;;
          (match slot r with
           | Some index => on_conn index (count_inflight (-1))
           | None => modify (fun s => upd_waiting (filter (not_request s i) (waiting s)) s)
           end) ;;
          modify (fun s => upd_admission (u64 (admitted s - 1)) (u64 (queued s - zlen (req_bytes r))) s) ;;
          modify (complete_with i response error) ;;
          (match slot r with
           | Some index => if complete r response error then mret tt else Disconnect_with (Finish_fuel fuel) index protocol
           | None => mret tt
           end) ;;
          s ← get_state ;
          if draining s && bool_decide (requests s = ∅) then in_loop (Stop TNothing) else mret tt
      end
  end.
Definition Finish (i : Z) (response : bytes) (error : option exn) : M impl unit := fun s =>
  Finish_fuel (S (size (requests s))) i response error s.
Definition Disconnect (index : nat) (code : ErrorCode) : M impl unit := fun s =>
  Disconnect_with (Finish_fuel (S (size (requests s)))) index code s.

Definition Connect (index : nat) : M impl unit :=
  d ← pop_dial ;
  match d with
  | NoSocket => on_conn index (opened (-1)) ;; Disconnect index connection
  | Refused f => on_conn index (opened (Z.of_nat f)) ;; Disconnect index connection
  | Dialed f in_progress add_ok now =>
      on_conn index (opened (Z.of_nat f)) ;;
      on_conn index (set_connecting in_progress) ;;
      t ← in_loop (Add add_ok (Z.of_nat f) (Z.lor EPOLLIN (Z.lor EPOLLOUT EPOLLRDHUP)) index) ;
      on_conn index (watched t) ;;
      if in_progress then
        t ← in_loop (At (now + connect_timeout (timeouts cfg) * 1000000) (TConnectTimeout index)) ;
        on_conn index (set_connect_timer t)
      else mret tt
  end.

Definition Schedule (index : nat) : M impl unit :=
  c ← get_conn index ;
  if scheduled c then mret tt else on_conn index (set_scheduled true) ;; in_loop (Post (TPump index)).

(** ** The loops of [Pump]; [None] means that it returns *)

Definition budget0 : Z := 256 * 1024.

Fixpoint send_loop (index : nat) (sends : list send_reply) (budget : Z) : M impl (option Z) :=
  c ← get_conn index ;
  match output c with
  | [] => mret (Some budget)
  | front :: _ =>
      if budget =? 0 then mret (Some budget) else
      match sends with
      | [] | SEagain :: _ => mret (Some budget)
      | SEintr :: sends => send_loop index sends budget
      | SFailed :: _ => Disconnect index transport ;; mret None
      | Took n :: sends =>
          r ← get_request front ;
          let data := req_bytes r in
          let want := Z.min budget (zlen data - sent c) in
          if want <=? 0 then Disconnect index transport ;; mret None else
          let n := Z.max 1 (Z.min n want) in
          on_conn index (took n data.[Z.to_nat (sent c), Z.to_nat n]) ;;
          (if sent c + n =? zlen data then on_request front set_sent ;; on_conn index pop_output else mret tt) ;;
          send_loop index sends (budget - n)
      end
  end.

(** The largest frame accepted, and whether responses carry identifiers. *)
Definition has_ids : bool := bool_decide (is_Some (ids cfg)).
Definition max_response : Z := u64 (max_frame_bytes (options cfg) + if has_ids then 16 else 0).

(** The request a response is for: a live one on this connection. *)
Definition find_request (index : nat) (i : Z) : M impl unit :=
  s ← get_state ;
  match requests s !! i with
  | None => throw (KvError protocol)
  | Some a => r ← get_request a ; if bool_decide (slot r = Some index) then mret tt else throw (KvError protocol)
  end.

(** The loop over complete frames; [false] when the connection was closed.  A response is taken off the
    input once its request is known: the exceptions before that all end in [Disconnect], which empties
    the input. [fuel] is the number of bytes buffered. *)
Fixpoint frame_loop (fuel : nat) (index : nat) : M impl bool :=
  c ← get_conn index ;
  if Buffer.size (input c) =? 0 then mret true else
  match fuel with
  | O => lift Blocked
  | S fuel =>
      size ← lift (framing cfg (Buffer.data (input c))) ;
      if max_response <? size then throw (KvError protocol) else
      if (size =? 0) || (Buffer.size (input c) <? size) then mret true else
      response ← lift (Buffer.copy size (input c)) ;
      i ← (match ids cfg with Some f => lift (f response) | None => mret (hd 0 (order c)) end) ;
      if has_ids && bool_decide (i ∈ retired c) then
        on_conn index (answered i response size (order c) (retired c ∖ {[i]})) ;; frame_loop fuel index
      else
        find_request index i ;;
        os ← (if has_ids then mret (order c) else match order c with [] => lift Undef | _ :: os => mret os end) ;
        on_conn index (answered i response size os (retired c)) ;;
        Finish i response None ;;
        c ← get_conn index ;
        if fd c <? 0 then mret false else frame_loop fuel index
  end.

Fixpoint recv_loop (index : nat) (recvs : list recv_reply) (budget : Z) : M impl (option Z) :=
  if budget =? 0 then mret (Some budget) else
  match recvs with
  | [] | REagain :: _ => mret (Some budget)
  | REintr :: recvs => recv_loop index recvs budget
  | RFailed :: _ => Disconnect index transport ;; mret None
  | Got chunk :: recvs =>
      let chunk := take (Z.to_nat (Z.min 16384 budget)) chunk in
      if bool_decide (chunk = []) then Disconnect index transport ;; mret None else
      on_conn index (received chunk) ;;
      c ← get_conn index ;
      go ← try_catch (frame_loop (Z.to_nat (Buffer.size (input c))) index) (fun _ => Disconnect index protocol ;; mret false) ;
      if (go : bool) then recv_loop index recvs (budget - zlen chunk) else mret None
  end.

Definition pump_io (e : pump_env) (index : nat) : M impl unit :=
  b ← send_loop index (sends e) budget0 ;
  match b with
  | None => mret tt
  | Some budget =>
      c ← get_conn index ;
      (if (budget =? 0) && negb (bool_decide (output c = [])) then Schedule index else mret tt) ;;
      b ← recv_loop index (recvs e) budget0 ;
      match b with
      | None => mret tt
      | Some budget =>
          (if budget =? 0 then Schedule index else mret tt) ;;
          c ← get_conn index ;
          in_loop (Modify (modify_ok e) (token c) (Z.lor EPOLLIN (Z.lor EPOLLRDHUP (if bool_decide (output c = []) then 0 else EPOLLOUT))))
      end
  end.

(** The check of a connection attempt: whether [Pump] goes on. *)
Definition pump_connect (e : pump_env) (index : nat) : M impl bool :=
  c ← get_conn index ;
  if connecting c then
    if so_error e then Disconnect index connection ;; mret false
    else if has_peer e then on_conn index (set_connecting false) ;; in_loop (Cancel (connect_timer c)) ;; mret true
    else mret false
  else mret true.

Definition Pump (index : nat) : M impl unit :=
  c ← get_conn index ;
  if fd c <? 0 then mret tt else
  e ← pop_pump ;
  go ← pump_connect e index ;
  if (go : bool) then pump_io e index else mret tt.

(** ** [Dispatch] *)

Definition limit : Z := if has_ids then max_inflight (options cfg) else 1.
Definition has_room (c : Connection) : bool := u64 (inflight c + Z.of_nat (size (retired c))) <? limit.

Definition assign (index : nat) (a : ref) : M impl unit :=
  r ← get_request a ;
  s ← get_state ;
  if bool_decide (is_Some (requests s !! id r)) then
    c ← get_conn index ;
    on_request a (set_slot index) ;;
    on_conn index (pushed a (id r) (req_bytes r) (negb has_ids)) ;;
    (if fd c <? 0 then Connect index else mret tt) ;;
    Pump index
  else mret tt.

(** [fuel] is the number of requests waiting. *)
Fixpoint dispatch_slot (fuel : nat) (index : nat) : M impl unit :=
  s ← get_state ;
  match waiting s with
  | [] => mret tt
  | a :: w =>
      c ← get_conn index ;
      if has_room c then
        match fuel with
        | O => lift Blocked
        | S fuel => modify (upd_waiting w) ;; assign index a ;; dispatch_slot fuel index
        end
      else mret tt
  end.
Fixpoint dispatch_from (indices : list nat) : M impl unit :=
  match indices with
  | [] => mret tt
  | i :: indices =>
      s ← get_state ;
      if bool_decide (waiting s = []) then mret tt else dispatch_slot (length (waiting s)) i ;; dispatch_from indices
  end.
Definition Dispatch : M impl unit := fun s => dispatch_from (seq 0 (length (sockets s))) s.

(** ** [Submit], the callbacks and the destructor *)

(** One step of the calling thread.  The code releases the mutex after the admission and posts then; what another
    thread could see in between is the admitted count, with a request that the reactor does not have yet. *)
Definition Submit (now i : Z) (bs : bytes) (verdict : bytes -> option exn -> bool) (s : impl) : impl :=
  let d := now + io_timeout (timeouts cfg) * 1000000 in
  let s := record_submit i s in
  if closing s || (queue_capacity (options cfg) <=? admitted s) || (u64 (queue_bytes (options cfg) - queued s) <? zlen bs)
  then complete_with i [] (Some (KvError (if closing s then closed else overloaded))) s
  else
    let s := upd_admission (u64 (admitted s + 1)) (u64 (queued s + zlen bs)) s in
    let a := fresh (dom (store s)) in
    let s := upd_store (<[a := mkRequest i 0 bs verdict None false d]> (store s)) s in
    (in_loop (Post (TSubmit a d)) s).1.

Definition on_submit (a : ref) (d : Z) : M impl unit :=
  r ← get_request a ;
  modify (fun s => upd_requests (if bool_decide (is_Some (requests s !! id r)) then requests s else <[id r := a]> (requests s)) s) ;;
  t ← in_loop (At d (TTimeout (id r))) ;
  on_request a (set_timer t) ;;
  modify (fun s => upd_waiting (waiting s ++ [a]) s) ;;
  Dispatch.

Definition on_timeout (i : Z) : M impl unit :=
  s ← get_state ;
  match requests s !! i with
  | None => mret tt
  | Some a =>
      r ← get_request a ;
      (match slot r with
       | Some index =>
           if has_ids && was_sent r then on_conn index (retire i) ;; Finish i [] (Some (KvError timeout))
           else Disconnect index timeout
       | None => Finish i [] (Some (KvError timeout))
       end) ;;
      Dispatch
  end.

Definition exec (t : task) : M impl unit :=
  match t with
  | TSubmit a d => on_submit a d
  | TTimeout i => on_timeout i
  | TConnectTimeout index => Disconnect index timeout ;; Dispatch
  | TPump index => on_conn index (set_scheduled false) ;; Pump index ;; Dispatch
  | TDrain => modify upd_draining ;; s ← get_state ; if bool_decide (requests s = ∅) then in_loop (Stop TNothing) else mret tt
  | TNothing => mret tt
  end.
(** The callback of a connection's descriptor. *)
Definition notify (index : callback) : M impl unit := Pump index ;; Dispatch.

(** The start of the destructor; it then joins the reactor. *)
Definition destroy (s : impl) : impl := (in_loop (Post TDrain) (upd_closing s)).1.

(** * Interleavings *)

Definition pop_task (l : loop task callback) : loop task callback :=
  mkLoop (next_ l) (watches_ l) (interest l) (timers_ l) (timer_index_ l) (tail (tasks_ l)) (stopping_ l).

(** A client submits a request with an identifier of its own; the reactor runs its next task, the
    callback of a descriptor or its first timer, with any answers of the system calls; the transport is
    destroyed.  The index bounds the identifiers the reactor gives out in the step. *)
Inductive step : Z -> impl -> impl -> Prop :=
| step_submit s now i bs verdict : i ∉ submitted s -> step 0 s (Submit now i bs verdict s)
| step_destroy s : step 0 s (destroy s)
| step_task s ps ds t ts s' : tasks_ (evloop s) = t :: ts ->
    exec t (upd_env ps ds (upd_loop (pop_task (evloop s)) s)) = (s', Ret tt) -> step (2 * zlen ds + 1) s s'
| step_event s ps ds tk x s' : watches_ (evloop s) !! tk = Some x ->
    notify (w_callback x) (upd_env ps ds s) = (s', Ret tt) -> step (2 * zlen ds + 1) s s'
| step_timer s ps ds t ts s' : timers_ (evloop s) = t :: ts ->
    exec t.2.2 (upd_env ps ds (upd_loop (pop_timer t (evloop s)).1 s)) = (s', Ret tt) -> step (2 * zlen ds + 1) s s'.

(** Reachable states of a transport, and a bound on the identifiers its reactor has given out. *)
Inductive reachable (port : Z) (valid_address : bool) (connections : Z) : Z -> impl -> Prop :=
| reach_make s : make port valid_address connections cfg = Ret s -> reachable port valid_address connections 1 s
| reach_step n k s s' : reachable port valid_address connections n s -> step k s s' -> reachable port valid_address connections (n + k) s'.
End Transport.

End AsyncTransport.
