(* ===== verification/AsyncTransportInv.v ===== *)
(** The invariant of [AsyncTransport] and that every function of [Impl] keeps it: the table of requests
    and its deadlines, the admission counters, the load of each connection, the integrity of its byte
    streams and the attribution of responses to requests. *)
From S2P Require Import Prelude Buffer Executor EventLoop AsyncTransport.
Import EventLoop AsyncTransport.

Section Inv.
Context (cfg : config).
Abbreviation ids := (AsyncTransport.ids cfg).
Abbreviation has_ids := (AsyncTransport.has_ids cfg).

(** What the transport relies on: the table is visited once per entry, the framing function and the
    identifier function return or throw, a frame is recognised within 64 bytes, and the limits are machine
    integers. *)
Record config_ok : Prop := {
  cf_visit : forall q, visit cfg q ≡ₚ map_to_list q;
  cf_framing : forall b, match framing cfg b with Ret n => 0 <= n | Throw e => True | _ => False end;
  cf_ids : forall f b n, ids = Some f -> framing cfg b = Ret n -> 0 < n <= zlen b -> match f (take (Z.to_nat n) b) with Ret _ | Throw _ => True | _ => False end;
  cf_header : forall b, framing cfg b = Ret 0 -> zlen b <= 64;
  cf_frame : 0 < max_frame_bytes (options cfg) <= 2 ^ 62;
  cf_capacity : 0 < queue_capacity (options cfg) < 2 ^ 64;
  cf_bytes : 0 <= queue_bytes (options cfg) < 2 ^ 64;
  cf_inflight : 0 < max_inflight (options cfg) < 2 ^ 64
}.

(** * Parts of the state *)

(** What never changes of a request. *)
Definition ident (r : Request) : Z * bytes := (id r, req_bytes r).
Abbreviation names st := (ident <$> (st : gmap ref Request)).

(** The requests on connection [k]. *)
Definition on (q : gmap Z ref) (st : gmap ref Request) (k : nat) : gset Z :=
  dom (filter (fun x => slot <$> (st !! x.2) = Some (Some k)) q).

(** The requests posted to the reactor and not yet in the table. *)
Definition posted (ts : list task) : list (ref * Z) := omap (fun t => match t with TSubmit a d => Some (a, d) | _ => None end) ts.
Definition posted_ids (N : gmap ref (Z * bytes)) (ts : list task) : list Z := omap (fun x => fst <$> (N !! x.1)) (posted ts).
Definition weigh (N : gmap ref (Z * bytes)) (l : list ref) : Z := foldr (fun a z => zlen (default (0, []) (N !! a)).2 + z) 0 l.

(** An answer is a whole frame, of a size the transport accepts. *)
Definition delimited (x : Z * bytes) : Prop := 0 < zlen x.2 <= max_response cfg /\ exists rest, framing cfg (x.2 ++ rest) = Ret (zlen x.2).
(** A response is attributed to the request whose identifier it carries, which was sent on the same
    connection; without identifiers the responses answer the requests in order. *)
Definition paired (x : Session) : Prop :=
  match ids with
  | Some f => Forall (fun y => f y.2 = Ret y.1 /\ y.1 ∈ (dispatched x).*1) (answers x)
  | None => (answers x).*1 `prefix_of` (dispatched x).*1
  end.
Definition session_ok (x : Session) : Prop :=
  wire x `prefix_of` concat (dispatched x).*2 /\ concat (answers x).*2 `prefix_of` stream x /\ Forall delimited (answers x) /\ paired x.

(** [E] are the requests excused: about to be finished. [A] are the armed timers. *)
Record table_inv (E : gset Z) (A : gmap Z (Z * task)) (q : gmap Z ref) (st : gmap ref Request) (w : list ref) (m : nat) : Prop := {
  t_live : forall i a, q !! i = Some a -> exists r, st !! a = Some r /\ id r = i /\ (i ∉ E -> A !! timer r = Some (deadline r, TTimeout i));
  t_unique : forall a b ra rb, st !! a = Some ra -> st !! b = Some rb -> id ra = id rb -> a = b;
  t_timer : forall a r x, st !! a = Some r -> A !! timer r = Some x -> x.2 = TTimeout (id r);
  t_nodup : NoDup w;
  t_waiting : forall a, a ∈ w <-> exists i r, q !! i = Some a /\ st !! a = Some r /\ slot r = None;
  t_slot : forall i a r k, q !! i = Some a -> st !! a = Some r -> slot r = Some k -> (k < m)%nat
}.

Record conn_inv (E : gset Z) (A : gmap Z (Z * task)) (q : gmap Z ref) (st : gmap ref Request) (k : nat) (c : Connection) : Prop := {
  c_inflight : inflight c = Z.of_nat (size (on q st k));
  c_limit : Z.of_nat (size (on q st k ∪ retired c)) <= limit cfg;
  c_timer : forall x, A !! connect_timer c = Some x -> x.2 = TConnectTimeout k;
  c_buffer : Buffer.Inv (input c);
  c_stream : stream (session c) = concat (answers (session c)).*2 ++ Buffer.data (input c);
  c_output : exists out, Forall2 (fun a x => names st !! a = Some x) (output c) out /\
    wire (session c) ++ drop (Z.to_nat (sent c)) (concat out.*2) = concat (dispatched (session c)).*2 /\ 0 <= sent c <= zlen (hd [] out.*2);
  c_frames : Forall delimited (answers (session c));
  c_paired : paired (session c);
  c_order : if has_ids then order c = [] /\ forall i, i ∈ retired c -> i ∈ (dispatched (session c)).*1
            else (answers (session c)).*1 ++ order c = (dispatched (session c)).*1 /\ retired c = ∅;
  c_linked : forall i, i ∈ on q st k -> i ∉ E -> (i ∉ retired c) /\ (if has_ids then i ∈ (dispatched (session c)).*1 else i ∈ order c);
  c_closed : fd c < 0 -> Buffer.data (input c) = []
}.

Definition task_ok (m : nat) (t : task) : Prop := match t with TPump k => (k < m)%nat | TTimeout _ | TConnectTimeout _ => False | _ => True end.
Definition timer_ok (m : nat) (t : task) : Prop := match t with TTimeout _ => True | TConnectTimeout k => (k < m)%nat | _ => False end.

(** The reactor: [m] connections, at most [n] identifiers given out with the dials still to come. *)
Record loop_inv (m : nat) (n : Z) (ds : list dial_reply) (l : loop task callback) : Prop := {
  l_inv : EventLoop.Inv l;
  l_next : next_ l + 2 * zlen ds <= n;
  l_zero : armed l !! 0 = None;
  l_tasks : Forall (task_ok m) (tasks_ l);
  l_timers : map_Forall (fun _ x => timer_ok m x.2) (armed l);
  l_watches : map_Forall (fun _ x => (w_callback x < m)%nat) (watches_ l)
}.

(** Every submitted request is completed once, in the table or posted. *)
Record history_inv (sub : list Z) (comp : list Z) (q : gmap Z ref) (ps : list Z) : Prop := {
  h_sub : NoDup sub;
  h_comp : NoDup comp;
  h_posted : NoDup ps;
  h_split : forall i, i ∈ sub <-> i ∈ comp \/ is_Some (q !! i) \/ i ∈ ps;
  h_done : forall i, i ∈ comp -> q !! i = None /\ i ∉ ps;
  h_apart : forall i, i ∈ ps -> q !! i = None
}.

(** The destructor: nothing is submitted behind it, and the reactor stops when the table is empty. *)
Record drain_inv (ts : list task) (q : gmap Z ref) (cl dr stop : bool) : Prop := {
  d_closing : dr = true \/ TDrain ∈ ts -> cl = true;
  d_order : forall pre post, ts = pre ++ TDrain :: post -> posted post = [];
  d_draining : dr = true -> posted ts = [];
  d_stop : stop = true -> dr = true /\ q = ∅
}.

Definition sessions (s : impl) : list Session := past s ++ (session <$> sockets s).

Record inv (E : gset Z) (n : Z) (s : impl) : Prop := {
  v_loop : loop_inv (length (sockets s)) n (dials s) (evloop s);
  v_table : table_inv E (armed (evloop s)) (requests s) (store s) (waiting s) (length (sockets s));
  v_conns : forall k c, sockets s !! k = Some c -> conn_inv E (armed (evloop s)) (requests s) (store s) k c;
  v_posted : forall a d, (a, d) ∈ posted (tasks_ (evloop s)) -> exists r, store s !! a = Some r /\ slot r = None /\ timer r = 0 /\ deadline r = d;
  v_admitted : admitted s = Z.of_nat (size (requests s)) + zlen (posted (tasks_ (evloop s)));
  v_capacity : admitted s <= queue_capacity (options cfg);
  v_queued : queued s = weigh (names (store s)) ((map_to_list (requests s)).*2 ++ (posted (tasks_ (evloop s))).*1);
  v_bytes : queued s <= queue_bytes (options cfg);
  v_history : history_inv (submitted s) (completed s).*1 (requests s) (posted_ids (names (store s)) (tasks_ (evloop s)));
  v_store : forall a r, store s !! a = Some r -> id r ∈ submitted s;
  v_drain : drain_inv (tasks_ (evloop s)) (requests s) (closing s) (draining s) (stopping_ (evloop s));
  v_past : Forall session_ok (past s);
  v_completed : forall i b, (i, (b, None)) ∈ completed s -> exists x, x ∈ sessions s /\ (i, b) ∈ answers x;
  v_fresh : forall a r, store s !! a = Some r -> timer r < next_ (evloop s);
  v_fresh_conn : forall k c, sockets s !! k = Some c -> connect_timer c < next_ (evloop s);
  v_dispatched : forall k c i, sockets s !! k = Some c -> i ∈ (dispatched (session c)).*1 ->
    i ∈ submitted s /\ (i ∉ posted_ids (names (store s)) (tasks_ (evloop s))) /\ forall a r, requests s !! i = Some a -> store s !! a = Some r -> slot r <> None
}.

(** The input a connection keeps between callbacks: less than a frame. *)
Definition max_input : Z := Z.max 64 (max_response cfg).

(** What a function working on the connections [K] leaves alone; inputs grow to [B] at most. *)
Record frame (B : Z) (K : nat -> Prop) (s s' : impl) : Prop := {
  f_waiting : (length (waiting s') <= length (waiting s))%nat;
  f_sockets : length (sockets s') = length (sockets s);
  f_others : forall j, ~ K j -> sockets s' !! j = sockets s !! j;
  f_requests : requests s' ⊆ requests s;
  f_input : forall j c', sockets s' !! j = Some c' -> exists c, sockets s !! j = Some c /\
    zlen (Buffer.data (input c')) <= Z.max (zlen (Buffer.data (input c))) B;
  f_slots : forall a r', store s' !! a = Some r' -> exists r, store s !! a = Some r /\ (slot r' = slot r \/ exists k, K k /\ slot r' = Some k);
  f_kept : forall j, j ∈ (completed s).*1 \/ is_Some (requests s !! j) -> j ∈ (completed s').*1 \/ is_Some (requests s' !! j)
}.
Lemma frame_same B K s s' : waiting s' = waiting s -> sockets s' = sockets s -> requests s' = requests s -> store s' = store s -> completed s' = completed s -> frame B K s s'.
Proof. intros Hw Hk Hq Hs Hc. split; rewrite ?Hw, ?Hk, ?Hq, ?Hs, ?Hc; eauto. intros j c Hj. exists c. split; [done|lia]. Qed.
Lemma frame_refl B K s : frame B K s s.
Proof. by apply frame_same. Qed.
Lemma frame_trans B K s s' s'' : frame B K s s' -> frame B K s' s'' -> frame B K s s''.
Proof.
  intros [A1 A2 A3 A4 A6 A5 A7] [B1 B2 B3 B4 B6 B5 B7]. split; [lia|congruence| |by trans (requests s')| | |auto].
  - intros j Hj. by rewrite B3, A3.
  - intros j c'' H. destruct (B6 j c'' H) as (c' & Hc' & ?). destruct (A6 j c' Hc') as (c & Hc & ?). exists c. split; [done|lia].
  - intros a r'' H. destruct (B5 a r'' H) as (r' & Hr' & Hs'). destruct (A5 a r' Hr') as (r & Hr & Hs). exists r. split; [done|].
    destruct Hs' as [->|?]; [done|by right].
Qed.

(** * Lemmas on the parts *)

Lemma elem_of_on q st k i : i ∈ on q st k <-> exists a r, q !! i = Some a /\ st !! a = Some r /\ slot r = Some k.
Proof.
  unfold on. rewrite elem_of_dom. split.
  - intros [a Ha]. apply map_lookup_filter_Some in Ha as [Hq Hs]. cbn in Hs. destruct (st !! a) as [r|] eqn:Er; [|done]. cbn in Hs. exists a, r.
    split; [done|]. split; [done|]. by injection Hs.
  - intros (a & r & Hq & Hr & Hs). exists a. apply map_lookup_filter_Some. split; [done|]. cbn. rewrite Hr. cbn. by rewrite Hs.
Qed.

Lemma on_delete q st k i : on (delete i q) st k = on q st k ∖ {[i]}.
Proof.
  apply set_eq. intros j. rewrite elem_of_difference, !elem_of_on, not_elem_of_singleton. setoid_rewrite lookup_delete_Some.
  split; [intros (a & r & [? ?] & ?); split; [eauto|congruence]|]. intros [(a & r & ? & ?) ?]. exists a, r. by split; [split|].
Qed.

(** A store whose requests are on the same connections. *)
Lemma on_ext q st st' k : (forall a, slot <$> (st' !! a) = slot <$> (st !! a)) -> on q st' k = on q st k.
Proof. intros H. unfold on. f_equal. apply map_filter_ext. intros i a _. cbn. by rewrite H. Qed.

Lemma posted_app ts ts' : posted (ts ++ ts') = posted ts ++ posted ts'.
Proof. apply omap_app. Qed.
Lemma posted_cons t ts : posted (t :: ts) = posted [t] ++ posted ts.
Proof. apply (posted_app [t] ts). Qed.

Lemma weigh_app N l l' : weigh N (l ++ l') = weigh N l + weigh N l'.
Proof. unfold weigh. induction l as [|a l IH]; cbn; [done|]. rewrite IH. lia. Qed.
Lemma weigh_perm N l l' : l ≡ₚ l' -> weigh N l = weigh N l'.
Proof. unfold weigh. induction 1; cbn; lia. Qed.
Lemma weigh_nonneg N l : 0 <= weigh N l.
Proof. unfold weigh. induction l as [|a l IH]; cbn; [lia|]. pose proof (zlen_nonneg (default (0, []) (N !! a)).2). lia. Qed.

Lemma requests_delete (q : gmap Z ref) i a : q !! i = Some a -> (map_to_list q).*2 ≡ₚ a :: (map_to_list (delete i q)).*2.
Proof. intros H. by rewrite <-(map_to_list_delete q i a H). Qed.

(** ** Finishing a request *)

Lemma live_id E A q st w m i a r : table_inv E A q st w m -> q !! i = Some a -> st !! a = Some r -> id r = i.
Proof. intros T Hq Hr. destruct (t_live _ _ _ _ _ _ T i a Hq) as (r' & Hr' & Hi & _). congruence. Qed.

Lemma live_inj E A q st w m i j a : table_inv E A q st w m -> q !! i = Some a -> q !! j = Some a -> i = j.
Proof.
  intros T Hi Hj. destruct (t_live _ _ _ _ _ _ T i a Hi) as (r & Hr & <- & _). by eapply live_id.
Qed.

Lemma finish_table E A q st w m i a r s :
  table_inv E A q st w m -> q !! i = Some a -> st !! a = Some r -> store s = st ->
  table_inv E (delete (timer r) A) (delete i q) st (match slot r with Some _ => w | None => filter (not_request s i) w end) m.
Proof.
  intros T Hq Hr Hs. pose proof (live_id _ _ _ _ _ _ _ _ _ T Hq Hr) as Hid. pose proof T as [T1 T2 T3 T4 T5 T6]. split.
  - intros j b [Hji Hj]%lookup_delete_Some. destruct (T1 j b Hj) as (rb & Hb & Hidb & Ha). exists rb. split; [done|]. split; [done|].
    intros HE. specialize (Ha HE). rewrite lookup_delete_ne; [done|]. intros Heq. rewrite <-Heq in Ha. specialize (T3 a r _ Hr Ha). cbn in T3. congruence.
  - done.
  - intros b rb x Hb [_ Hx]%lookup_delete_Some. by eapply T3.
  - destruct (slot r); [done|by apply NoDup_filter].
  - intros b. transitivity (b ∈ w /\ b <> a).
    + destruct (slot r) as [k|] eqn:Esl; [|rewrite list_elem_of_filter].
      * split; [|by intros [? _]]. intros Hb. split; [done|]. intros ->. apply T5 in Hb as (? & ? & ? & ? & ?). congruence.
      * unfold not_request. rewrite Hs. split; intros [H1 H2].
        -- split; [done|]. intros ->. apply H1. rewrite Hr. cbn. congruence.
        -- split; [|done]. destruct (st !! b) as [rb|] eqn:Eb; [|done]. cbn. intros [= Hb]. apply H2. by apply (T2 b a rb r); [| |congruence].
    + rewrite T5. split.
      * intros [(j & rb & Hj & Hb & Hn) Hne]. exists j, rb. split; [|done]. apply lookup_delete_Some. split; [|done].
        intros ->. congruence.
      * intros (j & rb & [Hji Hj]%lookup_delete_Some & Hb & Hn). split; [eauto|]. intros ->. apply Hji. by eapply live_inj.
  - intros j b rb k [_ Hj]%lookup_delete_Some. by eapply T6.
Qed.

Lemma limit_bounds : config_ok -> 0 < limit cfg < 2 ^ 64.
Proof. intros ok. unfold limit. destruct (AsyncTransport.has_ids cfg); [apply ok|lia]. Qed.
Lemma on_limit E A q st k c : conn_inv E A q st k c -> Z.of_nat (size (on q st k)) <= limit cfg.
Proof. intros C. etrans; [|apply (c_limit _ _ _ _ _ _ C)]. apply inj_le, subseteq_size. set_solver. Qed.

Lemma finish_conn E A q st k c i a r t :
  conn_inv E A q st k c -> q !! i = Some a -> st !! a = Some r -> config_ok ->
  conn_inv E (delete t A) (delete i q) st k (if bool_decide (slot r = Some k) then count_inflight (-1) c else c).
Proof.
  intros C Hq Hr ok. pose proof (limit_bounds ok) as Hlim. pose proof (on_limit _ _ _ _ _ _ C) as Hsz. assert (i ∈ on q st k <-> slot r = Some k) as Hon.
  { rewrite elem_of_on. split; [intros (? & ? & ? & ? & ?); congruence|eauto]. }
  assert (forall c', inflight c' = Z.of_nat (size (on (delete i q) st k)) ->
    connect_timer c' = connect_timer c -> fd c' = fd c -> input c' = input c -> session c' = session c -> output c' = output c -> sent c' = sent c ->
    order c' = order c -> retired c' = retired c -> conn_inv E (delete t A) (delete i q) st k c') as Hc.
  { destruct C as [C1 C2 C3 C4 C5 C6 C7 C8 C9 C10 C11]. intros c' H1 H2 H0 H3 H4 H5 H6 H7 H8. split; rewrite ?H0, ?H2, ?H3, ?H4, ?H5, ?H6, ?H7, ?H8; try done.
    - rewrite on_delete. etrans; [|exact C2]. by apply inj_le, subseteq_size, union_mono_r, subseteq_difference_l.
    - intros x [_ Hx]%lookup_delete_Some. by apply C3.
    - intros j Hj. rewrite on_delete in Hj. apply elem_of_difference in Hj as [Hj _]. by apply C10. }
  pose proof (c_inflight _ _ _ _ _ _ C) as Hin. case_bool_decide as Hk; apply Hc; try done; rewrite on_delete.
  - cbn [inflight count_inflight]. rewrite Hin. assert (i ∈ on q st k) as Hi by (by apply Hon).
    rewrite size_difference by (by apply singleton_subseteq_l). rewrite size_singleton.
    assert (size (on q st k) <> 0)%nat by (intros Hz; apply size_empty_inv in Hz; clear -Hz Hi; set_solver). rewrite u64_small; lia.
  - rewrite Hin. do 2 f_equal. apply set_eq. intros j. rewrite elem_of_difference, not_elem_of_singleton. split; [|by intros [? _]].
    intros Hj. split; [done|]. intros ->. by apply Hk, Hon.
Qed.

Lemma finish_history sub comp q ps i a : history_inv sub comp q ps -> q !! i = Some a -> history_inv sub (comp ++ [i]) (delete i q) ps.
Proof.
  intros [H1 H2 H3 H4 H5 H6] Hq. split; try done.
  - apply NoDup_app. split; [done|]. split; [|apply NoDup_singleton]. intros j Hj Hji. apply list_elem_of_singleton in Hji as ->.
    apply H5 in Hj as [? _]. congruence.
  - intros j. rewrite H4, elem_of_app, list_elem_of_singleton. destruct (decide (j = i)) as [->|Hji].
    + rewrite lookup_delete_eq, Hq. split; [by left; right|by intros _; right; left].
    + rewrite lookup_delete_ne by done. tauto.
  - intros j Hj. apply elem_of_app in Hj as [Hj|Hj%list_elem_of_singleton].
    + destruct (H5 j Hj) as [Hn ?]. split; [|done]. apply lookup_delete_None. by right.
    + subst j. split; [apply lookup_delete_eq|]. intros Hp. apply H6 in Hp. congruence.
  - intros j Hj. apply lookup_delete_None. right. by apply H6.
Qed.

Lemma finish_drain ts q cl dr stop i : drain_inv ts q cl dr stop -> drain_inv ts (delete i q) cl dr stop.
Proof. intros [D1 D2 D3 D4]. split; try done. intros Hs. destruct (D4 Hs) as [? ->]. split; [done|]. apply delete_empty. Qed.

Lemma cancel_loop m n ds l t : loop_inv m n ds l -> loop_inv m n ds (Cancel t l).1.
Proof.
  intros [L1 L2 L3 L4 L5 L6]. destruct (Cancel_spec t l L1) as (_ & Hi & Ha & Hn). destruct (Cancel_rest t l) as (Ht & _ & Hw). split.
  - done.
  - by rewrite Hn.
  - rewrite Ha. apply lookup_delete_None. by right.
  - by rewrite Ht.
  - rewrite Ha. by apply map_Forall_delete.
  - by rewrite Hw.
Qed.

Lemma sessions_insert s k c c' : sockets s !! k = Some c -> session c' = session c -> session <$> <[k := c']> (sockets s) = session <$> sockets s.
Proof.
  intros Hk Hs. apply list_eq. intros j. rewrite !list_lookup_fmap. destruct (decide (j = k)) as [->|Hj]; [|by rewrite list_lookup_insert_ne].
  rewrite list_lookup_insert_eq by (by eapply lookup_lt_Some). rewrite Hk. cbn. by rewrite Hs.
Qed.

Lemma alter_lookup {A} (f : A -> A) k c (l : list A) : l !! k = Some c -> alter f k l = <[k := f c]> l.
Proof.
  intros Hk. apply list_eq. intros j. destruct (decide (j = k)) as [->|Hj]; [|by rewrite list_lookup_alter_ne, list_lookup_insert_ne].
  rewrite list_lookup_alter_eq, Hk, list_lookup_insert_eq; [done|by eapply lookup_lt_Some].
Qed.

(** The state of [Finish] after the completion ran. *)
Definition finished (i : Z) (r : Request) (response : bytes) (error : option exn) (s : impl) : impl :=
  mkImpl (Cancel (timer r) (evloop s)).1
    (match slot r with Some k => alter (count_inflight (-1)) k (sockets s) | None => sockets s end)
    (match slot r with Some _ => waiting s | None => filter (not_request s i) (waiting s) end)
    (delete i (requests s)) (store s) (u64 (admitted s - 1)) (u64 (queued s - zlen (req_bytes r)))
    (closing s) (draining s) (pumps s) (dials s) (past s) (completed s ++ [(i, (response, error))]) (submitted s).

Lemma finished_sockets i r b e s : length (sockets (finished i r b e s)) = length (sockets s) /\ session <$> sockets (finished i r b e s) = session <$> sockets s.
Proof.
  cbn. destruct (slot r) as [k|]; [|done]. split; [apply length_alter|]. apply list_eq. intros j. rewrite !list_lookup_fmap.
  destruct (decide (j = k)) as [->|Hj]; [rewrite list_lookup_alter_eq|by rewrite list_lookup_alter_ne]. by destruct (sockets s !! k).
Qed.

Lemma finished_inv E n s i a r b e : config_ok ->
  inv E n s -> requests s !! i = Some a -> store s !! a = Some r -> (e = None -> exists x, x ∈ sessions s /\ (i, b) ∈ answers x) ->
  inv E n (finished i r b e s).
Proof.
  intros ok [V1 V2 V3 V4 V5 V6 V7 V8 V9 V10 V11 V12 V13 V14 V15 V16] Hq Hr He. pose proof (finished_sockets i r b e s) as [Hlen Hses].
  destruct (Cancel_spec (timer r) (evloop s) (l_inv _ _ _ _ V1)) as (_ & _ & Ha & Hn). destruct (Cancel_rest (timer r) (evloop s)) as (Ht & Hst & _).
  pose proof (requests_delete _ _ _ Hq) as Hp. pose proof (weigh_nonneg (names (store s)) ((map_to_list (delete i (requests s))).*2 ++ (posted (tasks_ (evloop s))).*1)) as Hw0.
  pose proof (cf_capacity ok). pose proof (cf_bytes ok). pose proof (zlen_nonneg (posted (tasks_ (evloop s)))) as Hz. pose proof (zlen_nonneg (req_bytes r)).
  assert (queued s = zlen (req_bytes r) + weigh (names (store s)) ((map_to_list (delete i (requests s))).*2 ++ (posted (tasks_ (evloop s))).*1)) as Hqs.
  { rewrite V7. rewrite (weigh_perm _ _ (a :: (map_to_list (delete i (requests s))).*2 ++ (posted (tasks_ (evloop s))).*1)) by (by rewrite Hp).
    cbn. rewrite lookup_fmap, Hr. done. }
  assert (size (requests s) = S (size (delete i (requests s)))) as Hsz by (rewrite <-!length_map_to_list, <-(length_fmap snd (map_to_list (requests s))), Hp; cbn; by rewrite length_fmap).
  split; cbn [evloop dials requests store waiting admitted queued submitted completed closing draining past finished]; rewrite ?Hlen, ?Ht, ?Hst, ?Ha, ?Hn; try done.
  - by apply cancel_loop.
  - by eapply finish_table.
  - intros k c Hk. unfold finished in Hk. cbn [sockets] in Hk.
    assert (exists c0, sockets s !! k = Some c0 /\ c = if bool_decide (slot r = Some k) then count_inflight (-1) c0 else c0) as (c0 & Hk0 & ->).
    { destruct (slot r) as [k'|]; [|by exists c]. destruct (decide (k' = k)) as [->|Hne].
      - rewrite list_lookup_alter_eq in Hk. destruct (sockets s !! k) as [c0|]; [|done]. injection Hk as <-. exists c0. by rewrite bool_decide_eq_true_2.
      - rewrite list_lookup_alter_ne in Hk by done. exists c. rewrite bool_decide_eq_false_2; [done|congruence]. }
    eapply finish_conn; eauto.
  - rewrite V5. rewrite u64_small; lia.
  - rewrite u64_small; lia.
  - rewrite u64_small; lia.
  - rewrite u64_small; lia.
  - rewrite fmap_app. by eapply finish_history.
  - by apply finish_drain.
  - unfold sessions. rewrite Hses. intros j b'. cbn [past completed finished]. intros [Hj|Hj%list_elem_of_singleton]%elem_of_app; [by apply V13|].
    injection Hj as -> -> <-. by apply He.
  - intros k c Hk. assert (exists c0, sockets s !! k = Some c0 /\ connect_timer c = connect_timer c0) as (c0 & Hk0 & ->); [|by apply (V15 k)].
    unfold finished in Hk. cbn [sockets] in Hk. destruct (slot r) as [k'|]; [|by exists c]. destruct (decide (k' = k)) as [->|Hne].
    + rewrite list_lookup_alter_eq in Hk. destruct (sockets s !! k) as [c0|]; [|done]. injection Hk as <-. by exists c0.
    + rewrite list_lookup_alter_ne in Hk by done. by exists c.
  - intros k c j Hk Hj. assert (exists c0, sockets s !! k = Some c0 /\ session c = session c0) as (c0 & Hk0 & Hs0).
    { assert ((session <$> sockets (finished i r b e s)) !! k = Some (session c)) as Hk' by (by rewrite list_lookup_fmap, Hk).
      rewrite Hses, list_lookup_fmap in Hk'. destruct (sockets s !! k) as [c0|]; [|done]. injection Hk' as Hk'. by exists c0. }
    rewrite Hs0 in Hj. destruct (V16 k c0 j Hk0 Hj) as (? & ? & Hsl). split; [done|]. split; [done|]. intros a' r' [_ Hq']%lookup_delete_Some. by apply Hsl.
Qed.

(** ** Disconnecting *)

Lemma prefix_drop (n : nat) (w x y : bytes) : w ++ drop n x = y -> w `prefix_of` y.
Proof. intros <-. by apply prefix_app_r. Qed.

Lemma conn_session_ok E A q st k c : conn_inv E A q st k c -> session_ok (session c).
Proof.
  intros C. destruct (c_output _ _ _ _ _ _ C) as (out & _ & Hw & _). split; [by eapply prefix_drop|]. split; [|split; apply C].
  rewrite (c_stream _ _ _ _ _ _ C). by apply prefix_app_r.
Qed.

Lemma remove_loop m n ds l tk : loop_inv m n ds l ->
  loop_inv m n ds (Remove tk l).1 /\ armed (Remove tk l).1 = armed l /\ tasks_ (Remove tk l).1 = tasks_ l /\ stopping_ (Remove tk l).1 = stopping_ l /\ next_ (Remove tk l).1 = next_ l.
Proof.
  intros [L1 L2 L3 L4 L5 L6]. destruct (Remove_Inv tk l L1) as (Hi & Hn & Ht & Hti & _).
  assert (armed (Remove tk l).1 = armed l) as Ha by (unfold armed; by rewrite Hti). rewrite Ha, Ht. split; [|split; [done|]; split; [done|]; split; [unfold Remove; by destruct (watches_ l !! tk)|done]].
  split; rewrite ?Ha, ?Ht, ?Hn; try done. unfold Remove. destruct (watches_ l !! tk); [|done]. by apply map_Forall_delete.
Qed.

(** Timers of requests are not connection timers. *)
Lemma cancel_table E A q st w m t : table_inv E A q st w m -> (forall x, A !! t = Some x -> exists k, x.2 = TConnectTimeout k) ->
  table_inv E (delete t A) q st w m.
Proof.
  intros [T1 T2 T3 T4 T5 T6] Hx. split; try done.
  - intros i a Hq. destruct (T1 i a Hq) as (r & Hr & Hi & Ha). exists r. split; [done|]. split; [done|]. intros HE. specialize (Ha HE).
    rewrite lookup_delete_ne; [done|]. intros ->. by destruct (Hx _ Ha) as [k ?].
  - intros a r x Hr [_ Ha]%lookup_delete_Some. by eapply T3.
Qed.
Lemma cancel_conn E A q st k c t : conn_inv E A q st k c -> conn_inv E (delete t A) q st k c.
Proof. intros [C1 C2 C3 C4 C5 C6 C7 C8 C9 C10 C11]. split; try done. intros x [_ Hx]%lookup_delete_Some. by apply C3. Qed.

Lemma weaken_table E E' A q st w m : E ⊆ E' -> table_inv E A q st w m -> table_inv E' A q st w m.
Proof.
  intros HE [T1 T2 T3 T4 T5 T6]. split; try done. intros i a Hq. destruct (T1 i a Hq) as (r & Hr & Hi & Ha). exists r. split; [done|]. split; [done|].
  intros Hn. apply Ha. by intros ?%HE.
Qed.
Lemma weaken_conn E E' A q st k c : E ⊆ E' -> conn_inv E A q st k c -> conn_inv E' A q st k c.
Proof. intros HE [C1 C2 C3 C4 C5 C6 C7 C8 C9 C10 C11]. split; try done. intros i Hi Hn. apply C10; [done|]. by intros ?%HE. Qed.
Lemma weaken_inv E E' n s : E ⊆ E' -> inv E n s -> inv E' n s.
Proof.
  intros HE [V1 V2 V3 V4 V5 V6 V7 V8 V9 V10 V11 V12 V13 V14 V15 V16]. split; try done; [by eapply weaken_table|]. intros k c Hk. eapply weaken_conn; [done|by apply V3].
Qed.

Lemma unexcuse E F n s : inv (E ∪ F) n s -> (forall i, i ∈ F -> requests s !! i = None) -> inv E n s.
Proof.
  intros [V1 V2 V3 V4 V5 V6 V7 V8 V9 V10 V11 V12 V13 V14 V15 V16] HF. split; try done.
  - destruct V2 as [T1 T2 T3 T4 T5 T6]. split; try done. intros i a Hq. destruct (T1 i a Hq) as (r & Hr & Hi & Ha). exists r. split; [done|]. split; [done|].
    intros Hn. apply Ha. intros [?|Hf]%elem_of_union; [done|]. specialize (HF i Hf). congruence.
  - intros k c Hk. destruct (V3 k c Hk) as [C1 C2 C3 C4 C5 C6 C7 C8 C9 C10 C11]. split; try done. intros i Hi Hn. apply C10; [done|].
    intros [?|Hf]%elem_of_union; [done|]. apply elem_of_on in Hi as (a & r & Hq & _). specialize (HF i Hf). congruence.
Qed.

Lemma cleared_conn E A q st k c : conn_inv E A q st k c -> conn_inv (E ∪ on q st k) A q st k (cleared c).
Proof.
  intros C. pose proof (on_limit _ _ _ _ _ _ C). split; cbn; try done; try apply C.
  - by rewrite union_empty_r_L.
  - exists []. by split; [constructor|].
  - unfold paired. cbn. destruct ids; [constructor|done].
  - destruct has_ids; (split; [done|]); [|done]. intros i Hi. set_solver.
  - intros i Hi Hn. exfalso. apply Hn, elem_of_union. by right.
Qed.

Definition disconnected (k : nat) (c : Connection) (s : impl) : impl :=
  archive (session c) (upd_sockets (<[k := cleared c]> (sockets s))
    (upd_loop (Cancel (connect_timer c) (if 0 <=? fd c then (Remove (token c) (evloop s)).1 else evloop s)).1 s)).

Lemma disconnected_inv E n s k c : inv E n s -> sockets s !! k = Some c -> inv (E ∪ on (requests s) (store s) k) n (disconnected k c s).
Proof.
  intros [V1 V2 V3 V4 V5 V6 V7 V8 V9 V10 V11 V12 V13 V14 V15 V16] Hk. set (l1 := if 0 <=? fd c then (Remove (token c) (evloop s)).1 else evloop s).
  assert (loop_inv (length (sockets s)) n (dials s) l1 /\ armed l1 = armed (evloop s) /\ tasks_ l1 = tasks_ (evloop s) /\ stopping_ l1 = stopping_ (evloop s) /\ next_ l1 = next_ (evloop s)) as (L & Ha1 & Ht1 & Hs1 & Hn1)
    by (unfold l1; destruct (_ <=? _); [by apply remove_loop|done]).
  destruct (Cancel_spec (connect_timer c) l1 (l_inv _ _ _ _ L)) as (_ & _ & Ha & Hn). destruct (Cancel_rest (connect_timer c) l1) as (Ht & Hst & _).
  pose proof (V3 k c Hk) as C. split; cbn [evloop sockets dials requests store waiting admitted queued submitted completed closing draining past disconnected archive upd_sockets upd_loop];
    fold l1; rewrite ?length_insert, ?Ha, ?Ha1, ?Ht, ?Ht1, ?Hst, ?Hs1, ?Hn, ?Hn1; try done.
  - by apply cancel_loop.
  - apply (weaken_table E); [apply union_subseteq_l|]. apply cancel_table; [done|]. intros x Hx. exists k. by apply (c_timer _ _ _ _ _ _ C).
  - intros j c' Hj. apply cancel_conn. apply list_lookup_insert_Some in Hj as [(<- & <- & _)|[Hne Hj]]; [by apply cleared_conn|].
    apply (weaken_conn E); [apply union_subseteq_l|by apply V3].
  - apply Forall_app. split; [done|]. apply Forall_singleton. by eapply conn_session_ok.
  - intros i b Hib. destruct (V13 i b Hib) as (x & Hx & Hi). exists x. split; [|done]. unfold sessions in *. cbn.
    apply elem_of_app in Hx as [Hx|Hx]; [apply elem_of_app; left; apply elem_of_app; by left|].
    apply list_elem_of_fmap in Hx as (c' & -> & Hc'). apply list_elem_of_lookup in Hc' as [j Hj].
    destruct (decide (j = k)) as [->|Hne]; [apply elem_of_app; left; apply elem_of_app; right; simplify_eq; by apply list_elem_of_singleton|].
    apply elem_of_app. right. apply list_elem_of_fmap. exists c'. split; [done|]. apply (list_elem_of_lookup_2 _ j). by rewrite list_lookup_insert_ne.
  - intros j c' Hj. apply list_lookup_insert_Some in Hj as [(<- & <- & _)|[Hne Hj]]; [exact (V15 _ c Hk)|by eapply V15].
  - intros j c' i Hj Hi. apply list_lookup_insert_Some in Hj as [(<- & <- & _)|[Hne Hj]]; [by apply not_elem_of_nil in Hi|by eapply V16].
Qed.

(** ** Posting *)

Lemma post_drain ts q cl dr stop stop' t : drain_inv ts q cl dr stop -> posted [t] = [] -> t <> TDrain -> (stop' = true -> stop = true \/ dr = true /\ q = ∅) ->
  drain_inv (ts ++ [t]) q cl dr stop'.
Proof.
  intros [D1 D2 D3 D4] Hp Ht Hst. split.
  - intros [?|Hin]; apply D1; [by left|right]. apply elem_of_app in Hin as [?|?%list_elem_of_singleton]; [done|by subst].
  - intros pre post. induction post as [|x post _] using rev_ind; intros Heq.
    + apply app_inj_tail in Heq as [_ ->]. done.
    + rewrite app_comm_cons, app_assoc in Heq. apply app_inj_tail in Heq as [-> <-]. rewrite posted_app, Hp, app_nil_r. by eapply D2.
  - intros Hd. rewrite posted_app, Hp, app_nil_r. by apply D3.
  - intros Hs. destruct (Hst Hs) as [?|?]; [by apply D4|done].
Qed.

Lemma inv_posted E n s t stop : inv E n s -> task_ok (length (sockets s)) t -> posted [t] = [] -> t <> TDrain ->
  (stop = true -> stopping_ (evloop s) = true \/ draining s = true /\ requests s = ∅) ->
  let l := evloop s in
  inv E n (upd_loop (mkLoop (next_ l) (watches_ l) (interest l) (timers_ l) (timer_index_ l) (tasks_ l ++ [t]) stop) s).
Proof.
  intros [V1 V2 V3 V4 V5 V6 V7 V8 V9 V10 V11 V12 V13 V14 V15 V16] Hok Hp Ht Hst l. split; cbn -[posted]; unfold posted_ids; rewrite ?posted_app, ?Hp, ?app_nil_r; try done.
  - destruct V1 as [L1 L2 L3 L4 L5 L6]. split; try done. cbn. apply Forall_app. split; [done|by apply Forall_singleton].
  - by eapply post_drain.
Qed.

(** * The functions *)

(** [Finish] and [Disconnect] never throw: their lemmas hold with any exceptional postcondition [R]. *)
Context {R : exn -> impl -> Prop} {B : Z}.
#[local] Abbreviation wp m Q := (wpx m Q R).

Lemma wp_in_loop {A} (m : M (loop task callback) A) Q s : wpx m (fun a l => Q a (upd_loop l s)) (fun e l => R e (upd_loop l s)) (evloop s) -> wp (in_loop m) Q s.
Proof. unfold wpx, in_loop. by destruct (m (evloop s)) as [l [a|x| |]]. Qed.
Lemma wp_get_conn k c (Q : Connection -> impl -> Prop) s : sockets s !! k = Some c -> Q c s -> wp (get_conn k) Q s.
Proof. unfold wpx, get_conn. by intros ->. Qed.
Lemma wp_on_conn k c f (Q : unit -> impl -> Prop) s : sockets s !! k = Some c -> Q tt (upd_sockets (<[k := f c]> (sockets s)) s) -> wp (on_conn k f) Q s.
Proof. unfold wpx, on_conn. by intros ->. Qed.
Lemma wp_get_request a r (Q : Request -> impl -> Prop) s : store s !! a = Some r -> Q r s -> wp (get_request a) Q s.
Proof. unfold wpx, get_request. by intros ->. Qed.
Lemma wp_on_request a r f (Q : unit -> impl -> Prop) s : store s !! a = Some r -> Q tt (upd_store (<[a := f r]> (store s)) s) -> wp (on_request a f) Q s.
Proof. unfold wpx, on_request. by intros ->. Qed.
Lemma wp_Cancel {R'} t (Q : unit -> loop task callback -> Prop) l : EventLoop.Inv l -> Q tt (Cancel t l).1 -> wpx (Cancel t) Q R' l.
Proof. intros Hl HQ. destruct (Cancel_spec t l Hl) as (Hr & _). unfold wpx. by rewrite (outcome_of _ _ Hr). Qed.
Lemma wp_Remove {R'} t (Q : unit -> loop task callback -> Prop) l : EventLoop.Inv l -> Q tt (Remove t l).1 -> wpx (Remove t) Q R' l.
Proof. intros Hl HQ. destruct (Remove_Inv t l Hl) as (_ & _ & _ & _ & Hr). unfold wpx. by rewrite (outcome_of _ _ Hr). Qed.

(** What [Finish] promises for requests on the connections [K]. *)
Definition finish_spec (fuel : nat) : Prop := forall E n i b e (K : nat -> Prop) s,
  inv E n s -> (size (requests s) < fuel)%nat -> (e = None -> exists x, x ∈ sessions s /\ (i, b) ∈ answers x) ->
  (forall a r k, requests s !! i = Some a -> store s !! a = Some r -> slot r = Some k -> K k) ->
  wp (Finish_fuel cfg fuel i b e) (fun _ s' => inv E n s' /\ frame B K s s' /\ requests s' !! i = None) s.

Lemma finish_all_wp fuel E n code (K : nat -> Prop) F : forall s, finish_spec fuel ->
  inv E n s -> (size (requests s) < fuel)%nat ->
  (forall i a r k, i ∈ F -> requests s !! i = Some a -> store s !! a = Some r -> slot r = Some k -> K k) ->
  wp (finish_all (Finish_fuel cfg fuel) code F) (fun _ s' => inv E n s' /\ frame B K s s' /\ forall i, i ∈ F -> requests s' !! i = None) s.
Proof.
  induction F as [|i F IH]; intros s Hf Hi Hsz HK; cbn [finish_all].
  - apply wp_ret. split; [done|]. split; [apply frame_refl|]. intros i Hi'. by apply not_elem_of_nil in Hi'.
  - apply wp_bind. eapply wp_mono; [apply (Hf E n i [] _ K); [done|done|done|intros a r k; apply HK; by left]|]. intros u s1 (Hi1 & Hf1 & Hn1).
    pose proof Hf1 as [_ _ _ Hsub _ Hsl _]. eapply wp_mono; [apply (IH s1 Hf Hi1)|].
    + eapply Nat.le_lt_trans; [|exact Hsz]. by apply map_subseteq_size.
    + intros j a r k Hj Hq Hr Hs. destruct (Hsl a r Hr) as (r0 & Hr0 & [Heq|(k' & HKk & Heq)]); [|congruence].
      apply (HK j a r0 k); [by right|by eapply lookup_weaken|done|congruence].
    + intros u2 s2 (Hi2 & Hf2 & Hn2). split; [done|]. split; [by eapply frame_trans|]. intros j [->|Hj]%elem_of_cons; [|by apply Hn2].
      eapply lookup_weaken_None; [exact Hn1|apply Hf2].
Qed.

Context (ok : config_ok).

Lemma elem_of_failed_on k s i : i ∈ failed_on cfg k s <-> i ∈ on (requests s) (store s) k.
Proof.
  unfold failed_on. rewrite elem_of_on, list_elem_of_fmap. setoid_rewrite list_elem_of_filter. setoid_rewrite (cf_visit ok). split.
  - intros ([j a] & -> & Hs & Hin). apply elem_of_map_to_list in Hin. cbn in *. destruct (store s !! a) as [r|] eqn:Er; [|done]. cbn in Hs. exists a, r. by injection Hs.
  - intros (a & r & Hq & Hr & Hs). exists (i, a). split; [done|]. split; [cbn; rewrite Hr; cbn; by rewrite Hs|]. by apply elem_of_map_to_list.
Qed.

Lemma Disconnect_with_wp fuel E n k code (K : nat -> Prop) c s : finish_spec fuel ->
  inv E n s -> sockets s !! k = Some c -> (size (requests s) < fuel)%nat -> K k ->
  wp (Disconnect_with cfg (Finish_fuel cfg fuel) k code)
    (fun _ s' => inv E n s' /\ frame B K s s' /\ (forall i, i ∈ on (requests s) (store s) k -> requests s' !! i = None) /\
      exists c', sockets s' !! k = Some c' /\ zlen (Buffer.data (input c')) <= Z.max 0 B) s.
Proof.
  intros Hf Hi Hk Hsz HK. pose proof (v_loop _ _ _ Hi) as L. unfold Disconnect_with. apply wp_bind, (wp_get_conn k c); [done|].
  set (l1 := if 0 <=? fd c then (Remove (token c) (evloop s)).1 else evloop s).
  assert (EventLoop.Inv l1) as HL1 by (unfold l1; destruct (_ <=? _); [apply (remove_loop _ _ _ _ (token c)) in L as [L _]|]; apply L).
  assert (forall Q : unit -> impl -> Prop, Q tt (upd_loop l1 s) -> wp (if 0 <=? fd c then in_loop (Remove (token c)) else mret tt) Q s) as Hrem.
  { intros Q HQ. unfold l1 in HQ. destruct (_ <=? _); [apply wp_in_loop, wp_Remove; [apply L|done]|by destruct s]. }
  apply wp_bind, Hrem, wp_bind, wp_in_loop, wp_Cancel; [done|]. apply wp_bind, (wp_on_conn k c); [done|]. apply wp_bind, wp_modify, wp_bind, wp_get.
  change (archive _ _) with (disconnected k c s). pose proof (disconnected_inv E n s k c Hi Hk) as HD.
  assert (frame B K s (disconnected k c s)) as HF.
  { split; cbn; try done; [by rewrite length_insert| | |eauto].
    - intros j Hj. rewrite list_lookup_insert_ne; [done|]. by intros ->.
    - intros j c' Hj. apply list_lookup_insert_Some in Hj as [(<- & <- & _)|[_ Hj]]; [|exists c'; split; [done|lia]].
      exists c. split; [done|]. change (zlen (Buffer.data (input (cleared c)))) with 0. pose proof (zlen_nonneg (Buffer.data (input c))). lia. }
  eapply wp_mono; [apply (finish_all_wp fuel _ n code K _ _ Hf HD Hsz)|].
  - intros i a r k' Hin Hq Hr Hs. apply elem_of_failed_on, elem_of_on in Hin as (a' & r' & Hq' & Hr' & Hs'). cbn in *. congruence.
  - intros u s' (H1 & H2 & H3). split; [|split; [by eapply frame_trans|split]].
    + eapply unexcuse; [exact H1|]. intros i Hin. apply H3, elem_of_failed_on. done.
    + intros i Hin. apply H3, elem_of_failed_on. done.
    + destruct (lookup_lt_is_Some_2 (sockets s') k) as [c' Hc']; [rewrite (f_sockets _ _ _ _ H2); cbn; rewrite length_insert; by eapply lookup_lt_Some|].
      exists c'. split; [done|]. destruct (f_input _ _ _ _ H2 k c' Hc') as (c0 & Hc0 & Hle). cbn in Hc0.
      rewrite list_lookup_insert_eq in Hc0 by (by eapply lookup_lt_Some). injection Hc0 as <-. exact Hle.
Qed.

Lemma stop_wp E n s : inv E n s ->
  wp (if draining s && bool_decide (requests s = ∅) then in_loop (Stop TNothing) else mret tt)
    (fun _ s' => inv E n s' /\ sockets s' = sockets s /\ waiting s' = waiting s /\ requests s' = requests s /\ store s' = store s /\ completed s' = completed s) s.
Proof.
  intros Hi. destruct (draining s && _) eqn:Ed; [|by apply wp_ret]. apply andb_true_iff in Ed as [Hd Hr]. apply bool_decide_eq_true in Hr.
  apply wp_in_loop. cbn. split; [|done]. by apply (inv_posted E n s TNothing true Hi); [| |done|right].
Qed.

Lemma finished_frame K E n i a r b e s : inv E n s -> requests s !! i = Some a -> store s !! a = Some r -> (forall k, slot r = Some k -> K k) -> frame B K s (finished i r b e s).
Proof.
  intros Hi Hq Hr HK. split; cbn [finished waiting sockets requests store].
  - destruct (slot r); [done|]. apply length_filter.
  - destruct (slot r); [apply length_alter|done].
  - intros j Hj. destruct (slot r) as [k|]; [|done]. rewrite list_lookup_alter_ne; [done|]. intros ->. by apply Hj, HK.
  - apply delete_subseteq.
  - intros j c Hj. destruct (slot r) as [k|]; [|exists c; split; [done|lia]]. destruct (decide (j = k)) as [->|Hne].
    + rewrite list_lookup_alter_eq in Hj. destruct (sockets s !! k) as [c0|]; [|done]. injection Hj as <-. exists c0. split; [done|cbn; lia].
    + rewrite list_lookup_alter_ne in Hj by done. exists c. split; [done|lia].
  - eauto.
  - intros j Hj. cbn [finished completed]. rewrite fmap_app, elem_of_app, lookup_delete_is_Some. cbn. rewrite list_elem_of_singleton. destruct (decide (i = j)); naive_solver.
Qed.

Lemma Finish_fuel_wp fuel : finish_spec fuel.
Proof.
  induction fuel as [|fuel IH]; intros E n i b e K s Hi Hsz He HK; [lia|]. cbn [Finish_fuel]. apply wp_bind, wp_get.
  destruct (requests s !! i) as [a|] eqn:Hq; [|by apply wp_ret; split; [|split; [apply frame_refl|]]].
  destruct (t_live _ _ _ _ _ _ (v_table _ _ _ Hi) i a Hq) as (r & Hr & Hid & _). specialize (HK a r).
  apply wp_bind, (wp_get_request a r); [done|]. apply wp_bind, wp_modify, wp_bind, wp_in_loop, wp_Cancel; [apply Hi|].
  pose proof (finished_inv E n s i a r b e ok Hi Hq Hr He) as HF. pose proof (finished_frame K E n i a r b e s Hi Hq Hr ltac:(intros k Hk; by apply (HK k))) as Hfr.
  set (s1 := finished i r b e s) in *. assert (requests s1 !! i = None) as Hn1 by apply lookup_delete_eq.
  assert (size (requests s1) < fuel)%nat as Hsz1.
  { unfold s1. cbn [finished requests]. pose proof (requests_delete _ _ _ Hq) as Hp. apply Permutation_length in Hp. cbn in Hp.
    rewrite !length_fmap, !length_map_to_list in Hp. lia. }
  match goal with |- wp (_ ≫= fun _ => _ ≫= fun _ => _ ≫= fun _ => ?R) _ _ => set (rest := R) end.
  assert (wp rest (fun _ s' => inv E n s' /\ frame B K s s' /\ requests s' !! i = None) s1) as Hrest.
  { unfold rest. apply wp_bind.
    assert (forall s', inv E n s' -> frame B K s s' -> requests s' !! i = None ->
      wp (s ← get_state ; if draining s && bool_decide (requests s = ∅) then in_loop (Stop TNothing) else mret tt)
        (fun _ s' => inv E n s' /\ frame B K s s' /\ requests s' !! i = None) s') as Hend.
    { intros s' H1 H2 H3. apply wp_bind, wp_get. eapply wp_mono; [by apply (stop_wp E n)|]. intros u s2 (H4 & H5 & H6 & H7 & H8 & H9).
      split; [done|]. split; [eapply frame_trans; [exact H2|by apply frame_same]|by rewrite H7]. }
    destruct (slot r) as [k|] eqn:Esl; [|by apply Hend]. destruct (complete r b e); [by apply Hend|].
    destruct (lookup_lt_is_Some_2 (sockets s1) k) as [c Hc].
    { unfold s1. rewrite (proj1 (finished_sockets i r b e s)). by eapply (t_slot _ _ _ _ _ _ (v_table _ _ _ Hi)). }
    eapply wp_mono; [apply (Disconnect_with_wp fuel E n k protocol K c s1 IH HF Hc Hsz1); by apply (HK k)|].
    intros u s2 (H1 & H2 & _). apply Hend; [done|by eapply frame_trans|]. eapply lookup_weaken_None; [exact Hn1|apply H2]. }
  clearbody rest. apply wp_bind. unfold s1, finished in Hrest. destruct (slot r) as [k|] eqn:Esl; [|exact Hrest].
  destruct (lookup_lt_is_Some_2 (sockets s) k) as [c Hc]; [by eapply (t_slot _ _ _ _ _ _ (v_table _ _ _ Hi))|].
  apply (wp_on_conn k c); [done|]. rewrite (alter_lookup _ _ _ _ Hc) in Hrest. exact Hrest.
Qed.

Lemma Finish_wp E n i b e (K : nat -> Prop) s : inv E n s -> (e = None -> exists x, x ∈ sessions s /\ (i, b) ∈ answers x) ->
  (forall a r k, requests s !! i = Some a -> store s !! a = Some r -> slot r = Some k -> K k) ->
  wp (Finish cfg i b e) (fun _ s' => inv E n s' /\ frame B K s s' /\ requests s' !! i = None) s.
Proof.
  intros Hi He HK. pose proof (Finish_fuel_wp (S (size (requests s))) E n i b e K s Hi ltac:(lia) He HK) as H. unfold wpx, Finish in *. exact H.
Qed.

Lemma Disconnect_wp E n k code c s : inv E n s -> sockets s !! k = Some c ->
  wp (Disconnect cfg k code) (fun _ s' => inv E n s' /\ frame B (eq k) s s' /\ (forall i, i ∈ on (requests s) (store s) k -> requests s' !! i = None) /\
    exists c', sockets s' !! k = Some c' /\ zlen (Buffer.data (input c')) <= Z.max 0 B) s.
Proof.
  intros Hi Hk. pose proof (Disconnect_with_wp (S (size (requests s))) E n k code (eq k) c s (Finish_fuel_wp _) Hi Hk ltac:(lia) eq_refl) as H.
  unfold wpx, Disconnect in *. exact H.
Qed.
End Inv.
