(* ===== verification/AsyncTransportRun.v ===== *)
(** [Connect], [Pump] and [Dispatch] of [AsyncTransport] keep the invariant and return. *)
From S2P Require Import Prelude Buffer Executor EventLoop AsyncTransport AsyncTransportInv.
Import EventLoop AsyncTransport.

Section Run.
Context (cfg : config) (ok : config_ok cfg).
Abbreviation inv := (inv cfg).
Abbreviation conn_inv := (conn_inv cfg).
Abbreviation frame := (frame (max_input cfg)).
Abbreviation has_ids := (AsyncTransport.has_ids cfg).

(** * Changing one connection, the store or the reactor *)

Lemma inv_conn E E' n s k c c' : E ⊆ E' -> inv E n s -> sockets s !! k = Some c ->
  conn_inv E' (armed (evloop s)) (requests s) (store s) k c' -> (forall x, x ∈ answers (session c) -> x ∈ answers (session c')) ->
  connect_timer c' < next_ (evloop s) -> dispatched (session c') = dispatched (session c) -> inv E' n (upd_sockets (<[k := c']> (sockets s)) s).
Proof.
  intros HE [V1 V2 V3 V4 V5 V6 V7 V8 V9 V10 V11 V12 V13 V14 V15 V16] Hk C Hans Hct Hdis. split; cbn; rewrite ?length_insert; try done.
  - by eapply weaken_table.
  - intros j cj Hj. apply list_lookup_insert_Some in Hj as [(<- & <- & _)|[Hne Hj]]; [done|]. by eapply weaken_conn; [|apply V3].
  - intros i b Hib. destruct (V13 i b Hib) as (x & Hx & Hi). unfold sessions in *. cbn.
    apply elem_of_app in Hx as [Hx|Hx]; [exists x; split; [apply elem_of_app; by left|done]|].
    apply list_elem_of_fmap in Hx as (cj & -> & Hcj). apply list_elem_of_lookup in Hcj as [j Hj]. destruct (decide (j = k)) as [->|Hne].
    + exists (session c'). simplify_eq. split; [|by apply Hans]. apply elem_of_app. right. apply list_elem_of_fmap_2, (list_elem_of_lookup_2 _ k).
      apply list_lookup_insert_eq. by eapply lookup_lt_Some.
    + exists (session cj). split; [|done]. apply elem_of_app. right. apply list_elem_of_fmap_2, (list_elem_of_lookup_2 _ j). by rewrite list_lookup_insert_ne.
  - intros j cj Hj. apply list_lookup_insert_Some in Hj as [(<- & <- & _)|[Hne Hj]]; [done|]. by eapply V15.
  - intros j cj i Hj Hi. apply list_lookup_insert_Some in Hj as [(<- & <- & _)|[Hne Hj]]; [|by eapply V16]. rewrite Hdis in Hi. by eapply V16.
Qed.

Lemma frame_conn B s k c c' : sockets s !! k = Some c -> zlen (Buffer.data (input c')) <= Z.max (zlen (Buffer.data (input c))) B ->
  AsyncTransportInv.frame B (eq k) s (upd_sockets (<[k := c']> (sockets s)) s).
Proof.
  intros Hk Hin. split; cbn; try done; [by rewrite length_insert| | |eauto].
  - intros j Hj. by rewrite list_lookup_insert_ne.
  - intros j cj Hj. apply list_lookup_insert_Some in Hj as [(<- & <- & _)|[Hne Hj]]; [by exists c|]. exists cj. split; [done|lia].
Qed.

Lemma frame_weaken B B' K s s' : B <= B' -> AsyncTransportInv.frame B K s s' -> AsyncTransportInv.frame B' K s s'.
Proof. intros HB [F1 F2 F3 F4 F5 F6 F7]. split; try done. intros j c' Hj. destruct (F5 j c' Hj) as (c & Hc & ?). exists c. split; [done|lia]. Qed.

Lemma inv_later E n n' s : n <= n' -> inv E n s -> inv E n' s.
Proof. intros Hn [[L1 L2 L3 L4 L5 L6] V2 V3 V4 V5 V6 V7 V8 V9 V10 V11 V12 V13 V14 V15 V16]. split; try done. split; try done. lia. Qed.

Lemma inv_env E n n' s ps ds : inv E n s -> next_ (evloop s) + 2 * zlen ds <= n' -> inv E n' (upd_env ps ds s).
Proof. intros [[L1 L2 L3 L4 L5 L6] V2 V3 V4 V5 V6 V7 V8 V9 V10 V11 V12 V13 V14 V15 V16] Hn. by split. Qed.

(** A reactor operation that leaves tasks and timers alone. *)
Lemma inv_quiet E n n' s l : inv E n s -> loop_inv (length (sockets s)) n' (dials s) l ->
  armed l = armed (evloop s) -> tasks_ l = tasks_ (evloop s) -> stopping_ l = stopping_ (evloop s) -> next_ (evloop s) <= next_ l ->
  inv E n' (upd_loop l s).
Proof.
  intros [V1 V2 V3 V4 V5 V6 V7 V8 V9 V10 V11 V12 V13 V14 V15 V16] L Ha Ht Hs Hn. split; cbn; rewrite ?Ha, ?Ht, ?Hs; try done.
  - intros a r Hr. specialize (V14 a r Hr). lia.
  - intros k c Hk. specialize (V15 k c Hk). lia.
Qed.

(** The marking of a request as sent changes nothing else. *)
Lemma inv_sent E n s a r : inv E n s -> store s !! a = Some r -> inv E n (upd_store (<[a := set_sent r]> (store s)) s).
Proof.
  intros [V1 V2 V3 V4 V5 V6 V7 V8 V9 V10 V11 V12 V13 V14 V15 V16] Hr. set (st := <[a := set_sent r]> (store s)).
  assert (ident <$> st = ident <$> store s) as Hn.
  { unfold st. rewrite fmap_insert. apply insert_id. rewrite lookup_fmap, Hr. done. }
  assert (forall b rb, st !! b = Some rb -> exists r0, store s !! b = Some r0 /\ id rb = id r0 /\ timer rb = timer r0 /\ slot rb = slot r0 /\ deadline rb = deadline r0) as Hback.
  { intros b rb Hb. unfold st in Hb. apply lookup_insert_Some in Hb as [[<- <-]|[_ Hb]]; [by exists r|by exists rb]. }
  assert (forall b r0, store s !! b = Some r0 -> exists rb, st !! b = Some rb /\ id rb = id r0 /\ timer rb = timer r0 /\ slot rb = slot r0 /\ deadline rb = deadline r0) as Hforth.
  { intros b r0 Hb. unfold st. destruct (decide (a = b)) as [<-|Hne]; [rewrite lookup_insert_eq; simplify_eq; by eexists|].
    rewrite lookup_insert_ne by done. by exists r0. }
  assert (forall b, slot <$> (st !! b) = slot <$> (store s !! b)) as Hslot.
  { intros b. destruct (st !! b) as [rb|] eqn:Eb; [destruct (Hback b rb Eb) as (r0 & -> & _ & _ & Hs & _); cbn; congruence|].
    destruct (store s !! b) as [r0|] eqn:E0; [|done]. destruct (Hforth b r0 E0) as (rb & ? & _). congruence. }
  split; cbn; fold st; rewrite ?Hn; try done.
  - destruct V2 as [T1 T2 T3 T4 T5 T6]. split; try done.
    + intros i b Hq. destruct (T1 i b Hq) as (r0 & H0 & Hi & Ha). destruct (Hforth b r0 H0) as (rb & Hb & E1 & E2 & E3 & E4). exists rb. rewrite E1, E2, E4. done.
    + intros b b' rb rb' Hb Hb'. destruct (Hback _ _ Hb) as (r0 & H0 & -> & _). destruct (Hback _ _ Hb') as (r0' & H0' & -> & _). by apply T2.
    + intros b rb x Hb. destruct (Hback _ _ Hb) as (r0 & H0 & -> & -> & _). by eapply T3.
    + intros b. rewrite T5. split; intros (i & r0 & Hq & H0 & Hs).
      * destruct (Hforth b r0 H0) as (rb & Hb & _ & _ & E3 & _). exists i, rb. by rewrite E3.
      * destruct (Hback b r0 H0) as (rb & Hb & _ & _ & E3 & _). exists i, rb. by rewrite <-E3.
    + intros i b rb k Hq Hb. destruct (Hback _ _ Hb) as (r0 & H0 & _ & _ & -> & _). by apply (T6 i b).
  - intros k c Hk. destruct (V3 k c Hk) as [C1 C2 C3 C4 C5 C6 C7 C8 C9 C10 C11]. split; rewrite ?Hn, ?(on_ext _ _ _ _ Hslot); done.
  - intros b d Hb. destruct (V4 b d Hb) as (r0 & H0 & Hs & Ht & Hd). destruct (Hforth b r0 H0) as (rb & Hb' & _ & E2 & E3 & E4). exists rb.
    by rewrite E2, E3, E4.
  - intros b rb Hb. destruct (Hback _ _ Hb) as (r0 & H0 & -> & _). by eapply V10.
  - intros b rb Hb. destruct (Hback _ _ Hb) as (r0 & H0 & _ & -> & _). by eapply V14.
  - intros k c i Hk Hi. destruct (V16 k c i Hk Hi) as (G1 & G2 & Hsl). split; [done|]. split; [done|]. intros b rb Hq Hb.
    destruct (Hback _ _ Hb) as (r0 & H0 & _ & _ & -> & _). by apply (Hsl b).
Qed.

(** * Sending *)

Lemma drop_chunk (i n : nat) (x y w : bytes) : (i + n <= length x)%nat ->
  (w ++ take n (drop i x)) ++ drop (i + n) (x ++ y) = w ++ drop i (x ++ y).
Proof.
  intros H. rewrite <-app_assoc. f_equal. rewrite !drop_app_le by lia. rewrite app_assoc. f_equal.
  rewrite <-drop_drop. apply take_drop.
Qed.

Lemma took_conn E A q st k c a o r n : conn_inv E A q st k c -> output c = a :: o -> st !! a = Some r -> 0 < n -> sent c + n <= zlen (req_bytes r) ->
  conn_inv E A q st k (took n (req_bytes r).[Z.to_nat (sent c), Z.to_nat n] c).
Proof.
  intros [C1 C2 C3 C4 C5 C6 C7 C8 C9 C10 C11] Ho Hr Hn Hl. split; try done. destruct C6 as (out & Hout & Hw & Hs).
  rewrite Ho in Hout. apply Forall2_cons_inv_l in Hout as (x & out' & Hx & Hout' & ->). rewrite lookup_fmap, Hr in Hx. injection Hx as <-.
  exists (ident r :: out'). cbn [took output sent session wire dispatched]. rewrite Ho. split; [constructor; [by rewrite lookup_fmap, Hr|done]|].
  cbn [fmap list_fmap concat hd snd ident] in *. rewrite Z2Nat.inj_add by lia. unfold zlen in Hl. rewrite drop_chunk by lia. split; [done|]. unfold zlen. cbn. lia.
Qed.

Lemma popped_conn E A q st k c a o r : conn_inv E A q st k c -> output c = a :: o -> st !! a = Some r -> sent c = zlen (req_bytes r) ->
  conn_inv E A q st k (pop_output c).
Proof.
  intros [C1 C2 C3 C4 C5 C6 C7 C8 C9 C10 C11] Ho Hr Hl. split; try done. destruct C6 as (out & Hout & Hw & Hs).
  rewrite Ho in Hout. apply Forall2_cons_inv_l in Hout as (x & out' & Hx & Hout' & ->). rewrite lookup_fmap, Hr in Hx. injection Hx as <-.
  exists out'. cbn [pop_output output sent session]. rewrite Ho. split; [done|]. cbn [fmap list_fmap concat snd ident] in *. rewrite <-Hw, Hl.
  unfold zlen. rewrite Nat2Z.id, drop_app_length. split; [done|]. pose proof (zlen_nonneg (hd [] out'.*2)) as Hz. unfold zlen in Hz. lia.
Qed.

Lemma output_store E n s k c a o : inv E n s -> sockets s !! k = Some c -> output c = a :: o -> is_Some (store s !! a).
Proof.
  intros Hi Hk Ho. destruct (c_output _ _ _ _ _ _ _ (v_conns _ _ _ _ Hi k c Hk)) as (out & Hout & _). rewrite Ho in Hout.
  apply Forall2_cons_inv_l in Hout as (x & out' & Hx & _). rewrite lookup_fmap in Hx. by destruct (store s !! a).
Qed.

(** What the loops of [Pump] promise; the connection is open unless they ended it. *)
Definition pump_post (E : gset Z) (n : Z) (k : nat) (s : impl) (o : option Z) (s' : impl) : Prop :=
  inv E n s' /\ frame (eq k) s s' /\ (is_Some o -> exists c, sockets s' !! k = Some c /\ 0 <= fd c) /\ match o with Some b => 0 <= b | None => True end.

Lemma closing_wp E n k code c s s0 : inv E n s -> sockets s !! k = Some c -> frame (eq k) s0 s ->
  wp (Disconnect cfg k code ;; mret None) (pump_post E n k s0) s.
Proof.
  intros Hi Hk Hf. apply wp_bind. eapply wp_mono; [by eapply (Disconnect_wp cfg ok)|]. intros u s' (H1 & H2 & _). apply wp_ret.
  split; [done|]. split; [by eapply frame_trans|]. split; [by intros [? ?]|done].
Qed.

Lemma send_loop_wp E n k rs : forall s0 s c budget, inv E n s -> sockets s !! k = Some c -> 0 <= fd c -> 0 <= budget -> frame (eq k) s0 s ->
  wp (send_loop cfg k rs budget) (pump_post E n k s0) s.
Proof.
  induction rs as [|x rs IH]; intros s0 s c budget Hi Hk Hfd Hb Hf; cbn [send_loop]; apply wp_bind, (wp_get_conn k c); try done;
    assert (forall b, 0 <= b -> pump_post E n k s0 (Some b) s) as Hret by (intros b Hb'; split; [done|]; split; [done|]; split; [by intros _; exists c|done]);
    (destruct (output c) as [|a o] eqn:Ho; [by apply wp_ret, Hret|]); (destruct (Z.eqb_spec budget 0); [by apply wp_ret, Hret|]); [by apply wp_ret, Hret|].
  destruct x as [m| | |]; [|by eapply IH|by apply wp_ret, Hret|by eapply closing_wp].
  destruct (output_store E n s k c a o Hi Hk Ho) as [r Hr]. pose proof (v_conns _ _ _ _ Hi k c Hk) as C.
  apply wp_bind, (wp_get_request a r); [done|]. destruct (Z.leb_spec (Z.min budget (zlen (req_bytes r) - sent c)) 0); [by eapply closing_wp|].
  set (m' := Z.max 1 _). assert (0 < m' <= budget /\ sent c + m' <= zlen (req_bytes r)) as [Hm' Hm2] by lia.
  pose proof (took_conn E _ _ _ k c a o r m' C Ho Hr ltac:(lia) Hm2) as C1. set (c1 := took _ _ c) in *.
  assert (inv E n (upd_sockets (<[k := c1]> (sockets s)) s)) as H1 by (eapply inv_conn; [done|done|exact Hk|exact C1|done|exact (v_fresh_conn _ _ _ _ Hi k c Hk)|done]).
  assert (frame (eq k) s0 (upd_sockets (<[k := c1]> (sockets s)) s)) as F1 by (eapply frame_trans; [exact Hf|]; eapply frame_conn; [exact Hk|cbn; lia]).
  assert (<[k := c1]> (sockets s) !! k = Some c1) as Hk1 by (apply list_lookup_insert_eq; by eapply lookup_lt_Some).
  apply wp_bind, (wp_on_conn k c); [done|]. apply wp_bind. destruct (Z.eqb_spec (sent c + m') (zlen (req_bytes r))) as [He|He]; [|apply wp_ret; eapply IH; [exact H1|exact Hk1|done|lia|done]].
  apply wp_bind, (wp_on_request a r); [done|]. pose proof (inv_sent E n _ a r H1 Hr) as H2. cbn [store upd_sockets] in H2.
  apply (wp_on_conn k c1); [done|]. set (s2 := upd_store _ _) in *.
  assert (conn_inv E (armed (evloop s2)) (requests s2) (store s2) k (pop_output c1)) as C2.
  { eapply (popped_conn _ _ _ _ _ _ a o (set_sent r)); [by apply (v_conns _ _ _ _ H2)|done|cbn; apply lookup_insert_eq|exact He]. }
  assert (inv E n (upd_sockets (<[k := pop_output c1]> (sockets s2)) s2)) as H3 by (eapply inv_conn; [done|exact H2|exact Hk1|exact C2|done|exact (v_fresh_conn _ _ _ _ Hi k c Hk)|done]).
  eapply IH; [exact H3|cbn; apply list_lookup_insert_eq; rewrite length_insert; by eapply lookup_lt_Some|done|lia|].
  eapply frame_trans; [exact F1|]. eapply (frame_trans _ _ _ s2); [|eapply frame_conn; [exact Hk1|cbn; lia]].
  split; cbn; try done; [intros j cj Hj; exists cj; split; [done|lia]|]. intros b rb Hrb. apply lookup_insert_Some in Hrb as [[<- <-]|[_ Hrb]]; eauto.
Qed.

(** * Receiving *)

Lemma received_conn E A q st k c chunk : conn_inv E A q st k c -> 0 <= fd c -> zlen (Buffer.data (input c)) + zlen chunk < 2 ^ 63 ->
  conn_inv E A q st k (received chunk c).
Proof.
  intros [C1 C2 C3 C4 C5 C6 C7 C8 C9 C10 C11] Hfd Hz. split; cbn [received inflight retired connect_timer input session output sent order fd stream answers wire dispatched]; try done.
  - by apply Buffer.append_Inv.
  - rewrite Buffer.append_data by done. by rewrite C5, app_assoc.
  - lia.
Qed.

Lemma answered_conn E E' A q st k c i size os rs : let resp := take (Z.to_nat size) (Buffer.data (input c)) in
  conn_inv E A q st k c -> 0 <= fd c -> 0 < size <= zlen (Buffer.data (input c)) -> framing cfg (Buffer.data (input c)) = Ret size /\ size <= max_response cfg -> rs ⊆ retired c ->
  match AsyncTransport.ids cfg with
  | Some f => f resp = Ret i /\ os = [] /\ i ∈ (dispatched (session c)).*1
  | None => (answers (session c)).*1 ++ i :: os = (dispatched (session c)).*1
  end ->
  (forall j, j ∈ on q st k -> j ∉ E' -> (j ∉ rs) /\ (if has_ids then j ∈ (dispatched (session c)).*1 else j ∈ os)) ->
  conn_inv E' A q st k (answered i resp size os rs c).
Proof.
  intros resp [C1 C2 C3 C4 C5 C6 C7 C8 C9 C10 C11] Hfd Hs [Hfr Hmr] Hrs Hpair Hl.
  destruct (Buffer.consume_data size (input c) C4) as [Hd Hinv]; [lia|].
  assert (resp ++ drop (Z.to_nat size) (Buffer.data (input c)) = Buffer.data (input c)) as Hsplit by apply take_drop.
  assert (zlen resp = size) as Hlen by (unfold resp, zlen in *; rewrite length_take; lia).
  split; cbn [answered inflight retired connect_timer input session output sent order fd stream answers wire dispatched]; try done.
  - etrans; [|exact C2]. apply inj_le, subseteq_size. by apply union_mono_l.
  - rewrite C5, Hd, fmap_app, concat_app. cbn. rewrite app_nil_r, <-app_assoc. by rewrite Hsplit.
  - apply Forall_app. split; [done|]. apply Forall_singleton. split; cbn [snd]; [lia|]. exists (drop (Z.to_nat size) (Buffer.data (input c))). by rewrite Hsplit, Hlen.
  - unfold paired in *. cbn. destruct (AsyncTransport.ids cfg) as [f|].
    + apply Forall_app. split; [done|]. apply Forall_singleton. by destruct Hpair as (? & _ & ?).
    + rewrite fmap_app. cbn. rewrite <-Hpair. exists os. by rewrite <-app_assoc.
  - unfold AsyncTransport.has_ids in *. destruct (AsyncTransport.ids cfg) as [f|].
    + rewrite bool_decide_eq_true_2 in * by done. destruct Hpair as (_ & -> & _). split; [done|]. intros j Hj. apply C9. by apply Hrs.
    + rewrite bool_decide_eq_false_2 in * by (by intros [? ?]). rewrite fmap_app. cbn. rewrite <-app_assoc. split; [done|]. destruct C9 as [_ C9]. rewrite C9 in Hrs. clear -Hrs. set_solver.
  - lia.
Qed.

(** What the loop over frames leaves: less than a frame in the input, or the connection closed. *)
Definition frames_post (n : Z) (k : nat) (s : impl) (go : bool) (s' : impl) : Prop :=
  inv ∅ n s' /\ frame (eq k) s s' /\ exists c, sockets s' !! k = Some c /\
    if go then 0 <= fd c /\ zlen (Buffer.data (input c)) <= max_input cfg else fd c < 0.

Lemma max_response_bounds : 0 < max_response cfg <= 2 ^ 62 + 16.
Proof. pose proof (cf_frame _ ok). unfold max_response. destruct (AsyncTransport.has_ids cfg); rewrite u64_small; lia. Qed.

Lemma find_request_wp n k i (Q : unit -> impl -> Prop) R s : inv ∅ n s -> (i ∈ on (requests s) (store s) k -> Q tt s) -> (forall e, R e s) ->
  wpx (find_request k i) Q R s.
Proof.
  intros Hi HQ HR. unfold find_request. apply wp_bind, wp_get. destruct (requests s !! i) as [a|] eqn:Hq; [|by apply wp_throw].
  destruct (t_live _ _ _ _ _ _ (v_table _ _ _ _ Hi) i a Hq) as (r & Hr & _). apply wp_bind, (wp_get_request a r); [done|].
  case_bool_decide; [|by apply wp_throw]. apply wp_ret, HQ, elem_of_on. eauto.
Qed.

Lemma conn_inv_at E n s k c : inv E n s -> sockets s !! k = Some c -> conn_inv E (armed (evloop s)) (requests s) (store s) k c.
Proof. intros Hi. by apply Hi. Qed.

(** A response for a retired request is dropped. *)
Lemma answer_retired n s k c i size f : let resp := take (Z.to_nat size) (Buffer.data (input c)) in let c' := answered i resp size (order c) (retired c ∖ {[i]}) c in
  inv ∅ n s -> sockets s !! k = Some c -> 0 <= fd c -> 0 < size <= zlen (Buffer.data (input c)) -> framing cfg (Buffer.data (input c)) = Ret size /\ size <= max_response cfg ->
  AsyncTransport.ids cfg = Some f -> f resp = Ret i -> i ∈ retired c -> inv ∅ n (upd_sockets (<[k := c']> (sockets s)) s).
Proof.
  intros resp c' Hi Hk Hfd Hs Hfr Hids Hf Hret. pose proof (conn_inv_at _ _ _ _ _ Hi Hk) as C.
  eapply inv_conn; [done|done|exact Hk| | |exact (v_fresh_conn _ _ _ _ Hi k c Hk)|done].
  - pose proof (c_order _ _ _ _ _ _ _ C) as Ho. pose proof (c_linked _ _ _ _ _ _ _ C) as Hl.
    assert (has_ids = true) as Hh by (unfold AsyncTransport.has_ids; rewrite Hids; by apply bool_decide_eq_true_2). rewrite Hh in Ho, Hl. destruct Ho as [Ho1 Ho2].
    eapply answered_conn; try done; [apply subseteq_difference_l; done|rewrite Hids; split; [done|split; [done|by apply Ho2]]|].
    intros j Hj _. rewrite Hh. destruct (Hl j Hj) as [? ?]; [apply not_elem_of_empty|]. split; [|done]. rewrite elem_of_difference. by intros [? _].
  - intros x Hx. apply elem_of_app. by left.
Qed.

(** A response for a live request: the request is excused until it is finished. *)
Lemma answer_live n s k c i size os : let resp := take (Z.to_nat size) (Buffer.data (input c)) in let c' := answered i resp size os (retired c) c in
  inv ∅ n s -> sockets s !! k = Some c -> 0 <= fd c -> 0 < size <= zlen (Buffer.data (input c)) -> framing cfg (Buffer.data (input c)) = Ret size /\ size <= max_response cfg ->
  match AsyncTransport.ids cfg with Some f => f resp = Ret i /\ os = order c | None => order c = i :: os end ->
  i ∈ on (requests s) (store s) k ->
  inv {[i]} n (upd_sockets (<[k := c']> (sockets s)) s).
Proof.
  intros resp c' Hi Hk Hfd Hs Hfr Hids Hon. pose proof (conn_inv_at _ _ _ _ _ Hi Hk) as C.
  eapply inv_conn; [apply empty_subseteq|done|exact Hk| | |exact (v_fresh_conn _ _ _ _ Hi k c Hk)|done].
  - pose proof (c_order _ _ _ _ _ _ _ C) as Ho. pose proof (c_linked _ _ _ _ _ _ _ C) as Hl. unfold AsyncTransport.has_ids in *.
    eapply answered_conn; try done; unfold AsyncTransport.has_ids; destruct (AsyncTransport.ids cfg) as [f|].
    + rewrite bool_decide_eq_true_2 in * by done. destruct Hids as [? ->]. destruct Ho as [-> _]. split; [done|]. split; [done|]. by apply Hl; [|apply not_elem_of_empty].
    + rewrite bool_decide_eq_false_2 in * by (by intros [? ?]). destruct Ho as [Ho _]. by rewrite <-Hids.
    + intros j Hj _. by apply Hl; [|apply not_elem_of_empty].
    + intros j Hj Hne. rewrite bool_decide_eq_false_2 in * by (by intros [? ?]). destruct (Hl j Hj) as [? Hin]; [apply not_elem_of_empty|]. split; [done|].
      rewrite Hids in Hin. apply elem_of_cons in Hin as [->|?]; [|done]. exfalso. by apply Hne, elem_of_singleton.
  - intros x Hx. apply elem_of_app. by left.
Qed.

Lemma answered_frame B s k c i size os rs : sockets s !! k = Some c -> Buffer.Inv (input c) -> 0 < size <= zlen (Buffer.data (input c)) ->
  let c' := answered i (take (Z.to_nat size) (Buffer.data (input c))) size os rs c in
  AsyncTransportInv.frame B (eq k) s (upd_sockets (<[k := c']> (sockets s)) s) /\ zlen (Buffer.data (input c')) = zlen (Buffer.data (input c)) - size.
Proof.
  intros Hk Hb Hs c'. assert (zlen (Buffer.data (input c')) = zlen (Buffer.data (input c)) - size) as Hz.
  { cbn [c' answered input]. destruct (Buffer.consume_data size (input c) Hb) as [-> _]; [lia|]. unfold zlen in *. rewrite length_drop. lia. }
  split; [|done]. eapply frame_conn; [exact Hk|lia].
Qed.

Lemma answer_step n k s0 s c i size os rest : let resp := take (Z.to_nat size) (Buffer.data (input c)) in let R := fun (_ : exn) s' => inv ∅ n s' /\ frame (eq k) s0 s' in
  inv ∅ n s -> sockets s !! k = Some c -> 0 <= fd c -> 0 < size <= zlen (Buffer.data (input c)) -> framing cfg (Buffer.data (input c)) = Ret size /\ size <= max_response cfg ->
  match AsyncTransport.ids cfg with Some f => f resp = Ret i /\ os = order c | None => order c = i :: os end ->
  i ∈ on (requests s) (store s) k -> frame (eq k) s0 s ->
  (forall s' c', inv ∅ n s' -> sockets s' !! k = Some c' -> 0 <= fd c' -> zlen (Buffer.data (input c')) < zlen (Buffer.data (input c)) -> frame (eq k) s0 s' ->
    wpx rest (frames_post n k s0) R s') ->
  wpx (on_conn k (answered i resp size os (retired c)) ;; Finish cfg i resp None ;; c ← get_conn k ; if fd c <? 0 then mret false else rest) (frames_post n k s0) R s.
Proof.
  intros resp R Hi Hk Hfd Hs Hfr Hids Hon Hf Hrest. pose proof (answer_live n s k c i size os Hi Hk Hfd Hs Hfr Hids Hon) as H1. cbv zeta in H1. fold resp in H1.
  destruct (answered_frame 0 s k c i size os (retired c) Hk (c_buffer _ _ _ _ _ _ _ (conn_inv_at _ _ _ _ _ Hi Hk)) Hs) as [F1 Hz]. fold resp in F1, Hz.
  set (c1 := answered i resp size os (retired c) c) in *. set (s1 := upd_sockets _ s) in *. apply wp_bind, (wp_on_conn k c); [done|]. fold c1 s1.
  assert (sockets s1 !! k = Some c1) as Hk1 by (apply list_lookup_insert_eq; by eapply lookup_lt_Some).
  apply wp_bind. eapply wp_mono; [apply (Finish_wp cfg ok (B := 0) _ n i resp None (eq k) s1 H1)|].
  - intros _. exists (session c1). split; [|cbn; apply elem_of_app; right; by apply list_elem_of_singleton].
    apply elem_of_app. right. by apply list_elem_of_fmap_2, (list_elem_of_lookup_2 _ k).
  - intros a r k' Hq Hr Hsl. apply elem_of_on in Hon as (a' & r' & Hq' & Hr' & Hs'). cbn in *. congruence.
  - intros u s2 (H2 & F2 & Hn2). assert (inv ∅ n s2) as H2'.
    { apply (unexcuse cfg ∅ {[i]}); [by rewrite union_empty_l_L|]. by intros j ->%elem_of_singleton. }
    pose proof (frame_trans _ _ _ _ _ F1 F2) as F. assert (frame (eq k) s0 s2) as F0.
    { eapply frame_trans; [exact Hf|]. eapply frame_weaken; [|exact F]. unfold max_input. lia. }
    destruct (lookup_lt_is_Some_2 (sockets s2) k) as [c2 Hk2]; [rewrite (f_sockets _ _ _ _ F); by eapply lookup_lt_Some|].
    apply wp_bind, (wp_get_conn k c2); [done|]. destruct (Z.ltb_spec (fd c2) 0).
    + apply wp_ret. split; [done|]. split; [done|]. by exists c2.
    + destruct (f_input _ _ _ _ F2 k c2 Hk2) as (c1' & Hk1' & Hle). rewrite Hk1 in Hk1'. injection Hk1' as <-.
      apply (Hrest s2 c2); try done. pose proof (zlen_nonneg (Buffer.data (input c1))). lia.
Qed.

Lemma frame_loop_wp n k fuel : forall s0 s c, inv ∅ n s -> sockets s !! k = Some c -> 0 <= fd c -> zlen (Buffer.data (input c)) <= Z.of_nat fuel -> frame (eq k) s0 s ->
  wpx (frame_loop cfg fuel k) (frames_post n k s0) (fun _ s' => inv ∅ n s' /\ frame (eq k) s0 s') s.
Proof.
  pose proof max_response_bounds as Hmax. assert (max_response cfg <= max_input cfg) by (unfold max_input; lia). assert (64 <= max_input cfg) by (unfold max_input; lia).
  induction fuel as [|fuel IH]; intros s0 s c Hi Hk Hfd Hfuel Hf; cbn [frame_loop]; apply wp_bind, (wp_get_conn k c); try done;
    pose proof (conn_inv_at _ _ _ _ _ Hi Hk) as C; pose proof (c_buffer _ _ _ _ _ _ _ C) as Hb; rewrite (Buffer.size_data _ Hb); pose proof (zlen_nonneg (Buffer.data (input c)));
    assert (zlen (Buffer.data (input c)) <= max_input cfg -> frames_post n k s0 true s) as Hret by (intros ?; split; [done|]; split; [done|]; by exists c);
    destruct (Z.eqb_spec (zlen (Buffer.data (input c))) 0); try (apply wp_ret, Hret; lia); [lia|].
  pose proof (cf_framing _ ok (Buffer.data (input c))) as Hfr. pose proof (cf_header _ ok (Buffer.data (input c))) as Hhd. pose proof (cf_ids _ ok) as Hidok.
  apply wp_bind, wp_lift. destruct (framing cfg (Buffer.data (input c))) as [size|e| |] eqn:Efr; try done.
  destruct (Z.ltb_spec (max_response cfg) size) as [?|Hmr]; [by apply wp_throw|].
  destruct ((size =? 0) || _) eqn:Es; [apply wp_ret, Hret; destruct (Z.eqb_spec size 0) as [->|]; [specialize (Hhd eq_refl); lia|zify_bools; destruct Es; [done|zify_bools; lia]]|].
  apply orb_false_iff in Es as [Es1 Es2]. zify_bools. assert (0 < size <= zlen (Buffer.data (input c))) as Hs by lia.
  set (resp := take (Z.to_nat size) (Buffer.data (input c))). apply wp_bind, wp_lift. rewrite (Buffer.copy_data _ _ Hb) by lia. fold resp.
  assert (forall i os, match AsyncTransport.ids cfg with Some f => f resp = Ret i /\ os = order c | None => order c = i :: os end -> i ∈ on (requests s) (store s) k ->
    wpx (on_conn k (answered i resp size os (retired c)) ;; Finish cfg i resp None ;; c ← get_conn k ; if fd c <? 0 then mret false else frame_loop cfg fuel k)
      (frames_post n k s0) (fun _ s' => inv ∅ n s' /\ frame (eq k) s0 s') s) as Hstep.
  { intros i os Hids Hon. apply (answer_step n k s0 s c i size os); try done. intros s' c' G1 G2 G3 G4 G5. apply (IH s0 s' c'); try done. lia. }
  apply wp_bind. pose proof (c_linked _ _ _ _ _ _ _ C) as Hl. unfold AsyncTransport.has_ids in *. destruct (AsyncTransport.ids cfg) as [f|] eqn:Eids.
  - specialize (Hidok f (Buffer.data (input c)) size eq_refl Efr ltac:(lia)). fold resp in Hidok. apply wp_lift. destruct (f resp) as [i|e| |] eqn:Ef; try done.
    rewrite !(bool_decide_eq_true_2 (is_Some (Some f))) by done. cbn [andb]. destruct (decide (i ∈ retired c)) as [Hret'|Hret']; [rewrite bool_decide_eq_true_2 by done|rewrite bool_decide_eq_false_2 by done].
    + pose proof (answer_retired n s k c i size f Hi Hk Hfd Hs (conj Efr Hmr) Eids Ef Hret') as G1. destruct (answered_frame (max_input cfg) s k c i size (order c) (retired c ∖ {[i]}) Hk Hb Hs) as [F1 Hz].
      apply wp_bind, (wp_on_conn k c); [done|]. eapply IH; [exact G1|apply list_lookup_insert_eq; by eapply lookup_lt_Some|done|fold resp in Hz; lia|by eapply frame_trans].
    + apply wp_bind. eapply find_request_wp; [exact Hi| |done]. intros Hon. apply wp_bind, wp_ret. by apply Hstep.
  - apply wp_ret. rewrite bool_decide_eq_false_2 in * by (by intros [? ?]). cbn [andb]. apply wp_bind. eapply find_request_wp; [exact Hi| |done]. intros Hon.
    destruct (Hl _ Hon) as [_ Hin]; [apply not_elem_of_empty|]. destruct (order c) as [|i os] eqn:Eo; [by apply not_elem_of_nil in Hin|]. apply wp_bind, wp_ret. by apply Hstep.
Qed.

(** Inputs that grew while a chunk was parsed are small again. *)
Lemma frame_received s0 s k c c1 s' : frame (eq k) s0 s -> sockets s !! k = Some c -> frame (eq k) (upd_sockets (<[k := c1]> (sockets s)) s) s' ->
  (forall c', sockets s' !! k = Some c' -> zlen (Buffer.data (input c')) <= max_input cfg) -> frame (eq k) s0 s'.
Proof.
  intros F Hk [G1 G2 G3 G4 G5 G6 G7] Hsm. eapply frame_trans; [exact F|]. cbn in *. rewrite length_insert in G2. split; try done.
  - intros j Hj. rewrite G3 by done. by rewrite list_lookup_insert_ne.
  - intros j c' Hj. destruct (decide (j = k)) as [->|Hne]; [exists c; split; [done|]; specialize (Hsm c' Hj); lia|].
    destruct (G5 j c' Hj) as (c0 & Hc0 & ?). rewrite list_lookup_insert_ne in Hc0 by done. by exists c0.
Qed.

Lemma closed_small n s k c : inv ∅ n s -> sockets s !! k = Some c -> fd c < 0 -> zlen (Buffer.data (input c)) <= max_input cfg.
Proof.
  intros Hi Hk Hfd. rewrite (c_closed _ _ _ _ _ _ _ (conn_inv_at _ _ _ _ _ Hi Hk) Hfd), zlen_nil. unfold max_input. lia.
Qed.

Lemma recv_loop_wp n k rs : forall s0 s c budget, inv ∅ n s -> sockets s !! k = Some c -> 0 <= fd c -> 0 <= budget -> zlen (Buffer.data (input c)) <= max_input cfg -> frame (eq k) s0 s ->
  wp (recv_loop cfg k rs budget) (pump_post ∅ n k s0) s.
Proof.
  pose proof max_response_bounds as Hmax. assert (max_input cfg <= 2 ^ 62 + 16) as Hmi by (unfold max_input; lia).
  induction rs as [|x rs IH]; intros s0 s c budget Hi Hk Hfd Hb Hsm Hf; cbn [recv_loop];
    assert (forall b, 0 <= b -> pump_post ∅ n k s0 (Some b) s) as Hret by (intros b Hb'; split; [done|]; split; [done|]; split; [by intros _; exists c|done]);
    (destruct (Z.eqb_spec budget 0); [by apply wp_ret, Hret|]); [by apply wp_ret, Hret|].
  destruct x as [chunk| | |]; [|by eapply IH|by apply wp_ret, Hret|by eapply closing_wp].
  set (ch := take _ chunk). case_bool_decide; [by eapply closing_wp|].
  assert (zlen ch <= Z.min 16384 budget) as Hch by (unfold ch, zlen; rewrite length_take; lia). pose proof (zlen_nonneg ch).
  pose proof (received_conn ∅ _ _ _ k c ch (conn_inv_at _ _ _ _ _ Hi Hk) Hfd ltac:(lia)) as C1. set (c1 := received ch c) in *.
  assert (inv ∅ n (upd_sockets (<[k := c1]> (sockets s)) s)) as H1 by (eapply inv_conn; [done|done|exact Hk|exact C1|done|exact (v_fresh_conn _ _ _ _ Hi k c Hk)|done]).
  set (s1 := upd_sockets _ s) in *. assert (sockets s1 !! k = Some c1) as Hk1 by (apply list_lookup_insert_eq; by eapply lookup_lt_Some).
  apply wp_bind, (wp_on_conn k c); [done|]. fold c1 s1. apply wp_bind, (wp_get_conn k c1); [done|].
  rewrite (Buffer.size_data _ (c_buffer _ _ _ _ _ _ _ C1)). pose proof (zlen_nonneg (Buffer.data (input c1))).
  apply wp_bind, wp_try. eapply wpx_mono; [apply (frame_loop_wp n k _ s1 s1 c1); [done|done|done|lia|apply frame_refl]| |].
  - intros go s2 (G2 & F2 & c2 & Hk2 & Hgo). assert (zlen (Buffer.data (input c2)) <= max_input cfg) as Hsm2 by (destruct go; [apply Hgo|by eapply closed_small]).
    assert (frame (eq k) s0 s2) as F by (eapply (frame_received s0 s k c c1); [done|done|exact F2|intros c' Hc'; by simplify_eq]).
    destruct go; [eapply (IH s0 s2 c2); [done|done|apply Hgo|lia|done|done]|]. apply wp_ret. split; [done|]. split; [done|]. split; [by intros [? ?]|done].
  - intros e s2 [G2 F2]. destruct (lookup_lt_is_Some_2 (sockets s2) k) as [c2 Hk2]; [rewrite (f_sockets _ _ _ _ F2); by eapply lookup_lt_Some|].
    apply wp_bind. eapply wp_mono; [by apply (Disconnect_wp cfg ok (B := max_input cfg) ∅ n k protocol c2)|]. intros u s3 (G3 & F3 & _ & c3 & Hk3 & Hsm3). apply wp_ret, wp_ret.
    split; [done|]. split; [|split; [by intros [? ?]|done]]. eapply (frame_received s0 s k c c1); [done|done|by eapply frame_trans|].
    intros c' Hc'. simplify_eq. assert (0 <= max_input cfg) by (unfold max_input; lia). lia.
Qed.

(** * Connecting *)

(** Changes of the connection that the invariant does not see. *)
Lemma same_conn E A q st k c c' : conn_inv E A q st k c -> connect_timer c' = connect_timer c -> (fd c' < 0 -> fd c < 0) -> input c' = input c -> session c' = session c ->
  output c' = output c -> sent c' = sent c -> order c' = order c -> retired c' = retired c -> inflight c' = inflight c -> conn_inv E A q st k c'.
Proof.
  intros [C1 C2 C3 C4 C5 C6 C7 C8 C9 C10 C11] H1 H2 H3 H4 H5 H6 H7 H8 H9. split; rewrite ?H1, ?H3, ?H4, ?H5, ?H6, ?H7, ?H8, ?H9; try done. auto.
Qed.

(** [s'] differs from [s] in one such connection. *)
Definition touched (E : gset Z) (n : Z) (k : nat) (s : impl) (c : Connection) (s' : impl) (c' : Connection) : Prop :=
  inv E n s' /\ AsyncTransportInv.frame 0 (eq k) s s' /\ sockets s' !! k = Some c' /\ input c' = input c /\ dials s' = dials s.

Lemma touch_wp E n k (f : Connection -> Connection) c s (Q : unit -> impl -> Prop) R : inv E n s -> sockets s !! k = Some c ->
  connect_timer (f c) = connect_timer c -> (fd (f c) < 0 -> fd c < 0) -> input (f c) = input c -> session (f c) = session c ->
  output (f c) = output c -> sent (f c) = sent c -> order (f c) = order c -> retired (f c) = retired c -> inflight (f c) = inflight c ->
  (forall s', touched E n k s c s' (f c) -> evloop s' = evloop s -> Q tt s') -> wpx (on_conn k f) Q R s.
Proof.
  intros Hi Hk H1 H2 H3 H4 H5 H6 H7 H8 H9 HQ. apply (wp_on_conn k c); [done|]. apply HQ; [|done]. split; [|split; [|split; [apply list_lookup_insert_eq; by eapply lookup_lt_Some|done]]].
  - eapply inv_conn; [done|done|exact Hk| |by rewrite H4|rewrite H1; exact (v_fresh_conn _ _ _ _ Hi k c Hk)|by rewrite H4]. eapply same_conn; [by eapply conn_inv_at|done..].
  - eapply frame_conn; [exact Hk|]. rewrite H3. lia.
Qed.

Lemma touched_trans E E' n n' k s c s1 c1 s2 c2 : touched E n k s c s1 c1 -> touched E' n' k s1 c1 s2 c2 -> touched E' n' k s c s2 c2.
Proof. intros (A1 & A2 & A3 & A4 & A5) (B1 & B2 & B3 & B4 & B5). split; [done|]. split; [by eapply frame_trans|]. split; [done|]. split; congruence. Qed.

Lemma armed_next (l : loop task callback) : EventLoop.Inv l -> armed l !! next_ l = None.
Proof.
  intros (_ & Hn & _ & _ & Hlt & _). destruct (armed l !! next_ l) as [[d t]|] eqn:E; [|done]. apply armed_lookup in E; [|done].
  rewrite Forall_forall in Hlt. specialize (Hlt _ E). cbn in Hlt. lia.
Qed.

Lemma inv_at E n s d t : inv E (n - 1) s -> n < 2 ^ 64 -> timer_ok (length (sockets s)) t ->
  inv E n (upd_loop (At d t (evloop s)).1 s) /\ armed (At d t (evloop s)).1 = <[next_ (evloop s) := (d, t)]> (armed (evloop s)) /\
  next_ (At d t (evloop s)).1 = next_ (evloop s) + 1 /\ (At d t (evloop s)).2 = Ret (next_ (evloop s)).
Proof.
  intros [[L1 L2 L3 L4 L5 L6] V2 V3 V4 V5 V6 V7 V8 V9 V10 V11 V12 V13 V14 V15 V16] Hn Ht. pose proof (zlen_nonneg (dials s)).
  destruct (At_spec d t (evloop s) L1) as (Hr & Hi & Ha & Hnx & _); [lia|]. split; [|done]. pose proof L1 as (_ & _ & _ & Hpos & _).
  split; cbn [upd_loop evloop sockets dials requests store waiting admitted queued submitted completed closing draining past]; rewrite ?Ha, ?Hnx; try done.
  - split; rewrite ?Ha, ?Hnx; try done; [lia|rewrite lookup_insert_ne by lia; done|by apply map_Forall_insert_2].
  - destruct V2 as [T1 T2 T3 T4 T5 T6]. split; try done.
    + intros i a Hq. destruct (T1 i a Hq) as (r & Hr' & Hid & Har). exists r. split; [done|]. split; [done|]. intros HE.
      rewrite lookup_insert_ne; [by apply Har|]. specialize (V14 a r Hr'). lia.
    + intros a r x Hr'. specialize (V14 a r Hr'). rewrite lookup_insert_ne by lia. exact (T3 a r x Hr').
  - intros k c Hk. destruct (V3 k c Hk) as [C1 C2 C3 C4 C5 C6 C7 C8 C9 C10 C11]. split; try done. specialize (V15 k c Hk).
    intros x. rewrite lookup_insert_ne by lia. apply C3.
  - intros a r Hr'. specialize (V14 a r Hr'). lia.
  - intros k c Hk. specialize (V15 k c Hk). lia.
Qed.

Lemma inv_add E n s b f ev (k : callback) : inv E (n - 1) s -> n < 2 ^ 64 -> (k < length (sockets s))%nat ->
  (Add b f ev k (evloop s)).2 = (if b then Ret (next_ (evloop s)) else Throw std_system_error) /\ inv E n (upd_loop (Add b f ev k (evloop s)).1 s).
Proof.
  intros Hi Hn Hk. pose proof (v_loop _ _ _ _ Hi) as [L1 L2 L3 L4 L5 L6]. pose proof (zlen_nonneg (dials s)).
  destruct (Add_Inv (callback := callback) b f ev k (evloop s) L1) as (Hl & Hnx & Ht & Hti & Hr); [lia|]. split; [done|].
  assert (armed (Add b f ev k (evloop s)).1 = armed (evloop s)) as Ha by (unfold armed; by rewrite Hti).
  eapply inv_quiet; [exact Hi| |done|done| |lia].
  - split; rewrite ?Ha, ?Hnx, ?Ht; try done; [lia|]. unfold Add. destruct b; [|done]. cbn. by apply map_Forall_insert_2.
  - unfold Add. by destruct b.
Qed.

Lemma frame_zero K s s' : AsyncTransportInv.frame 0 K s s' -> frame K s s'.
Proof. apply frame_weaken. unfold max_input. lia. Qed.

Lemma wp_At d t s (Q : Z -> impl -> Prop) R : (At d t (evloop s)).2 = Ret (next_ (evloop s)) -> Q (next_ (evloop s)) (upd_loop (At d t (evloop s)).1 s) ->
  wpx (in_loop (At d t)) Q R s.
Proof. intros Hr HQ. apply wp_in_loop. unfold wpx. by rewrite (outcome_of _ _ Hr). Qed.

(** Registering a connection attempt. *)
Lemma dialed_wp n k f (in_progress b : bool) now c s : n < 2 ^ 64 -> inv ∅ (n - 2) s -> sockets s !! k = Some c -> fd c < 0 ->
  wp (on_conn k (opened (Z.of_nat f)) ;; on_conn k (set_connecting in_progress) ;;
      t ← in_loop (Add b (Z.of_nat f) (Z.lor EPOLLIN (Z.lor EPOLLOUT EPOLLRDHUP)) k) ;
      on_conn k (watched t) ;;
      if in_progress then
        t ← in_loop (At (now + connect_timeout (timeouts cfg) * 1000000) (TConnectTimeout k)) ; on_conn k (set_connect_timer t)
      else mret tt) (fun _ s' => inv ∅ n s' /\ frame (eq k) s s') s.
Proof.
  intros Hn Hi Hk Hfd. apply wp_bind. eapply touch_wp; [exact Hi|exact Hk|done..|]. intros s1 T1 _. apply wp_bind. pose proof T1 as (Hi1 & _ & Hk1 & _).
  eapply touch_wp; [exact Hi1|exact Hk1|done..|]. intros s2 T2 _. pose proof (touched_trans _ _ _ _ _ _ _ _ _ _ _ T1 T2) as (Hi2 & F2 & Hk2 & Hin2 & Hd2). clear T1 T2 Hi1 Hk1.
  pose proof (lookup_lt_Some _ _ _ Hk2) as Hlt. destruct (inv_add ∅ (n - 1) s2 b (Z.of_nat f) (Z.lor EPOLLIN (Z.lor EPOLLOUT EPOLLRDHUP)) k) as [Hr Hi3];
    [by replace (n - 1 - 1) with (n - 2) by lia|lia|done|].
  apply wp_bind, wp_in_loop. unfold wpx at 1. change (@Add task nat) with (@Add task callback). rewrite (outcome_of _ _ Hr). destruct b; [|done]. set (s3 := upd_loop _ s2) in *.
  set (c2 := set_connecting in_progress (opened (Z.of_nat f) c)) in *. apply wp_bind. eapply (touch_wp ∅ (n - 1) k _ c2); [exact Hi3|exact Hk2|done..|].
  intros s4 T4 _. pose proof T4 as (Hi4 & F4 & Hk4 & Hin4 & Hd4).
  assert (frame (eq k) s s4) as F by (eapply frame_trans; [by apply frame_zero|]; eapply frame_trans; [|by apply frame_zero]; by apply frame_same).
  destruct in_progress; [|apply wp_ret; split; [apply (inv_later _ (n - 1)); [lia|done]|done]].
  destruct (inv_at ∅ n s4 (now + connect_timeout (timeouts cfg) * 1000000) (TConnectTimeout k) Hi4 Hn) as (Hi5 & Ha5 & Hn5 & Hr5); [by eapply lookup_lt_Some|].
  apply wp_bind, wp_At; [done|]. set (s5 := upd_loop _ s4) in *. apply (wp_on_conn k (watched (next_ (evloop s2)) c2)); [done|]. split.
  - eapply inv_conn; [done|exact Hi5|exact Hk4| |done|unfold s5; cbn [connect_timer set_connect_timer evloop upd_loop]; rewrite Hn5; lia|done].
    destruct (conn_inv_at _ _ _ _ _ Hi5 Hk4) as [C1 C2 C3 C4 C5 C6 C7 C8 C9 C10 C11]. split; try done. cbn [set_connect_timer connect_timer].
    intros x. cbn [evloop upd_loop s5]. rewrite Ha5, lookup_insert_eq. by intros [= <-].
  - eapply frame_trans; [exact F|]. eapply (frame_trans _ _ _ s5); [by apply frame_same|]. eapply frame_conn; [exact Hk4|cbn; lia].
Qed.

Lemma Connect_wp n k c s : n < 2 ^ 64 -> inv ∅ n s -> sockets s !! k = Some c -> fd c < 0 ->
  wp (Connect cfg k) (fun _ s' => inv ∅ n s' /\ frame (eq k) s s') s.
Proof.
  intros Hn Hi Hk Hfd. unfold Connect. apply wp_bind. unfold pop_dial, wpx at 1. pose proof (l_next _ _ _ _ (v_loop _ _ _ _ Hi)) as Hnext.
  assert (forall n', n' <= n -> next_ (evloop s) + 2 * zlen (tail (dials s)) <= n' -> inv ∅ n' (upd_env (pumps s) (tail (dials s)) s)) as He by (intros n' ? ?; by eapply inv_env).
  set (s1 := upd_env _ _ s) in *. assert (frame (eq k) s s1) as F1 by (by apply frame_same).
  assert (zlen (tail (dials s)) <= zlen (dials s)) as Htl by (destruct (dials s); [done|cbn; rewrite zlen_cons; lia]).
  assert (forall f, (f < 0 -> fd c < 0) -> wp (on_conn k (opened f) ;; Disconnect cfg k connection) (fun _ s' => inv ∅ n s' /\ frame (eq k) s s') s1) as Hfail.
  { intros f Hf. apply wp_bind. eapply (touch_wp ∅ n k _ c); [apply He; lia|exact Hk|done..|]. intros s2 (Hi2 & F2 & Hk2 & _) _.
    eapply wp_mono; [by apply (Disconnect_wp cfg ok (B := max_input cfg) ∅ n k connection _ s2 Hi2 Hk2)|]. intros u s3 (Hi3 & F3 & _).
    split; [done|]. eapply frame_trans; [exact F1|]. eapply frame_trans; [by apply frame_zero|done]. }
  destruct (hd NoSocket (dials s)) as [|f|f ip b now] eqn:Eh; [apply Hfail; lia|apply Hfail; lia|].
  eapply wp_mono; [apply (dialed_wp n k f ip b now c s1 Hn); [|done|done]|].
  - apply He; [lia|]. destruct (dials s) as [|d ds]; [done|]. cbn [tail]. rewrite zlen_cons in Hnext. lia.
  - intros u s2 [Hi2 F2]. split; [done|by eapply frame_trans].
Qed.

(** * [Pump] *)

Lemma Schedule_wp E n k c s : inv E n s -> sockets s !! k = Some c ->
  wp (Schedule k) (fun _ s' => exists c', touched E n k s c s' c' /\ fd c' = fd c /\ output c' = output c) s.
Proof.
  intros Hi Hk. unfold Schedule. apply wp_bind, (wp_get_conn k c); [done|]. destruct (scheduled c).
  - apply wp_ret. exists c. split; [|done]. split; [done|]. split; [apply frame_refl|done].
  - apply wp_bind. eapply (touch_wp E n k _ c); [done|done..|]. intros s1 (Hi1 & F1 & Hk1 & Hin1 & Hd1) _. apply wp_in_loop, wp_modify. exists (set_scheduled true c). split; [|done].
    pose proof (inv_posted cfg E n s1 (TPump k) (stopping_ (evloop s1)) Hi1 (lookup_lt_Some _ _ _ Hk1) eq_refl ltac:(done) ltac:(by left)) as Hp.
    split; [exact Hp|]. split; [|done]. eapply frame_trans; [exact F1|]. by apply frame_same.
Qed.

(** A continuation after an optional [Schedule]. *)
Lemma schedule_if_wp E n k c s (b : bool) (Q : unit -> impl -> Prop) : inv E n s -> sockets s !! k = Some c ->
  (forall s' c', touched E n k s c s' c' -> fd c' = fd c -> output c' = output c -> Q tt s') -> wp (if b then Schedule k else mret tt) Q s.
Proof.
  intros Hi Hk HQ. destruct b; [|apply wp_ret, (HQ s c); [split; [done|]; split; [apply frame_refl|done]|done..]].
  eapply wp_mono; [by eapply Schedule_wp|]. intros [] s' (c' & T & H1 & H2). by eapply HQ.
Qed.

Lemma pump_io_wp n k e c s : inv ∅ n s -> sockets s !! k = Some c -> 0 <= fd c -> zlen (Buffer.data (input c)) <= max_input cfg ->
  wp (pump_io cfg e k) (fun _ s' => inv ∅ n s' /\ frame (eq k) s s') s.
Proof.
  intros Hi Hk Hfd Hsm. unfold pump_io. assert (0 <= budget0) as Hb0 by done. apply wp_bind. eapply wp_mono; [apply (send_loop_wp ∅ n k (sends e) s s c); try done; apply frame_refl|].
  intros [b|] s1 (Hi1 & F1 & Hc1 & Hb); [|by apply wp_ret]. destruct (Hc1 ltac:(done)) as (c1 & Hk1 & Hfd1). apply wp_bind, (wp_get_conn k c1); [done|].
  assert (zlen (Buffer.data (input c1)) <= max_input cfg) as Hsm1.
  { destruct (f_input _ _ _ _ F1 k c1 Hk1) as (c0 & Hc0 & ?). simplify_eq. lia. }
  apply wp_bind. eapply schedule_if_wp; [done|done|]. intros s2 c2 (Hi2 & F2 & Hk2 & Hin2 & _) Hfd2 _.
  apply wp_bind. eapply wp_mono; [apply (recv_loop_wp n k (recvs e) s s2 c2); [done|done|lia|done|by rewrite Hin2|]|].
  { eapply frame_trans; [exact F1|by apply frame_zero]. }
  intros [b'|] s3 (Hi3 & F3 & Hc3 & Hb'); [|by apply wp_ret]. destruct (Hc3 ltac:(done)) as (c3 & Hk3 & Hfd3).
  apply wp_bind. eapply schedule_if_wp; [done|done|]. intros s4 c4 (Hi4 & F4 & Hk4 & _) _ _. apply wp_bind, (wp_get_conn k c4); [done|].
  assert (frame (eq k) s s4) as F by (eapply frame_trans; [exact F3|by apply frame_zero]). apply wp_in_loop.
  set (ev := Z.lor _ _). pose proof (v_loop _ _ _ _ Hi4) as L. destruct (Modify_Inv (modify_ok e) (token c4) ev (evloop s4) (l_inv _ _ _ _ L)) as (Hl & Hn & Ht & Hti & Hr).
  unfold wpx. destruct (Modify (modify_ok e) (token c4) ev (evloop s4)) as [l' [u|x| |]] eqn:Em; try done. cbn [fst snd] in *.
  assert (armed l' = armed (evloop s4)) as Ha by (unfold armed; by rewrite Hti). split; [|eapply frame_trans; [exact F|by apply frame_same]].
  assert (watches_ l' = watches_ (evloop s4) /\ stopping_ l' = stopping_ (evloop s4)) as [Hw Hst].
  { unfold Modify in Em. destruct (watches_ (evloop s4) !! token c4); [destruct (modify_ok e)|]; injection Em as <-; done. }
  eapply inv_quiet; [exact Hi4| |done|done|done|lia]. destruct L as [L1 L2 L3 L4 L5 L6]. split; rewrite ?Ha, ?Ht, ?Hn, ?Hw; done.
Qed.

Lemma pump_connect_wp n k e c s : inv ∅ n s -> sockets s !! k = Some c -> 0 <= fd c ->
  wp (pump_connect cfg e k) (fun go s' => inv ∅ n s' /\ frame (eq k) s s' /\
    (go = true -> exists c', sockets s' !! k = Some c' /\ 0 <= fd c' /\ input c' = input c)) s.
Proof.
  intros Hi Hk Hfd. unfold pump_connect. apply wp_bind, (wp_get_conn k c); [done|].
  assert (inv ∅ n s /\ frame (eq k) s s /\ exists c', sockets s !! k = Some c' /\ 0 <= fd c' /\ input c' = input c) as (_ & Fr & Hc) by (split; [done|]; split; [apply frame_refl|by exists c]).
  destruct (connecting c); [|by apply wp_ret]. destruct (so_error e).
  - apply wp_bind. eapply wp_mono; [by eapply (Disconnect_wp cfg ok (B := max_input cfg))|]. intros u s1 (Hi1 & F1 & _). by apply wp_ret.
  - destruct (has_peer e); [|by apply wp_ret]. apply wp_bind. eapply (touch_wp ∅ n k _ c); [done|done..|]. intros s1 (Hi1 & F1 & Hk1 & Hin1 & _) Hl1.
    assert (connect_timer (set_connecting false c) = connect_timer c) as Hct by done.
    apply wp_bind, wp_in_loop, wp_Cancel; [apply Hi1|]. apply wp_ret. split; [|split; [eapply frame_trans; [by apply frame_zero|by apply frame_same]|]].
    + destruct (Cancel_spec (connect_timer c) (evloop s1) (l_inv _ _ _ _ (v_loop _ _ _ _ Hi1))) as (_ & _ & Ha & Hn). destruct (Cancel_rest (connect_timer c) (evloop s1)) as (Ht & Hst & _).
      pose proof (conn_inv_at _ _ _ _ _ Hi1 Hk1) as C1. destruct Hi1 as [V1 V2 V3 V4 V5 V6 V7 V8 V9 V10 V11 V12 V13 V14 V15 V16].
      split; cbn [upd_loop evloop sockets dials requests store waiting admitted queued submitted completed closing draining past]; rewrite ?Ha, ?Ht, ?Hst, ?Hn; try done.
      * by apply cancel_loop.
      * apply cancel_table; [done|]. intros x Hx. exists k. by apply (c_timer _ _ _ _ _ _ _ C1).
      * intros j cj Hj. by apply cancel_conn, V3.
    + intros _. by exists (set_connecting false c).
Qed.

Definition small (s : impl) : Prop := forall k c, sockets s !! k = Some c -> zlen (Buffer.data (input c)) <= max_input cfg.
Lemma small_frame K s s' : small s -> frame K s s' -> small s'.
Proof. intros Hs F k c' Hk. destruct (f_input _ _ _ _ F k c' Hk) as (c & Hc & ?). specialize (Hs k c Hc). lia. Qed.

Lemma Pump_wp n k c s : inv ∅ n s -> small s -> sockets s !! k = Some c -> wp (Pump cfg k) (fun _ s' => inv ∅ n s' /\ frame (eq k) s s') s.
Proof.
  intros Hi Hsm Hk. unfold Pump. apply wp_bind, (wp_get_conn k c); [done|]. destruct (Z.ltb_spec (fd c) 0); [apply wp_ret; split; [done|apply frame_refl]|].
  apply wp_bind. unfold pop_pump, wpx at 1. set (s1 := upd_env _ _ s). assert (inv ∅ n s1) as Hi1 by (eapply inv_env; [exact Hi|apply (l_next _ _ _ _ (v_loop _ _ _ _ Hi))]).
  assert (frame (eq k) s s1) as F1 by (by apply frame_same). set (e := hd _ _). apply wp_bind. eapply wp_mono; [apply (pump_connect_wp n k e c s1); [done|done|lia]|].
  intros go s2 (Hi2 & F2 & Hgo). pose proof (frame_trans _ _ _ _ _ F1 F2) as F. destruct go; [|by apply wp_ret]. destruct (Hgo eq_refl) as (c2 & Hk2 & Hfd2 & Hin2).
  eapply wp_mono; [apply (pump_io_wp n k e c2 s2); [done|done|done|]|].
  - rewrite Hin2. by apply (Hsm k).
  - intros u s3 [Hi3 F3]. split; [done|by eapply frame_trans].
Qed.
End Run.
