(* ===== verification/AsyncTransportStable.v ===== *)
(** Properties of an [AsyncTransport] that every callback keeps on any path, also one that throws: the
    functions are walked once, for any property with the laws of [Stable].  Two instances: a drained
    transport has stopped its reactor, so that the join of the destructor returns; and what a
    connection sends for a request is what was submitted for it. *)
From S2P Require Import Prelude Buffer Executor EventLoop AsyncTransport AsyncTransportInv.
Import EventLoop AsyncTransport.

Create HintDb stable.

#[export] Hint Resolve keeps_ret keeps_lift keeps_throw keeps_get : stable.

(** * Stable properties *)

(** What [J] must allow: [G] is what it knows of a request, [GC] of a connection. *)
Class Stable (J : impl -> Prop) (G : Request -> Prop) (GC : Connection -> Prop) := {
  st_request : forall s a r, J s -> store s !! a = Some r -> G r;
  st_connection : forall s k c, J s -> sockets s !! k = Some c -> GC c;
  st_loop : forall s l, J s -> (stopping_ (evloop s) = true -> stopping_ l = true) -> J (upd_loop l s);
  st_conn : forall s k c c', J s -> sockets s !! k = Some c -> dispatched (session c') = dispatched (session c) \/ dispatched (session c') = [] ->
    J (upd_sockets (<[k := c']> (sockets s)) s);
  st_push : forall s k c a r o, J s -> sockets s !! k = Some c -> G r -> J (upd_sockets (<[k := pushed a (id r) (req_bytes r) o c]> (sockets s)) s);
  st_store : forall s a r r', J s -> store s !! a = Some r -> ident r' = ident r -> J (upd_store (<[a := r']> (store s)) s);
  st_waiting : forall s w, J s -> J (upd_waiting w s);
  st_env : forall s ps ds, J s -> J (upd_env ps ds s);
  st_archive : forall s c, J s -> GC c -> J (archive (session c) s);
  st_insert : forall s i a, J s -> J (upd_requests (if bool_decide (is_Some (requests s !! i)) then requests s else <[i := a]> (requests s)) s)
}.

(** The reactor's operations never clear [stopping_]. *)
Definition steady {A} (m : M (loop task callback) A) : Prop := forall l, stopping_ l = true -> stopping_ (m l).1 = true.
Lemma steady_Remove t : steady (Remove t).
Proof. intros l Hl. unfold Remove. by destruct (_ !! t). Qed.
Lemma steady_Cancel i : steady (Cancel i).
Proof. intros l Hl. unfold Cancel. destruct (_ !! i); [|done]. by destruct (erase _ _ _). Qed.
Lemma steady_Modify b t ev : steady (Modify b t ev).
Proof. intros l Hl. unfold Modify. destruct (_ !! t); [|done]. by destruct b. Qed.
Lemma steady_Add b f ev k : steady (Add b f ev k).
Proof. intros l Hl. unfold Add. by destruct b. Qed.
Lemma steady_At d t : steady (At d t).
Proof. by intros l. Qed.
Lemma steady_Post t : steady (Post t).
Proof. by intros l. Qed.
Lemma steady_Stop t : steady (Stop t).
Proof. by intros l. Qed.
#[export] Hint Resolve steady_Remove steady_Cancel steady_Modify steady_Add steady_At steady_Post steady_Stop : stable.

Section Stable.
Context (cfg : config) {J : impl -> Prop} {G : Request -> Prop} {GC : Connection -> Prop} {stable : Stable J G GC}.
Abbreviation keeps := (keeps J).

Lemma keeps_loop {A} (m : M (loop task callback) A) : steady m -> keeps (in_loop m).
Proof.
  intros H s Hs. unfold in_loop. specialize (H (evloop s)). destruct (m (evloop s)) as [l [a|e| |]]; try done; by apply st_loop.
Qed.
Lemma keeps_conn k f : (forall c, dispatched (session (f c)) = dispatched (session c) \/ dispatched (session (f c)) = []) -> keeps (on_conn k f).
Proof. intros H s Hs. unfold on_conn. destruct (sockets s !! k) as [c|] eqn:E; [|done]. by apply (st_conn s k c). Qed.
Lemma keeps_push k a r o : G r -> keeps (on_conn k (pushed a (id r) (req_bytes r) o)).
Proof. intros H s Hs. unfold on_conn. destruct (sockets s !! k) as [c|] eqn:E; [|done]. by apply st_push. Qed.
Lemma keeps_with_conn {A} k (f : Connection -> M impl A) : (forall c, GC c -> keeps (f c)) -> keeps (mbind f (get_conn k)).
Proof. intros H s Hs. unfold mbind, M_bind, get_conn. destruct (sockets s !! k) as [c|] eqn:E; [|done]. apply H; [by eapply st_connection|done]. Qed.
Lemma keeps_with_request {A} a (f : Request -> M impl A) : (forall r, G r -> keeps (f r)) -> keeps (mbind f (get_request a)).
Proof. intros H s Hs. unfold mbind, M_bind, get_request. destruct (store s !! a) as [r|] eqn:E; [|done]. apply H; [by eapply st_request|done]. Qed.
Lemma keeps_request a f : (forall r, ident (f r) = ident r) -> keeps (on_request a f).
Proof. intros H s Hs. unfold on_request. destruct (store s !! a) as [r|] eqn:E; [|done]. by apply (st_store s a r). Qed.
Lemma keeps_pop_pump : keeps pop_pump.
Proof. intros s Hs. by apply st_env. Qed.
Lemma keeps_pop_dial : keeps pop_dial.
Proof. intros s Hs. by apply st_env. Qed.
Lemma keeps_waiting f : keeps (modify (fun s => upd_waiting (f s) s)).
Proof. intros s Hs. by apply st_waiting. Qed.
Hint Resolve keeps_pop_pump keeps_pop_dial keeps_waiting : stable.

(** Walks a function, splitting its conditions and matches. *)
Ltac keeping :=
  repeat (first [ match goal with |- forall _, _ => intro end | solve [auto with stable]
                | apply keeps_with_conn | apply keeps_with_request | apply keeps_bind | apply keeps_try
                | apply keeps_loop; solve [auto with stable] | apply keeps_request; done | apply keeps_push; assumption
                | apply keeps_conn; (by left) || (by right)
                | match goal with |- Prelude.keeps _ (match ?x with _ => _ end) => destruct x end ]).

Lemma keeps_finish_all finish code l : (forall i b e, keeps (finish i b e)) -> keeps (finish_all finish code l).
Proof. intros H. induction l as [|i l IH]; cbn [finish_all]; keeping. Qed.
Lemma keeps_Disconnect_with finish k code : (forall i b e, keeps (finish i b e)) -> keeps (Disconnect_with cfg finish k code).
Proof.
  intros H. unfold Disconnect_with. keeping; [|by apply keeps_finish_all]. apply keeps_modify. intros s Hs. by apply st_archive.
Qed.

Context (keeps_Finish_fuel : forall fuel i b e, keeps (Finish_fuel cfg fuel i b e)).
Lemma keeps_Finish i b e : keeps (Finish cfg i b e).
Proof. apply (keeps_run J (fun s => Finish_fuel cfg (S (size (requests s))) i b e)). intros s. apply keeps_Finish_fuel. Qed.
Lemma keeps_Disconnect k code : keeps (Disconnect cfg k code).
Proof. apply (keeps_run J (fun s => Disconnect_with cfg (Finish_fuel cfg (S (size (requests s)))) k code)). intros s. by apply keeps_Disconnect_with. Qed.
Hint Resolve keeps_Finish keeps_Disconnect : stable.
Lemma keeps_Connect k : keeps (Connect cfg k).
Proof. unfold Connect. keeping. Qed.
Lemma keeps_Schedule k : keeps (Schedule k).
Proof. unfold Schedule. keeping. Qed.
Lemma keeps_send_loop k l budget : keeps (send_loop cfg k l budget).
Proof. revert budget. induction l as [|x l IH]; intros budget; cbn [send_loop]; cbv zeta; keeping. Qed.
Lemma keeps_find k i : keeps (find_request k i).
Proof. unfold find_request. keeping. Qed.
Hint Resolve keeps_Connect keeps_Schedule keeps_send_loop keeps_find : stable.
Lemma keeps_frame_loop fuel k : keeps (frame_loop cfg fuel k).
Proof. induction fuel as [|fuel IH]; cbn [frame_loop]; keeping. Qed.
Hint Resolve keeps_frame_loop : stable.
Lemma keeps_recv_loop k l budget : keeps (recv_loop cfg k l budget).
Proof. revert budget. induction l as [|x l IH]; intros budget; cbn [recv_loop]; cbv zeta; keeping. Qed.
Hint Resolve keeps_recv_loop : stable.
Lemma keeps_Pump k : keeps (Pump cfg k).
Proof. unfold Pump, pump_connect, pump_io. keeping. Qed.
Hint Resolve keeps_Pump : stable.
Lemma keeps_assign k a : keeps (assign cfg k a).
Proof. unfold assign. keeping. Qed.
Hint Resolve keeps_assign : stable.
Lemma keeps_dispatch_slot fuel k : keeps (dispatch_slot cfg fuel k).
Proof. induction fuel as [|fuel IH]; cbn [dispatch_slot]; keeping. Qed.
Hint Resolve keeps_dispatch_slot : stable.
Lemma keeps_dispatch_from ks : keeps (dispatch_from cfg ks).
Proof. induction ks as [|k ks IH]; cbn [dispatch_from]; keeping. Qed.
Lemma keeps_Dispatch : keeps (Dispatch cfg).
Proof. apply (keeps_run J (fun s => dispatch_from cfg (seq 0 (length (sockets s))))). intros s. apply keeps_dispatch_from. Qed.
Hint Resolve keeps_Dispatch : stable.
Lemma keeps_notify k : keeps (notify cfg k).
Proof. unfold notify. keeping. Qed.
Lemma keeps_exec t : t <> TDrain -> keeps (exec cfg t).
Proof.
  intros Ht. destruct t as [a d|i|k|k| |]; cbn [exec]; [unfold on_submit|unfold on_timeout| | |done|]; keeping.
  apply keeps_modify. intros s Hs. by apply st_insert.
Qed.
End Stable.

(** ** Steps of the reactor *)

Lemma step_keeps cfg J G GC {stable : Stable J G GC} n s s' : (forall fuel i b e, keeps J (Finish_fuel cfg fuel i b e)) -> keeps J (exec cfg TDrain) ->
  (forall now i bs v, s' = Submit cfg now i bs v s -> J s') -> J (destroy s) -> J s -> step cfg n s s' -> J s'.
Proof.
  intros Hf Hdr Hsub Hde Hs Hstep. assert (forall t, keeps J (exec cfg t)) as Hexec by (intros []; try exact Hdr; by apply (keeps_exec cfg)).
  destruct Hstep as [s now i bs v Hi|s|s ps ds t ts s' Ht Hx|s ps ds tk x s' Ht Hx|s ps ds t ts s' Ht Hx].
  - by eapply Hsub.
  - done.
  - assert (J (upd_env ps ds (upd_loop (pop_task (evloop s)) s))) as H1 by (by apply st_env, st_loop).
    pose proof (Hexec t _ H1) as Hk. by rewrite Hx in Hk.
  - assert (J (upd_env ps ds s)) as H1 by (by apply st_env). pose proof (keeps_notify cfg Hf (w_callback x) _ H1) as Hk. by rewrite Hx in Hk.
  - assert (J (upd_env ps ds (upd_loop (pop_timer t (evloop s)).1 s))) as H1 by (by apply st_env, st_loop).
    pose proof (Hexec t.2.2 _ H1) as Hk. by rewrite Hx in Hk.
Qed.

(** * The end of the reactor *)

(** A drained transport has stopped its reactor. *)
Definition stopped (s : impl) : Prop := draining s = true -> requests s = ∅ -> stopping_ (evloop s) = true.

#[export] Instance stopped_stable : Stable stopped (fun _ => True) (fun _ => True).
Proof.
  split; try done; unfold stopped; cbn; [naive_solver|]. intros s i a Hs Hd. case_bool_decide; [by apply Hs|]. by intros ?%insert_non_empty.
Qed.

(** [m] does not throw. *)
Definition calm {A} (m : M impl A) : Prop := forall s, match m s with (_, Throw _) => False | _ => True end.
Lemma calm_ret {A} (a : A) : calm (mret a).
Proof. done. Qed.
Lemma calm_bind {A B} (c : M impl A) (f : A -> M impl B) : calm c -> (forall a, calm (f a)) -> calm (mbind f c).
Proof. intros Hc Hf s. specialize (Hc s). unfold mbind, M_bind. destruct (c s) as [s' [a|e| |]]; try done. by apply Hf. Qed.
Lemma calm_loop {A} (m : M (loop task callback) A) : (forall l e, (m l).2 <> Throw e) -> calm (in_loop m).
Proof. intros H s. unfold in_loop. specialize (H (evloop s)). destruct (m (evloop s)) as [l [a|e| |]]; try done. by apply (H e). Qed.
Lemma calm_conn k f : calm (on_conn k f).
Proof. intros s. unfold on_conn. by destruct (sockets s !! k). Qed.
Lemma calm_get_conn k : calm (get_conn k).
Proof. intros s. unfold get_conn. by destruct (sockets s !! k). Qed.
Lemma calm_get_request a : calm (get_request a).
Proof. intros s. unfold get_request. by destruct (store s !! a). Qed.
Lemma calm_Cancel i : calm (in_loop (Cancel i)).
Proof. apply calm_loop. intros l e. unfold Cancel. destruct (_ !! i); [|done]. by destruct (erase _ _ _). Qed.
Lemma calm_Remove i : calm (in_loop (Remove i)).
Proof. apply calm_loop. intros l e. unfold Remove. by destruct (_ !! i). Qed.
Lemma calm_modify f : calm (modify f).
Proof. done. Qed.
Lemma calm_get : calm get_state.
Proof. done. Qed.
#[export] Hint Resolve calm_ret calm_conn calm_get_conn calm_get_request calm_Cancel calm_Remove calm_modify calm_get : stable.

Ltac calming :=
  repeat (first [ match goal with |- forall _, _ => intro end | solve [auto with stable] | apply calm_bind
                | match goal with |- calm (match ?x with _ => _ end) => destruct x end ]).

(** Whatever came before, the check at the end of [Finish] establishes [stopped]. *)
Definition ends {A} (m : M impl A) : Prop := forall s, match m s with (s', Ret _) => stopped s' | (_, Throw _) => False | _ => True end.
Lemma ends_bind {A B} (c : M impl A) (f : A -> M impl B) : calm c -> (forall a, ends (f a)) -> ends (mbind f c).
Proof. intros Hc Hf s. specialize (Hc s). unfold mbind, M_bind. destruct (c s) as [s' [a|e| |]]; try done. by apply Hf. Qed.
Lemma ends_check : ends (s ← get_state ; if draining s && bool_decide (requests s = ∅) then in_loop (Stop TNothing) else mret tt).
Proof.
  intros s. unfold mbind, M_bind. cbn. destruct (draining s && _) eqn:E; [by intros ? ?|]. intros Hd Hq. cbn in *. by rewrite Hd, bool_decide_eq_true_2 in E.
Qed.
Lemma keeps_ends {A} (m : M impl A) : ends m -> keeps stopped m.
Proof. intros H s _. specialize (H s). by destruct (m s) as [s' [a|e| |]]. Qed.

Section Stopped.
Context (cfg : config).

Lemma calm_finish_all finish code l : (forall i b e, calm (finish i b e)) -> calm (finish_all finish code l).
Proof. intros H. induction l as [|i l IH]; cbn [finish_all]; calming. Qed.
Lemma calm_Disconnect_with finish k code : (forall i b e, calm (finish i b e)) -> calm (Disconnect_with cfg finish k code).
Proof. intros H. unfold Disconnect_with. calming. by apply calm_finish_all. Qed.
Lemma calm_Finish fuel i b e : calm (Finish_fuel cfg fuel i b e).
Proof. revert i b e. induction fuel as [|fuel IH]; intros i b e; cbn [Finish_fuel]; [done|]. calming. by apply calm_finish_all. Qed.

Lemma stopped_Finish fuel i b e : keeps stopped (Finish_fuel cfg fuel i b e).
Proof.
  destruct fuel as [|fuel]; [done|]. cbn [Finish_fuel]. apply keeps_bind; [apply keeps_get|]. intros s. destruct (requests s !! i) as [a|]; [|apply keeps_ret].
  apply keeps_ends. repeat first [apply ends_check|apply ends_bind; [calming; apply calm_finish_all, calm_Finish|intro]].
Qed.
Lemma stopped_drain : keeps stopped (exec cfg TDrain).
Proof. apply keeps_ends, ends_bind; [done|]. intros _ s. unfold mbind, M_bind. cbn. case_bool_decide; by intros ? ?. Qed.

Lemma reachable_stopped port va k n s : reachable cfg port va k n s -> stopped s.
Proof.
  induction 1 as [s Hm|n j s s' _ IH Hs]; [unfold make in Hm; destruct (_ || _); [done|]; by injection Hm as <-|].
  eapply (step_keeps cfg stopped _ _); [apply stopped_Finish|apply stopped_drain| |exact IH|exact IH|exact Hs].
  intros now i bs v ->. unfold Submit. cbv zeta. destruct (_ || _ || _); exact IH.
Qed.
End Stopped.

(** * What is sent is what was submitted *)

(** The bytes of every request held, and those put on any connection, past or present, satisfy [P]. *)
Definition requested (P : Z -> bytes -> Prop) (s : impl) : Prop :=
  map_Forall (fun _ r => P (id r) (req_bytes r)) (store s) /\ Forall (fun x => Forall (fun y => P y.1 y.2) (dispatched x)) (sessions s).

Section Requested.
Context (cfg : config) (P : Z -> bytes -> Prop).

#[export] Instance requested_stable : Stable (requested P) (fun r => P (id r) (req_bytes r)) (fun c => Forall (fun y => P y.1 y.2) (dispatched (session c))).
Proof.
  assert (forall s k c c', requested P s -> sockets s !! k = Some c -> Forall (fun y => P y.1 y.2) (dispatched (session c')) ->
    requested P (upd_sockets (<[k := c']> (sockets s)) s)) as Hconn.
  { intros s k c c' [H1 H2] Hk Hc. split; [done|]. unfold sessions in *. cbn. apply Forall_app in H2 as [H2 H3]. apply Forall_app. split; [done|].
    rewrite list_fmap_insert. by apply Forall_insert. }
  assert (forall s k c, requested P s -> sockets s !! k = Some c -> Forall (fun y => P y.1 y.2) (dispatched (session c))) as Hget.
  { intros s k c [_ H2] Hk. apply Forall_app in H2 as [_ H2]. eapply (Forall_lookup_1 _ _ k) in H2; [exact H2|]. by rewrite list_lookup_fmap, Hk. }
  split; try done.
  - intros s a r [H1 _] Hr. exact (H1 a r Hr).
  - intros s k c c' Hs Hk Hd. eapply Hconn; [done|exact Hk|]. destruct Hd as [-> | ->]; [by eapply Hget|constructor].
  - intros s k c a r o Hs Hk Hr. eapply Hconn; [done|exact Hk|]. cbn. apply Forall_app. split; [by eapply Hget|by apply Forall_singleton].
  - intros s a r r' [H1 H2] Hr Hid. split; [|done]. apply map_Forall_insert_2; [|done]. injection Hid as -> ->. exact (H1 a r Hr).
  - intros s c [H1 H2] Hc. split; [done|]. unfold sessions in *. cbn. apply Forall_app in H2 as [H2 H3]. rewrite !Forall_app, Forall_singleton. done.
Qed.

Lemma requested_Finish fuel i b e : keeps (requested P) (Finish_fuel cfg fuel i b e).
Proof.
  revert i b e. induction fuel as [|fuel IH]; intros i b e; cbn [Finish_fuel]; [done|].
  apply keeps_bind; [apply keeps_get|]. intros s. destruct (requests s !! i) as [a|]; [|apply keeps_ret]. apply keeps_with_request. intros r _.
  apply keeps_bind; [by intros s'|]. intros _. apply keeps_bind; [apply keeps_loop, steady_Cancel|]. intros _.
  apply keeps_bind; [destruct (slot r); [apply keeps_conn; by left|by intros s']|]. intros _. apply keeps_bind; [by intros s'|]. intros _.
  apply keeps_bind; [by intros s'|]. intros _. apply keeps_bind; [|intros _; apply keeps_bind; [apply keeps_get|]; intros s'; destruct (_ && _); [by intros s2|apply keeps_ret]].
  destruct (slot r); [|apply keeps_ret]. destruct (complete r b e); [apply keeps_ret|by apply (keeps_Disconnect_with cfg)].
Qed.

Lemma requested_Submit now i bs v s : P i bs -> requested P s -> requested P (Submit cfg now i bs v s).
Proof.
  intros HP Hs. unfold Submit. cbv zeta. destruct (_ || _ || _); [exact Hs|]. destruct Hs as [H1 H2]. split; [|exact H2]. by apply map_Forall_insert_2.
Qed.
Lemma requested_step n s s' : (forall now i bs v, s' = Submit cfg now i bs v s -> P i bs) -> requested P s -> step cfg n s s' -> requested P s'.
Proof.
  intros Hsub Hs Hstep. eapply (step_keeps cfg (requested P) _ _); [apply requested_Finish|intros s0 H0; cbn; unfold mbind, M_bind; cbn; by destruct (bool_decide _)| |exact Hs|exact Hs|exact Hstep].
  intros now i bs v ->. apply requested_Submit; [by eapply Hsub|done].
Qed.
End Requested.

Lemma requested_mono (P Q : Z -> bytes -> Prop) s : (forall i b, P i b -> Q i b) -> requested P s -> requested Q s.
Proof.
  intros HPQ [H1 H2]. split; [intros a r Hr; by apply HPQ, (H1 a)|]. eapply Forall_impl; [exact H2|]. intros x Hx. eapply Forall_impl; [exact Hx|]. intros y. apply HPQ.
Qed.
