(* ===== verification/AsyncTransportSteps.v ===== *)
(** [Dispatch], the callbacks and the clients of [AsyncTransport]: every step keeps the invariant, no
    request waits while a connection has room, and every callback returns. *)
From S2P Require Import Prelude Buffer Executor EventLoop AsyncTransport AsyncTransportInv AsyncTransportRun.
Import EventLoop AsyncTransport.

Section Steps.
Context (cfg : config) (ok : config_ok cfg).
Abbreviation inv := (inv cfg).
Abbreviation conn_inv := (conn_inv cfg).
Abbreviation frame := (frame (max_input cfg)).
Abbreviation has_ids := (AsyncTransport.has_ids cfg).

(** * Putting a request on a connection *)

Lemma pushed_output (out : list (Z * bytes)) x n w d : 0 <= n <= zlen (hd [] out.*2) -> w ++ drop (Z.to_nat n) (concat out.*2) = d ->
  w ++ drop (Z.to_nat n) (concat (out ++ [x]).*2) = d ++ x.2 /\ 0 <= n <= zlen (hd [] (out ++ [x]).*2).
Proof.
  intros Hn <-. rewrite fmap_app, concat_app. cbn. rewrite app_nil_r. unfold zlen in *. destruct out as [|y out]; cbn in *.
  - replace n with 0 by lia. cbn. rewrite app_nil_r. split; [done|]. lia.
  - split; [|lia]. rewrite drop_app_le by (rewrite length_app; lia). by rewrite app_assoc.
Qed.

Lemma room_small E n s k c : inv E n s -> E = ∅ -> sockets s !! k = Some c -> has_room cfg c = true ->
  Z.of_nat (size (on (requests s) (store s) k ∪ retired c)) < limit cfg.
Proof.
  intros Hi -> Hk Hr. pose proof (conn_inv_at _ _ _ _ _ _ Hi Hk) as C. pose proof (c_limit _ _ _ _ _ _ _ C) as Hl. pose proof (limit_bounds _ ok).
  assert (on (requests s) (store s) k ## retired c) as Hd by (intros i Hon Hret; by apply (c_linked _ _ _ _ _ _ _ C) in Hon as [? _]; [|apply not_elem_of_empty]).
  rewrite size_union in * by done. unfold has_room in Hr. rewrite (c_inflight _ _ _ _ _ _ _ C) in Hr. rewrite u64_small in Hr by lia. zify_bools. lia.
Qed.

Definition assigned (k : nat) (a : ref) (w : list ref) (r : Request) (c : Connection) (s : impl) : impl :=
  upd_sockets (<[k := pushed a (id r) (req_bytes r) (negb has_ids) c]> (sockets s)) (upd_store (<[a := set_slot k r]> (store s)) (upd_waiting w s)).

Section Assign.
Context (n : Z) (s : impl) (k : nat) (a : ref) (w : list ref) (r : Request) (c : Connection).
Context (Hi : inv ∅ n s) (Hw : waiting s = a :: w) (Hq : requests s !! id r = Some a) (Hr : store s !! a = Some r) (Hsl : slot r = None).
Context (Hk : sockets s !! k = Some c) (Hroom : has_room cfg c = true).

Let st := <[a := set_slot k r]> (store s).

Lemma assigned_names : ident <$> st = ident <$> store s.
Proof. unfold st. rewrite fmap_insert. apply insert_id. rewrite lookup_fmap, Hr. done. Qed.

Lemma assigned_lookup b rb : st !! b = Some rb -> exists r0, store s !! b = Some r0 /\ id rb = id r0 /\ timer rb = timer r0 /\ deadline rb = deadline r0 /\
  ((b = a /\ slot rb = Some k) \/ (b <> a /\ rb = r0)).
Proof. unfold st. intros [[<- <-]|[Hne Hb]]%lookup_insert_Some; [exists r|exists rb]; split_and!; auto. Qed.

Lemma assigned_on j : on (requests s) st j = if decide (j = k) then {[id r]} ∪ on (requests s) (store s) k else on (requests s) (store s) j.
Proof.
  pose proof (v_table _ _ _ _ Hi) as T. apply set_eq. intros i. rewrite elem_of_on. split.
  - intros (b & rb & Hqi & Hb & Hs). destruct (assigned_lookup b rb Hb) as (r0 & H0 & _ & _ & _ & [[-> Hs']|[Hne ->]]).
    + assert (j = k) as -> by congruence. rewrite decide_True by done. apply elem_of_union. left. apply elem_of_singleton. by eapply live_inj.
    + assert (i ∈ on (requests s) (store s) j) as Hon by (apply elem_of_on; eauto). destruct (decide (j = k)) as [->|]; [apply elem_of_union; by right|done].
  - intros Hin. assert (i ∈ on (requests s) (store s) j \/ j = k /\ i = id r) as [(b & rb & Hqi & Hb & Hs)%elem_of_on|[-> ->]].
    { destruct (decide (j = k)) as [->|]; [|by left]. apply elem_of_union in Hin as [Hin|Hin]; [right; by apply elem_of_singleton in Hin|by left]. }
    + exists b, rb. split; [done|]. split; [|done]. unfold st. rewrite lookup_insert_ne; [done|]. intros <-. congruence.
    + exists a, (set_slot k r). split; [done|]. split; [apply lookup_insert_eq|done].
Qed.

Lemma assigned_table : table_inv ∅ (armed (evloop s)) (requests s) st w (length (sockets s)).
Proof.
  pose proof (v_table _ _ _ _ Hi) as T. pose proof T as [T1 T2 T3 T4 T5 T6]. rewrite Hw in T4, T5. apply NoDup_cons in T4 as [Hnw T4]. split.
  - intros i b Hqi. destruct (T1 i b Hqi) as (r0 & H0 & Hid & Ha). unfold st. destruct (decide (b = a)) as [->|Hne].
    + exists (set_slot k r). rewrite lookup_insert_eq. simplify_eq. done.
    + exists r0. rewrite lookup_insert_ne by done. done.
  - intros b b' rb rb' Hb Hb' He. destruct (assigned_lookup _ _ Hb) as (r0 & H0 & E1 & _). destruct (assigned_lookup _ _ Hb') as (r0' & H0' & E1' & _).
    apply (T2 b b' r0 r0'); [done|done|congruence].
  - intros b rb x Hb. destruct (assigned_lookup _ _ Hb) as (r0 & H0 & -> & -> & _). by eapply T3.
  - done.
  - intros b. split.
    + intros Hb. assert (b <> a) as Hne by (by intros ->). destruct (proj1 (T5 b)) as (i & rb & Hqi & Hrb & Hs); [by right|].
      exists i, rb. split; [done|]. split; [|done]. unfold st. by rewrite lookup_insert_ne.
    + intros (i & rb & Hqi & Hrb & Hs). destruct (assigned_lookup b rb Hrb) as (r0 & H0 & _ & _ & _ & [[_ ?]|[Hne ->]]); [congruence|].
      assert (b ∈ a :: w) as Hin by (apply T5; eauto). by apply elem_of_cons in Hin as [->|?].
  - intros i b rb j Hqi Hb Hs. destruct (assigned_lookup b rb Hb) as (r0 & H0 & _ & _ & _ & [[-> Hs']|[Hne ->]]); [|by eapply T6].
    assert (j = k) as -> by congruence. by eapply lookup_lt_Some.
Qed.

Lemma not_dispatched j cj : sockets s !! j = Some cj -> id r ∉ (dispatched (session cj)).*1.
Proof. intros Hj Hin. destruct (v_dispatched _ _ _ _ Hi j cj (id r) Hj Hin) as (_ & _ & Hs). by apply (Hs a r Hq Hr). Qed.

Lemma assigned_conn : conn_inv ∅ (armed (evloop s)) (requests s) st k (pushed a (id r) (req_bytes r) (negb has_ids) c).
Proof.
  pose proof (conn_inv_at _ _ _ _ _ _ Hi Hk) as C. pose proof (room_small _ _ _ _ _ Hi eq_refl Hk Hroom) as Hlt. pose proof (not_dispatched k c Hk) as Hnd.
  pose proof (on_limit _ _ _ _ _ _ _ C) as Hol. pose proof (limit_bounds _ ok).
  assert (id r ∉ on (requests s) (store s) k) as Hnon by (intros (? & ? & ? & ? & ?)%elem_of_on; congruence).
  destruct C as [C1 C2 C3 C4 C5 C6 C7 C8 C9 C10 C11]. set (S := on (requests s) (store s) k) in *.
  split; cbn [pushed inflight retired connect_timer input session output sent order fd stream answers wire dispatched]; rewrite ?assigned_on, ?decide_True by done; fold S; try done.
  - rewrite size_union by (clear -Hnon; set_solver). rewrite size_singleton, C1. rewrite u64_small; [lia|]. assert (Z.of_nat (size S) <= Z.of_nat (size (S ∪ retired c))) by (apply inj_le, subseteq_size, union_subseteq_l). lia.
  - rewrite <-union_assoc_L. assert (size ({[id r]} ∪ (S ∪ retired c)) <= 1 + size (S ∪ retired c))%nat; [|lia].
    rewrite size_union_alt, size_singleton. by apply Nat.add_le_mono_l, subseteq_size, subseteq_difference_l.
  - destruct C6 as (out & Hout & Hwire & Hsent). exists (out ++ [ident r]). rewrite assigned_names. split.
    + apply Forall2_app; [done|]. constructor; [|constructor]. by rewrite lookup_fmap, Hr.
    + destruct (pushed_output out (ident r) (sent c) _ _ Hsent Hwire) as [Hp1 Hp2]. rewrite Hp1. split; [|done]. by rewrite fmap_app, concat_app; cbn; rewrite app_nil_r.
  - unfold paired in *. cbn. rewrite fmap_app. destruct (AsyncTransport.ids cfg) as [f|]; [|by apply prefix_app_r].
    eapply Forall_impl; [exact C8|]. intros y [? ?]. split; [done|]. apply elem_of_app. by left.
  - rewrite fmap_app. destruct has_ids; cbn [negb]; destruct C9 as [C9 C9']; (split; [|try done]); [done| |by rewrite <-C9, app_assoc].
    intros i Hri. apply elem_of_app. left. by apply C9'.
  - rewrite fmap_app. intros i Hon _. apply elem_of_union in Hon as [->%elem_of_singleton|Hon].
    + split; [intros Hret|].
      * apply Hnd. destruct has_ids; destruct C9 as [_ C9]; [by apply C9|]. rewrite C9 in Hret. by apply not_elem_of_empty in Hret.
      * destruct has_ids; cbn [negb]; apply elem_of_app; right; by apply list_elem_of_singleton.
    + destruct (C10 i Hon) as [? Hin]; [apply not_elem_of_empty|]. split; [done|]. destruct has_ids; cbn [negb]; apply elem_of_app; by left.
Qed.

Lemma assigned_inv : inv ∅ n (assigned k a w r c s).
Proof.
  pose proof assigned_table as T'. pose proof assigned_conn as C'. pose proof assigned_names as Hn. pose proof assigned_lookup as Hlk. pose proof not_dispatched as Hnd.
  pose proof (v_table _ _ _ _ Hi) as T0. pose proof (v_history _ _ _ _ Hi) as H0. assert (id r ∈ submitted s) as Hsub by (by eapply (v_store _ _ _ _ Hi)).
  destruct Hi as [V1 V2 V3 V4 V5 V6 V7 V8 V9 V10 V11 V12 V13 V14 V15 V16].
  split; cbn [assigned upd_sockets upd_store upd_waiting evloop sockets dials requests store waiting admitted queued submitted completed closing draining past];
    fold st; rewrite ?length_insert, ?Hn; try done.
  - intros j cj Hj. apply list_lookup_insert_Some in Hj as [(<- & <- & _)|[Hne Hj]]; [done|]. destruct (V3 j cj Hj) as [C1 C2 C3 C4 C5 C6 C7 C8 C9 C10 C11].
    split; rewrite ?Hn, ?assigned_on, ?decide_False by done; done.
  - intros b d Hb. destruct (V4 b d Hb) as (rb & Hrb & Hs & Ht & Hd). exists rb. split; [|done]. unfold st. rewrite lookup_insert_ne; [done|]. intros <-.
    assert (id r ∈ posted_ids (ident <$> store s) (tasks_ (evloop s))) as Hp.
    { apply list_elem_of_omap. exists (a, d). split; [done|]. cbn. by rewrite lookup_fmap, Hr. }
    apply (h_apart _ _ _ _ V9) in Hp. congruence.
  - intros b rb Hb. destruct (Hlk b rb Hb) as (r0 & Hr0 & -> & _). by eapply V10.
  - intros i b Hib. destruct (V13 i b Hib) as (x & Hx & Hix). unfold sessions in *. cbn. apply elem_of_app in Hx as [Hx|Hx]; [exists x; split; [apply elem_of_app; by left|done]|].
    apply list_elem_of_fmap in Hx as (cj & -> & Hcj). apply list_elem_of_lookup in Hcj as [j Hj]. destruct (decide (j = k)) as [->|Hne].
    + simplify_eq. exists (session (pushed a (id r) (req_bytes r) (negb has_ids) c)). split; [|done]. apply elem_of_app. right.
      apply list_elem_of_fmap_2, (list_elem_of_lookup_2 _ k), list_lookup_insert_eq. by eapply lookup_lt_Some.
    + exists (session cj). split; [|done]. apply elem_of_app. right. apply list_elem_of_fmap_2, (list_elem_of_lookup_2 _ j). by rewrite list_lookup_insert_ne.
  - intros b rb Hb. destruct (Hlk b rb Hb) as (r0 & Hr0 & _ & -> & _). by eapply V14.
  - intros j cj Hj. apply list_lookup_insert_Some in Hj as [(<- & <- & _)|[Hne Hj]]; [exact (V15 _ c Hk)|by eapply V15].
  - assert (forall i, i ∈ submitted s /\ (i ∉ posted_ids (ident <$> store s) (tasks_ (evloop s))) /\ (forall b rb, requests s !! i = Some b -> store s !! b = Some rb -> slot rb <> None) ->
      i ∈ submitted s /\ (i ∉ posted_ids (ident <$> store s) (tasks_ (evloop s))) /\ (forall b rb, requests s !! i = Some b -> st !! b = Some rb -> slot rb <> None)) as Hold.
    { intros i (? & ? & Hs). split; [done|]. split; [done|]. intros b rb Hqb Hb. destruct (Hlk b rb Hb) as (r0 & Hr0 & _ & _ & _ & [[_ ?]|[_ ->]]); [congruence|by eapply Hs]. }
    intros j cj i Hj Hin. apply list_lookup_insert_Some in Hj as [(<- & <- & _)|[Hne Hj]]; [|by apply Hold, (V16 j cj)]. cbn in Hin. rewrite fmap_app in Hin.
    apply elem_of_app in Hin as [Hin|Hin%list_elem_of_singleton]; [by apply Hold, (V16 k c)|]. cbn in Hin. subst i. split; [done|]. split.
    + intros Hp. apply (h_apart _ _ _ _ V9) in Hp. congruence.
    + intros b rb Hqb Hb. assert (b = a) as -> by congruence. unfold st in Hb. rewrite lookup_insert_eq in Hb. injection Hb as <-. done.
Qed.

Lemma assigned_frame : frame (eq k) s (assigned k a w r c s).
Proof.
  split; cbn [assigned upd_sockets upd_store upd_waiting sockets requests store waiting]; rewrite ?length_insert; try done.
  - rewrite Hw. cbn. lia.
  - intros j Hj. by rewrite list_lookup_insert_ne.
  - intros j cj Hj. apply list_lookup_insert_Some in Hj as [(<- & <- & _)|[Hne Hj]]; [exists c|exists cj]; (split; [done|cbn; lia]).
  - intros b rb Hb. destruct (assigned_lookup b rb Hb) as (r0 & Hr0 & _ & _ & _ & [[_ ?]|[_ ->]]); exists r0; (split; [done|]); [right; by exists k|by left].
Qed.
End Assign.

(** * [Dispatch] *)

Lemma frame_more (K K' : nat -> Prop) s s' : (forall j, K j -> K' j) -> frame K s s' -> frame K' s s'.
Proof.
  intros HK [F1 F2 F3 F4 F5 F6 F7]. split; try done; [intros j Hj; apply F3; auto|]. intros a r' Hr'. destruct (F6 a r' Hr') as (r & Hr & [?|(k & ? & ?)]); exists r; eauto 6.
Qed.

Lemma waiting_head n s a w : inv ∅ n s -> waiting s = a :: w -> exists r, requests s !! id r = Some a /\ store s !! a = Some r /\ slot r = None.
Proof.
  intros Hi Hw. pose proof (v_table _ _ _ _ Hi) as T. destruct (proj1 (t_waiting _ _ _ _ _ _ T a)) as (i & r & Hq & Hr & Hs); [rewrite Hw; by left|].
  exists r. by rewrite (live_id _ _ _ _ _ _ _ _ _ T Hq Hr).
Qed.

Lemma assign_wp n k a w c s : n < 2 ^ 64 -> inv ∅ n s -> small cfg s -> waiting s = a :: w -> sockets s !! k = Some c -> has_room cfg c = true ->
  wp (modify (upd_waiting w) ;; assign cfg k a) (fun _ s' => inv ∅ n s' /\ frame (eq k) s s' /\ (length (waiting s') <= length w)%nat) s.
Proof.
  intros Hn Hi Hsm Hw Hk Hroom. destruct (waiting_head n s a w Hi Hw) as (r & Hq & Hr & Hsl). apply wp_bind, wp_modify. unfold assign.
  apply wp_bind, (wp_get_request a r); [done|]. apply wp_bind, wp_get. rewrite bool_decide_eq_true_2 by (cbn; eauto).
  apply wp_bind, (wp_get_conn k c); [done|]. apply wp_bind, (wp_on_request a r); [done|]. apply wp_bind, (wp_on_conn k c); [done|].
  pose proof (assigned_inv n s k a w r c Hi Hw Hq Hr Hsl Hk Hroom) as H1. pose proof (assigned_frame s k a w r c Hw Hr Hk) as F1.
  change (upd_sockets _ _) with (assigned k a w r c s). set (s1 := assigned k a w r c s) in *. set (c1 := pushed a (id r) (req_bytes r) (negb has_ids) c).
  assert (sockets s1 !! k = Some c1) as Hk1 by (apply list_lookup_insert_eq; by eapply lookup_lt_Some).
  apply wp_bind. assert (forall s2, inv ∅ n s2 -> frame (eq k) s1 s2 -> wp (Pump cfg k) (fun _ s' => inv ∅ n s' /\ frame (eq k) s s' /\ (length (waiting s') <= length w)%nat) s2) as Hpump.
  { intros s2 H2 F2. destruct (lookup_lt_is_Some_2 (sockets s2) k) as [c2 Hk2]; [rewrite (f_sockets _ _ _ _ F2); by eapply lookup_lt_Some|].
    eapply wp_mono; [apply (Pump_wp cfg ok n k c2 s2 H2); [eapply small_frame; [|exact F2]; by eapply small_frame|done]|]. intros u s3 [H3 F3].
    split; [done|]. split; [eapply frame_trans; [exact F1|]; by eapply frame_trans|]. pose proof (f_waiting _ _ _ _ F2). pose proof (f_waiting _ _ _ _ F3). cbn in *. lia. }
  destruct (Z.ltb_spec (fd c) 0); [|apply wp_ret, Hpump; [done|apply frame_refl]].
  eapply wp_mono; [by apply (Connect_wp cfg ok n k c1 s1)|]. intros u s2 [H2 F2]. by apply Hpump.
Qed.

Definition full (s : impl) (k : nat) : Prop := exists c, sockets s !! k = Some c /\ has_room cfg c = false.

Lemma dispatch_slot_wp n k fuel : n < 2 ^ 64 -> forall s0 s, inv ∅ n s -> small cfg s -> (k < length (sockets s))%nat -> (length (waiting s) <= fuel)%nat -> frame (eq k) s0 s ->
  wp (dispatch_slot cfg fuel k) (fun _ s' => inv ∅ n s' /\ frame (eq k) s0 s' /\ (waiting s' = [] \/ full s' k)) s.
Proof.
  intros Hn. induction fuel as [|fuel IH]; intros s0 s Hi Hsm Hlt Hfuel Hf; cbn [dispatch_slot]; apply wp_bind, wp_get;
    (destruct (waiting s) as [|a w] eqn:Hw; [apply wp_ret; split; [done|]; split; [done|by left]|]); [cbn in Hfuel; lia|].
  apply lookup_lt_is_Some_2 in Hlt as [c Hk]. apply wp_bind, (wp_get_conn k c); [done|].
  destruct (has_room cfg c) eqn:Hroom; [|apply wp_ret; split; [done|]; split; [done|right; by exists c]].
  pose proof (assign_wp n k a w c s Hn Hi Hsm Hw Hk Hroom) as Ha.
  assert (forall A (m : M impl A) (m1 m2 : M impl unit) Q, wpx (m1 ;; m2) (fun _ => wpx m Q (fun e _ => e = std_system_error)) (fun e _ => e = std_system_error) s ->
    wp (m1 ;; m2 ;; m) Q s) as Hassoc.
  { intros A m m1 m2 Q. unfold wpx, mbind, M_bind. destruct (m1 s) as [s1 [u|e| |]]; try done. by destruct (m2 s1) as [s2 [u2|e| |]]. }
  apply Hassoc. eapply wp_mono; [exact Ha|]. intros u s1 (H1 & F1 & Hl). cbn in Hfuel. apply IH; [done|by eapply small_frame| |lia|by eapply frame_trans].
  rewrite (f_sockets _ _ _ _ F1). by eapply lookup_lt_Some.
Qed.

Lemma dispatch_from_wp n ks : n < 2 ^ 64 -> NoDup ks -> forall s, inv ∅ n s -> small cfg s -> Forall (fun k => (k < length (sockets s))%nat) ks ->
  wp (dispatch_from cfg ks) (fun _ s' => inv ∅ n s' /\ frame (fun k => k ∈ ks) s s' /\ (waiting s' = [] \/ forall k, k ∈ ks -> full s' k)) s.
Proof.
  intros Hn. induction ks as [|k ks IH]; intros Hnd s Hi Hsm Hlt; cbn [dispatch_from].
  - apply wp_ret. split; [done|]. split; [apply frame_refl|]. right. intros k Hk. by apply not_elem_of_nil in Hk.
  - apply NoDup_cons in Hnd as [Hnk Hnd]. apply Forall_cons in Hlt as [Hk Hlt]. apply wp_bind, wp_get. case_bool_decide as Hw.
    { apply wp_ret. split; [done|]. split; [apply frame_refl|by left]. }
    apply wp_bind. eapply wp_mono; [apply (dispatch_slot_wp n k _ Hn s s); [done|done|done|done|apply frame_refl]|]. intros u s1 (H1 & F1 & Hd1).
    pose proof (small_frame _ _ _ _ Hsm F1) as Hsm1. eapply wp_mono; [apply (IH Hnd s1); [done|done|by rewrite (f_sockets _ _ _ _ F1)]|]. intros u2 s2 (H2 & F2 & Hd2).
    split; [done|]. split.
    + eapply frame_trans; [eapply frame_more; [|exact F1]|eapply frame_more; [|exact F2]]; [intros j <-; by left|intros j; by right].
    + destruct Hd2 as [?|Hd2]; [by left|]. destruct Hd1 as [Hw1|Hf1].
      * left. pose proof (f_waiting _ _ _ _ F2) as Hl. rewrite Hw1 in Hl. cbn in Hl. destruct (waiting s2); [done|cbn in Hl; lia].
      * right. intros j [->|Hj]%elem_of_cons; [|by apply Hd2]. destruct Hf1 as (c1 & Hc1 & Hr1). exists c1. split; [|done]. by rewrite (f_others _ _ _ _ F2).
Qed.

(** No request waits while a connection has room. *)
Definition settled (s : impl) : Prop := waiting s = [] \/ forall k, (k < length (sockets s))%nat -> full s k.

Lemma Dispatch_wp n s : n < 2 ^ 64 -> inv ∅ n s -> small cfg s ->
  wp (Dispatch cfg) (fun _ s' => inv ∅ n s' /\ small cfg s' /\ settled s' /\ frame (fun _ => True) s s') s.
Proof.
  intros Hn Hi Hsm. pose proof (dispatch_from_wp n (seq 0 (length (sockets s))) Hn (NoDup_seq _ _) s Hi Hsm) as H.
  unfold wpx, Dispatch in *. destruct (dispatch_from cfg _ s) as [s' [u|e| |]]; try (by apply H, Forall_seq; lia).
  destruct H as (H1 & H2 & H3); [apply Forall_seq; lia|]. split; [done|]. split; [by eapply small_frame|]. split; [|by eapply frame_more].
  unfold settled. rewrite (f_sockets _ _ _ _ H2). destruct H3 as [?|H3]; [by left|right]. intros k Hk. apply H3, elem_of_seq. lia.
Qed.
End Steps.
