(* ===== verification/AsyncTransportCorrectness.v ===== *)
(** What [AsyncTransport] promises its clients, in every interleaving: each request is completed exactly
    once, with a response of its own or an error; deadlines end requests; resources stay bounded. *)
From S2P Require Import Prelude Buffer Executor EventLoop AsyncTransport AsyncTransportInv AsyncTransportRun AsyncTransportSteps AsyncTransportStable.
Import EventLoop AsyncTransport.

Section Correctness.
Context (cfg : config) (ok : config_ok cfg).
Abbreviation inv := (inv cfg).
Abbreviation conn_inv := (conn_inv cfg).
Abbreviation has_ids := (AsyncTransport.has_ids cfg).

(** What holds between callbacks. *)
Definition rest (n : Z) (s : impl) : Prop := inv ∅ n s /\ small cfg s /\ settled cfg s.

(** * Tasks *)

Lemma pop_loop m n ds l t ts : loop_inv m n ds l -> tasks_ l = t :: ts -> loop_inv m n ds (pop_task l) /\ task_ok m t.
Proof. intros [L1 L2 L3 L4 L5 L6] Ht. rewrite Ht in L4. apply Forall_cons in L4 as [Hok L4]. split; [|done]. split; try done. cbn. by rewrite Ht. Qed.

Lemma tail_drain ts t q cl dr stop : drain_inv (t :: ts) q cl dr stop -> posted [t] = [] -> t <> TDrain -> drain_inv ts q cl dr stop.
Proof.
  intros [D1 D2 D3 D4] Hp Ht. split; try done.
  - intros [?|?]; apply D1; [by left|right; by right].
  - intros pre post ->. by apply (D2 (t :: pre) post).
  - intros Hd. specialize (D3 Hd). rewrite posted_cons, Hp in D3. done.
Qed.

Lemma pop_inv n s t ts : inv ∅ n s -> tasks_ (evloop s) = t :: ts -> posted [t] = [] -> t <> TDrain -> inv ∅ n (upd_loop (pop_task (evloop s)) s).
Proof.
  intros [V1 V2 V3 V4 V5 V6 V7 V8 V9 V10 V11 V12 V13 V14 V15 V16] Ht Hp Hd.
  assert (posted (tasks_ (pop_task (evloop s))) = posted (tasks_ (evloop s))) as Hpt by (cbn [pop_task tasks_]; rewrite Ht; cbn [tail]; by rewrite posted_cons, Hp).
  split; cbn [upd_loop evloop sockets dials requests store waiting admitted queued submitted completed closing draining past]; unfold posted_ids in *; rewrite ?Hpt; try done.
  - by eapply pop_loop.
  - rewrite Ht in V11. cbn [pop_task tasks_ stopping_]. rewrite Ht. cbn [tail]. by eapply tail_drain.
Qed.

(** The reactor takes up the destructor's task. *)
Lemma drain_inv_pop n s ts : inv ∅ n s -> tasks_ (evloop s) = TDrain :: ts -> inv ∅ n (upd_draining (upd_loop (pop_task (evloop s)) s)).
Proof.
  intros [V1 V2 V3 V4 V5 V6 V7 V8 V9 V10 V11 V12 V13 V14 V15 V16] Ht.
  assert (posted (tasks_ (pop_task (evloop s))) = posted (tasks_ (evloop s))) as Hpt by (cbn [pop_task tasks_]; rewrite Ht; done).
  split; cbn [upd_loop upd_draining evloop sockets dials requests store waiting admitted queued submitted completed closing draining past]; unfold posted_ids in *; rewrite ?Hpt; try done.
  - by eapply pop_loop.
  - rewrite Ht in V11. cbn [pop_task tasks_ stopping_]. rewrite Ht. cbn [tail]. destruct V11 as [D1 D2 D3 D4]. split.
    + intros _. apply D1. right. by left.
    + intros pre post ->. by apply (D2 (TDrain :: pre) post).
    + intros _. by apply (D2 [] ts).
    + intros Hs. split; [done|]. by apply D4.
Qed.

(** ** A submitted request enters the table *)

Definition entered (a : ref) (d : Z) (r : Request) (s : impl) : impl :=
  let l := (At d (TTimeout (id r)) (pop_task (evloop s))).1 in
  upd_waiting (waiting s ++ [a]) (upd_store (<[a := set_timer (next_ (evloop s)) r]> (store s)) (upd_loop l (upd_requests (<[id r := a]> (requests s)) s))).

Section Enter.
Context (n : Z) (s : impl) (a : ref) (d : Z) (ts : list task).
Context (Hi : inv ∅ (n - 1) s) (Hn : n < 2 ^ 64) (Ht : tasks_ (evloop s) = TSubmit a d :: ts).

Lemma entering : exists r, store s !! a = Some r /\ slot r = None /\ deadline r = d /\ requests s !! id r = None /\
  (id r ∉ posted_ids (ident <$> store s) ts) /\ (a ∉ (posted ts).*1) /\ posted_ids (ident <$> store s) (tasks_ (evloop s)) = id r :: posted_ids (ident <$> store s) ts.
Proof.
  destruct (v_posted _ _ _ _ Hi a d) as (r & Hr & Hs & _ & Hd); [rewrite Ht; by left|]. exists r.
  assert (posted_ids (ident <$> store s) (tasks_ (evloop s)) = id r :: posted_ids (ident <$> store s) ts) as Hp by (rewrite Ht; unfold posted_ids; cbn; by rewrite lookup_fmap, Hr).
  pose proof (v_history _ _ _ _ Hi) as [H1 H2 H3 H4 H5 H6]. rewrite Hp in H3, H6. apply NoDup_cons in H3 as [Hnin H3].
  split_and!; try done; [by apply H6; left|]. intros Hin. apply Hnin. apply list_elem_of_fmap in Hin as ([b d'] & Hb & Hin). cbn in Hb. subst b.
  apply list_elem_of_omap. exists (a, d'). split; [done|]. cbn. by rewrite lookup_fmap, Hr.
Qed.

Section Fields.
Context (r : Request) (Hr : store s !! a = Some r) (Hsl : slot r = None) (Hd : deadline r = d) (Hq : requests s !! id r = None).
Context (Hnp : id r ∉ posted_ids (ident <$> store s) ts) (Hna : a ∉ (posted ts).*1).
Context (Hps : posted_ids (ident <$> store s) (tasks_ (evloop s)) = id r :: posted_ids (ident <$> store s) ts).
Let q := <[id r := a]> (requests s).
Let st := <[a := set_timer (next_ (evloop s)) r]> (store s).
Let A := <[next_ (evloop s) := (d, TTimeout (id r))]> (armed (evloop s)).

Lemma entered_names : ident <$> st = ident <$> store s.
Proof. unfold st. rewrite fmap_insert. apply insert_id. rewrite lookup_fmap, Hr. done. Qed.

Lemma entered_lookup b rb : st !! b = Some rb -> exists r0, store s !! b = Some r0 /\ id rb = id r0 /\ slot rb = slot r0 /\ deadline rb = deadline r0 /\
  ((b = a /\ timer rb = next_ (evloop s)) \/ (b <> a /\ rb = r0)).
Proof. unfold st. intros [[<- <-]|[Hne Hb]]%lookup_insert_Some; [exists r|exists rb]; split_and!; auto. Qed.

Lemma not_live i b : requests s !! i = Some b -> b <> a /\ i <> id r.
Proof.
  intros Hb. assert (i <> id r) as Hne by congruence. split; [|done]. intros ->. apply Hne. symmetry. by eapply (live_id _ _ _ _ _ _ _ _ _ (v_table _ _ _ _ Hi)).
Qed.

Lemma entered_on k : on q st k = on (requests s) (store s) k.
Proof.
  apply set_eq. intros i. rewrite !elem_of_on. split.
  - intros (b & rb & Hqb & Hb & Hs). destruct (entered_lookup b rb Hb) as (r0 & Hr0 & _ & E3 & _). unfold q in Hqb.
    apply lookup_insert_Some in Hqb as [[<- <-]|[Hne Hqb]]; [congruence|]. exists b, r0. by rewrite <-E3.
  - intros (b & rb & Hqb & Hb & Hs). destruct (not_live i b Hqb) as [Hba Hir]. exists b, rb. unfold q, st. by rewrite !lookup_insert_ne.
Qed.

Lemma entered_table : table_inv ∅ A q st (waiting s ++ [a]) (length (sockets s)).
Proof.
  pose proof (v_table _ _ _ _ Hi) as [T1 T2 T3 T4 T5 T6]. pose proof (v_fresh _ _ _ _ Hi) as Hf. split.
  - intros i b [[<- <-]|[Hne Hqb]]%lookup_insert_Some.
    + exists (set_timer (next_ (evloop s)) r). split; [apply lookup_insert_eq|]. split; [done|]. intros _. cbn. unfold A. by rewrite lookup_insert_eq, Hd.
    + destruct (T1 i b Hqb) as (r0 & Hr0 & Hid & Ha). destruct (not_live i b Hqb) as [Hba _]. exists r0. unfold st. rewrite lookup_insert_ne by done. split; [done|]. split; [done|].
      intros HE. unfold A. rewrite lookup_insert_ne; [by apply Ha|]. specialize (Hf b r0 Hr0). lia.
  - intros b b' rb rb' Hb Hb' He. destruct (entered_lookup _ _ Hb) as (r0 & H0 & E1 & _). destruct (entered_lookup _ _ Hb') as (r0' & H0' & E1' & _).
    apply (T2 b b' r0 r0'); [done|done|congruence].
  - intros b rb x Hb Hx. destruct (entered_lookup _ _ Hb) as (r0 & H0 & -> & _ & _ & [[-> Htm]|[Hne ->]]).
    + rewrite Htm in Hx. unfold A in Hx. rewrite lookup_insert_eq in Hx. injection Hx as <-. simplify_eq. done.
    + specialize (Hf b r0 H0). unfold A in Hx. rewrite lookup_insert_ne in Hx by lia. by eapply T3.
  - apply NoDup_app. split; [done|]. split; [|apply NoDup_singleton]. intros b Hb ->%list_elem_of_singleton. apply T5 in Hb as (i & r0 & Hqi & _). by apply not_live in Hqi as [? _].
  - intros b. rewrite elem_of_app, list_elem_of_singleton, T5. split.
    + intros [(i & r0 & Hqi & H0 & Hs)| ->].
      * destruct (not_live i b Hqi) as [Hba Hir]. exists i, r0. unfold q, st. by rewrite !lookup_insert_ne.
      * exists (id r), (set_timer (next_ (evloop s)) r). split; [apply lookup_insert_eq|]. by split; [apply lookup_insert_eq|].
    + intros (i & rb & Hqi & Hb & Hs). apply lookup_insert_Some in Hqi as [[<- <-]|[Hne Hqi]]; [by right|left].
      destruct (entered_lookup b rb Hb) as (r0 & H0 & _ & E3 & _). exists i, r0. by rewrite <-E3.
  - intros i b rb k Hqi Hb Hs. destruct (entered_lookup b rb Hb) as (r0 & H0 & _ & E3 & _). apply lookup_insert_Some in Hqi as [[<- <-]|[Hne Hqi]]; [congruence|].
    apply (T6 i b r0 k); [done|done|congruence].
Qed.

Lemma entered_history : history_inv (submitted s) (completed s).*1 q (posted_ids (ident <$> store s) ts).
Proof.
  pose proof (v_history _ _ _ _ Hi) as [H1 H2 H3 H4 H5 H6]. rewrite Hps in *. apply NoDup_cons in H3 as [_ H3]. split; try done.
  - intros i. rewrite H4. unfold q. destruct (decide (i = id r)) as [->|Hne].
    + rewrite lookup_insert_eq. split; [by right; left|by intros _; right; right; left].
    + rewrite lookup_insert_ne by done. rewrite elem_of_cons. tauto.
  - intros i Hc. destruct (H5 i Hc) as [Hqi Hp]. apply not_elem_of_cons in Hp as [Hne Hp]. unfold q. by rewrite lookup_insert_ne.
  - intros i Hp. unfold q. rewrite lookup_insert_ne; [by apply H6; right|]. by intros <-.
Qed.

Lemma entered_drain : drain_inv ts q (closing s) (draining s) (stopping_ (evloop s)).
Proof.
  pose proof (v_drain _ _ _ _ Hi) as [D1 D2 D3 D4]. rewrite Ht in *. assert (draining s = false) as Hdr by (destruct (draining s); [by specialize (D3 eq_refl)|done]). rewrite Hdr in *. split.
  - intros [?|?]; [done|]. apply D1. right. by right.
  - intros pre post ->. by apply (D2 (TSubmit a d :: pre) post).
  - done.
  - intros Hs. by destruct (D4 Hs).
Qed.

Lemma entered_inv : inv ∅ n (entered a d r s) /\ (At d (TTimeout (id r)) (pop_task (evloop s))).2 = Ret (next_ (evloop s)).
Proof.
  pose proof entered_table as T. pose proof entered_history as Hh. pose proof entered_drain as Hdr. pose proof entered_names as Hnm. pose proof entered_on as Hon. pose proof entered_lookup as Hlk.
  destruct Hi as [V1 V2 V3 V4 V5 V6 V7 V8 V9 V10 V11 V12 V13 V14 V15 V16]. destruct (pop_loop _ _ _ _ _ _ V1 Ht) as [[L1 L2 L3 L4 L5 L6] _]. pose proof (zlen_nonneg (dials s)).
  destruct (At_spec d (TTimeout (id r)) (pop_task (evloop s)) L1) as (Hres & Hl & Ha & Hnx & _); [lia|]. split; [|done]. pose proof L1 as (_ & _ & _ & Hpos & _).
  change (armed (pop_task (evloop s))) with (armed (evloop s)) in *. change (next_ (pop_task (evloop s))) with (next_ (evloop s)) in *.
  assert (tasks_ (At d (TTimeout (id r)) (pop_task (evloop s))).1 = ts) as Htl by (cbn; by rewrite Ht).
  assert (posted (tasks_ (evloop s)) = (a, d) :: posted ts) as Hpt by (by rewrite Ht).
  split; cbn [entered upd_waiting upd_store upd_loop upd_requests evloop sockets dials requests store waiting admitted queued submitted completed closing draining past];
    fold st q; rewrite ?Htl, ?Ha, ?Hnx, ?Hnm; fold A; try done.
  - split; rewrite ?Ha, ?Hnx, ?Htl; try done; [lia|rewrite lookup_insert_ne by lia; done| |by apply map_Forall_insert_2].
    cbn in L4. by rewrite Ht in L4.
  - intros k c Hk. destruct (V3 k c Hk) as [C1 C2 C3 C4 C5 C6 C7 C8 C9 C10 C11]. specialize (V15 k c Hk). split; rewrite ?Hon, ?Hnm; try done.
    intros x. unfold A. rewrite lookup_insert_ne by lia. apply C3.
  - intros b d' Hb. destruct (V4 b d') as (rb & Hrb & Hs); [rewrite Hpt; by right|]. exists rb. split; [|done]. unfold st. rewrite lookup_insert_ne; [done|].
    intros <-. apply Hna. by apply (list_elem_of_fmap_2 fst) in Hb.
  - rewrite V5, Hpt, zlen_cons. unfold q. rewrite map_size_insert_None by done. lia.
  - rewrite V7, Hpt. apply weigh_perm. cbn. unfold q. rewrite map_to_list_insert by done. cbn. symmetry. apply Permutation_middle.
  - intros b rb Hb. destruct (Hlk b rb Hb) as (r0 & Hr0 & -> & _). by eapply V10.
  - intros b rb Hb. destruct (Hlk b rb Hb) as (r0 & Hr0 & _ & _ & _ & [[-> ->]|[_ ->]]); [lia|]. specialize (V14 b r0 Hr0). lia.
  - intros k c Hk. specialize (V15 k c Hk). lia.
  - intros k c i Hk Hin. destruct (V16 k c i Hk Hin) as (Hs & Hp & Hsl'). rewrite Hps in Hp. apply not_elem_of_cons in Hp as [Hne Hp]. split; [done|]. split; [done|].
    intros b rb Hqb Hb. unfold q in Hqb. rewrite lookup_insert_ne in Hqb by done. destruct (Hlk b rb Hb) as (r0 & Hr0 & _ & -> & _). by apply (Hsl' b).
Qed.
End Fields.
End Enter.

Lemma entered_small a d r s : small cfg s -> small cfg (entered a d r s).
Proof. done. Qed.

Lemma on_submit_wp n s a d ts : n < 2 ^ 64 -> inv ∅ (n - 1) s -> small cfg s -> tasks_ (evloop s) = TSubmit a d :: ts ->
  wp (on_submit cfg a d) (fun _ s' => rest n s') (upd_loop (pop_task (evloop s)) s).
Proof.
  intros Hn Hi Hsm Ht. destruct (entering n s a d ts Hi Ht) as (r & Hr & Hsl & Hd & Hq & Hnp & Hna & Hps).
  destruct (entered_inv n s a d ts Hi Hn Ht r Hr Hsl Hd Hq Hnp Hna Hps) as [H1 Hres]. unfold on_submit. apply wp_bind, (wp_get_request a r); [done|].
  apply wp_bind, wp_modify. cbn [requests upd_loop]. rewrite bool_decide_eq_false_2 by (rewrite Hq; by intros [? ?]).
  apply wp_bind, wp_At; [exact Hres|]. apply wp_bind, (wp_on_request a r); [done|]. apply wp_bind, wp_modify.
  eapply wp_mono; [apply (Dispatch_wp cfg ok n _ Hn); [exact H1|by apply (entered_small a d r s)]|]. intros u s' (H2 & H3 & H4 & _). done.
Qed.

(** * Timers *)

(** After a timer is taken off, its request is excused from having one. *)
Definition due (t : task) : gset Z := match t with TTimeout i => {[i]} | _ => ∅ end.

Lemma pop_timer_inv n s t ts : inv ∅ n s -> timers_ (evloop s) = t :: ts -> inv (due t.2.2) n (upd_loop (pop_timer t (evloop s)).1 s) /\ timer_ok (length (sockets s)) t.2.2.
Proof.
  intros [V1 V2 V3 V4 V5 V6 V7 V8 V9 V10 V11 V12 V13 V14 V15 V16] Ht. pose proof V1 as [L1 L2 L3 L4 L5 L6]. destruct (pop_spec t ts (evloop s) L1 Ht) as (Hl & Ha & _ & Hn).
  assert (armed (evloop s) !! t.2.1 = Some (t.1, t.2.2)) as Har by (apply armed_lookup; [apply L1|]; rewrite Ht; destruct t as [? [? ?]]; by left).
  split; [|exact (L5 _ _ Har)].
  split; cbn [upd_loop evloop sockets dials requests store waiting admitted queued submitted completed closing draining past]; rewrite ?Ha, ?Hn; try done.
  - split; rewrite ?Ha, ?Hn; try done; [apply lookup_delete_None; by right|by apply map_Forall_delete].
  - destruct V2 as [T1 T2 T3 T4 T5 T6]. split; try done.
    + intros i a Hq. destruct (T1 i a Hq) as (r & Hr & Hid & Hai). exists r. split; [done|]. split; [done|]. intros Hnd. specialize (Hai (not_elem_of_empty i)).
      rewrite lookup_delete_ne; [done|]. intros Heq. rewrite <-Heq, Har in Hai. injection Hai as _ Hai. apply Hnd. unfold due. rewrite Hai. by apply elem_of_singleton.
    + intros a r x Hr [_ Hx]%lookup_delete_Some. by eapply T3.
  - intros k c Hk. apply cancel_conn. eapply weaken_conn; [apply empty_subseteq|by apply V3].
Qed.

Lemma retire_inv n s k c i : inv {[i]} n s -> sockets s !! k = Some c -> i ∈ on (requests s) (store s) k -> has_ids = true -> i ∈ (dispatched (session c)).*1 ->
  inv {[i]} n (upd_sockets (<[k := retire i c]> (sockets s)) s).
Proof.
  intros Hi Hk Hon Hids Hdis. eapply inv_conn; [done|done|exact Hk| |done|exact (v_fresh_conn _ _ _ _ Hi k c Hk)|done].
  destruct (conn_inv_at _ _ _ _ _ _ Hi Hk) as [C1 C2 C3 C4 C5 C6 C7 C8 C9 C10 C11]. split; try done; cbn [retire retired order session].
  - replace (on (requests s) (store s) k ∪ ({[i]} ∪ retired c)) with (on (requests s) (store s) k ∪ retired c); [done|]. clear -Hon. set_solver.
  - rewrite Hids in *. destruct C9 as [? C9]. split; [done|]. intros j [->%elem_of_singleton|Hj]%elem_of_union; [done|by apply C9].
  - intros j Hj HE. destruct (C10 j Hj HE) as [? ?]. split; [|done]. rewrite not_elem_of_union. done.
Qed.

Lemma small_of_frame K s s' : small cfg s -> AsyncTransportInv.frame 0 K s s' -> small cfg s'.
Proof. intros Hs F. eapply small_frame; [exact Hs|]. by apply frame_zero. Qed.

Lemma excused n i s : inv {[i]} n s -> requests s !! i = None -> inv ∅ n s.
Proof. intros Hi Hq. apply (unexcuse cfg ∅ {[i]}); [by rewrite union_empty_l_L|]. by intros j ->%elem_of_singleton. Qed.

(** A request that has left the table has been completed. *)
Definition kept (i : Z) (s : impl) : Prop := i ∈ (completed s).*1 \/ is_Some (requests s !! i).
Lemma kept_out i s : kept i s -> requests s !! i = None -> i ∈ (completed s).*1.
Proof. intros [?|[a Ha]] Hn; [done|congruence]. Qed.

Lemma on_timeout_wp n s i : n < 2 ^ 64 -> inv {[i]} n s -> small cfg s -> settled cfg s ->
  (forall k c, sockets s !! k = Some c -> i ∈ on (requests s) (store s) k -> has_ids = true -> i ∈ (dispatched (session c)).*1) ->
  wp (on_timeout cfg i) (fun _ s' => rest n s' /\ (is_Some (requests s !! i) -> i ∈ (completed s').*1)) s.
Proof.
  intros Hn Hi Hsm Hset Hlink. unfold on_timeout. apply wp_bind, wp_get.
  destruct (requests s !! i) as [a|] eqn:Hq; [|apply wp_ret; split; [split; [by eapply excused|done]|by intros [? ?]]].
  destruct (t_live _ _ _ _ _ _ (v_table _ _ _ _ Hi) i a Hq) as (r & Hr & Hid & _). apply wp_bind, (wp_get_request a r); [done|]. apply wp_bind.
  eapply (wp_mono _ (fun _ => wp (Dispatch cfg) (fun _ s' => rest n s' /\ i ∈ (completed s').*1))); [|intros u s1 H; eapply wp_mono; [exact H|]; by intros u2 s2 [? ?]].
  assert (forall s', inv {[i]} n s' -> small cfg s' -> requests s' !! i = None -> kept i s' -> wp (Dispatch cfg) (fun _ s' => rest n s' /\ i ∈ (completed s').*1) s') as Hend.
  { intros s' H1 H2 H3 H4. eapply wp_mono; [apply (Dispatch_wp cfg ok n s' Hn); [by eapply excused|done]|]. intros u s2 (G1 & G2 & G3 & G4).
    split; [done|]. apply kept_out; [by apply (f_kept _ _ _ _ G4)|]. eapply lookup_weaken_None; [exact H3|apply G4]. }
  assert (forall s0, inv {[i]} n s0 -> small cfg s0 -> kept i s0 -> wp (Finish cfg i [] (Some (KvError timeout))) (fun _ => wp (Dispatch cfg) (fun _ s' => rest n s' /\ i ∈ (completed s').*1)) s0) as Hfin.
  { intros s0 H1 H2 H3. eapply wp_mono; [apply (Finish_wp cfg ok (B := 0) _ n i [] _ (fun _ => True) s0 H1); done|]. intros u s' (G1 & G2 & G3).
    apply Hend; [done|by eapply small_of_frame|done|by apply (f_kept _ _ _ _ G2)]. }
  assert (kept i s) as Hkept by (right; by eexists). destruct (slot r) as [k|] eqn:Es; [|by apply Hfin].
  destruct (lookup_lt_is_Some_2 (sockets s) k) as [c Hk]; [by eapply (t_slot _ _ _ _ _ _ (v_table _ _ _ _ Hi))|].
  assert (i ∈ on (requests s) (store s) k) as Hon by (apply elem_of_on; eauto).
  destruct (has_ids && was_sent r) eqn:Eb.
  - apply andb_true_iff in Eb as [Hids _]. apply wp_bind, (wp_on_conn k c); [done|]. apply Hfin; [apply retire_inv; try done; by apply (Hlink k)| |done].
    intros j cj Hj. cbn in Hj. apply list_lookup_insert_Some in Hj as [(<- & <- & _)|[_ Hj]]; [exact (Hsm _ c Hk)|by apply (Hsm j)].
  - eapply wp_mono; [apply (Disconnect_wp cfg ok (B := 0) {[i]} n k timeout c s Hi Hk)|]. intros u s' (G1 & G2 & G3 & _).
    apply Hend; [done|by eapply small_of_frame|by apply G3|by apply (f_kept _ _ _ _ G2)].
Qed.

(** * Submitting *)

Lemma weigh_ext N N' l : (forall a, a ∈ l -> N' !! a = N !! a) -> weigh N' l = weigh N l.
Proof. induction l as [|a l IH]; intros H; [done|]. cbn. rewrite (H a) by (by left). f_equal. apply IH. intros b Hb. apply H. by right. Qed.

Lemma posted_ids_ext N N' ts : (forall x, x ∈ posted ts -> N' !! x.1 = N !! x.1) -> posted_ids N' ts = posted_ids N ts.
Proof. unfold posted_ids. induction (posted ts) as [|x l IH]; intros H; [done|]. cbn. rewrite (H x) by (by left). rewrite IH; [done|]. intros y Hy. apply H. by right. Qed.

Lemma new_request sub comp q ps i : history_inv sub comp q ps -> i ∉ sub -> (i ∉ comp) /\ q !! i = None /\ (i ∉ ps).
Proof.
  intros H Hnew. rewrite (h_split _ _ _ _ H) in Hnew. split_and!; [tauto| |tauto]. destruct (q !! i) eqn:E; [|done]. exfalso. apply Hnew. right. left. by eexists.
Qed.

Lemma rejected_inv n s i e : inv ∅ n s -> i ∉ submitted s -> inv ∅ n (complete_with i [] (Some e) (record_submit i s)).
Proof.
  intros [V1 V2 V3 V4 V5 V6 V7 V8 V9 V10 V11 V12 V13 V14 V15 V16] Hnew. split; cbn; try done.
  - destruct (new_request _ _ _ _ _ V9 Hnew) as (N1 & N2 & N3). destruct V9 as [H1 H2 H3 H4 H5 H6].
    rewrite fmap_app. cbn. split; try done.
    + by apply NoDup_snoc.
    + by apply NoDup_snoc.
    + intros j. rewrite !elem_of_app, H4, !list_elem_of_singleton. tauto.
    + intros j. rewrite elem_of_app, list_elem_of_singleton. intros [Hj| ->]; [by apply H5|done].
  - intros a r Hr. apply elem_of_app. left. by eapply V10.
  - intros j b. rewrite elem_of_app, list_elem_of_singleton. intros [Hj|Hj]; [by apply V13|done].
  - intros k c j Hk Hj. destruct (V16 k c j Hk Hj) as (G1 & G2 & G3). split; [apply elem_of_app; by left|done].
Qed.

Section Accept.
Context (n : Z) (s : impl) (i : Z) (bs : bytes) (verdict : bytes -> option exn -> bool) (d : Z).
Context (Hi : inv ∅ n s) (Hnew : i ∉ submitted s) (Hcl : closing s = false).
Let a := fresh (dom (store s)).
Let r := mkRequest i 0 bs verdict None false d.
Let st := <[a := r]> (store s).

Lemma fresh_ref : store s !! a = None.
Proof. apply not_elem_of_dom, is_fresh. Qed.
Lemma accept_store b rb : store s !! b = Some rb -> st !! b = Some rb.
Proof. intros Hb. unfold st. rewrite lookup_insert_ne; [done|]. intros <-. by rewrite fresh_ref in Hb. Qed.
Lemma accept_lookup b rb : st !! b = Some rb -> (b = a /\ rb = r) \/ store s !! b = Some rb.
Proof. unfold st. intros [[<- <-]|[_ Hb]]%lookup_insert_Some; auto. Qed.
Lemma accept_names b : is_Some (store s !! b) -> (ident <$> st) !! b = (ident <$> store s) !! b.
Proof. intros [rb Hb]. rewrite !lookup_fmap, Hb. by rewrite (accept_store b rb Hb). Qed.
Lemma live_store j b : requests s !! j = Some b -> is_Some (store s !! b).
Proof. intros Hb. destruct (t_live _ _ _ _ _ _ (v_table _ _ _ _ Hi) j b Hb) as (rb & Hrb & _). by eexists. Qed.

Lemma accept_on k : on (requests s) st k = on (requests s) (store s) k.
Proof.
  apply set_eq. intros j. rewrite !elem_of_on. split; intros (b & rb & Hq & Hb & Hs); exists b, rb; split; try done; split; try done.
  - destruct (accept_lookup b rb Hb) as [[-> ->]|?]; [|done]. done.
  - by apply accept_store.
Qed.

Lemma accept_table : table_inv ∅ (armed (evloop s)) (requests s) st (waiting s) (length (sockets s)).
Proof.
  pose proof (v_table _ _ _ _ Hi) as [T1 T2 T3 T4 T5 T6]. pose proof (v_store _ _ _ _ Hi) as Hst. split; try done.
  - intros j b Hq. destruct (T1 j b Hq) as (rb & Hb & ?). exists rb. split; [by apply accept_store|done].
  - intros b b' rb rb' Hb Hb' He. destruct (accept_lookup b rb Hb) as [[-> ->]|H1], (accept_lookup b' rb' Hb') as [[-> ->]|H2]; [done| | |by eapply T2].
    + exfalso. apply Hnew. change i with (id r). rewrite He. by eapply Hst.
    + exfalso. apply Hnew. change i with (id r). rewrite <-He. by eapply Hst.
  - intros b rb x Hb Hx. destruct (accept_lookup b rb Hb) as [[-> ->]|H1]; [|by eapply T3]. cbn in Hx. by rewrite (l_zero _ _ _ _ (v_loop _ _ _ _ Hi)) in Hx.
  - intros b. rewrite T5. split; intros (j & rb & Hq & Hb & Hs); exists j, rb; (split; [done|]); (split; [|done]); [by apply accept_store|].
    destruct (accept_lookup b rb Hb) as [[-> ->]|?]; [|done]. destruct (live_store j a Hq) as [? ?]. by rewrite fresh_ref in *.
  - intros j b rb k Hq Hb Hs. destruct (accept_lookup b rb Hb) as [[-> ->]|?]; [done|by eapply T6].
Qed.

Lemma accept_posted_ids : posted_ids (ident <$> st) (tasks_ (evloop s) ++ [TSubmit a d]) = posted_ids (ident <$> store s) (tasks_ (evloop s)) ++ [i].
Proof.
  unfold posted_ids. rewrite posted_app, omap_app. f_equal.
  - apply (posted_ids_ext (ident <$> store s)). intros [b d'] Hb. cbn. apply accept_names. destruct (v_posted _ _ _ _ Hi b d' Hb) as (rb & Hrb & _). by eexists.
  - cbn. rewrite lookup_fmap. unfold st. by rewrite lookup_insert_eq.
Qed.

Lemma accept_history : history_inv (submitted s ++ [i]) (completed s).*1 (requests s) (posted_ids (ident <$> store s) (tasks_ (evloop s)) ++ [i]).
Proof.
  pose proof (v_history _ _ _ _ Hi) as [H1 H2 H3 H4 H5 H6]. destruct (new_request _ _ _ _ _ (v_history _ _ _ _ Hi) Hnew) as (N1 & N2 & N3).
  split; try done.
  - by apply NoDup_snoc.
  - by apply NoDup_snoc.
  - intros j. rewrite !elem_of_app, H4, !list_elem_of_singleton. tauto.
  - intros j Hj. destruct (H5 j Hj) as [? ?]. split; [done|]. rewrite elem_of_app, list_elem_of_singleton. intros [?| ->]; done.
  - intros j. rewrite elem_of_app, list_elem_of_singleton. intros [Hj| ->]; [by apply H6|done].
Qed.

Lemma accept_drain : drain_inv (tasks_ (evloop s) ++ [TSubmit a d]) (requests s) (closing s) (draining s) (stopping_ (evloop s)).
Proof.
  pose proof (v_drain _ _ _ _ Hi) as [D1 D2 D3 D4]. assert (~ (draining s = true \/ TDrain ∈ tasks_ (evloop s))) as Hno by (intros H; rewrite (D1 H) in Hcl; done). split.
  - intros [?|Hin]; [exfalso; apply Hno; by left|]. apply elem_of_app in Hin as [?|?%list_elem_of_singleton]; [exfalso; apply Hno; by right|done].
  - intros pre post Heq. exfalso. assert (TDrain ∈ tasks_ (evloop s) ++ [TSubmit a d]) as Hin by (rewrite Heq; apply elem_of_app; right; by left).
    apply elem_of_app in Hin as [?|?%list_elem_of_singleton]; [apply Hno; by right|done].
  - intros ?. exfalso. apply Hno. by left.
  - done.
Qed.

Lemma accepted_inv : admitted s < queue_capacity (options cfg) -> queued s + zlen bs <= queue_bytes (options cfg) ->
  inv ∅ n (in_loop (Post (TSubmit a d)) (upd_store st (upd_admission (u64 (admitted s + 1)) (u64 (queued s + zlen bs)) (record_submit i s)))).1.
Proof.
  intros Hcap Hbytes. pose proof accept_table as T. pose proof accept_drain as Hd. pose proof accept_history as Hh. pose proof accept_posted_ids as Hpi. pose proof accept_on as Hon.
  pose proof (cf_capacity _ ok). pose proof (cf_bytes _ ok). pose proof (zlen_nonneg bs). pose proof (weigh_nonneg (ident <$> store s) ((map_to_list (requests s)).*2 ++ (posted (tasks_ (evloop s))).*1)) as Hw.
  pose proof (zlen_nonneg (posted (tasks_ (evloop s)))).
  assert (forall b, b ∈ (map_to_list (requests s)).*2 ++ (posted (tasks_ (evloop s))).*1 -> is_Some (store s !! b)) as Hold.
  { intros b [Hb|Hb]%elem_of_app; apply list_elem_of_fmap in Hb as ([j b'] & -> & Hb); [apply elem_of_map_to_list in Hb; by eapply live_store|].
    destruct (v_posted _ _ _ _ Hi _ _ Hb) as (rb & Hrb & _). by eexists. }
  destruct Hi as [V1 V2 V3 V4 V5 V6 V7 V8 V9 V10 V11 V12 V13 V14 V15 V16].
  split; cbn -[posted posted_ids u64 st]; rewrite ?posted_app, ?Hpi; try done.
  - destruct V1 as [L1 L2 L3 L4 L5 L6]. split; try done. cbn. apply Forall_app. split; [done|by apply Forall_singleton].
  - intros k c Hk. destruct (V3 k c Hk) as [C1 C2 C3 C4 C5 C6 C7 C8 C9 C10 C11]. split; rewrite ?Hon; try done. destruct C6 as (out & Hout & ?). exists out. split; [|done].
    eapply Forall2_impl; [exact Hout|]. cbn. intros b x Hb. rewrite accept_names; [done|]. rewrite lookup_fmap in Hb. by destruct (store s !! b).
  - intros b d'. rewrite elem_of_app. intros [Hb|[= -> ->]%list_elem_of_singleton].
    + destruct (V4 b d' Hb) as (rb & Hrb & ?). exists rb. split; [by apply accept_store|done].
    + exists r. split; [apply lookup_insert_eq|done].
  - rewrite zlen_app, V5. cbn -[u64]. rewrite u64_small; [|lia]. change (zlen [(a, d)]) with 1. lia.
  - rewrite u64_small; lia.
  - rewrite fmap_app, app_assoc, weigh_app. rewrite (weigh_ext (ident <$> store s)); [|intros b Hb; by apply accept_names, Hold]. rewrite <-V7.
    cbn -[u64 st]. rewrite lookup_fmap. unfold st. rewrite lookup_insert_eq. cbn -[u64]. rewrite u64_small; lia.
  - rewrite u64_small; lia.
  - intros b rb Hb. apply elem_of_app. destruct (accept_lookup b rb Hb) as [[-> ->]|?]; [right; by apply list_elem_of_singleton|left; by eapply V10].
  - intros b rb Hb. destruct (accept_lookup b rb Hb) as [[-> ->]|?]; [|by eapply V14]. destruct V1 as [(_ & _ & _ & Hp & _) _ _ _ _ _]. cbn. lia.
  - intros k c j Hk Hj. destruct (V16 k c j Hk Hj) as (G1 & G2 & G3). split; [apply elem_of_app; by left|]. split.
    + rewrite elem_of_app, list_elem_of_singleton. intros [?| ->]; done.
    + intros b rb Hq Hb. destruct (accept_lookup b rb Hb) as [[-> ->]|?]; [|by apply (G3 b)]. exfalso. destruct (Hold a) as [? Ha]; [apply elem_of_app; left; by apply elem_of_map_to_list, (list_elem_of_fmap_2 snd) in Hq|].
      by rewrite fresh_ref in Ha.
Qed.
End Accept.

Lemma Submit_rest n s now i bs verdict : rest n s -> i ∉ submitted s -> rest n (Submit cfg now i bs verdict s).
Proof.
  intros (Hi & Hsm & Hset) Hnew. unfold Submit. cbn [closing admitted queued record_submit]. pose proof (cf_bytes _ ok).
  destruct (closing s || _ || _) eqn:Eb; [split; [by apply rejected_inv|done]|]. apply orb_false_iff in Eb as [Eb Eb3]. apply orb_false_iff in Eb as [Eb1 Eb2]. zify_bools.
  pose proof (v_bytes _ _ _ _ Hi). pose proof (weigh_nonneg (ident <$> store s) ((map_to_list (requests s)).*2 ++ (posted (tasks_ (evloop s))).*1)) as Hw. rewrite <-(v_queued _ _ _ _ Hi) in Hw.
  rewrite u64_small in Eb3 by lia. split; [|done]. exact (accepted_inv n s i bs verdict (now + io_timeout (timeouts cfg) * 1000000) Hi Hnew Eb1 Eb2 ltac:(lia)).
Qed.

Lemma destroy_rest n s : rest n s -> rest n (destroy s).
Proof.
  intros ([V1 V2 V3 V4 V5 V6 V7 V8 V9 V10 V11 V12 V13 V14 V15 V16] & Hsm & Hset). split; [|done].
  split; cbn -[posted posted_ids]; unfold posted_ids in *; rewrite ?posted_app, ?app_nil_r; try done.
  - destruct V1 as [L1 L2 L3 L4 L5 L6]. split; try done. cbn. apply Forall_app. split; [done|by apply Forall_singleton].
  - destruct V11 as [D1 D2 D3 D4]. split; try done.
    + intros pre post. induction post as [|x post _] using rev_ind; intros Heq; [done|].
      rewrite app_comm_cons, app_assoc in Heq. apply app_inj_tail in Heq as [Heq <-]. rewrite posted_app, app_nil_r. by eapply D2.
    + intros Hd. rewrite posted_app, app_nil_r. by apply D3.
Qed.

(** * Callbacks *)

Lemma env_rest n n' s ps ds : rest n s -> n + 2 * zlen ds <= n' -> rest n' (upd_env ps ds s).
Proof.
  intros (Hi & Hsm & Hset) Hn. split; [|done]. eapply inv_env; [exact Hi|]. pose proof (l_next _ _ _ _ (v_loop _ _ _ _ Hi)). pose proof (zlen_nonneg (dials s)). lia.
Qed.

Lemma notify_wp n k s : n < 2 ^ 64 -> inv ∅ n s -> small cfg s -> (k < length (sockets s))%nat -> wp (notify cfg k) (fun _ s' => rest n s') s.
Proof.
  intros Hn Hi Hsm Hk. apply lookup_lt_is_Some_2 in Hk as [c Hk]. unfold notify. apply wp_bind. eapply wp_mono; [by apply (Pump_wp cfg ok n k c s)|]. intros u s1 [H1 F1].
  eapply wp_mono; [apply (Dispatch_wp cfg ok n s1 Hn H1); by eapply small_frame|]. intros u2 s2 (G1 & G2 & G3 & _). done.
Qed.

Lemma exec_task_wp n s t ts : n < 2 ^ 64 -> rest (n - 1) s -> tasks_ (evloop s) = t :: ts -> wp (exec cfg t) (fun _ s' => rest n s') (upd_loop (pop_task (evloop s)) s).
Proof.
  intros Hn (Hi & Hsm & Hset) Ht. pose proof (inv_later cfg ∅ (n - 1) n s ltac:(lia) Hi) as Hi'. destruct (pop_loop _ _ _ _ _ _ (v_loop _ _ _ _ Hi') Ht) as [_ Hok].
  destruct t as [a d|i|k|k| |]; try done; cbn [exec].
  - by eapply on_submit_wp.
  - pose proof (pop_inv n s _ ts Hi' Ht eq_refl ltac:(done)) as H1. cbn in Hok. apply lookup_lt_is_Some_2 in Hok as [c Hk].
    apply wp_bind. eapply (touch_wp cfg ∅ n k _ c); [exact H1|exact Hk|done..|]. intros s1 (H2 & F2 & Hk2 & _) _. apply (notify_wp n k s1 Hn H2); [eapply small_of_frame; [|exact F2]; exact Hsm|by eapply lookup_lt_Some].
  - pose proof (drain_inv_pop n s ts Hi' Ht) as H1. apply wp_bind, wp_modify, wp_bind, wp_get. pose proof (stop_wp cfg (R := fun e _ => e = std_system_error) ∅ n _ H1) as Hs. cbn [draining upd_draining andb] in Hs.
    eapply wp_mono; [exact Hs|]. intros u s' (G1 & G2 & G3 & _). split; [done|]. split; [intros k c; rewrite G2; apply Hsm|]. unfold settled, full in *. rewrite G2, G3. exact Hset.
  - apply wp_ret. split; [|done]. by eapply pop_inv.
Qed.

Lemma exec_timer_wp n s t ts : n < 2 ^ 64 -> rest n s -> timers_ (evloop s) = t :: ts ->
  wp (exec cfg t.2.2) (fun _ s' => rest n s' /\ forall i, t.2.2 = TTimeout i -> is_Some (requests s !! i) -> i ∈ (completed s').*1) (upd_loop (pop_timer t (evloop s)).1 s).
Proof.
  intros Hn (Hi & Hsm & Hset) Ht. destruct (pop_timer_inv n s t ts Hi Ht) as [H1 Hok]. destruct (t.2.2) as [a d|i|k|k| |]; try done; cbn [exec due timer_ok] in *.
  - eapply wp_mono; [apply (on_timeout_wp n _ i Hn H1); [done|done|]|]; [|by intros u s' [? Hc]; split; [|intros j [= <-]]]. intros k c Hk Hon Hids. cbn in *.
    destruct (c_linked _ _ _ _ _ _ _ (conn_inv_at _ _ _ _ _ _ Hi Hk) i Hon (not_elem_of_empty i)) as [_ Hl]. by rewrite Hids in Hl.
  - apply lookup_lt_is_Some_2 in Hok as [c Hk]. apply wp_bind. eapply wp_mono; [apply (Disconnect_wp cfg ok (B := 0) ∅ n k timeout c _ H1 Hk)|]. intros u s1 (G1 & G2 & _).
    eapply wp_mono; [apply (Dispatch_wp cfg ok n s1 Hn G1); eapply small_of_frame; [|exact G2]; exact Hsm|]. intros u2 s2 (K1 & K2 & K3 & _). done.
Qed.

Lemma step_rest n k s s' : rest n s -> step cfg k s s' -> n + k < 2 ^ 64 -> rest (n + k) s'.
Proof.
  intros Hr Hstep Hn. destruct Hstep as [s now i bs v Hnew|s|s ps ds t ts s' Ht Hx|s ps ds tk x s' Hw Hx|s ps ds t ts s' Ht Hx].
  - rewrite Z.add_0_r. by apply Submit_rest.
  - rewrite Z.add_0_r. by apply destroy_rest.
  - pose proof (env_rest n (n + 2 * zlen ds) s ps ds Hr ltac:(lia)) as He.
    pose proof (exec_task_wp (n + (2 * zlen ds + 1)) (upd_env ps ds s) t ts Hn ltac:(by replace (n + (2 * zlen ds + 1) - 1) with (n + 2 * zlen ds) by lia) Ht) as H.
    change (upd_loop _ (upd_env ps ds s)) with (upd_env ps ds (upd_loop (pop_task (evloop s)) s)) in H. unfold wpx in H. by rewrite Hx in H.
  - destruct (env_rest n (n + (2 * zlen ds + 1)) s ps ds Hr ltac:(lia)) as (He & Hsm & _).
    pose proof (notify_wp _ (w_callback x) _ Hn He Hsm (l_watches _ _ _ _ (v_loop _ _ _ _ He) tk x Hw)) as H. unfold wpx in H. by rewrite Hx in H.
  - pose proof (env_rest n (n + (2 * zlen ds + 1)) s ps ds Hr ltac:(lia)) as He. pose proof (exec_timer_wp _ (upd_env ps ds s) t ts Hn He Ht) as H.
    change (upd_loop _ (upd_env ps ds s)) with (upd_env ps ds (upd_loop (pop_timer t (evloop s)).1 s)) in H. unfold wpx in H. rewrite Hx in H. apply H.
Qed.

(** * Reachable states *)

Lemma make_rest port va k s : make port va k cfg = Ret s -> rest 1 s.
Proof.
  unfold make. destruct (_ || _); [done|]. intros [= <-]. split; [|split; [|by left]].
  2: { intros j c Hj. cbn in Hj. apply lookup_replicate in Hj as [-> _]. change (zlen _) with 0. unfold max_input. lia. }
  split; cbn; try done; try (intros ? ? Hk; apply lookup_replicate in Hk as [-> _]).
  - split; try done. apply Inv_new.
  - split; try done; [apply NoDup_nil_2|]. intros a. split; [by intros ?%not_elem_of_nil|by intros (i & r & ? & _)].
  - assert (on ∅ ∅ k0 = ∅) as Hon by done. split; rewrite ?Hon; try done.
    + change (Z.of_nat _) with 0. unfold limit. pose proof (cf_inflight _ ok). case_match; lia.
    + exists []. split; [constructor|]. split; [done|]. change (0 <= 0 <= 0). lia.
    + unfold paired. destruct (AsyncTransport.ids cfg); [constructor|done].
    + destruct has_ids; [|done]. split; [done|]. by intros i ?%not_elem_of_empty.
  - by intros a d ?%not_elem_of_nil.
  - pose proof (cf_capacity _ ok). lia.
  - apply cf_bytes. done.
  - split; try done; try apply NoDup_nil_2; intros i; [|by intros ?%not_elem_of_nil..]. split; [by intros ?%not_elem_of_nil|].
    intros [?%not_elem_of_nil|[[? ?]|?%not_elem_of_nil]]; done.
  - split; try done; [by intros [?|?%not_elem_of_nil]|]. by intros [|? pre] post.
  - by intros i b ?%not_elem_of_nil.
  - by cbn.
  - intros j c i [-> _]%lookup_replicate Hi. by apply not_elem_of_nil in Hi.
Qed.

Lemma step_cost k s s' : step cfg k s s' -> 0 <= k.
Proof. intros []; try lia; pose proof (zlen_nonneg ds); lia. Qed.
Lemma reachable_rest port va k n s : reachable cfg port va k n s -> n < 2 ^ 64 -> rest n s.
Proof.
  induction 1 as [s Hm|n j s s' _ IH Hs]; intros Hn; [by eapply make_rest|]. pose proof (step_cost _ _ _ Hs). eapply step_rest; [apply IH; lia|done|done].
Qed.

(** * What the transport promises *)

Section Reachable.
Context (port : Z) (valid_address : bool) (connections n : Z) (s : impl).
Context (Hreach : reachable cfg port valid_address connections n s) (Hn : n < 2 ^ 64).

(** The requests neither completed nor refused: in the table, or on their way to the reactor. *)
Definition outstanding (s : impl) : list Z := (map_to_list (requests s)).*1 ++ posted_ids (ident <$> store s) (tasks_ (evloop s)).

Lemma outstanding_split : NoDup (outstanding s) /\ forall i, i ∈ outstanding s <-> is_Some (requests s !! i) \/ i ∈ posted_ids (ident <$> store s) (tasks_ (evloop s)).
Proof.
  destruct (reachable_rest _ _ _ _ _ Hreach Hn) as (Hi & _). pose proof (v_history _ _ _ _ Hi) as [H1 H2 H3 H4 H5 H6].
  assert (forall i, i ∈ (map_to_list (requests s)).*1 <-> is_Some (requests s !! i)) as Hq.
  { intros i. rewrite list_elem_of_fmap. split; [intros ([j a] & -> & Ha%elem_of_map_to_list); by eexists|]. intros [a Ha]. exists (i, a). split; [done|]. by apply elem_of_map_to_list. }
  unfold outstanding. split; [|intros i; by rewrite elem_of_app, Hq]. apply NoDup_app. split; [apply NoDup_fst_map_to_list|]. split; [|done].
  intros i [a Ha]%Hq Hp. specialize (H6 i Hp). congruence.
Qed.

(** C3. [AsyncTransport] completes every request exactly once: at any moment the requests submitted are, each
    exactly once, those whose completion has been called and those still outstanding.  The reactor is stopped
    exactly when the destructor has been seen and no request is left, and then all are completed. *)
Theorem transport_completes_once :
  NoDup (submitted s) /\ submitted s ≡ₚ (completed s).*1 ++ outstanding s /\
  (stopping_ (evloop s) = true <-> draining s = true /\ requests s = ∅) /\
  (stopping_ (evloop s) = true -> closing s = true /\ submitted s ≡ₚ (completed s).*1).
Proof.
  destruct (reachable_rest _ _ _ _ _ Hreach Hn) as (Hi & _). pose proof (v_history _ _ _ _ Hi) as [H1 H2 H3 H4 H5 H6]. pose proof (v_drain _ _ _ _ Hi) as [D1 D2 D3 D4].
  destruct outstanding_split as [Ho Hin].
  assert (submitted s ≡ₚ (completed s).*1 ++ outstanding s) as Hall.
  { apply NoDup_Permutation; [done| |intros i; by rewrite elem_of_app, Hin, H4]. apply NoDup_app. split; [done|]. split; [|done].
    intros i Hc [[a Ha]|Hp]%Hin; destruct (H5 i Hc); [congruence|done]. }
  split; [done|]. split; [done|]. split; [split; [apply D4|intros [? ?]; by apply (reachable_stopped _ _ _ _ _ _ Hreach)]|].
  intros Hs. destruct (D4 Hs) as [Hd Hq]. split; [apply D1; by left|]. rewrite Hall. unfold outstanding, posted_ids. rewrite Hq, (D3 Hd), map_to_list_empty. by rewrite app_nil_r.
Qed.

Lemma session_reachable x : x ∈ sessions s -> session_ok cfg x.
Proof.
  destruct (reachable_rest _ _ _ _ _ Hreach Hn) as (Hi & _). intros [Hx|Hx]%elem_of_app; [by eapply Forall_forall; [apply (v_past _ _ _ _ Hi)|]|].
  apply list_elem_of_fmap in Hx as (c & -> & Hc). apply list_elem_of_lookup in Hc as [k Hk]. by eapply conn_session_ok, conn_inv_at.
Qed.

(** The session a response came from. *)
Lemma response_session i b :
  (i, (b, None)) ∈ completed s ->
  exists x, x ∈ sessions s /\ wire x `prefix_of` concat (dispatched x).*2 /\ concat (answers x).*2 `prefix_of` stream x /\
    Forall (delimited cfg) (answers x) /\ i ∈ (dispatched x).*1 /\ exists k, answers x !! k = Some (i, b) /\
    match ids cfg with Some f => f b = Ret i | None => (dispatched x).*1 !! k = Some i end.
Proof.
  intros Hc. destruct (reachable_rest _ _ _ _ _ Hreach Hn) as (Hi & _). destruct (v_completed _ _ _ _ Hi i b Hc) as (x & Hx & Hb).
  destruct (session_reachable x Hx) as (S1 & S2 & S3 & S4). exists x. split; [done|]. split; [done|]. split; [done|]. split; [done|].
  apply list_elem_of_lookup in Hb as [k Hk]. unfold paired in S4. destruct (ids cfg) as [f|].
  - eapply Forall_lookup in S4; [|exact Hk]. destruct S4 as [S4 S5]. split; [done|]. by exists k.
  - assert ((dispatched x).*1 !! k = Some i) as Hd by (eapply prefix_lookup_Some; [|exact S4]; by rewrite list_lookup_fmap, Hk).
    split; [by eapply list_elem_of_lookup_2|]. by exists k.
Qed.

(** C9. A response goes to its own request: a request completed with a response [b] was put on a connection
    whose incoming bytes start with whole frames, [b] among them, and [b] carries the request's
    identifier or, without identifiers, stands where the request stands among those put on the
    connection, whose bytes are what was sent, in order. *)
Theorem transport_matches_responses i b :
  (i, (b, None)) ∈ completed s ->
  exists x, x ∈ sessions s /\ wire x `prefix_of` concat (dispatched x).*2 /\ concat (answers x).*2 `prefix_of` stream x /\
    Forall (delimited cfg) (answers x) /\ i ∈ (dispatched x).*1 /\ exists k, answers x !! k = Some (i, b) /\
    match ids cfg with Some f => f b = Ret i | None => (dispatched x).*1 !! k = Some i end.
Proof. apply response_session. Qed.

(** C16. A deadline ends its request: every request in the table has a timer armed at the deadline [Submit]
    gave it, and the callback of that timer, whatever the system calls answer, leaves the request
    completed (or the reactor's thread ends because [epoll_ctl] fails). *)
Theorem transport_deadline_completes i a :
  requests s !! i = Some a ->
  exists r, store s !! a = Some r /\ id r = i /\ armed (evloop s) !! timer r = Some (deadline r, TTimeout i) /\
    forall ps ds ts, timers_ (evloop s) = (deadline r, (timer r, TTimeout i)) :: ts -> n + 2 * zlen ds < 2 ^ 64 ->
      match exec cfg (TTimeout i) (upd_env ps ds (upd_loop (pop_timer (deadline r, (timer r, TTimeout i)) (evloop s)).1 s)) with
      | (s', Ret _) => i ∈ (completed s').*1
      | (_, Throw e) => e = std_system_error
      | _ => False
      end.
Proof.
  intros Hq. pose proof (reachable_rest _ _ _ _ _ Hreach Hn) as Hr. destruct (t_live _ _ _ _ _ _ (v_table _ _ _ _ (proj1 Hr)) i a Hq) as (r & Hst & Hid & Ht).
  exists r. split; [done|]. split; [done|]. split; [apply Ht, not_elem_of_empty|]. intros ps ds ts Hts Hds.
  pose proof (env_rest n (n + 2 * zlen ds) s ps ds Hr ltac:(lia)) as He. pose proof (exec_timer_wp _ (upd_env ps ds s) _ ts Hds He Hts) as H. cbn [fst snd] in H.
  change (upd_loop _ (upd_env ps ds s)) with (upd_env ps ds (upd_loop (pop_timer (deadline r, (timer r, TTimeout i)) (evloop s)).1 s)) in H. unfold wpx in H.
  destruct (exec cfg _ _) as [s' [u|e| |]]; try done. destruct H as [_ H]. apply H; [done|]. by eexists.
Qed.

Lemma posted_ids_length : zlen (outstanding s) = Z.of_nat (size (requests s)) + zlen (posted (tasks_ (evloop s))).
Proof.
  destruct (reachable_rest _ _ _ _ _ Hreach Hn) as (Hi & _). pose proof (v_posted _ _ _ _ Hi) as Hp. unfold outstanding, posted_ids.
  rewrite zlen_app. unfold zlen at 1. rewrite length_fmap, length_map_to_list. f_equal. induction (posted (tasks_ (evloop s))) as [|[b d] l IH]; [done|].
  destruct (Hp b d) as (r & Hr & _); [by left|]. cbn. rewrite lookup_fmap, Hr. cbn. rewrite !zlen_cons, IH; [done|]. intros b' d' Hb. apply Hp. by right.
Qed.

(** C21. The transport stays within its limits: [admitted_] counts the requests outstanding and [queued_] their
    bytes, both within the configured capacity; a connection's requests and retired identifiers
    never exceed [max_inflight] (one without identifiers), its input never holds more than one
    frame, and no request waits while a connection has room. *)
Theorem transport_within_limits :
  admitted s = zlen (outstanding s) /\ admitted s <= queue_capacity (options cfg) /\
  queued s = weigh (ident <$> store s) ((map_to_list (requests s)).*2 ++ (posted (tasks_ (evloop s))).*1) /\ queued s <= queue_bytes (options cfg) /\
  forall k c, sockets s !! k = Some c ->
    inflight c = Z.of_nat (size (on (requests s) (store s) k)) /\ inflight c + Z.of_nat (size (retired c)) <= limit cfg /\
    zlen (Buffer.data (input c)) <= max_input cfg /\ (waiting s <> [] -> inflight c + Z.of_nat (size (retired c)) = limit cfg).
Proof.
  destruct (reachable_rest _ _ _ _ _ Hreach Hn) as (Hi & Hsm & Hset). rewrite posted_ids_length. do 4 (split; [apply Hi|]).
  intros k c Hk. pose proof (conn_inv_at _ _ _ _ _ _ Hi Hk) as C. pose proof (c_inflight _ _ _ _ _ _ _ C) as Hc. pose proof (c_limit _ _ _ _ _ _ _ C) as Hl.
  assert (on (requests s) (store s) k ## retired c) as Hdis.
  { intros j Hj Hr. by destruct (c_linked _ _ _ _ _ _ _ C j Hj (not_elem_of_empty j)) as [? _]. }
  rewrite size_union in Hl by done. split; [done|]. split; [lia|]. split; [exact (Hsm k c Hk)|]. intros Hw. destruct Hset as [?|Hset]; [done|].
  destruct (Hset k) as (c' & Hk' & Hroom); [by eapply lookup_lt_Some|]. simplify_eq. unfold has_room in Hroom. apply Z.ltb_ge in Hroom.
  assert (limit cfg < 2 ^ 64) by (unfold limit; pose proof (cf_inflight _ ok); case_match; lia). rewrite u64_small in Hroom by lia. lia.
Qed.

(** C23. Every callback of the reactor returns, whatever the system calls answer: no step of it is undefined
    behaviour or blocks, and the only exception is a failure of [epoll_ctl]. *)
Theorem transport_callbacks_return ps ds :
  n + (2 * zlen ds + 1) < 2 ^ 64 ->
  (forall t ts, tasks_ (evloop s) = t :: ts -> wp (exec cfg t) (fun _ _ => True) (upd_env ps ds (upd_loop (pop_task (evloop s)) s))) /\
  (forall t ts, timers_ (evloop s) = t :: ts -> wp (exec cfg t.2.2) (fun _ _ => True) (upd_env ps ds (upd_loop (pop_timer t (evloop s)).1 s))) /\
  (forall tk x, watches_ (evloop s) !! tk = Some x -> wp (notify cfg (w_callback x)) (fun _ _ => True) (upd_env ps ds s)).
Proof.
  intros Hds. pose proof (reachable_rest _ _ _ _ _ Hreach Hn) as Hr. pose proof (env_rest n (n + 2 * zlen ds) s ps ds Hr ltac:(lia)) as He. split; [|split].
  - intros t ts Ht. pose proof (exec_task_wp (n + (2 * zlen ds + 1)) (upd_env ps ds s) t ts Hds ltac:(by replace (n + (2 * zlen ds + 1) - 1) with (n + 2 * zlen ds) by lia) Ht) as H.
    eapply wp_mono; [exact H|done].
  - intros t ts Ht. eapply wp_mono; [exact (exec_timer_wp (n + 2 * zlen ds) (upd_env ps ds s) t ts ltac:(lia) He Ht)|done].
  - intros tk x Hx. destruct He as (He & Hsm & _). eapply wp_mono; [exact (notify_wp (n + 2 * zlen ds) (w_callback x) _ ltac:(lia) He Hsm (l_watches _ _ _ _ (v_loop _ _ _ _ He) tk x Hx))|done].
Qed.
End Reachable.
End Correctness.

(** Two divisions of a stream into frames agree, when the size of a frame depends on the frame alone. *)
Lemma frames_unique (f : bytes -> outcome Z) (xs rs : list bytes) :
  (forall a r r', 0 < zlen a -> f (a ++ r) = Ret (zlen a) -> f (a ++ r') = Ret (zlen a)) ->
  Forall (fun a => 0 < zlen a /\ exists rest, f (a ++ rest) = Ret (zlen a)) xs -> Forall (fun r => forall rest, f (r ++ rest) = Ret (zlen r)) rs ->
  concat xs `prefix_of` concat rs -> xs `prefix_of` rs.
Proof.
  intros Hlocal Hx. revert rs. induction Hx as [|a xs [Ha [rest Hf]] _ IH]; intros rs Hr Hp; [apply prefix_nil|]. destruct Hr as [|r rs Hr Hrs].
  - apply prefix_length in Hp. cbn in Hp. rewrite length_app in Hp. unfold zlen in Ha. lia.
  - cbn in Hp. destruct Hp as [k Hk]. rewrite <-app_assoc in Hk. pose proof (Hlocal a rest (concat xs ++ k) Ha Hf) as Hfa.
    rewrite <-Hk, Hr in Hfa. injection Hfa as Hlen. apply app_inj_1 in Hk as [-> Hk]; [|unfold zlen in Hlen; lia]. apply prefix_cons, IH; [done|]. by exists k.
Qed.
