(* ===== verification/TcpConnection.v ===== *)
(** [kvrpc::TcpConnection] (src/tcp_connection.cpp, include/kvrpc/tcp_connection.h): a blocking connection
    over a non-blocking socket and an epoll instance of its own.  The kernel answers each call from
    a script, and remembers the bytes that passed and the descriptors that are open. *)
From S2P Require Import Prelude Executor AsyncTransport.
Import AsyncTransport(send_reply, Took, SEintr, SEagain, SFailed, recv_reply, Got, REintr, REagain, RFailed).

(** [ClientEndpoint]; [valid_address] tells whether [inet_pton] accepts the address. *)
Record ClientEndpoint := mkClientEndpoint { valid_address : bool; port : Z; connections : Z; timeouts : TransportOptions }.

Module TcpConnection.

Definition INT_MAX : Z := 2 ^ 31 - 1.
Definition EPOLLIN : Z := 1.
Definition EPOLLOUT : Z := 4.

(** Times in nanoseconds, the options in milliseconds. *)
Record tcp := mkTcp { fd_ : Z; epoll_ : Z; options_ : TransportOptions; deadline_ : Z; timed_out_ : bool }.

(** One turn of the loop of [Wait]: [epoll_ctl] fails, or what [epoll_wait] answers. *)
Inductive wait_reply := Ready | Expired | Interrupted | WaitFailed | CtlFailed.
(** [waited] records the calls of [epoll_wait]: the events, the time and the timeout. *)
Record kernel := mkKernel {
  clock : nat -> Z; ticks : nat; waits : list wait_reply; sends : list send_reply; recvs : list recv_reply;
  outgoing : bytes; incoming : bytes; opened : gset Z; waited : list (Z * Z * Z)
}.
Definition upd_ticks (n : nat) (k : kernel) : kernel :=
  mkKernel (clock k) n (waits k) (sends k) (recvs k) (outgoing k) (incoming k) (opened k) (waited k).
Definition upd_waits (l : list wait_reply) (h : list (Z * Z * Z)) (k : kernel) : kernel :=
  mkKernel (clock k) (ticks k) l (sends k) (recvs k) (outgoing k) (incoming k) (opened k) h.
Definition upd_sends (l : list send_reply) (b : bytes) (k : kernel) : kernel :=
  mkKernel (clock k) (ticks k) (waits k) l (recvs k) b (incoming k) (opened k) (waited k).
Definition upd_recvs (l : list recv_reply) (b : bytes) (k : kernel) : kernel :=
  mkKernel (clock k) (ticks k) (waits k) (sends k) l (outgoing k) b (opened k) (waited k).
Definition upd_opened (l : gset Z) (k : kernel) : kernel :=
  mkKernel (clock k) (ticks k) (waits k) (sends k) (recvs k) (outgoing k) (incoming k) l (waited k).

Definition set_fd (f : Z) (t : tcp) : tcp := mkTcp f (epoll_ t) (options_ t) (deadline_ t) (timed_out_ t).
Definition set_epoll (e : Z) (t : tcp) : tcp := mkTcp (fd_ t) e (options_ t) (deadline_ t) (timed_out_ t).
Definition set_deadline (d : Z) (t : tcp) : tcp := mkTcp (fd_ t) (epoll_ t) (options_ t) d (timed_out_ t).
Definition set_timed_out (b : bool) (t : tcp) : tcp := mkTcp (fd_ t) (epoll_ t) (options_ t) (deadline_ t) b.

Definition sys : Type := tcp * kernel.
Definition on_tcp (f : tcp -> tcp) : M sys unit := modify (fun s => (f s.1, s.2)).
Definition on_kernel (f : kernel -> kernel) : M sys unit := modify (fun s => (s.1, f s.2)).
(** [steady_clock::now] *)
Definition now : M sys Z := fun s => ((s.1, upd_ticks (S (ticks s.2)) s.2), Ret (clock s.2 (ticks s.2))).

(** * Operations *)

Definition BeginRequest : M sys unit :=
  on_tcp (set_timed_out false) ;;
  n ← now ;
  on_tcp (fun t => set_deadline (n + io_timeout (options_ t) * 1000000) t).

(** The constructor of an object that the kernel runs beside. *)
Definition make (o : TransportOptions) : kernel -> kernel * outcome tcp := fun k =>
  if (connect_timeout o <=? 0) || (io_timeout o <=? 0) || (INT_MAX <? connect_timeout o) || (INT_MAX <? io_timeout o)
  then (k, Throw (KvError invalid_argument))
  else let '(s, r) := BeginRequest (mkTcp (-1) (-1) o 0 false, k) in (s.2, _ ← r ; Ret s.1).

Definition Close : M sys unit :=
  s ← get_state ;
  if 0 <=? fd_ s.1 then on_kernel (fun k => upd_opened (opened k ∖ {[fd_ s.1]}) k) ;; on_tcp (set_fd (-1)) else mret tt.

(** The loop of [Wait], over the script [ws]. *)
Fixpoint Wait_from (ws : list wait_reply) (events deadline : Z) : M sys bool :=
  n ← now ;
  let remaining := deadline - n in
  if remaining <=? 0 then on_tcp (set_timed_out true) ;; mret false else
  let ms := Z.min (Z.quot remaining 1000000 + 1) INT_MAX in
  match ws with
  | [] => lift Blocked
  | CtlFailed :: ws => on_kernel (fun k => upd_waits ws (waited k) k) ;; mret false
  | w :: ws =>
      on_kernel (fun k => upd_waits ws (waited k ++ [(events, n, ms)]) k) ;;
      match w with
      | Ready => mret true
      | Expired => on_tcp (set_timed_out true) ;; mret false
      | Interrupted => Wait_from ws events deadline
      | _ => mret false
      end
  end.
Definition Wait (events deadline : Z) : M sys bool := s ← get_state ; Wait_from (waits s.2) events deadline.

(** [SendAll] of a buffer that is not null. *)
Fixpoint send_from (ss : list send_reply) (data : bytes) (offset : Z) : M sys bool :=
  if zlen data <=? offset then mret true else
  s ← get_state ;
  ready ← Wait EPOLLOUT (deadline_ s.1) ;
  if negb ready then Close ;; mret false else
  match ss with
  | [] => lift Blocked
  | Took n :: ss =>
      let n := Z.max 1 (Z.min n (Z.min (zlen data - offset) INT_MAX)) in
      on_kernel (fun k => upd_sends ss (outgoing k ++ data.[Z.to_nat offset, Z.to_nat n]) k) ;;
      send_from ss data (offset + n)
  | SEintr :: ss | SEagain :: ss => on_kernel (fun k => upd_sends ss (outgoing k) k) ;; send_from ss data offset
  | SFailed :: ss => on_kernel (fun k => upd_sends ss (outgoing k) k) ;; Close ;; mret false
  end.
Definition SendAll (data : bytes) : M sys bool :=
  s ← get_state ;
  if fd_ s.1 <? 0 then mret false else send_from (sends s.2) data 0.

(** [RecvAll] into a buffer that is not null: its result and the bytes written. *)
Fixpoint recv_from (rs : list recv_reply) (len : Z) (got : bytes) : M sys (bool * bytes) :=
  if len <=? zlen got then mret (true, got) else
  s ← get_state ;
  ready ← Wait EPOLLIN (deadline_ s.1) ;
  if negb ready then Close ;; mret (false, got) else
  match rs with
  | [] => lift Blocked
  | Got chunk :: rs =>
      let chunk := take (Z.to_nat (Z.min (len - zlen got) INT_MAX)) chunk in
      on_kernel (fun k => upd_recvs rs (incoming k ++ chunk) k) ;;
      if bool_decide (chunk = []) then Close ;; mret (false, got) else recv_from rs len (got ++ chunk)
  | REintr :: rs | REagain :: rs => on_kernel (fun k => upd_recvs rs (incoming k) k) ;; recv_from rs len got
  | RFailed :: rs => on_kernel (fun k => upd_recvs rs (incoming k) k) ;; Close ;; mret (false, got)
  end.
Definition RecvAll (len : Z) : M sys (bool * bytes) :=
  s ← get_state ;
  if fd_ s.1 <? 0 then mret (false, []) else recv_from (recvs s.2) len [].

(** What the calls of one [Connect] answer: the socket, the epoll instance if one is created, whether it
    accepts the socket, whether the socket's options can be set, [connect], and [SO_ERROR]. *)
Inductive connect_reply := Connected | InProgress | Refused.
Record dial := mkDial { d_socket : option nat; d_epoll : option nat; d_add : bool; d_setup : bool; d_connect : connect_reply; d_error : bool }.

Definition Connect (d : dial) (valid_address : bool) (port : Z) : M sys bool :=
  Close ;;
  on_tcp (set_timed_out false) ;;
  if (port =? 0) || negb valid_address then mret false else
  match d_socket d with
  | None => on_tcp (set_fd (-1)) ;; mret false
  | Some f =>
      on_kernel (fun k => upd_opened ({[Z.of_nat f]} ∪ opened k) k) ;;
      on_tcp (set_fd (Z.of_nat f)) ;;
      s ← get_state ;
      (if epoll_ s.1 <? 0 then
         match d_epoll d with
         | Some e => on_kernel (fun k => upd_opened ({[Z.of_nat e]} ∪ opened k) k) ;; on_tcp (set_epoll (Z.of_nat e))
         | None => on_tcp (set_epoll (-1))
         end
       else mret tt) ;;
      s ← get_state ;
      if (epoll_ s.1 <? 0) || negb (d_add d) then Close ;; mret false else
      if negb (d_setup d) then Close ;; mret false else
      match d_connect d with
      | Connected => BeginRequest ;; mret true
      | Refused => Close ;; mret false
      | InProgress =>
          n ← now ;
          ready ← Wait EPOLLOUT (n + connect_timeout (options_ s.1) * 1000000) ;
          if negb ready then Close ;; mret false else
          if d_error d then Close ;; mret false else BeginRequest ;; mret true
      end
  end.

(** The destructor. *)
Definition destroy : M sys unit :=
  Close ;;
  s ← get_state ;
  if 0 <=? epoll_ s.1 then on_kernel (fun k => upd_opened (opened k ∖ {[epoll_ s.1]}) k) ;; on_tcp (set_epoll (-1)) else mret tt.

Definition IsConnected (t : tcp) : bool := 0 <=? fd_ t.
Definition TimedOut (t : tcp) : bool := timed_out_ t.

(** * Waiting *)

(** An entry into [epoll_wait] before the deadline, with a timeout that ends at most a millisecond after it. *)
Definition timely (deadline : Z) (h : Z * Z * Z) : Prop := h.1.2 < deadline /\ h.1.2 + (h.2 - 1) * 1000000 <= deadline.
(** From reading [N] on the clock is past the deadline. *)
Definition passes (N : nat) (deadline : Z) (k : kernel) : Prop := forall i, (N <= i)%nat -> deadline <= clock k i.

(** What [Wait] leaves alone, and that it uses up its script no faster than the clock ticks. *)
Record waiting (deadline : Z) (s s' : sys) : Prop := {
  w_tcp : fd_ s'.1 = fd_ s.1 /\ epoll_ s'.1 = epoll_ s.1 /\ options_ s'.1 = options_ s.1 /\ deadline_ s'.1 = deadline_ s.1;
  w_kernel : clock s'.2 = clock s.2 /\ sends s'.2 = sends s.2 /\ recvs s'.2 = recvs s.2 /\ outgoing s'.2 = outgoing s.2 /\ incoming s'.2 = incoming s.2 /\ opened s'.2 = opened s.2;
  w_ticks : (ticks s.2 < ticks s'.2)%nat;
  w_script : (ticks s.2 + length (waits s.2) <= ticks s'.2 + length (waits s'.2))%nat;
  w_waited : exists hs, waited s'.2 = waited s.2 ++ hs /\ Forall (timely deadline) hs
}.

Lemma timely_now deadline ev n : 0 < deadline - n -> timely deadline (ev, n, Z.min (Z.quot (deadline - n) 1000000 + 1) INT_MAX).
Proof. intros H. unfold timely. cbn. rewrite Z.quot_div_nonneg by lia. pose proof (Z.mul_div_le (deadline - n) 1000000). lia. Qed.

Lemma Wait_from_spec ws ev deadline N s : waits s.2 = ws -> passes N deadline s.2 ->
  let '(s', r) := Wait_from ws ev deadline s in
  waiting deadline s s' /\ match r with
  | Ret true => (ticks s.2 < N)%nat
  | Ret false => True
  | Blocked => (ticks s.2 + length ws < N)%nat
  | _ => False
  end.
Proof.
  revert s. induction ws as [|w ws IH]; intros [t k] Hw HN; cbn [Wait_from]; unfold mbind, M_bind; cbn [now fst snd];
    (destruct (Z.leb_spec (deadline - clock k (ticks k)) 0) as [Hd|Hd]; [cbn; split; [|done]; split; cbn; [done..|lia|lia|exists []; by rewrite app_nil_r]|]);
    (assert (ticks k < N)%nat as Ht by (destruct (Nat.lt_ge_cases (ticks k) N) as [|Hge]; [done|specialize (HN _ Hge); cbn in HN; lia])).
  - cbn. split; [|lia]. split; cbn in *; [done..|lia|rewrite Hw; cbn; lia|exists []; by rewrite app_nil_r].
  - pose proof (timely_now deadline ev (clock k (ticks k)) Hd) as Hti. set (h := (ev, clock k (ticks k), _)) in *.
    destruct w; cbn -[Z.quot]; try (split; [|done]; split; cbn in *; [done..|lia|rewrite Hw; cbn; lia|exists [h]; split; [done|by constructor]]).
    + set (s1 := (t, upd_waits ws (waited k ++ [h]) (upd_ticks (S (ticks k)) k)) : sys). specialize (IH s1 eq_refl HN).
      change (Wait_from ws ev deadline _) with (Wait_from ws ev deadline s1). destruct (Wait_from ws ev deadline s1) as [s' r]. destruct IH as [[I1 I2 I3 I4 (hs & I5 & I6)] I7].
      split; [split; cbn in *; [done|done|lia|rewrite Hw; cbn; lia|]|].
      * exists (h :: hs). split; [by rewrite I5, <-app_assoc|by constructor].
      * destruct r as [[]| | |]; cbn in *; try done; lia.
    + split; [|done]. split; cbn in *; [done..|lia|rewrite Hw; cbn; lia|exists []; by rewrite app_nil_r].
Qed.
Lemma Wait_spec ev deadline N s : passes N deadline s.2 ->
  let '(s', r) := Wait ev deadline s in
  waiting deadline s s' /\ match r with Ret true => (ticks s.2 < N)%nat | Ret false => True | Blocked => (ticks s.2 + length (waits s.2) < N)%nat | _ => False end.
Proof. intros HN. exact (Wait_from_spec (waits s.2) ev deadline N s eq_refl HN). Qed.

(** What the loops of [SendAll] and [RecvAll] leave, up to the bytes. *)
Record talking (s s' : sys) : Prop := {
  k_clock : clock s'.2 = clock s.2 /\ deadline_ s'.1 = deadline_ s.1;
  k_ticks : (ticks s.2 <= ticks s'.2)%nat;
  k_waited : exists hs, waited s'.2 = waited s.2 ++ hs /\ Forall (timely (deadline_ s.1)) hs
}.
Lemma talking_refl s : talking s s.
Proof. split; [done|lia|]. exists []. by rewrite app_nil_r. Qed.
Lemma talking_trans s s' s'' : talking s s' -> talking s' s'' -> talking s s''.
Proof.
  intros [[A1 A2] A3 (ha & A4 & A5)] [[B1 B2] B3 (hb & B4 & B5)]. split; [by rewrite B1, B2|lia|]. exists (ha ++ hb). rewrite B4, A4, app_assoc. split; [done|].
  apply Forall_app. by rewrite A2 in B5.
Qed.
Lemma waiting_talking deadline s s' : deadline = deadline_ s.1 -> waiting deadline s s' -> talking s s'.
Proof. intros -> [(_ & _ & _ & ?) (? & _) ? _ ?]. split; [done|lia|done]. Qed.

Lemma close_socket_run s : exists s', Close s = (s', Ret tt) /\ talking s s' /\ fd_ s'.1 < 0 /\ epoll_ s'.1 = epoll_ s.1 /\ timed_out_ s'.1 = timed_out_ s.1 /\ options_ s'.1 = options_ s.1 /\
  outgoing s'.2 = outgoing s.2 /\ incoming s'.2 = incoming s.2 /\ opened s'.2 = if 0 <=? fd_ s.1 then opened s.2 ∖ {[fd_ s.1]} else opened s.2.
Proof.
  destruct s as [t k]. unfold Close, mbind, M_bind. cbn. destruct (Z.leb_spec 0 (fd_ t)); (eexists; split; [reflexivity|]); cbn; (split; [split; [done|cbn; lia|exists []; by rewrite app_nil_r]|]); (split; [lia|done]).
Qed.

(** ** Sending *)

Lemma slice_step {A} (l : list A) (a n b : nat) : (n <= b)%nat -> take n (drop a l) ++ take (b - n) (drop (a + n) l) = take b (drop a l).
Proof. intros H. rewrite <-drop_drop, take_take_drop. f_equal. lia. Qed.

Definition sent (data : bytes) (offset : Z) (s s' : sys) (r : outcome bool) (N : nat) : Prop :=
  talking s s' /\ exists n, 0 <= n <= zlen data - offset /\ outgoing s'.2 = outgoing s.2 ++ data.[Z.to_nat offset, Z.to_nat n] /\
    match r with
    | Ret true => n = zlen data - offset /\ fd_ s'.1 = fd_ s.1
    | Ret false => fd_ s'.1 < 0
    | Blocked => (ticks s.2 + length (waits s.2) < N)%nat \/ (ticks s.2 + length (sends s.2) < N)%nat
    | _ => False
    end.

Lemma sent_closed data offset s s1 N : 0 <= offset <= zlen data -> talking s s1 -> outgoing s1.2 = outgoing s.2 ->
  let '(s', r) := (Close ;; mret false) s1 in sent data offset s s' r N.
Proof.
  intros Ho T1 Hout. unfold mbind, M_bind. destruct (close_socket_run s1) as (s2 & -> & T2 & Hf & _ & _ & _ & Hout2 & _). split; [by eapply talking_trans|].
  exists 0. split; [lia|]. rewrite take_0, app_nil_r, Hout2. done.
Qed.
Lemma sent_more data offset n s s1 s' r N : 0 <= offset -> 0 <= n <= zlen data - offset -> talking s s1 -> fd_ s1.1 = fd_ s.1 ->
  outgoing s1.2 = outgoing s.2 ++ data.[Z.to_nat offset, Z.to_nat n] ->
  (ticks s.2 + length (waits s.2) <= ticks s1.2 + length (waits s1.2))%nat -> (ticks s.2 + length (sends s.2) <= ticks s1.2 + length (sends s1.2))%nat ->
  sent data (offset + n) s1 s' r N -> sent data offset s s' r N.
Proof.
  intros Ho Hn T1 Hf Hout Hw Hs (T2 & n' & Hn' & Hout' & Hr). split; [by eapply talking_trans|]. exists (n + n'). split; [lia|]. split.
  - rewrite Hout', Hout, <-app_assoc. f_equal. replace (Z.to_nat (offset + n)) with (Z.to_nat offset + Z.to_nat n)%nat by lia.
    replace (Z.to_nat n') with (Z.to_nat (n + n') - Z.to_nat n)%nat by lia. apply slice_step. lia.
  - destruct r as [[]| | |]; try done; [destruct Hr; split; [lia|congruence]|lia].
Qed.

Lemma send_from_spec ss data offset N s : sends s.2 = ss -> 0 <= offset <= zlen data -> passes N (deadline_ s.1) s.2 ->
  let '(s', r) := send_from ss data offset s in sent data offset s s' r N.
Proof.
  revert offset s. induction ss as [|x ss IH]; intros offset s Hs Ho HN; cbn [send_from];
    (destruct (Z.leb_spec (zlen data) offset); [split; [apply talking_refl|]; exists 0; split; [lia|]; rewrite take_0, app_nil_r; split; [done|]; split; [lia|done]|]);
    unfold mbind at 1 2, M_bind at 1 2; cbn [get_state];
    pose proof (Wait_spec EPOLLOUT (deadline_ s.1) N s HN) as HW; destruct (Wait EPOLLOUT (deadline_ s.1) s) as [s1 r1]; destruct HW as [W Hr1];
    pose proof (waiting_talking _ _ _ eq_refl W) as T1; destruct W as [(Wf & _ & _ & Wd) (Wc & Ws & _ & Wo & _) Wt Wk _];
    (destruct r1 as [[]| | |]; [|by apply sent_closed|done..|split; [done|]; exists 0; split; [lia|]; rewrite take_0, app_nil_r; split; [done|by left]]); cbn [negb].
  - split; [done|]. exists 0. split; [lia|]. rewrite take_0, app_nil_r. split; [done|]. right. rewrite Hs. cbn. lia.
  - assert (forall n, 0 <= n <= zlen data - offset -> let '(s', r) := (on_kernel (fun k => upd_sends ss (outgoing k ++ data.[Z.to_nat offset, Z.to_nat n]) k) ;; send_from ss data (offset + n)) s1 in
      sent data offset s s' r N) as Hgo.
    { intros n Hn. unfold mbind, M_bind. cbn [on_kernel modify]. set (s2 := (s1.1, _)). pose proof (IH (offset + n) s2 eq_refl ltac:(lia)) as H2.
      destruct (send_from ss data (offset + n) s2) as [s' r]. eapply (sent_more data offset n s s2); [lia|done| |done|cbn; by rewrite Wo|cbn; lia|cbn; rewrite Hs; cbn; lia|].
      - destruct T1 as [? ? ?]. by split.
      - apply H2. unfold passes, s2. cbn. intros i Hi. rewrite Wd, Wc. by apply HN. }
    assert (forall m, (on_kernel (fun k => upd_sends ss (outgoing k) k) ;; m) s1 = (m : M sys bool) (s1.1, upd_sends ss (outgoing s1.2) s1.2)) as Hskip by done.
    destruct x as [n| | |].
    + apply Hgo. unfold INT_MAX. lia.
    + specialize (Hgo 0 ltac:(lia)). rewrite Z.add_0_r, take_0 in Hgo. rewrite Hskip. unfold mbind, M_bind in Hgo. cbn [on_kernel modify] in Hgo. by rewrite app_nil_r in Hgo.
    + specialize (Hgo 0 ltac:(lia)). rewrite Z.add_0_r, take_0 in Hgo. rewrite Hskip. unfold mbind, M_bind in Hgo. cbn [on_kernel modify] in Hgo. by rewrite app_nil_r in Hgo.
    + rewrite Hskip. apply sent_closed; [lia| |done]. destruct T1 as [? ? ?]. by split.
Qed.

(** C30. [SendAll] sends everything or gives the connection up, by its deadline: it returns true exactly when all
    the data has been handed to the kernel, in order and once; otherwise a prefix has, and the
    socket is closed.  It enters [epoll_wait] only before the deadline, with timeouts that end with
    it, and once the clock has passed the deadline it has returned, whatever the kernel answers. *)
Theorem SendAll_exact data N s : 0 <= fd_ s.1 -> passes N (deadline_ s.1) s.2 ->
  (N <= ticks s.2 + length (waits s.2))%nat -> (N <= ticks s.2 + length (sends s.2))%nat ->
  exists s' ok, SendAll data s = (s', Ret ok) /\
    (if ok then outgoing s'.2 = outgoing s.2 ++ data /\ fd_ s'.1 = fd_ s.1
     else fd_ s'.1 < 0 /\ exists n, outgoing s'.2 = outgoing s.2 ++ take n data) /\
    exists hs, waited s'.2 = waited s.2 ++ hs /\ Forall (timely (deadline_ s.1)) hs.
Proof.
  intros Hf HN Hw Hs. unfold SendAll, mbind, M_bind. cbn [get_state]. rewrite (proj2 (Z.ltb_ge _ _)) by done. pose proof (zlen_nonneg data).
  pose proof (send_from_spec (sends s.2) data 0 N s eq_refl ltac:(lia) HN) as H1. destruct (send_from (sends s.2) data 0 s) as [s' r].
  destruct H1 as (T & n & Hn & Hout & Hr). destruct r as [ok| | |]; try done; [|lia]. exists s', ok. split; [done|]. split; [|apply T]. rewrite drop_0 in Hout. destruct ok.
  - destruct Hr as [-> ?]. split; [|done]. rewrite Hout. f_equal. apply take_ge. unfold zlen. lia.
  - split; [done|]. by exists (Z.to_nat n).
Qed.

(** ** Receiving *)

Definition received (len : Z) (got : bytes) (s s' : sys) (r : outcome (bool * bytes)) (N : nat) : Prop :=
  talking s s' /\ exists more, incoming s'.2 = incoming s.2 ++ more /\
    match r with
    | Ret (true, b) => b = got ++ more /\ zlen b = len /\ fd_ s'.1 = fd_ s.1
    | Ret (false, b) => b = got ++ more /\ zlen b < len /\ fd_ s'.1 < 0
    | Blocked => (ticks s.2 + length (waits s.2) < N)%nat \/ (ticks s.2 + length (recvs s.2) < N)%nat
    | _ => False
    end.

Lemma received_closed len got s s1 N : zlen got < len -> talking s s1 -> incoming s1.2 = incoming s.2 ->
  let '(s', r) := (Close ;; mret (false, got)) s1 in received len got s s' r N.
Proof.
  intros Hl T1 Hin. unfold mbind, M_bind. destruct (close_socket_run s1) as (s2 & -> & T2 & Hf & _ & _ & _ & _ & Hin2 & _). split; [by eapply talking_trans|].
  exists []. rewrite !app_nil_r, Hin2. done.
Qed.
Lemma received_more len got chunk s s1 s' r N : talking s s1 -> fd_ s1.1 = fd_ s.1 -> incoming s1.2 = incoming s.2 ++ chunk ->
  (ticks s.2 + length (waits s.2) <= ticks s1.2 + length (waits s1.2))%nat -> (ticks s.2 + length (recvs s.2) <= ticks s1.2 + length (recvs s1.2))%nat ->
  received len (got ++ chunk) s1 s' r N -> received len got s s' r N.
Proof.
  intros T1 Hf Hin Hw Hs (T2 & more & Hin' & Hr). split; [by eapply talking_trans|]. exists (chunk ++ more). split; [by rewrite Hin', Hin, app_assoc|].
  destruct r as [[[] b]| | |]; try done; [|by rewrite app_assoc|lia]. destruct Hr as (-> & ? & ?). rewrite app_assoc. split; [done|]. split; [done|congruence].
Qed.

Lemma recv_from_spec rs len got N s : recvs s.2 = rs -> zlen got <= len -> passes N (deadline_ s.1) s.2 ->
  let '(s', r) := recv_from rs len got s in received len got s s' r N.
Proof.
  revert got s. induction rs as [|x rs IH]; intros got s Hs Hl HN; cbn [recv_from];
    (destruct (Z.leb_spec len (zlen got)); [split; [apply talking_refl|]; exists []; rewrite !app_nil_r; split; [done|]; split; [done|]; split; [lia|done]|]);
    unfold mbind at 1 2, M_bind at 1 2; cbn [get_state];
    pose proof (Wait_spec EPOLLIN (deadline_ s.1) N s HN) as HW; destruct (Wait EPOLLIN (deadline_ s.1) s) as [s1 r1]; destruct HW as [W Hr1];
    pose proof (waiting_talking _ _ _ eq_refl W) as T1; destruct W as [(Wf & _ & _ & Wd) (Wc & _ & Ws & _ & Wi & _) Wt Wk _];
    (destruct r1 as [[]| | |]; [|by apply received_closed|done..|split; [done|]; exists []; rewrite app_nil_r; split; [done|by left]]); cbn [negb].
  - split; [done|]. exists []. rewrite app_nil_r. split; [done|]. right. rewrite Hs. cbn. lia.
  - assert (forall chunk, zlen (got ++ chunk) <= len -> let '(s', r) := recv_from rs len (got ++ chunk) (s1.1, upd_recvs rs (incoming s1.2 ++ chunk) s1.2) in
      received len got s s' r N) as Hgo.
    { intros chunk Hc. set (s2 := (s1.1, _)). pose proof (IH (got ++ chunk) s2 eq_refl Hc) as H2. destruct (recv_from rs len (got ++ chunk) s2) as [s' r].
      eapply (received_more len got chunk s s2); [|done|cbn; by rewrite Wi|cbn; lia|cbn; rewrite Hs; cbn; lia|].
      - destruct T1 as [? ? ?]. by split.
      - apply H2. unfold passes, s2. cbn. intros i Hi. rewrite Wd, Wc. by apply HN. }
    pose proof (Hgo [] ltac:(rewrite app_nil_r; lia)) as Hgo0. rewrite !app_nil_r in Hgo0.
    assert (forall f (m : M sys (bool * bytes)), (on_kernel f ;; m) s1 = m (s1.1, f s1.2)) as Hskip by done.
    assert (talking s (s1.1, upd_recvs rs (incoming s1.2) s1.2)) as T2 by (destruct T1 as [? ? ?]; by split).
    destruct x as [chunk| | |]; rewrite ?Hskip; [|done..|by apply received_closed]. cbv zeta. set (piece := take _ chunk). case_bool_decide as Hp.
    + rewrite Hp, app_nil_r. by apply received_closed.
    + apply Hgo. rewrite zlen_app. assert (zlen piece <= len - zlen got); [|lia]. unfold piece, zlen in *. rewrite length_take. lia.
Qed.

(** [RecvAll] fills the buffer or gives the connection up, by its deadline: it returns true exactly when
    the buffer holds the next [len] bytes of the stream, and otherwise fewer were read and the
    socket is closed; no byte that was read is lost.  It ends once the clock has passed the deadline. *)
Lemma RecvAll_exact len N s : 0 <= fd_ s.1 -> 0 <= len -> passes N (deadline_ s.1) s.2 ->
  (N <= ticks s.2 + length (waits s.2))%nat -> (N <= ticks s.2 + length (recvs s.2))%nat ->
  exists s' ok b, RecvAll len s = (s', Ret (ok, b)) /\ incoming s'.2 = incoming s.2 ++ b /\
    (if ok then zlen b = len /\ fd_ s'.1 = fd_ s.1 else zlen b < len /\ fd_ s'.1 < 0) /\
    exists hs, waited s'.2 = waited s.2 ++ hs /\ Forall (timely (deadline_ s.1)) hs.
Proof.
  intros Hf Hl HN Hw Hs. unfold RecvAll, mbind, M_bind. cbn [get_state]. rewrite (proj2 (Z.ltb_ge _ _)) by done.
  pose proof (recv_from_spec (recvs s.2) len [] N s eq_refl Hl HN) as H1. destruct (recv_from (recvs s.2) len [] s) as [s' r].
  destruct H1 as (T & more & Hin & Hr). destruct r as [[ok b]| | |]; try done; [|lia]. exists s', ok, b. split; [done|]. destruct ok; destruct Hr as (-> & ? & ?).
  - split; [done|]. split; [done|apply T].
  - split; [done|]. split; [done|apply T].
Qed.

(** * Descriptors *)

Definition owned (t : tcp) : gset Z := (if 0 <=? fd_ t then {[fd_ t]} else ∅) ∪ (if 0 <=? epoll_ t then {[epoll_ t]} else ∅).
(** The open descriptors are those of the connection and, apart from them, [X]. *)
Definition holds (X : gset Z) (s : sys) : Prop := opened s.2 = owned s.1 ∪ X /\ owned s.1 ## X /\ (0 <= fd_ s.1 -> fd_ s.1 <> epoll_ s.1).
Definition preserves {A} (X : gset Z) (m : M sys A) : Prop := forall s, holds X s -> holds X (m s).1.

Create HintDb descriptors.
Section Descriptors.
Context (X : gset Z).
Lemma preserves_bind {A B} (m : M sys A) (f : A -> M sys B) : preserves X m -> (forall a, preserves X (f a)) -> preserves X (mbind f m).
Proof. intros Hm Hf s Hs. specialize (Hm s Hs). unfold mbind, M_bind. destruct (m s) as [s' [a| | |]]; try done. by apply Hf. Qed.
Lemma preserves_ret {A} (a : A) : preserves X (mret a).
Proof. by intros s. Qed.
Lemma preserves_lift {A} (o : outcome A) : preserves X (lift o).
Proof. by intros s. Qed.
Lemma preserves_get : preserves X get_state.
Proof. by intros s. Qed.
Lemma preserves_now : preserves X now.
Proof. by intros s. Qed.
Lemma preserves_kernel f : (forall k, opened (f k) = opened k) -> preserves X (on_kernel f).
Proof. intros Hf s [H1 H2]. unfold holds. cbn. by rewrite Hf. Qed.
Lemma preserves_tcp f : (forall t, fd_ (f t) = fd_ t /\ epoll_ (f t) = epoll_ t) -> preserves X (on_tcp f).
Proof. intros Hf s (H1 & H2 & H3). unfold holds, owned in *. cbn. by rewrite !(proj1 (Hf _)), !(proj2 (Hf _)). Qed.
Lemma preserves_Close : preserves X Close.
Proof.
  intros [t k] (H1 & H2 & H3). unfold Close, mbind, M_bind. cbn. destruct (Z.leb_spec 0 (fd_ t)) as [Hf|Hf]; cbn; [|by split].
  unfold holds, owned in *. cbn in *. destruct (Z.leb_spec 0 (fd_ t)); [|lia]. rewrite H1. split; [|split; [|lia]].
  - specialize (H3 Hf). apply leibniz_equiv. destruct (0 <=? epoll_ t); set_solver.
  - destruct (0 <=? epoll_ t); set_solver.
Qed.
Hint Resolve preserves_bind preserves_ret preserves_lift preserves_get preserves_now preserves_Close : descriptors.
Ltac preserving :=
  repeat (first [ match goal with |- forall _, _ => intro end | solve [auto with descriptors] | apply preserves_bind | apply preserves_kernel; done | apply preserves_tcp; done
                | match goal with |- preserves _ (match ?x with _ => _ end) => destruct x end ]).
Lemma preserves_Wait ev d : preserves X (Wait ev d).
Proof.
  unfold Wait. apply preserves_bind; [apply preserves_get|]. intros s. generalize (waits s.2) as ws. intros ws. revert ev d. induction ws as [|w ws IH]; intros ev d; cbn [Wait_from]; cbv zeta; preserving.
Qed.
Hint Resolve preserves_Wait : descriptors.
Lemma preserves_SendAll data : preserves X (SendAll data).
Proof.
  unfold SendAll. apply preserves_bind; [apply preserves_get|]. intros s. destruct (_ <? _); [auto with descriptors|]. generalize (sends s.2) as ss, 0 as offset. intros ss.
  induction ss as [|x ss IH]; intros offset; cbn [send_from]; cbv zeta; preserving.
Qed.
Lemma preserves_RecvAll len : preserves X (RecvAll len).
Proof.
  unfold RecvAll. apply preserves_bind; [apply preserves_get|]. intros s. destruct (_ <? _); [auto with descriptors|]. generalize (recvs s.2) as rs, (@nil byte) as got. intros rs.
  induction rs as [|x rs IH]; intros got; cbn [recv_from]; cbv zeta; preserving.
Qed.
Lemma preserves_BeginRequest : preserves X BeginRequest.
Proof. unfold BeginRequest. preserving. Qed.

Lemma holds_socket f t k : holds X (t, k) -> fd_ t < 0 -> Z.of_nat f ∉ opened k -> holds X (set_fd (Z.of_nat f) t, upd_opened ({[Z.of_nat f]} ∪ opened k) k).
Proof.
  unfold holds, owned. cbn. intros (H1 & H2 & H3) Hf Hn. destruct (Z.leb_spec 0 (fd_ t)); [lia|]. destruct (Z.leb_spec 0 (Z.of_nat f)); [|lia]. rewrite H1 in *.
  split; [set_solver|]. split; [set_solver|]. intros _ Heq. rewrite <-Heq in Hn. destruct (Z.leb_spec 0 (Z.of_nat f)); [|lia]. set_solver.
Qed.
Lemma holds_epoll e t k : holds X (t, k) -> epoll_ t < 0 -> Z.of_nat e ∉ opened k -> holds X (set_epoll (Z.of_nat e) t, upd_opened ({[Z.of_nat e]} ∪ opened k) k).
Proof.
  unfold holds, owned. cbn. intros (H1 & H2 & H3) Hf Hn. destruct (Z.leb_spec 0 (epoll_ t)); [lia|]. destruct (Z.leb_spec 0 (Z.of_nat e)); [|lia]. rewrite H1 in *.
  split; [set_solver|]. split; [set_solver|]. intros Hfd Heq. rewrite <-Heq in Hn. destruct (Z.leb_spec 0 (fd_ t)); [|lia]. set_solver.
Qed.

(** The kernel gives out descriptors that are not open, when the socket is opened and when the epoll instance is. *)
Definition fresh_dial (d : dial) (s : sys) : Prop :=
  forall f, d_socket d = Some f -> (Z.of_nat f ∉ opened s.2 ∖ {[fd_ s.1]}) /\
    forall e, d_epoll d = Some e -> e <> f /\ Z.of_nat e ∉ opened s.2 ∖ {[fd_ s.1]}.

Definition closed_or_open (r : outcome bool) (s : sys) : Prop :=
  match r with Ret true => 0 <= fd_ s.1 | Ret false => fd_ s.1 < 0 | Blocked => True | _ => False end.
Lemma Wait_fd ev d s : fd_ (Wait ev d s).1.1 = fd_ s.1 /\ match (Wait ev d s).2 with Ret _ | Blocked => True | _ => False end.
Proof.
  unfold Wait, mbind, M_bind. cbn [get_state]. generalize (waits s.2) as ws. intros ws. revert s. induction ws as [|w ws IH]; intros s; cbn [Wait_from]; unfold mbind, M_bind; cbn [now];
    destruct (Z.leb _ _); try done. destruct w; try done. apply (IH (_, _)).
Qed.

(** The end of [Connect], once the socket and the epoll instance exist. *)
Lemma connect_rest d (s0 : sys) s : holds X s -> 0 <= fd_ s.1 ->
  let '(s', r) := (if (epoll_ s0.1 <? 0) || negb (d_add d) then Close ;; mret false else
    if negb (d_setup d) then Close ;; mret false else
    match d_connect d with
    | Connected => BeginRequest ;; mret true
    | Refused => Close ;; mret false
    | InProgress =>
        n ← now ;
        ready ← Wait EPOLLOUT (n + connect_timeout (options_ s0.1) * 1000000) ;
        if negb ready then Close ;; mret false else
        if d_error d then Close ;; mret false else BeginRequest ;; mret true
    end) s in holds X s' /\ closed_or_open r s'.
Proof.
  intros Hh Hf. assert (forall s, holds X s -> let '(s', r) := (Close ;; mret false) s in holds X s' /\ closed_or_open r s') as Hclose.
  { intros s1 H1. pose proof (preserves_Close s1 H1) as H2. unfold mbind, M_bind. destruct (close_socket_run s1) as (s2 & E & _ & Hfd & _). rewrite E in *. done. }
  assert (forall s, holds X s -> 0 <= fd_ s.1 -> let '(s', r) := (BeginRequest ;; mret true) s in holds X s' /\ closed_or_open r s') as Hbegin.
  { intros s1 H1 Hf1. split; [exact (preserves_BeginRequest s1 H1)|done]. }
  destruct (_ || _); [by apply Hclose|]. destruct (negb (d_setup d)); [by apply Hclose|]. destruct (d_connect d); [by apply Hbegin| |by apply Hclose].
  unfold mbind at 1 2, M_bind at 1 2. cbn [now]. set (s1 := (s.1, _)). set (dl := _ + _).
  pose proof (preserves_Wait EPOLLOUT dl s1 (preserves_now s Hh)) as H1. destruct (Wait_fd EPOLLOUT dl s1) as [H2 H3]. destruct (Wait EPOLLOUT dl s1) as [s2 r2]. cbn [fst snd] in *.
  destruct r2 as [[]| | |]; try done; cbn [negb]; [|by apply Hclose]. destruct (d_error d); [by apply Hclose|]. apply Hbegin; [done|]. rewrite H2. done.
Qed.

Lemma Connect_holds d va port s : holds X s -> fresh_dial d s -> let '(s', r) := Connect d va port s in holds X s' /\ closed_or_open r s'.
Proof.
  intros Hh Hfr. unfold Connect. unfold mbind at 1, M_bind at 1. pose proof (preserves_Close s Hh) as H1.
  destruct (close_socket_run s) as ([t k] & E & _ & Hf & He & _ & _ & _ & _ & Ho). rewrite E in *. cbn [fst snd] in *.
  unfold mbind at 1, M_bind at 1. cbn [on_tcp modify fst snd]. assert (holds X (set_timed_out false t, k)) as H2 by done.
  change (fd_ t) with (fd_ (set_timed_out false t)) in Hf. set (t1 := set_timed_out false t) in *.
  assert (forall z : nat, Z.of_nat z ∉ opened s.2 ∖ {[fd_ s.1]} -> Z.of_nat z ∉ opened k) as Hnew.
  { intros z Hz. rewrite Ho. destruct (Z.leb_spec 0 (fd_ s.1)); [done|]. intros Hin. apply Hz, elem_of_difference. split; [done|]. rewrite elem_of_singleton. lia. }
  destruct (_ || _); [by split|]. destruct (d_socket d) as [f|] eqn:Ef.
  2: { cbn. split; [|done]. unfold holds, owned in *. cbn in *. destruct (Z.leb_spec 0 (fd_ t)); [lia|]. destruct H2 as (? & ? & _). split; [done|]. split; [done|lia]. }
  destruct (Hfr f Ef) as [Hf1 Hf2]. pose proof (holds_socket f t1 k H2 Hf (Hnew f Hf1)) as H3. cbn [on_kernel on_tcp modify mbind M_bind get_state fst snd].
  set (t2 := set_fd (Z.of_nat f) t1) in *. set (k2 := upd_opened ({[Z.of_nat f]} ∪ opened k) k) in *.
  unfold mbind, M_bind. cbn [on_kernel on_tcp modify get_state fst snd]. fold t2 k2.
  destruct (Z.ltb_spec (epoll_ t2) 0) as [Hep|Hep].
  - destruct (d_epoll d) as [e|] eqn:Ee.
    + destruct (Hf2 e eq_refl) as [Hne Hf3]. assert (Z.of_nat e ∉ opened k2) as Hf4 by (cbn; rewrite elem_of_union, elem_of_singleton; intros [?|?]; [lia|by apply (Hnew e)]).
      pose proof (holds_epoll e t2 k2 H3 Hep Hf4) as H4. exact (connect_rest d (set_epoll (Z.of_nat e) t2, k2) _ H4 ltac:(cbn; lia)).
    + assert (holds X (set_epoll (-1) t2, k2)) as H4 by (unfold holds, owned in *; cbn in *; destruct (Z.leb_spec 0 (epoll_ t)); [lia|]; destruct H3 as (? & ? & _); split; [done|]; split; [done|lia]).
      exact (connect_rest d (set_epoll (-1) t2, k2) _ H4 ltac:(cbn; lia)).
  - exact (connect_rest d (t2, k2) _ H3 ltac:(cbn; lia)).
Qed.

Lemma destroy_holds s : holds X s -> exists s', destroy s = (s', Ret tt) /\ opened s'.2 = X.
Proof.
  intros Hh. pose proof (preserves_Close s Hh) as H1. destruct (close_socket_run s) as ([t k] & E & _ & Hf & _). rewrite E in *. unfold destroy, mbind, M_bind. rewrite E. cbn in *.
  unfold holds, owned in H1. cbn in H1. destruct (Z.leb_spec 0 (fd_ t)); [lia|]. destruct H1 as (H1 & H2 & _). destruct (0 <=? epoll_ t); (eexists; split; [reflexivity|]); cbn; rewrite H1; set_solver.
Qed.
End Descriptors.

(** * A concrete kernel *)

(** A clock that reads a second more each time, and calls that are split and interrupted. *)
Definition ticking : kernel :=
  mkKernel (fun i => Z.of_nat i * 1000000000) 0 (Ready :: Interrupted :: replicate 8 Ready)
    (Took 2 :: SEintr :: replicate 8 (Took 100)) (Got (str "ab") :: REagain :: replicate 8 (Got (str "cdefgh"))) [] [] {[3; 4]} [].
Definition up : sys := (mkTcp 3 4 default_transport_options 5000000000 false, ticking).
Lemma up_passes : passes 5 (deadline_ up.1) up.2.
Proof. intros i Hi. cbn. lia. Qed.

Lemma SendAll_exact_witness : exists s' ok, SendAll (str "hello") up = (s', Ret ok) /\ ok = true /\ outgoing s'.2 = str "hello".
Proof.
  destruct (SendAll_exact (str "hello") 5 up ltac:(cbn; lia) up_passes ltac:(cbn; lia) ltac:(cbn; lia)) as (s' & ok & E & Hok & _).
  assert (ok = true) as -> by (vm_compute in E; congruence). exists s', true. split; [exact E|]. split; [done|]. exact (proj1 Hok).
Defined.
End TcpConnection.
