(* ===== verification/ConnectionPool.v ===== *)
(** [kvrpc::ConnectionPool] (include/kvrpc/connection_pool.h): blocking connections lent to one holder at a
    time.  The threads interleave at the critical sections of the mutex; a wait on [ready] is a
    guard, since it is made with a predicate.  No connection is lent twice or lost, and no
    descriptor outlives the pool and its leases. *)
From S2P Require Import Prelude Executor AsyncTransport TcpConnection.

Module ConnectionPool.
Import TcpConnection(tcp, kernel, dial).

(** A [TcpConnection*] is an address in [heap]; [leases] are those held by callers. *)
Record pool := mkPool {
  free : list nat; closed_ : bool; heap : gmap nat tcp; leases : list nat; kern : kernel;
  address_ : bool; port_ : Z; slots_ : Z; options_ : TransportOptions
}.
Definition upd_free (l : list nat) (p : pool) : pool :=
  mkPool l (closed_ p) (heap p) (leases p) (kern p) (address_ p) (port_ p) (slots_ p) (options_ p).
Definition upd_leases (l : list nat) (p : pool) : pool :=
  mkPool (free p) (closed_ p) (heap p) l (kern p) (address_ p) (port_ p) (slots_ p) (options_ p).
Definition upd_heap (h : gmap nat tcp) (k : kernel) (p : pool) : pool :=
  mkPool (free p) (closed_ p) h (leases p) k (address_ p) (port_ p) (slots_ p) (options_ p).
Definition upd_closed (p : pool) : pool :=
  mkPool (free p) true (heap p) (leases p) (kern p) (address_ p) (port_ p) (slots_ p) (options_ p).

(** Running a method of connection [a]; there is none at an address that is not in the heap. *)
Definition get_tcp (a : nat) : M pool tcp := fun p => (p, match heap p !! a with Some t => Ret t | None => Undef end).
Definition on_tcp {A} (a : nat) (m : M TcpConnection.sys A) : M pool A := fun p =>
  match heap p !! a with
  | Some t => let '((t', k'), r) := m (t, kern p) in (upd_heap (<[a := t']> (heap p)) k' p, r)
  | None => (p, Undef)
  end.
Definition delete_tcp (a : nat) : M pool unit :=
  on_tcp a TcpConnection.destroy ;;
  modify (fun p => upd_heap (delete a (heap p)) (kern p) p).

(** * Operations *)

(** The loop of the constructor. *)
Fixpoint make_connections (o : TransportOptions) (n : nat) (k : kernel) : kernel * outcome (list tcp) :=
  match n with
  | O => (k, Ret [])
  | S n =>
      let '(k, r) := TcpConnection.make o k in
      match r with
      | Ret t => let '(k, l) := make_connections o n k in (k, l ← l ; Ret (t :: l))
      | Throw e => (k, Throw e) | Undef => (k, Undef) | Blocked => (k, Blocked)
      end
  end.
(** Times in milliseconds; [valid_address] is the result of [inet_pton]. *)
Definition make (valid_address : bool) (port size : Z) (o : TransportOptions) (acquire_timeout : Z) (k : kernel) : outcome pool :=
  if (size =? 0) || (4096 <? size) || (port =? 0) || negb valid_address || (acquire_timeout <=? 0) || (24 * 3600 * 1000 <? acquire_timeout)
  then Throw (KvError invalid_argument)
  else
    let '(k, l) := make_connections o (Z.to_nat size) k in
    l ← l ; Ret (mkPool (seq 0 (length l)) false (map_seq 0 l) [] k valid_address port size o).

Definition Endpoint (p : pool) : ClientEndpoint := mkClientEndpoint (address_ p) (port_ p) (slots_ p) (options_ p).
Definition Address (p : pool) : bool := address_ p.
Definition Port (p : pool) : Z := port_ p.
Definition Slots (p : pool) : Z := slots_ p.
Definition Options (p : pool) : TransportOptions := options_ p.

Fixpoint clear (l : list nat) : M pool unit :=
  match l with
  | [] => modify (upd_free [])
  | a :: l => delete_tcp a ;; clear l
  end.
Definition Close : M pool unit :=
  modify upd_closed ;;
  p ← get_state ;
  clear (free p).
(** The destructor. *)
Definition destroy : M pool unit := Close.

(** The critical section of [Acquire]; [expired] is whether the timeout has passed. *)
Definition Take (expired : bool) : M pool nat :=
  p ← get_state ;
  if closed_ p then throw (KvError closed) else
  match last (free p) with
  | None => if expired then throw (KvError timeout) else lift Blocked
  | Some a => modify (fun p => upd_leases (leases p ++ [a]) (upd_free (removelast (free p)) p)) ;; mret a
  end.

(** The deleter of a lease. *)
Definition Release (a : nat) : M pool unit :=
  modify (fun p => upd_leases (filter (fun b => b <> a) (leases p)) p) ;;
  p ← get_state ;
  if closed_ p then delete_tcp a else modify (fun p => upd_free (free p ++ [a]) p).

(** The rest of [Acquire]; an exception releases the lease. *)
Definition Establish (d : dial) (a : nat) : M pool nat :=
  t ← get_tcp a ;
  p ← get_state ;
  ok ← (if TcpConnection.IsConnected t then mret true else on_tcp a (TcpConnection.Connect d (address_ p) (port_ p))) ;
  if (ok : bool) then on_tcp a TcpConnection.BeginRequest ;; mret a
  else
    t ← get_tcp a ;
    Release a ;;
    throw (KvError (if TcpConnection.TimedOut t then timeout else connection)).
Definition Acquire (expired : bool) (d : dial) : M pool nat := a ← Take expired ; Establish d a.

(** * Interleavings *)

(** A caller takes a connection, brings it up, uses it and returns it; the pool is closed.  The kernel's
    new descriptors are not open. *)
Inductive step : pool -> pool -> Prop :=
| step_take p expired p' a : Take expired p = (p', Ret a) -> step p p'
| step_establish p d a t p' r : a ∈ leases p -> heap p !! a = Some t -> TcpConnection.fresh_dial d (t, kern p) ->
    Establish d a p = (p', r) -> (exists b, r = Ret b) \/ (exists e, r = Throw e) -> step p p'
| step_send p a data p' r : a ∈ leases p -> on_tcp a (TcpConnection.SendAll data) p = (p', Ret r) -> step p p'
| step_recv p a len p' r : a ∈ leases p -> on_tcp a (TcpConnection.RecvAll len) p = (p', Ret r) -> step p p'
| step_release p a p' : a ∈ leases p -> Release a p = (p', Ret tt) -> step p p'
| step_close p p' : Close p = (p', Ret tt) -> step p p'.
Inductive reachable (p0 : pool) : pool -> Prop :=
| reach_make : reachable p0 p0
| reach_step p p' : reachable p0 p -> step p p' -> reachable p0 p'.

(** * The invariant *)

Import TcpConnection(owned, holds, opened, fd_, epoll_).

(** The open descriptors are [X] and those of the connections, which share none. *)
Record separated (X : gset Z) (h : gmap nat tcp) (O : gset Z) : Prop := {
  s_opened : forall z, z ∈ O <-> z ∈ X \/ exists a t, h !! a = Some t /\ z ∈ owned t;
  s_frame : forall a t, h !! a = Some t -> owned t ## X /\ (0 <= fd_ t -> fd_ t <> epoll_ t);
  s_apart : forall a b ta tb, h !! a = Some ta -> h !! b = Some tb -> a <> b -> owned ta ## owned tb
}.
Record pool_inv (X : gset Z) (p : pool) : Prop := {
  p_nodup : NoDup (free p ++ leases p);
  p_heap : forall a, a ∈ free p ++ leases p <-> is_Some (heap p !! a);
  p_count : zlen (free p ++ leases p) <= slots_ p /\ (closed_ p = false -> zlen (free p ++ leases p) = slots_ p);
  p_closed : closed_ p = true -> free p = [];
  p_fds : separated X (heap p) (opened (kern p))
}.

Lemma disjoint_weaken (A B C : gset Z) : A ## B -> C ⊆ B -> A ## C.
Proof. intros H Hs z Ha Hc. by apply (H z), Hs. Qed.

Lemma separated_holds X h k a t : separated X h (opened k) -> h !! a = Some t -> holds (opened k ∖ owned t) (t, k).
Proof.
  intros [H1 H2 H3] Ha. split; [|split; [|apply (H2 a t Ha)]]; cbn; [|set_solver]. apply set_eq. intros z. rewrite elem_of_union, elem_of_difference.
  destruct (decide (z ∈ owned t)) as [Hz|Hz]; [|tauto]. split; [tauto|]. intros _. apply H1. right. by exists a, t.
Qed.
Lemma separated_update X h k k' a t t' : separated X h (opened k) -> h !! a = Some t -> holds (opened k ∖ owned t) (t', k') -> separated X (<[a := t']> h) (opened k').
Proof.
  intros [H1 H2 H3] Ha (G1 & G2 & G3). cbn in *.
  assert (forall b tb, h !! b = Some tb -> b <> a -> owned tb ⊆ opened k ∖ owned t) as Hother.
  { intros b tb Hb Hne z Hz. apply elem_of_difference. split; [apply H1; right; by exists b, tb|]. intros Hz'. by apply (H3 b a tb t Hb Ha Hne z). }
  assert (X ⊆ opened k ∖ owned t) as HX by (intros z Hz; apply elem_of_difference; split; [apply H1; by left|intros Hz'; by apply (proj1 (H2 a t Ha) z)]).
  split.
  - intros z. rewrite G1, elem_of_union, elem_of_difference, H1. split.
    + intros [Hz|[[Hz|(b & tb & Hb & Hz)] Hn]]; [right; exists a, t'; by rewrite lookup_insert_eq|by left|]. right. exists b, tb. split; [|done].
      rewrite lookup_insert_ne; [done|]. intros <-. by simplify_eq.
    + intros [Hz|(b & tb & Hb & Hz)]; [right; split; [by left|]; by apply HX, elem_of_difference in Hz as [_ ?]|]. apply lookup_insert_Some in Hb as [[<- <-]|[Hne Hb]]; [by left|].
      right. pose proof (Hother b tb Hb ltac:(done) z Hz) as [_ ?]%elem_of_difference. split; [right; by exists b, tb|done].
  - intros b tb Hb. apply lookup_insert_Some in Hb as [[<- <-]|[Hne Hb]]; [|by apply (H2 b)]. split; [|done]. by eapply disjoint_weaken.
  - intros b c tb tc Hb Hc Hbc. apply lookup_insert_Some in Hb as [[<- <-]|[Hnb Hb]]; apply lookup_insert_Some in Hc as [[<- <-]|[Hnc Hc]]; [done| | |by apply (H3 b c)].
    + eapply disjoint_weaken; [exact G2|]. by apply (Hother c).
    + symmetry. eapply disjoint_weaken; [exact G2|]. by apply (Hother b).
Qed.
Lemma separated_delete X h k k' a t : separated X h (opened k) -> h !! a = Some t -> opened k' = opened k ∖ owned t -> separated X (delete a h) (opened k').
Proof.
  intros [H1 H2 H3] Ha Ho. split.
  - intros z. rewrite Ho, elem_of_difference, H1. split.
    + intros [[Hz|(b & tb & Hb & Hz)] Hn]; [by left|]. right. exists b, tb. split; [|done]. rewrite lookup_delete_ne; [done|]. intros <-. by simplify_eq.
    + intros [Hz|(b & tb & Hb & Hz)]; [split; [by left|]; intros Hz'; by apply (proj1 (H2 a t Ha) z)|]. apply lookup_delete_Some in Hb as [Hne Hb].
      split; [right; by exists b, tb|]. intros Hz'. by apply (H3 a b t tb Ha Hb Hne z).
  - intros b tb [_ Hb]%lookup_delete_Some. by apply (H2 b).
  - intros b c tb tc [_ Hb]%lookup_delete_Some [_ Hc]%lookup_delete_Some. by apply (H3 b c).
Qed.

(** ** Steps *)

Lemma filter_absent (a : nat) (l : list nat) : a ∉ l -> filter (fun b => b <> a) l = l.
Proof. induction l as [|b l IH]; [done|]. intros [Hb Hl]%not_elem_of_cons. by rewrite filter_cons_True, IH. Qed.
Lemma filter_out (a : nat) (l : list nat) : NoDup l -> a ∈ l -> l ≡ₚ a :: filter (fun b => b <> a) l.
Proof.
  induction 1 as [|b l Hb Hl IH]; [by intros ?%not_elem_of_nil|]. intros [->|Ha]%elem_of_cons.
  - rewrite filter_cons_False by (by intros ?). by rewrite filter_absent.
  - rewrite filter_cons_True by (by intros ->). rewrite (IH Ha) at 1. by rewrite Permutation_swap.
Qed.

Lemma delete_tcp_run X p a t : separated X (heap p) (opened (kern p)) -> heap p !! a = Some t ->
  exists k, delete_tcp a p = (upd_heap (delete a (heap p)) k p, Ret tt) /\ separated X (delete a (heap p)) (opened k).
Proof.
  intros Hs Ha. destruct (TcpConnection.destroy_holds _ _ (separated_holds _ _ _ _ _ Hs Ha)) as ([t' k'] & E & Ho). unfold delete_tcp, on_tcp, mbind, M_bind. rewrite Ha, E. cbn.
  exists k'. unfold modify. cbn. rewrite delete_insert_eq. split; [done|]. by eapply separated_delete.
Qed.

Lemma clear_run X l p : NoDup (l ++ leases p) -> (forall a, a ∈ l ++ leases p <-> is_Some (heap p !! a)) -> separated X (heap p) (opened (kern p)) ->
  exists h k, clear l p = (upd_free [] (upd_heap h k p), Ret tt) /\ (forall a, a ∈ leases p <-> is_Some (h !! a)) /\ separated X h (opened k).
Proof.
  revert p. induction l as [|a l IH]; intros p Hnd Hh Hs; [exists (heap p), (kern p); by destruct p|].
  destruct (proj1 (Hh a)) as [t Ha]; [by left|]. destruct (delete_tcp_run X p a t Hs Ha) as (k & E & Hs'). cbn [clear]. unfold mbind, M_bind. rewrite E.
  apply NoDup_cons in Hnd as [Hn Hnd]. destruct (IH (upd_heap (delete a (heap p)) k p)) as (h & k' & E' & ? & ?); [done| |done|].
  - intros b. cbn. rewrite lookup_delete_is_Some, <-Hh. cbn [app]. rewrite elem_of_cons. split; [intros Hb; split; [by intros ->|by right]|intros [? [?|?]]; [by subst|done]].
  - exists h, k'. by rewrite E'.
Qed.

(** A method that keeps to its own descriptors. *)
Lemma on_tcp_run {A} X p a t (m : M TcpConnection.sys A) : pool_inv X p -> heap p !! a = Some t -> holds (opened (kern p) ∖ owned t) (m (t, kern p)).1 ->
  on_tcp a m p = (upd_heap (<[a := (m (t, kern p)).1.1]> (heap p)) (m (t, kern p)).1.2 p, (m (t, kern p)).2) /\
  pool_inv X (upd_heap (<[a := (m (t, kern p)).1.1]> (heap p)) (m (t, kern p)).1.2 p).
Proof.
  intros [H1 H2 H3 H4 H5] Ha Hh. unfold on_tcp. rewrite Ha. destruct (m (t, kern p)) as [[t' k'] r]. cbn in *. split; [done|]. split; cbn; try done.
  - intros b. rewrite H2. destruct (decide (a = b)) as [<-|Hne]; [rewrite lookup_insert_eq, Ha; split; by eexists|by rewrite lookup_insert_ne].
  - by eapply separated_update.
Qed.
Lemma preserved_run {A} X p a (m : M TcpConnection.sys A) p' r : pool_inv X p -> (forall Y, TcpConnection.preserves Y m) -> a ∈ leases p -> on_tcp a m p = (p', r) -> pool_inv X p' /\ leases p' = leases p.
Proof.
  intros Hi Hm Ha E. destruct (proj1 (p_heap _ _ Hi a)) as [t Ht]; [apply elem_of_app; by right|].
  destruct (on_tcp_run X p a t m Hi Ht) as [E' Hi']; [by apply Hm, (separated_holds X (heap p) _ a), Ht; apply Hi|]. rewrite E in E'. injection E' as -> _. done.
Qed.

Lemma Take_inv X p expired p' a : pool_inv X p -> Take expired p = (p', Ret a) -> pool_inv X p' /\ a ∈ leases p' /\ (a ∉ leases p) /\ free p = free p' ++ [a].
Proof.
  intros [H1 H2 H3 H4 H5]. unfold Take, mbind, M_bind. cbn. destruct (closed_ p) eqn:Ec; [done|]. destruct (last (free p)) as [b|] eqn:El; [|by destruct expired].
  intros [= <- <-]. apply last_Some in El as [l Hl]. rewrite Hl in *. cbn. rewrite removelast_last. rewrite <-app_assoc in *. cbn in *.
  assert (l ++ b :: leases p ≡ₚ l ++ leases p ++ [b]) as Hp by (by rewrite (Permutation_app_comm (leases p))).
  split; [|split; [apply elem_of_app; right; by left|split; [|done]]].
  - split; cbn; try done; [by rewrite <-Hp|by intros c; rewrite <-Hp| |congruence]. unfold zlen in *. rewrite <-Hp. destruct H3 as [? H3]. split; [done|]. intros _. by apply H3.
  - apply NoDup_app in H1 as (_ & _ & H1). by apply NoDup_cons in H1 as [? _].
Qed.

Lemma Release_inv X p a : pool_inv X p -> a ∈ leases p -> exists p', Release a p = (p', Ret tt) /\ pool_inv X p' /\ leases p' = filter (fun b => b <> a) (leases p).
Proof.
  intros [H1 H2 H3 H4 H5] Ha. pose proof H1 as (_ & _ & Hnl)%NoDup_app. pose proof (filter_out a (leases p) Hnl Ha) as Hp. set (ls := filter _ (leases p)) in *.
  assert (free p ++ leases p ≡ₚ (free p ++ [a]) ++ ls) as Hperm by (by rewrite Hp, <-app_assoc).
  unfold Release, mbind, M_bind. cbn. fold ls. destruct (closed_ p) eqn:Ec.
  - specialize (H4 eq_refl). rewrite H4 in *. cbn in *. destruct (proj1 (H2 a) Ha) as [t Ht].
    destruct (delete_tcp_run X (upd_leases ls p) a t H5 Ht) as (k & E & Hs). rewrite E. eexists. split; [done|]. split; [|done]. rewrite Hp in H1. apply NoDup_cons in H1 as [Hna Hls].
    split; cbn; rewrite ?H4; cbn; try done.
    + intros b. rewrite lookup_delete_is_Some, <-H2, Hp, elem_of_cons. split; [intros Hb; split; [by intros ->|by right]|intros [? [?|?]]; [by subst|done]].
    + split; [|congruence]. destruct H3 as [H3 _]. unfold zlen in *. rewrite Hp in H3. cbn in H3. lia.
  - eexists. split; [done|]. split; [|done]. split; cbn; try done; [by rewrite <-Hperm|by intros b; rewrite <-Hperm| |congruence]. unfold zlen in *. rewrite <-Hperm. destruct H3 as [? H3]. split; [done|]. intros _. by apply H3.
Qed.

Lemma Close_inv X p : pool_inv X p -> exists p', Close p = (p', Ret tt) /\ pool_inv X p' /\ closed_ p' = true /\ leases p' = leases p.
Proof.
  intros [H1 H2 H3 H4 H5]. destruct (clear_run X (free p) (upd_closed p) H1 H2 H5) as (h & k & E & Hh & Hs). unfold Close, mbind, M_bind. cbn in *. rewrite E. eexists. split; [done|].
  split; [|done]. apply NoDup_app in H1 as (_ & _ & H1). split; cbn; try done. split; [|congruence]. unfold zlen in *. rewrite length_app in H3. lia.
Qed.

(** What [Establish] leaves: a connection that is up, or an exception after the lease was returned. *)
Definition established (X : gset Z) (p : pool) (a : nat) (p' : pool) (r : outcome nat) : Prop :=
  match r with
  | Ret b => b = a /\ pool_inv X p' /\ leases p' = leases p /\ free p' = free p /\ exists t, heap p' !! a = Some t /\ TcpConnection.IsConnected t = true /\ TcpConnection.TimedOut t = false
  | Throw e => (e = KvError timeout \/ e = KvError connection) /\ pool_inv X p' /\ leases p' = filter (fun b => b <> a) (leases p)
  | Blocked => True
  | Undef => False
  end.
Lemma BeginRequest_run t k : exists k', TcpConnection.BeginRequest (t, k) =
  ((TcpConnection.set_deadline (TcpConnection.clock k (TcpConnection.ticks k) + io_timeout (TcpConnection.options_ t) * 1000000) (TcpConnection.set_timed_out false t), k'), Ret tt).
Proof. by eexists. Qed.

Lemma begin_inv X p a t : pool_inv X p -> heap p !! a = Some t -> 0 <= fd_ t ->
  let '(p', r) := (on_tcp a TcpConnection.BeginRequest ;; mret a) p in established X p a p' r.
Proof.
  intros Hi Ha Hf. pose proof (TcpConnection.preserves_BeginRequest _ _ (separated_holds X (heap p) (kern p) a t (p_fds _ _ Hi) Ha)) as Hh.
  destruct (on_tcp_run X p a t _ Hi Ha Hh) as [E Hi']. destruct (BeginRequest_run t (kern p)) as [k' Ek]. unfold mbind at 1, M_bind at 1. rewrite E. rewrite Ek in *. cbn in *.
  split; [done|]. split; [done|]. split; [done|]. split; [done|]. eexists. split; [apply lookup_insert_eq|]. split; [|done]. by apply Z.leb_le.
Qed.

Lemma Establish_inv X p d a t : pool_inv X p -> a ∈ leases p -> heap p !! a = Some t -> TcpConnection.fresh_dial d (t, kern p) ->
  let '(p', r) := Establish d a p in established X p a p' r.
Proof.
  intros Hi Ha Ht Hd. unfold Establish. unfold mbind at 1 2, M_bind at 1 2. unfold get_tcp at 1. rewrite Ht. cbn [get_state].
  destruct (TcpConnection.IsConnected t) eqn:Ec; [unfold mbind at 1, M_bind at 1; cbn [mret M_ret]; by apply (begin_inv X p a t), Z.leb_le|].
  pose proof (separated_holds X (heap p) (kern p) a t (p_fds _ _ Hi) Ht) as Hh. pose proof (TcpConnection.Connect_holds _ d (address_ p) (port_ p) (t, kern p) Hh Hd) as Hcon.
  unfold mbind at 1, M_bind at 1. destruct (on_tcp_run X p a t (TcpConnection.Connect d (address_ p) (port_ p)) Hi Ht) as [E Hi']; [by destruct (TcpConnection.Connect _ _ _ _) as [? ?]; apply Hcon|].
  rewrite E. destruct (TcpConnection.Connect d (address_ p) (port_ p) (t, kern p)) as [[t' k'] r]. destruct Hcon as [_ Hr]. cbn [fst snd] in *. set (p1 := upd_heap _ _ p) in *.
  assert (heap p1 !! a = Some t') as Ht' by apply lookup_insert_eq. destruct r as [[]|e| |]; try done; [by apply (begin_inv X p1 a t')|].
  unfold mbind, M_bind, get_tcp. rewrite Ht'. destruct (Release_inv X p1 a Hi' Ha) as (p2 & -> & Hi2 & Hl). cbn. split; [|done]. destruct (TcpConnection.TimedOut t'); auto.
Qed.

(** ** The constructor *)

Lemma make_connections_spec o n k : let '(k', r) := make_connections o n k in
  opened k' = opened k /\ match r with Ret l => length l = n /\ Forall (fun t => owned t = ∅ /\ fd_ t < 0) l | Throw _ => True | _ => False end.
Proof.
  revert k. induction n as [|n IH]; intros k; cbn [make_connections]; [by split|]. unfold TcpConnection.make. destruct (_ || _); [by split|].
  match goal with |- context [TcpConnection.BeginRequest ?s] => destruct (TcpConnection.BeginRequest s) as [s' r] eqn:E end.
  destruct (BeginRequest_run (TcpConnection.mkTcp (-1) (-1) o 0 false) k) as [k' Ek]. unfold TcpConnection.BeginRequest, mbind, M_bind in E. cbn in E. injection E as <- <-. cbn.
  match goal with |- context [make_connections o n ?k1] => specialize (IH k1); destruct (make_connections o n k1) as [k2 l] end. destruct IH as [Ho Hl]. cbn in Ho.
  split; [done|]. destruct l as [l|e| |]; try done. cbn. destruct Hl as [? ?]. split; [lia|]. constructor; [|done]. split; [by vm_compute|done].
Qed.

Lemma make_pool_inv va port size o timeout k p : make va port size o timeout k = Ret p -> 0 <= size -> pool_inv (opened k) p /\ slots_ p = size.
Proof.
  intros E Hs. unfold make in E. destruct (_ || _); [done|]. pose proof (make_connections_spec o (Z.to_nat size) k) as Hm.
  destruct (make_connections o (Z.to_nat size) k) as [k' r]. destruct Hm as [Ho Hr]. destruct r as [l|e| |]; try done. destruct Hr as [Hl Hf]. cbn in E. injection E as <-. split; [|done].
  assert (forall a t, l !! a = Some t -> owned t = ∅ /\ fd_ t < 0) as Hnone by (intros a t Ha; by eapply (Forall_lookup_1 _ _ a) in Hf).
  split; cbn; rewrite ?app_nil_r; try done.
  - apply NoDup_seq.
  - intros a. rewrite elem_of_seq, lookup_map_seq_0, lookup_lt_is_Some. lia.
  - unfold zlen. rewrite length_seq. lia.
  - rewrite Ho. split.
    + intros z. split; [by left|]. intros [?|(a & t & Ha & Hz)]; [done|]. rewrite lookup_map_seq_0 in Ha. by rewrite (proj1 (Hnone a t Ha)) in Hz.
    + intros a t Ha. rewrite lookup_map_seq_0 in Ha. destruct (Hnone a t Ha) as [-> ?]. split; [apply disjoint_empty_l|lia].
    + intros a c ta tc Ha. rewrite lookup_map_seq_0 in Ha. destruct (Hnone a ta Ha) as [-> ?]. intros _ _. apply disjoint_empty_l.
Qed.

Lemma pool_step_inv X p p' : pool_inv X p -> step p p' -> pool_inv X p'.
Proof.
  intros Hi Hs. destruct Hs as [p expired p' a E|p d a t p' r Ha Ht Hd E Hr|p a data p' r Ha E|p a len p' r Ha E|p a p' Ha E|p p' E].
  - by eapply Take_inv.
  - pose proof (Establish_inv X p d a t Hi Ha Ht Hd) as H. rewrite E in H. destruct Hr as [[? ->]|[? ->]]; apply H.
  - eapply preserved_run; [exact Hi| |exact Ha|exact E]. intros Y. apply TcpConnection.preserves_SendAll.
  - eapply preserved_run; [exact Hi| |exact Ha|exact E]. intros Y. apply TcpConnection.preserves_RecvAll.
  - destruct (Release_inv X p a Hi Ha) as (p2 & E2 & Hi2 & _). congruence.
  - destruct (Close_inv X p Hi) as (p2 & E2 & Hi2 & _). congruence.
Qed.
Lemma pool_reachable_inv X p0 p : pool_inv X p0 -> reachable p0 p -> pool_inv X p.
Proof. intros H0. induction 1 as [|p p' _ IH Hs]; [done|by eapply pool_step_inv]. Qed.

(** * What the pool promises *)

(** C29. No connection is lent twice and none is lost: at any moment the free and the lent connections are
    distinct, and while the pool is open they are all its slots, also after failed attempts to
    connect.  The descriptors open are those open before and those these connections own; when the
    pool is closed and the leases are back, none of its descriptors is left open. *)
Theorem pool_lends_safely va port size o timeout k p0 p :
  make va port size o timeout k = Ret p0 -> 0 <= size -> reachable p0 p ->
  NoDup (free p ++ leases p) /\ (closed_ p = false -> zlen (free p ++ leases p) = slots_ p) /\
  (forall z, z ∈ opened (kern p) <-> z ∈ opened k \/ exists a t, a ∈ free p ++ leases p /\ heap p !! a = Some t /\ z ∈ owned t) /\
  (closed_ p = true -> leases p = [] -> opened (kern p) = opened k).
Proof.
  intros Hm Hs Hr. destruct (make_pool_inv _ _ _ _ _ _ _ Hm Hs) as [H0 _]. pose proof (pool_reachable_inv _ _ _ H0 Hr) as [H1 H2 [_ H3] H4 [H5 _ _]].
  assert (forall z, z ∈ opened (kern p) <-> z ∈ opened k \/ exists a t, a ∈ free p ++ leases p /\ heap p !! a = Some t /\ z ∈ owned t) as Hz.
  { intros z. rewrite H5. split; (intros [?|(a & t & Ha)]; [by left|right; exists a, t]); [destruct Ha as [Ha ?]; split; [apply H2; by eexists|done]|tauto]. }
  split; [done|]. split; [done|]. split; [done|]. intros Hc Hl. apply set_eq. intros z. rewrite Hz, (H4 Hc), Hl. split; [|by left].
  intros [?|(a & t & Ha & _)]; [done|by apply not_elem_of_nil in Ha].
Qed.

(** [Acquire] on every path: it returns a connection that is up and was not lent; it throws [closed] on a
    closed pool and [timeout] when the wait has expired with nothing free, changing nothing; when the
    connection cannot be made it throws [timeout] or [connection] and the slot is back; it blocks
    only for a free slot or in the kernel. *)
Lemma Acquire_outcomes va port size o timeout_ k p0 p expired d p' r :
  make va port size o timeout_ k = Ret p0 -> 0 <= size -> reachable p0 p ->
  (forall a t, heap p !! a = Some t -> TcpConnection.fresh_dial d (t, kern p)) ->
  Acquire expired d p = (p', r) ->
  match r with
  | Ret a => (a ∉ leases p) /\ leases p' = leases p ++ [a] /\ exists t, heap p' !! a = Some t /\ TcpConnection.IsConnected t = true /\ TcpConnection.TimedOut t = false
  | Throw e => (e = KvError closed /\ closed_ p = true /\ p' = p) \/ (e = KvError timeout /\ expired = true /\ free p = [] /\ p' = p) \/
      ((e = KvError timeout \/ e = KvError connection) /\ leases p' = leases p)
  | Blocked => closed_ p = false
  | Undef => False
  end.
Proof.
  intros Hm Hs Hr Hd E. destruct (make_pool_inv _ _ _ _ _ _ _ Hm Hs) as [H0 _]. pose proof (pool_reachable_inv _ _ _ H0 Hr) as Hi. unfold Acquire, mbind, M_bind in E.
  destruct (Take expired p) as [p1 r1] eqn:Et. destruct r1 as [a|e| |].
  - destruct (Take_inv _ _ _ _ _ Hi Et) as (Hi1 & Ha & Hna & Hfree). assert (leases p1 = leases p ++ [a] /\ heap p1 = heap p /\ kern p1 = kern p /\ closed_ p = false) as (Hl & Hh & Hk & Hc).
    { unfold Take, mbind, M_bind in Et. cbn in Et. destruct (closed_ p); [done|]. destruct (last (free p)); [|by destruct expired]. by injection Et as <- <-. }
    destruct (proj1 (p_heap _ _ Hi1 a)) as [t Ht]; [apply elem_of_app; by right|]. pose proof (Establish_inv _ p1 d a t Hi1 Ha Ht) as He. rewrite E in He.
    specialize (He ltac:(rewrite Hk; apply (Hd a); by rewrite <-Hh)). destruct r as [b|e| |]; try done; cbn in He.
    + destruct He as (-> & _ & Hl' & _ & Hx). rewrite Hl'. done.
    + destruct He as (He & _ & Hl'). right. right. split; [done|]. rewrite Hl', Hl, filter_app, filter_absent by done. rewrite filter_cons_False by (by intros ?). apply app_nil_r.
  - injection E as <- <-. unfold Take, mbind, M_bind in Et. cbn in Et. destruct (closed_ p) eqn:Ec; [injection Et as <- <-; by left|]. destruct (last (free p)) eqn:El; [done|].
    apply last_None in El. destruct expired; [|done]. injection Et as <- <-. right. by left.
  - unfold Take, mbind, M_bind in Et. cbn in Et. destruct (closed_ p); [done|]. destruct (last (free p)); [done|]. by destruct expired.
  - injection E as <- <-. unfold Take, mbind, M_bind in Et. cbn in Et. by destruct (closed_ p).
Qed.

(** * A concrete pool *)

Definition two_slots : outcome pool := make true 8080 2 default_transport_options 5000 TcpConnection.ticking.
Definition pool0 : pool := match two_slots with Ret p => p | _ => mkPool [] true ∅ [] TcpConnection.ticking false 0 0 default_transport_options end.
Definition pool1 : pool := (Take false pool0).1.
Lemma pool1_reachable : reachable pool0 pool1.
Proof. apply (reach_step _ pool0); [apply reach_make|]. eapply (step_take _ false _ 1). vm_compute. reflexivity. Qed.
Lemma pool_lends_safely_witness : NoDup (free pool1 ++ leases pool1) /\ free pool1 ++ leases pool1 = [0; 1]%nat.
Proof.
  split; [|vm_compute; reflexivity].
  apply (pool_lends_safely true 8080 2 default_transport_options 5000 TcpConnection.ticking pool0 pool1); [vm_compute; reflexivity|lia|exact pool1_reachable].
Defined.

End ConnectionPool.
