(* ===== verification/TcpServer.v ===== *)
(** [kvrpc::TcpServer] (src/tcp_server.cpp, include/kvrpc/tcp_server.h): connections served by reactor
    threads, a bounded job queue and worker threads.  Every function of [Runtime] and [Io] is a
    definition; the threads interleave at the level of the reactor's callbacks and of the critical
    sections of the job queue. *)
From S2P Require Import Prelude Buffer EventLoop.
Import EventLoop.

(** [TcpServer::Reply] *)
Record Reply := mkReply { consumed : Z; r_bytes : bytes; close : bool }.

Module TcpServer.

(** * Configuration *)

Record ServerOptions := mkServerOptions {
  io_threads : Z; workers : Z; queue_capacity : Z; queue_bytes : Z; output_bytes : Z; pipeline : Z; idle_timeout : Z
}.
Definition default_options : ServerOptions := mkServerOptions 2 4 1024 (64 * 1024 * 1024) (8 * 1024 * 1024) 16 30000.

(** The members of [TcpServer] fixed while it runs; [batch_handler_] is whether one is set. *)
Record server := mkServer {
  max_connections_ : Z;
  max_frame_bytes_ : Z;
  options_ : ServerOptions;
  batch_handler_ : bool;
  sizer_ : option (bytes -> outcome Z)
}.

(** [valid_address] is the result of [inet_pton]. *)
Definition TcpServer_make (port : Z) (valid_address : bool) (connections frame_bytes : Z) : outcome server :=
  if (port <? 0) || (65535 <? port) || (connections =? 0) || (frame_bytes =? 0) || (64 * 1024 * 1024 + 16 <? frame_bytes) || negb valid_address
  then Throw std_invalid_argument
  else
    let o := default_options in
    Ret (mkServer connections frame_bytes
           (mkServerOptions (io_threads o) (workers o) (queue_capacity o) (queue_bytes o)
              (Z.max (output_bytes o) (frame_bytes * 2)) (pipeline o) (idle_timeout o)) false None).

Definition configure (o : ServerOptions) (s : server) : outcome server :=
  if (io_threads o =? 0) || (256 <? io_threads o) || (workers o =? 0) || (256 <? workers o) || (queue_capacity o =? 0) ||
     (queue_bytes o =? 0) || (output_bytes o <? max_frame_bytes_ s) || (pipeline o =? 0) || (idle_timeout o <=? 0)
  then Throw std_invalid_argument
  else Ret (mkServer (max_connections_ s) (max_frame_bytes_ s) o (batch_handler_ s) (sizer_ s)).

(** * State *)

(** A connection.  [inbox] and [wire] are the kernel's: the bytes the peer has sent and not yet been
    received, and the bytes sent to it.  [stream], [frames] and [answers] are history variables: all
    bytes received, the inputs submitted and the replies accepted, each with its input.  A peer is
    closed exactly when it is no longer in [peers], which holds the only lasting reference to it. *)
Record Peer := mkPeer {
  fd : Z;
  timer : Z;
  input : Buffer.buffer;
  output : list bytes;
  sent : Z;
  p_output_bytes : Z;
  pending : Z;
  eof : bool;
  scheduled : bool;
  incomplete : bool;
  inbox : bytes;
  wire : bytes;
  stream : bytes;
  frames : list bytes;
  answers : list (bytes * Reply)
}.
Definition new_peer (fd : Z) (arriving : bytes) : Peer :=
  mkPeer fd 0 Buffer.empty [] 0 0 0 false false false arriving [] [] [] [].

(** Updates of one peer. *)
Definition set_timer (t : Z) (p : Peer) : Peer :=
  mkPeer (fd p) (t) (input p) (output p) (sent p) (p_output_bytes p) (pending p) (eof p) (scheduled p) (incomplete p) (inbox p) (wire p) (stream p) (frames p) (answers p).
Definition set_scheduled (b : bool) (p : Peer) : Peer :=
  mkPeer (fd p) (timer p) (input p) (output p) (sent p) (p_output_bytes p) (pending p) (eof p) (b) (incomplete p) (inbox p) (wire p) (stream p) (frames p) (answers p).
Definition set_eof (p : Peer) : Peer :=
  mkPeer (fd p) (timer p) (input p) (output p) (sent p) (p_output_bytes p) (pending p) (true) (scheduled p) (incomplete p) (inbox p) (wire p) (stream p) (frames p) (answers p).
Definition took (n : Z) (chunk : bytes) (p : Peer) : Peer :=
  mkPeer (fd p) (timer p) (input p) (output p) (sent p + n) (u64 (p_output_bytes p - n)) (pending p) (eof p) (scheduled p) (incomplete p) (inbox p) (wire p ++ chunk) (stream p) (frames p) (answers p).
Definition pop_output (p : Peer) : Peer :=
  mkPeer (fd p) (timer p) (input p) (tail (output p)) (0) (p_output_bytes p) (pending p) (eof p) (scheduled p) (incomplete p) (inbox p) (wire p) (stream p) (frames p) (answers p).
Definition received (n : nat) (p : Peer) : Peer :=
  mkPeer (fd p) (timer p) (Buffer.append (take n (inbox p)) (input p)) (output p) (sent p) (p_output_bytes p) (pending p) (eof p) (scheduled p) (false) (drop n (inbox p)) (wire p) (stream p ++ take n (inbox p)) (frames p) (answers p).
Definition submitted (n : Z) (framed : bool) (frame : bytes) (p : Peer) : Peer :=
  mkPeer (fd p) (timer p) (if framed then Buffer.consume n (input p) else input p) (output p) (sent p) (p_output_bytes p) (pending p + 1) (eof p) (scheduled p) (incomplete p) (inbox p) (wire p) (stream p) (frames p ++ [frame]) (answers p).
Definition replied (p : Peer) : Peer :=
  mkPeer (fd p) (timer p) (input p) (output p) (sent p) (p_output_bytes p) (u64 (pending p - 1)) (eof p) (scheduled p) (incomplete p) (inbox p) (wire p) (stream p) (frames p) (answers p).
Definition consumed_input (n : Z) (p : Peer) : Peer :=
  mkPeer (fd p) (timer p) (Buffer.consume n (input p)) (output p) (sent p) (p_output_bytes p) (pending p) (eof p) (scheduled p) (n =? 0) (inbox p) (wire p) (stream p) (frames p) (answers p).
Definition push_output (b : bytes) (p : Peer) : Peer :=
  mkPeer (fd p) (timer p) (input p) (output p ++ [b]) (sent p) (u64 (p_output_bytes p + zlen b)) (pending p) (eof p) (scheduled p) (incomplete p) (inbox p) (wire p) (stream p) (frames p) (answers p).
Definition answered (frame : bytes) (r : Reply) (p : Peer) : Peer :=
  mkPeer (fd p) (timer p) (input p) (output p) (sent p) (p_output_bytes p) (pending p) (eof p) (scheduled p) (incomplete p) (inbox p) (wire p) (stream p) (frames p) (answers p ++ [(frame, r)]).

(** A queued job: the input, and what its completion captures (reactor, peer, size, framed). *)
Record Job := mkJob { j_input : bytes; j_io : nat; j_token : Z; j_size : Z; j_framed : bool }.

(** The tasks and timers the server gives to a reactor; [TReply] also records the input it answers. *)
Inductive task :=
| TPump (token : Z)
| TReply (token size : Z) (framed : bool) (reply : Reply) (answered : bytes)
| TAttach (fd : Z) (arriving : bytes)
| TDeadline (token : Z)
| TCloseAll
| TNothing.
(** The callback of a descriptor holds its peer. *)
Definition callback : Type := Z.

(** The members of [Runtime] behind [mutex], and the atomic counters. *)
Record runtime := mkRuntime {
  jobs : list Job;
  queued : Z;
  closing : bool;
  accepted_ : Z;
  active_ : Z;
  rejected_ : Z;
  requests_ : Z;
  timeouts_ : Z;
  queued_tasks_ : Z;
  queued_bytes_ : Z;
  handler_us_ : Z;
  handler_errors_ : Z
}.
Definition new_runtime : runtime := mkRuntime [] 0 false 0 0 0 0 0 0 0 0 0.

(** What a callback of reactor [io_index] works on. *)
Record io := mkIo { io_index : nat; io_loop : loop task callback; peers : gmap Z Peer; shared : runtime }.

Definition on_rt (f : runtime -> runtime) : M io unit := modify (fun s => mkIo (io_index s) (io_loop s) (peers s) (f (shared s))).
Definition in_loop {A} (m : M (loop task callback) A) : M io A := fun s =>
  let '(l, r) := m (io_loop s) in (mkIo (io_index s) l (peers s) (shared s), r).
Definition put_peer (token : Z) (p : Peer) : M io unit := modify (fun s => mkIo (io_index s) (io_loop s) (<[token := p]> (peers s)) (shared s)).
Definition drop_peer (token : Z) : M io unit := modify (fun s => mkIo (io_index s) (io_loop s) (delete token (peers s)) (shared s)).
Definition get_peer (token : Z) : M io (option Peer) := fun s => (s, Ret (peers s !! token)).

Definition count_active (d : Z) (r : runtime) : runtime :=
  mkRuntime (jobs r) (queued r) (closing r) (accepted_ r) (u64 (active_ r + d)) (rejected_ r) (requests_ r) (timeouts_ r) (queued_tasks_ r) (queued_bytes_ r) (handler_us_ r) (handler_errors_ r).
Definition count_accepted (r : runtime) : runtime :=
  mkRuntime (jobs r) (queued r) (closing r) (u64 (accepted_ r + 1)) (active_ r) (rejected_ r) (requests_ r) (timeouts_ r) (queued_tasks_ r) (queued_bytes_ r) (handler_us_ r) (handler_errors_ r).
Definition count_rejected (r : runtime) : runtime :=
  mkRuntime (jobs r) (queued r) (closing r) (accepted_ r) (active_ r) (u64 (rejected_ r + 1)) (requests_ r) (timeouts_ r) (queued_tasks_ r) (queued_bytes_ r) (handler_us_ r) (handler_errors_ r).
Definition count_request (r : runtime) : runtime :=
  mkRuntime (jobs r) (queued r) (closing r) (accepted_ r) (active_ r) (rejected_ r) (u64 (requests_ r + 1)) (timeouts_ r) (queued_tasks_ r) (queued_bytes_ r) (handler_us_ r) (handler_errors_ r).
Definition count_timeout (r : runtime) : runtime :=
  mkRuntime (jobs r) (queued r) (closing r) (accepted_ r) (active_ r) (rejected_ r) (requests_ r) (u64 (timeouts_ r + 1)) (queued_tasks_ r) (queued_bytes_ r) (handler_us_ r) (handler_errors_ r).
Definition count_handler (us errors : Z) (r : runtime) : runtime :=
  mkRuntime (jobs r) (queued r) (closing r) (accepted_ r) (active_ r) (rejected_ r) (requests_ r) (timeouts_ r) (queued_tasks_ r) (queued_bytes_ r) (u64 (handler_us_ r + us)) (u64 (handler_errors_ r + errors)).
Definition set_jobs (js : list Job) (q tasks bytes : Z) (r : runtime) : runtime :=
  mkRuntime js q (closing r) (accepted_ r) (active_ r) (rejected_ r) (requests_ r) (timeouts_ r) tasks bytes (handler_us_ r) (handler_errors_ r).
Definition set_closing (r : runtime) : runtime :=
  mkRuntime (jobs r) (queued r) true (accepted_ r) (active_ r) (rejected_ r) (requests_ r) (timeouts_ r) (queued_tasks_ r) (queued_bytes_ r) (handler_us_ r) (handler_errors_ r).

(** [stats] *)
Record Stats := mkStats { st_accepted : Z; st_active : Z; st_rejected : Z; st_requests : Z; st_timeouts : Z;
  st_queued_tasks : Z; st_queued_bytes : Z; st_handler_us : Z; st_handler_errors : Z }.
Definition stats (r : runtime) : Stats :=
  mkStats (accepted_ r) (active_ r) (rejected_ r) (requests_ r) (timeouts_ r) (queued_tasks_ r) (queued_bytes_ r) (handler_us_ r) (handler_errors_ r).

(** * The job queue *)

Section Server.
Context (srv : server).
Abbreviation opts := (options_ srv).

Definition Submit (job : Job) (r : runtime) : runtime * bool :=
  if closing r || (queue_capacity opts <=? zlen (jobs r)) || (u64 (queue_bytes opts - queued r) <? zlen (j_input job)) then (r, false)
  else (set_jobs (jobs r ++ [job]) (u64 (queued r + zlen (j_input job))) (u64 (queued_tasks_ r + 1)) (u64 (queued_bytes_ r + zlen (j_input job))) r, true).

(** The critical section of [Work], once [jobs] is not empty. *)
Fixpoint take_jobs (count : nat) (r : runtime) : runtime * list Job :=
  match count, jobs r with
  | S count, j :: js =>
      let n := zlen (j_input j) in
      let '(r', batch) := take_jobs count (set_jobs js (u64 (queued r - n)) (u64 (queued_tasks_ r - 1)) (u64 (queued_bytes_ r - n)) r) in
      (r', j :: batch)
  | _, _ => (r, [])
  end.
Definition take_batch (r : runtime) : runtime * list Job :=
  take_jobs (if batch_handler_ srv then Nat.min 64 (length (jobs r)) else 1%nat) r.

(** The rest of [Work]: the replies of the handler for a batch ([handled] is what it returned or threw),
    after the check of their number. *)
Definition batch_replies (batch : list Job) (handled : outcome (list Reply)) : list Reply * Z :=
  match handled with
  | Ret replies => if bool_decide (length replies = length batch) then (replies, 0)
                   else (replicate (length batch) (mkReply 0 [] true), zlen batch)
  | _ => (replicate (length batch) (mkReply 0 [] true), zlen batch)
  end.
(** The completion of a job posts to the reactor of its peer. *)
Definition completion (jr : Job * Reply) : nat * task :=
  (j_io jr.1, TReply (j_token jr.1) (j_size jr.1) (j_framed jr.1) jr.2 (j_input jr.1)).
(** * The reactor's callbacks *)

(** Replies of [send] and [recv] on a non-blocking socket; a finished list reads as EAGAIN.  [Took]
    also gives the clock after the call.  The kernel takes or gives between 1 and all of the bytes. *)
Inductive send_reply := Took (n now : Z) | SEintr | SEagain | SFailed.
Inductive recv_reply := Got (n : Z) | REof | REintr | REagain | RFailed.
Definition clamp (n hi : Z) : Z := Z.max 1 (Z.min n hi).

Definition Close (token : Z) : M io unit :=
  p ← get_peer token ;
  match p with
  | None => mret tt
  | Some p =>
      in_loop (Cancel (timer p)) ;;
      in_loop (Remove token) ;;
      drop_peer token ;;
      on_rt (count_active (-1))
  end.

(** Times in milliseconds. *)
Definition Deadline (now token : Z) : M io unit :=
  p ← get_peer token ;
  match p with
  | None => mret tt
  | Some p =>
      in_loop (Cancel (timer p)) ;;
      t ← in_loop (At (now + idle_timeout opts) (TDeadline token)) ;
      put_peer token (set_timer t p)
  end.

Definition Schedule (token : Z) : M io unit :=
  p ← get_peer token ;
  match p with
  | None => mret tt
  | Some p => if scheduled p then mret tt else put_peer token (set_scheduled true p) ;; in_loop (Post (TPump token))
  end.

Definition Attach (ok : bool) (now fd : Z) (arriving : bytes) : M io unit :=
  s ← get_state ;
  token ← in_loop (Add ok fd (Z.lor EPOLLIN EPOLLRDHUP) (next_ (io_loop s))) ;
  put_peer token (new_peer fd arriving) ;;
  Deadline now token.

Definition limit : Z := if batch_handler_ srv || negb (bool_decide (is_Some (sizer_ srv))) then 1 else pipeline opts.
Definition budget0 : Z := 256 * 1024.

(** The three loops of [Pump].  [None] means the peer was closed and [Pump] returns. *)
Fixpoint send_loop (token : Z) (sends : list send_reply) (budget : Z) : M io (option Z) :=
  p ← get_peer token ;
  match p with
  | None => mret None
  | Some p =>
      match output p with
      | [] => mret (Some budget)
      | front :: _ =>
          if budget =? 0 then mret (Some budget) else
          match sends with
          | [] | SEagain :: _ => mret (Some budget)
          | SEintr :: sends => send_loop token sends budget
          | SFailed :: _ => Close token ;; mret None
          | Took n now :: sends =>
              let want := Z.min budget (zlen front - sent p) in
              if want <=? 0 then Close token ;; mret None else
              let n := clamp n want in
              let p := took n front.[Z.to_nat (sent p), Z.to_nat n] p in
              (if sent p =? zlen front then put_peer token (pop_output p) ;; Deadline now token else put_peer token p) ;;
              send_loop token sends (budget - n)
          end
      end
  end.

Definition can_read (p : Peer) : bool := (pending p <? limit) && (p_output_bytes p <? output_bytes opts / 2).

Fixpoint recv_loop (token : Z) (can : bool) (recvs : list recv_reply) (budget : Z) : M io (option Z) :=
  p ← get_peer token ;
  match p with
  | None => mret None
  | Some p =>
      if negb (eof p) && can && (Buffer.size (input p) <? max_frame_bytes_ srv) && negb (budget =? 0) then
        match recvs with
        | [] | REagain :: _ => mret (Some budget)
        | REintr :: recvs => recv_loop token can recvs budget
        | RFailed :: _ => Close token ;; mret None
        | REof :: _ => (if bool_decide (inbox p = []) then put_peer token (set_eof p) else mret tt) ;; mret (Some budget)
        | Got n :: recvs =>
            if bool_decide (inbox p = []) then mret (Some budget) else
            let want := Z.min (Z.min 16384 budget) (max_frame_bytes_ srv - Buffer.size (input p)) in
            let n := clamp n (Z.min want (zlen (inbox p))) in
            put_peer token (received (Z.to_nat n) p) ;;
            recv_loop token can recvs (budget - n)
        end
      else mret (Some budget)
  end.

(** The size of the next frame, or [None] when the sizer throws or the frame exceeds the limit. *)
Definition next_size (p : Peer) : option Z :=
  match (match sizer_ srv with Some f => f (Buffer.data (input p)) | None => Ret (Buffer.size (input p)) end) with
  | Ret size => if max_frame_bytes_ srv <? size then None else Some size
  | _ => None
  end.

(** [turns] is how many of the 32 turns are left; the result is [frames]. *)
Fixpoint frame_loop (token : Z) (turns : nat) : M io (option Z) :=
  p ← get_peer token ;
  match p with
  | None => mret None
  | Some p =>
      if negb (Buffer.size (input p) =? 0) && negb (incomplete p) && can_read p then
        match turns with
        | O => mret (Some 33)
        | S turns' =>
            match next_size p with
            | None => Close token ;; mret None
            | Some size =>
                if (size =? 0) || (Buffer.size (input p) <? size) then mret (Some (33 - Z.of_nat turns)) else
                frame ← lift (Buffer.copy size (input p)) ;
                let framed := bool_decide (is_Some (sizer_ srv)) in
                put_peer token (submitted size framed frame p) ;;
                s ← get_state ;
                let '(r, ok) := Submit (mkJob frame (io_index s) token size framed) (shared s) in
                if ok then on_rt (fun _ => r) ;; frame_loop token turns'
                else on_rt count_rejected ;; Close token ;; mret None
            end
        end
      else mret (Some (32 - Z.of_nat turns))
  end.

(** What one callback observes: the system calls on its socket and whether [epoll_ctl] succeeds. *)
Record io_env := mkIoEnv { sends : list send_reply; recvs : list recv_reply; ctl_ok : bool; now : Z }.

Definition finish_pump (e : io_env) (token frames : Z) : M io unit :=
  p ← get_peer token ;
  match p with
  | None => mret tt
  | Some p =>
      (if (32 <=? frames) && (pending p <? limit) then Schedule token else mret tt) ;;
      if eof p && (pending p =? 0) && bool_decide (output p = []) then Close token else
      in_loop (Modify (ctl_ok e) token
        (Z.lor EPOLLRDHUP (Z.lor (if negb (eof p) && can_read p then EPOLLIN else 0) (if bool_decide (output p = []) then 0 else EPOLLOUT))))
  end.

Definition pump_frames (e : io_env) (token : Z) : M io unit :=
  f ← frame_loop token 32 ;
  match f with None => mret tt | Some f => finish_pump e token f end.

Definition pump_receive (e : io_env) (token : Z) : M io unit :=
  p ← get_peer token ;
  match p with
  | None => mret tt
  | Some p =>
      b ← recv_loop token (can_read p) (recvs e) budget0 ;
      match b with
      | None => mret tt
      | Some b => (if b =? 0 then Schedule token else mret tt) ;; pump_frames e token
      end
  end.

Definition after_send (token b : Z) : M io unit :=
  p ← get_peer token ;
  match p with
  | None => mret tt
  | Some p => if (b =? 0) && negb (bool_decide (output p = [])) then Schedule token else mret tt
  end.

Definition Pump (e : io_env) (token : Z) : M io unit :=
  b ← send_loop token (sends e) budget0 ;
  match b with None => mret tt | Some b => after_send token b ;; pump_receive e token end.

(** The task a completion posts. *)
Definition on_reply (e : io_env) (token size : Z) (framed : bool) (reply : Reply) (frame : bytes) : M io unit :=
  p ← get_peer token ;
  match p with
  | None => mret tt
  | Some p =>
      let p := replied p in
      put_peer token p ;;
      let n := zlen (r_bytes reply) in
      if close reply || (size <? consumed reply) || (framed && negb (consumed reply =? size)) || (max_frame_bytes_ srv <? n) ||
         (u64 (output_bytes opts - p_output_bytes p) <? n) || ((consumed reply =? 0) && (negb (n =? 0) || (size =? max_frame_bytes_ srv)))
      then Close token
      else
        let p := if framed then p else consumed_input (consumed reply) p in
        (if consumed reply =? 0 then mret tt else on_rt count_request) ;;
        let p := answered frame reply p in
        put_peer token (if n =? 0 then p else push_output (r_bytes reply) p) ;;
        Pump e token
  end.

(** Closing every peer, in the order of the map. *)
Fixpoint close_all (tokens : list Z) : M io unit :=
  match tokens with [] => mret tt | t :: tokens => Close t ;; close_all tokens end.

Definition exec (e : io_env) (t : task) : M io unit :=
  match t with
  | TPump token =>
      p ← get_peer token ;
      match p with None => mret tt | Some p => put_peer token (set_scheduled false p) ;; Pump e token end
  | TReply token size framed reply frame => on_reply e token size framed reply frame
  | TAttach fd arriving => Attach (ctl_ok e) (now e) fd arriving
  | TDeadline token =>
      p ← get_peer token ;
      match p with None => mret tt | Some _ => on_rt count_timeout ;; Close token end
  | TCloseAll => s ← get_state ; close_all (map_to_list (peers s)).*1 ;; in_loop (Stop TNothing)
  | TNothing => mret tt
  end.

(** The descriptor callback of a peer. *)
Definition notify (e : io_env) (token events : Z) : M io unit :=
  if Z.land events EPOLLERR =? 0 then Pump e token else Close token.

(** * The threads together *)

(** The reactors with their peers, the batches in the hands of workers, and the acceptor's [next]. *)
Record world := mkWorld {
  w_rt : runtime;
  w_ios : list (loop task callback * gmap Z Peer);
  w_batches : list (list Job);
  w_next : Z
}.
Definition start_world (ios : nat) : world := mkWorld new_runtime (replicate ios (new_loop, ∅)) [] 0.

Definition leave (i : nat) (s : io) (w : world) : world :=
  mkWorld (shared s) (<[i := (io_loop s, peers s)]> (w_ios w)) (w_batches w) (w_next w).
Definition post_to (i : nat) (t : task) (w : world) : world :=
  mkWorld (w_rt w) (alter (fun x => ((Post t x.1).1, x.2)) i (w_ios w)) (w_batches w) (w_next w).
Definition with_rt (f : runtime -> runtime) (w : world) : world := mkWorld (f (w_rt w)) (w_ios w) (w_batches w) (w_next w).

(** The listener's callback: up to 128 connections, dealt to the reactors in turn. *)
Inductive accept_reply := Accepted (fd : Z) (arriving : bytes) | AEintr | AFailed.
Definition admit_one (fd : Z) (arriving : bytes) (w : world) : world :=
  if max_connections_ srv <=? active_ (w_rt w) then with_rt count_rejected w
  else
    let w := with_rt (fun r => count_accepted (count_active 1 r)) w in
    post_to (Z.to_nat (w_next w mod zlen (w_ios w))) (TAttach fd arriving) (mkWorld (w_rt w) (w_ios w) (w_batches w) (u64 (w_next w + 1))).
Fixpoint accept_ready (turns : nat) (rs : list accept_reply) (w : world) : world :=
  match turns, rs with
  | O, _ | _, [] | _, AFailed :: _ => w
  | S _, AEintr :: rs => accept_ready turns rs w
  | S turns, Accepted fd arriving :: rs => accept_ready turns rs (admit_one fd arriving w)
  end.

(** The end of [Work] for one batch. *)
Definition finish_batch (batch : list Job) (handled : outcome (list Reply)) (us : Z) (w : world) : world :=
  let '(replies, errors) := batch_replies batch handled in
  fold_left (fun w x => post_to x.1 x.2 w) (completion <$> zip batch replies) (with_rt (count_handler us errors) w).

Definition pop_task (l : loop task callback) : loop task callback :=
  mkLoop (next_ l) (watches_ l) (interest l) (timers_ l) (timer_index_ l) (tail (tasks_ l)) (stopping_ l).

(** One step of one thread.  A reactor runs its next task, the callback of a ready descriptor or its
    first timer; a worker takes a batch or completes one; the acceptor admits connections; [finish]
    closes the queue and then tells the reactors to close their peers.  The first index bounds the
    identifiers a reactor gives out in the step. *)
Inductive step : Z -> world -> world -> Prop :=
| step_task w i e l ps t ts s : w_ios w !! i = Some (l, ps) -> tasks_ l = t :: ts ->
    exec e t (mkIo i (pop_task l) ps (w_rt w)) = (s, Ret tt) -> step (zlen (sends e) + 2) w (leave i s w)
| step_event w i e l ps token x events s : w_ios w !! i = Some (l, ps) -> watches_ l !! token = Some x ->
    notify e (w_callback x) events (mkIo i l ps (w_rt w)) = (s, Ret tt) -> step (zlen (sends e) + 2) w (leave i s w)
| step_timer w i e l ps t ts s : w_ios w !! i = Some (l, ps) -> timers_ l = t :: ts ->
    exec e t.2.2 (mkIo i (pop_timer t l).1 ps (w_rt w)) = (s, Ret tt) -> step (zlen (sends e) + 2) w (leave i s w)
| step_take w r batch : jobs (w_rt w) <> [] -> take_batch (w_rt w) = (r, batch) ->
    step 0 w (mkWorld r (w_ios w) (w_batches w ++ [batch]) (w_next w))
| step_finish w a batch b handled us : w_batches w = a ++ batch :: b ->
    (forall rs, handled = Ret rs -> Forall (fun r => 0 <= consumed r) rs) ->
    step 0 w (finish_batch batch handled us (mkWorld (w_rt w) (w_ios w) (a ++ b) (w_next w)))
| step_accept w rs : step 0 w (accept_ready 128 rs w)
| step_closing w : step 0 w (with_rt set_closing w)
| step_close_all w i : step 0 w (post_to i TCloseAll w).

(** Worlds reachable with [ios] reactors, and a bound on the identifiers given out by each. *)
Inductive reachable (ios : nat) : Z -> world -> Prop :=
| reach_start : reachable ios 1 (start_world ios)
| reach_step n k w w' : reachable ios n w -> step k w w' -> reachable ios (n + k) w'.
End Server.

End TcpServer.
