(* ===== verification/TcpServerInv.v ===== *)
(** The invariant of a reactor of [TcpServer] and that every callback keeps it: resource bounds, the
    accounting of connections and outstanding requests, and the integrity of both byte streams. *)
From S2P Require Import Prelude Buffer EventLoop TcpServer.
Import EventLoop TcpServer.

(** * The invariant *)

Section Inv.
Context (srv : server).
Abbreviation opts := (options_ srv).

Definition framed : bool := bool_decide (is_Some (sizer_ srv)).

(** What [TcpServer_make] and [configure] establish, and that sizes are sizes. *)
Definition config_ok : Prop :=
  0 < max_frame_bytes_ srv <= 64 * 1024 * 1024 + 16 /\ max_frame_bytes_ srv <= output_bytes opts < 2 ^ 64 /\
  0 < queue_bytes opts < 2 ^ 64 /\ 0 < queue_capacity opts < 2 ^ 64 /\ 0 < pipeline opts < 2 ^ 64 /\
  0 < max_connections_ srv < 2 ^ 64 /\
  forall f b n, sizer_ srv = Some f -> f b = Ret n -> 0 <= n.

Definition unsent (p : Peer) : bytes := drop (Z.to_nat (sent p)) (concat (output p)).

(** The sizer delimits [b], which is not empty, at the head of some stream. *)
Definition delimited (b : bytes) : Prop :=
  0 < zlen b /\ match sizer_ srv with Some f => exists rest, f (b ++ rest) = Ret (zlen b) | None => True end.

(** [infl]: the inputs of this peer that are queued, being handled, or answered and not yet delivered. *)
Record peer_inv (infl : list bytes) (p : Peer) : Prop := {
  pi_buffer : Buffer.Inv (input p);
  pi_input : zlen (Buffer.data (input p)) <= max_frame_bytes_ srv;
  pi_sent : match output p with [] => sent p = 0 | front :: _ => 0 <= sent p < zlen front end;
  pi_chunks : Forall (fun b => b <> []) (output p);
  pi_bytes : p_output_bytes p = zlen (unsent p);
  pi_output : zlen (unsent p) <= output_bytes opts;
  pi_pending : pending p = zlen infl;
  pi_limit : zlen infl <= limit srv;
  pi_stream : framed = true -> stream p = concat (frames p) ++ Buffer.data (input p);
  pi_unframed : framed = false -> Forall (fun b => zlen b <= zlen (Buffer.data (input p))) infl;
  pi_wire : wire p ++ unsent p = concat ((fun a => r_bytes a.2) <$> answers p);
  pi_frames : frames p ≡ₚ (answers p).*1 ++ infl;
  pi_order : limit srv = 1 -> frames p = (answers p).*1 ++ infl;
  pi_framing : Forall delimited (frames p)
}.

Definition inputs_of (token : Z) (infl : list (Z * bytes)) : list bytes := snd <$> filter (fun x => x.1 = token) infl.

Definition peers_inv (infl : list (Z * bytes)) (next : Z) (ps : gmap Z Peer) : Prop :=
  map_Forall (fun token p => 0 < token < next /\ peer_inv (inputs_of token infl) p) ps /\
  Forall (fun x => x.1 < next) infl.

Definition job_ok (j : Job) : Prop := j_size j = zlen (j_input j) /\ j_framed j = framed /\ 0 < j_size j <= max_frame_bytes_ srv.
Definition task_ok (t : task) : Prop :=
  match t with TReply _ size fr r b => size = zlen b /\ fr = framed /\ 0 < size <= max_frame_bytes_ srv /\ 0 <= consumed r | _ => True end.
(** The only timers are idle deadlines. *)
Definition idle (t : Z * (Z * task)) : Prop := match t.2.2 with TDeadline _ => True | _ => False end.

Definition total (js : list Job) : Z := foldr (fun j n => zlen (j_input j) + n) 0 js.
Record queue_inv (r : runtime) : Prop := {
  qi_queued : queued r = total (jobs r);
  qi_bytes : total (jobs r) <= queue_bytes opts;
  qi_capacity : zlen (jobs r) <= queue_capacity opts;
  qi_tasks_stat : queued_tasks_ r = zlen (jobs r);
  qi_bytes_stat : queued_bytes_ r = total (jobs r);
  qi_jobs : Forall job_ok (jobs r)
}.

(** The outstanding requests of reactor [i], among the jobs and among its own tasks. *)
Definition jobs_of (i : nat) (js : list Job) : list (Z * bytes) := (fun j => (j_token j, j_input j)) <$> filter (fun j => j_io j = i) js.
Definition reply_of (t : task) : option (Z * bytes) := match t with TReply token _ _ _ b => Some (token, b) | _ => None end.
Definition replies_in (ts : list task) : list (Z * bytes) := omap reply_of ts.
Definition is_attach (t : task) : bool := match t with TAttach _ _ => true | _ => false end.
Definition attaches (ts : list task) : Z := zlen (filter (fun t => is_attach t = true) ts).

(** [extra]: its requests being handled by workers; [others]: the connections of other reactors; [js0]:
    the jobs queued when its callback began; [n]: the identifiers the reactor may have given out. *)
Record io_inv (i : nat) (extra : list (Z * bytes)) (others : Z) (js0 : list Job) (n : Z) (s : io) : Prop := {
  ii_index : io_index s = i;
  ii_loop : EventLoop.Inv (io_loop s);
  ii_next : next_ (io_loop s) <= n;
  ii_tasks : Forall task_ok (tasks_ (io_loop s));
  ii_timers : Forall idle (timers_ (io_loop s));
  ii_queue : queue_inv (shared s);
  ii_peers : peers_inv (jobs_of i (jobs (shared s)) ++ replies_in (tasks_ (io_loop s)) ++ extra) (next_ (io_loop s)) (peers s);
  ii_active : active_ (shared s) = others + Z.of_nat (size (peers s)) + attaches (tasks_ (io_loop s));
  ii_others : 0 <= others;
  ii_max : active_ (shared s) <= max_connections_ srv;
  ii_jobs : exists new, jobs (shared s) = js0 ++ new /\ Forall (fun j => j_io j = i) new
}.

(** ** Changing one part of the state *)

Section Parts.
Context (cfg : config_ok) (i : nat) (extra : list (Z * bytes)) (others : Z) (js0 : list Job).
Abbreviation I := (io_inv i extra others js0).

Lemma peers_inv_next infl k k' ps : k <= k' -> peers_inv infl k ps -> peers_inv infl k' ps.
Proof.
  intros Hk [Hp Hi]. split.
  - intros t p Ht. destruct (Hp t p Ht) as [? ?]. split; [lia|done].
  - eapply Forall_impl; [exact Hi|]. cbn. lia.
Qed.

Lemma inv_loop n n' s l :
  I n s -> EventLoop.Inv l -> tasks_ l = tasks_ (io_loop s) -> next_ (io_loop s) <= next_ l <= n' -> Forall idle (timers_ l) ->
  I n' (mkIo (io_index s) l (peers s) (shared s)).
Proof.
  intros [Hi Hl Hn Ht Htm Hq Hp Ha Ho Hm Hj] Hl' Htl Hn' Htm'. constructor; cbn [io_index io_loop peers shared]; rewrite ?Htl; try done; try lia.
  eapply peers_inv_next; [|exact Hp]. lia.
Qed.

Lemma inv_mono n n' s : n <= n' -> I n s -> I n' s.
Proof. intros Hn [Hi Hl Hn' Ht Htm Hq Hp Ha Ho Hm Hj]. constructor; try done. lia. Qed.

(** An operation of the reactor that leaves its tasks alone. *)
Definition quiet {A} (n n' : Z) (m : M (loop task callback) A) : Prop :=
  forall l, EventLoop.Inv l -> next_ l <= n ->
    match m l with
    | (l', Ret _) => EventLoop.Inv l' /\ tasks_ l' = tasks_ l /\ next_ l <= next_ l' <= n' /\ (Forall idle (timers_ l) -> Forall idle (timers_ l'))
    | (_, Throw e) => e = std_system_error
    | _ => False
    end.

Lemma quiet_run {A} n n' (m : M (loop task callback) A) ps :
  quiet n n' m -> triple (fun s => I n s /\ peers s = ps) (in_loop m) (fun _ s => I n' s /\ peers s = ps).
Proof.
  intros Hm s [H Hps]. pose proof (Hm (io_loop s) (ii_loop _ _ _ _ _ _ H) (ii_next _ _ _ _ _ _ H)) as Hq. unfold wpx, in_loop.
  destruct (m (io_loop s)) as [l [a|e| |]]; try done. destruct Hq as (? & ? & ? & Hid). split; [|done]. apply (inv_loop n); try done. apply Hid, H.
Qed.

Lemma quiet_Cancel id n : quiet n n (Cancel id).
Proof.
  intros l Hl Hn. destruct (Cancel_spec id l Hl) as (Hr & Hl' & _ & Hn'). destruct (Cancel id l) as [l' r] eqn:E. cbn in *. subst r.
  split; [done|]. unfold Cancel in E. destruct (_ !! id); [destruct (erase _ _ _) as [ts|] eqn:Ee|]; injection E as <-; split_and!; try done; try lia.
  apply erase_Some in Ee as (a & b & t & Ht & ->). cbn [timers_ set_timers]. rewrite Ht, !Forall_app, Forall_cons. tauto.
Qed.
Lemma quiet_At d t n : n + 1 < 2 ^ 64 -> (match t with TDeadline _ => True | _ => False end) -> quiet n (n + 1) (At d t).
Proof.
  intros Hb Ht l Hl Hn. destruct (At_spec d t l Hl) as (Hr & Hl' & _ & Hn' & _); [lia|]. destruct (At d t l) as [l' r] eqn:E. cbn in *. subst r.
  split; [done|]. injection E as <-. split_and!; [done|lia|lia|]. cbn [timers_ set_timers]. rewrite emplace_perm. by constructor.
Qed.
Lemma quiet_Remove token n : quiet n n (Remove token).
Proof.
  intros l Hl Hn. destruct (Remove_Inv token l Hl) as (? & ? & ? & Htm & Hr). destruct (Remove token l) as [l' r]. cbn in *. subst r.
  rewrite Htm. split; [done|]. split; [done|]. split; [lia|done].
Qed.
Lemma quiet_Modify ok token ev n : quiet n n (Modify ok token ev).
Proof.
  intros l Hl Hn. destruct (Modify_Inv ok token ev l Hl) as (? & ? & ? & Htm & Hr). destruct (Modify ok token ev l) as [l' [a|e| |]]; cbn in *; try done.
  rewrite Htm. split; [done|]. split; [done|]. split; [lia|done].
Qed.

(** ** Peers *)

Abbreviation infl s := (jobs_of i (jobs (shared s)) ++ replies_in (tasks_ (io_loop s)) ++ extra).

Lemma inv_put n s token p p' :
  I n s -> peers s !! token = Some p -> (forall l, peer_inv l p -> peer_inv l p') ->
  I n (mkIo (io_index s) (io_loop s) (<[token := p']> (peers s)) (shared s)).
Proof.
  intros [Hi Hl Hn Ht Htm Hq [Hp Hx] Ha Ho Hm Hj] Hs Hp'. constructor; cbn [io_index io_loop peers shared]; try done.
  - split; [|done]. apply map_Forall_insert_2; [|done]. destruct (Hp token p Hs) as [? ?]. split; [done|by apply Hp'].
  - rewrite map_size_insert_Some by (by eexists). done.
Qed.

Lemma put_peer_run n token p p' ps :
  (forall l, peer_inv l p -> peer_inv l p') ->
  triple (fun s => I n s /\ peers s = ps /\ ps !! token = Some p) (put_peer token p') (fun _ s => I n s /\ peers s = <[token := p']> ps).
Proof. intros Hp s (H & <- & Hs). split; [by eapply inv_put|done]. Qed.

Lemma get_peer_run {A} token (P : io -> Prop) (f : option Peer -> M io A) Q :
  (forall o, triple (fun s => P s /\ peers s !! token = o) (f o) Q) -> triple P (mbind f (get_peer token)) Q.
Proof. intros Hf s H. change ((get_peer token ≫= f) s) with (f (peers s !! token) s). by apply Hf. Qed.

(** The counters outside the invariant. *)
Lemma on_rt_run n f ps :
  (forall r, jobs (f r) = jobs r /\ queued (f r) = queued r /\ active_ (f r) = active_ r /\ queued_tasks_ (f r) = queued_tasks_ r /\ queued_bytes_ (f r) = queued_bytes_ r) ->
  triple (fun s => I n s /\ peers s = ps) (on_rt f) (fun _ s => I n s /\ peers s = ps).
Proof.
  intros Hf s [[Hi Hl Hn Ht Htm Hq Hp Ha Ho Hm Hj] Hps]. destruct (Hf (shared s)) as (E1 & E2 & E3 & E4 & E5). split; [|done].
  constructor; cbn [io_index io_loop peers shared]; rewrite ?E1, ?E3; try done.
  destruct Hq. constructor; rewrite ?E1, ?E2, ?E4, ?E5; done.
Qed.

Lemma active_pos n s token p : I n s -> peers s !! token = Some p -> u64 (active_ (shared s) + -1) = active_ (shared s) - 1.
Proof.
  intros H Hs. pose proof (ii_active _ _ _ _ _ _ H) as Ha. pose proof (ii_max _ _ _ _ _ _ H). pose proof (ii_others _ _ _ _ _ _ H).
  assert (size (peers s) <> O). { apply map_size_non_empty_iff. intros E. by rewrite E in Hs. }
  pose proof (zlen_nonneg (filter (fun t => is_attach t = true) (tasks_ (io_loop s)))). unfold attaches in *.
  pose proof cfg as (_ & _ & _ & _ & _ & ? & _). apply u64_small. lia.
Qed.

Lemma inv_close n s token p :
  I n s -> peers s !! token = Some p ->
  I n (mkIo (io_index s) (io_loop s) (delete token (peers s)) (count_active (-1) (shared s))).
Proof.
  intros H Hs. pose proof (active_pos n s token p H Hs) as Hu. destruct H as [Hi Hl Hn Ht Htm [Q1 Q2 Q3 Q4 Q5 Q6] [Hp Hx] Ha Ho Hm Hj].
  constructor; cbn [io_index io_loop peers shared count_active active_]; rewrite ?Hu; try done; try lia.
  - split; [|done]. by apply map_Forall_delete.
  - rewrite map_size_delete_Some by (by eexists). assert (size (peers s) <> O) as Hz.
    { apply map_size_non_empty_iff. intros E. by rewrite E in Hs. }
    lia.
Qed.

Lemma Close_run n token : triple (I n) (Close token) (fun _ s => I n s /\ peers s !! token = None).
Proof.
  unfold Close. apply get_peer_run. intros [p|]; [|intros s [H E]; done].
  intros s [H E]. revert s H E. enough (forall ps, ps !! token = Some p ->
    triple (fun s => I n s /\ peers s = ps) (in_loop (Cancel (timer p)) ;; in_loop (Remove token) ;; drop_peer token ;; on_rt (count_active (-1)))
      (fun _ s => I n s /\ peers s !! token = None)) as Ht by (intros s H E; by apply (Ht (peers s))).
  intros ps Hps. eapply triple_bind; [apply quiet_run, quiet_Cancel|]. intros ?.
  eapply triple_bind; [apply quiet_run, quiet_Remove|]. intros ? s [H <-]. split; [exact (inv_close n s token p H Hps)|]. apply lookup_delete_eq.
Qed.

(** Closing a peer whose entry was overwritten. *)
Lemma Close_overwritten n s token p p' :
  I n s -> peers s !! token = Some p ->
  match Close token (mkIo (io_index s) (io_loop s) (<[token := p']> (peers s)) (shared s)) with
  | (s', Ret _) => I n s' /\ peers s' !! token = None
  | (_, Throw e) => e = std_system_error
  | _ => False
  end.
Proof.
  intros H Hs. unfold Close. set (s1 := mkIo _ _ (<[token := p']> _) _).
  assert (get_peer token s1 = (s1, Ret (Some p'))) as Hg by (unfold get_peer, s1; cbn [peers]; by rewrite lookup_insert_eq).
  rewrite (M_bind_run _ _ _ _ _ Hg). subst s1. clear Hg.
  pose proof (quiet_run n n (Cancel (timer p')) _ (quiet_Cancel _ n) s (conj H eq_refl)) as Hc.
  unfold wpx, in_loop in *. unfold mbind at 1, M_bind at 1. cbn [io_loop io_index peers shared].
  destruct (Cancel (timer p') (io_loop s)) as [l1 [u|e| |]]; try done. destruct Hc as [H1 _].
  pose proof (quiet_run n n (Remove token) _ (quiet_Remove _ n) _ (conj H1 eq_refl)) as Hc. unfold wpx, in_loop in Hc.
  unfold mbind at 1, M_bind at 1. cbn [io_loop io_index peers shared] in *.
  destruct (Remove token l1) as [l2 [u'|e| |]]; try done. destruct Hc as [H2 _].
  pose proof (inv_close n _ token p H2 Hs) as H3. cbn [peers io_index io_loop shared] in H3.
  rewrite <-(delete_insert_eq (peers s) token p') in H3. split; [exact H3|apply lookup_delete_eq].
Qed.

Lemma set_timer_inv l t p : peer_inv l p -> peer_inv l (set_timer t p).
Proof. intros []; by constructor. Qed.
Lemma set_scheduled_inv l b p : peer_inv l p -> peer_inv l (set_scheduled b p).
Proof. intros []; by constructor. Qed.
Lemma set_eof_inv l p : peer_inv l p -> peer_inv l (set_eof p).
Proof. intros []; by constructor. Qed.

Lemma Deadline_run now n token : n + 1 < 2 ^ 64 -> triple (I n) (Deadline srv now token) (fun _ => I (n + 1)).
Proof.
  intros Hb. unfold Deadline. apply get_peer_run. intros [p|]; [|intros s [H _]; apply (inv_mono n); [lia|done]].
  intros s [H Hs]. revert s H Hs. enough (forall ps, ps !! token = Some p -> triple (fun s => I n s /\ peers s = ps)
    (in_loop (Cancel (timer p)) ;; t ← in_loop (At (now + idle_timeout opts) (TDeadline token)) ; put_peer token (set_timer t p))
    (fun _ => I (n + 1))) as Ht by (intros s H Hs; by apply (Ht (peers s))).
  intros ps Hps. eapply triple_bind; [apply quiet_run, quiet_Cancel|]. intros ?.
  eapply triple_bind; [apply quiet_run, quiet_At; [lia|done]|]. intros t. eapply triple_weaken; [apply (put_peer_run (n + 1) token p (set_timer t p) ps)| |].
  - intros l. apply set_timer_inv.
  - by intros s [? ?].
  - by intros ? s [? _].
Qed.

Lemma inv_post n s t :
  I n s -> reply_of t = None -> is_attach t = false ->
  I n (mkIo (io_index s) (Post t (io_loop s)).1 (peers s) (shared s)).
Proof.
  intros [Hi Hl Hn Ht Htm Hq Hp Ha Ho Hm Hj] Hr Hat. constructor; cbn [io_index io_loop peers shared Post modify fst tasks_ next_]; try done.
  - apply Forall_app. split; [done|]. constructor; [|done]. by destruct t.
  - unfold replies_in. rewrite omap_app. cbn. rewrite Hr, app_nil_r. done.
  - unfold attaches. rewrite filter_app, filter_cons_False, app_nil_r by (by rewrite Hat). done.
Qed.

Lemma Schedule_run n token : triple (I n) (Schedule token) (fun _ => I n).
Proof.
  unfold Schedule. apply get_peer_run. intros [p|]; [|by intros s [H _]]. destruct (scheduled p); [by intros s [H _]|].
  intros s [H Hs]. cbn. pose proof (inv_put n s token p (set_scheduled true p) H Hs (fun l => set_scheduled_inv l true p)) as H1.
  exact (inv_post n _ (TPump token) H1 eq_refl eq_refl).
Qed.

(** ** Sending *)

Lemma nonempty_zlen {A} (l : list A) : l <> [] -> 0 < zlen l.
Proof. destruct l; [done|]. rewrite zlen_cons. pose proof (zlen_nonneg l). lia. Qed.

Lemma unsent_took l p front rest n :
  peer_inv l p -> output p = front :: rest -> 0 < n <= zlen front - sent p ->
  let chunk := front.[Z.to_nat (sent p), Z.to_nat n] in
  unsent p = chunk ++ drop (Z.to_nat (sent p + n)) (front ++ concat rest) /\ zlen chunk = n.
Proof.
  intros Hp Ho Hn chunk. pose proof (pi_sent _ _ Hp) as Hs. rewrite Ho in Hs. unfold unsent. rewrite Ho. cbn [concat].
  unfold zlen in *. assert (length chunk = Z.to_nat n) as Hl by (unfold chunk; rewrite length_take, length_drop; lia). split; [|lia].
  rewrite Z2Nat.inj_add by lia. rewrite <-drop_drop. clear Hl. subst chunk.
  rewrite <-(take_drop (Z.to_nat n) (drop (Z.to_nat (sent p)) (front ++ concat rest))) at 1. f_equal.
  rewrite drop_app_le by lia. by rewrite take_app_le by (rewrite length_drop; lia).
Qed.

Lemma took_inv l p front rest n :
  peer_inv l p -> output p = front :: rest -> 0 < n <= zlen front - sent p ->
  let p' := took n front.[Z.to_nat (sent p), Z.to_nat n] p in
  peer_inv l (if sent p' =? zlen front then pop_output p' else p').
Proof.
  intros Hp Ho Hn p'. destruct (unsent_took l p front rest n Hp Ho Hn) as [Hu Hl]. pose proof (pi_sent _ _ Hp) as Hs. rewrite Ho in Hs.
  pose proof cfg as (_ & [_ Hob] & _). pose proof (pi_output _ _ Hp) as Hout. pose proof (pi_bytes _ _ Hp) as Hby.
  set (chunk := front.[_, _]) in *. set (u := drop (Z.to_nat (sent p + n)) (front ++ concat rest)) in *.
  assert (zlen (unsent p) = n + zlen u) as Hz by (rewrite Hu, zlen_app; lia). pose proof (zlen_nonneg u).
  assert (u64 (p_output_bytes p - n) = zlen u) as Hb by (rewrite u64_small by lia; lia).
  pose proof (pi_chunks _ _ Hp) as Hc. rewrite Ho in Hc. apply Forall_cons in Hc as [Hf Hrest].
  assert (unsent (if sent p' =? zlen front then pop_output p' else p') = u) as Hu'.
  { cbn [sent took p']. destruct (Z.eqb_spec (sent p + n) (zlen front)) as [E|E]; unfold unsent, p'; cbn [output sent took pop_output]; rewrite Ho; [|done].
    cbn [tail concat]. unfold u. rewrite E. unfold zlen. by rewrite Nat2Z.id, drop_app_length. }
  destruct Hp. destruct (Z.eqb_spec (sent p') (zlen front)) as [E|E]; constructor; rewrite ?Hu'; try done; unfold p'; cbn -[u64 zlen]; rewrite ?Ho; try done; try lia.
  - cbn [tail]. destruct rest as [|r rest]; [done|]. apply Forall_cons in Hrest as [? _]. split; [lia|by apply nonempty_zlen].
  - by rewrite <-app_assoc, <-Hu.
  - cbn [sent took p'] in E. lia.
  - by rewrite <-app_assoc, <-Hu.
Qed.

Lemma clamp_range n hi : 0 < hi -> 0 < clamp n hi <= hi.
Proof. unfold clamp. lia. Qed.

Lemma send_loop_run token rs : forall n budget, n + zlen rs < 2 ^ 64 ->
  triple (I n) (send_loop srv token rs budget) (fun _ => I (n + zlen rs)).
Proof.
  induction rs as [|r rs IH]; intros n budget Hb; cbn [send_loop]; apply get_peer_run.
  - intros [p|]; [|intros s [H _]; apply (inv_mono n); [rewrite zlen_nil; lia|done]].
    destruct (output p); [|destruct (budget =? 0)]; intros s [H _]; (apply (inv_mono n); [rewrite zlen_nil; lia|done]).
  - pose proof (zlen_nonneg rs) as H0. assert (forall A (x : A), triple (I n) (mret x) (fun _ => I (n + zlen (r :: rs)))) as Hret
      by (intros A x s H; apply (inv_mono n); [rewrite zlen_cons; lia|done]).
    assert (triple (I n) (Close token ;; mret (M := M io) (None : option Z)) (fun _ => I (n + zlen (r :: rs)))) as Hclose.
    { eapply triple_bind; [apply Close_run|]. intros ? s [H _]. apply (inv_mono n); [rewrite zlen_cons; lia|done]. }
    rewrite zlen_cons in Hb.
    intros [p|]; [|intros s [H _]; by apply Hret]. destruct (output p) as [|front rest] eqn:Ho; [intros s [H _]; by apply Hret|].
    destruct (budget =? 0); [intros s [H _]; by apply Hret|]. destruct r as [m now| | |].
    + destruct (Z.leb_spec (Z.min budget (zlen front - sent p)) 0) as [Hw|Hw]; [intros s [H _]; by apply Hclose|]. cbv zeta.
      pose proof (clamp_range m _ Hw) as Hm. set (k := clamp m _) in *. set (p' := took k _ p).
      eapply triple_bind with (R := fun _ => I (n + 1)).
      2:{ intros ?. eapply triple_weaken; [apply (IH (n + 1)); lia|done|]. intros ? s H. apply (inv_mono (n + 1 + zlen rs)); [rewrite zlen_cons; lia|done]. }
      intros s [H Hs]. assert (I n (mkIo (io_index s) (io_loop s) (<[token := if sent p' =? zlen front then pop_output p' else p']> (peers s)) (shared s))) as H1.
      { apply (inv_put n s token p); [done|done|]. intros l Hl. apply (took_inv l p front rest k); [done|done|lia]. }
      destruct (sent p' =? zlen front).
      * exact (Deadline_run now n token ltac:(lia) _ H1).
      * apply (inv_mono n); [lia|exact H1].
    + intros s [H _]. pose proof (IH n budget ltac:(lia) s H) as Hr. unfold wpx in *. destruct (send_loop srv token rs budget s) as [s' [a|e| |]]; try done.
      apply (inv_mono (n + zlen rs)); [rewrite zlen_cons; lia|done].
    + intros s [H _]; by apply Hret.
    + intros s [H _]; by apply Hclose.
Qed.

(** ** Receiving *)

Lemma received_inv l p n :
  peer_inv l p -> Z.of_nat n <= zlen (inbox p) -> zlen (Buffer.data (input p)) + Z.of_nat n <= max_frame_bytes_ srv ->
  peer_inv l (received n p).
Proof.
  intros Hp Hn Hm. pose proof cfg as ([_ Hmax] & _). assert (zlen (take n (inbox p)) = Z.of_nat n) as Hl by (unfold zlen in *; rewrite length_take; lia).
  pose proof (Buffer.append_data (take n (inbox p)) (input p) (pi_buffer _ _ Hp)) as Hd.
  assert (Buffer.Inv (Buffer.append (take n (inbox p)) (input p))) as Hb by (apply Buffer.append_Inv; [apply Hp|lia]).
  destruct Hp. constructor; cbn [input received output sent p_output_bytes pending stream frames wire answers]; rewrite ?Hd, ?zlen_app, ?Hl; try done; try lia.
  - intros Hf. rewrite pi_stream0 by done. by rewrite app_assoc.
  - intros Hf. eapply Forall_impl; [by apply pi_unframed0|]. cbn. lia.
Qed.

Lemma recv_loop_run token can rs : forall n budget, 0 <= budget -> triple (I n) (recv_loop srv token can rs budget) (fun _ => I n).
Proof.
  induction rs as [|r rs IH]; intros n budget Hbud; cbn [recv_loop]; apply get_peer_run; (intros [p|]; [|by intros s [H _]]);
    (destruct (negb (eof p) && can && _ && negb (budget =? 0))%bool eqn:E; [|by intros s [H _]]); [by intros s [H _]|].
  destruct r as [m| | | |].
  - case_bool_decide as Hin; [by intros s [H _]|]. cbv zeta. intros s [H Hs]. zify_bools.
    pose proof (nonempty_zlen _ Hin) as Hin'. destruct (ii_peers _ _ _ _ _ _ H) as [Hps _]. destruct (Hps token p Hs) as [_ Hp].
    rewrite Buffer.size_data in * by apply Hp. set (want := Z.min (Z.min 16384 budget) _). set (k := clamp m _).
    assert (0 < k <= Z.min want (zlen (inbox p))) as Hk by (apply clamp_range; unfold want; lia).
    assert (forall l, peer_inv l p -> peer_inv l (received (Z.to_nat k) p)) as Hr.
    { intros l Hl. apply received_inv; [done|lia|unfold want in *; lia]. }
    exact (IH n (budget - k) ltac:(unfold want in *; lia) _ (inv_put n s token p _ H Hs Hr)).
  - case_bool_decide as Hin.
    + intros s [H Hs]. exact (inv_put n s token p (set_eof p) H Hs (fun l => set_eof_inv l p)).
    + by intros s [H _].
  - intros s [H _]. by apply IH.
  - by intros s [H _].
  - eapply triple_bind; [eapply triple_weaken; [apply (Close_run n token)|by intros s [H _]|intros ? s H; exact H]|].
    by intros ? s [H _].
Qed.

(** ** Submitting frames *)

Lemma short_perm {A} (l k : list A) : l ≡ₚ k -> zlen l <= 1 -> l = k.
Proof.
  intros Hp Hl. destruct l as [|x [|y l]]; [by apply Permutation_nil in Hp|by apply Permutation_singleton_l in Hp|].
  rewrite !zlen_cons in Hl. pose proof (zlen_nonneg l). lia.
Qed.

Lemma peer_inv_perm l l' p : l ≡ₚ l' -> peer_inv l p -> peer_inv l' p.
Proof.
  intros Hl []. assert (zlen l = zlen l') as E by (unfold zlen; by rewrite Hl).
  constructor; rewrite <-?E, <-?Hl; try done. intros H1. rewrite <-(short_perm l l' Hl) by lia. by apply pi_order0.
Qed.

Lemma inputs_of_perm t a b : a ≡ₚ b -> inputs_of t a ≡ₚ inputs_of t b.
Proof. intros H. unfold inputs_of. by rewrite H. Qed.
Lemma inputs_of_cons_eq t b l : inputs_of t ((t, b) :: l) = b :: inputs_of t l.
Proof. unfold inputs_of. by rewrite filter_cons_True. Qed.
Lemma inputs_of_cons_ne t t' b l : t <> t' -> inputs_of t ((t', b) :: l) = inputs_of t l.
Proof. intros H. unfold inputs_of. by rewrite filter_cons_False by (cbn; congruence). Qed.

Lemma peers_inv_perm a b next ps : a ≡ₚ b -> peers_inv a next ps -> peers_inv b next ps.
Proof.
  intros Hab [Hp Hx]. split; [|by rewrite <-Hab]. intros t p Ht. destruct (Hp t p Ht) as [? Hi]. split; [done|].
  eapply peer_inv_perm; [by apply inputs_of_perm|done].
Qed.

Lemma submitted_inv l p size frame :
  peer_inv l p -> pending p < limit srv -> 0 < size <= Buffer.size (input p) ->
  Buffer.copy size (input p) = Ret frame -> next_size srv p = Some size ->
  peer_inv (frame :: l) (submitted size framed frame p) /\ zlen frame = size.
Proof.
  intros Hp Hl Hs Hc Hnx. rewrite Buffer.size_data in Hs by apply Hp. unfold Buffer.copy in Hc. destruct (_ <? _); [done|]. injection Hc as Hfr.
  assert (zlen frame = size) as Hz by (rewrite <-Hfr; unfold zlen in *; rewrite length_take; lia). split; [|done].
  destruct (Buffer.consume_data size (input p)) as [Hd Hb]; [apply Hp|lia|]. pose proof (pi_input _ _ Hp).
  assert (zlen (drop (Z.to_nat size) (Buffer.data (input p))) <= zlen (Buffer.data (input p))) by (unfold zlen; rewrite length_drop; lia).
  assert (stream p = concat (frames p) ++ Buffer.data (input p) ->
    stream p = concat (frames p ++ [frame]) ++ drop (Z.to_nat size) (Buffer.data (input p))) as Hst.
  { intros E. rewrite concat_app. cbn [concat]. rewrite app_nil_r, <-app_assoc, <-Hfr, take_drop. done. }
  assert (frames p ++ [frame] ≡ₚ (answers p).*1 ++ frame :: l) as Hfs.
  { rewrite (pi_frames _ _ Hp), <-app_assoc. f_equiv. apply Permutation_app_comm. }
  assert (limit srv = 1 -> frames p ++ [frame] = (answers p).*1 ++ frame :: l) as Hor.
  { intros H1. pose proof (pi_pending _ _ Hp) as Hpend. rewrite (pi_order _ _ Hp) by done.
    destruct l as [|x l]; [by rewrite app_nil_r|]. rewrite zlen_cons in Hpend. pose proof (zlen_nonneg l). lia. }
  assert (delimited frame) as Hdel.
  { split; [lia|]. unfold next_size in *. destruct (sizer_ srv) as [f|]; [|done]. exists (drop (Z.to_nat size) (Buffer.data (input p))).
    rewrite <-Hfr, take_drop, Hfr, Hz. destruct (f _); [|done..]. destruct (_ <? _); [done|]. by injection Hnx as ->. }
  destruct Hp. constructor; cbn [input submitted output sent p_output_bytes pending stream frames wire answers]; rewrite ?zlen_cons; try done; try lia.
  5: { apply Forall_app. split; [done|by apply Forall_singleton]. }
  - by destruct framed.
  - destruct framed; [rewrite Hd|]; lia.
  - intros Hf. rewrite Hf, Hd. by auto.
  - intros Hf. rewrite Hf. constructor; [lia|by apply pi_unframed0].
Qed.

Lemma total_app a b : total (a ++ b) = total a + total b.
Proof. unfold total. induction a as [|j a IH]; cbn [foldr app]; lia. Qed.
Lemma total_nonneg js : 0 <= total js.
Proof. unfold total. induction js as [|j js IH]; cbn [foldr]; [lia|]. pose proof (zlen_nonneg (j_input j)). lia. Qed.

Lemma Submit_inv job r r' : queue_inv r -> job_ok job -> Submit srv job r = (r', true) ->
  queue_inv r' /\ jobs r' = jobs r ++ [job] /\ active_ r' = active_ r.
Proof.
  intros [Q1 Q2 Q3 Q4 Q5 Q6] Hj. unfold Submit. destruct (_ || _)%bool eqn:E; [done|]. intros [= <-]. zify_bools.
  pose proof cfg as (_ & _ & Hqb & Hqc & _). pose proof (zlen_nonneg (j_input job)). pose proof (total_nonneg (jobs r)). pose proof (zlen_nonneg (jobs r)).
  rewrite u64_small in * by lia. split; [|done].
  assert (total [job] = zlen (j_input job)) as Ht by (unfold total; cbn [foldr]; lia).
  constructor; cbn [jobs queued queued_tasks_ queued_bytes_ set_jobs];
    rewrite ?total_app, ?zlen_app, ?zlen_cons, ?zlen_nil, ?Ht, ?u64_small by lia; try lia.
  apply Forall_app. split; [done|]. by apply Forall_singleton.
Qed.

Lemma jobs_of_snoc js job : j_io job = i -> jobs_of i (js ++ [job]) = jobs_of i js ++ [(j_token job, j_input job)].
Proof. intros H. unfold jobs_of. rewrite filter_app, fmap_app. f_equal. by rewrite filter_cons_True. Qed.

(** A frame is taken from the input and its job accepted by the queue. *)
Lemma inv_submit n s token p size frame r :
  I n s -> peers s !! token = Some p -> pending p < limit srv -> 0 < size <= Buffer.size (input p) -> size <= max_frame_bytes_ srv ->
  Buffer.copy size (input p) = Ret frame -> next_size srv p = Some size -> Submit srv (mkJob frame (io_index s) token size framed) (shared s) = (r, true) ->
  I n (mkIo (io_index s) (io_loop s) (<[token := submitted size framed frame p]> (peers s)) r).
Proof.
  intros [Hi Hl Hn Ht Htm Hq [Hp Hx] Ha Ho Hm (new & Hj & Hnew)] Hs Hlim Hsz Hmax Hc Hnxs Hsub. destruct (Hp token p Hs) as [Htok Hpi].
  destruct (submitted_inv _ p size frame Hpi Hlim Hsz Hc Hnxs) as [Hpi' Hz]. rewrite Hi in Hsub.
  assert (job_ok (mkJob frame i token size framed)) as Hjob by (split; [done|]; split; [done|]; cbn; lia).
  destruct (Submit_inv _ _ _ Hq Hjob Hsub) as (Hq' & Hjobs & Hact).
  assert ((token, frame) :: infl s ≡ₚ jobs_of i (jobs r) ++ replies_in (tasks_ (io_loop s)) ++ extra) as Hperm.
  { rewrite Hjobs, jobs_of_snoc by done. cbn [j_token j_input]. rewrite <-app_assoc. cbn [app]. apply Permutation_middle. }
  constructor; cbn [io_index io_loop peers shared]; try done.
  - apply (peers_inv_perm _ _ _ _ Hperm). split; [|constructor; [cbn; lia|done]]. intros t q Hq1.
    destruct (decide (t = token)) as [->|Hne].
    + rewrite lookup_insert_eq in Hq1. injection Hq1 as <-. split; [done|]. by rewrite inputs_of_cons_eq.
    + rewrite lookup_insert_ne in Hq1 by done. destruct (Hp t q Hq1) as [? ?]. split; [done|]. by rewrite inputs_of_cons_ne.
  - rewrite map_size_insert_Some by (by eexists). by rewrite Hact.
  - by rewrite Hact.
  - exists (new ++ [mkJob frame i token size framed]). split; [by rewrite Hjobs, Hj, app_assoc|]. apply Forall_app. split; [done|]. by apply Forall_singleton.
Qed.

Lemma next_size_ok p size : next_size srv p = Some size -> (framed = true -> 0 <= size) /\ size <= max_frame_bytes_ srv.
Proof.
  unfold next_size. pose proof cfg as (_ & _ & _ & _ & _ & _ & Hsz). unfold framed. destruct (sizer_ srv) as [f|] eqn:Ef.
  - destruct (f _) as [z|e| |] eqn:Eb; try done. destruct (_ <? _) eqn:E; [done|]. intros [= <-]. zify_bools. split; [intros _; by eapply Hsz|done].
  - destruct (_ <? _) eqn:E; [done|]. intros [= <-]. zify_bools. split; [by case_bool_decide as H; [destruct H|]|done].
Qed.

Lemma frame_loop_run token turns : forall n, triple (I n) (frame_loop srv token turns) (fun _ => I n).
Proof.
  induction turns as [|turns IH]; intros n; cbn [frame_loop]; apply get_peer_run; (intros [p|]; [|by intros s [H _]]);
    (destruct (negb (Buffer.size (input p) =? 0) && negb (incomplete p) && can_read srv p)%bool eqn:E; [|by intros s [H _]]); [by intros s [H _]|].
  destruct (next_size srv p) as [size|] eqn:Esz.
  2:{ eapply triple_bind; [eapply triple_weaken; [apply (Close_run n token)|by intros s [H _]|intros ? s H; exact H]|]. by intros ? s [H _]. }
  destruct ((size =? 0) || (Buffer.size (input p) <? size))%bool eqn:Eb; [by intros s [H _]|].
  intros s [H Hs]. destruct (ii_peers _ _ _ _ _ _ H) as [Hps _]. destruct (Hps token p Hs) as [_ Hp].
  unfold can_read in E. zify_bools. destruct (next_size_ok p size Esz) as [Hpos Hmax].
  pose proof (Buffer.size_data (input p) (pi_buffer _ _ Hp)) as Hsd. pose proof (zlen_nonneg (Buffer.data (input p))).
  assert (0 < size) as Hpos'.
  { unfold next_size in Esz. unfold framed in Hpos. destruct (sizer_ srv) as [f|].
    - assert (0 <= size) by (apply Hpos; by rewrite bool_decide_eq_true_2). lia.
    - destruct (_ <? _); [done|]. injection Esz as <-. lia. }
  assert (Buffer.copy size (input p) = Ret (take (Z.to_nat size) (Buffer.data (input p)))) as Hc.
  { unfold Buffer.copy. destruct (pi_buffer _ _ Hp) as [Hr _]. rewrite Hsd in *. unfold Buffer.data, zlen in *. rewrite length_drop in *.
    by rewrite (proj2 (Z.ltb_ge _ _)) by lia. }
  unfold wpx. rewrite (lift_bind_Ret _ _ _ _ Hc). set (frame := take _ _) in *. fold framed.
  rewrite (M_bind_run (put_peer token _) _ _ _ _ eq_refl), (M_bind_run get_state _ _ _ _ eq_refl). cbn [io_index shared].
  destruct (Submit srv (mkJob frame (io_index s) token size framed) (shared s)) as [r []] eqn:Esub.
  - exact (IH n _ (inv_submit n s token p size frame r H Hs ltac:(lia) ltac:(lia) Hmax Hc Esz Esub)).
  - assert (I n (mkIo (io_index s) (io_loop s) (peers s) (count_rejected (shared s)))) as Hrej.
    { exact (proj1 (on_rt_run n count_rejected _ (fun r => conj eq_refl (conj eq_refl (conj eq_refl (conj eq_refl eq_refl)))) s (conj H eq_refl))). }
    pose proof (Close_overwritten n _ token p (submitted size framed frame p) Hrej Hs) as Hcl. cbn [io_index io_loop peers shared] in Hcl.
    rewrite (M_bind_run (on_rt count_rejected) _ _ _ _ eq_refl). cbn [io_index io_loop peers shared].
    unfold mbind, M_bind. destruct (Close token _) as [s' [u|e| |]]; try done. apply Hcl.
Qed.

Lemma finish_pump_run e token fr n : triple (I n) (finish_pump srv e token fr) (fun _ => I n).
Proof.
  unfold finish_pump. apply get_peer_run. intros [p|]; [|by intros s [H _]]. eapply triple_bind with (R := fun _ => I n).
  - destruct (_ && _)%bool; [|by intros s [H _]]. eapply triple_weaken; [apply (Schedule_run n token)|by intros s [H _]|done].
  - intros _. destruct (_ && _ && _)%bool.
    + eapply triple_weaken; [apply (Close_run n token)|done|by intros ? s [H _]].
    + intros s H. pose proof (quiet_run n n _ (peers s) (quiet_Modify (ctl_ok e) token
        (Z.lor EPOLLRDHUP (Z.lor (if negb (eof p) && can_read srv p then EPOLLIN else 0) (if bool_decide (output p = []) then 0 else EPOLLOUT))) n) s (conj H eq_refl)) as Hm.
      unfold wpx in *. destruct (in_loop _ s) as [s' [u|x| |]]; try done. apply Hm.
Qed.

Lemma Pump_run e token n : n + zlen (sends e) < 2 ^ 64 -> triple (I n) (Pump srv e token) (fun _ => I (n + zlen (sends e))).
Proof.
  intros Hb. unfold Pump. eapply triple_bind; [by apply send_loop_run|]. intros [b|]; [|by intros s H].
  set (n' := n + zlen (sends e)). eapply triple_bind with (R := fun _ => I n').
  - unfold after_send. apply get_peer_run. intros [p|]; [|by intros s [H _]]. destruct (_ && _)%bool; [|by intros s [H _]].
    eapply triple_weaken; [apply (Schedule_run n' token)|by intros s [H _]|done].
  - intros _. unfold pump_receive. apply get_peer_run. intros [p|]; [|by intros s [H _]].
    eapply triple_bind; [eapply triple_weaken; [apply (recv_loop_run token (can_read srv p) (recvs e) n' budget0); unfold budget0; lia|by intros s [H _]|intros ? s H; exact H]|].
    intros [b'|]; [|by intros s H]. eapply triple_bind with (R := fun _ => I n').
    + destruct (b' =? 0); [apply Schedule_run|by intros s H].
    + intros _. unfold pump_frames. eapply triple_bind; [apply (frame_loop_run token 32 n')|].
      intros [f|]; [apply finish_pump_run|by intros s H].
Qed.
End Parts.

(** ** Replies *)

Section Replies.
Context (cfg : config_ok) (i : nat) (extra : list (Z * bytes)) (others : Z) (js0 : list Job).

Abbreviation infl extra s := (jobs_of i (jobs (shared s)) ++ replies_in (tasks_ (io_loop s)) ++ extra).

Lemma extra_perm token frame s : infl ((token, frame) :: extra) s ≡ₚ (token, frame) :: infl extra s.
Proof. rewrite (app_assoc (jobs_of _ _)), (app_assoc (jobs_of _ _)). symmetry. apply Permutation_middle. Qed.

(** A reply to a peer that is gone. *)
Lemma drop_extra token frame n s :
  io_inv i ((token, frame) :: extra) others js0 n s -> peers s !! token = None -> io_inv i extra others js0 n s.
Proof.
  intros [Hi Hl Hn Ht Htm Hq Hp Ha Ho Hm Hj] Hs. constructor; try done. apply (peers_inv_perm _ _ _ _ (extra_perm token frame s)) in Hp as [Hp Hx].
  apply Forall_cons in Hx as [_ Hx]. split; [|done]. intros t p Hp1. destruct (Hp t p Hp1) as [? Hpi]. split; [done|].
  rewrite inputs_of_cons_ne in Hpi by congruence. done.
Qed.

Lemma unsent_push p b : unsent (push_output b p) = drop (Z.to_nat (sent p)) (concat (output p) ++ b).
Proof. unfold unsent. cbn [output sent push_output]. rewrite concat_app. cbn [concat]. by rewrite app_nil_r. Qed.

Lemma limit_unframed : framed = false -> limit srv = 1.
Proof. unfold framed, limit. intros ->. by rewrite orb_true_r. Qed.

Lemma limit_small : limit srv < 2 ^ 64.
Proof. pose proof cfg as (_ & _ & _ & _ & Hpipe & _). unfold limit. destruct (_ || _)%bool; lia. Qed.

(** The input after a reply that consumed [n] bytes of an unframed stream. *)
Definition input_after (n : Z) (p : Peer) : Buffer.buffer := if framed then input p else Buffer.consume n (input p).

Lemma input_after_inv l p frame n : peer_inv (frame :: l) p -> 0 <= n <= zlen frame ->
  Buffer.Inv (input_after n p) /\ zlen (Buffer.data (input_after n p)) <= max_frame_bytes_ srv /\
  (framed = true -> stream p = concat (frames p) ++ Buffer.data (input_after n p)) /\
  (framed = false -> Forall (fun b => zlen b <= zlen (Buffer.data (input_after n p))) l).
Proof.
  intros Hp Hn. unfold input_after. destruct framed eqn:Ef.
  - split; [apply Hp|]. split; [apply Hp|]. split; [intros _; by apply (pi_stream _ _ Hp)|done].
  - pose proof (pi_unframed _ _ Hp Ef) as Hu. apply Forall_cons in Hu as [? _]. pose proof (pi_input _ _ Hp).
    destruct (Buffer.consume_data n (input p)) as [Hd Hb]; [apply Hp|lia|]. rewrite Hd. split; [done|].
    split; [unfold zlen in *; rewrite length_drop; lia|]. split; [done|]. intros _.
    pose proof (pi_limit _ _ Hp) as Hl. rewrite zlen_cons, limit_unframed in Hl by done. destruct l as [|x l]; [constructor|].
    rewrite zlen_cons in Hl. pose proof (zlen_nonneg l). lia.
Qed.

Lemma sent_le l p : peer_inv l p -> (Z.to_nat (sent p) <= length (concat (output p)))%nat.
Proof.
  intros Hp. pose proof (pi_sent _ _ Hp) as Hs. destruct (output p) as [|f r]; [rewrite Hs; cbn; lia|].
  cbn [concat]. rewrite length_app. unfold zlen in Hs. lia.
Qed.

Lemma replied_inv l p frame reply :
  peer_inv (frame :: l) p -> 0 <= consumed reply <= zlen frame ->
  zlen (r_bytes reply) <= output_bytes opts - zlen (unsent p) ->
  let p1 := answered frame reply (if framed then replied p else consumed_input (consumed reply) (replied p)) in
  peer_inv l (if zlen (r_bytes reply) =? 0 then p1 else push_output (r_bytes reply) p1).
Proof.
  intros Hp Hc Hout p1. pose proof cfg as (_ & [_ Hob] & _). pose proof limit_small as Hl63. pose proof (zlen_nonneg l) as Hl0.
  pose proof (pi_limit _ _ Hp) as Hlim. rewrite zlen_cons in Hlim. pose proof (zlen_nonneg (unsent p)). pose proof (zlen_nonneg (r_bytes reply)).
  destruct (input_after_inv l p frame (consumed reply) Hp Hc) as (Hb & Hin & Hst & Hun).
  set (p2 := if zlen (r_bytes reply) =? 0 then p1 else push_output (r_bytes reply) p1).
  assert (input p2 = input_after (consumed reply) p) as Ein by (unfold p2, p1, input_after; destruct framed, (_ =? 0); done).
  assert (pending p2 = u64 (pending p - 1)) as Epe by (unfold p2, p1; destruct framed, (_ =? 0); done).
  assert (stream p2 = stream p /\ frames p2 = frames p /\ wire p2 = wire p /\ answers p2 = answers p ++ [(frame, reply)]) as (Est & Efr & Ewi & Ean)
    by (unfold p2, p1; destruct framed, (_ =? 0); done).
  assert (output p2 = output p ++ (if zlen (r_bytes reply) =? 0 then [] else [r_bytes reply]) /\ sent p2 = sent p) as [Eou Ese]
    by (unfold p2, p1; destruct framed, (_ =? 0); rewrite ?app_nil_r; done).
  assert (p_output_bytes p2 = u64 (p_output_bytes p + zlen (r_bytes reply))) as Eby.
  { pose proof (pi_bytes _ _ Hp). unfold p2, p1. destruct framed, (Z.eqb_spec (zlen (r_bytes reply)) 0) as [E|E]; cbn -[u64 zlen]; rewrite ?E, ?Z.add_0_r; try done;
    rewrite u64_small by lia; done. }
  assert (unsent p2 = unsent p ++ r_bytes reply) as Eun.
  { unfold unsent. rewrite Eou, Ese, concat_app, drop_app_le by (by eapply sent_le). f_equal.
    destruct (Z.eqb_spec (zlen (r_bytes reply)) 0) as [E|E]; cbn; [|by rewrite app_nil_r]. unfold zlen in E. symmetry. apply nil_length_inv. lia. }
  clearbody p2. constructor; rewrite ?Ein, ?Epe, ?Est, ?Efr, ?Ewi, ?Ean, ?Eou, ?Ese, ?Eby, ?Eun, ?zlen_app; try done; try lia.
  - pose proof (pi_sent _ _ Hp) as Hs. destruct (output p); cbn [app]; [|done]. destruct (Z.eqb_spec (zlen (r_bytes reply)) 0); lia.
  - apply Forall_app. split; [apply Hp|]. destruct (Z.eqb_spec (zlen (r_bytes reply)) 0) as [E|E]; [constructor|]. apply Forall_singleton. intros Hr. by rewrite Hr in E.
  - rewrite (pi_bytes _ _ Hp). rewrite u64_small by lia. done.
  - rewrite (pi_pending _ _ Hp), zlen_cons. rewrite u64_small by lia. lia.
  - rewrite fmap_app, concat_app, <-(pi_wire _ _ Hp), <-app_assoc. cbn. by rewrite app_nil_r.
  - rewrite fmap_app, <-app_assoc. apply (pi_frames _ _ Hp).
  - intros H1. rewrite fmap_app, <-app_assoc. by apply (pi_order _ _ Hp).
  - apply (pi_framing _ _ Hp).
Qed.

(** The reply of the last outstanding entry, delivered. *)
Lemma inv_answer token frame n s p p' :
  io_inv i ((token, frame) :: extra) others js0 n s -> peers s !! token = Some p ->
  (forall l, peer_inv (frame :: l) p -> peer_inv l p') ->
  io_inv i extra others js0 n (mkIo (io_index s) (io_loop s) (<[token := p']> (peers s)) (shared s)).
Proof.
  intros [Hi Hl Hn Ht Htm Hq Hp Ha Ho Hm Hj] Hs Hp'. apply (peers_inv_perm _ _ _ _ (extra_perm token frame s)) in Hp as [Hp Hx].
  constructor; cbn [io_index io_loop peers shared]; try done.
  - apply Forall_cons in Hx as [_ Hx]. split; [|done]. intros t q Hq1. destruct (decide (t = token)) as [->|Hne].
    + rewrite lookup_insert_eq in Hq1. injection Hq1 as <-. destruct (Hp token p Hs) as [? Hpi]. split; [done|].
      rewrite inputs_of_cons_eq in Hpi. by apply Hp'.
    + rewrite lookup_insert_ne in Hq1 by done. destruct (Hp t q Hq1) as [? Hpi]. split; [done|]. by rewrite inputs_of_cons_ne in Hpi.
  - rewrite map_size_insert_Some by (by eexists). done.
Qed.

Lemma on_reply_run e token size fr reply frame n :
  n + zlen (sends e) < 2 ^ 64 -> task_ok (TReply token size fr reply frame) ->
  triple (io_inv i ((token, frame) :: extra) others js0 n) (on_reply srv e token size fr reply frame)
         (fun _ => io_inv i extra others js0 (n + zlen (sends e))).
Proof.
  intros Hb (-> & -> & Hsz & Hr). pose proof (zlen_nonneg (sends e)). unfold on_reply. apply get_peer_run. intros [p|].
  2:{ intros s [H' Hs]. apply (inv_mono _ _ _ _ n); [lia|]. by eapply drop_extra. }
  intros s [H' Hs]. cbv zeta. unfold wpx. rewrite (M_bind_run (put_peer token (replied p)) _ _ _ _ eq_refl).
  destruct (close reply || _ || _ || _ || _ || _)%bool eqn:E.
  - pose proof (Close_overwritten cfg i ((token, frame) :: extra) others js0 n s token p (replied p) H' Hs) as Hc.
    destruct (Close token _) as [s' [u|x| |]]; try done. destruct Hc as [Hc Hs']. apply (inv_mono _ _ _ _ n); [lia|]. by eapply drop_extra.
  - zify_bools. destruct (ii_peers _ _ _ _ _ _ H') as [Hps _]. destruct (Hps token p Hs) as [_ Hpi].
    pose proof cfg as (_ & [_ Hob] & _). pose proof (pi_bytes _ _ Hpi) as Hby. pose proof (pi_output _ _ Hpi) as Hou. pose proof (zlen_nonneg (unsent p)).
    change (p_output_bytes (replied p)) with (p_output_bytes p) in *. rewrite u64_small in * by lia.
    set (p1 := answered frame reply (if framed then replied p else consumed_input (consumed reply) (replied p))).
    assert (io_inv i extra others js0 n (mkIo (io_index s) (io_loop s)
      (<[token := if zlen (r_bytes reply) =? 0 then p1 else push_output (r_bytes reply) p1]> (peers s))
      (if consumed reply =? 0 then shared s else count_request (shared s)))) as HI1.
    { assert (io_inv i ((token, frame) :: extra) others js0 n (mkIo (io_index s) (io_loop s) (peers s) (if consumed reply =? 0 then shared s else count_request (shared s)))) as HI2.
      { destruct (consumed reply =? 0); [by destruct s|].
        exact (proj1 (on_rt_run _ _ _ _ n count_request _ (fun r => conj eq_refl (conj eq_refl (conj eq_refl (conj eq_refl eq_refl)))) s (conj H' eq_refl))). }
      apply (inv_answer token frame n _ p _ HI2 Hs). intros l Hl. apply replied_inv; [done|lia|lia]. }
    pose proof (Pump_run cfg i extra others js0 e token n Hb _ HI1) as HP.
    rewrite <-(insert_insert_eq (peers s) token _ (replied p)) in HP. destruct (consumed reply =? 0); exact HP.
Qed.
End Replies.

(** ** Every callback *)

Section Callbacks.
Context (cfg : config_ok) (i : nat).

Lemma inputs_of_fresh t l : Forall (fun x => x.1 < t) l -> inputs_of t l = [].
Proof.
  unfold inputs_of. induction 1 as [|x l Hx _ IH]; [done|]. by rewrite filter_cons_False by lia.
Qed.

Lemma new_peer_inv fd arriving : peer_inv [] (new_peer fd arriving).
Proof.
  pose proof cfg as (Hmf & Hob & _ & _ & Hpipe & _). pose proof Buffer.empty_Inv.
  assert (1 <= limit srv) by (unfold limit; destruct (_ || _)%bool; lia).
  constructor; try done; try (by constructor); unfold unsent; cbn -[zlen]; try done; rewrite ?zlen_nil; try lia.
  - change (Buffer.data Buffer.empty) with (@nil byte). rewrite zlen_nil. lia.
  - rewrite drop_nil, zlen_nil. lia.
Qed.

Lemma Attach_run ok now fd arriving extra others js0 n : n + 2 < 2 ^ 64 -> 0 <= others ->
  triple (io_inv i extra (others + 1) js0 n) (Attach srv ok now fd arriving) (fun _ => io_inv i extra others js0 (n + 2)).
Proof.
  intros Hb Ho s [Hi Hl Hn Ht Htm Hq [Hp Hx] Ha Ho' Hm Hj]. unfold Attach. unfold wpx. rewrite (M_bind_run get_state _ _ _ _ eq_refl).
  assert (next_ (io_loop s) + 1 < 2 ^ 64) as Hb1 by lia.
  destruct (Add_Inv (callback := callback) ok fd (Z.lor EPOLLIN EPOLLRDHUP) (next_ (io_loop s)) (io_loop s) Hl Hb1) as (Hl' & Hn' & Ht' & Htm' & Hr).
  unfold mbind at 1, M_bind at 1, in_loop at 1. destruct (Add _ _ _ _ _) as [l' r]. cbn in Hl', Hn', Ht', Htm', Hr. subst r. destruct ok; [|done].
  rewrite (M_bind_run (put_peer _ _) _ _ _ _ eq_refl). cbn [io_index io_loop peers shared].
  set (token := next_ (io_loop s)) in *. assert (peers s !! token = None) as Hnone.
  { destruct (peers s !! token) as [p|] eqn:E; [|done]. destruct (Hp token p E) as [[_ ?] _]. lia. }
  assert (io_inv i extra others js0 (n + 1) (mkIo (io_index s) l' (<[token := new_peer fd arriving]> (peers s)) (shared s))) as H1.
  { constructor; cbn [io_index io_loop peers shared]; rewrite ?Ht', ?Htm', ?Hn'; try done; try lia.
    - split.
      + intros t q Hq1. destruct (decide (t = token)) as [->|Hne].
        * rewrite lookup_insert_eq in Hq1. injection Hq1 as <-. split; [destruct Hl as (_ & _ & _ & ? & _); unfold token; lia|].
          assert (inputs_of token (jobs_of i (jobs (shared s)) ++ replies_in (tasks_ (io_loop s)) ++ extra) = []) as -> by (by apply inputs_of_fresh). apply new_peer_inv.
        * rewrite lookup_insert_ne in Hq1 by done. destruct (Hp t q Hq1) as [? ?]. split; [lia|done].
      + eapply Forall_impl; [exact Hx|]. cbn. lia.
    - rewrite map_size_insert_None by done. lia. }
  pose proof (Deadline_run i extra others js0 now (n + 1) token ltac:(lia) _ H1) as HD. replace (n + 2) with (n + 1 + 1) by lia. exact HD.
Qed.

Lemma close_all_run extra others js0 n tokens : triple (io_inv i extra others js0 n) (close_all tokens) (fun _ => io_inv i extra others js0 n).
Proof.
  induction tokens as [|t tokens IH]; cbn [close_all]; [by intros s H|].
  eapply triple_bind; [by apply Close_run|]. intros ?. eapply triple_weaken; [exact IH|by intros s [H _]|done].
Qed.

Lemma Stop_run extra others js0 n : triple (io_inv i extra others js0 n) (in_loop (Stop TNothing)) (fun _ => io_inv i extra others js0 n).
Proof.
  intros s H. cbn.
  set (l := mkLoop (next_ (io_loop s)) (watches_ (io_loop s)) (interest (io_loop s)) (timers_ (io_loop s)) (timer_index_ (io_loop s)) (tasks_ (io_loop s)) true).
  assert (io_inv i extra others js0 n (mkIo (io_index s) l (peers s) (shared s))) as H1.
  { destruct H. constructor; done. }
  exact (inv_post i extra others js0 n _ TNothing H1 eq_refl eq_refl).
Qed.

(** What is outstanding while task [t] runs, off the queue. *)
Definition with_reply (t : task) (extra : list (Z * bytes)) : list (Z * bytes) :=
  match reply_of t with Some x => x :: extra | None => extra end.
Definition with_attach (t : task) (others : Z) : Z := if is_attach t then others + 1 else others.

Definition cost (e : io_env) : Z := zlen (sends e) + 2.

Lemma exec_run e t extra others js0 n :
  n + cost e < 2 ^ 64 -> task_ok t -> 0 <= others ->
  triple (io_inv i (with_reply t extra) (with_attach t others) js0 n) (exec srv e t) (fun _ => io_inv i extra others js0 (n + cost e)).
Proof.
  intros Hb Ht Ho. pose proof (zlen_nonneg (sends e)). unfold cost in *.
  assert (forall m s, m <= n + (zlen (sends e) + 2) -> io_inv i extra others js0 m s -> io_inv i extra others js0 (n + (zlen (sends e) + 2)) s) as Hm
    by (intros m s Hm Hs; by apply (inv_mono _ _ _ _ m)).
  destruct t as [token|token size fr reply b|fd arr|token| |]; cbn [with_reply reply_of with_attach is_attach exec].
  - apply get_peer_run. intros [p|]; [|intros s [Hs _]; apply (Hm n); [lia|done]]. intros s [Hs Hp].
    pose proof (inv_put i extra others js0 n s token p (set_scheduled false p) Hs Hp (fun l => set_scheduled_inv l false p)) as H1.
    pose proof (Pump_run cfg i extra others js0 e token n ltac:(lia) _ H1) as HP.
    apply wp_bind, wp_modify. eapply wp_mono; [exact HP|]. intros ? s' H'. apply (Hm (n + zlen (sends e))); [lia|done].
  - eapply triple_weaken; [by apply (on_reply_run cfg i extra others js0 e token size fr reply b n); [lia|]|done|].
    intros ? s. apply Hm. lia.
  - eapply triple_weaken; [by apply (Attach_run (ctl_ok e) (now e) fd arr extra others js0 n); [lia|]|done|]. intros ? s. apply Hm. lia.
  - apply get_peer_run. intros [p|]; [|intros s [Hs _]; apply (Hm n); [lia|done]]. intros s [Hs _].
    pose proof (proj1 (on_rt_run i extra others js0 n count_timeout _ (fun r => conj eq_refl (conj eq_refl (conj eq_refl (conj eq_refl eq_refl)))) s (conj Hs eq_refl))) as H1.
    apply wp_bind, wp_modify. pose proof (Close_run cfg i extra others js0 n token _ H1) as HC.
    eapply wp_mono; [exact HC|]. intros ? s' [H' _]. apply (Hm n); [lia|done].
  - intros s Hs. apply wp_bind, wp_get.
    pose proof (triple_bind _ _ _ (fun _ => in_loop (Stop TNothing)) _ (close_all_run extra others js0 n (map_to_list (peers s)).*1) (fun _ => Stop_run extra others js0 n) s Hs) as HT.
    eapply wp_mono; [exact HT|]. intros ? s' H'. apply (Hm n); [lia|done].
  - intros s Hs. apply (Hm n); [lia|done].
Qed.

Lemma notify_run e token events extra others js0 n :
  n + cost e < 2 ^ 64 ->
  triple (io_inv i extra others js0 n) (notify srv e token events) (fun _ => io_inv i extra others js0 (n + cost e)).
Proof.
  intros Hb. pose proof (zlen_nonneg (sends e)). unfold cost in *. unfold notify. destruct (_ =? 0).
  - eapply triple_weaken; [apply (Pump_run cfg i extra others js0 e token n); lia|done|]. intros ? s. apply inv_mono. lia.
  - eapply triple_weaken; [by apply (Close_run cfg i extra others js0 n token)|done|]. intros ? s [Hs _]. apply (inv_mono _ _ _ _ n); [lia|done].
Qed.
End Callbacks.
End Inv.
