(* ===== verification/TcpServerWalk.v ===== *)
(** What a callback of a reactor of [TcpServer] can do to the state, whatever the system calls return: a
    property kept by its elementary changes is kept by every callback, also by one that throws. *)
From S2P Require Import Prelude Buffer EventLoop TcpServer TcpServerInv.
Import EventLoop TcpServer.

Definition is_pump (t : task) : Prop := match t with TPump _ => True | _ => False end.

(** The reactor keeps its tasks and may queue more pumps, and its timers are old ones or deadlines. *)
Record calm (l l' : loop task callback) : Prop := {
  calm_stopping : stopping_ l' = stopping_ l;
  calm_tasks : exists more, tasks_ l' = tasks_ l ++ more /\ Forall is_pump more;
  calm_timers : Forall (fun t => t ∈ timers_ l \/ idle t) (timers_ l')
}.

(** Properties [J] of a reactor and [G] of a connection, by its token, that the elementary changes keep. *)
Class Walks (srv : server) (J : io -> Prop) (G : Z -> Peer -> Prop) := {
  walk_known s t p : J s -> peers s !! t = Some p -> G t p;
  walk_same t p p' : answers p' = answers p -> G t p -> G t p';
  walk_put s t p : G t p -> J s -> J (mkIo (io_index s) (io_loop s) (<[t := p]> (peers s)) (shared s));
  walk_drop s t : J s -> J (mkIo (io_index s) (io_loop s) (delete t (peers s)) (shared s));
  walk_loop s l : calm (io_loop s) l -> J s -> J (mkIo (io_index s) l (peers s) (shared s));
  walk_count s r : jobs r = jobs (shared s) -> closing r = closing (shared s) -> J s -> J (mkIo (io_index s) (io_loop s) (peers s) r);
  walk_submit s j r : Submit srv j (shared s) = (r, true) -> J s -> J (mkIo (io_index s) (io_loop s) (peers s) r)
}.

(** * Operations of the loop *)

Create HintDb walk.

Definition calmly {A} (m : M (loop task callback) A) : Prop := forall l, calm l (m l).1.

Lemma calm_same l l' : stopping_ l' = stopping_ l -> tasks_ l' = tasks_ l -> timers_ l' = timers_ l -> calm l l'.
Proof.
  intros H1 H2 H3. constructor; [done|exists []; by rewrite app_nil_r|]. rewrite H3. apply Forall_forall. by left.
Qed.
Lemma calm_refl l : calm l l.
Proof. by apply calm_same. Qed.
Lemma calm_trans l l1 l2 : calm l l1 -> calm l1 l2 -> calm l l2.
Proof.
  intros [S1 (m1 & E1 & P1) T1] [S2 (m2 & E2 & P2) T2]. constructor; [congruence| |].
  - exists (m1 ++ m2). rewrite E2, E1, app_assoc. split; [done|]. by apply Forall_app.
  - eapply Forall_impl; [exact T2|]. intros x [Hx|Hx]; [|by right]. by eapply Forall_forall in T1.
Qed.
Lemma calmly_Cancel i : calmly (Cancel i).
Proof.
  intros l. unfold Cancel. destruct (_ !! i); [|by apply calm_same]. destruct (erase _ _ _) as [ts|] eqn:E; [|by apply calm_same].
  apply erase_Some in E as (a & b & t & Ht & ->). constructor; [done|exists []; by rewrite app_nil_r|]. cbn [timers_ set_timers fst]. rewrite Ht.
  apply Forall_forall. intros x Hx. left. set_solver.
Qed.
Lemma calmly_Remove t : calmly (Remove t).
Proof. intros l. unfold Remove. destruct (_ !! t); by apply calm_same. Qed.
Lemma calm_Modify b t ev : calmly (Modify b t ev).
Proof. intros l. unfold Modify. destruct (_ !! t); [destruct b|]; by apply calm_same. Qed.
Lemma calm_Add b f ev k : calmly (Add b f ev k).
Proof. intros l. unfold Add. destruct b; by apply calm_same. Qed.
Lemma calm_At d t : calmly (At d (TDeadline t)).
Proof.
  intros l. constructor; [done|exists []; split; [by rewrite app_nil_r|by constructor]|]. cbn [At timers_ set_timers fst]. rewrite emplace_perm.
  constructor; [by right|]. apply Forall_forall. by left.
Qed.
Lemma calm_Post t : calmly (Post (TPump t)).
Proof. intros l. constructor; [done|exists [TPump t]; split; [done|by apply Forall_singleton]|]. apply Forall_forall. by left. Qed.
#[export] Hint Resolve calmly_Cancel calmly_Remove calm_Modify calm_Add calm_At calm_Post : walk.

(** * The callbacks *)

Section Walk.
Context {srv : server} {J : io -> Prop} {G : Z -> Peer -> Prop} `{!Walks srv J G}.
Abbreviation keeps := (keeps J).

Lemma walk_on_rt f : (forall r, jobs (f r) = jobs r /\ closing (f r) = closing r) -> keeps (on_rt f).
Proof. intros H s Hs. destruct (H (shared s)). by apply walk_count. Qed.
Lemma walk_drop_peer t : keeps (drop_peer t).
Proof. intros s Hs. by apply walk_drop. Qed.
Lemma walk_put_peer t p : G t p -> keeps (put_peer t p).
Proof. intros H s Hs. by apply walk_put. Qed.
Lemma walk_with_peer {A} t (f : option Peer -> M io A) : (forall p, G t p -> keeps (f (Some p))) -> keeps (f None) -> keeps (mbind f (get_peer t)).
Proof.
  intros Hs Hn s H. unfold mbind, M_bind, get_peer. destruct (peers s !! t) as [p|] eqn:E; [|by apply Hn]. apply Hs; [|done]. by apply (walk_known s t p).
Qed.
Lemma walk_in_loop {A} (m : M (loop task callback) A) : calmly m -> keeps (in_loop m).
Proof. intros H s Hs. unfold in_loop. specialize (H (io_loop s)). destruct (m (io_loop s)) as [l []]; try done; by apply walk_loop. Qed.
Lemma walk_Submit {A} (job : io -> Job) (f : M io A) (g : M io A) : keeps f -> keeps g ->
  keeps (s ← get_state ; let '(r, ok) := Submit srv (job s) (shared s) in if ok then on_rt (fun _ => r) ;; f else g).
Proof.
  intros Hf Hg s Hs. unfold mbind, M_bind, get_state. destruct (Submit srv (job s) (shared s)) as [r []] eqn:E; [|by apply Hg].
  cbn [on_rt modify]. apply Hf. by eapply walk_submit.
Qed.
Hint Resolve keeps_ret keeps_lift keeps_get walk_drop_peer : walk.

Ltac walking :=
  repeat (first [ match goal with |- forall _, _ => intro end | solve [auto with walk]
                | apply walk_with_peer | apply walk_Submit | apply keeps_bind
                | apply walk_put_peer; solve [by (eapply walk_same; [|eassumption])]
                | apply walk_on_rt; done
                | apply walk_in_loop; solve [auto with walk]
                | match goal with |- Prelude.keeps _ (match ?x with _ => _ end) => destruct x end ]).

Lemma walk_Close t : keeps (Close t).
Proof. unfold Close. walking. Qed.
Lemma walk_Deadline now t : keeps (Deadline srv now t).
Proof. unfold Deadline. walking. Qed.
Lemma walk_Schedule t : keeps (Schedule t).
Proof. unfold Schedule. walking. Qed.
Hint Resolve walk_Close walk_Deadline walk_Schedule : walk.
Lemma walk_send_loop t l : forall budget, keeps (send_loop srv t l budget).
Proof. induction l as [|x l IH]; intros budget; cbn [send_loop]; cbv zeta; walking. Qed.
Lemma walk_recv_loop t can l : forall budget, keeps (recv_loop srv t can l budget).
Proof. induction l as [|x l IH]; intros budget; cbn [recv_loop]; cbv zeta; walking. Qed.
Lemma walk_frame_loop t turns : keeps (frame_loop srv t turns).
Proof. induction turns as [|turns IH]; cbn [frame_loop]; cbv zeta; walking. Qed.
Hint Resolve walk_send_loop walk_recv_loop walk_frame_loop : walk.
Lemma walk_Pump e t : keeps (Pump srv e t).
Proof. unfold Pump, after_send, pump_receive, pump_frames, finish_pump. walking. Qed.
Hint Resolve walk_Pump : walk.

(** A reply is recorded only when the server accepts it. *)
Lemma walk_on_reply e t size fr r b :
  (forall p, G t p -> close r = false -> (fr = true -> consumed r = size) -> G t (answered b r p)) -> keeps (on_reply srv e t size fr r b).
Proof.
  intros HG. unfold on_reply. apply walk_with_peer; [|apply keeps_ret]. intros p Hp. cbv zeta. apply keeps_bind; [walking|intros _].
  destruct (_ || _) eqn:E; [auto with walk|]. repeat (apply orb_false_iff in E as [E ?]).
  apply keeps_bind; [walking|intros _]. apply keeps_bind; [|walking]. apply walk_put_peer.
  assert (G t (answered b r (if fr then replied p else consumed_input (consumed r) (replied p)))) as Ha.
  { apply HG; [destruct fr; by (eapply walk_same; [|exact Hp])|done|]. intros ->. cbn [andb] in *. zify_bools. lia. }
  destruct (zlen (r_bytes r) =? 0); [done|]. by (eapply walk_same; [|exact Ha]).
Qed.
(** The new peer gets the next token. *)
Lemma walk_Attach_at ok now fd arriving s : J s -> G (next_ (io_loop s)) (new_peer fd arriving) ->
  match Attach srv ok now fd arriving s with (s', Ret _) | (s', Throw _) => J s' | _ => True end.
Proof.
  intros Hs HG. unfold Attach. unfold mbind at 1, M_bind at 1, get_state. unfold mbind at 1, M_bind at 1, in_loop.
  pose proof (calm_Add ok fd (Z.lor EPOLLIN EPOLLRDHUP) (next_ (io_loop s)) (io_loop s)) as HC. unfold Add in *. destruct ok; cbn [fst] in HC; cbv zeta; [|by apply walk_loop].
  unfold mbind at 1, M_bind at 1. cbn [put_peer modify]. apply walk_Deadline. apply (walk_put (mkIo _ _ _ _)); [done|]. by apply walk_loop.
Qed.
Lemma walk_Attach ok now fd arriving : (forall t, G t (new_peer fd arriving)) -> keeps (Attach srv ok now fd arriving).
Proof. intros HG. unfold Attach. walking. by apply walk_put_peer. Qed.
Lemma walk_close_all ts : keeps (close_all ts).
Proof. induction ts as [|t ts IH]; cbn [close_all]; walking. Qed.

(** The tasks, but for the one that stops the loop. *)
Lemma walk_exec e t :
  match t with
  | TReply t size fr r b => forall p, G t p -> close r = false -> (fr = true -> consumed r = size) -> G t (answered b r p)
  | TAttach fd arriving => forall t, G t (new_peer fd arriving)
  | TCloseAll => forall s, J s -> J (mkIo (io_index s) (Stop TNothing (io_loop s)).1 (peers s) (shared s))
  | _ => True
  end -> keeps (exec srv e t).
Proof.
  intros Ht. destruct t as [t|t size fr r b|fd arr|t| |]; cbn [exec]; [walking|by apply walk_on_reply|by apply walk_Attach|walking| |walking].
  apply keeps_bind; [apply keeps_get|intros s0]. apply keeps_bind; [apply walk_close_all|intros _]. intros s Hs. by apply (Ht s).
Qed.
Lemma walk_notify e t ev : keeps (notify srv e t ev).
Proof. unfold notify. walking. Qed.
End Walk.

(** The reply is refused, or it is recorded and what follows keeps another property. *)
Lemma walk_on_reply_then {srv J G} `{!Walks srv J G} {J' G'} `{!Walks srv J' G'} e t size fr r b s :
  (forall s p p', J s -> peers s !! t = Some p -> close r = false -> answers p' = answers p ++ [(b, r)] -> J' (mkIo (io_index s) (io_loop s) (<[t := p']> (peers s)) (shared s))) ->
  J s -> match on_reply srv e t size fr r b s with (s', Ret _) | (s', Throw _) => J s' \/ J' s' | _ => True end.
Proof.
  intros HJ Hs. unfold on_reply. unfold mbind at 1, M_bind at 1, get_peer. destruct (peers s !! t) as [p|] eqn:Hp; [|by left]. cbv zeta.
  unfold mbind at 1, M_bind at 1. cbn [put_peer modify]. set (s1 := mkIo _ _ _ _).
  assert (J s1) as H1 by (apply walk_put; [|done]; eapply walk_same; [|by eapply walk_known]; done).
  destruct (_ || _) eqn:E.
  { pose proof (walk_Close (J := J) t s1 H1) as HC. destruct (Close t s1) as [s' []]; by auto. }
  assert (close r = false) as Hcl by (by repeat (apply orb_false_iff in E as [E _])). clear E. unfold mbind at 1, M_bind at 1.
  assert (exists s2, (if consumed r =? 0 then mret tt else on_rt count_request) s1 = (s2, Ret tt) /\ J s2 /\ peers s2 = peers s1) as (s2 & -> & H2 & Ep).
  { destruct (consumed r =? 0); [by exists s1|]. eexists. split; [done|]. split; [|done]. by apply walk_count. }
  unfold mbind at 1, M_bind at 1. cbn [put_peer modify]. match goal with |- context [Pump srv e t ?x] => assert (J' x) as H3 end.
  { apply (HJ s2 (replied p)); [done|rewrite Ep; apply lookup_insert_eq|done|]. destruct (zlen (r_bytes r) =? 0), fr; done. }
  pose proof (walk_Pump (J := J') e t _ H3) as HP. destruct (Pump srv e t _) as [s' []]; by auto.
Qed.
