(* ===== verification/TcpServerCorrectness.v ===== *)
(** The invariant of the whole server, for any interleaving of its threads, and the theorems it gives:
    resource bounds, the accounting of connections and requests, and the integrity and order of the
    byte streams of every connection. *)
From S2P Require Import Prelude Buffer EventLoop TcpServer TcpServerInv.
Import EventLoop TcpServer.

Section World.
Context (srv : server) (cfg : config_ok srv).

Definition conns (x : loop task callback * gmap Z Peer) : Z := Z.of_nat (size x.2) + attaches (tasks_ x.1).
Definition sum_conns (ios : list (loop task callback * gmap Z Peer)) : Z := foldr (fun x n => conns x + n) 0 ios.

(** One reactor: its loop, and its peers against the outstanding requests [infl]. *)
Record part_inv (infl : list (Z * bytes)) (n : Z) (l : loop task callback) (ps : gmap Z Peer) : Prop := {
  pa_loop : EventLoop.Inv l;
  pa_next : next_ l <= n;
  pa_tasks : Forall (task_ok srv) (tasks_ l);
  pa_timers : Forall idle (timers_ l);
  pa_peers : peers_inv srv infl (next_ l) ps
}.

Record world_inv (n : Z) (w : world) : Prop := {
  wi_queue : queue_inv srv (w_rt w);
  wi_active : active_ (w_rt w) = sum_conns (w_ios w);
  wi_max : active_ (w_rt w) <= max_connections_ srv;
  wi_ios : forall i l ps, w_ios w !! i = Some (l, ps) ->
    part_inv (jobs_of i (jobs (w_rt w)) ++ replies_in (tasks_ l) ++ jobs_of i (concat (w_batches w))) n l ps;
  wi_batches : Forall (job_ok srv) (concat (w_batches w))
}.

(** ** Connections *)

Lemma filter_none_in {A} (P : A -> Prop) `{!forall x, Decision (P x)} (l : list A) : Forall (fun x => ~ P x) l -> filter P l = [].
Proof. induction 1 as [|x l Hx _ IH]; [done|]. by rewrite filter_cons_False. Qed.

Lemma conns_nonneg x : 0 <= conns x.
Proof. unfold conns, attaches. pose proof (zlen_nonneg (filter (fun t => is_attach t = true) (tasks_ x.1))). lia. Qed.

Lemma sum_conns_nonneg ios : 0 <= sum_conns ios.
Proof. unfold sum_conns. induction ios as [|x ios IH]; cbn [foldr]; [lia|]. pose proof (conns_nonneg x). lia. Qed.

Lemma sum_conns_cons x ios : sum_conns (x :: ios) = conns x + sum_conns ios.
Proof. done. Qed.

Lemma sum_conns_insert ios i x y : ios !! i = Some x -> sum_conns (<[i := y]> ios) = sum_conns ios - conns x + conns y.
Proof.
  revert i. induction ios as [|z ios IH]; intros [|i] H; try done.
  - injection H as ->. change (<[0%nat := y]> (x :: ios)) with (y :: ios). rewrite !sum_conns_cons. lia.
  - change (<[S i := y]> (z :: ios)) with (z :: <[i := y]> ios). rewrite !sum_conns_cons, (IH i H). lia.
Qed.

Lemma sum_conns_lookup ios i x : ios !! i = Some x -> conns x <= sum_conns ios.
Proof.
  revert i. induction ios as [|z ios IH]; intros [|i] H; try done; rewrite sum_conns_cons.
  - injection H as ->. pose proof (sum_conns_nonneg ios). lia.
  - specialize (IH i H). pose proof (conns_nonneg z). lia.
Qed.

Lemma part_mono infl n n' l ps : n <= n' -> part_inv infl n l ps -> part_inv infl n' l ps.
Proof. intros Hn []. constructor; try done. lia. Qed.
Lemma part_perm a b n l ps : a ≡ₚ b -> part_inv a n l ps -> part_inv b n l ps.
Proof. intros Hab []. constructor; try done. by eapply peers_inv_perm. Qed.

(** ** Entering and leaving a callback *)

Lemma leave_inv n n' w i l ps s :
  world_inv n w -> n <= n' -> w_ios w !! i = Some (l, ps) ->
  io_inv srv i (jobs_of i (concat (w_batches w))) (sum_conns (w_ios w) - conns (l, ps)) (jobs (w_rt w)) n' s ->
  world_inv n' (leave i s w).
Proof.
  intros [Wq Wa Wm Wi Wb] Hn Hi [Si Sl Sn St Stm Sq Sp Sa So Sm (new & Sj & Snew)]. constructor; cbn [leave w_rt w_ios w_batches]; try done.
  - rewrite (sum_conns_insert _ i (l, ps)) by done. rewrite Sa. unfold conns at 3. cbn [fst snd]. lia.
  - intros j l' ps' Hj. destruct (decide (j = i)) as [->|Hne].
    + rewrite list_lookup_insert_eq in Hj by (by eapply lookup_lt_Some). injection Hj as <- <-. constructor; done.
    + rewrite list_lookup_insert_ne in Hj by done. assert (jobs_of j (jobs (shared s)) = jobs_of j (jobs (w_rt w))) as ->.
      { rewrite Sj. unfold jobs_of. rewrite filter_app, fmap_app. rewrite (filter_none_in _ new); [by rewrite app_nil_r|].
        eapply Forall_impl; [exact Snew|]. cbn. congruence. }
      eapply part_mono; [exact Hn|]. by apply Wi.
Qed.

Lemma enter_inv n w i l ps :
  world_inv n w -> w_ios w !! i = Some (l, ps) ->
  io_inv srv i (jobs_of i (concat (w_batches w))) (sum_conns (w_ios w) - conns (l, ps)) (jobs (w_rt w)) n (mkIo i l ps (w_rt w)).
Proof.
  intros [Wq Wa Wm Wi Wb] Hi. destruct (Wi i l ps Hi) as [P1 P2 P3 P4 P5]. constructor; cbn [io_index io_loop peers shared]; try done.
  - rewrite Wa. unfold conns. cbn [fst snd]. lia.
  - pose proof (sum_conns_lookup _ _ _ Hi). lia.
  - exists []. by rewrite app_nil_r.
Qed.

(** The reactor takes task [t] off its queue. *)
Lemma enter_task n w i l ps t ts :
  world_inv n w -> w_ios w !! i = Some (l, ps) -> tasks_ l = t :: ts ->
  io_inv srv i (with_reply t (jobs_of i (concat (w_batches w)))) (with_attach t (sum_conns (w_ios w) - conns (l, ps))) (jobs (w_rt w)) n
    (mkIo i (pop_task l) ps (w_rt w)) /\ task_ok srv t.
Proof.
  intros W Hi Ht. pose proof (enter_inv n w i l ps W Hi) as [Si Sl Sn St Stm Sq Sp Sa So Sm Sj]. cbn [io_index io_loop peers shared] in *.
  rewrite Ht in *. apply Forall_cons in St as [Htok St]. split; [|done].
  constructor; cbn [io_index io_loop peers shared pop_task next_ timers_ tasks_]; rewrite ?Ht; cbn [tail]; try done.
  - eapply peers_inv_perm; [|exact Sp]. unfold with_reply, replies_in. cbn [omap list_omap]. destruct (reply_of t) as [x|]; [|done].
    f_equiv. cbn [app]. apply Permutation_middle.
  - rewrite Sa. unfold with_attach, attaches. rewrite filter_cons. destruct (is_attach t); [rewrite decide_True by done; rewrite zlen_cons|rewrite decide_False by done]; lia.
  - unfold with_attach. destruct (is_attach t); lia.
Qed.

(** The first timer is taken off. *)
Lemma enter_timer n w i l ps t ts :
  world_inv n w -> w_ios w !! i = Some (l, ps) -> timers_ l = t :: ts ->
  io_inv srv i (jobs_of i (concat (w_batches w))) (sum_conns (w_ios w) - conns (l, ps)) (jobs (w_rt w)) n (mkIo i (pop_timer t l).1 ps (w_rt w)) /\ idle t.
Proof.
  intros W Hi Ht. pose proof (enter_inv n w i l ps W Hi) as HI. pose proof (ii_timers _ _ _ _ _ _ _ HI) as Htm. cbn [io_loop] in Htm. rewrite Ht in Htm.
  apply Forall_cons in Htm as [Hid Htm]. split; [|done]. destruct (pop_spec t ts l (ii_loop _ _ _ _ _ _ _ HI) Ht) as (Hl' & _ & Ht' & Hn').
  pose proof (ii_next _ _ _ _ _ _ _ HI) as Hnx. cbn [io_loop] in Hnx.
  apply (inv_loop srv i _ _ _ n n (mkIo i l ps (w_rt w)) (pop_timer t l).1); [done|done|done|cbn [io_loop]; lia|by rewrite Ht'].
Qed.

(** ** Posting *)

Lemma replies_snoc ts t : replies_in (ts ++ [t]) = replies_in ts ++ match reply_of t with Some x => [x] | None => [] end.
Proof. unfold replies_in. rewrite omap_app. cbn. by destruct (reply_of t). Qed.
Lemma attaches_snoc ts t : attaches (ts ++ [t]) = attaches ts + if is_attach t then 1 else 0.
Proof.
  unfold attaches. rewrite filter_app, zlen_app. f_equal. rewrite filter_cons. by destruct (is_attach t).
Qed.

Lemma post_lookup (ios : list (loop task callback * gmap Z Peer)) i t j l ps :
  alter (fun x => ((Post t x.1).1, x.2)) i ios !! j = Some (l, ps) ->
  (j = i /\ exists l0, ios !! i = Some (l0, ps) /\ l = (Post t l0).1) \/ (j <> i /\ ios !! j = Some (l, ps)).
Proof.
  destruct (decide (j = i)) as [->|Hne].
  - rewrite list_lookup_alter_eq. destruct (ios !! i) as [[l0 ps0]|] eqn:E; [|done]. cbn. intros [= <- <-]. left. split; [done|]. by exists l0.
  - rewrite list_lookup_alter_ne by done. by right.
Qed.

Lemma sum_conns_post ios i t : sum_conns (alter (fun x => ((Post t x.1).1, x.2)) i ios) =
  sum_conns ios + if is_attach t && bool_decide (i < length ios)%nat then 1 else 0.
Proof.
  case_bool_decide as Hi.
  - destruct (lookup_lt_is_Some_2 ios i Hi) as [x Hx].
    rewrite (list_alter_ext _ (fun _ => ((Post t x.1).1, x.2)) ios ios i) by congruence. rewrite <-list_insert_alter.
    rewrite (sum_conns_insert _ i x) by done. unfold conns. cbn [fst snd Post modify tasks_]. rewrite attaches_snoc, andb_true_r. destruct (is_attach t); lia.
  - rewrite (list_alter_ext _ id ios ios i), list_alter_id by (done || (intros x Hx; apply lookup_lt_Some in Hx; lia)). rewrite andb_false_r. lia.
Qed.

Lemma part_post infl infl' n l ps t :
  part_inv infl n l ps -> task_ok srv t -> infl ≡ₚ infl' -> part_inv infl' n (Post t l).1 ps.
Proof.
  intros Hp Ht Hi. destruct (part_perm _ _ _ _ _ Hi Hp) as [P1 P2 P3 P4 P5]. constructor; try done.
  cbn. apply Forall_app. split; [done|by apply Forall_singleton].
Qed.

(** A task that carries neither a reply nor a connection. *)
Lemma post_inv n w i t : world_inv n w -> reply_of t = None -> is_attach t = false -> task_ok srv t -> world_inv n (post_to i t w).
Proof.
  intros [Wq Wa Wm Wi Wb] Hr Hat Ht. constructor; cbn [post_to w_rt w_ios w_batches]; try done.
  - by rewrite sum_conns_post, Hat, Z.add_0_r.
  - intros j l ps [(-> & l0 & Hl & ->)|[_ Hl]]%post_lookup; [|by apply Wi]. eapply part_post; [by apply Wi|done|].
    cbn [Post modify fst tasks_]. by rewrite replies_snoc, Hr, app_nil_r.
Qed.

(** A new connection. *)
Lemma post_attach_inv n w i r fd arriving :
  world_inv n w -> (i < length (w_ios w))%nat -> active_ r = active_ (w_rt w) + 1 -> active_ r <= max_connections_ srv ->
  jobs r = jobs (w_rt w) -> queue_inv srv r -> forall nx, world_inv n (post_to i (TAttach fd arriving) (mkWorld r (w_ios w) (w_batches w) nx)).
Proof.
  intros [Wq Wa Wm Wi Wb] Hi Ha Hm Hj Hq nx. constructor; cbn [post_to w_rt w_ios w_batches]; try done.
  - rewrite sum_conns_post. cbn [is_attach andb]. rewrite bool_decide_eq_true_2 by done. lia.
  - rewrite Hj. intros j l ps [(-> & l0 & Hl & ->)|[_ Hl]]%post_lookup; [|by apply Wi]. eapply part_post; [by apply Wi|done|].
    cbn [Post modify fst tasks_]. by rewrite replies_snoc, app_nil_r.
Qed.

Lemma jobs_of_cons i j js : jobs_of i (j :: js) = (if decide (j_io j = i) then [(j_token j, j_input j)] else []) ++ jobs_of i js.
Proof. unfold jobs_of. rewrite filter_cons. by destruct (decide (j_io j = i)). Qed.

(** A job of a batch is answered. *)
Lemma post_reply_inv n rt ios j js ab nx r :
  world_inv n (mkWorld rt ios ((j :: js) :: ab) nx) -> 0 <= consumed r ->
  world_inv n (post_to (j_io j) (completion (j, r)).2 (mkWorld rt ios (js :: ab) nx)).
Proof.
  intros [Wq Wa Wm Wi Wb] Hr. cbn [w_rt w_ios w_batches concat] in *. rewrite <-app_comm_cons in *. apply Forall_cons in Wb as [Hj Wb].
  assert (task_ok srv (completion (j, r)).2) as Ht by (destruct Hj as (? & ? & ?); cbn; split_and!; try done; lia).
  constructor; cbn [post_to w_rt w_ios w_batches concat]; try done.
  - rewrite sum_conns_post. cbn [is_attach completion snd andb]. by rewrite Z.add_0_r.
  - intros i l ps [(-> & l0 & Hl & ->)|[Hne Hl]]%post_lookup.
    + eapply part_post; [by apply Wi|done|]. cbn [Post modify fst tasks_]. rewrite replies_snoc, jobs_of_cons, decide_True by done.
      cbn [completion snd reply_of fst]. rewrite <-app_assoc. done.
    + pose proof (Wi i l ps Hl) as Hp. rewrite jobs_of_cons, decide_False in Hp by done. done.
Qed.

Lemma batches_inv n rt ios a b nx :
  world_inv n (mkWorld rt ios a nx) -> concat a ≡ₚ concat b -> forall nx', world_inv n (mkWorld rt ios b nx').
Proof.
  intros [Wq Wa Wm Wi Wb] Hab nx'. constructor; cbn [w_rt w_ios w_batches] in *; try done.
  - intros i l ps Hl. eapply part_perm; [|by apply Wi]. unfold jobs_of. by rewrite Hab.
  - by rewrite <-Hab.
Qed.

Lemma finish_inv n : forall batch replies rt ios ab nx,
  world_inv n (mkWorld rt ios (batch :: ab) nx) -> length replies = length batch -> Forall (fun r => 0 <= consumed r) replies ->
  world_inv n (fold_left (fun w x => post_to x.1 x.2 w) (completion <$> zip batch replies) (mkWorld rt ios ab nx)).
Proof.
  induction batch as [|j batch IH]; intros [|r replies] rt ios ab nx W Hl Hr; try done; cbn [zip_with fmap list_fmap fold_left].
  - by apply (batches_inv n rt ios ([] :: ab) ab nx).
  - apply Forall_cons in Hr as [Hr Hrs]. injection Hl as Hl. pose proof (post_reply_inv n rt ios j batch ab nx r W Hr) as W1.
    unfold post_to in *. cbn [w_rt w_ios w_batches w_next completion fst snd] in *. by apply IH.
Qed.

(** ** Workers, acceptor, shutdown *)

Lemma take_jobs_inv c : forall r r' batch, queue_inv srv r -> take_jobs c r = (r', batch) ->
  queue_inv srv r' /\ jobs r = batch ++ jobs r' /\ active_ r' = active_ r.
Proof.
  induction c as [|c IH]; intros r r' batch Q; cbn [take_jobs]; [by intros [= <- <-]|].
  destruct (jobs r) as [|j js] eqn:Ej; [by intros [= <- <-]; rewrite Ej|].
  set (r1 := set_jobs _ _ _ _ _). destruct (take_jobs c r1) as [r2 b] eqn:Et. intros [= <- <-].
  assert (queue_inv srv r1) as Q1.
  { destruct Q as [Q1 Q2 Q3 Q4 Q5 Q6]. rewrite Ej in *. unfold total in *. cbn [foldr] in *. fold (total js) in *. rewrite zlen_cons in *.
    apply Forall_cons in Q6 as [_ Q6]. pose proof cfg as (_ & _ & Hqb & Hqc & _). pose proof (zlen_nonneg (j_input j)). pose proof (zlen_nonneg js).
    pose proof (total_nonneg js). unfold total in *.
    constructor; cbn [r1 set_jobs jobs queued queued_tasks_ queued_bytes_]; unfold total; rewrite ?u64_small by lia; try lia. done. }
  destruct (IH r1 r2 b Q1 Et) as (? & E & ?). split; [done|]. split; [cbn; by rewrite <-E|done].
Qed.

Lemma rt_inv n f w :
  world_inv n w -> (forall r, jobs (f r) = jobs r /\ queued (f r) = queued r /\ active_ (f r) = active_ r /\ queued_tasks_ (f r) = queued_tasks_ r /\ queued_bytes_ (f r) = queued_bytes_ r) ->
  world_inv n (with_rt f w).
Proof.
  intros [Wq Wa Wm Wi Wb] Hf. destruct (Hf (w_rt w)) as (E1 & E2 & E3 & E4 & E5).
  constructor; cbn [with_rt w_rt w_ios w_batches]; rewrite ?E1, ?E3; try done.
  destruct Wq. constructor; rewrite ?E1, ?E2, ?E4, ?E5; done.
Qed.

Lemma take_inv n w r batch : world_inv n w -> take_batch srv (w_rt w) = (r, batch) ->
  world_inv n (mkWorld r (w_ios w) (w_batches w ++ [batch]) (w_next w)).
Proof.
  intros [Wq Wa Wm Wi Wb] Ht. destruct (take_jobs_inv _ _ _ _ Wq Ht) as (Q' & Ej & Ea).
  assert (Forall (job_ok srv) batch) as Hb by (pose proof (qi_jobs _ _ Wq) as H; rewrite Ej in H; by apply Forall_app in H as [? _]).
  constructor; cbn [w_rt w_ios w_batches]; rewrite ?Ea; try done.
  - intros i l ps Hl. eapply part_perm; [|by apply Wi]. rewrite Ej, concat_app. cbn [concat]. rewrite app_nil_r. unfold jobs_of.
    rewrite !filter_app, !fmap_app. set (x := _ <$> filter _ batch). rewrite <-app_assoc, (Permutation_app_comm x), <-!app_assoc. done.
  - rewrite concat_app. cbn [concat]. rewrite app_nil_r. by apply Forall_app.
Qed.

Lemma admit_inv n fd arriving w : world_inv n w -> w_ios w <> [] -> world_inv n (admit_one srv fd arriving w).
Proof.
  intros W Hne. unfold admit_one. destruct (Z.leb_spec (max_connections_ srv) (active_ (w_rt w))); [by apply rt_inv|].
  pose proof (wi_active _ _ W) as Ha. pose proof (sum_conns_nonneg (w_ios w)). pose proof cfg as (_ & _ & _ & _ & _ & Hmc & _).
  assert (u64 (active_ (w_rt w) + 1) = active_ (w_rt w) + 1) as Hu by (apply u64_small; lia).
  apply (post_attach_inv n w); cbn -[u64]; rewrite ?Hu; try done; try lia.
  - assert (0 < zlen (w_ios w)) by (by apply nonempty_zlen). pose proof (Z.mod_pos_bound (w_next w) (zlen (w_ios w)) ltac:(lia)). unfold zlen in *. lia.
  - destruct (wi_queue _ _ W). by constructor.
Qed.

Lemma accept_inv n rs : forall turns w, world_inv n w -> w_ios w <> [] -> world_inv n (accept_ready srv turns rs w).
Proof.
  induction rs as [|[fd arr| |] rs IH]; intros [|turns] w W Hne; cbn [accept_ready]; try done.
  - apply IH; [by apply admit_inv|]. unfold admit_one, with_rt, post_to. destruct (_ <=? _); cbn; [done|].
    rewrite <-length_zero_iff_nil, length_alter, length_zero_iff_nil. done.
  - by apply IH.
Qed.

Lemma step_length k w w' : step srv k w w' -> length (w_ios w') = length (w_ios w).
Proof.
  assert (forall xs w0, length (w_ios (fold_left (fun w x => post_to x.1 x.2 w) xs w0)) = length (w_ios w0)) as Hf.
  { induction xs as [|x xs IH]; intros w0; [done|]. cbn [fold_left]. rewrite IH. apply length_alter. }
  assert (forall rs turns w0, length (w_ios (accept_ready srv turns rs w0)) = length (w_ios w0)) as Hacc.
  { induction rs as [|[fd arr| |] rs IH]; intros [|turns] w0; cbn [accept_ready]; try done; rewrite IH; try done.
    unfold admit_one, with_rt, post_to. destruct (_ <=? _); [done|]. apply length_alter. }
  destruct 1; cbn [leave w_ios with_rt post_to]; rewrite ?length_insert, ?length_alter; try done.
  unfold finish_batch. destruct (batch_replies _ _). by rewrite Hf.
Qed.

Lemma step_nonneg k w w' : step srv k w w' -> 0 <= k.
Proof. destruct 1; try done; pose proof (zlen_nonneg (sends e)); lia. Qed.

Lemma step_inv n k w w' : world_inv n w -> w_ios w <> [] -> step srv k w w' -> n + k < 2 ^ 64 -> world_inv (n + k) w'.
Proof.
  intros W Hne H Hb. pose proof (step_nonneg k w w' H) as Hk. destruct H as [w i e l ps t ts s Hi Ht Hx|w i e l ps token x ev s Hi Hw Hx|w i e l ps t ts s Hi Ht Hx| | | | |].
  - destruct (enter_task n w i l ps t ts W Hi Ht) as [HI Htok]. apply (leave_inv n _ w i l ps); [done|lia|done|].
    pose proof (sum_conns_lookup _ _ _ Hi). pose proof (exec_run srv cfg i e t _ (sum_conns (w_ios w) - conns (l, ps)) _ n Hb Htok ltac:(lia) _ HI) as HE.
    unfold wpx in HE. by rewrite Hx in HE.
  - pose proof (enter_inv n w i l ps W Hi) as HI. apply (leave_inv n _ w i l ps); [done|lia|done|].
    pose proof (notify_run srv cfg i e (w_callback x) ev _ _ _ n Hb _ HI) as HE. unfold wpx in HE. by rewrite Hx in HE.
  - destruct (enter_timer n w i l ps t ts W Hi Ht) as [HI Hid]. apply (leave_inv n _ w i l ps); [done|lia|done|].
    pose proof (sum_conns_lookup _ _ _ Hi). unfold idle in Hid. destruct (t.2.2) as [| | |token| |]; try done.
    pose proof (exec_run srv cfg i e (TDeadline token) _ (sum_conns (w_ios w) - conns (l, ps)) _ n Hb I ltac:(lia) _ HI) as HE. unfold wpx in HE. by rewrite Hx in HE.
  - rewrite Z.add_0_r. by apply take_inv.
  - rewrite Z.add_0_r. destruct w as [rt ios bs nx]. cbn [w_rt w_ios w_batches w_next] in *. subst bs.
    assert (world_inv n (mkWorld rt ios (batch :: a ++ b) nx)) as W1.
    { apply (batches_inv n rt ios (a ++ batch :: b) _ nx W). rewrite !concat_app. cbn [concat]. rewrite concat_app, !app_assoc.
      f_equiv. apply Permutation_app_comm. }
    unfold finish_batch. assert (exists replies errors, batch_replies batch handled = (replies, errors) /\ length replies = length batch /\
      Forall (fun r => 0 <= consumed r) replies) as (replies & errors & -> & Hl & Hr).
    { assert (Forall (fun r => 0 <= consumed r) (replicate (length batch) (mkReply 0 [] true))) by (by apply Forall_replicate).
      unfold batch_replies. destruct handled as [rs|e| |]; [case_bool_decide|..]; do 2 eexists; (split; [done|]); (split; [done || apply length_replicate|]); auto. }
    apply finish_inv; [|done|done]. exact (rt_inv n (count_handler us errors) _ W1 (fun r => conj eq_refl (conj eq_refl (conj eq_refl (conj eq_refl eq_refl))))).
  - rewrite Z.add_0_r. by apply accept_inv.
  - rewrite Z.add_0_r. by apply rt_inv.
  - rewrite Z.add_0_r. by apply post_inv.
Qed.

(** * What every reachable server satisfies *)

Lemma start_inv ios : world_inv 1 (start_world ios).
Proof.
  assert (sum_conns (replicate ios (new_loop, ∅)) = 0) as Hs.
  { induction ios as [|ios IH]; [done|]. cbn [replicate]. rewrite sum_conns_cons, IH. unfold conns, attaches. cbn. by rewrite map_size_empty. }
  pose proof cfg as (_ & _ & Hqb & Hqc & _ & Hmc & _).
  constructor; cbn [start_world w_rt w_ios w_batches new_runtime active_]; try done; try lia.
  - constructor; cbn; try done; try lia; unfold zlen; cbn; lia.
  - intros i l ps [Hi _]%lookup_replicate. injection Hi as -> ->. constructor; [apply Inv_new|done|by constructor|by constructor|].
    split; [apply map_Forall_empty|constructor].
Qed.

Lemma reachable_inv ios n w : reachable srv ios n w -> (0 < ios)%nat -> n < 2 ^ 64 -> world_inv n w /\ length (w_ios w) = ios.
Proof.
  intros H Hios. induction H as [|n k w w' Hr IH Hs]; intros Hb.
  - split; [apply start_inv|]. cbn. apply length_replicate.
  - pose proof (step_nonneg _ _ _ Hs). destruct IH as [W Hl]; [lia|]. split.
    + apply (step_inv n k w); [done| |done|done]. intros E. rewrite E in Hl. cbn in Hl. lia.
    + by rewrite (step_length _ _ _ Hs).
Qed.

(** The outstanding requests of a peer: queued, in the hands of a worker, or answered and on the way back. *)
Definition outstanding (w : world) (i : nat) (l : loop task callback) (token : Z) : list bytes :=
  inputs_of token (jobs_of i (jobs (w_rt w)) ++ replies_in (tasks_ l) ++ jobs_of i (concat (w_batches w))).

Lemma reachable_peer ios n w i l ps token p :
  reachable srv ios n w -> (0 < ios)%nat -> n < 2 ^ 64 -> w_ios w !! i = Some (l, ps) -> ps !! token = Some p ->
  peer_inv srv (outstanding w i l token) p.
Proof.
  intros H Hios Hb Hi Hp. destruct (reachable_inv ios n w H Hios Hb) as [W _]. destruct (wi_ios _ _ W i l ps Hi) as [_ _ _ _ [P _]]. apply (P token p Hp).
Qed.

(** C20. The server stays within its configured resources in every interleaving: the job queue within
    its count and byte limits (and the published counters exact), the open and arriving connections
    exactly [active_] and within [max_connections], and for every connection the buffered input within
    one frame, the unsent output within [output_bytes], and the pipeline depth within its limit with
    [pending] the exact number of outstanding requests. *)
Theorem server_within_limits ios n w :
  reachable srv ios n w -> (0 < ios)%nat -> n < 2 ^ 64 ->
  zlen (jobs (w_rt w)) <= queue_capacity (options_ srv) /\ total (jobs (w_rt w)) <= queue_bytes (options_ srv) /\
  st_queued_tasks (stats (w_rt w)) = zlen (jobs (w_rt w)) /\ st_queued_bytes (stats (w_rt w)) = total (jobs (w_rt w)) /\
  (st_active (stats (w_rt w)) = sum_conns (w_ios w) /\ sum_conns (w_ios w) <= max_connections_ srv) /\
  forall i l ps token p, w_ios w !! i = Some (l, ps) -> ps !! token = Some p ->
    Buffer.size (input p) <= max_frame_bytes_ srv /\ (p_output_bytes p = zlen (unsent p) /\ zlen (unsent p) <= output_bytes (options_ srv)) /\
    (pending p = zlen (outstanding w i l token) /\ pending p <= limit srv).
Proof.
  intros H Hios Hb. destruct (reachable_inv ios n w H Hios Hb) as [W _]. destruct (wi_queue _ _ W) as [Q1 Q2 Q3 Q4 Q5 Q6].
  split; [done|]. split; [done|]. split; [done|]. split; [done|]. split; [split; [apply W|cbn; rewrite <-(wi_active _ _ W); apply W]|].
  intros i l ps token p Hi Hp. pose proof (reachable_peer ios n w i l ps token p H Hios Hb Hi Hp) as P.
  rewrite Buffer.size_data by apply P. split; [apply P|]. split; [split; apply P|]. split; [apply P|]. rewrite (pi_pending _ _ _ P). apply P.
Qed.

(** C4. No byte of a framed connection is lost, duplicated or reordered in either direction, in any
    interleaving: the bytes received are the submitted frames followed by the unread input, each frame
    delimited by the sizer; the bytes sent are, with those still to be sent, the accepted replies one
    after the other; and the submitted frames are exactly the answered and the outstanding ones. *)
Theorem streams_intact ios n w i l ps token p :
  reachable srv ios n w -> (0 < ios)%nat -> n < 2 ^ 64 -> is_Some (sizer_ srv) ->
  w_ios w !! i = Some (l, ps) -> ps !! token = Some p ->
  stream p = concat (frames p) ++ Buffer.data (input p) /\ Forall (delimited srv) (frames p) /\
  wire p ++ unsent p = concat ((fun a => r_bytes a.2) <$> answers p) /\
  frames p ≡ₚ (answers p).*1 ++ outstanding w i l token.
Proof.
  intros H Hios Hb Hf Hi Hp. pose proof (reachable_peer ios n w i l ps token p H Hios Hb Hi Hp) as P.
  split; [apply P; unfold framed; by apply bool_decide_eq_true_2|]. split; [apply P|]. split; apply P.
Qed.

(** C13. A batch server, an unframed one and one with a pipeline of 1 (the KV server in both sync modes)
    answer the requests of a connection one at a time and in order: the answers match, position by
    position, the frames in the order received, and at most one request is outstanding. *)
Theorem answers_in_order ios n w i l ps token p :
  reachable srv ios n w -> (0 < ios)%nat -> n < 2 ^ 64 -> limit srv = 1 ->
  w_ios w !! i = Some (l, ps) -> ps !! token = Some p ->
  frames p = (answers p).*1 ++ outstanding w i l token /\ zlen (outstanding w i l token) <= 1 /\
  wire p ++ unsent p = concat ((fun a => r_bytes a.2) <$> answers p).
Proof.
  intros H Hios Hb Hl Hi Hp. pose proof (reachable_peer ios n w i l ps token p H Hios Hb Hi Hp) as P.
  split; [by apply P|]. split; [rewrite <-Hl; apply P|apply P].
Qed.

Lemma task_ends n w i l ps e t ts : world_inv n w -> n + cost e < 2 ^ 64 -> w_ios w !! i = Some (l, ps) -> tasks_ l = t :: ts ->
  match (exec srv e t (mkIo i (pop_task l) ps (w_rt w))).2 with Ret _ => True | Throw x => x = std_system_error | _ => False end.
Proof.
  intros W Hb Hi Ht. destruct (enter_task n w i l ps t ts W Hi Ht) as [HI Htok]. pose proof (sum_conns_lookup _ _ _ Hi) as Hsum.
  pose proof (exec_run srv cfg i e t _ (sum_conns (w_ios w) - conns (l, ps)) _ n Hb Htok ltac:(lia) _ HI) as HE.
  unfold wpx in HE. by destruct (exec srv e t _) as [s [u|x| |]].
Qed.

(** C22. No callback of a reactor misbehaves, whatever the system calls return: in every reachable server,
    running the next task, the callback of a descriptor or the first timer returns, or throws the
    [std::system_error] of a failed [epoll_ctl]; it never reads out of range, follows a dangling timer
    or fails to terminate. *)
Theorem callbacks_safe ios n w i l ps e :
  reachable srv ios n w -> (0 < ios)%nat -> n + cost e < 2 ^ 64 -> w_ios w !! i = Some (l, ps) ->
  let fine (m : M io unit) (l : loop task callback) := match (m (mkIo i l ps (w_rt w))).2 with Ret _ => True | Throw x => x = std_system_error | _ => False end in
  (forall t ts, tasks_ l = t :: ts -> fine (exec srv e t) (pop_task l)) /\
  (forall token events, fine (notify srv e token events) l) /\
  (forall t ts, timers_ l = t :: ts -> fine (exec srv e t.2.2) (pop_timer t l).1).
Proof.
  intros H Hios Hb Hi fine. assert (n < 2 ^ 64) as Hn by (unfold cost in Hb; pose proof (zlen_nonneg (sends e)); lia).
  destruct (reachable_inv ios n w H Hios Hn) as [W _]. pose proof (sum_conns_lookup _ _ _ Hi) as Hsum. unfold fine. split_and!.
  - intros t ts Ht. by eapply task_ends.
  - intros token ev. pose proof (enter_inv n w i l ps W Hi) as HI. pose proof (notify_run srv cfg i e token ev _ _ _ n Hb _ HI) as HE.
    unfold wpx in HE. by destruct (notify srv e token ev _) as [s [u|x| |]].
  - intros t ts Ht. destruct (enter_timer n w i l ps t ts W Hi Ht) as [HI Hid]. unfold idle in Hid. destruct (t.2.2) as [| | |token| |]; try done.
    pose proof (exec_run srv cfg i e (TDeadline token) _ (sum_conns (w_ios w) - conns (l, ps)) _ n Hb I ltac:(lia) _ HI) as HE.
    unfold wpx in HE. by destruct (exec srv e (TDeadline token) _) as [s [u|x| |]].
Qed.
End World.
