(* ===== verification/TcpServerBacklog.v ===== *)
(** What stays in the input of a connection of [TcpServer] between two callbacks of its reactor: the
    beginning of a frame, or frames that [Pump] holds back for a reason, never a frame that was forgotten. *)
From S2P Require Import Prelude Buffer EventLoop TcpServer TcpServerInv TcpServerWalk TcpServerCorrectness.
Import EventLoop TcpServer.

(** * A callback works on its own connection *)

Create HintDb alone.

Section Alone.
Context (srv : server) (t : Z) (ps0 : gmap Z Peer) (l0 : loop task callback).

(** The other connections are as they were, and a connection that is marked as scheduled has its pump queued;
    [known] are states of the connection that the callback has read.  Only a server without a sizer leaves an input for
    the handler to see again. *)
Definition whole (p : Peer) : Prop := framed srv = true -> incomplete p = false.
Record alone (known : list Peer) (s : io) : Prop := {
  al_others : forall k, k <> t -> peers s !! k = ps0 !! k;
  al_calm : calm l0 (io_loop s);
  al_queued : forall p, peers s !! t = Some p \/ p ∈ known -> scheduled p = true -> TPump t ∈ tasks_ (io_loop s);
  al_whole : forall p, peers s !! t = Some p \/ p ∈ known -> whole p
}.
Abbreviation keeps known := (keeps (alone known)).

Lemma alone_get {A} known (f : option Peer -> M io A) : (forall p, keeps (p :: known) (f (Some p))) -> keeps known (f None) -> keeps known (mbind f (get_peer t)).
Proof.
  intros Hs Hn s H. unfold mbind, M_bind, get_peer. destruct (peers s !! t) as [p|] eqn:E; [|by apply Hn].
  assert (forall s', alone (p :: known) s' -> alone known s') as Hw by (intros s' [G1 G2 G3 G4]; constructor; [done..| |]; intros q Hq; [apply G3|apply G4]; set_solver).
  assert (alone (p :: known) s) as Hp.
  { destruct H as [H1 H2 H3 H4]. constructor; [done..| |]; (intros q [Hq|[->|Hq]%elem_of_cons]; [(apply H3 || apply H4); left; congruence|(apply H3 || apply H4); left; congruence|(apply H3 || apply H4); by right]). }
  specialize (Hs p s Hp). destruct (f (Some p) s) as [s' []]; by auto.
Qed.
Lemma alone_put known p : (exists q, q ∈ known /\ (scheduled p = true -> scheduled q = true) /\ (framed srv = true -> incomplete p = true -> incomplete q = true)) -> keeps known (put_peer t p).
Proof.
  intros (q & Hq & Hs & Hi) s [H1 H2 H3 H4]. constructor; cbn [peers io_loop]; [intros k Hk; rewrite lookup_insert_ne by done; auto|done| |]; rewrite lookup_insert_eq; intros r [[= <-]|Hr].
  - intros Hp. apply (H3 q); auto.
  - apply H3. by right.
  - intros Hf. destruct (incomplete p) eqn:Ep; [|done]. rewrite <-(H4 q (or_intror Hq) Hf). symmetry. auto.
  - apply H4. by right.
Qed.
Lemma alone_drop known : keeps known (drop_peer t).
Proof. intros s [H1 H2 H3 H4]. constructor; cbn [peers io_loop]; [intros k Hk; rewrite lookup_delete_ne by done; auto|done| |]; rewrite lookup_delete_eq; intros q [?|Hq]; try done; eauto. Qed.
Lemma alone_loop {A} known (m : M (loop task callback) A) : calmly m -> keeps known (in_loop m).
Proof.
  intros Hm s [H1 H2 H3 H4]. unfold in_loop. specialize (Hm (io_loop s)). destruct (m (io_loop s)) as [l r]. cbn [fst] in Hm.
  assert (alone known (mkIo (io_index s) l (peers s) (shared s))) as HA; [|by destruct r].
  constructor; cbn [peers io_loop]; [done|by eapply calm_trans| |done]. intros p Hp Hs. destruct (calm_tasks _ _ Hm) as (more & -> & _). apply elem_of_app. eauto.
Qed.
Lemma alone_rt known f : keeps known (on_rt f).
Proof. intros s []. by constructor. Qed.
Hint Resolve keeps_ret keeps_lift keeps_get keeps_throw alone_drop alone_rt : alone.

Ltac same_flag := apply alone_put; eexists; split; [apply list_elem_of_here|]; split; [done|done || (intros; congruence)].
Ltac alone_step :=
  repeat (first [ match goal with |- forall _, _ => intro end | solve [auto with alone]
                | apply alone_get | apply keeps_bind
                | solve [same_flag]
                | apply alone_loop; solve [auto with walk]
                | match goal with |- Prelude.keeps _ (match ?x with _ => _ end) => destruct x end ]).

Lemma alone_Close known : keeps known (Close t).
Proof. unfold Close. alone_step. Qed.
Lemma alone_Deadline known now : keeps known (Deadline srv now t).
Proof. unfold Deadline. alone_step. Qed.
Lemma alone_Schedule known : keeps known (Schedule t).
Proof.
  intros s H. unfold Schedule, mbind, M_bind, get_peer. destruct (peers s !! t) as [p|] eqn:E; [|done]. destruct (scheduled p) eqn:Ep; [done|].
  destruct H as [H1 H2 H3 H4]. cbn. constructor; cbn [peers io_loop]; [intros k Hk; rewrite lookup_insert_ne by done; auto|eapply calm_trans; [exact H2|apply calm_Post]| |].
  - intros q _ _. cbn. apply elem_of_app. right. by apply list_elem_of_here.
  - rewrite lookup_insert_eq. intros q [[= <-]|Hq]; [|apply H4; by right]. apply (H4 p). by left.
Qed.
Hint Resolve alone_Close alone_Deadline alone_Schedule : alone.
Lemma alone_send_loop l : forall known budget, keeps known (send_loop srv t l budget).
Proof. induction l as [|x l IH]; intros known budget; cbn [send_loop]; cbv zeta; alone_step. Qed.
Lemma alone_recv_loop can l : forall known budget, keeps known (recv_loop srv t can l budget).
Proof. induction l as [|x l IH]; intros known budget; cbn [recv_loop]; cbv zeta; alone_step. Qed.
Lemma alone_frame_loop turns : forall known, keeps known (frame_loop srv t turns).
Proof. induction turns as [|turns IH]; intros known; cbn [frame_loop]; cbv zeta; alone_step. Qed.
Hint Resolve alone_send_loop alone_recv_loop alone_frame_loop : alone.
Lemma alone_Pump known e : keeps known (Pump srv e t).
Proof. unfold Pump, after_send, pump_receive, pump_frames, finish_pump. alone_step. Qed.
Lemma alone_on_reply known e size fr r b : fr = framed srv -> keeps known (on_reply srv e t size fr r b).
Proof.
  intros Hfr. unfold on_reply. cbv zeta. pose proof alone_Pump.
  destruct fr, (zlen (r_bytes r) =? 0); alone_step. Qed.
End Alone.

(** * How [Pump] leaves a connection *)

Section Settled.
Context (srv : server).

(** The input is empty, or the handler asked for more of it, or it ends before the next frame does, or reading is
    suspended: as many requests as allowed are pending, or half of the output limit is waiting to be sent. *)
Definition held (p : Peer) : Prop :=
  Buffer.size (input p) = 0 \/ incomplete p = true \/
  (exists size, next_size srv p = Some size /\ (size = 0 \/ Buffer.size (input p) < size)) \/ can_read srv p = false.
(** Otherwise the connection is to be pumped again. *)
Definition settled (p : Peer) : Prop := held p \/ scheduled p = true.

(** What [m] leaves of connection [t], by what it returns. *)
Definition leaves {A} (t : Z) (m : M io A) (R : A -> option Peer -> Prop) : Prop := forall s s' a, m s = (s', Ret a) -> R a (peers s' !! t).

Lemma leaves_bind {A B} t (c : M io A) (f : A -> M io B) R : (forall a, leaves t (f a) R) -> leaves t (mbind f c) R.
Proof. intros H s s' b (s1 & a & _ & E)%M_bind_Ret. by eapply H. Qed.
Lemma leaves_after {A B} t (c : M io A) (f : A -> M io B) R' R : leaves t c R' -> (forall a s s' b, R' a (peers s !! t) -> f a s = (s', Ret b) -> R b (peers s' !! t)) -> leaves t (mbind f c) R.
Proof. intros Hc H s s' b (s1 & a & E1 & E)%M_bind_Ret. eapply H; [|exact E]. by eapply Hc. Qed.
Lemma leaves_get {A} t (f : option Peer -> M io A) R : (forall o s s' b, peers s !! t = o -> f o s = (s', Ret b) -> R b (peers s' !! t)) -> leaves t (mbind f (get_peer t)) R.
Proof. intros H s s' b (s1 & a & E1 & E)%M_bind_Ret. injection E1 as <- <-. by eapply H. Qed.

Lemma Close_gone t : leaves t (Close t) (fun _ o => o = None).
Proof.
  apply leaves_get. intros [p|] s s' b Hp; [|by intros [= <- _]]. revert s s' b Hp. intros s s' b _. apply (leaves_bind t _ _ (fun _ o => o = None)). intros _. apply leaves_bind. intros _.
  intros s1 s2 c (s3 & u & E1 & E2)%M_bind_Ret. injection E1 as <- _. injection E2 as <- _. cbn. apply lookup_delete_eq.
Qed.
Lemma close_none t {A} (R : option A -> option Peer -> Prop) : R None None -> leaves t (Close t ;; mret None) R.
Proof. intros H. apply (leaves_after t _ _ _ _ (Close_gone t)). intros u s s' b E [= <- <-]. by rewrite E. Qed.

Definition none_gone {A} (a : option A) (o : option Peer) : Prop := a = None -> o = None.
#[local] Ltac gone := intros [= <- <-]; unfold none_gone; done || (intros _; assumption).

Lemma send_loop_gone t l : forall budget, leaves t (send_loop srv t l budget) none_gone.
Proof.
  induction l as [|x l IH]; intros budget; cbn [send_loop]; apply leaves_get; intros [p|] s s' b Hp; cbv zeta; try gone.
  - destruct (output p); [gone|]. destruct (budget =? 0); gone.
  - destruct (output p) as [|front out]; [gone|]. destruct (budget =? 0); [gone|]. destruct x as [n now| | |].
    + destruct (_ <=? 0); [by apply (close_none t (A := Z) none_gone)|]. revert s s' b Hp. intros s s' b _. apply (leaves_bind t). intros _. apply IH.
    + apply IH.
    + gone.
    + by apply (close_none t (A := Z) none_gone).
Qed.
Lemma recv_loop_gone t can l : forall budget, leaves t (recv_loop srv t can l budget) none_gone.
Proof.
  induction l as [|x l IH]; intros budget; cbn [recv_loop]; apply leaves_get; intros [p|] s s' b Hp; cbv zeta; try gone.
  - destruct (_ && _); gone.
  - destruct (_ && _); [|gone]. destruct x as [n| | | |].
    + destruct (bool_decide _); [gone|]. apply (leaves_bind t). intros _. apply IH.
    + apply (leaves_bind t). intros _ ? ? ?. gone.
    + apply IH.
    + gone.
    + by apply (close_none t (A := Z) none_gone).
Qed.

Definition framed_end (a : option Z) (o : option Peer) : Prop :=
  match a with None => o = None | Some f => exists p, o = Some p /\ (32 <= f \/ held p) end.
Lemma frame_loop_ends t turns : (turns <= 32)%nat -> leaves t (frame_loop srv t turns) framed_end.
Proof.
  induction turns as [|turns IH]; intros Ht; cbn [frame_loop]; apply leaves_get; intros [p|] s s' b Hp; cbv zeta; try (intros [= <- <-]; done).
  - destruct (_ && _) eqn:E; intros [= <- <-]; exists p; (split; [done|]); [left; lia|right]. unfold held. destruct (Z.eqb_spec (Buffer.size (input p)) 0); [by left|].
    destruct (incomplete p); [by right; left|]. cbn in E. by right; right; right.
  - destruct (negb _ && _ && _) eqn:E.
    2:{ intros [= <- <-]. exists p. split; [done|right]. unfold held. destruct (Z.eqb_spec (Buffer.size (input p)) 0); [by left|]. destruct (incomplete p); [by right; left|]. cbn in E. by right; right; right. }
    destruct (next_size srv p) as [size|] eqn:Es; [|by apply (close_none t framed_end)].
    destruct (_ || _) eqn:Eo.
    + intros [= <- <-]. exists p. split; [done|]. right. right. right. left. exists size. split; [done|]. zify_bools. destruct Eo; [left|right]; zify_bools; lia.
    + apply (leaves_bind t). intros frame. apply (leaves_bind t). intros _. apply (leaves_bind t). intros s0. destruct (Submit _ _ _) as [r []].
      * apply (leaves_bind t). intros _. apply IH. lia.
      * apply (leaves_bind t). intros _. by apply (close_none t framed_end).
Qed.

Lemma Schedule_marks t s s' u p : peers s !! t = Some p -> Schedule t s = (s', Ret u) -> peers s' !! t = Some (set_scheduled true p).
Proof.
  intros Hp. unfold Schedule, mbind, M_bind, get_peer. rewrite Hp. destruct (scheduled p) eqn:E.
  - intros [= <- _]. rewrite Hp. f_equal. destruct p. cbn in E. by subst.
  - cbn. intros [= <- _]. apply lookup_insert_eq.
Qed.

Definition all_settled {A} (_ : A) (o : option Peer) : Prop := forall p, o = Some p -> settled p.
Lemma none_settled {A} (a : A) (o : option Peer) : o = None -> all_settled a o.
Proof. by intros -> p. Qed.

Lemma finish_pump_settles e t f s s' u p : peers s !! t = Some p -> 32 <= f \/ held p -> finish_pump srv e t f s = (s', Ret u) -> all_settled u (peers s' !! t).
Proof.
  intros Hp Hh. unfold finish_pump. unfold mbind at 1, M_bind at 1, get_peer. rewrite Hp. cbv beta iota. intros (s1 & x & E1 & E2)%M_bind_Ret.
  assert (exists q, peers s1 !! t = Some q /\ settled q) as (q & Hq & Hs).
  { destruct ((32 <=? f) && _) eqn:E.
    - exists (set_scheduled true p). split; [by eapply Schedule_marks|by right].
    - injection E1 as <- _. exists p. split; [done|]. left. destruct Hh as [Hf|Hh]; [|done]. do 3 right. unfold can_read. apply andb_false_iff in E as [E|E]; [lia|by rewrite E]. }
  destruct (eof p && (pending p =? 0) && bool_decide (output p = [])); [apply none_settled; exact (Close_gone t _ _ _ E2)|]. unfold in_loop in E2. destruct (Modify _ _ _ _) as [l [[]| | |]]; try done. injection E2 as <- _. intros p' Hp'. cbn in Hp'. congruence.
Qed.
Lemma Pump_settles e t : leaves t (Pump srv e t) all_settled.
Proof.
  apply (leaves_after t _ _ _ _ (send_loop_gone t (sends e) budget0)). intros [b|] s s' u Hb; [|intros [= <- <-]; apply none_settled; by apply Hb]. clear Hb.
  apply (leaves_bind t _ _ all_settled). intros _. apply leaves_get. clear. intros [p|] s s' u Hp; [|intros [= <- <-]; by apply none_settled].
  apply (leaves_after t _ _ none_gone all_settled); [apply recv_loop_gone|]. clear. intros [b|] s s' u Hb; [|intros [= <- <-]; apply none_settled; by apply Hb].
  apply (leaves_bind t _ _ all_settled). intros _. apply (leaves_after t _ _ framed_end all_settled); [by apply frame_loop_ends|].
  clear. intros [f|] s s' u Hf; [|intros [= <- <-]; by apply none_settled]. destruct Hf as (p & Hp & Hf). by apply finish_pump_settles with (p := p).
Qed.
Lemma on_reply_settles e t size fr r b : leaves t (on_reply srv e t size fr r b) all_settled.
Proof.
  apply leaves_get. intros [p|] s s' u Hp; [|intros [= <- <-]; by apply none_settled]. cbv zeta. apply (leaves_bind t _ _ all_settled). intros _. clear. intros s s' u.
  destruct (_ || _); [intros H; apply none_settled; exact (Close_gone t _ _ _ H)|]. apply (leaves_bind t _ _ all_settled). intros _. apply (leaves_bind t _ _ all_settled). intros _. apply Pump_settles.
Qed.

(** * Every connection of a reactor *)

Definition backlog_ok (l : loop task callback) (ps : gmap Z Peer) : Prop :=
  forall t p, ps !! t = Some p -> settled p /\ whole srv p /\ (scheduled p = true -> TPump t ∈ tasks_ l).

Lemma backlog_alone t ps l s : (forall k p, k <> t -> ps !! k = Some p -> settled p /\ whole srv p /\ (scheduled p = true -> TPump k ∈ tasks_ l)) ->
  alone srv t ps l [] s -> (forall p, peers s !! t = Some p -> settled p) -> backlog_ok (io_loop s) (peers s).
Proof.
  intros Ho [A1 A2 A3 A4] Hl k p Hp. destruct (decide (k = t)) as [->|Hne].
  - split; [by apply Hl|]. split; [by apply A4; left|]. intros Hs. apply (A3 p); auto.
  - rewrite A1 in Hp by done. destruct (Ho k p Hne Hp) as (H1 & Hw & H2). split; [done|]. split; [done|]. intros Hs. destruct (calm_tasks _ _ A2) as (more & -> & _). apply elem_of_app. auto.
Qed.
Lemma alone_start t s : (forall p, peers s !! t = Some p -> whole srv p /\ (scheduled p = true -> TPump t ∈ tasks_ (io_loop s))) -> alone srv t (peers s) (io_loop s) [] s.
Proof. intros H. constructor; [done|apply calm_refl| |]; (intros p [Hp|Hp]; [by apply H|by apply not_elem_of_nil in Hp]). Qed.
Lemma backlog_run t (m : M io unit) s s' u : (forall ps l, keeps (alone srv t ps l []) m) -> leaves t m all_settled ->
  backlog_ok (io_loop s) (peers s) -> m s = (s', Ret u) -> backlog_ok (io_loop s') (peers s').
Proof.
  intros Hk Hl Hb E. specialize (Hk (peers s) (io_loop s) s). rewrite E in Hk. apply (backlog_alone t (peers s) (io_loop s)); [intros k p _; apply Hb| |exact (Hl _ _ _ E)].
  apply Hk, alone_start. intros p Hp. by apply Hb.
Qed.

Lemma backlog_Pump e t s s' u : backlog_ok (io_loop s) (peers s) -> Pump srv e t s = (s', Ret u) -> backlog_ok (io_loop s') (peers s').
Proof. apply (backlog_run t); [intros; apply alone_Pump|apply Pump_settles]. Qed.
Lemma backlog_Close t s s' u : backlog_ok (io_loop s) (peers s) -> Close t s = (s', Ret u) -> backlog_ok (io_loop s') (peers s').
Proof. apply (backlog_run t); [intros; apply alone_Close|]. intros s1 s2 a E. apply none_settled. exact (Close_gone t _ _ _ E). Qed.
Lemma backlog_close_all ts : forall s s' u, backlog_ok (io_loop s) (peers s) -> close_all ts s = (s', Ret u) -> backlog_ok (io_loop s') (peers s').
Proof.
  induction ts as [|t ts IH]; intros s s' u Hb; cbn [close_all]; [by intros [= <- _]|]. intros (s1 & v & E1 & E2)%M_bind_Ret. eapply IH; [|exact E2]. by eapply backlog_Close.
Qed.
Lemma backlog_Attach ok now fd arriving s s' u : backlog_ok (io_loop s) (peers s) -> Attach srv ok now fd arriving s = (s', Ret u) -> backlog_ok (io_loop s') (peers s').
Proof.
  intros Hb. unfold Attach. intros (s0 & x & E0 & E)%M_bind_Ret. injection E0 as <- <-. apply M_bind_Ret in E as (s1 & t & E1 & E). apply M_bind_Ret in E as (s2 & v & E2 & E).
  assert (peers s1 = peers s /\ calm (io_loop s) (io_loop s1)) as [Ep Hc].
  { pose proof (calm_Add ok fd (Z.lor EPOLLIN EPOLLRDHUP) (next_ (io_loop s)) (io_loop s)) as HC. unfold in_loop in E1. destruct (Add _ _ _ _ _) as [l r]. injection E1 as <- _. done. }
  injection E2 as <- _. apply (backlog_alone t (peers s) (io_loop s)); [intros k p _; apply Hb| |].
  - pose proof (alone_Deadline srv t (peers s) (io_loop s) [] now) as Hk. specialize (Hk (mkIo (io_index s1) (io_loop s1) (<[t := new_peer fd arriving]> (peers s1)) (shared s1))).
    rewrite E in Hk. apply Hk. constructor; cbn [peers io_loop]; [intros k Hk'; by rewrite lookup_insert_ne, Ep by done|done| |]; (rewrite lookup_insert_eq; intros p [[= <-]|Hp]; [done|by apply not_elem_of_nil in Hp]).
  - unfold Deadline in E. apply M_bind_Ret in E as (s3 & o & E3 & E). injection E3 as <- <-. cbn [peers] in E. rewrite lookup_insert_eq in E.
    apply M_bind_Ret in E as (s4 & ? & _ & E). apply M_bind_Ret in E as (s5 & tm & _ & E). injection E as <- _. cbn [peers]. rewrite lookup_insert_eq. intros p [= <-]. left. by left.
Qed.

Lemma exec_backlog e x s s' : (forall t p, peers s !! t = Some p -> settled p /\ whole srv p /\ (scheduled p = true -> TPump t ∈ tasks_ (io_loop s) \/ x = TPump t)) ->
  match x with TReply _ _ fr _ _ => fr = framed srv | _ => True end -> exec srv e x s = (s', Ret tt) -> backlog_ok (io_loop s') (peers s').
Proof.
  intros H Hx. assert ((forall t, x <> TPump t) -> backlog_ok (io_loop s) (peers s)) as Hb.
  { intros Hn t p Hp. destruct (H t p Hp) as (H1 & Hw & H2). split; [done|]. split; [done|]. intros Hs. destruct (H2 Hs) as [?|E]; [done|by destruct (Hn t)]. }
  destruct x as [t|t size fr r b|fd arr|t| |]; cbn [exec].
  - unfold mbind at 1, M_bind at 1, get_peer. destruct (peers s !! t) as [p|] eqn:Hp.
    + intros (s1 & u & E1 & E)%M_bind_Ret. injection E1 as <- _. pose proof (Pump_settles e t _ _ _ E) as Hl. pose proof (alone_Pump srv t (peers s) (io_loop s) [] e) as Hk.
      specialize (Hk (mkIo (io_index s) (io_loop s) (<[t := set_scheduled false p]> (peers s)) (shared s))). rewrite E in Hk. apply (backlog_alone t (peers s) (io_loop s)); [| |exact Hl].
      * intros k q Hne Hq. destruct (H k q Hq) as (H1 & Hw & H2). split; [done|]. split; [done|]. intros Hs. destruct (H2 Hs) as [?|Ek]; [done|congruence].
      * apply Hk. constructor; cbn [peers io_loop]; [intros k Hne; by rewrite lookup_insert_ne by done|apply calm_refl| |]; (rewrite lookup_insert_eq; intros q [[= <-]|Hq]; [|by apply not_elem_of_nil in Hq]); [done|]. by apply (H t p Hp).
    + intros [= <-]. intros k q Hq. destruct (H k q Hq) as (H1 & Hw & H2). split; [done|]. split; [done|]. intros Hs. destruct (H2 Hs) as [?|Ek]; [done|congruence].
  - apply (backlog_run t); [intros; by apply alone_on_reply|apply on_reply_settles|by apply Hb].
  - apply backlog_Attach. by apply Hb.
  - unfold mbind at 1, M_bind at 1, get_peer. destruct (peers s !! t) as [p|] eqn:Hp; [|intros [= <-]; by apply Hb]. intros (s1 & u & E1 & E)%M_bind_Ret. injection E1 as <- _.
    eapply backlog_Close; [|exact E]. by apply Hb.
  - intros (s0 & y & E0 & E)%M_bind_Ret. injection E0 as <- <-. apply M_bind_Ret in E as (s1 & u & E1 & E). apply backlog_close_all in E1; [|by apply Hb]. injection E as <-.
    intros t p Hp. destruct (E1 t p Hp) as (H1 & Hw & H2). split; [done|]. split; [done|]. intros Hs. cbn. apply elem_of_app. auto.
  - intros [= <-]. by apply Hb.
Qed.
Lemma notify_backlog e t ev s s' u : backlog_ok (io_loop s) (peers s) -> notify srv e t ev s = (s', Ret u) -> backlog_ok (io_loop s') (peers s').
Proof. unfold notify. destruct (_ =? 0); [apply backlog_Pump|apply backlog_Close]. Qed.

(** * Every reactor *)

Definition backlogs_ok (w : world) : Prop := forall i l ps, w_ios w !! i = Some (l, ps) -> backlog_ok l ps.

Lemma backlogs_same w w' : w_ios w' = w_ios w -> backlogs_ok w -> backlogs_ok w'.
Proof. unfold backlogs_ok. by intros ->. Qed.
Lemma backlogs_post i x w : backlogs_ok w -> backlogs_ok (post_to i x w).
Proof.
  intros H k l ps. cbn [post_to w_ios]. destruct (decide (k = i)) as [->|Hne]; [|rewrite list_lookup_alter_ne by done; apply H].
  rewrite list_lookup_alter_eq. destruct (w_ios w !! i) as [[l1 ps1]|] eqn:E; [|done]. intros [= <- <-]. intros t p Hp. destruct (H i l1 ps1 E t p Hp) as (H1 & Hw & H2). split; [done|]. split; [done|].
  intros Hs. cbn. apply elem_of_app. auto.
Qed.
Lemma backlogs_leave i s w : backlogs_ok w -> backlog_ok (io_loop s) (peers s) -> backlogs_ok (leave i s w).
Proof. intros H Hs k l ps. cbn [leave w_ios]. rewrite list_lookup_insert_Some. intros [(_ & [= <- <-] & _)|[_ Hk]]; [done|by apply (H k)]. Qed.
Lemma backlogs_accept turns rs : forall w, backlogs_ok w -> backlogs_ok (accept_ready srv turns rs w).
Proof.
  revert turns. induction rs as [|[fd arr| |] rs IH]; intros [|turns] w H; cbn [accept_ready]; try done; apply IH; [|done].
  unfold admit_one. destruct (_ <=? _); [done|]. cbv zeta. by apply backlogs_post.
Qed.

Lemma step_backlogs n k w w' : world_inv srv n w -> backlogs_ok w -> step srv k w w' -> backlogs_ok w'.
Proof.
  intros W H Hs. destruct Hs as [w i e l ps x ts s Hi Ht E|w i e l ps token x ev s Hi Hw E|w i e l ps x ts s Hi Ht E|w r batch _ E|w a batch b handled us E Hr|w rs|w|w i].
  - destruct (wi_ios _ _ _ W i l ps Hi) as [_ _ Htasks _ _]. rewrite Ht in Htasks. apply Forall_cons in Htasks as [Hx _].
    apply backlogs_leave; [done|]. eapply exec_backlog; [| |exact E]; [|destruct x; try done; by destruct Hx as (_ & ? & _)].
    intros t p Hp. destruct (H i l ps Hi t p Hp) as (H1 & Hwh & H2). split; [done|]. split; [done|]. intros Hsc. specialize (H2 Hsc). cbn [io_loop pop_task tasks_].
    rewrite Ht in *. cbn [tail]. apply elem_of_cons in H2 as [<-|H2]; auto.
  - apply backlogs_leave; [done|]. eapply notify_backlog; [|exact E]. by apply (H i).
  - destruct (wi_ios _ _ _ W i l ps Hi) as [_ _ _ Htimers _]. rewrite Ht in Htimers. apply Forall_cons in Htimers as [Hx _].
    apply backlogs_leave; [done|]. eapply exec_backlog; [| |exact E]; [|unfold idle in Hx; by destruct x.2.2].
    intros t p Hp. destruct (H i l ps Hi t p Hp) as (H1 & Hwh & H2). split; [done|]. split; [done|]. intros Hsc. left. by apply H2.
  - by eapply backlogs_same; [|exact H].
  - unfold finish_batch. destruct (batch_replies batch handled) as [replies errors].
    assert (forall xs w, backlogs_ok w -> backlogs_ok (fold_left (fun w x => post_to x.1 x.2 w) xs w)) as Hf.
    { intros xs. induction xs as [|x xs IH]; intros w1 H1; [done|]. cbn [fold_left]. apply IH. by apply backlogs_post. }
    apply Hf. by eapply backlogs_same; [|exact H].
  - by apply backlogs_accept.
  - by eapply backlogs_same; [|exact H].
  - by apply backlogs_post.
Qed.

(** Between two callbacks nothing is forgotten in the input of any connection. *)
Lemma reachable_backlogs (cfg : config_ok srv) ios n w : reachable srv ios n w -> (0 < ios)%nat -> n < 2 ^ 64 -> backlogs_ok w.
Proof.
  intros H Hios. induction H as [|n k w w' Hr IH Hs]; intros Hn.
  - intros i l ps. cbn [start_world w_ios]. intros [E _]%lookup_replicate. injection E as -> ->. intros t p Hp. by rewrite lookup_empty in Hp.
  - assert (0 <= k) by (destruct Hs; try lia; pose proof (zlen_nonneg (sends e)); lia). destruct (reachable_inv srv cfg ios n w Hr Hios ltac:(lia)) as [W _].
    eapply step_backlogs; [exact W| |exact Hs]. apply IH. lia.
Qed.
End Settled.
