(* ===== verification/TcpServerLifecycle.v ===== *)
(** [TcpServer::start], [TcpServer::stop] and [Runtime::Run] (src/tcp_server.cpp): the handlers a server is
    given, how its threads are started, how they end, and the orderly shutdown of [finish].  The
    steps of the reactors, the workers and the acceptor are those of [TcpServer]; here each belongs
    to a thread, which may return or fail. *)
From S2P Require Import Prelude Buffer EventLoop TcpServer TcpServerInv TcpServerWalk TcpServerCorrectness.
Import EventLoop TcpServer.

Module Lifecycle.

(** * The handlers *)

(** The members set before the server starts; [handler_] is whether one is set. *)
Record tcp := mkTcp { members : server; handler_ : bool }.

Definition setFrameSizer (sizer : option (bytes -> outcome Z)) (t : tcp) : tcp :=
  let s := members t in mkTcp (mkServer (max_connections_ s) (max_frame_bytes_ s) (options_ s) (batch_handler_ s) sizer) (handler_ t).
Definition setHandler (handler : bool) (t : tcp) : tcp :=
  let s := members t in mkTcp (mkServer (max_connections_ s) (max_frame_bytes_ s) (options_ s) false (sizer_ s)) handler.
Definition setBatchHandler (handler : bool) (t : tcp) : tcp :=
  let s := members t in mkTcp (mkServer (max_connections_ s) (max_frame_bytes_ s) (options_ s) handler (sizer_ s)) false.

(** [start] up to [runtime->Run()]; [runtime_] is whether one is set. *)
Definition start (t : tcp) (runtime_ : bool) : outcome unit :=
  if negb (handler_ t) && negb (batch_handler_ (members t)) then Throw std_logic_error else
  if runtime_ then Throw std_logic_error else Ret tt.

(** * Threads *)

Inductive worker := Waiting | Busy (batch : list Job) | Left.
Inductive reactor := Unborn | Running | Returned | Failed.

(** Where the thread that called [start] is: before it sets [runtime_]; in [Run], starting the threads; in
    [accept_loop.Run()]; in [finish], joining the workers and then the reactors, with the exception
    that is to be rethrown; or after [Run]. *)
Inductive phase :=
| Starting
| Building
| Serving
| JoiningWorkers (raised : option exn)
| JoiningReactors (raised : option exn)
| Done (result : outcome unit).

(** [accept_stopping] is [stopping_] of [accept_loop]; [stopping] is the server's; [stopped] says that a
    call of [stop] has returned. *)
Record life := mkLife {
  world_ : world;
  workers_ : list worker;
  reactors_ : list reactor;
  error_ : option exn;
  accept_stopping : bool;
  bound_port_ : Z;
  stopping : bool;
  stopped : bool;
  phase_ : phase
}.

Definition with_world (w : world) (l : life) : life :=
  mkLife w (workers_ l) (reactors_ l) (error_ l) (accept_stopping l) (bound_port_ l) (stopping l) (stopped l) (phase_ l).
Definition with_worker (i : nat) (x : worker) (l : life) : life :=
  mkLife (world_ l) (<[i := x]> (workers_ l)) (reactors_ l) (error_ l) (accept_stopping l) (bound_port_ l) (stopping l) (stopped l) (phase_ l).
Definition with_reactor (i : nat) (x : reactor) (l : life) : life :=
  mkLife (world_ l) (workers_ l) (<[i := x]> (reactors_ l)) (error_ l) (accept_stopping l) (bound_port_ l) (stopping l) (stopped l) (phase_ l).
Definition with_phase (p : phase) (l : life) : life :=
  mkLife (world_ l) (workers_ l) (reactors_ l) (error_ l) (accept_stopping l) (bound_port_ l) (stopping l) (stopped l) p.
Definition spawn_worker (l : life) : life :=
  mkLife (world_ l) (workers_ l ++ [Waiting]) (reactors_ l) (error_ l) (accept_stopping l) (bound_port_ l) (stopping l) (stopped l) (phase_ l).

(** The handler of a reactor thread for an exception that leaves [loop.Run()]. *)
Definition reactor_failed (i : nat) (e : exn) (l : life) : life :=
  mkLife (world_ l) (workers_ l) (<[i := Failed]> (reactors_ l)) (Some e) true (bound_port_ l) (stopping l) (stopped l) (phase_ l).

(** The listener is ready: its callback is added, the port published, and an earlier [stop] honoured. *)
Definition listening (port : Z) (l : life) : life :=
  mkLife (world_ l) (workers_ l) (reactors_ l) (error_ l) (accept_stopping l || stopping l) port (stopping l) (stopped l) Serving.

(** [finish]: closing the queue, and telling the reactors to close their peers and stop. *)
Definition finish_begin (raised : option exn) (l : life) : life :=
  with_phase (JoiningWorkers raised) (with_world (with_rt set_closing (world_ l)) l).
Definition post_close_all (w : world) : world := fold_left (fun w i => post_to i TCloseAll w) (seq 0 (length (w_ios w))) w.
Definition finish_reactors (raised : option exn) (l : life) : life :=
  with_phase (JoiningReactors raised) (with_world (post_close_all (world_ l)) l).
(** The end of [Run]. *)
Definition result_of (raised error : option exn) : outcome unit :=
  match raised, error with Some e, _ => Throw e | None, Some e => Throw e | None, None => Ret tt end.

(** Whether [runtime_] is set, which [start] does and nothing undoes. *)
Definition runtime_ (l : life) : bool := match phase_ l with Starting => false | _ => true end.

(** The two halves of [stop]. *)
Definition stop_flag (l : life) : life :=
  mkLife (world_ l) (workers_ l) (reactors_ l) (error_ l) (accept_stopping l) (bound_port_ l) true (stopped l) (phase_ l).
Definition stop_accept (l : life) : life :=
  mkLife (world_ l) (workers_ l) (reactors_ l) (error_ l) (accept_stopping l || runtime_ l)
    (bound_port_ l) (stopping l) true (phase_ l).

Definition stop (l : life) : life := stop_accept (stop_flag l).
Definition port (l : life) : Z := bound_port_ l.

Section Life.
Context (t : tcp).
Abbreviation srv := (members t).

(** How many workers [Run] starts. *)
Definition thread_count : nat := if batch_handler_ srv then 1 else Z.to_nat (workers (options_ srv)).

Definition initial : life :=
  let ios := Z.to_nat (io_threads (options_ srv)) in mkLife (start_world ios) [] (replicate ios Unborn) None false 0 false false Starting.

(** One callback of reactor [i], with how it ends. *)
Inductive turn (i : nat) : Z -> world -> outcome unit -> world -> Prop :=
| turn_task w e l ps x ts s r : w_ios w !! i = Some (l, ps) -> tasks_ l = x :: ts ->
    exec srv e x (mkIo i (pop_task l) ps (w_rt w)) = (s, r) -> turn i (zlen (sends e) + 2) w r (leave i s w)
| turn_event w e l ps token x events s r : w_ios w !! i = Some (l, ps) -> watches_ l !! token = Some x ->
    notify srv e (w_callback x) events (mkIo i l ps (w_rt w)) = (s, r) -> turn i (zlen (sends e) + 2) w r (leave i s w)
| turn_timer w e l ps x ts s r : w_ios w !! i = Some (l, ps) -> timers_ l = x :: ts ->
    exec srv e x.2.2 (mkIo i (pop_timer x l).1 ps (w_rt w)) = (s, r) -> turn i (zlen (sends e) + 2) w r (leave i s w).

(** One step of one thread of the server, or of a thread that calls [stop]. *)
Inductive l_step : Z -> life -> life -> Prop :=
(* the thread in [start] *)
| ls_start l : start t (runtime_ l) = Ret tt -> l_step 0 l (with_phase Building l)
| ls_refused l e : start t (runtime_ l) = Throw e -> l_step 0 l l
| ls_open_failed l : phase_ l = Building -> workers_ l = [] -> l_step 0 l (with_phase (Done (Throw std_system_error)) l)
| ls_spawn_worker l : phase_ l = Building -> (length (workers_ l) < thread_count)%nat -> l_step 0 l (spawn_worker l)
| ls_spawn_reactor l i : phase_ l = Building -> length (workers_ l) = thread_count -> reactors_ l !! i = Some Unborn ->
    l_step 0 l (with_reactor i Running l)
| ls_spawn_failed l : phase_ l = Building -> ((length (workers_ l) < thread_count)%nat \/ Unborn ∈ reactors_ l) ->
    l_step 0 l (finish_begin (Some std_system_error) l)
| ls_listen l port : phase_ l = Building -> length (workers_ l) = thread_count -> Unborn ∉ reactors_ l -> l_step 0 l (listening port l)
| ls_listen_failed l : phase_ l = Building -> length (workers_ l) = thread_count -> Unborn ∉ reactors_ l ->
    l_step 0 l (finish_begin (Some std_system_error) l)
| ls_accept l rs : phase_ l = Serving -> l_step 0 l (with_world (accept_ready srv 128 rs (world_ l)) l)
| ls_accept_end l : phase_ l = Serving -> accept_stopping l = true -> l_step 0 l (finish_begin None l)
| ls_accept_failed l : phase_ l = Serving -> l_step 0 l (finish_begin (Some std_system_error) l)
| ls_workers_joined l raised : phase_ l = JoiningWorkers raised -> Forall (eq Left) (workers_ l) -> l_step 0 l (finish_reactors raised l)
| ls_reactors_joined l raised : phase_ l = JoiningReactors raised -> Running ∉ reactors_ l ->
    l_step 0 l (with_phase (Done (result_of raised (error_ l))) l)
(* a worker *)
| ls_take l i r batch : workers_ l !! i = Some Waiting -> jobs (w_rt (world_ l)) <> [] -> take_batch srv (w_rt (world_ l)) = (r, batch) ->
    l_step 0 l (with_worker i (Busy batch) (with_world (mkWorld r (w_ios (world_ l)) (w_batches (world_ l) ++ [batch]) (w_next (world_ l))) l))
| ls_complete l i a batch b handled us : workers_ l !! i = Some (Busy batch) -> w_batches (world_ l) = a ++ batch :: b ->
    (forall rs, handled = Ret rs -> Forall (fun r => 0 <= consumed r) rs) ->
    l_step 0 l (with_worker i Waiting (with_world (finish_batch batch handled us (mkWorld (w_rt (world_ l)) (w_ios (world_ l)) (a ++ b) (w_next (world_ l)))) l))
| ls_leave l i : workers_ l !! i = Some Waiting -> closing (w_rt (world_ l)) = true -> jobs (w_rt (world_ l)) = [] ->
    l_step 0 l (with_worker i Left l)
(* a reactor *)
| ls_turn l i k w : reactors_ l !! i = Some Running -> turn i k (world_ l) (Ret tt) w -> l_step k l (with_world w l)
| ls_turn_failed l i k w e : reactors_ l !! i = Some Running -> turn i k (world_ l) (Throw e) w -> l_step k l (reactor_failed i e (with_world w l))
| ls_wait_failed l i : reactors_ l !! i = Some Running -> l_step 0 l (reactor_failed i std_system_error l)
| ls_return l i lo ps : reactors_ l !! i = Some Running -> w_ios (world_ l) !! i = Some (lo, ps) -> stopping_ lo = true ->
    l_step 0 l (with_reactor i Returned l)
(* a caller of [stop] *)
| ls_stop_flag l : l_step 0 l (stop_flag l)
| ls_stop_accept l : stopping l = true -> l_step 0 l (stop_accept l).

Inductive l_reachable : Z -> life -> Prop :=
| l_initial : l_reachable 1 initial
| l_more n k l l' : l_reachable n l -> l_step k l l' -> l_reachable (n + k) l'.
End Life.

End Lifecycle.
