(* ===== verification/TcpServerShutdown.v ===== *)
(** The shutdown of [TcpServer]: [stop] is never lost, [finish] always makes progress, every request that
    was queued is handled and answered before its connection is closed, and nothing is left behind. *)
From S2P Require Import Prelude Buffer EventLoop TcpServer TcpServerInv TcpServerWalk TcpServerCorrectness TcpServerBacklog TcpServerLifecycle.
Import EventLoop TcpServer Lifecycle.

(** * One callback *)

(** A callback that began on loop [l0] and queue [r0] keeps the tokens in [D], and a closed queue as it is. *)
Record during (l0 : loop task callback) (r0 : runtime) (D : Z -> Prop) (s : io) : Prop := {
  du_calm : calm l0 (io_loop s);
  du_closing : closing (shared s) = closing r0;
  du_jobs : closing r0 = true -> jobs (shared s) = jobs r0;
  du_peers : forall token, is_Some (peers s !! token) -> D token
}.
#[export] Instance during_walks srv l0 r0 D : Walks srv (during l0 r0 D) (fun token _ => D token).
Proof.
  constructor.
  - intros s t p [] Hp. by eauto.
  - done.
  - intros s t p Ht []. constructor; try done. intros k. cbn [peers]. rewrite lookup_insert_is_Some. intros [->|[_ Hk]]; auto.
  - intros s t []. constructor; try done. intros k. cbn [peers]. rewrite lookup_delete_is_Some. intros [_ Hk]; auto.
  - intros s l Hc []. constructor; try done. by eapply calm_trans.
  - intros s r Hj Hc []. constructor; cbn [shared]; [done|congruence|intros; rewrite Hj; auto|done].
  - intros s j r Hs []. unfold Submit in Hs. destruct (closing (shared s)) eqn:Ec; [done|]. cbn [orb] in Hs. destruct (_ || _); [done|]. injection Hs as <-.
    constructor; cbn [shared set_jobs closing]; [done|congruence|congruence|done].
Qed.

(** What one callback does to its reactor: it may have run one task, and that may be the one to stop. *)
Inductive effect (l : loop task callback) (ps : gmap Z Peer) (l' : loop task callback) (ps' : gmap Z Peer) : Prop :=
| effect_ran pre rest more : tasks_ l = pre ++ rest -> TCloseAll ∉ pre -> tasks_ l' = rest ++ more -> Forall is_pump more -> stopping_ l' = stopping_ l ->
    (forall token, is_Some (ps' !! token) -> is_Some (ps !! token) \/ Exists (fun t => is_attach t = true) pre) -> effect l ps l' ps'
| effect_closed rest more : tasks_ l = TCloseAll :: rest -> tasks_ l' = rest ++ more ++ [TNothing] -> Forall is_pump more -> stopping_ l' = true -> ps' = ∅ -> effect l ps l' ps'.

Lemma Close_peers token s : match Close token s with (s', Ret _) => peers s' = delete token (peers s) | (_, Throw _) => False | _ => True end.
Proof.
  unfold Close, get_peer, mbind, M_bind. destruct (peers s !! token) as [p|] eqn:E; [|cbn; by rewrite delete_id].
  assert (forall l, (Remove token l : loop task callback * outcome unit).2 = Ret tt) as HR by (intros l; unfold Remove; by destruct (watches_ l !! token)).
  unfold in_loop. destruct (Cancel (timer p) (io_loop s)) as [l [u|e| |]] eqn:Ec; try done.
  - cbn [io_loop]. specialize (HR l). destruct (Remove token l) as [l' r]. cbn in HR. by subst r.
  - unfold Cancel in Ec. destruct (_ !! timer p); [destruct (erase _ _ _)|]; done.
Qed.
Lemma close_all_peers tokens : forall s, match close_all tokens s with (s', Ret _) => forall k, is_Some (peers s' !! k) -> is_Some (peers s !! k) /\ k ∉ tokens | (_, Throw _) => False | _ => True end.
Proof.
  induction tokens as [|t ts IH]; intros s; cbn [close_all]; [by set_solver|]. unfold mbind at 1, M_bind at 1. pose proof (Close_peers t s) as Hc.
  destruct (Close t s) as [s1 [u|e| |]]; try done. specialize (IH s1). destruct (close_all ts s1) as [s2 [v|e| |]]; try done.
  intros k Hk. destruct (IH k Hk) as [H1 H2]. rewrite Hc, lookup_delete_is_Some in H1. set_solver.
Qed.

Section Turn.
Context (t : tcp).
Abbreviation srv := (members t).

(** How a callback may end when its thread goes on or fails. *)
Definition ends (r : outcome unit) : Prop := match r with Ret _ | Throw _ => True | _ => False end.

Lemma during_start i l ps rt l0 : calm l0 l -> during l0 rt (fun token => is_Some (ps !! token)) (mkIo i l ps rt).
Proof. by constructor. Qed.
Lemma during_any l0 rt D D' s : (forall token, D token -> D' token) -> during l0 rt D s -> during l0 rt D' s.
Proof. intros H []. constructor; auto. Qed.

Lemma keeps_to_end {A} J (m : M io A) s s' r : keeps J m -> J s -> m s = (s', r) -> match r with Ret _ | Throw _ => J s' | _ => True end.
Proof. intros Hm Hs E. specialize (Hm s Hs). rewrite E in Hm. by destruct r. Qed.

(** Any task but the one that stops the loop, the callback of a descriptor, and the deadlines. *)
Lemma exec_during e x i l ps rt s r : x <> TCloseAll -> exec srv e x (mkIo i l ps rt) = (s, r) -> ends r ->
  during l rt (fun token => is_Some (ps !! token) \/ is_attach x = true) s.
Proof.
  intros Hx He Hr. assert (keeps (during l rt (fun token => is_Some (ps !! token) \/ is_attach x = true)) (exec srv e x)) as Hk.
  { apply walk_exec. destruct x; try done. by right. }
  apply (keeps_to_end _ _ _ _ _ Hk) in He; [by destruct r|]. eapply during_any; [|apply during_start, calm_refl]. by left.
Qed.
Lemma notify_during e token events i l ps rt s r : notify srv e token events (mkIo i l ps rt) = (s, r) -> ends r ->
  during l rt (fun token => is_Some (ps !! token)) s.
Proof.
  intros He Hr. apply (keeps_to_end _ _ _ _ _ (walk_notify e token events)) in He; [by destruct r|]. apply during_start, calm_refl.
Qed.
Lemma exec_close_all e i l ps rt s r : exec srv e TCloseAll (mkIo i l ps rt) = (s, r) -> ends r ->
  peers s = ∅ /\ stopping_ (io_loop s) = true /\ closing (shared s) = closing rt /\ (closing rt = true -> jobs (shared s) = jobs rt) /\
  (exists more, tasks_ (io_loop s) = tasks_ l ++ more ++ [TNothing] /\ Forall is_pump more) /\ (Forall idle (timers_ l) -> Forall idle (timers_ (io_loop s))).
Proof.
  intros He Hr. cbn [exec] in He. unfold mbind at 1, M_bind at 1, get_state at 1 in He. unfold mbind at 1, M_bind at 1 in He. cbn [peers] in He.
  pose proof (close_all_peers (map_to_list ps).*1 (mkIo i l ps rt)) as Hp. cbn [peers] in Hp. destruct (close_all _ _) as [s1 [u|x| |]] eqn:Ec; try done; [|by injection He as <- <-..].
  apply (keeps_to_end (during l rt (fun _ => True)) _ _ _ _ (walk_close_all (srv := srv) _)) in Ec; [|eapply during_any; [|apply during_start, calm_refl]; done].
  destruct Ec as [[C1 (more & C2 & C3) C4] D2 D3 _]. injection He as <- <-. cbn [peers io_loop shared stopping_ tasks_ Stop Post modify mbind M_bind fst]. split_and!; try done.
  - apply map_empty. intros k. apply eq_None_not_Some. intros Hk. destruct (Hp k Hk) as [[p Hps] Hn]. apply Hn, list_elem_of_fmap. exists (k, p). split; [done|]. by apply elem_of_map_to_list.
  - exists more. by rewrite C2, app_assoc.
  - intros Hi. eapply Forall_impl; [exact C4|]. intros y [Hy|Hy]; [|done]. by eapply Forall_forall in Hi.
Qed.

Lemma calm_idle l l' : calm l l' -> Forall idle (timers_ l) -> Forall idle (timers_ l').
Proof. intros [_ _ H] Hi. eapply Forall_impl; [exact H|]. intros y [Hy|Hy]; [|done]. by eapply Forall_forall in Hi. Qed.

(** The state a callback of reactor [i] leaves. *)
Lemma turn_effect i k w r w' l ps : turn t i k w r w' -> ends r -> w_ios w !! i = Some (l, ps) -> Forall idle (timers_ l) ->
  exists l' ps', w_ios w' = <[i := (l', ps')]> (w_ios w) /\ w_batches w' = w_batches w /\ closing (w_rt w') = closing (w_rt w) /\
    (closing (w_rt w) = true -> jobs (w_rt w') = jobs (w_rt w)) /\ Forall idle (timers_ l') /\ effect l ps l' ps'.
Proof.
  intros H Hr Hi Hid. destruct H as [w e l0 ps0 x ts s r Hi0 Ht He|w e l0 ps0 token x ev s r Hi0 Hx He|w e l0 ps0 x ts s r Hi0 Ht He]; rewrite Hi in Hi0; injection Hi0 as <- <-;
    exists (io_loop s), (peers s); cbn [leave w_ios w_batches w_rt].
  - assert (x = TCloseAll \/ x <> TCloseAll) as [->|Hne] by (destruct x; by auto).
    + destruct (exec_close_all _ _ _ _ _ _ _ He Hr) as (H1 & H2 & H3 & H4 & (more & H5 & H6) & H7). split_and!; [done..|by apply H7|].
      eapply effect_closed; [exact Ht|rewrite H5; cbn [pop_task tasks_]; by rewrite Ht|done..].
    + destruct (exec_during _ _ _ _ _ _ _ _ Hne He Hr) as [HC H2 H3 H4]. split_and!; [done..|by apply (calm_idle _ _ HC)|]. destruct HC as [C1 (more & C2 & C3) C4].
      eapply (effect_ran _ _ _ _ [x] ts more); [done|set_solver|rewrite C2; cbn [pop_task tasks_]; by rewrite Ht|done..|]. intros tk Hk. destruct (H4 tk Hk) as [?|?]; [by left|right]. by constructor.
  - destruct (notify_during _ _ _ _ _ _ _ _ _ He Hr) as [HC H2 H3 H4]. split_and!; [done..|by apply (calm_idle _ _ HC)|]. destruct HC as [C1 (more & C2 & C3) C4].
    eapply (effect_ran _ _ _ _ [] (tasks_ l) more); [done|set_solver|done..|]. intros tk Hk. left. auto.
  - rewrite Ht in Hid. apply Forall_cons in Hid as [Hx Hid]. assert (x.2.2 <> TCloseAll /\ is_attach x.2.2 = false) as [Hne Ha] by (unfold idle in Hx; by destruct (x.2.2)).
    destruct (exec_during _ _ _ _ _ _ _ _ Hne He Hr) as [HC H2 H3 H4]. split_and!; [done..| |].
    { apply (calm_idle _ _ HC). cbn. by rewrite Ht. }
    destruct HC as [C1 (more & C2 & C3) C4]. eapply (effect_ran _ _ _ _ [] (tasks_ l) more); [done|set_solver|done..|]. intros tk Hk. destruct (H4 tk Hk) as [?|?]; [by left|congruence].
Qed.
End Turn.

(** * The invariant *)

Definition past (p : phase) : bool := match p with JoiningReactors _ | Done _ => true | _ => false end.
Definition busy (x : worker) : option (list Job) := match x with Busy batch => Some batch | _ => None end.

(** A reactor that has stopped, and one that is going to. *)
Definition closed_down (l : loop task callback) (ps : gmap Z Peer) : Prop :=
  stopping_ l = true /\ ps = ∅ /\ Forall (fun x => is_pump x \/ x = TNothing) (tasks_ l).
Definition about_to_close (l : loop task callback) : Prop :=
  stopping_ l = false /\ exists a b, tasks_ l = a ++ TCloseAll :: b /\ (TCloseAll ∉ a) /\ Forall is_pump b.

Record loop_inv (p : phase) (x : reactor) (l : loop task callback) (ps : gmap Z Peer) : Prop := {
  lo_timers : Forall idle (timers_ l);
  lo_unborn : x = Unborn -> ps = ∅ /\ Forall (fun t => is_attach t = false) (tasks_ l);
  lo_returned : x = Returned -> stopping_ l = true;
  lo_tasks : if past p then x = Failed \/ x = Unborn \/ closed_down l ps \/ about_to_close l else stopping_ l = false /\ TCloseAll ∉ tasks_ l
}.

Record life_inv (l : life) : Prop := {
  li_length : length (reactors_ l) = length (w_ios (world_ l));
  li_batches : w_batches (world_ l) ≡ₚ omap busy (workers_ l);
  li_closing : match phase_ l with Starting | Building | Serving => closing (w_rt (world_ l)) = false | Done _ => True | _ => closing (w_rt (world_ l)) = true end;
  li_left : Left ∈ workers_ l -> closing (w_rt (world_ l)) = true /\ jobs (w_rt (world_ l)) = [];
  li_born : Running ∈ reactors_ l -> workers_ l <> [];
  li_idle : workers_ l = [] -> jobs (w_rt (world_ l)) = [];
  li_joined : past (phase_ l) = true -> Forall (eq Left) (workers_ l);
  li_done : match phase_ l with Done r => (Running ∉ reactors_ l) /\ (r = Ret tt -> error_ l = None) | _ => True end;
  li_unborn : match phase_ l with Serving | JoiningWorkers None | JoiningReactors None | Done (Ret _) => Unborn ∉ reactors_ l | _ => True end;
  li_failed : Failed ∈ reactors_ l -> error_ l <> None;
  li_accept : accept_stopping l = true -> stopping l = true \/ error_ l <> None;
  li_ended : match phase_ l with JoiningWorkers None | JoiningReactors None | Done (Ret _) => accept_stopping l = true | _ => True end;
  li_stop : stopped l = true -> stopping l = true /\ (phase_ l = Serving -> accept_stopping l = true);
  li_loops : forall i x lo ps, reactors_ l !! i = Some x -> w_ios (world_ l) !! i = Some (lo, ps) -> loop_inv (phase_ l) x lo ps
}.

Lemma initial_inv t : life_inv (initial t).
Proof.
  constructor; cbn; rewrite ?length_replicate; try done.
  - by intros H%elem_of_nil.
  - by intros [? _]%elem_of_replicate.
  - by intros [? _]%elem_of_replicate.
  - intros i x lo ps [-> _]%lookup_replicate [[= -> ->] _]%lookup_replicate. split; try done. cbn. split; [done|]. set_solver.
Qed.

(** A worker or a reactor in its list after an update. *)
Lemma elem_of_update {A} (l : list A) i x y : y ∈ <[i := x]> l -> y = x \/ y ∈ l.
Proof.
  intros [j Hj]%list_elem_of_lookup. destruct (decide (j = i)) as [->|Hne]; [|rewrite list_lookup_insert_ne in Hj by done; right; by eapply list_elem_of_lookup_2].
  assert (i < length l)%nat by (rewrite <-(length_insert l i x); by eapply lookup_lt_Some). rewrite list_lookup_insert_eq in Hj by done. left. by injection Hj.
Qed.
Lemma update_split {A} (l : list A) i x y : l !! i = Some x -> exists a b, l = a ++ x :: b /\ <[i := y]> l = a ++ y :: b.
Proof.
  intros Hi. exists (take i l), (drop (S i) l). split; [by rewrite take_drop_middle|]. apply insert_take_drop. by eapply lookup_lt_Some.
Qed.

(** ** Changes of the world alone *)

Lemma inv_world l w : life_inv l -> length (w_ios w) = length (w_ios (world_ l)) -> w_batches w = w_batches (world_ l) -> closing (w_rt w) = closing (w_rt (world_ l)) ->
  (workers_ l = [] \/ closing (w_rt (world_ l)) = true -> jobs (w_rt w) = jobs (w_rt (world_ l))) ->
  (forall i x lo ps, reactors_ l !! i = Some x -> w_ios w !! i = Some (lo, ps) -> loop_inv (phase_ l) x lo ps) -> life_inv (with_world w l).
Proof.
  intros [] Hlen Hb Hc Hj Hl. constructor; cbn [with_world world_ workers_ reactors_ phase_ error_ stopping stopped accept_stopping]; rewrite ?Hlen, ?Hb, ?Hc; try done.
  - intros Hin. destruct (li_left0 Hin) as [Hcl Hjs]. split; [done|]. rewrite Hj; auto.
  - intros Hw. rewrite Hj; auto.
Qed.

Lemma loop_inv_post p x l ps k : past p = false -> k <> TCloseAll -> (x = Unborn -> is_attach k = false) -> loop_inv p x l ps -> loop_inv p x (Post k l).1 ps.
Proof.
  intros Hp Hk Hu []. rewrite Hp in *. constructor; cbn [Post modify fst timers_ tasks_ stopping_]; try done.
  - intros Hx. destruct (lo_unborn0 Hx) as [? ?]. split; [done|]. apply Forall_app. split; [done|]. apply Forall_singleton. auto.
  - rewrite Hp. split; [tauto|]. rewrite elem_of_app. intros [?|?%list_elem_of_singleton]; [tauto|by subst].
Qed.
Definition loops_inv (p : phase) (xs : list reactor) (w : world) : Prop := forall i x lo ps, xs !! i = Some x -> w_ios w !! i = Some (lo, ps) -> loop_inv p x lo ps.
Lemma loops_post p xs w i k : past p = false -> k <> TCloseAll -> (Unborn ∈ xs -> is_attach k = false) -> loops_inv p xs w -> loops_inv p xs (post_to i k w).
Proof.
  intros Hp Hk Hu Hw j x lo ps Hx [(-> & l0 & Hl & ->)|[_ Hl]]%post_lookup; [|by eapply Hw]. apply loop_inv_post; [done..| |by eapply Hw]. intros ->. apply Hu. by eapply list_elem_of_lookup_2.
Qed.
Lemma loops_posts p xs es : forall w, past p = false -> Forall (fun e => e.2 <> TCloseAll /\ is_attach e.2 = false) es -> loops_inv p xs w ->
  loops_inv p xs (fold_left (fun w e => post_to e.1 e.2 w) es w).
Proof.
  induction es as [|e es IH]; intros w Hp He Hw; [done|]. apply Forall_cons in He as [[H1 H2] He]. apply IH; [done..|]. by apply loops_post.
Qed.
(** Posting changes nothing but tasks. *)
Lemma posts_parts es : forall w, let w' := fold_left (fun w (e : nat * task) => post_to e.1 e.2 w) es w in
  w_rt w' = w_rt w /\ w_batches w' = w_batches w /\ length (w_ios w') = length (w_ios w).
Proof.
  induction es as [|e es IH]; intros w; cbn [fold_left]; [done|]. destruct (IH (post_to e.1 e.2 w)) as (-> & -> & ->). cbn [post_to w_rt w_batches w_ios]. by rewrite length_alter.
Qed.

Lemma accept_parts srv p xs rs : forall turns w, past p = false -> (Unborn ∉ xs) -> loops_inv p xs w -> let w' := accept_ready srv turns rs w in
  loops_inv p xs w' /\ closing (w_rt w') = closing (w_rt w) /\ jobs (w_rt w') = jobs (w_rt w) /\ w_batches w' = w_batches w /\ length (w_ios w') = length (w_ios w).
Proof.
  induction rs as [|[fd arr| |] rs IH]; intros [|turns] w Hp Hu Hw; cbn [accept_ready]; cbv zeta; try done.
  - destruct (IH turns (admit_one srv fd arr w)) as (H1 & -> & -> & -> & ->); [done..| |].
    + unfold admit_one. destruct (_ <=? _); [done|]. cbv zeta. by apply loops_post.
    + split; [done|]. unfold admit_one. destruct (_ <=? _); cbn; [done|]. by rewrite length_alter.
  - by apply IH.
Qed.

Lemma take_jobs_closing c : forall r r' batch, take_jobs c r = (r', batch) -> closing r' = closing r.
Proof.
  induction c as [|c IH]; intros r r' batch; cbn [take_jobs]; [by intros [= <- _]|]. destruct (jobs r) as [|j js]; [by intros [= <- _]|].
  destruct (take_jobs c _) as [r1 b1] eqn:E. intros [= <- _]. by rewrite (IH _ _ _ E).
Qed.

(** ** A callback and the task that stops the loop *)

Lemma split_before {A} (x : A) pre rest : forall a b, pre ++ rest = a ++ x :: b -> (x ∉ pre) -> exists a', a = pre ++ a' /\ rest = a' ++ x :: b.
Proof.
  induction pre as [|y pre IH]; intros a b E Hx; [by exists a|]. destruct a as [|z a]; injection E as -> E; [set_solver|].
  destruct (IH a b E) as (a' & -> & ->); [set_solver|]. by exists a'.
Qed.
Lemma pump_not_close more : Forall is_pump more -> TCloseAll ∉ more.
Proof. intros H Hin. exact (proj1 (Forall_forall _ _) H _ Hin). Qed.

Lemma effect_stays l ps l' ps' : closed_down l ps -> effect l ps l' ps' -> closed_down l' ps'.
Proof.
  intros (H1 & -> & H3) [pre rest more E1 E2 E3 E4 E5 E6|rest more E1 _ _ _ _].
  - rewrite E1 in H3. apply Forall_app in H3 as [H3 H3']. split_and!; [congruence| |rewrite E3; apply Forall_app; split; [done|by eapply Forall_impl; [exact E4|left]]].
    apply map_empty. intros tk. apply eq_None_not_Some. intros Hk. destruct (E6 tk Hk) as [[? Hn]|Hex]; [by rewrite lookup_empty in Hn|].
    rewrite Exists_exists in Hex. destruct Hex as (y & Hy & Ha). eapply Forall_forall in H3; [|exact Hy]. destruct H3 as [H3| ->]; [by destruct y|done].
  - rewrite E1 in H3. apply Forall_cons in H3 as [[?|?] _]; done.
Qed.
Lemma effect_closes l ps l' ps' : about_to_close l -> effect l ps l' ps' -> closed_down l' ps' \/ about_to_close l'.
Proof.
  intros (H1 & a & b & H2 & H3 & H4) [pre rest more E1 E2 E3 E4 E5 _|rest more E1 E2 E3 E4 ->].
  - right. split; [congruence|]. rewrite E1 in H2. destruct (split_before _ _ _ _ _ H2 E2) as (a' & -> & ->). exists a', (b ++ more).
    rewrite E3, <-app_assoc. split; [done|]. split; [set_solver|]. by apply Forall_app.
  - left. destruct a as [|y a]; [|exfalso; apply H3; rewrite E1 in H2; injection H2 as <- _; by left]. rewrite E1 in H2. injection H2 as ->. split_and!; [done..|].
    rewrite E2. apply Forall_app. split; [by eapply Forall_impl; [exact H4|left]|]. apply Forall_app. split; [by eapply Forall_impl; [exact E3|left]|]. apply Forall_singleton. by right.
Qed.
Lemma effect_serves l ps l' ps' : stopping_ l = false /\ TCloseAll ∉ tasks_ l -> effect l ps l' ps' -> stopping_ l' = false /\ TCloseAll ∉ tasks_ l'.
Proof.
  intros [H1 H2] [pre rest more E1 E2 E3 E4 E5 _|rest more E1 _ _ _ _]; [|rewrite E1 in H2; set_solver].
  split; [congruence|]. rewrite E1 in H2. rewrite E3. apply pump_not_close in E4. set_solver.
Qed.

(** ** The steps *)

Section Steps.
Context (t : tcp) (count : (0 < thread_count t)%nat).

Lemma finish_begin_inv raised l : life_inv l -> (phase_ l = Building \/ phase_ l = Serving) -> (raised = None -> (Unborn ∉ reactors_ l) /\ accept_stopping l = true) -> life_inv (finish_begin raised l).
Proof.
  intros [] Hp Hr. assert (closing (w_rt (world_ l)) = false) as Hc by (by destruct Hp as [E|E]; rewrite E in *). assert (past (phase_ l) = false) as Hpast by (by destruct Hp as [E|E]; rewrite E in *).
  constructor; cbn [finish_begin with_phase with_world with_rt w_rt w_ios w_batches set_closing closing jobs world_ workers_ reactors_ phase_ error_ stopping stopped accept_stopping past]; try done.
  - intros Hin. destruct (li_left0 Hin). congruence.
  - destruct raised; [done|by apply Hr].
  - destruct raised; [done|by apply Hr].
  - intros Hs. destruct (li_stop0 Hs) as [? _]. done.
  - intros i x lo ps Hx Hi. destruct (li_loops0 i x lo ps Hx Hi). rewrite Hpast in *. by constructor.
Qed.

Lemma turn_inv l i k r w : life_inv l -> reactors_ l !! i = Some Running -> turn t i k (world_ l) r w -> ends r -> life_inv (with_world w l).
Proof.
  intros V Hi H Hr. assert (exists lo ps, w_ios (world_ l) !! i = Some (lo, ps)) as (lo & ps & Hio) by (destruct H; by eauto).
  destruct (turn_effect t i k _ r w lo ps H Hr Hio (lo_timers _ _ _ _ (li_loops _ V i _ lo ps Hi Hio))) as (lo' & ps' & Hios & Hb & Hc & Hj & Hid & He).
  apply inv_world; [done|by rewrite Hios, length_insert|done..| |].
  - intros [Hw|Hcl]; [|by auto]. exfalso. eapply li_born; [done| |exact Hw]. by eapply list_elem_of_lookup_2.
  - intros j x lo1 ps1 Hx Hl. rewrite Hios in Hl. destruct (decide (j = i)) as [->|Hne]; [|rewrite list_lookup_insert_ne in Hl by done; by eapply V].
    rewrite list_lookup_insert_eq in Hl by (by eapply lookup_lt_Some). injection Hl as <- <-. rewrite Hi in Hx. injection Hx as <-.
    destruct (li_loops _ V i _ lo ps Hi Hio) as [_ _ _ Ht]. constructor; [done..|]. destruct (past (phase_ l)).
    + right. right. destruct Ht as [?|[?|[Hcd|Hab]]]; [done..|left; by eapply effect_stays|by eapply effect_closes].
    + by eapply effect_serves.
Qed.

Lemma busy_update ws i x y : ws !! i = Some x -> omap busy (<[i := y]> ws) ++ option_list (busy x) ≡ₚ omap busy ws ++ option_list (busy y).
Proof.
  intros Hi. destruct (update_split ws i x y Hi) as (a & b & -> & ->). rewrite !omap_app, <-!app_assoc. apply Permutation_app_head.
  cbn [omap list_omap]. destruct x, y; cbn; rewrite ?app_nil_r; try done; rewrite <-?Permutation_cons_append; try done. apply perm_swap.
Qed.
Lemma working l i x : life_inv l -> workers_ l !! i = Some x -> x <> Left -> past (phase_ l) = false.
Proof.
  intros V Hi Hx. destruct (past (phase_ l)) eqn:E; [|done]. pose proof (li_joined _ V E) as Hf. rewrite Forall_lookup in Hf. destruct (Hx (eq_sym (Hf i x Hi))).
Qed.
Lemma update_nonempty {A} (l : list A) i x y : l !! i = Some x -> <[i := y]> l <> [].
Proof. destruct l, i; done. Qed.

Lemma take_step_inv l i r batch : life_inv l -> workers_ l !! i = Some Waiting -> jobs (w_rt (world_ l)) <> [] -> take_batch (members t) (w_rt (world_ l)) = (r, batch) ->
  life_inv (with_worker i (Busy batch) (with_world (mkWorld r (w_ios (world_ l)) (w_batches (world_ l) ++ [batch]) (w_next (world_ l))) l)).
Proof.
  intros V Hi Hj Ht. pose proof (working l i _ V Hi ltac:(done)) as Hp. pose proof (take_jobs_closing _ _ _ _ Ht) as Hc. pose proof (busy_update _ _ _ (Busy batch) Hi) as HB.
  destruct V. constructor; cbn [with_worker with_world w_rt w_ios w_batches world_ workers_ reactors_ phase_ error_ stopping stopped accept_stopping]; rewrite ?Hc; try done.
  - rewrite li_batches0. cbn in HB. by rewrite app_nil_r in HB.
  - intros [?|Hin]%elem_of_update; [done|]. destruct (li_left0 Hin). done.
  - intros _. by eapply update_nonempty, Hi.
  - intros Hn. by apply (update_nonempty _ _ _ _ Hi) in Hn.
  - congruence.
Qed.

Lemma complete_step_inv l i a batch b handled us : life_inv l -> workers_ l !! i = Some (Busy batch) -> w_batches (world_ l) = a ++ batch :: b ->
  life_inv (with_worker i Waiting (with_world (finish_batch batch handled us (mkWorld (w_rt (world_ l)) (w_ios (world_ l)) (a ++ b) (w_next (world_ l)))) l)).
Proof.
  intros V Hi Hb. pose proof (working l i _ V Hi ltac:(done)) as Hp. pose proof (busy_update _ _ _ Waiting Hi) as HB. unfold finish_batch.
  destruct (batch_replies batch handled) as [replies errors]. set (es := completion <$> zip batch replies). set (w0 := with_rt _ _).
  destruct (posts_parts es w0) as (E1 & E2 & E3). assert (loops_inv (phase_ l) (reactors_ l) (fold_left (fun w e => post_to e.1 e.2 w) es w0)) as HL.
  { apply loops_posts; [done| |exact (li_loops l V)]. apply Forall_fmap, Forall_true. by intros []. }
  destruct V. constructor; cbn [with_worker with_world world_ workers_ reactors_ phase_ error_ stopping stopped accept_stopping]; rewrite ?E1, ?E2, ?E3; try done.
  - cbn [w0 with_rt w_batches]. rewrite Hb, <-Permutation_middle in li_batches0. cbn in HB. rewrite app_nil_r, <-Permutation_cons_append in HB. rewrite <-HB in li_batches0. by apply Permutation_cons_inv in li_batches0.
  - intros [?|Hin]%elem_of_update; [done|]. by destruct (li_left0 Hin).
  - intros _. by eapply update_nonempty, Hi.
  - intros Hn. by apply (update_nonempty _ _ _ _ Hi) in Hn.
  - congruence.
Qed.

Lemma leave_step_inv l i : life_inv l -> workers_ l !! i = Some Waiting -> closing (w_rt (world_ l)) = true -> jobs (w_rt (world_ l)) = [] -> life_inv (with_worker i Left l).
Proof.
  intros V Hi Hc Hj. pose proof (working l i _ V Hi ltac:(done)) as Hp. pose proof (busy_update _ _ _ Left Hi) as HB. destruct V.
  constructor; cbn [with_worker world_ workers_ reactors_ phase_ error_ stopping stopped accept_stopping]; try done.
  - cbn in HB. rewrite !app_nil_r in HB. by rewrite HB.
  - intros _. by eapply update_nonempty, Hi.
  - congruence.
Qed.

Lemma failed_step_inv l i e : life_inv l -> reactors_ l !! i = Some Running -> life_inv (reactor_failed i e l).
Proof.
  intros V Hi. assert (match phase_ l with Done _ => False | _ => True end) as Hd.
  { pose proof (li_done _ V) as Hd. destruct (phase_ l); try done. destruct Hd as [Hd _]. apply Hd. by eapply list_elem_of_lookup_2. }
  destruct V. constructor; cbn [reactor_failed world_ workers_ reactors_ phase_ error_ stopping stopped accept_stopping]; rewrite ?length_insert; try done.
  - intros [?|Hin]%elem_of_update; [done|auto].
  - by destruct (phase_ l).
  - destruct (phase_ l) as [| | |[]|[]|[]]; try done; intros [?|Hin]%elem_of_update; done.
  - intros _. by right.
  - by destruct (phase_ l) as [| | |[]|[]|[]].
  - intros Hs. split; [by apply li_stop0|done].
  - intros j x lo ps Hx Hl. destruct (decide (j = i)) as [->|Hne]; [|rewrite list_lookup_insert_ne in Hx by done; by eapply li_loops0].
    rewrite list_lookup_insert_eq in Hx by (by eapply lookup_lt_Some). injection Hx as <-. destruct (li_loops0 i _ lo ps Hi Hl) as [H1 _ _ H4].
    constructor; try done. destruct (past (phase_ l)); [by left|done].
Qed.

Lemma post_close_lookup n : forall a w i, w_ios (fold_left (fun w i => post_to i TCloseAll w) (seq a n) w) !! i =
  (if decide (a <= i < a + n)%nat then (fun x => ((Post TCloseAll x.1).1, x.2)) <$> w_ios w !! i else w_ios w !! i).
Proof.
  induction n as [|n IH]; intros a w i; cbn [seq fold_left]; [by rewrite decide_False by lia|]. rewrite IH. cbn [post_to w_ios].
  destruct (decide (i = a)) as [->|Hne].
  - rewrite decide_False by lia. rewrite list_lookup_alter_eq. by rewrite decide_True by lia.
  - rewrite list_lookup_alter_ne by done. destruct (decide (S a <= i < S a + n)%nat); [by rewrite decide_True by lia|by rewrite decide_False by lia].
Qed.
Lemma close_all_parts w : let w' := post_close_all w in w_rt w' = w_rt w /\ w_batches w' = w_batches w /\ length (w_ios w') = length (w_ios w) /\
  forall i l ps, w_ios w' !! i = Some (l, ps) -> exists l0, w_ios w !! i = Some (l0, ps) /\ l = (Post TCloseAll l0).1.
Proof.
  assert (forall ns w, let w' := fold_left (fun w i => post_to i TCloseAll w) ns w in w_rt w' = w_rt w /\ w_batches w' = w_batches w /\ length (w_ios w') = length (w_ios w)) as Hf.
  { induction ns as [|i ns IH]; intros w0; cbn [fold_left]; [done|]. destruct (IH (post_to i TCloseAll w0)) as (-> & -> & ->). cbn [post_to w_rt w_batches w_ios]. by rewrite length_alter. }
  unfold post_close_all. destruct (Hf (seq 0 (length (w_ios w))) w) as (H1 & H2 & H3). split_and!; try done. intros i l ps Hi. pose proof (lookup_lt_Some _ _ _ Hi) as Hlt. rewrite H3 in Hlt.
  rewrite post_close_lookup, decide_True in Hi by lia. destruct (w_ios w !! i) as [[l0 ps0]|]; [|done]. injection Hi as <- <-. by exists l0.
Qed.

Lemma joined_step_inv l raised : life_inv l -> phase_ l = JoiningWorkers raised -> Forall (eq Left) (workers_ l) -> life_inv (finish_reactors raised l).
Proof.
  intros [] Hp Hf. rewrite Hp in *. destruct (close_all_parts (world_ l)) as (E1 & E2 & E3 & E4).
  constructor; cbn [finish_reactors with_phase with_world world_ workers_ reactors_ phase_ error_ stopping stopped accept_stopping]; rewrite ?E1, ?E2, ?E3; try done.
  - intros Hs. split; [by apply li_stop0|done].
  - intros i x lo ps Hx (l0 & Hl & ->)%E4. destruct (li_loops0 i x l0 ps Hx Hl) as [H1 H2 H3 [H4 H5]]. constructor; cbn [Post modify fst timers_ tasks_ stopping_ past]; try done.
    + intros Hu. destruct (H2 Hu) as [? ?]. split; [done|]. apply Forall_app. split; [done|]. by apply Forall_singleton.
    + right. right. right. split; [done|]. by exists (tasks_ l0), [].
Qed.
Lemma done_step_inv l raised : life_inv l -> phase_ l = JoiningReactors raised -> (Running ∉ reactors_ l) -> life_inv (with_phase (Done (result_of raised (error_ l))) l).
Proof.
  intros [] Hp Hr. rewrite Hp in *. constructor; cbn [with_phase world_ workers_ reactors_ phase_ error_ stopping stopped accept_stopping]; try done.
  - split; [done|]. unfold result_of. destruct raised, (error_ l); done.
  - unfold result_of. destruct raised, (error_ l); done.
  - unfold result_of. destruct raised, (error_ l); done.
  - intros Hs. split; [by apply li_stop0|done].
  - intros i x lo ps Hx Hl. by destruct (li_loops0 i x lo ps Hx Hl).
Qed.
Lemma open_failed_inv l : life_inv l -> phase_ l = Building -> workers_ l = [] -> life_inv (with_phase (Done (Throw std_system_error)) l).
Proof.
  intros [] Hp Hw. rewrite Hp, Hw in *. assert (Running ∉ reactors_ l) as Hn by (intros Hr; by apply li_born0).
  constructor; cbn [with_phase world_ workers_ reactors_ phase_ error_ stopping stopped accept_stopping]; rewrite ?Hw; try done.
  - intros Hs. split; [by apply li_stop0|done].
  - intros i x lo ps Hx Hl. destruct (li_loops0 i x lo ps Hx Hl) as [H1 H2 H3 [H4 H5]]. constructor; try done. cbn [past]. destruct x; [by auto| |by rewrite H3 in H4|by auto].
    exfalso. apply Hn. by eapply list_elem_of_lookup_2.
Qed.
Lemma listening_inv l port : life_inv l -> phase_ l = Building -> (Unborn ∉ reactors_ l) -> life_inv (listening port l).
Proof.
  intros [] Hp Hu. rewrite Hp in *. constructor; cbn [listening world_ workers_ reactors_ phase_ error_ stopping stopped accept_stopping]; try done.
  - intros [?|?]%orb_true_iff; [auto|by left].
  - intros Hs. destruct (li_stop0 Hs) as [-> _]. by rewrite orb_true_r.
  - intros i x lo ps Hx Hl. by destruct (li_loops0 i x lo ps Hx Hl).
Qed.
Lemma spawn_worker_inv l : life_inv l -> phase_ l = Building -> life_inv (spawn_worker l).
Proof.
  intros [] Hp. constructor; cbn [spawn_worker world_ workers_ reactors_ phase_ error_ stopping stopped accept_stopping]; try done.
  - rewrite omap_app. cbn. by rewrite app_nil_r.
  - intros [Hin|?%list_elem_of_singleton]%elem_of_app; [auto|done].
  - intros _. by destruct (workers_ l).
  - by destruct (workers_ l).
  - by rewrite Hp.
Qed.
Lemma reactor_step_inv l i x y : life_inv l -> reactors_ l !! i = Some x -> y <> Failed -> y <> Unborn -> (y = Running -> phase_ l = Building /\ workers_ l <> []) ->
  (y = Returned -> exists lo ps, w_ios (world_ l) !! i = Some (lo, ps) /\ stopping_ lo = true) -> (past (phase_ l) = true -> x = Running) -> life_inv (with_reactor i y l).
Proof.
  intros [] Hi Hf Hu Hrun Hret Hpast. constructor; cbn [with_reactor world_ workers_ reactors_ phase_ error_ stopping stopped accept_stopping]; rewrite ?length_insert; try done.
  - intros [<-|Hin]%elem_of_update; [by apply Hrun|auto].
  - destruct (phase_ l) eqn:Ep; try done. destruct li_done0 as [H1 H2]. split; [|done]. intros [<-|Hin]%elem_of_update; [|done]. by destruct Hrun.
  - destruct (phase_ l) as [| | |[]|[]|[]]; try done; intros [?|Hin]%elem_of_update; done.
  - intros [?|Hin]%elem_of_update; [done|auto].
  - intros j z lo ps Hz Hl. destruct (decide (j = i)) as [->|Hne]; [|rewrite list_lookup_insert_ne in Hz by done; by eapply li_loops0].
    rewrite list_lookup_insert_eq in Hz by (by eapply lookup_lt_Some). injection Hz as <-. destruct (li_loops0 i _ lo ps Hi Hl) as [H1 H2 H3 H4]. constructor; [done..| |].
    + intros Hr. destruct (Hret Hr) as (? & ? & Hl' & ?). congruence.
    + destruct (past (phase_ l)) eqn:Ep; [|done]. rewrite (Hpast eq_refl) in H4. by destruct H4 as [?|[?|?]]; auto.
Qed.

Lemma starting l : start t (runtime_ l) = Ret tt -> phase_ l = Starting.
Proof. unfold start, runtime_. destruct (_ && _); [done|]. by destruct (phase_ l). Qed.
Lemma l_step_inv k l l' : life_inv l -> l_step t k l l' -> life_inv l'.
Proof.
  intros V H0. revert V. destruct H0 as [l0 Hs|l0 e _|l0 Hp Hw|l0 Hp Hw|l0 i Hp Hw Hi|l0 Hp _|l0 port Hp Hw Hu|l0 Hp Hw Hu|l0 rs Hp|l0 Hp Ha|l0 Hp|l0 raised Hp Hf|l0 raised Hp Hr
    |l0 i r batch Hi Hj Ht|l0 i a batch b handled us Hi Hb _|l0 i Hi Hc Hj|l0 i k0 w Hi H|l0 i k0 w e Hi H|l0 i Hi|l0 i lo ps Hi Hl Hst|l0|l0 Hst]; intros V.
  - apply starting in Hs. destruct V. rewrite Hs in *. constructor; cbn [with_phase world_ workers_ reactors_ phase_ error_ stopping stopped accept_stopping]; try done.
    + intros H. split; [by apply li_stop0|done].
    + intros i x lo ps Hx Hl. by destruct (li_loops0 i x lo ps Hx Hl).
  - done.
  - by apply open_failed_inv.
  - by apply spawn_worker_inv.
  - apply (reactor_step_inv l0 i Unborn); try done; [|by rewrite Hp]. intros _. split; [done|]. intros E. rewrite E in Hw. cbn in Hw. lia.
  - apply finish_begin_inv; [done|by left|done].
  - by apply listening_inv.
  - apply finish_begin_inv; [done|by left|done].
  - assert (Unborn ∉ reactors_ l0) as Hu by (pose proof (li_unborn _ V) as Hu; by rewrite Hp in Hu).
    destruct (accept_parts (members t) (phase_ l0) (reactors_ l0) rs 128 (world_ l0)) as (H1 & H2 & H3 & H4 & H5); [by rewrite Hp|done|exact (li_loops _ V)|]. by apply inv_world.
  - apply finish_begin_inv; [done|by right|]. intros _. pose proof (li_unborn _ V) as Hu. by rewrite Hp in Hu.
  - apply finish_begin_inv; [done|by right|done].
  - by apply joined_step_inv.
  - by apply done_step_inv.
  - by apply take_step_inv.
  - by apply complete_step_inv.
  - by apply leave_step_inv.
  - by apply (turn_inv l0 i k0 (Ret tt)).
  - apply failed_step_inv; [by apply (turn_inv l0 i k0 (Throw e))|done].
  - by apply failed_step_inv.
  - apply (reactor_step_inv l0 i Running); try done. intros _. by eauto.
  - destruct V. constructor; try done; cbn; [by left|]. intros H. split; [done|by apply li_stop0].
  - destruct V. constructor; try done; cbn; [by left|destruct (phase_ l0) as [| | |[]|[]|[]]; try done; cbn; by rewrite ?li_ended0|]. intros _. split; [done|]. unfold runtime_. intros ->. by rewrite orb_true_r.
Qed.
Lemma l_reachable_inv n l : l_reachable t n l -> life_inv l.
Proof. induction 1; [apply initial_inv|by eapply l_step_inv]. Qed.

Lemma done_ends n l result : l_reachable t n l -> phase_ l = Done result -> ends result.
Proof.
  intros H. revert result. induction H as [|n k l l' Hr IH Hs]; intros result; [done|]. destruct Hs; try done; try (by apply IH); cbn [with_phase phase_]; intros [= <-]; [done|].
  unfold result_of. by destruct raised, (error_ l).
Qed.

(** ** The steps as steps of the server *)

Lemma turn_step i k w w' : turn t i k w (Ret tt) w' -> step (members t) k w w'.
Proof. inversion 1; subst; [by eapply step_task|by eapply step_event|by eapply step_timer]. Qed.

(** Until a reactor fails the world is one of the server's. *)
Definition ios : nat := Z.to_nat (io_threads (options_ (members t))).
Lemma close_all_reachable n w : reachable (members t) ios n w -> reachable (members t) ios n (post_close_all w).
Proof.
  intros H. unfold post_close_all. generalize (seq 0 (length (w_ios w))). intros ns. revert w H. induction ns as [|i ns IH]; intros w H; [done|].
  cbn [fold_left]. apply IH. rewrite <-(Z.add_0_r n). eapply reach_step; [exact H|]. constructor.
Qed.
Lemma l_reachable_world n l : l_reachable t n l -> error_ l = None -> reachable (members t) ios n (world_ l).
Proof.
  induction 1 as [|n k l l' Hr IH Hs]; intros He; [constructor|].
  assert (forall w, error_ l = None -> step (members t) k (world_ l) w -> reachable (members t) ios (n + k) w) as Hstep by (intros w E Hw; by eapply reach_step; [apply IH|]).
  destruct Hs; cbn [error_ reactor_failed] in He; cbn [world_ with_phase with_world with_worker with_reactor spawn_worker listening finish_begin finish_reactors stop_flag stop_accept reactor_failed];
    rewrite ?Z.add_0_r in *; try by auto.
  all: try (apply Hstep; [done|solve [by constructor]]).
  - by apply close_all_reachable, IH.
  - apply Hstep; [done|]. by eapply turn_step.
Qed.
End Steps.

(** * What shutdown promises *)

Section Shutdown.
Context (t : tcp) (cfg : config_ok (members t)) (threads : 0 < io_threads (options_ (members t)) /\ 0 < workers (options_ (members t))).

Lemma some_worker : (0 < thread_count t)%nat.
Proof. unfold thread_count. destruct (batch_handler_ _); lia. Qed.
Lemma some_reactor : (0 < ios t)%nat.
Proof. unfold ios. lia. Qed.
Hint Resolve some_worker some_reactor : core.

(** Once the workers are joined nothing is queued or being handled. *)
Lemma joined_empty l : life_inv l -> past (phase_ l) = true -> jobs (w_rt (world_ l)) = [] /\ w_batches (world_ l) = [].
Proof.
  intros [] Hp. specialize (li_joined0 Hp). split.
  - destruct (workers_ l) as [|x ws]; [auto|]. apply Forall_cons in li_joined0 as [<- _]. apply li_left0. by left.
  - apply Permutation_nil_r. rewrite li_batches0. clear -li_joined0. induction li_joined0 as [|x ws <- _ IH]; [done|]. exact IH.
Qed.
Lemma pumps_empty ts : Forall (fun x => is_pump x \/ x = TNothing) ts -> attaches ts = 0 /\ replies_in ts = [].
Proof.
  induction 1 as [|x ts Hx _ [IH1 IH2]]; [done|]. unfold attaches, replies_in in *. rewrite filter_cons. cbn [omap list_omap]. destruct Hx as [Hx| ->]; [|done]. by destruct x.
Qed.
Lemma no_attach ts : Forall (fun x => is_attach x = false) ts -> attaches ts = 0.
Proof. intros H. unfold attaches. rewrite filter_none_in; [done|]. eapply Forall_impl; [exact H|]. intros x E. cbn. by rewrite E. Qed.

Lemma sum_conns_zero xs : Forall (fun x => conns x = 0) xs -> sum_conns xs = 0.
Proof. induction 1 as [|x xs Hx _ IH]; [done|]. by rewrite sum_conns_cons, Hx, IH. Qed.

Lemma at_end l i lo ps : life_inv l -> error_ l = None -> (exists r, phase_ l = Done r) -> w_ios (world_ l) !! i = Some (lo, ps) -> ps = ∅ /\ attaches (tasks_ lo) = 0.
Proof.
  intros V He [r Hp] Hi. assert (i < length (reactors_ l))%nat as [x Hx]%lookup_lt_is_Some_2 by (rewrite (li_length _ V); by eapply lookup_lt_Some).
  pose proof (li_done _ V) as Hd. rewrite Hp in Hd. destruct Hd as [Hd _]. destruct (li_loops _ V i x lo ps Hx Hi) as [_ H2 H3 H4]. rewrite Hp in H4. cbn in H4. destruct x.
  - destruct (H2 eq_refl) as [-> Ha]. split; [done|]. by apply no_attach.
  - exfalso. apply Hd. by eapply list_elem_of_lookup_2.
  - specialize (H3 eq_refl). destruct H4 as [?|[?|[(_ & -> & Hq)|[? _]]]]; [done..| |congruence]. split; [done|]. by apply pumps_empty.
  - exfalso. apply (li_failed _ V); [by eapply list_elem_of_lookup_2|done].
Qed.

Lemma ended_connections n l result : l_reachable t n l -> n < 2 ^ 64 -> phase_ l = Done result -> error_ l = None ->
  (forall i lo ps, w_ios (world_ l) !! i = Some (lo, ps) -> ps = ∅) /\
  st_active (stats (w_rt (world_ l))) = 0 /\ st_queued_tasks (stats (w_rt (world_ l))) = 0 /\ st_queued_bytes (stats (w_rt (world_ l))) = 0.
Proof.
  intros H Hn Hp E. pose proof (l_reachable_inv t some_worker n l H) as V. assert (past (phase_ l) = true) as Hpast by (by rewrite Hp). destruct (joined_empty l V Hpast) as [Hj _].
  pose proof (l_reachable_world t n l H E) as W. destruct (reachable_inv _ cfg _ n _ W some_reactor Hn) as [WI _].
  split; [intros i lo ps Hi; by apply (at_end l i lo ps V E ltac:(by eexists))|]. destruct (wi_queue _ _ _ WI) as [_ _ _ Q4 Q5 _]. cbn. rewrite Q4, Q5, Hj. split; [|done].
  rewrite (wi_active _ _ _ WI). apply sum_conns_zero, Forall_lookup. intros i [lo ps] Hi. destruct (at_end l i lo ps V E ltac:(by eexists) Hi) as [-> Ha]. unfold conns. cbn [fst snd]. by rewrite Ha, map_size_empty.
Qed.
Lemma ended_threads n l result : l_reachable t n l -> phase_ l = Done result ->
  (Running ∉ reactors_ l) /\ Forall (eq Left) (workers_ l) /\ (jobs (w_rt (world_ l)) = [] /\ w_batches (world_ l) = []) /\
  (result = Ret tt -> error_ l = None /\ stopping l = true /\ Forall (eq Returned) (reactors_ l)).
Proof.
  intros H Hp. pose proof (l_reachable_inv t some_worker n l H) as V. pose proof (li_done _ V) as Hd. rewrite Hp in Hd. destruct Hd as [Hd He]. assert (past (phase_ l) = true) as Hpast by (by rewrite Hp).
  split; [done|]. split; [by apply V|]. split; [by apply joined_empty|]. intros ->. split; [auto|]. split.
  { pose proof (li_ended _ V) as Hend. rewrite Hp in Hend. destruct (li_accept _ V Hend) as [?|Hne]; [done|]. destruct Hne. auto. }
  apply Forall_lookup. intros i x Hx. pose proof (li_unborn _ V) as Hu. rewrite Hp in Hu.
  pose proof (list_elem_of_lookup_2 _ _ _ Hx) as Hin. destruct x; try done. exfalso. apply (li_failed _ V Hin). auto.
Qed.

(** C18. When [Run] is over, whatever happened on the way, every thread that was started has ended and every
    request that was queued has been handed to the handler.  If no reactor failed, no connection is
    left and the published counters are back at zero.  [Run] returns normally only if [stop] was called,
    no thread failed and every reactor was started and has returned by itself. *)
Theorem shutdown_complete n l result : l_reachable t n l -> n < 2 ^ 64 -> phase_ l = Done result ->
  (Running ∉ reactors_ l) /\ Forall (eq Left) (workers_ l) /\ (jobs (w_rt (world_ l)) = [] /\ w_batches (world_ l) = []) /\
  (error_ l = None -> (forall i lo ps, w_ios (world_ l) !! i = Some (lo, ps) -> ps = ∅) /\
     st_active (stats (w_rt (world_ l))) = 0 /\ st_queued_tasks (stats (w_rt (world_ l))) = 0 /\ st_queued_bytes (stats (w_rt (world_ l))) = 0) /\
  (result = Ret tt -> error_ l = None /\ stopping l = true /\ Forall (eq Returned) (reactors_ l)).
Proof.
  intros H Hn Hp. destruct (ended_threads n l result H Hp) as (H1 & H2 & H3 & H4). split; [done|]. split; [done|]. split; [done|]. split; [|done]. by eapply ended_connections.
Qed.

(** What is left in an input when nothing is pending. *)
Lemma input_left n l i lo ps token p ts : l_reachable t n l -> n < 2 ^ 64 -> error_ l = None ->
  w_ios (world_ l) !! i = Some (lo, ps) -> tasks_ lo = TCloseAll :: ts -> ps !! token = Some p -> pending p = 0 ->
  Buffer.data (input p) = [] \/ (exists size, next_size (members t) p = Some size /\ (size = 0 \/ zlen (Buffer.data (input p)) < size)) \/
  (framed (members t) = false /\ incomplete p = true) \/ output_bytes (options_ (members t)) / 2 <= zlen (unsent p) \/ TPump token ∈ ts.
Proof.
  intros H Hn E Hi Ht Hp H0. pose proof (l_reachable_world t n l H E) as W. pose proof (reachable_peer _ cfg _ n _ i lo ps token p W some_reactor Hn Hi Hp) as P.
  destruct (reachable_backlogs _ cfg _ n _ W some_reactor Hn i lo ps Hi token p Hp) as (Hs & Hw & Hq). pose proof (Buffer.size_data _ (pi_buffer _ _ _ P)) as Ez.
  destruct Hs as [[Hz|[Hinc|[(size & Es & Hsz)|Hr]]]|Hsc].
  - left. rewrite Ez in Hz. destruct (Buffer.data (input p)) as [|x y]; [done|]. rewrite zlen_cons in Hz. pose proof (zlen_nonneg y). lia.
  - right. right. left. split; [|done]. destruct (framed (members t)) eqn:Ef; [|done]. specialize (Hw Ef). congruence.
  - right. left. exists size. rewrite <-Ez. done.
  - right. right. right. left. rewrite <-(pi_bytes _ _ _ P). unfold can_read in Hr. rewrite H0 in Hr. pose proof cfg as (_ & _ & _ & _ & Hpipe & _).
    assert (0 < limit (members t)) by (unfold limit; destruct (_ || _); lia). apply andb_false_iff in Hr as [Hr|Hr]; zify_bools; lia.
  - right. right. right. right. specialize (Hq Hsc). rewrite Ht in Hq. by apply elem_of_cons in Hq as [?|?].
Qed.

(** C6. No request that was taken up is abandoned by a shutdown.  When a reactor comes to close its connections, on every
    connection it still holds nothing is pending, the answers are to exactly the requests that were taken from its input and
    queued (in their order, where requests are handled one at a time), and the bytes sent are, with those still to be sent, the
    replies.  What else was received is still in the input: with a sizer, the bytes received are the requests taken up and then the
    input.  And there is a reason: the input is empty or does not reach the end of its next request; or, without a sizer,
    the handler asked for more; or reading from the client is suspended, because it leaves half of the output limit unread; or
    the connection had its share of a turn and its next turn is queued behind the closing. *)
Theorem answered_before_close n l i lo ps token p ts : l_reachable t n l -> n < 2 ^ 64 -> error_ l = None ->
  w_ios (world_ l) !! i = Some (lo, ps) -> tasks_ lo = TCloseAll :: ts -> ps !! token = Some p ->
  pending p = 0 /\ (answers p).*1 ≡ₚ frames p /\ (limit (members t) = 1 -> (answers p).*1 = frames p) /\
  wire p ++ unsent p = concat ((fun a => r_bytes a.2) <$> answers p) /\
  (framed (members t) = true -> stream p = concat (frames p) ++ Buffer.data (input p)) /\
  (Buffer.data (input p) = [] \/
   (exists size, next_size (members t) p = Some size /\ (size = 0 \/ zlen (Buffer.data (input p)) < size)) \/
   (framed (members t) = false /\ incomplete p = true) \/
   output_bytes (options_ (members t)) / 2 <= zlen (unsent p) \/
   TPump token ∈ ts).
Proof.
  intros H Hn E Hi Ht Hp. pose proof (l_reachable_inv t some_worker n l H) as V. pose proof (l_reachable_world t n l H E) as W.
  assert (i < length (reactors_ l))%nat as [x Hx]%lookup_lt_is_Some_2 by (rewrite (li_length _ V); by eapply lookup_lt_Some).
  destruct (li_loops _ V i x lo ps Hx Hi) as [_ H2 _ H4]. destruct (past (phase_ l)) eqn:Epast; [|destruct H4 as [_ Hn4]; rewrite Ht in Hn4; set_solver].
  destruct (joined_empty l V Epast) as [Hj Hb].
  assert (replies_in ts = []) as Hr.
  { destruct H4 as [->|[->|[(_ & -> & _)|(_ & a & b & Hab & Ha & Hq)]]]; [exfalso; apply (li_failed _ V); [by eapply list_elem_of_lookup_2|done]|destruct (H2 eq_refl); by simplify_map_eq|by simplify_map_eq|].
    rewrite Ht in Hab. destruct a as [|y a]; [injection Hab as <-|injection Hab as <- _; set_solver]. apply pumps_empty. eapply Forall_impl; [exact Hq|]. by left. }
  pose proof (reachable_peer _ cfg _ n _ i lo ps token p W some_reactor Hn Hi Hp) as P. unfold outstanding in P. rewrite Hj, Hb, Ht in P. unfold replies_in in *. cbn [omap list_omap reply_of] in P.
  rewrite Hr in P. cbn in P. split; [apply P|]. split; [|split; [|split; [apply P|split; [apply P|]]]].
  - pose proof (pi_frames _ _ _ P) as Hf. by rewrite app_nil_r in Hf.
  - intros Hl. pose proof (pi_order _ _ _ P Hl) as Hf. by rewrite app_nil_r in Hf.
  - apply (input_left n l i lo ps token p ts); try done. apply P.
Qed.
End Shutdown.
