(* ===== verification/TcpServerProgress.v ===== *)
(** [TcpServer::stop] ends the server: the call is never lost, and from it on the threads always have a step
    that brings the end of [Run] nearer, which no other step undoes. *)
From S2P Require Import Prelude Buffer EventLoop TcpServer TcpServerInv TcpServerWalk TcpServerCorrectness TcpServerLifecycle TcpServerShutdown.
Import EventLoop TcpServer Lifecycle.

(** * What is left to do *)

Definition worker_work (x : worker) : nat := match x with Waiting => 1 | Busy _ => 2 | Left => 0 end.
(** The tasks ahead of the one that stops the loop. *)
Fixpoint ahead (ts : list task) : nat := match ts with TCloseAll :: _ | [] => 0 | _ :: ts => S (ahead ts) end.
Definition reactor_work (x : reactor) (l : loop task callback) : nat := match x with Running => if stopping_ l then 1 else 2 + ahead (tasks_ l) | _ => 0 end.
Definition unborn (x : reactor) : nat := match x with Unborn => 1 | _ => 0 end.

Definition stage (p : phase) : nat :=
  match p with Starting => 5 | Building => 4 | Serving => 3 | JoiningWorkers _ => 2 | JoiningReactors _ => 1 | Done _ => 0 end.
Definition work (t : tcp) (l : life) : nat :=
  match phase_ l with
  | Building => (thread_count t - length (workers_ l)) + sum_list_with unborn (reactors_ l)
  | JoiningWorkers _ => 3 * length (jobs (w_rt (world_ l))) + sum_list_with worker_work (workers_ l)
  | JoiningReactors _ => sum_list_with (fun x => reactor_work x.1 x.2.1) (zip (reactors_ l) (w_ios (world_ l)))
  | _ => 0
  end.
(** Nearer to the end, and no further from it. *)
Definition nearer (t : tcp) (l' l : life) : Prop := (stage (phase_ l') < stage (phase_ l))%nat \/ stage (phase_ l') = stage (phase_ l) /\ (work t l' < work t l)%nat.
Definition no_further (t : tcp) (l' l : life) : Prop := (stage (phase_ l') < stage (phase_ l))%nat \/ stage (phase_ l') = stage (phase_ l) /\ (work t l' <= work t l)%nat.

(** ** Sums *)

Lemma sum_update {A} (f : A -> nat) l : forall i x y, l !! i = Some x -> (sum_list_with f (<[i := y]> l) + f x = sum_list_with f l + f y)%nat.
Proof.
  induction l as [|z l IH]; intros [|i] x y Hi; try done.
  - injection Hi as ->. change (<[0%nat := y]> (x :: l)) with (y :: l). cbn [sum_list_with]. lia.
  - specialize (IH i x y Hi). change (<[S i := y]> (z :: l)) with (z :: <[i := y]> l). cbn [sum_list_with]. lia.
Qed.
Lemma zip_update (xs : list reactor) (w : list (loop task callback * gmap Z Peer)) i x io : <[i := (x, io)]> (zip xs w) = zip (<[i := x]> xs) (<[i := io]> w).
Proof. apply (insert_zip_with pair). Qed.

(** A reactor moves on, on its own loop. *)
Lemma reactors_update xs ws i x io x' io' : xs !! i = Some x -> ws !! i = Some io -> (reactor_work x' io'.1 <= reactor_work x io.1)%nat ->
  let f := (fun p : reactor * (loop task callback * gmap Z Peer) => reactor_work p.1 p.2.1) in
  (sum_list_with f (zip (<[i := x']> xs) (<[i := io']> ws)) + reactor_work x io.1 = sum_list_with f (zip xs ws) + reactor_work x' io'.1)%nat.
Proof.
  intros Hx Hio Hle f. rewrite <-zip_update. pose proof (sum_update f (zip xs ws) i (x, io) (x', io')) as E. apply E. by apply lookup_zip_Some.
Qed.

Lemma ahead_app a b : (TCloseAll ∉ a) -> ahead (a ++ TCloseAll :: b) = length a.
Proof. induction a as [|x a IH]; intros H; [done|]. cbn. rewrite IH by set_solver. destruct x; try done. set_solver. Qed.

(** A callback does not add to what is ahead of the end; the next task makes it less. *)
Lemma effect_work l ps l' ps' : closed_down l ps \/ about_to_close l -> effect l ps l' ps' -> (reactor_work Running l' <= reactor_work Running l)%nat.
Proof.
  intros [(H1 & H2 & H3)|(H1 & a & b & H2 & H3 & H4)] He.
  - destruct (effect_stays l ps l' ps') as [E _]; [done..|]. cbn. by rewrite E, H1.
  - destruct He as [pre rest more E1 E2 E3 E4 E5 _|rest more E1 E2 E3 E4 ->]; cbn; rewrite H1.
    + rewrite E5, H1. rewrite E1 in H2. destruct (split_before _ _ _ _ _ H2 E2) as (a' & -> & ->). rewrite E3, E1, <-app_assoc. cbn [app].
      rewrite ahead_app by set_solver. rewrite H2, ahead_app by done. rewrite length_app. lia.
    + rewrite E4. lia.
Qed.

(** * Every step *)

Lemma take_jobs_jobs c : forall r r' batch, take_jobs c r = (r', batch) -> jobs r = batch ++ jobs r'.
Proof.
  induction c as [|c IH]; intros r r' batch; cbn [take_jobs]; [by intros [= <- <-]|]. destruct (jobs r) as [|j js] eqn:Ej; [intros [= <- <-]; by rewrite Ej|].
  destruct (take_jobs c _) as [r1 b1] eqn:E. intros [= <- <-]. apply IH in E. cbn [set_jobs jobs] in E. by rewrite E.
Qed.
Lemma take_batch_less srv r r' batch : jobs r <> [] -> take_batch srv r = (r', batch) -> (length (jobs r') < length (jobs r))%nat.
Proof.
  unfold take_batch. intros Hj Ht. assert (batch <> []) as Hb.
  { destruct (jobs r) as [|j js] eqn:E; [done|]. destruct (batch_handler_ srv); cbn [length Nat.min take_jobs] in Ht; rewrite E in Ht; [destruct (take_jobs _ _)|]; by injection Ht as <- <-. }
  apply take_jobs_jobs in Ht. rewrite Ht, length_app. destruct batch; [done|]. cbn. lia.
Qed.

Section Progress.
Context (t : tcp).

Lemma no_further_by l l' : phase_ l' = phase_ l -> (work t l' <= work t l)%nat -> no_further t l' l.
Proof. intros E H. right. by rewrite E. Qed.
Lemma nearer_by l l' : phase_ l' = phase_ l -> (work t l' < work t l)%nat -> nearer t l' l.
Proof. intros E H. right. by rewrite E. Qed.
Lemma nearer_no_further l l' : nearer t l' l -> no_further t l' l.
Proof. intros [?|[? ?]]; [by left|right]. split; [done|lia]. Qed.

Lemma spawn_worker_nearer l : phase_ l = Building -> (length (workers_ l) < thread_count t)%nat -> nearer t (spawn_worker l) l.
Proof. intros Hp H. apply nearer_by; [done|]. unfold work. cbn. rewrite Hp, length_app. cbn. lia. Qed.
Lemma spawn_reactor_nearer l i : phase_ l = Building -> reactors_ l !! i = Some Unborn -> nearer t (with_reactor i Running l) l.
Proof. intros Hp H. apply nearer_by; [done|]. unfold work. cbn. rewrite Hp. pose proof (sum_update unborn _ i _ Running H) as E. cbn in E. lia. Qed.

Lemma worker_step l i x y w : workers_ l !! i = Some x -> phase_ l <> Building -> past (phase_ l) = false ->
  (3 * length (jobs (w_rt w)) + worker_work y < 3 * length (jobs (w_rt (world_ l))) + worker_work x)%nat ->
  match phase_ l with JoiningWorkers _ => nearer t (with_worker i y (with_world w l)) l | _ => no_further t (with_worker i y (with_world w l)) l end.
Proof.
  intros Hi Hb Hp Hw. destruct (phase_ l) eqn:E; try done; [apply no_further_by; [done|]; unfold work; cbn; by rewrite E..|].
  apply nearer_by; [done|]. unfold work. cbn -[Nat.mul]. rewrite E. pose proof (sum_update worker_work _ i _ y Hi) as Es. lia.
Qed.
Lemma worker_no_further l i x y w : life_inv l -> workers_ l !! i = Some x -> x <> Left ->
  (3 * length (jobs (w_rt w)) + worker_work y < 3 * length (jobs (w_rt (world_ l))) + worker_work x)%nat -> no_further t (with_worker i y (with_world w l)) l.
Proof.
  intros V Hi Hx Hw. pose proof (working l i x V Hi Hx) as Hp. destruct (decide (stage (phase_ l) = 4%nat)) as [Hb|Hb].
  - destruct (phase_ l) eqn:E; try done. apply no_further_by; [done|]. unfold work. cbn. by rewrite E, length_insert.
  - pose proof (worker_step l i x y w Hi ltac:(by intros E; rewrite E in Hb) Hp Hw) as H. destruct (phase_ l); try done. by apply nearer_no_further.
Qed.

(** A reactor thread that goes on, or ends. *)
Lemma reactor_no_further l i y w lo ps lo' ps' e a : life_inv l -> reactors_ l !! i = Some Running -> w_ios (world_ l) !! i = Some (lo, ps) -> w_ios w = <[i := (lo', ps')]> (w_ios (world_ l)) ->
  (closing (w_rt (world_ l)) = true -> jobs (w_rt w) = jobs (w_rt (world_ l))) -> y <> Unborn -> (past (phase_ l) = true -> reactor_work y lo' <= reactor_work Running lo)%nat ->
  no_further t (mkLife w (workers_ l) (<[i := y]> (reactors_ l)) e a (bound_port_ l) (stopping l) (stopped l) (phase_ l)) l.
Proof.
  intros V Hi Hl Hw Hj Hy Hr. apply no_further_by; [done|]. unfold work. cbn -[Nat.mul]. pose proof (li_closing _ V) as Hc. destruct (phase_ l) eqn:E; try done.
  - pose proof (sum_update unborn _ i _ y Hi) as Es. assert (unborn y = 0%nat) as E0 by (by destruct y). rewrite E0 in Es. cbn in Es. lia.
  - rewrite Hj by done. lia.
  - specialize (Hr eq_refl). pose proof (reactors_update _ _ i Running (lo, ps) y (lo', ps') Hi Hl Hr) as Es. cbv zeta in Es. cbn [fst] in Es. rewrite Hw. lia.
Qed.

Lemma turn_no_further l i k r w y e a : life_inv l -> reactors_ l !! i = Some Running -> turn t i k (world_ l) r w -> ends r -> y = Running \/ y = Failed ->
  no_further t (mkLife w (workers_ l) (<[i := y]> (reactors_ l)) e a (bound_port_ l) (stopping l) (stopped l) (phase_ l)) l.
Proof.
  intros V Hi H Hr Hy. assert (exists lo ps, w_ios (world_ l) !! i = Some (lo, ps)) as (lo & ps & Hio) by (destruct H; by eauto).
  destruct (li_loops _ V i _ lo ps Hi Hio) as [Hid _ _ Ht]. destruct (turn_effect t i k _ r w lo ps H Hr Hio Hid) as (lo' & ps' & Hios & _ & _ & Hj & _ & He).
  apply (reactor_no_further l i y w lo ps lo' ps'); try done; [by destruct Hy as [-> | ->]|]. intros Hp. rewrite Hp in Ht.
  assert (reactor_work Running lo' <= reactor_work Running lo)%nat as Hle by (apply (effect_work lo ps lo' ps'); [destruct Ht as [?|[?|?]]; done|done]).
  destruct Hy as [-> | ->]; [done|cbn; lia].
Qed.

Lemma l_step_no_further k l l' : life_inv l -> l_step t k l l' -> no_further t l' l.
Proof.
  intros V H0. revert V. destruct H0 as [l0 Hs|l0 e _|l0 Hp Hw|l0 Hp Hw|l0 i Hp Hw Hi|l0 Hp _|l0 port Hp Hw Hu|l0 Hp Hw Hu|l0 rs Hp|l0 Hp Ha|l0 Hp|l0 raised Hp Hf|l0 raised Hp Hr
    |l0 i r batch Hi Hj Ht|l0 i a batch b handled us Hi Hb _|l0 i Hi Hc Hj|l0 i k0 w Hi H|l0 i k0 w e Hi H|l0 i Hi|l0 i lo ps Hi Hl Hst|l0|l0 Hst]; intros V;
    try (left; cbn [finish_begin finish_reactors with_phase listening phase_ stage]; rewrite Hp; cbn [stage]; lia).
  - left. apply starting in Hs. cbn [with_phase phase_ stage]. rewrite Hs. cbn [stage]. lia.
  - by apply no_further_by.
  - by apply nearer_no_further, spawn_worker_nearer.
  - by apply nearer_no_further, spawn_reactor_nearer.
  - apply no_further_by; [done|]. unfold work. cbn. by rewrite Hp.
  - apply (worker_no_further l0 i Waiting); try done. cbn [w_rt]. pose proof (take_batch_less _ _ _ _ Hj Ht). cbn [worker_work]. lia.
  - apply (worker_no_further l0 i (Busy batch)); try done. unfold finish_batch. destruct (batch_replies batch handled) as [replies errors].
    destruct (posts_parts (completion <$> zip batch replies) (with_rt (count_handler us errors) (mkWorld (w_rt (world_ l0)) (w_ios (world_ l0)) (a ++ b) (w_next (world_ l0))))) as (-> & _). cbn. lia.
  - pose proof (worker_no_further l0 i Waiting Left (world_ l0) V Hi ltac:(done)) as H. cbn [worker_work] in H. specialize (H ltac:(lia)). by destruct l0.
  - pose proof (turn_no_further l0 i k0 (Ret tt) w Running (error_ l0) (accept_stopping l0) V Hi H I (or_introl eq_refl)) as HN. by rewrite list_insert_id in HN.
  - by apply (turn_no_further l0 i k0 (Throw e) w Failed (Some e) true V Hi H I (or_intror eq_refl)).
  - assert (i < length (w_ios (world_ l0)))%nat as [[lo ps] Hl]%lookup_lt_is_Some_2 by (rewrite <-(li_length _ V); by eapply lookup_lt_Some).
    apply (reactor_no_further l0 i Failed (world_ l0) lo ps lo ps); try done; [by rewrite list_insert_id|]. cbn. lia.
  - apply (reactor_no_further l0 i Returned (world_ l0) lo ps lo ps); try done; [by rewrite list_insert_id|]. cbn. lia.
  - by apply no_further_by.
  - by apply no_further_by.
Qed.

Lemma workers_bound n l : l_reachable t n l -> (length (workers_ l) <= thread_count t)%nat.
Proof.
  induction 1 as [|n k l l' Hr IH Hs]; [cbn; lia|]. destruct Hs; cbn [workers_ with_phase with_world with_worker with_reactor spawn_worker listening finish_begin finish_reactors stop_flag stop_accept reactor_failed];
    rewrite ?length_insert; try done. rewrite length_app. cbn. lia.
Qed.
Lemma nearer_wf : well_founded (nearer t).
Proof.
  intros l. remember (stage (phase_ l)) as a eqn:Ea. revert l Ea. induction (lt_wf a) as [a _ IHa]. intros l Ea. remember (work t l) as b eqn:Eb. revert l Ea Eb.
  induction (lt_wf b) as [b _ IHb]. intros l -> ->. constructor. intros l' [Hs|[Hs Hw]]; [by eapply IHa|]. by eapply (IHb (work t l')).
Qed.
End Progress.

(** * Progress *)

Section Stop.
Context (t : tcp) (cfg : config_ok (members t)) (threads : 0 < io_threads (options_ (members t)) /\ 0 < workers (options_ (members t))).
(** Some thread of the server, not a caller of [stop], brings the end nearer. *)
Definition moves (l : life) : Prop := exists k l', l_step t k l l' /\ nearer t l' l /\ stopping l' = stopping l /\ stopped l' = stopped l.
Lemma moves_by k l l' : l_step t k l l' -> nearer t l' l -> stopping l' = stopping l -> stopped l' = stopped l -> moves l.
Proof. by exists k, l'. Qed.

Lemma not_all {A} (P : A -> Prop) `{!forall x, Decision (P x)} l : ~ Forall P l -> exists i x, l !! i = Some x /\ ~ P x.
Proof. intros Hn. apply not_Forall_Exists, Exists_exists in Hn as (x & [i Hi]%list_elem_of_lookup & Hx); [|by apply _]. by exists i, x. Qed.
#[local] Instance left_dec x : Decision (Left = x).
Proof. destruct x; [by right|by right|by left]. Defined.
#[local] Instance reactor_dec : EqDecision reactor.
Proof. solve_decision. Defined.

Lemma building_moves l : phase_ l = Building -> (length (workers_ l) <= thread_count t)%nat -> moves l.
Proof.
  intros Hp Hle. destruct (decide (length (workers_ l) < thread_count t)%nat) as [Hlt|Hge].
  { apply (moves_by 0 l (spawn_worker l)); [by constructor| |done..]. by apply spawn_worker_nearer. }
  destruct (decide (Unborn ∈ reactors_ l)) as [[i Hi]%list_elem_of_lookup|Hu].
  - apply (moves_by 0 l (with_reactor i Running l)); [constructor; [done|lia|done]| |done..]. by apply spawn_reactor_nearer.
  - apply (moves_by 0 l (listening 0 l)); [constructor; [done|lia|done]| |done..]. left. cbn. rewrite Hp. cbn. lia.
Qed.
Lemma joining_workers_moves l raised : life_inv l -> phase_ l = JoiningWorkers raised -> moves l.
Proof.
  intros V Hp. pose proof (li_closing _ V) as Hc. rewrite Hp in Hc. destruct (decide (Forall (eq Left) (workers_ l))) as [Hf|Hf].
  { apply (moves_by 0 l (finish_reactors raised l)); [by constructor| |done..]. left. cbn. rewrite Hp. cbn. lia. }
  assert (past (phase_ l) = false /\ phase_ l <> Building) as [Hn Hb] by (by rewrite Hp). apply not_all in Hf as (i & x & Hi & Hx); [|apply _]. destruct x as [|batch|]; [|..|done].
  - destruct (jobs (w_rt (world_ l))) as [|j js] eqn:Ej.
    + apply (moves_by 0 l (with_worker i Left l)); [by constructor| |done..]. pose proof (worker_step t l i Waiting Left (world_ l) Hi Hb Hn) as H. rewrite Hp in H. cbn [worker_work] in H.
      specialize (H ltac:(lia)). destruct l. cbn [with_world] in H. cbn in Hp. by subst.
    + destruct (take_batch (members t) (w_rt (world_ l))) as [r batch] eqn:Et. assert (jobs (w_rt (world_ l)) <> []) as Hne by (by rewrite Ej).
      eapply (moves_by 0 l); [by apply (ls_take t l i r batch)| |done..]. match goal with |- nearer _ (with_worker _ _ (with_world ?w _)) _ => pose proof (worker_step t l i Waiting (Busy batch) w Hi Hb Hn) as H end.
      rewrite Hp in H. apply H. cbn [w_rt worker_work]. pose proof (take_batch_less _ _ _ _ Hne Et). lia.
  - assert (batch ∈ w_batches (world_ l)) as (a & b & Hab)%list_elem_of_split.
    { rewrite (li_batches _ V). apply list_elem_of_omap. exists (Busy batch). split; [by eapply list_elem_of_lookup_2|done]. }
    eapply (moves_by 0 l); [by apply (ls_complete t l i a batch b (Throw std_runtime_error) 0)| |done..].
    match goal with |- nearer _ (with_worker _ _ (with_world ?w _)) _ => pose proof (worker_step t l i (Busy batch) Waiting w Hi Hb Hn) as H end. rewrite Hp in H. apply H.
    unfold finish_batch. destruct (batch_replies _ _) as [replies errors]. match goal with |- context[fold_left _ ?es ?w] => destruct (posts_parts es w) as (-> & _) end. cbn. lia.
Qed.

(** The next task of a reactor that is to stop. *)
Definition quiet_env : io_env := mkIoEnv [] [] true 0.
Lemma task_work x ts i lo ps rt s r : tasks_ lo = x :: ts -> about_to_close lo -> exec (members t) quiet_env x (mkIo i (pop_task lo) ps rt) = (s, r) -> ends r ->
  (reactor_work Running (io_loop s) < reactor_work Running lo)%nat.
Proof.
  intros Hx (Hst & a & b & Hts & Ha & Hb) He Hr. cbn. rewrite Hst, Hts, ahead_app by done. destruct a as [|y a]; rewrite Hx in Hts; [injection Hts as -> ->|injection Hts as -> ->].
  - destruct (exec_close_all t _ _ _ _ _ _ _ He Hr) as (_ & -> & _). cbn. lia.
  - assert (y <> TCloseAll) as Hy by set_solver. destruct (exec_during t _ _ _ _ _ _ _ _ Hy He Hr) as [[C1 (more & C2 & _) _] _ _ _].
    rewrite C1, C2. cbn [pop_task stopping_ tasks_]. rewrite Hst, Hx. cbn [tail]. rewrite <-app_assoc. cbn [app]. rewrite ahead_app by set_solver. cbn [length]. lia.
Qed.
Lemma reactor_nearer l i y w lo ps lo' ps' e a : (exists raised, phase_ l = JoiningReactors raised) -> reactors_ l !! i = Some Running -> w_ios (world_ l) !! i = Some (lo, ps) ->
  w_ios w = <[i := (lo', ps')]> (w_ios (world_ l)) -> (reactor_work y lo' < reactor_work Running lo)%nat ->
  nearer t (mkLife w (workers_ l) (<[i := y]> (reactors_ l)) e a (bound_port_ l) (stopping l) (stopped l) (phase_ l)) l.
Proof.
  intros [raised Hp] Hi Hl Hw Hr. apply nearer_by; [done|]. unfold work. cbn [phase_ reactors_ world_]. rewrite Hp, Hw.
  pose proof (reactors_update _ _ i Running (lo, ps) y (lo', ps') Hi Hl ltac:(cbn [fst]; lia)) as Es. cbv zeta in Es. cbn [fst] in Es. lia.
Qed.

Lemma joining_reactors_moves n l raised : l_reachable t n l -> n + 2 < 2 ^ 64 -> error_ l = None -> phase_ l = JoiningReactors raised -> moves l.
Proof.
  intros Hl Hn He Hp. pose proof (l_reachable_inv t (some_worker t threads) n l Hl) as V. assert (exists raised, phase_ l = JoiningReactors raised) as Hp' by (by eexists).
  destruct (decide (Running ∈ reactors_ l)) as [[i Hi]%list_elem_of_lookup|Hr].
  2: { apply (moves_by 0 l (with_phase (Done (result_of raised (error_ l))) l)); [by constructor| |done..]. left. cbn. rewrite Hp. cbn. lia. }
  assert (i < length (w_ios (world_ l)))%nat as [[lo ps] Hio]%lookup_lt_is_Some_2 by (rewrite <-(li_length _ V); by eapply lookup_lt_Some).
  destruct (li_loops _ V i _ lo ps Hi Hio) as [_ _ _ Ht]. rewrite Hp in Ht. cbn [past] in Ht. destruct Ht as [?|[?|[(Hst & _)|Hab]]]; [done..| |].
  { apply (moves_by 0 l (with_reactor i Returned l)); [by eapply ls_return| |done..]. apply (reactor_nearer l i Returned (world_ l) lo ps lo ps); try done; [by rewrite list_insert_id|]. cbn. rewrite Hst. lia. }
  destruct (reachable_inv _ cfg _ n _ (l_reachable_world t n l Hl He) (some_reactor t threads) ltac:(lia)) as [WI _].
  assert (exists x ts, tasks_ lo = x :: ts) as (x & ts & Hx) by (destruct Hab as (_ & [|y a] & b & -> & _); by eauto).
  pose proof (task_ends _ cfg n _ i lo ps quiet_env x ts WI ltac:(done) Hio Hx) as Hend. destruct (exec _ _ _ _) as [s r] eqn:Ex. cbn [snd] in Hend.
  assert (turn t i 2 (world_ l) r (leave i s (world_ l))) as Ht by (by eapply (turn_task t i _ quiet_env)).
  assert (ends r) as Hr by (by destruct r). pose proof (task_work x ts i lo ps _ s r Hx Hab Ex Hr) as Hlt. destruct r as [[]|e| |]; try done.
  - apply (moves_by 2 l (with_world (leave i s (world_ l)) l)); [by eapply ls_turn| |done..].
    pose proof (reactor_nearer l i Running (leave i s (world_ l)) lo ps (io_loop s) (peers s) (error_ l) (accept_stopping l) Hp' Hi Hio eq_refl Hlt) as HN. by rewrite list_insert_id in HN.
  - apply (moves_by 2 l (reactor_failed i e (with_world (leave i s (world_ l)) l))); [by eapply ls_turn_failed| |done..].
    apply (reactor_nearer l i Failed (leave i s (world_ l)) lo ps (io_loop s) (peers s) (Some e) true Hp' Hi Hio eq_refl). cbn in *. lia.
Qed.

Lemma stopped_moves n l : l_reachable t n l -> n + 2 < 2 ^ 64 -> error_ l = None -> stopped l = true -> phase_ l <> Starting -> (exists result, phase_ l = Done result) \/ moves l.
Proof.
  intros Hl Hn He Hs Hp. pose proof (l_reachable_inv t (some_worker t threads) n l Hl) as V. destruct (phase_ l) as [| | |raised|raised|result] eqn:E; [done|right..|by left; eexists].
  - apply building_moves; [done|]. by eapply workers_bound.
  - apply (moves_by 0 l (finish_begin None l)); [apply ls_accept_end; [done|by apply V]| |done..]. left. cbn. rewrite E. cbn. lia.
  - by eapply joining_workers_moves.
  - by eapply joining_reactors_moves.
Qed.

(** C7. [stop] ends the server, whenever it is called, also before [start] or while the threads are being
    started: once a call has returned, and until a reactor fails, [Run] is over or some thread has a
    step that brings its end nearer, in an order in which there is no endless descent; and no step of
    any thread ever takes it further away, however many requests and replies are under way. *)
Theorem stop_ends_server n l : l_reachable t n l -> n + 2 < 2 ^ 64 -> error_ l = None -> stopped l = true -> phase_ l <> Starting ->
  ((exists result, phase_ l = Done result) \/ exists k l', l_step t k l l' /\ nearer t l' l) /\
  well_founded (nearer t) /\ forall k l', l_step t k l l' -> no_further t l' l.
Proof.
  intros Hl Hn He Hs Hp. pose proof (l_reachable_inv t (some_worker t threads) n l Hl) as V. split; [|split; [apply nearer_wf|intros k l'; by apply l_step_no_further]].
  destruct (stopped_moves n l Hl Hn He Hs Hp) as [?|(k & l' & H1 & H2 & _)]; [by left|right]. by exists k, l'.
Qed.
End Stop.
