(* ===== verification/TcpServerReplies.v ===== *)
(** A [TcpServer] with the handler behind it: the workers hand batches of inputs to a handler with a state of
    its own.  Whatever the interleaving, a reply accepted on a connection is one the handler gave
    for that very input. *)
From S2P Require Import Prelude Buffer EventLoop TcpServer TcpServerInv TcpServerWalk TcpServerCorrectness.
Import EventLoop TcpServer.

(** * What every callback keeps *)

Section Keeps.
Context (srv : server) (Q : bytes -> Reply -> Prop).

(** A reply on its way back, and a reply accepted. *)
Definition carried (t : task) : Prop := match t with TReply _ _ _ r b => close r = false -> Q b r | _ => True end.
Definition accepted (a : bytes * Reply) : Prop := Q a.1 a.2 /\ close a.2 = false /\ (framed srv = true -> consumed a.2 = zlen a.1).

Definition mild (l : loop task callback) : Prop := Forall carried (tasks_ l) /\ Forall (fun t => carried t.2.2) (timers_ l).
Definition traced (ps : gmap Z Peer) : Prop := map_Forall (fun _ p => Forall accepted (answers p)) ps.
Definition replies_ok (s : io) : Prop := mild (io_loop s) /\ traced (peers s).

Lemma mild_calm l l' : calm l l' -> mild l -> mild l'.
Proof.
  intros [_ (more & E & Hp) Ht] [H1 H2]. split.
  - rewrite E. apply Forall_app. split; [done|]. eapply Forall_impl; [exact Hp|]. by intros [].
  - eapply Forall_impl; [exact Ht|]. intros t [Hin|Hi]; [by eapply Forall_forall in H2|]. unfold idle in Hi. by destruct (t.2.2).
Qed.
Lemma mild_Post t l : carried t -> mild l -> mild (Post t l).1.
Proof. intros Ht [H1 H2]. split; [|done]. cbn. apply Forall_app. split; [done|by apply Forall_singleton]. Qed.

#[export] Instance replies_walks : Walks srv replies_ok (fun _ p => Forall accepted (answers p)).
Proof.
  constructor.
  - intros s t p [_ H] Hp. by apply (H t p).
  - by intros t p p' ->.
  - intros s t p H [Hl Hp]. split; [done|]. by apply map_Forall_insert_2.
  - intros s t [Hl Hp]. split; [done|]. by apply map_Forall_delete.
  - intros s l Hc [Hl Hp]. split; [by eapply mild_calm|done].
  - done.
  - done.
Qed.

Lemma traces_exec e t : task_ok srv t -> carried t -> keeps replies_ok (exec srv e t).
Proof.
  intros Hok Ht. apply walk_exec. destruct t as [t|t size fr r b|fd arr|t| |]; try done.
  - destruct Hok as (-> & -> & _). intros p Hp Hc Hf. cbn [answered answers]. apply Forall_app. split; [done|]. apply Forall_singleton. split; [by apply Ht|done].
  - intros s [[H1 H2] H3]. split; [|done]. split; [|done]. apply Forall_app. split; [done|by apply Forall_singleton].
Qed.
End Keeps.

(** * The threads together *)

Section World.
Context (srv : server) (cfg : config_ok srv) (Q : bytes -> Reply -> Prop).

Definition world_replies (w : world) : Prop := forall i l ps, w_ios w !! i = Some (l, ps) -> mild Q l /\ traced srv Q ps.

Lemma replies_post i t w : carried Q t -> world_replies w -> world_replies (post_to i t w).
Proof.
  intros Ht Hw j l ps [(-> & l0 & Hl & ->)|[_ Hl]]%post_lookup; [|by eapply Hw]. destruct (Hw _ _ _ Hl). split; [by apply mild_Post|done].
Qed.
Lemma replies_posts xs : forall w, Forall (fun x => carried Q x.2) xs -> world_replies w -> world_replies (fold_left (fun w x => post_to x.1 x.2 w) xs w).
Proof.
  induction xs as [|x xs IH]; intros w Hx Hw; [done|]. apply Forall_cons in Hx as [Hx Hxs]. apply IH; [done|]. by apply replies_post.
Qed.
Lemma replies_leave i l ps s w m : world_replies w -> w_ios w !! i = Some (l, ps) -> mild Q m -> (replies_ok srv Q (mkIo i m ps (w_rt w)) -> replies_ok srv Q s) -> world_replies (leave i s w).
Proof.
  intros Hw Hi Hm Hs. destruct (Hw _ _ _ Hi) as [_ Hp]. destruct (Hs (conj Hm Hp)) as [Hm' Hp']. intros j l' ps' Hj. cbn [leave w_ios] in Hj. destruct (decide (j = i)) as [->|Hne].
  - rewrite list_lookup_insert_eq in Hj by (by eapply lookup_lt_Some). by injection Hj as <- <-.
  - rewrite list_lookup_insert_ne in Hj by done. by eapply Hw.
Qed.
Lemma replies_accept turns rs : forall w, world_replies w -> world_replies (accept_ready srv turns rs w).
Proof.
  revert turns. induction rs as [|[fd arr| |] rs IH]; intros [|turns] w Hw; cbn [accept_ready]; try done; apply IH; try done. unfold admit_one.
  destruct (_ <=? _); [done|]. by apply replies_post.
Qed.
(** A reply that [finish_batch] passes on without closing is the handler's. *)
Lemma replies_of_batch batch handled rs errors k j r : batch_replies batch handled = (rs, errors) ->
  (forall rs, handled = Ret rs -> length rs = length batch -> forall k j r, batch !! k = Some j -> rs !! k = Some r -> close r = false -> Q (j_input j) r) ->
  batch !! k = Some j -> rs !! k = Some r -> close r = false -> Q (j_input j) r.
Proof.
  intros E HQ Hj Hr Hc. unfold batch_replies in E. destruct handled as [rs'|x| |]; [case_bool_decide as Hl; injection E as <- _; [by eapply HQ|]|injection E as <- _..].
  all: by apply lookup_replicate in Hr as [-> _].
Qed.
Lemma replies_finish batch handled us w : world_replies w ->
  (forall rs, handled = Ret rs -> length rs = length batch -> forall k j r, batch !! k = Some j -> rs !! k = Some r -> close r = false -> Q (j_input j) r) ->
  world_replies (finish_batch batch handled us w).
Proof.
  intros Hw HQ. unfold finish_batch. destruct (batch_replies batch handled) as [rs errors] eqn:E. apply replies_posts; [|done]. apply Forall_fmap, Forall_lookup. intros k [j r] Hk.
  apply lookup_zip_Some in Hk as [Hj Hr]. cbn. intros Hc. by eapply replies_of_batch.
Qed.
Lemma finish_shrinks (w : world) a batch b handled us : w_batches w = a ++ batch :: b ->
  ~ (length (w_batches w) <= length (w_batches (finish_batch batch handled us (mkWorld (w_rt w) (w_ios w) (a ++ b) (w_next w)))))%nat.
Proof.
  intros Hb. unfold finish_batch. destruct (batch_replies _ _) as [rs errors].
  assert (forall xs w0, w_batches (fold_left (fun w x => post_to x.1 x.2 w) xs w0) = w_batches w0) as Hf by (induction xs as [|y xs IH]; intros w0; [done|]; cbn [fold_left]; by rewrite IH).
  rewrite Hf, Hb. cbn. rewrite !length_app. cbn. lia.
Qed.

Lemma pop_mild t ts l : tasks_ l = t :: ts -> mild Q l -> mild Q (pop_task l) /\ carried Q t.
Proof. intros Ht [H1 H2]. rewrite Ht, Forall_cons in H1. destruct H1 as [H0 H1]. split; [|done]. split; [|done]. cbn. by rewrite Ht. Qed.
Lemma pop_timer_mild t ts l : EventLoop.Inv l -> timers_ l = t :: ts -> mild Q l -> mild Q (pop_timer t l).1 /\ carried Q t.2.2.
Proof.
  intros Hi Ht [H1 H2]. destruct (pop_spec t ts l Hi Ht) as (_ & _ & Ht' & _). rewrite Ht, Forall_cons in H2. destruct H2 as [H0 H2]. split; [|done]. split; [|by rewrite Ht'].
  unfold pop_timer. by destruct t as [? [? ?]].
Qed.

(** A step that completes no batch. *)
Lemma replies_step n k w w' : world_inv srv n w -> world_replies w -> step srv k w w' -> (length (w_batches w) <= length (w_batches w'))%nat -> world_replies w'.
Proof.
  intros W Hw H Hlen. destruct H as [w i e l ps t ts s Hi Ht Hx|w i e l ps token x ev s Hi Hk Hx|w i e l ps t ts s Hi Ht Hx|w r batch _ _|w a batch b handled us Hb _|w rs|w|w i]; try done.
  - destruct (Hw _ _ _ Hi) as [Hm _]. destruct (pop_mild _ _ _ Ht Hm) as [Hm' Hc]. eapply (replies_leave i l ps s w (pop_task l)); [done..|].
    destruct (enter_task srv n w i l ps t ts W Hi Ht) as [_ Hok]. intros H. apply (traces_exec srv Q e t Hok Hc) in H. by rewrite Hx in H.
  - destruct (Hw _ _ _ Hi) as [Hm _]. eapply (replies_leave i l ps s w l); [done..|]. intros H. apply (walk_notify (J := replies_ok srv Q) e (w_callback x) ev) in H. by rewrite Hx in H.
  - destruct (Hw _ _ _ Hi) as [Hm _]. pose proof (pa_loop _ _ _ _ _ (wi_ios _ _ _ W i l ps Hi)) as HL. destruct (pop_timer_mild _ _ _ HL Ht Hm) as [Hm' Hc].
    eapply (replies_leave i l ps s w (pop_timer t l).1); [done..|]. destruct (enter_timer srv n w i l ps t ts W Hi Ht) as [_ Hid].
    intros H. apply (traces_exec srv Q e t.2.2) in H; [by rewrite Hx in H| |done]. unfold idle in Hid. by destruct (t.2.2).
  - exfalso. by eapply finish_shrinks.
  - by apply replies_accept.
  - by apply replies_post.
Qed.
End World.

(** * With a handler *)

(** What a handler with state [St] may do with the inputs of a batch: its next state and what it returns. *)
Abbreviation handler St := (St -> list bytes -> St -> outcome (list Reply) -> Prop).

(** A handler that keeps [I] and whose replies are related to their inputs by [Q], which only grows. *)
Class Handles {St} (handle : handler St) (I : St -> Prop) (Q : St -> bytes -> Reply -> Prop) := {
  handles_inv h ins h' r : I h -> handle h ins h' r -> I h';
  handles_mono h ins h' r b x : I h -> handle h ins h' r -> Q h b x -> Q h' b x;
  handles_reply h ins h' rs k b x : I h -> handle h ins h' (Ret rs) -> length rs = length ins ->
    ins !! k = Some b -> rs !! k = Some x -> close x = false -> Q h' b x
}.

Record system {St} := mkSystem { sy_handler : St; sy_world : world }.
Arguments system : clear implicits.

Section System.
Context (srv : server) {St : Type} (handle : handler St).

(** A step of the server that completes no batch; or a worker completes one with what the handler returned
    or threw for its inputs. *)
Inductive sys_step : Z -> system St -> system St -> Prop :=
| sys_network k h w w' : step srv k w w' -> (length (w_batches w) <= length (w_batches w'))%nat -> sys_step k (mkSystem St h w) (mkSystem St h w')
| sys_handle h h' w a batch b handled us : w_batches w = a ++ batch :: b -> handle h (j_input <$> batch) h' handled ->
    match handled with Ret rs => Forall (fun r => 0 <= consumed r) rs | Throw _ => True | _ => False end ->
    sys_step 0 (mkSystem St h w) (mkSystem St h' (finish_batch batch handled us (mkWorld (w_rt w) (w_ios w) (a ++ b) (w_next w)))).

Inductive sys_reachable (h0 : St) (ios : nat) : Z -> system St -> Prop :=
| sys_start : sys_reachable h0 ios 1 (mkSystem St h0 (start_world ios))
| sys_more n k y y' : sys_reachable h0 ios n y -> sys_step k y y' -> sys_reachable h0 ios (n + k) y'.

(** The connection [p] of a reachable system. *)
Definition serving (y : system St) (p : Peer) : Prop := exists i l ps token, w_ios (sy_world y) !! i = Some (l, ps) /\ ps !! token = Some p.

Context (cfg : config_ok srv) {I : St -> Prop} {Q : St -> bytes -> Reply -> Prop} {handles : Handles handle I Q}.

Lemma replies_mono (P P' : bytes -> Reply -> Prop) w : (forall b x, P b x -> P' b x) -> world_replies srv P w -> world_replies srv P' w.
Proof.
  intros H Hw i l ps Hi. destruct (Hw i l ps Hi) as [[H1 H2] H3]. assert (forall t, carried P t -> carried P' t) as Ht by (intros []; cbn; auto).
  split; [split; [by eapply Forall_impl|eapply Forall_impl; [exact H2|]; auto]|]. eapply map_Forall_impl; [exact H3|]. intros tk p Hp. eapply Forall_impl; [exact Hp|].
  intros a (? & ? & ?). split; [auto|done].
Qed.

Lemma sys_reachable_inv h0 ios n y : sys_reachable h0 ios n y -> I h0 -> (0 < ios)%nat -> n < 2 ^ 64 ->
  reachable srv ios n (sy_world y) /\ I (sy_handler y) /\ world_replies srv (Q (sy_handler y)) (sy_world y).
Proof.
  intros H HI Hios. induction H as [|n k y y' Hr IH Hs]; intros Hn.
  - split; [constructor|]. split; [done|]. intros i l ps [Hi _]%lookup_replicate. injection Hi as -> ->. split; [by split|apply map_Forall_empty].
  - assert (0 <= k) as Hk by (destruct Hs as [k h w w' Hst _|]; [by eapply step_nonneg|done]). destruct IH as (Hw & Hh & Hq); [lia|].
    destruct (reachable_inv srv cfg ios n _ Hw Hios ltac:(lia)) as [W _]. destruct Hs as [k h w w' Hst Hl|h h' w a batch b handled us Hb Hx Hret]; cbn [sy_world sy_handler] in *.
    + split; [by eapply reach_step|]. split; [done|]. by eapply replies_step.
    + split; [|split; [by eapply handles_inv|]].
      * eapply reach_step; [exact Hw|]. eapply step_finish; [done|]. intros rs ->. done.
      * apply (replies_mono (Q h)) with (P' := Q h') in Hq; [|intros; by eapply handles_mono]. apply replies_finish; [done|].
        intros rs -> Hl j x r Hj Hr' Hc. eapply (handles_reply h (j_input <$> batch) h' rs j); try done; [by rewrite length_fmap|by rewrite list_lookup_fmap, Hj].
Qed.

(** The bytes of a framed connection: whole requests came in, and replies of the handler to them go out. *)
Lemma connection_replies h0 ios n y p : sys_reachable h0 ios n y -> I h0 -> (0 < ios)%nat -> n < 2 ^ 64 -> is_Some (sizer_ srv) -> serving y p ->
  concat (frames p) `prefix_of` stream p /\ Forall (delimited srv) (frames p) /\ wire p `prefix_of` concat ((fun a => r_bytes a.2) <$> answers p) /\
  (answers p).*1 ⊆+ frames p /\ (limit srv = 1 -> (answers p).*1 `prefix_of` frames p) /\
  Forall (fun a => Q (sy_handler y) a.1 a.2 /\ close a.2 = false /\ consumed a.2 = zlen a.1) (answers p).
Proof.
  intros Hy HI Hios Hn Hf (i & l & ps & token & Hi & Hp). destruct (sys_reachable_inv _ _ _ _ Hy HI Hios Hn) as (Hw & _ & Hq).
  pose proof (reachable_peer srv cfg ios n _ i l ps token p Hw Hios Hn Hi Hp) as P. destruct (Hq i l ps Hi) as [_ Ht]. specialize (Ht token p Hp). cbn in Ht.
  assert (framed srv = true) as Hfr by (unfold framed; by apply bool_decide_eq_true_2). split_and!.
  - rewrite (pi_stream _ _ _ P Hfr). by eexists.
  - apply P.
  - rewrite <-(pi_wire _ _ _ P). by eexists.
  - rewrite (pi_frames _ _ _ P). apply submseteq_inserts_r. done.
  - intros Hl. rewrite (pi_order _ _ _ P Hl). by eexists.
  - eapply Forall_impl; [exact Ht|]. intros a (? & ? & Hc). split; [done|]. split; [done|]. by apply Hc.
Qed.
End System.
