(* ===== verification/TcpServerOrder.v ===== *)
(** Replies in real time: on a connection served one request at a time, the reply to a request that had not been
    received at some moment is one the handler gave after that moment. *)
From S2P Require Import Prelude Buffer EventLoop TcpServer TcpServerInv TcpServerWalk TcpServerCorrectness TcpServerLifecycle TcpServerShutdown TcpServerReplies.
Import EventLoop TcpServer.

(** * What a callback does to the answers *)

Definition answers_of (ps : gmap Z Peer) (token : Z) : list (bytes * Reply) := match ps !! token with Some p => answers p | None => [] end.

(** The answers are those of [A], on connections in [D]. *)
Record steady (l0 : loop task callback) (A : Z -> list (bytes * Reply)) (D : Z -> Prop) (s : io) : Prop := {
  sd_calm : calm l0 (io_loop s);
  sd_answers : forall token p, peers s !! token = Some p -> answers p = A token /\ D token
}.
#[export] Instance steady_walks srv l0 A D : Walks srv (steady l0 A D) (fun token p => answers p = A token /\ D token).
Proof.
  constructor.
  - intros s t p [] Hp. by eauto.
  - by intros t p p' -> H.
  - intros s t p Ht []. constructor; [done|]. intros k q. cbn [peers]. intros [[<- <-]|[_ Hk]]%lookup_insert_Some; auto.
  - intros s t []. constructor; [done|]. intros k q. cbn [peers]. intros [_ Hk]%lookup_delete_Some; auto.
  - intros s l Hc []. constructor; [by eapply calm_trans|done].
  - by intros s r _ _ [].
  - by intros s j r _ [].
Qed.
Lemma steady_start i l ps rt (D : Z -> Prop) : (forall token, is_Some (ps !! token) -> D token) -> steady l (answers_of ps) D (mkIo i l ps rt).
Proof. intros H. constructor; [by apply calm_same|]. cbn. intros t p Hp. unfold answers_of. rewrite Hp. split; [done|]. apply H. by eexists. Qed.

(** The task [x] may have added its reply to the answers of its connection; a new connection has the next token. *)
Definition grows (next : Z) (x : task) (ps ps' : gmap Z Peer) : Prop :=
  forall token p', ps' !! token = Some p' -> (is_Some (ps !! token) \/ token = next) /\
    (answers p' = answers_of ps token \/ exists size fr r b, x = TReply token size fr r b /\ is_Some (ps !! token) /\ close r = false /\ answers p' = answers_of ps token ++ [(b, r)]).
(** No reply was added to the tasks. *)
Definition fewer (ts ts' : list task) : Prop := forall y, is_Some (reply_of y) -> y ∈ ts' -> y ∈ ts.
Lemma calm_fewer l l' : calm l l' -> fewer (tasks_ l) (tasks_ l').
Proof. intros [_ (more & -> & Hm) _] y Hy. rewrite elem_of_app. intros [?|Hin]; [done|]. eapply Forall_forall in Hm; [|exact Hin]. destruct Hy as [? Hy]. by destruct y. Qed.

Section Callbacks.
Context (srv : server).

Definition old_or_next (l : loop task callback) (ps : gmap Z Peer) (token : Z) : Prop := is_Some (ps !! token) \/ token = next_ l.
Lemma steady_grows l ps s x : steady l (answers_of ps) (old_or_next l ps) s -> grows (next_ l) x ps (peers s) /\ fewer (tasks_ l) (tasks_ (io_loop s)).
Proof. intros [Hc Ha]. split; [|by apply calm_fewer]. intros token p' Hp. destruct (Ha token p' Hp). auto. Qed.

Lemma notify_grows e token ev i l ps rt s : notify srv e token ev (mkIo i l ps rt) = (s, Ret tt) -> grows (next_ l) TNothing ps (peers s) /\ fewer (tasks_ l) (tasks_ (io_loop s)).
Proof.
  intros E. apply steady_grows. assert (steady l (answers_of ps) (old_or_next l ps) (mkIo i l ps rt)) as H by (apply steady_start; by left).
  apply (walk_notify (srv := srv) e token ev) in H. by rewrite E in H.
Qed.
Lemma exec_grows e x i l ps rt s : ps !! next_ l = None -> exec srv e x (mkIo i l ps rt) = (s, Ret tt) -> grows (next_ l) x ps (peers s) /\ fewer (tasks_ l) (tasks_ (io_loop s)).
Proof.
  intros Hn E. assert (steady l (answers_of ps) (old_or_next l ps) (mkIo i l ps rt)) as H by (apply steady_start; by left).
  assert (keeps (steady l (answers_of ps) (old_or_next l ps)) (exec srv e x) -> grows (next_ l) x ps (peers s) /\ fewer (tasks_ l) (tasks_ (io_loop s))) as Hk.
  { intros Hk. apply steady_grows. specialize (Hk _ H). by rewrite E in Hk. }
  destruct x as [t|t size fr r b|fd arr|t| |]; try (apply Hk; by apply (walk_exec (srv := srv))).
  - cbn [exec] in E. set (A := answers_of ps) in *. set (here := fun k => is_Some (ps !! k)).
    pose proof (walk_on_reply_then (srv := srv) (J := steady l A here) (J' := steady l (fun k => if decide (k = t) then A k ++ [(b, r)] else A k) (fun k => here k /\ close r = false)) e t size fr r b (mkIo i l ps rt)) as HR.
    rewrite E in HR. destruct HR as [[Hc Ha]|[Hc Ha]].
    + intros s0 p p' [Hc0 Ha0] Hp Hcl Hp'. constructor; [done|]. cbn [peers]. intros k q. destruct (Ha0 t p Hp) as [E1 E2].
      intros [[<- <-]|[Hne Hk']]%lookup_insert_Some; [rewrite decide_True by done; split; [congruence|done]|]. destruct (Ha0 k q Hk'). by rewrite decide_False by done.
    + by apply steady_start.
    + split; [|by apply calm_fewer]. intros k q Hq. destruct (Ha k q Hq). auto.
    + split; [|by apply calm_fewer]. intros k q Hq. destruct (Ha k q Hq) as [E1 [E2 E3]]. split; [by left|]. destruct (decide (k = t)) as [->|]; [right|by left]. by exists size, fr, r, b.
  - cbn [exec] in E. apply steady_grows. pose proof (walk_Attach_at (srv := srv) (ctl_ok e) (now e) fd arr (mkIo i l ps rt) H) as HA. rewrite E in HA. apply HA. split; [|by right].
    unfold answers_of. cbn [io_loop]. by rewrite Hn.
  - destruct (exec_close_all (Lifecycle.mkTcp srv true) e i l ps rt s (Ret tt) E I) as (-> & _ & _ & _ & (more & -> & Hm) & _). split; [intros k q Hq; by rewrite lookup_empty in Hq|].
    intros y [z Hy]. rewrite !elem_of_app, list_elem_of_singleton. intros [?|[Hin| ->]]; [done| |done]. eapply Forall_forall in Hm; [|exact Hin]. by destruct y.
Qed.
End Callbacks.

(** * Since a moment *)

Section Since.
Context (srv : server) (cfg : config_ok srv) (one : limit srv = 1).

Definition peer_at (w : world) (i : nat) (token : Z) : option Peer := x ← w_ios w !! i ; x.2 !! token.
(** How many requests of a connection had been received in [w]. *)
Definition base (w : world) (i : nat) (token : Z) : nat := match peer_at w i token with Some p => length (frames p) | None => O end.

(** The answers to requests received after [w1] are related by [Q], and so are the replies on their way to them. *)
Record recent (Q : bytes -> Reply -> Prop) (w1 w : world) : Prop := {
  rc_answers i l ps token p k a : w_ios w !! i = Some (l, ps) -> ps !! token = Some p -> (base w1 i token <= k)%nat -> answers p !! k = Some a -> Q a.1 a.2;
  rc_replies i l ps token size fr r b p : w_ios w !! i = Some (l, ps) -> TReply token size fr r b ∈ tasks_ l -> ps !! token = Some p -> close r = false ->
    Q b r \/ (length (frames p) <= base w1 i token)%nat
}.

(** A connection with a reply on its way has exactly that request outstanding. *)
Lemma replies_elem ts token size fr r b : TReply token size fr r b ∈ ts -> (token, b) ∈ replies_in ts.
Proof. intros H. apply list_elem_of_omap. by exists (TReply token size fr r b). Qed.
Lemma inputs_elem token b infl : (token, b) ∈ infl -> b ∈ inputs_of token infl.
Proof. intros H. apply list_elem_of_fmap. exists (token, b). split; [done|]. by apply list_elem_of_filter. Qed.
Lemma one_outstanding n w i l ps token size fr r b p : world_inv srv n w -> w_ios w !! i = Some (l, ps) -> TReply token size fr r b ∈ tasks_ l -> ps !! token = Some p ->
  length (frames p) = S (length (answers p)) /\ zlen (outstanding w i l token) = 1 /\ token < next_ l.
Proof.
  intros W Hi Ht Hp. destruct (pa_peers _ _ _ _ _ (wi_ios _ _ _ W i l ps Hi)) as [P F]. destruct (P token p Hp) as [Htk Hpi]. fold (outstanding w i l token) in Hpi.
  assert (b ∈ outstanding w i l token) as Hin by (apply inputs_elem, elem_of_app; right; apply elem_of_app; left; by eapply replies_elem).
  pose proof (pi_order _ _ _ Hpi one) as Ho. pose proof (pi_limit _ _ _ Hpi) as Hl. rewrite one in Hl. destruct (outstanding w i l token) as [|x [|y xs]]; [by apply elem_of_nil in Hin| |].
  - apply (f_equal length) in Ho. rewrite length_app, length_fmap in Ho. cbn in Ho. split; [lia|]. split; [done|]. destruct Htk. lia.
  - rewrite !zlen_cons in Hl. pose proof (zlen_nonneg xs). lia.
Qed.
Lemma token_known n w i l ps token size fr r b : world_inv srv n w -> w_ios w !! i = Some (l, ps) -> TReply token size fr r b ∈ tasks_ l -> token < next_ l.
Proof.
  intros W Hi Ht. destruct (pa_peers _ _ _ _ _ (wi_ios _ _ _ W i l ps Hi)) as [_ F]. apply (proj1 (Forall_forall _ _) F (token, b)).
  apply elem_of_app. right. apply elem_of_app. left. by eapply replies_elem.
Qed.
Lemma next_free n w i l ps : world_inv srv n w -> w_ios w !! i = Some (l, ps) -> ps !! next_ l = None.
Proof. intros W Hi. destruct (pa_peers _ _ _ _ _ (wi_ios _ _ _ W i l ps Hi)) as [P _]. apply eq_None_not_Some. intros [p Hp]. destruct (P _ p Hp) as [? _]. lia. Qed.

(** A callback of reactor [i] that ran the task [x], or none. *)
Lemma recent_callback Q n n' w1 w i l ps s x ts : world_inv srv n w -> world_inv srv n' (leave i s w) -> recent Q w1 w -> w_ios w !! i = Some (l, ps) ->
  (tasks_ l = x :: ts \/ reply_of x = None /\ ts = tasks_ l) -> grows (next_ l) x ps (peers s) -> fewer ts (tasks_ (io_loop s)) -> recent Q w1 (leave i s w).
Proof.
  intros W W' [Ra Rr] Hi Hx Hg Hf. assert (forall y, y ∈ ts -> y ∈ tasks_ l) as Hts by (intros y Hy; destruct Hx as [->|[_ <-]]; [by right|done]).
  assert (w_ios (leave i s w) !! i = Some (io_loop s, peers s)) as Hi' by (cbn; apply list_lookup_insert_eq; by eapply lookup_lt_Some).
  assert (forall j, j <> i -> w_ios (leave i s w) !! j = w_ios w !! j) as Hj by (intros j Hne; cbn; by rewrite list_lookup_insert_ne).
  split.
  - intros j lj psj token p k a. destruct (decide (j = i)) as [->|Hne]; [|rewrite Hj by done; by eapply Ra]. rewrite Hi'. intros [= <- <-] Hp Hk Ha.
    destruct (Hg token p Hp) as [_ [E|(size & fr & r & b & -> & [p0 Hp0] & Hcl & E)]]; rewrite E in Ha.
    { unfold answers_of in Ha. destruct (ps !! token) as [p0|] eqn:Hp0; [by eapply Ra|done]. }
    destruct Hx as [Hx|[Hx _]]; [|done]. unfold answers_of in Ha. rewrite Hp0 in Ha. apply lookup_app_Some in Ha as [Ha|[Hge Ha]]; [by eapply Ra|].
    apply list_lookup_singleton_Some in Ha as [Hk0 <-]. cbn. assert (TReply token size fr r b ∈ tasks_ l) as Hin by (rewrite Hx; by left).
    destruct (Rr i l ps token size fr r b p0 Hi Hin Hp0 Hcl) as [?|Hle]; [done|]. destruct (one_outstanding _ _ _ _ _ _ _ _ _ _ _ W Hi Hin Hp0) as (Hlen & _). lia.
  - intros j lj psj token size fr r b p. destruct (decide (j = i)) as [->|Hne]; [|rewrite Hj by done; by eapply Rr]. rewrite Hi'. intros [= <- <-] Ht Hp Hcl.
    destruct (one_outstanding _ _ _ _ _ _ _ _ _ _ _ W' Hi' Ht Hp) as (Hlen & _). assert (TReply token size fr r b ∈ ts) as Hold by (apply Hf; [by eexists|done]). pose proof (Hts _ Hold) as Hold'.
    pose proof (token_known _ _ _ _ _ _ _ _ _ _ W Hi Hold') as Htk. destruct (Hg token p Hp) as [[[p0 Hp0]|Hnew] Hans]; [|lia].
    destruct (one_outstanding _ _ _ _ _ _ _ _ _ _ _ W Hi Hold' Hp0) as (Hlen0 & Hone & _). destruct (Rr i l ps token size fr r b p0 Hi Hold' Hp0 Hcl) as [?|Hle]; [by left|right].
    destruct Hans as [E|(size' & fr' & r' & b' & -> & _)]; [unfold answers_of in E; rewrite Hp0 in E; rewrite Hlen, E; lia|]. exfalso. destruct Hx as [Hx|[Hx _]]; [|done].
    apply replies_elem in Hold. unfold outstanding, inputs_of in Hone. rewrite Hx in Hone. unfold replies_in in Hone. cbn [omap list_omap reply_of] in Hone.
    rewrite !filter_app, filter_cons_True, !fmap_app, fmap_cons, !zlen_app, zlen_cons in Hone by done.
    assert (0 < zlen ((snd <$> filter (fun x : Z * bytes => x.1 = token) (replies_in ts)))) as Hpos.
    { apply nonempty_zlen. intros En. apply inputs_elem in Hold. unfold inputs_of in Hold. rewrite En in Hold. by apply elem_of_nil in Hold. }
    unfold replies_in in Hpos. repeat match goal with H : context [zlen ?z] |- _ => lazymatch goal with _ : 0 <= zlen z |- _ => fail | _ => pose proof (zlen_nonneg z) end end. lia.
Qed.

(** ** The other threads *)

Lemma recent_post Q w1 w i t : (forall token size fr r b, t = TReply token size fr r b -> close r = false -> Q b r) -> recent Q w1 w -> recent Q w1 (post_to i t w).
Proof.
  intros Ht [Ra Rr]. split.
  - intros j l ps token p k a [(-> & l0 & Hl & ->)|[_ Hl]]%post_lookup; by eapply Ra.
  - intros j l ps token size fr r b p [(-> & l0 & Hl & ->)|[_ Hl]]%post_lookup; [|by eapply Rr]. cbn. rewrite elem_of_app, list_elem_of_singleton. intros [Hin|E] Hp Hc; [by eapply Rr|]. left. by eapply Ht.
Qed.
Lemma recent_posts Q w1 es : forall w, Forall (fun e => forall token size fr r b, e.2 = TReply token size fr r b -> close r = false -> Q b r) es -> recent Q w1 w ->
  recent Q w1 (fold_left (fun w (e : nat * task) => post_to e.1 e.2 w) es w).
Proof. induction es as [|e es IH]; intros w He Hw; [done|]. apply Forall_cons in He as [H1 He]. apply IH; [done|]. by apply recent_post. Qed.
(** Only the reactors and their peers matter. *)
Lemma recent_ios Q w1 w w' : w_ios w' = w_ios w -> recent Q w1 w -> recent Q w1 w'.
Proof. intros E [Ra Rr]. split; rewrite E; done. Qed.
Lemma recent_accept Q w1 rs : forall turns w, recent Q w1 w -> recent Q w1 (accept_ready srv turns rs w).
Proof.
  induction rs as [|[fd arr| |] rs IH]; intros [|turns] w Hw; cbn [accept_ready]; try done; apply IH; try done. unfold admit_one. destruct (_ <=? _); [by apply (recent_ios Q w1 w)|].
  cbv zeta. apply recent_post; [done|]. by apply (recent_ios Q w1 w).
Qed.
Lemma recent_finish Q w1 batch handled us w : recent Q w1 w ->
  (forall rs, handled = Ret rs -> length rs = length batch -> forall k j r, batch !! k = Some j -> rs !! k = Some r -> close r = false -> Q (j_input j) r) ->
  recent Q w1 (finish_batch batch handled us w).
Proof.
  intros Hw HQ. unfold finish_batch. destruct (batch_replies batch handled) as [rs errors] eqn:E. apply recent_posts; [|by apply (recent_ios Q w1 w)]. apply Forall_fmap, Forall_lookup. intros k [j r] Hk.
  apply lookup_zip_Some in Hk as [Hj Hr]. intros token size fr r' b [= <- <- <- <- <-] Hc. by eapply (replies_of_batch Q).
Qed.

(** A step that completes no batch. *)
Lemma recent_step Q n k w1 w w' : world_inv srv n w -> world_inv srv (n + k) w' -> recent Q w1 w -> step srv k w w' -> (length (w_batches w) <= length (w_batches w'))%nat -> recent Q w1 w'.
Proof.
  intros W W' Hw H Hlen. destruct H as [w i e l ps t ts s Hi Ht Hx|w i e l ps token x ev s Hi Hk Hx|w i e l ps t ts s Hi Ht Hx|w r batch _ _|w a batch b handled us Hb _|w rs|w|w i].
  - destruct (exec_grows srv e t i (pop_task l) ps (w_rt w) s) as [Hg Hf]; [by eapply (next_free n w i l)|done|]. eapply (recent_callback Q n _ w1 w i l ps s t ts); try done; [by left|].
    cbn [pop_task tasks_] in Hf. by rewrite Ht in Hf.
  - destruct (notify_grows srv e (w_callback x) ev i l ps (w_rt w) s Hx) as [Hg Hf]. by eapply (recent_callback Q n _ w1 w i l ps s TNothing (tasks_ l)); try done; right.
  - destruct (enter_timer srv n w i l ps t ts W Hi Ht) as [_ Hid]. destruct (exec_grows srv e t.2.2 i (pop_timer t l).1 ps (w_rt w) s) as [Hg Hf]; [by eapply (next_free n w i l)|done|].
    eapply (recent_callback Q n _ w1 w i l ps s t.2.2 (tasks_ l)); try done. right. split; [|done]. unfold idle in Hid. by destruct (t.2.2).
  - by apply (recent_ios Q w1 w).
  - exfalso. by eapply finish_shrinks.
  - by apply recent_accept.
  - by apply (recent_ios Q w1 w).
  - by apply recent_post.
Qed.
Lemma recent_refl Q n w : world_inv srv n w -> recent Q w w.
Proof.
  intros W. split.
  - intros i l ps token p k a Hi Hp Hk Ha. exfalso. apply lookup_lt_Some in Ha. destruct (pa_peers _ _ _ _ _ (wi_ios _ _ _ W i l ps Hi)) as [P _]. destruct (P token p Hp) as [_ Hpi].
    pose proof (Permutation_length (pi_frames _ _ _ Hpi)) as E. rewrite length_app, length_fmap in E. unfold base, peer_at in Hk. rewrite Hi in Hk. cbn in Hk. rewrite Hp in Hk. lia.
  - intros i l ps token size fr r b p Hi _ Hp _. right. unfold base, peer_at. rewrite Hi. cbn. by rewrite Hp.
Qed.
Lemma recent_mono (Q Q' : bytes -> Reply -> Prop) w1 w : (forall b x, Q b x -> Q' b x) -> recent Q w1 w -> recent Q' w1 w.
Proof. intros HQ [Ra Rr]. split; [intros; apply HQ; by eapply Ra|]. intros. edestruct Rr as [?|?]; [done..|left; by apply HQ|by right]. Qed.
End Since.

(** * With a handler *)

Section System.
Context (srv : server) {St : Type} (handle : handler St).

(** From [y1] to [y], with the identifiers given out. *)
Inductive since (n1 : Z) (y1 : system St) : Z -> system St -> Prop :=
| since_now : since n1 y1 n1 y1
| since_more n k y y' : since n1 y1 n y -> sys_step srv handle k y y' -> since n1 y1 (n + k) y'.

Lemma since_reachable h0 ios n1 y1 n y : sys_reachable srv handle h0 ios n1 y1 -> since n1 y1 n y -> sys_reachable srv handle h0 ios n y.
Proof. intros H. induction 1; [done|]. by eapply sys_more. Qed.
Lemma sys_step_nonneg k y y' : sys_step srv handle k y y' -> 0 <= k.
Proof. intros [k' h w w' Hst _|]; [by eapply step_nonneg|done]. Qed.
Lemma since_bound n1 y1 n y : since n1 y1 n y -> n1 <= n.
Proof. induction 1 as [|n k y y' _ IH Hs]; [done|]. apply sys_step_nonneg in Hs. lia. Qed.

Context (cfg : config_ok srv) (one : limit srv = 1) {I : St -> Prop} {Q : St -> bytes -> Reply -> Prop} {handles : Handles handle I Q}.

(** The handler promises [Q'] of what it replies from the state of [y1] on. *)
Lemma since_recent {I' : St -> Prop} {Q' : St -> bytes -> Reply -> Prop} {handles' : Handles handle I' Q'} h0 ios n1 y1 n y :
  sys_reachable srv handle h0 ios n1 y1 -> I h0 -> (0 < ios)%nat -> since n1 y1 n y -> n < 2 ^ 64 -> I' (sy_handler y1) ->
  I' (sy_handler y) /\ recent (Q' (sy_handler y)) (sy_world y1) (sy_world y).
Proof.
  intros H1 HI Hios. assert (forall n y, sys_reachable srv handle h0 ios n y -> n < 2 ^ 64 -> world_inv srv n (sy_world y)) as HW.
  { intros m z Hz Hm. destruct (sys_reachable_inv srv handle cfg _ _ _ _ Hz HI Hios Hm) as (Hw & _). by apply (reachable_inv srv cfg ios m). }
  intros H. induction H as [|n k y y' Hs IH Hst]; intros Hn HI1.
  - split; [done|]. by eapply recent_refl, HW.
  - pose proof (sys_step_nonneg _ _ _ Hst) as Hk. destruct IH as [HI' Hr]; [lia|done|]. pose proof (since_reachable _ _ _ _ _ _ H1 Hs) as Hy.
    pose proof (HW _ _ Hy ltac:(lia)) as W. pose proof (HW _ _ (sys_more _ _ _ _ _ _ _ _ Hy Hst) Hn) as W'. destruct Hst as [k h w w' Hstep Hl|h h' w a batch b handled us Hb Hx Hret]; cbn [sy_world sy_handler] in *.
    + split; [done|]. exact (recent_step srv one _ n k _ w w' W W' Hr Hstep Hl).
    + split; [by eapply handles_inv|]. apply recent_finish; [apply (recent_ios _ _ w); [done|]; eapply recent_mono; [|exact Hr]; intros b' x; by eapply handles_mono|].
      intros rs -> Hl j x r Hj Hr' Hc. eapply (handles_reply h (j_input <$> batch) h' rs j); try done; [by rewrite length_fmap|by rewrite list_lookup_fmap, Hj].
Qed.
End System.
