(* ===== verification/ServerRuns.v ===== *)
(** Running a server with one reactor step by step on scripts of system calls, for concrete runs. *)
From S2P Require Import Prelude Buffer EventLoop TcpServer TcpServerInv TcpServerCorrectness TcpServerReplies.
Import EventLoop TcpServer.

Section Runs.
Context (srv : server).

Definition io_of (w : world) : loop task callback * gmap Z Peer := default (new_loop, ∅) (w_ios w !! 0%nat).
Definition task_of (e : io_env) (w : world) : io * outcome unit :=
  exec srv e (hd TNothing (tasks_ (io_of w).1)) (mkIo 0 (pop_task (io_of w).1) (io_of w).2 (w_rt w)).
Definition event_of (e : io_env) (token events : Z) (w : world) : io * outcome unit := notify srv e token events (mkIo 0 (io_of w).1 (io_of w).2 (w_rt w)).

(** After the next task, an event on a descriptor, and a worker taking a batch. *)
Definition after_task (e : io_env) (w : world) : world := leave 0 (task_of e w).1 w.
Definition after_event (e : io_env) (token events : Z) (w : world) : world := leave 0 (event_of e token events w).1 w.
Definition after_take (w : world) : world := mkWorld (take_batch srv (w_rt w)).1 (w_ios w) (w_batches w ++ [(take_batch srv (w_rt w)).2]) (w_next w).

Lemma io_of_lookup w : length (w_ios w) = 1%nat -> w_ios w !! 0%nat = Some ((io_of w).1, (io_of w).2).
Proof. intros H. unfold io_of. destruct (w_ios w) as [|[l ps] [|]]; done. Qed.

Lemma task_run_step e w : length (w_ios w) = 1%nat -> tasks_ (io_of w).1 <> [] -> (task_of e w).2 = Ret tt -> step srv (zlen (sends e) + 2) w (after_task e w).
Proof.
  intros Hl Ht Hr. destruct (tasks_ (io_of w).1) as [|t ts] eqn:E; [done|]. eapply step_task; [by apply io_of_lookup|exact E|]. unfold task_of in *. rewrite E in *. by apply outcome_of.
Qed.
Lemma event_run_step e token events x w : length (w_ios w) = 1%nat -> watches_ (io_of w).1 !! token = Some x -> w_callback x = token -> (event_of e token events w).2 = Ret tt ->
  step srv (zlen (sends e) + 2) w (after_event e token events w).
Proof. intros Hl Hx Hc Hr. eapply step_event; [by apply io_of_lookup|exact Hx|]. rewrite Hc. by apply outcome_of. Qed.
Lemma take_run_step w : jobs (w_rt w) <> [] -> step srv 0 w (after_take w).
Proof. intros Hj. by apply step_take; [|apply surjective_pairing]. Qed.
End Runs.

(** With a handler. *)
Section Systems.
Context (srv : server) {St : Type} (handle : handler St) (h0 : St) (ios : nat).
Abbreviation runs n y := (sys_reachable srv handle h0 ios n y).

Definition on_network (f : world -> world) (y : system St) : system St := mkSystem St (sy_handler y) (f (sy_world y)).
(** The worker with batch [i] completes it. *)
Definition answered_by (i : nat) (h' : St) (handled : outcome (list Reply)) (y : system St) : system St :=
  mkSystem St h' (finish_batch (default [] (w_batches (sy_world y) !! i)) handled 9
    (mkWorld (w_rt (sy_world y)) (w_ios (sy_world y)) (take i (w_batches (sy_world y)) ++ drop (S i) (w_batches (sy_world y))) (w_next (sy_world y)))).

Lemma network_step f k y : step srv k (sy_world y) (f (sy_world y)) -> (length (w_batches (sy_world y)) <= length (w_batches (f (sy_world y))))%nat ->
  sys_step srv handle k y (on_network f y).
Proof. intros Hs Hl. destruct y as [h w]. by apply sys_network. Qed.
Lemma handle_step i h' handled y batch : w_batches (sy_world y) !! i = Some batch -> handle (sy_handler y) (j_input <$> batch) h' handled ->
  match handled with Ret rs => Forall (fun r => 0 <= consumed r) rs | Throw _ => True | _ => False end -> sys_step srv handle 0 y (answered_by i h' handled y).
Proof.
  intros Hb Hx Hr. destruct y as [h w]. unfold answered_by. cbn [sy_world sy_handler] in *. rewrite Hb. cbn [default].
  apply (sys_handle srv handle h h' w (take i (w_batches w)) batch (drop (S i) (w_batches w))); [|done..]. symmetry. by apply take_drop_middle.
Qed.
Lemma runs_network f n k y : runs n y -> step srv k (sy_world y) (f (sy_world y)) -> (length (w_batches (sy_world y)) <= length (w_batches (f (sy_world y))))%nat ->
  runs (n + k) (on_network f y).
Proof. intros Hy Hs Hl. eapply sys_more; [exact Hy|]. by apply network_step. Qed.
Lemma runs_handle i h' handled n y batch : runs n y -> w_batches (sy_world y) !! i = Some batch -> handle (sy_handler y) (j_input <$> batch) h' handled ->
  match handled with Ret rs => Forall (fun r => 0 <= consumed r) rs | Throw _ => True | _ => False end -> runs n (answered_by i h' handled y).
Proof. intros Hy Hb Hx Hr. rewrite <-(Z.add_0_r n). eapply sys_more; [exact Hy|]. by eapply handle_step. Qed.
End Systems.
