(* ===== verification/TcpServerWitnesses.v ===== *)
(** A small server that takes two-byte frames, a run of it from the accept of a connection to the reply,
    and the server theorems applied to that run. *)
From S2P Require Import Prelude Buffer EventLoop TcpServer TcpServerInv TcpServerCorrectness ServerRuns.
Import EventLoop TcpServer.

Definition two_bytes (b : bytes) : outcome Z := Ret (if zlen b <? 2 then 0 else 2).
Definition tiny : server := mkServer 4 100 (mkServerOptions 1 1 8 200 100 1 1000) false (Some two_bytes).

Lemma tiny_ok : config_ok tiny.
Proof.
  unfold config_ok, tiny. cbn. split_and!; try lia. intros f b n [= <-] [= <-]. unfold two_bytes. destruct (_ <? _); lia.
Qed.

(** The peer sends "abc" in one segment and is sent the reply two bytes at a time. *)
Definition quiet_env : io_env := mkIoEnv [] [] true 5.
Definition reading : io_env := mkIoEnv [] [Got 3] true 5.
Definition writing : io_env := mkIoEnv [Took 2 6; SEagain] [] true 6.

Definition accepted : world := accept_ready tiny 128 [Accepted 7 (str "abc")] (start_world 1).
Definition attached : world := after_task tiny quiet_env accepted.
Definition read_once : world := after_event tiny reading 1 EPOLLIN attached.
Definition taken : runtime * list Job := take_batch tiny (w_rt read_once).
Definition working : world := after_take tiny read_once.
Definition replied_world : world :=
  finish_batch taken.2 (Ret [mkReply 2 (str "xyz") false]) 9 (mkWorld (w_rt working) (w_ios working) [] (w_next working)).
Definition delivered : world := after_task tiny writing replied_world.

Lemma delivered_reachable : reachable tiny 1 9 delivered.
Proof.
  assert (reachable tiny 1 1 accepted) as R1 by (apply (reach_step tiny 1 1 0 (start_world 1)); [constructor|apply step_accept]).
  assert (reachable tiny 1 3 attached) as R2.
  { apply (reach_step tiny 1 1 2 accepted _ R1). apply (task_run_step tiny quiet_env); [vm_compute; reflexivity|vm_compute; discriminate|vm_compute; reflexivity]. }
  assert (reachable tiny 1 5 read_once) as R3.
  { apply (reach_step tiny 1 3 2 attached _ R2). by apply (event_run_step tiny reading 1 EPOLLIN (mkWatch 7 1)); vm_compute. }
  assert (reachable tiny 1 5 working) as R4.
  { apply (reach_step tiny 1 5 0 read_once _ R3). apply take_run_step. vm_compute. discriminate. }
  assert (reachable tiny 1 5 replied_world) as R5.
  { apply (reach_step tiny 1 5 0 working _ R4). apply (step_finish tiny working [] taken.2 []); [vm_compute; reflexivity|].
    intros rs [= <-]. repeat constructor. cbn. lia. }
  apply (reach_step tiny 1 5 4 replied_world _ R5).
  change 4 with (zlen (sends writing) + 2). apply (task_run_step tiny writing); [vm_compute; reflexivity|vm_compute; discriminate|vm_compute; reflexivity].
Qed.

Definition the_peer : Peer := default (new_peer 0 []) ((io_of delivered).2 !! 1).

Lemma the_io : w_ios delivered !! 0%nat = Some ((io_of delivered).1, (io_of delivered).2).
Proof. apply io_of_lookup. vm_compute. reflexivity. Qed.
Lemma the_peer_lookup : (io_of delivered).2 !! 1 = Some the_peer.
Proof. vm_compute. reflexivity. Qed.

Lemma server_within_limits_witness : pending the_peer <= 1 /\ zlen (jobs (w_rt delivered)) <= 8.
Proof.
  destruct (server_within_limits tiny tiny_ok 1 9 delivered delivered_reachable) as (H1 & _ & _ & _ & _ & H).
  - lia.
  - lia.
  - destruct (H 0%nat _ _ 1 the_peer the_io the_peer_lookup) as (_ & _ & _ & H2). exact (conj H2 H1).
Defined.

(** "ab" is answered by "xyz", of which two bytes are sent; "c" waits for the rest of its frame. *)
Lemma streams_intact_witness :
  stream the_peer = str "ab" ++ str "c" /\ wire the_peer ++ unsent the_peer = str "xyz".
Proof.
  destruct (streams_intact tiny tiny_ok 1 9 delivered 0 (io_of delivered).1 (io_of delivered).2 1 the_peer delivered_reachable) as (H1 & _ & H2 & _).
  - lia.
  - lia.
  - by eexists.
  - exact the_io.
  - exact the_peer_lookup.
  - rewrite H1, H2. vm_compute. split; reflexivity.
Defined.

Lemma answers_in_order_witness : frames the_peer = [str "ab"] /\ answers the_peer = [(str "ab", mkReply 2 (str "xyz") false)].
Proof.
  destruct (answers_in_order tiny tiny_ok 1 9 delivered 0 (io_of delivered).1 (io_of delivered).2 1 the_peer delivered_reachable) as (H1 & _ & _).
  - lia.
  - lia.
  - reflexivity.
  - exact the_io.
  - exact the_peer_lookup.
  - rewrite H1. vm_compute. split; reflexivity.
Defined.

Lemma callbacks_safe_witness :
  match (notify tiny writing 1 EPOLLOUT (mkIo 0 (io_of delivered).1 (io_of delivered).2 (w_rt delivered))).2 with
  | Ret _ => True | Throw x => x = std_system_error | _ => False end.
Proof.
  destruct (callbacks_safe tiny tiny_ok 1 9 delivered 0 (io_of delivered).1 (io_of delivered).2 writing delivered_reachable) as (_ & H & _).
  - lia.
  - vm_compute. reflexivity.
  - exact the_io.
  - exact (H 1 EPOLLOUT).
Defined.
