(* ===== verification/TcpServerShutdownWitnesses.v ===== *)
(** Playing a server from [start] to the end of [Run] move by move, and the theorems on its shutdown applied
    to a run in which a request is answered and the server is then stopped. *)
From S2P Require Import Prelude Buffer EventLoop TcpServer TcpServerInv TcpServerWalk TcpServerCorrectness TcpServerLifecycle TcpServerShutdown TcpServerProgress TcpServerWitnesses.
Import EventLoop TcpServer Lifecycle.

(** * Moves *)

Inductive move :=
| MStart | MSpawnWorker | MSpawnReactor (i : nat) | MListen (port : Z) | MAccept (rs : list accept_reply) | MAcceptEnd | MJoinWorkers | MJoinReactors
| MTake (i : nat) | MComplete (i : nat) (handled : outcome (list Reply)) (us : Z) | MLeave (i : nat)
| MTask (i : nat) (e : io_env) | MEvent (i : nat) (e : io_env) (token events : Z) | MReturn (i : nat)
| MStopFlag | MStopAccept.

#[local] Instance reactor_eq_dec : EqDecision reactor.
Proof. solve_decision. Defined.
#[local] Instance left_eq_dec x : Decision (Left = x).
Proof. destruct x; [by right|by right|by left]. Defined.

(** Whether what a handler returned consumes sizes. *)
Definition sizes (handled : outcome (list Reply)) : bool := match handled with Ret rs => forallb (fun r => 0 <=? consumed r) rs | _ => true end.

Section Play.
Context (t : tcp).

(** The reactor [i] ran a callback. *)
Definition after (i : nat) (k : Z) (l : life) (x : io * outcome unit) : option (Z * life) :=
  match x.2 with
  | Ret tt => Some (k, with_world (leave i x.1 (world_ l)) l)
  | Throw e => Some (k, reactor_failed i e (with_world (leave i x.1 (world_ l)) l))
  | _ => None
  end.

Definition play (m : move) (l : life) : option (Z * life) :=
  match m, phase_ l with
  | MStart, _ => match start t (runtime_ l) with Ret tt => Some (0, with_phase Building l) | Throw _ => Some (0, l) | _ => None end
  | MSpawnWorker, Building => if decide (length (workers_ l) < thread_count t)%nat then Some (0, spawn_worker l) else None
  | MSpawnReactor i, Building => if decide (length (workers_ l) = thread_count t /\ reactors_ l !! i = Some Unborn) then Some (0, with_reactor i Running l) else None
  | MListen port, Building => if decide (length (workers_ l) = thread_count t /\ Unborn ∉ reactors_ l) then Some (0, listening port l) else None
  | MAccept rs, Serving => Some (0, with_world (accept_ready (members t) 128 rs (world_ l)) l)
  | MAcceptEnd, Serving => if accept_stopping l then Some (0, finish_begin None l) else None
  | MJoinWorkers, JoiningWorkers raised => if decide (Forall (eq Left) (workers_ l)) then Some (0, finish_reactors raised l) else None
  | MJoinReactors, JoiningReactors raised => if decide (Running ∉ reactors_ l) then Some (0, with_phase (Done (result_of raised (error_ l))) l) else None
  | MTake i, _ =>
      match workers_ l !! i, jobs (w_rt (world_ l)) with
      | Some Waiting, _ :: _ =>
          let '(r, batch) := take_batch (members t) (w_rt (world_ l)) in
          Some (0, with_worker i (Busy batch) (with_world (mkWorld r (w_ios (world_ l)) (w_batches (world_ l) ++ [batch]) (w_next (world_ l))) l))
      | _, _ => None
      end
  | MComplete i handled us, _ =>
      (* the only batch under way *)
      match workers_ l !! i, w_batches (world_ l) with
      | Some (Busy _), [batch] => if sizes handled then
          Some (0, with_worker i Waiting (with_world (finish_batch batch handled us (mkWorld (w_rt (world_ l)) (w_ios (world_ l)) [] (w_next (world_ l)))) l)) else None
      | _, _ => None
      end
  | MLeave i, _ =>
      match workers_ l !! i, jobs (w_rt (world_ l)) with
      | Some Waiting, [] => if closing (w_rt (world_ l)) then Some (0, with_worker i Left l) else None
      | _, _ => None
      end
  | MTask i e, _ =>
      match reactors_ l !! i, w_ios (world_ l) !! i with
      | Some Running, Some (lo, ps) =>
          match tasks_ lo with
          | x :: _ => after i (zlen (sends e) + 2) l (exec (members t) e x (mkIo i (pop_task lo) ps (w_rt (world_ l))))
          | [] => None
          end
      | _, _ => None
      end
  | MEvent i e token events, _ =>
      match reactors_ l !! i, w_ios (world_ l) !! i with
      | Some Running, Some (lo, ps) =>
          match watches_ lo !! token with
          | Some x => after i (zlen (sends e) + 2) l (notify (members t) e (w_callback x) events (mkIo i lo ps (w_rt (world_ l))))
          | None => None
          end
      | _, _ => None
      end
  | MReturn i, _ =>
      match reactors_ l !! i, w_ios (world_ l) !! i with
      | Some Running, Some (lo, _) => if stopping_ lo then Some (0, with_reactor i Returned l) else None
      | _, _ => None
      end
  | MStopFlag, _ => Some (0, stop_flag l)
  | MStopAccept, _ => if stopping l then Some (0, stop_accept l) else None
  | _, _ => None
  end.

Lemma after_step i k l x r : reactors_ l !! i = Some Running -> turn t i k (world_ l) x.2 (leave i x.1 (world_ l)) -> after i k l x = Some r -> l_step t r.1 l r.2.
Proof.
  intros Hi Ht. unfold after. destruct x as [s o]. cbn [fst snd] in *. destruct o as [[]|e| |]; intros [= <-]; cbn [fst snd]; [by eapply ls_turn|by eapply ls_turn_failed].
Qed.
Lemma complete_move l i handled us batch0 batch : life_inv l -> workers_ l !! i = Some (Busy batch0) -> w_batches (world_ l) = [batch] -> sizes handled = true ->
  l_step t 0 l (with_worker i Waiting (with_world (finish_batch batch handled us (mkWorld (w_rt (world_ l)) (w_ios (world_ l)) [] (w_next (world_ l)))) l)).
Proof.
  intros V Hi Hb Hs. assert (batch0 ∈ w_batches (world_ l)) as Hin.
  { rewrite (li_batches _ V). apply list_elem_of_omap. exists (Busy batch0). split; [by eapply list_elem_of_lookup_2|done]. }
  rewrite Hb, list_elem_of_singleton in Hin. subst batch0. apply (ls_complete t l i [] batch [] handled us); [done..|].
  intros rs ->. apply Forall_forall. intros r Hr. cbn in Hs. rewrite forallb_forall in Hs. apply list_elem_of_In, Hs in Hr. lia.
Qed.

Lemma play_step m l r : life_inv l -> play m l = Some r -> l_step t r.1 l r.2.
Proof.
  intros V H. unfold play in H. repeat (case_match; try done); simplify_eq; cbn [fst snd]; try (by constructor); try (by eapply after_step; [|eapply turn_task; [..|apply surjective_pairing]|]);
    try (by eapply after_step; [|eapply turn_event; [..|apply surjective_pairing]|]).
  all: repeat match goal with x : () |- _ => destruct x end; simplify_eq; cbn [fst snd]; try done.
  - by eapply ls_refused.
  - destruct_and!. by apply ls_spawn_reactor.
  - destruct_and!. by apply ls_listen.
  - eapply ls_take; [done| |done]. congruence.
  - by eapply complete_move.
  - by eapply ls_return.
Qed.

(** A whole run. *)
Fixpoint plays (ms : list move) (x : Z * life) : option (Z * life) :=
  match ms with [] => Some x | m :: ms => match play m x.2 with Some r => plays ms (x.1 + r.1, r.2) | None => None end end.
Lemma plays_reachable (count : (0 < thread_count t)%nat) ms : forall n l n' l', l_reachable t n l -> plays ms (n, l) = Some (n', l') -> l_reachable t n' l'.
Proof.
  induction ms as [|m ms IH]; intros n l n' l' H; cbn [plays fst snd]; [by intros [= <- <-]|]. destruct (play m l) as [r|] eqn:E; [|done].
  apply IH. apply (l_more t n r.1 l); [done|]. apply (play_step m); [by eapply l_reachable_inv|done].
Qed.
End Play.

(** * A run *)

(** The small server behind a handler: one reactor and one worker. *)
Definition tiny_tcp : tcp := setHandler true (mkTcp tiny false).
Lemma tiny_threads : 0 < io_threads (options_ (members tiny_tcp)) /\ 0 < workers (options_ (members tiny_tcp)).
Proof. done. Qed.

(** A request comes in and is being handled when [stop] is called; it is answered, and its connection is still
    open when the reactor is told to close. *)
Definition up_to_close : list move :=
  [MStart; MSpawnWorker; MSpawnReactor 0; MListen 8080; MAccept [Accepted 7 (str "abc")]; MTask 0 TcpServerWitnesses.quiet_env; MEvent 0 reading 1 EPOLLIN; MTake 0; MStopFlag; MStopAccept;
   MAcceptEnd; MComplete 0 (Ret [mkReply 2 (str "xyz") false]) 9; MTask 0 writing; MLeave 0; MJoinWorkers].
Definition to_the_end : list move := [MTask 0 TcpServerWitnesses.quiet_env; MReturn 0; MJoinReactors].

Definition start_life : Z * life := (1, initial tiny_tcp).
Definition closing_life : Z * life := default start_life (plays tiny_tcp up_to_close start_life).
Definition ended_life : Z * life := default start_life (plays tiny_tcp to_the_end closing_life).

Lemma closing_reachable : l_reachable tiny_tcp 9 closing_life.2.
Proof.
  apply (plays_reachable tiny_tcp ltac:(vm_compute; lia) up_to_close 1 (initial tiny_tcp)); [constructor|]. vm_compute. reflexivity.
Qed.
Lemma ended_reachable : l_reachable tiny_tcp 11 ended_life.2.
Proof.
  apply (plays_reachable tiny_tcp ltac:(vm_compute; lia) to_the_end 9 closing_life.2); [apply closing_reachable|]. vm_compute. reflexivity.
Qed.

Lemma tiny_tcp_ok : config_ok (members tiny_tcp).
Proof. exact tiny_ok. Qed.

Lemma shutdown_complete_witness : phase_ ended_life.2 = Done (Ret tt) /\ Forall (eq Returned) (reactors_ ended_life.2) /\ st_active (stats (w_rt (world_ ended_life.2))) = 0.
Proof.
  destruct (shutdown_complete tiny_tcp tiny_tcp_ok tiny_threads 11 ended_life.2 (Ret tt) ended_reachable) as (_ & _ & _ & H1 & H2).
  - lia.
  - vm_compute. reflexivity.
  - destruct (H2 eq_refl) as (E & _ & Hr). destruct (H1 E) as (_ & Ha & _). split; [vm_compute; reflexivity|]. exact (conj Hr Ha).
Defined.

(** "ab" was answered, with "c" the start of a request that never came whole. *)
Definition closing_io : loop task callback * gmap Z Peer := default (new_loop, ∅) (w_ios (world_ closing_life.2) !! 0%nat).
Definition closing_peer : Peer := default (new_peer 0 []) (closing_io.2 !! 1).
Lemma answered_before_close_witness : pending closing_peer = 0 /\ (answers closing_peer).*1 = [str "ab"] /\ stream closing_peer = str "ab" ++ Buffer.data (input closing_peer).
Proof.
  destruct (answered_before_close tiny_tcp tiny_tcp_ok tiny_threads 9 closing_life.2 0 closing_io.1 closing_io.2 1 closing_peer [] closing_reachable) as (H1 & _ & H2 & _ & H3 & _).
  - lia.
  - vm_compute. reflexivity.
  - vm_compute. reflexivity.
  - vm_compute. reflexivity.
  - vm_compute. reflexivity.
  - split; [exact H1|]. rewrite H2 by (vm_compute; reflexivity). split; [vm_compute; reflexivity|]. rewrite H3 by (vm_compute; reflexivity). vm_compute. reflexivity.
Defined.

Lemma stop_ends_server_witness : stopped closing_life.2 = true /\ exists k l', l_step tiny_tcp k closing_life.2 l' /\ nearer tiny_tcp l' closing_life.2.
Proof.
  destruct (stop_ends_server tiny_tcp tiny_tcp_ok tiny_threads 9 closing_life.2 closing_reachable) as ([[r Hr]|H] & _ & _).
  - lia.
  - vm_compute. reflexivity.
  - vm_compute. reflexivity.
  - vm_compute. discriminate.
  - vm_compute in Hr. discriminate.
  - split; [vm_compute; reflexivity|exact H].
Defined.
