(* ===== verification/RpcProtocol.v ===== *)
(** The RPC wire format, version 2 (include/kvrpc/rpc_protocol.h and proto/rpc.proto): the frame around
    an envelope, and the conversion of C++ arguments to wire values and back. *)
From S2P Require Import Prelude.

(** * Messages of proto/rpc.proto *)

(** [kvrpc::wire::Value]: its [oneof], or nothing set.  A [double] is its 64-bit pattern. *)
Inductive Kind :=
| signed_value (z : Z) | unsigned_value (z : Z) | real_value (bits : Z) | bool_value (b : bool)
| string_value (s : bytes) | message_value (s : bytes).
Definition Value : Type := option Kind.

#[export] Instance Kind_eq_dec : EqDecision Kind.
Proof. solve_decision. Defined.

(** [kvrpc::wire::Envelope].  The enum is open, so [e_type] is any number.  Parsed envelopes are never
    serialized again, so their unknown fields are not represented. *)
Record Envelope := mkEnvelope {
  e_type : Z;
  e_method : bytes;
  e_arguments : list Value;
  e_result : option Value;
  e_status : Z;
  e_error : bytes
}.
Definition REQUEST : Z := 0.
Definition RESPONSE : Z := 1.
Definition default_envelope : Envelope := mkEnvelope REQUEST [] [] None 0 [].

Definition set_result (r : option Value) (e : Envelope) : Envelope :=
  mkEnvelope (e_type e) (e_method e) (e_arguments e) r (e_status e) (e_error e).
Definition set_status_error (st : Z) (msg : bytes) (e : Envelope) : Envelope :=
  mkEnvelope (e_type e) (e_method e) (e_arguments e) (e_result e) st msg.

(** The generated protobuf code: the codec of envelopes, the validity of [string] fields, and the
    codec of the user's message type. *)
Class EnvelopeCodec := {
  EnvelopeParse : bytes -> option Envelope;
  EnvelopeSerialize : Envelope -> bytes;
  utf8 : bytes -> bool
}.
Class MessageCodec (message : Type) := {
  MessageParse : bytes -> option message;
  MessageSerialize : message -> bytes
}.

Definition value_ok (v : Value) : Prop :=
  match v with
  | Some (signed_value z) => - 2 ^ 63 <= z < 2 ^ 63
  | Some (unsigned_value z) | Some (real_value z) => 0 <= z < 2 ^ 64
  | _ => True
  end.
Definition ascii (s : bytes) : Prop := Forall (fun b => byte.unsigned b < 128) s.

Section Messages.
Context {codec : EnvelopeCodec}.

(** The field values an envelope can hold; only UTF-8 [string] fields are accepted when parsing. *)
Definition envelope_ok (e : Envelope) : Prop :=
  - 2 ^ 31 <= e_type e < 2 ^ 31 /\ utf8 (e_method e) = true /\ Forall value_ok (e_arguments e) /\
  (forall v, e_result e = Some v -> value_ok v) /\ 0 <= e_status e < 2 ^ 32 /\ utf8 (e_error e) = true.
End Messages.

(** What the protobuf runtime documents: parsing inverts serializing for messages under 2 GiB, parsed
    fields are in range, and ASCII text is UTF-8. *)
Class EnvelopeLaws (codec : EnvelopeCodec) := {
  envelope_parse_serialize e :
    envelope_ok e -> zlen (EnvelopeSerialize e) < 2 ^ 31 -> EnvelopeParse (EnvelopeSerialize e) = Some e;
  envelope_parse_ok b e : EnvelopeParse b = Some e -> envelope_ok e;
  ascii_utf8 s : ascii s -> utf8 s = true
}.
Class MessageLaws {message : Type} (codec : MessageCodec message) := {
  message_parse_serialize m : zlen (MessageSerialize m) < 2 ^ 31 -> MessageParse (MessageSerialize m) = Some m
}.

(** * Frames *)

Definition RPC_HEADER : Z := 16.

Definition RpcFrameSize (b : bytes) : outcome Z :=
  if zlen b <? RPC_HEADER then Ret 0
  else if decide (take 4 b <> str "KVR2") then Throw (KvError protocol)
  else Ret (RPC_HEADER + be_combine b.[4, 4]).

(** Indexing past the end of the vector is undefined. *)
Definition RpcId (b : bytes) : outcome Z :=
  if zlen b <? RPC_HEADER then Undef else
  let id := fold_left (fun id c => Z.lor (u64 (Z.shiftl id 8)) (byte.unsigned c)) b.[8, 8] 0 in
  if id =? 0 then Throw (KvError protocol) else Ret id.

(** The loop that stores [id] from byte 15 down to byte 8. *)
Fixpoint id_bytes (n : nat) (id : Z) (acc : bytes) : bytes :=
  match n with
  | O => acc
  | S n => id_bytes n (Z.shiftr id 8) (byte.of_Z (Z.land id 255) :: acc)
  end.

Section Frames.
Context {codec : EnvelopeCodec}.

(** Messages of 2 GiB and more are outside what [SerializeToArray] supports. *)
Definition RpcEncode (id : Z) (message : Envelope) (limit : Z) : outcome bytes :=
  let payload := EnvelopeSerialize message in
  if limit <? zlen payload then Throw (KvError invalid_argument) else
  if 2 ^ 31 <=? zlen payload then Undef else
  Ret (str "KVR2" ++ be_split 4 (u32 (zlen payload)) ++ id_bytes 8 id [] ++ payload).

Definition RpcDecode (b : bytes) : outcome Envelope :=
  if zlen b <? RPC_HEADER then Throw (KvError protocol) else
  n ← RpcFrameSize b ;
  if negb (n =? zlen b) then Throw (KvError protocol) else
  match EnvelopeParse (drop 16 b) with Some e => Ret e | None => Throw (KvError protocol) end.
End Frames.

(** * Values *)

(** The C++ types a method can take or return: [bool], integers of [w] bits, [double], a protobuf
    message, [std::string], and [const char*] (as an argument only). *)
Inductive ctype := TBool | TSigned (w : Z) | TUnsigned (w : Z) | TDouble | TMessage | TString.
Inductive cval (message : Type) :=
| CBool (b : bool) | CSigned (w z : Z) | CUnsigned (w z : Z) | CDouble (bits : Z)
| CMessage (m : message) | CString (s : bytes) | CCString (s : option bytes).
Arguments CBool {message}. Arguments CSigned {message}. Arguments CUnsigned {message}. Arguments CDouble {message}.
Arguments CMessage {message}. Arguments CString {message}. Arguments CCString {message}.

#[export] Instance ctype_eq_dec : EqDecision ctype.
Proof. solve_decision. Defined.

Section Values.
Context {message : Type} {mcodec : MessageCodec message}.

Definition ToValue (v : cval message) : outcome Value :=
  match v with
  | CBool b => Ret (Some (bool_value b))
  | CSigned _ z => Ret (Some (signed_value z))
  | CUnsigned _ z => Ret (Some (unsigned_value z))
  | CDouble r => Ret (Some (real_value r))
  | CMessage m => Ret (Some (message_value (MessageSerialize m)))
  | CString s => Ret (Some (string_value s))
  | CCString (Some s) => Ret (Some (string_value s))
  | CCString None => Throw (KvError invalid_argument)
  end.

Definition FromValue (t : ctype) (v : Value) : outcome (cval message) :=
  match t, v with
  | TBool, Some (bool_value b) => Ret (CBool b)
  | TSigned w, Some (signed_value z) =>
      if (- 2 ^ (w - 1) <=? z) && (z <=? 2 ^ (w - 1) - 1) then Ret (CSigned w z) else Throw (KvError protocol)
  | TUnsigned w, Some (unsigned_value z) =>
      if z <=? 2 ^ w - 1 then Ret (CUnsigned w z) else Throw (KvError protocol)
  | TDouble, Some (real_value r) => Ret (CDouble r)
  | TMessage, Some (message_value s) =>
      match MessageParse s with Some m => Ret (CMessage m) | None => Throw (KvError protocol) end
  | TString, Some (string_value s) => Ret (CString s)
  | _, _ => Throw (KvError protocol)
  end.

(** [v] is a value of C++ type [t]. *)
Definition has_type (t : ctype) (v : cval message) : Prop :=
  match t, v with
  | TBool, CBool _ => True
  | TSigned w, CSigned w' z => w = w' /\ - 2 ^ (w - 1) <= z < 2 ^ (w - 1)
  | TUnsigned w, CUnsigned w' z => w = w' /\ 0 <= z < 2 ^ w
  | TDouble, CDouble r => 0 <= r < 2 ^ 64
  | TMessage, CMessage m => True
  | TString, CString _ | TString, CCString _ => True
  | _, _ => False
  end.
Definition width_ok (t : ctype) : Prop := match t with TSigned w | TUnsigned w => 0 < w <= 64 | _ => True end.
(** A C string arrives as a string. *)
Definition received (v : cval message) : cval message := match v with CCString (Some s) => CString s | v => v end.
End Values.

(** * The frame *)

Lemma be_combine_snoc p c : be_combine (p ++ [c]) = Z.lor (byte.unsigned c) (Z.shiftl (be_combine p) 8).
Proof. by rewrite !be_combine_reverse, reverse_snoc. Qed.

Lemma fold_id_be l p :
  (length p + length l <= 8)%nat ->
  fold_left (fun id c => Z.lor (u64 (Z.shiftl id 8)) (byte.unsigned c)) l (be_combine p) = be_combine (p ++ l).
Proof.
  revert p. induction l as [|c l IH]; intros p Hl; cbn [fold_left length] in *; [by rewrite app_nil_r|].
  replace (Z.lor (u64 (Z.shiftl (be_combine p) 8)) (byte.unsigned c)) with (be_combine (p ++ [c])).
  - rewrite IH by (rewrite length_app; cbn; lia). by rewrite <-app_assoc.
  - rewrite be_combine_snoc, Z.lor_comm. f_equal. symmetry. apply u64_small. pose proof (be_combine_range p) as [H0 H1].
    rewrite Z.shiftl_mul_pow2 by lia. split; [lia|]. apply Z.lt_le_trans with (2 ^ (8 * Z.of_nat (length p)) * 2 ^ 8); [lia|].
    rewrite <-Z.pow_add_r by lia. apply Z.pow_le_mono_r; lia.
Qed.

Lemma id_bytes_be n id acc : id_bytes n id acc = be_split n id ++ acc.
Proof.
  revert id acc. induction n as [|n IH]; intros id acc; cbn [id_bytes].
  - by rewrite be_split_reverse.
  - rewrite IH, !be_split_reverse. change (le_split (S n) id) with (byte.of_Z id :: le_split n (Z.shiftr id 8)).
    rewrite reverse_cons, <-app_assoc. f_equal. cbn [app]. f_equal.
    apply byte.unsigned_inj. rewrite !byte.unsigned_of_Z. unfold byte.wrap. change 255 with (Z.ones 8).
    rewrite Z.land_ones by lia. by rewrite Z.mod_mod.
Qed.

Lemma take_KVR2 (l : bytes) : take 4 (str "KVR2" ++ l) = str "KVR2".
Proof. by apply take_app_length'. Qed.

Section FrameLemmas.
Context {codec : EnvelopeCodec} {laws : EnvelopeLaws codec}.

Lemma RpcEncode_Ret id e limit b : RpcEncode id e limit = Ret b ->
  zlen (EnvelopeSerialize e) <= limit /\ zlen (EnvelopeSerialize e) < 2 ^ 31 /\
  b = str "KVR2" ++ be_split 4 (zlen (EnvelopeSerialize e)) ++ be_split 8 id ++ EnvelopeSerialize e.
Proof.
  unfold RpcEncode. destruct (_ <? _) eqn:E1; [done|]. destruct (_ <=? _) eqn:E2; [done|]. zify_bools.
  pose proof (zlen_nonneg (EnvelopeSerialize e)). rewrite u32_small by lia. rewrite id_bytes_be, app_nil_r. by intros [= <-].
Qed.

Lemma frame_zlen n id payload :
  zlen (str "KVR2" ++ be_split 4 n ++ be_split 8 id ++ payload) = RPC_HEADER + zlen payload.
Proof. rewrite !zlen_app. unfold zlen at 1 2 3. rewrite !length_be_split. unfold RPC_HEADER. cbn. lia. Qed.

Lemma RpcFrameSize_frame id payload rest : zlen payload < 2 ^ 31 ->
  RpcFrameSize ((str "KVR2" ++ be_split 4 (zlen payload) ++ be_split 8 id ++ payload) ++ rest) = Ret (RPC_HEADER + zlen payload).
Proof.
  intros Hp. pose proof (zlen_nonneg payload). pose proof (zlen_nonneg rest). unfold RpcFrameSize.
  rewrite zlen_app, frame_zlen, (proj2 (Z.ltb_ge _ _)) by lia. rewrite <-!app_assoc, take_KVR2.
  rewrite decide_False by (intros H'; by apply H'). rewrite (slice_app_r (str "KVR2")) by done.
  rewrite take_app_length' by (by rewrite length_be_split). by rewrite be_combine_split_small by lia.
Qed.

Lemma RpcId_frame n id payload : 0 <= id < 2 ^ 64 ->
  RpcId (str "KVR2" ++ be_split 4 n ++ be_split 8 id ++ payload) = if id =? 0 then Throw (KvError protocol) else Ret id.
Proof.
  intros Hid. pose proof (zlen_nonneg payload). unfold RpcId. rewrite frame_zlen, (proj2 (Z.ltb_ge _ _)) by lia.
  rewrite (app_assoc (str "KVR2")), (slice_app_r (str "KVR2" ++ be_split 4 n)) by (by rewrite length_app, length_be_split).
  rewrite take_app_length' by (by rewrite length_be_split).
  pose proof (fold_id_be (be_split 8 id) [] ltac:(rewrite length_be_split; cbn; lia)) as Hf.
  rewrite be_combine_reverse in Hf. cbn [app] in Hf. rewrite be_combine_split_small in Hf by lia. cbv zeta.
  change (le_combine (reverse [])) with 0 in Hf. by rewrite Hf.
Qed.

Lemma RpcDecode_frame id e : envelope_ok e -> zlen (EnvelopeSerialize e) < 2 ^ 31 ->
  RpcDecode (str "KVR2" ++ be_split 4 (zlen (EnvelopeSerialize e)) ++ be_split 8 id ++ EnvelopeSerialize e) = Ret e.
Proof.
  intros He Hz. pose proof (zlen_nonneg (EnvelopeSerialize e)). unfold RpcDecode.
  rewrite frame_zlen, (proj2 (Z.ltb_ge _ _)) by lia.
  pose proof (RpcFrameSize_frame id (EnvelopeSerialize e) [] Hz) as Hf. rewrite app_nil_r in Hf. rewrite Hf, bind_Ret, Z.eqb_refl.
  cbn [negb]. rewrite !app_assoc, (drop_app_length' _ _ 16) by (by rewrite !length_app, !length_be_split).
  by rewrite envelope_parse_serialize.
Qed.
End FrameLemmas.

(** * Conversions *)

Section ValueLemmas.
Context {message : Type} {mcodec : MessageCodec message}.

(** A message argument serializes within the limit of the runtime. *)
Definition sendable (v : cval message) : Prop := match v with CMessage m => zlen (MessageSerialize m) < 2 ^ 31 | _ => True end.

Lemma ToValue_FromValue {mlaws : MessageLaws mcodec} t v w :
  has_type t v -> sendable v -> ToValue v = Ret w -> FromValue t w = Ret (received v).
Proof.
  destruct t, v as [| | | | | |[|]]; cbn; try done; intros Ht Hs [= <-]; cbn; try done.
  - destruct Ht as [-> Hz]. rewrite (proj2 (Z.leb_le _ _)), (proj2 (Z.leb_le _ _)) by lia. done.
  - destruct Ht as [-> Hz]. rewrite (proj2 (Z.leb_le _ _)) by lia. done.
  - by rewrite message_parse_serialize.
Qed.

Lemma ToValue_ok t v w : has_type t v -> width_ok t -> ToValue v = Ret w -> value_ok w.
Proof.
  destruct t as [|wd|wd| | |], v as [| | | | | |[|]]; cbn -[Z.pow]; try done; intros Ht Hw [= <-]; cbn -[Z.pow]; try done.
  - destruct Ht as [-> Hz]. assert (2 ^ (w0 - 1) <= 2 ^ 63) by (apply Z.pow_le_mono_r; lia). lia.
  - destruct Ht as [-> Hz]. assert (2 ^ w0 <= 2 ^ 64) by (apply Z.pow_le_mono_r; lia). lia.
Qed.

(** [FromValue] gives a value of the type it was asked for, from a value of the matching kind whose
    number is in range, and otherwise reports a protocol error. *)
Lemma FromValue_cases t w :
  value_ok w ->
  (exists v, FromValue t w = Ret v /\ has_type t v) \/ FromValue t w = Throw (KvError protocol).
Proof.
  intros Hw. destruct t, w as [[]|]; cbn -[Z.pow] in *; try (by right); try (left; eexists; by split).
  - destruct (_ && _)%bool eqn:E; [left; zify_bools; eexists; split; [done|]; cbn -[Z.pow]; lia|by right].
  - destruct (_ <=? _) eqn:E; [left; zify_bools; eexists; split; [done|]; cbn -[Z.pow]; lia|by right].
  - destruct (MessageParse s); [left; eexists; by split|by right].
Qed.
End ValueLemmas.
