(* ===== verification/RpcServer.v ===== *)
(** [kvrpc::RpcServer] and [kvrpc::RpcClient] (include/kvrpc/rpc_server.h, rpc_client.h): the method
    table and its dispatcher on one side, a call and its completion on the other. *)
From S2P Require Import Prelude RpcProtocol.

Section Rpc.
Context {codec : EnvelopeCodec} {message : Type} {mcodec : MessageCodec message}.

(** ** Server *)

(** The callbacks are the application's: they act on its state [St]. *)
Section Server.
Context {St : Type}.

(** A registered method: [Args...], [Ret] ([None] for [void]) and the function. *)
Record method := mkMethod {
  m_args : list ctype;
  m_ret : option ctype;
  m_function : list (cval message) -> M St (cval message)
}.
Record rpc_server := mkRpcServer { limit_ : Z; methods_ : gmap bytes method }.

Definition Register (name : bytes) (m : method) : M rpc_server unit := fun s =>
  if (zlen name =? 0) || (limit_ s <? zlen name) then (s, Throw std_invalid_argument) else
  match methods_ s !! name with
  | Some _ => (s, Throw std_invalid_argument)
  | None => (mkRpcServer (limit_ s) (<[name := m]> (methods_ s)), Ret tt)
  end.

Fixpoint Decode (ts : list ctype) (vs : list Value) : outcome (list (cval message)) :=
  match ts, vs with
  | [], _ => Ret []
  | t :: ts, v :: vs => a ← FromValue t v ; rest ← Decode ts vs ; Ret (a :: rest)
  | _ :: _, [] => Undef
  end.

(** The closure [Register] stores: arguments, then the call, then the result. *)
Definition call (m : method) (args : list (cval message)) (result : Envelope) : M St Envelope :=
  r ← m_function m args ;
  match m_ret m with
  | None => mret result
  | Some _ => v ← lift (ToValue r) ; mret (set_result (Some v) result)
  end.
Definition invoke (m : method) (request result : Envelope) : M St Envelope :=
  if negb (zlen (e_arguments request) =? zlen (m_args m)) then throw BadArguments else
  match Decode (m_args m) (e_arguments request) with
  | Ret args => call m args result
  | Throw _ => throw BadArguments
  | Undef => lift Undef
  | Blocked => lift Blocked
  end.

Definition on_failure (result : Envelope) (e : exn) : M St Envelope :=
  match e with
  | BadArguments => mret (set_status_error 2 (str "Invalid method arguments") (set_result None result))
  | _ => mret (set_status_error 3 (str "Method execution failed") (set_result None result))
  end.

(** [consumed] is the size of the whole frame. *)
Definition Dispatch (srv : rpc_server) (b : bytes) : M St (bytes * Z) :=
  request ← lift (RpcDecode b) ;
  id ← lift (RpcId b) ;
  if negb (e_type request =? REQUEST) then throw std_runtime_error else
  let result := mkEnvelope RESPONSE [] [] None 0 [] in
  result ← match methods_ srv !! e_method request with
           | None => mret (set_status_error 1 (str "Method not found") result)
           | Some m => try_catch (invoke m request result) (on_failure result)
           end ;
  reply ← lift (RpcEncode id result (limit_ srv)) ;
  mret (reply, zlen b).
End Server.

(** ** Client *)

Record rpc_client := mkRpcClient { max_frame_bytes : Z; next_ : Z }.

Fixpoint to_values (args : list (cval message)) : outcome (list Value) :=
  match args with
  | [] => Ret []
  | a :: args => v ← ToValue a ; vs ← to_values args ; Ret (v :: vs)
  end.

Definition fetch_add : M rpc_client Z := fun c =>
  (mkRpcClient (max_frame_bytes c) (u64 (next_ c + 1)), Ret (next_ c)).

(** [Call] up to the submission: the identifier and the bytes given to the transport. *)
Definition Call (name : bytes) (args : list (cval message)) : M rpc_client (Z * bytes) :=
  vs ← lift (to_values args) ;
  id ← fetch_add ;
  c ← get_state ;
  b ← lift (RpcEncode id (mkEnvelope REQUEST name vs None 0 []) (max_frame_bytes c)) ;
  mret (id, b).

(** The value a successful response holds. *)
Definition response_value (ret : option ctype) (b : bytes) : outcome (option (cval message)) :=
  response ← RpcDecode b ;
  if negb (e_type response =? RESPONSE) || (4 <? e_status response) then Throw (KvError protocol) else
  if negb (e_status response =? 0) then Throw (RemoteError (e_status response) (e_error response)) else
  match ret with
  | None => match e_result response with Some _ => Throw (KvError protocol) | None => Ret None end
  | Some t => v ← FromValue t (default None (e_result response)) ; Ret (Some v)
  end.

(** The completion given to the transport: what the promise holds, and whether the response was
    acceptable to the application protocol. *)
Definition complete (ret : option ctype) (b : bytes) (error : option exn) : outcome (option (cval message)) * bool :=
  match error with
  | Some e => (Throw e, true)
  | None =>
      match response_value ret b with
      | Ret v => (Ret v, true)
      | Throw (KvError code) => (Throw (KvError code), bool_decide (code <> protocol))
      | Throw (RemoteError st msg) => (Throw (RemoteError st msg), true)
      | r => (r, false)
      end
  end.
End Rpc.
Arguments method : clear implicits.
Arguments rpc_server : clear implicits.
