(* ===== verification/RpcCorrectness.v ===== *)
(** A remote call behaves as a local one: the composition of [RpcClient::Call], [RpcServer::Dispatch] and
    the client's completion refines the direct call of the registered function. *)
From S2P Require Import Prelude RpcProtocol RpcServer.

Section Correctness.
Context {codec : EnvelopeCodec} {laws : EnvelopeLaws codec}.
Context {message : Type} {mcodec : MessageCodec message} {mlaws : MessageLaws mcodec}.
Context {St : Type}.
Implicit Types (srv : rpc_server message St) (m : method message St) (args : list (cval message)).

(** ** Specification *)

(** The argument a parameter of type [t] receives, when the conversion is allowed. *)
Definition convert (t : ctype) (v : cval message) : option (cval message) :=
  match t, v with
  | TBool, CBool b => Some (CBool b)
  | TSigned w, CSigned _ z => if decide (- 2 ^ (w - 1) <= z < 2 ^ (w - 1)) then Some (CSigned w z) else None
  | TUnsigned w, CUnsigned _ z => if decide (z < 2 ^ w) then Some (CUnsigned w z) else None
  | TDouble, CDouble r => Some (CDouble r)
  | TMessage, CMessage x => Some (CMessage x)
  | TString, CString s | TString, CCString (Some s) => Some (CString s)
  | _, _ => None
  end.
Fixpoint convert_all (ts : list ctype) (vs : list (cval message)) : option (list (cval message)) :=
  match ts, vs with
  | [], [] => Some []
  | t :: ts, v :: vs => a ← convert t v ; rest ← convert_all ts vs ; Some (a :: rest)
  | _, _ => None
  end.

Definition returned (ret : option ctype) (r : cval message) : outcome (option (cval message)) :=
  match ret, r with
  | None, _ => Ret None
  | Some _, CCString None => Throw (RemoteError 3 (str "Method execution failed"))
  | Some _, _ => Ret (Some (received r))
  end.

(** The call as the caller sees it: the method's own effect and result, or one of three errors. *)
Definition remote_call srv (name : bytes) args (st : St) : St * outcome (option (cval message)) :=
  match methods_ srv !! name with
  | None => (st, Throw (RemoteError 1 (str "Method not found")))
  | Some m =>
      match convert_all (m_args m) args with
      | None => (st, Throw (RemoteError 2 (str "Invalid method arguments")))
      | Some args =>
          match m_function m args st with
          | (st', Ret r) => (st', returned (m_ret m) r)
          | (st', Throw _) => (st', Throw (RemoteError 3 (str "Method execution failed")))
          | (st', Undef) => (st', Undef)
          | (st', Blocked) => (st', Blocked)
          end
      end
  end.

(** The response that carries it. *)
Definition response_of (r : outcome (option (cval message))) : Envelope :=
  match r with
  | Ret (Some v) => mkEnvelope RESPONSE [] [] (match ToValue v with Ret w => Some w | _ => None end) 0 []
  | Throw (RemoteError st msg) => mkEnvelope RESPONSE [] [] None st msg
  | _ => mkEnvelope RESPONSE [] [] None 0 []
  end.

(** What the C++ type checker and the callback contract give: arguments and results have their types,
    and a callback cannot throw the dispatcher's private [BadArguments]. *)
Definition typed (v : cval message) : Prop := sendable v /\ exists t, width_ok t /\ has_type t v.
Definition method_ok m : Prop :=
  forall args st,
    match (m_function m args st).2 with
    | Ret r => match m_ret m with Some t => width_ok t /\ has_type t r /\ sendable r | None => True end
    | Throw e => e <> BadArguments
    | _ => True
    end.
Definition server_ok srv : Prop := map_Forall (fun _ m => method_ok m) (methods_ srv).

(** ** Arguments *)

Lemma FromValue_convert t v w : typed v -> ToValue v = Ret w ->
  match convert t v with Some a => FromValue t w = Ret a | None => exists e, FromValue (message := message) t w = Throw e end.
Proof.
  intros [Hs (t' & Hw & Ht)] Hv. destruct v as [|wd z|wd z| | | |[|]]; cbn in Hv; try done; injection Hv as <-;
  destruct t; cbn -[Z.pow]; try (by eexists); try done.
  - case_decide.
    + by rewrite (proj2 (Z.leb_le _ _)), (proj2 (Z.leb_le _ _)) by lia.
    + destruct (_ && _)%bool eqn:E; [zify_bools; lia|by eexists].
  - case_decide.
    + by rewrite (proj2 (Z.leb_le _ _)) by lia.
    + destruct (_ <=? _) eqn:E; [zify_bools; lia|by eexists].
  - by rewrite message_parse_serialize.
Qed.

Lemma ToValue_typed v w : typed v -> ToValue v = Ret w -> value_ok w.
Proof. intros [_ (t & Hw & Ht)]. by apply (ToValue_ok t). Qed.

Lemma to_values_Ret args vs : Forall typed args -> to_values args = Ret vs ->
  Forall value_ok vs /\ length vs = length args.
Proof.
  intros Ht. revert vs. induction Ht as [|a args Ha Hargs IH]; intros vs; cbn [to_values]; [by intros [= <-]|].
  destruct (ToValue a) as [v| | |] eqn:Ev; try done. rewrite bind_Ret.
  destruct (to_values args) as [rest| | |] eqn:Er; try done. rewrite bind_Ret. intros [= <-].
  destruct (IH rest eq_refl) as [Hok Hl]. split; [constructor; [by eapply ToValue_typed|done]|cbn; by rewrite Hl].
Qed.

Lemma Decode_convert ts args vs : Forall typed args -> to_values args = Ret vs -> length ts = length args ->
  match convert_all ts args with Some as_ => Decode ts vs = Ret as_ | None => exists e, Decode (message := message) ts vs = Throw e end.
Proof.
  intros Ht. revert ts vs. induction Ht as [|a args Ha Hargs IH]; intros [|t ts] vs Hv Hl; try discriminate Hl; cbn [to_values length] in *; [by injection Hv as <-|].
  destruct (ToValue a) as [v| | |] eqn:Ev; try done. rewrite bind_Ret in Hv.
  destruct (to_values args) as [rest| | |] eqn:Er; try done. rewrite bind_Ret in Hv. injection Hv as <-. injection Hl as Hl.
  specialize (IH ts rest eq_refl Hl). pose proof (FromValue_convert t a v Ha Ev) as Hc. cbn [convert_all Decode].
  destruct (convert t a) as [x|]; cbn [mbind option_bind].
  - rewrite Hc, bind_Ret. destruct (convert_all ts args) as [xs|]; cbn; [by rewrite IH|].
    destruct IH as [e ->]. by eexists.
  - destruct Hc as [e ->]. by eexists.
Qed.

Lemma convert_all_length ts args : length ts <> length args -> convert_all ts args = None.
Proof.
  revert args. induction ts as [|t ts IH]; intros [|a args] Hl; cbn in *; try done.
  destruct (convert t a); cbn; [|done]. by rewrite IH by lia.
Qed.
(** ** Dispatch *)

Definition response0 : Envelope := mkEnvelope RESPONSE [] [] None 0 [].

Lemma invoke_refines m (request : Envelope) args st :
  method_ok m -> Forall typed args -> to_values args = Ret (e_arguments request) ->
  try_catch (invoke m request response0) (on_failure response0) st =
  match convert_all (m_args m) args with
  | None => (st, Ret (response_of (Throw (RemoteError 2 (str "Invalid method arguments")))))
  | Some as_ =>
      match m_function m as_ st with
      | (st', Ret r) => (st', Ret (response_of (returned (m_ret m) r)))
      | (st', Throw _) => (st', Ret (response_of (Throw (RemoteError 3 (str "Method execution failed")))))
      | (st', Undef) => (st', Undef)
      | (st', Blocked) => (st', Blocked)
      end
  end.
Proof.
  intros Hm Ht Hv. destruct (to_values_Ret args _ Ht Hv) as [_ Hl]. unfold try_catch, invoke.
  destruct (decide (length (m_args m) = length args)) as [Hlen|Hlen].
  2:{ rewrite convert_all_length by done. rewrite (proj2 (Z.eqb_neq _ _)) by (unfold zlen; lia). done. }
  rewrite (proj2 (Z.eqb_eq _ _)) by (unfold zlen; lia). cbn [negb].
  pose proof (Decode_convert (m_args m) args _ Ht Hv Hlen) as Hd. destruct (convert_all (m_args m) args) as [as_|].
  2:{ destruct Hd as [e ->]. done. }
  rewrite Hd. unfold call, mbind, M_bind. specialize (Hm as_ st). destruct (m_function m as_ st) as [st' [r|e| |]]; cbn [snd] in Hm; try done.
  - destruct (m_ret m) as [t|]; [|done]. cbn [returned]. destruct r as [| | | | | |[|]]; done.
  - destruct e; done.
Qed.

Lemma Call_Ret name args c c' id b : Call (message := message) name args c = (c', Ret (id, b)) ->
  id = next_ c /\ next_ c' = u64 (next_ c + 1) /\
  exists vs, to_values args = Ret vs /\ RpcEncode id (mkEnvelope REQUEST name vs None 0 []) (max_frame_bytes c) = Ret b.
Proof.
  unfold Call. destruct (to_values args) as [vs|e| |] eqn:Ev; [|done..]. rewrite (lift_bind_Ret _ _ _ _ eq_refl).
  rewrite (M_bind_run fetch_add _ _ _ _ eq_refl), (M_bind_run get_state _ _ _ _ eq_refl). cbn [max_frame_bytes].
  destruct (RpcEncode _ _ _) as [b'|e| |] eqn:Eb; [|done..]. rewrite (lift_bind_Ret _ _ _ _ eq_refl).
  intros [= <- <- <-]. split; [done|]. split; [done|]. exists vs. by split.
Qed.

Lemma request_ok name vs : utf8 name = true -> Forall value_ok vs -> envelope_ok (mkEnvelope REQUEST name vs None 0 []).
Proof. intros Hn Hv. unfold envelope_ok. cbn. split_and!; try done. by apply ascii_utf8; constructor. Qed.

Lemma Dispatch_refines srv (name : bytes) args vs id b limit st :
  server_ok srv -> Forall typed args -> utf8 name = true -> 0 < id < 2 ^ 64 ->
  to_values args = Ret vs -> RpcEncode id (mkEnvelope REQUEST name vs None 0 []) limit = Ret b ->
  Dispatch srv b st =
  let '(st', r) := remote_call srv name args st in
  match r with
  | Undef => (st', Undef)
  | Blocked => (st', Blocked)
  | _ => (st', reply ← RpcEncode id (response_of r) (limit_ srv) ; Ret (reply, zlen b))
  end.
Proof.
  intros Hsrv Ht Hn Hid Hv Hb. destruct (to_values_Ret args vs Ht Hv) as [Hok _].
  destruct (RpcEncode_Ret _ _ _ _ Hb) as (_ & Hz & Eb). pose proof (request_ok name vs Hn Hok) as Hreq.
  assert (RpcDecode b = Ret (mkEnvelope REQUEST name vs None 0 [])) as Hdec by (rewrite Eb; by apply RpcDecode_frame).
  assert (RpcId b = Ret id) as HId by (rewrite Eb, RpcId_frame by lia; by rewrite (proj2 (Z.eqb_neq _ _)) by lia).
  unfold Dispatch. rewrite (lift_bind_Ret _ _ _ _ Hdec), (lift_bind_Ret _ _ _ _ HId).
  cbn [e_type e_method Z.eqb REQUEST negb]. fold response0. unfold remote_call.
  destruct (methods_ srv !! name) as [m|] eqn:Em.
  2:{ rewrite (M_bind_run (mret _) _ _ _ _ eq_refl). change (set_status_error 1 _ response0) with
      (response_of (Throw (RemoteError 1 (str "Method not found")))). by destruct (RpcEncode _ (response_of _) _). }
  pose proof (invoke_refines m (mkEnvelope REQUEST name vs None 0 []) args st (Hsrv _ _ Em) Ht Hv) as Hi.
  destruct (convert_all (m_args m) args) as [as_|].
  2:{ rewrite (M_bind_run _ _ _ _ _ Hi). by destruct (RpcEncode _ (response_of _) _). }
  destruct (m_function m as_ st) as [st' [r|e| |]].
  - rewrite (M_bind_run _ _ _ _ _ Hi). destruct (RpcEncode _ (response_of (returned _ _)) _) eqn:E;
    rewrite ?E; destruct (returned (m_ret m) r) eqn:Er; rewrite ?E; try done; destruct (m_ret m), r as [| | | | | |[|]]; done.
  - rewrite (M_bind_run _ _ _ _ _ Hi). by destruct (RpcEncode _ (response_of _) _).
  - unfold mbind, M_bind. by rewrite Hi.
  - unfold mbind, M_bind. by rewrite Hi.
Qed.

(** ** Completion *)

Definition outcome_ok (ret : option ctype) (r : outcome (option (cval message))) : Prop :=
  match r with
  | Ret None => ret = None
  | Ret (Some v) => exists t, ret = Some t /\ width_ok t /\ has_type t v /\ sendable v /\ received v = v /\ exists w, ToValue v = Ret w
  | Throw (RemoteError st msg) => 1 <= st <= 3 /\ ascii msg
  | _ => False
  end.

Lemma ascii_check (s : bytes) : forallb (fun b => byte.unsigned b <? 128) s = true -> ascii s.
Proof.
  unfold ascii. induction s as [|b s IH]; cbn [forallb]; [by constructor|]. intros H. zify_bools. constructor; [done|by apply IH].
Qed.

Lemma received_typed t v : has_type t v -> sendable v -> received v <> CCString None ->
  has_type t (received v) /\ sendable (received v) /\ received (received v) = received v /\ exists w, ToValue (received v) = Ret w.
Proof. destruct t, v as [| | | | | |[|]]; cbn; try done; intros Ht Hs _; refine (conj Ht (conj Hs (conj eq_refl _))); by eexists. Qed.

Lemma remote_call_ok srv (name : bytes) args ret st st' r :
  server_ok srv -> (forall m, methods_ srv !! name = Some m -> m_ret m = ret) ->
  remote_call srv name args st = (st', r) -> outcome_ok ret r \/ r = Undef \/ r = Blocked.
Proof.
  intros Hsrv Hret. unfold remote_call. destruct (methods_ srv !! name) as [m|] eqn:Em.
  2:{ intros [= _ <-]. left. split; [lia|by apply ascii_check]. }
  destruct (convert_all (m_args m) args) as [as_|].
  2:{ intros [= _ <-]. left. split; [lia|by apply ascii_check]. }
  pose proof (Hsrv _ _ Em as_ st) as Hm. destruct (m_function m as_ st) as [s1 [x|e| |]]; cbn [snd] in Hm; intros [= _ <-]; [| |by auto..].
  2:{ left. split; [lia|by apply ascii_check]. }
  left. rewrite (Hret m eq_refl) in *. destruct ret as [t|]; [|done]. destruct Hm as (Hw & Ht & Hs).
  assert (x = CCString None \/ received x <> CCString None) as [->|Hx] by (destruct x as [| | | | | |[|]]; by auto).
  { split; [lia|by apply ascii_check]. }
  assert (returned (Some t) x = Ret (Some (received x))) as -> by (destruct x as [| | | | | |[|]]; done).
  exists t. split; [done|]. split; [done|]. by apply received_typed.
Qed.

Lemma response_envelope_ok res st msg :
  (forall w, res = Some w -> value_ok w) -> 0 <= st < 2 ^ 32 -> ascii msg -> envelope_ok (mkEnvelope RESPONSE [] [] res st msg).
Proof.
  intros Hr Hst Hm. unfold envelope_ok, RESPONSE. cbn [e_type e_method e_arguments e_result e_status e_error].
  split; [lia|]. split; [apply ascii_utf8; constructor|]. split; [constructor|]. split; [done|]. split; [done|by apply ascii_utf8].
Qed.

Lemma response_ok ret r : outcome_ok ret r -> envelope_ok (response_of r).
Proof.
  intros Ho. destruct r as [[v|]|[]| |]; cbn in Ho; try done; apply response_envelope_ok; try done; try lia.
  - destruct Ho as (t & -> & Hw & Ht & Hs & _ & (w & Ew)). rewrite Ew. intros w' [= <-]. by apply (ToValue_ok t v).
  - constructor.
  - constructor.
  - apply Ho.
Qed.

Lemma complete_refines ret r reply :
  outcome_ok ret r -> RpcDecode reply = Ret (response_of r) -> complete ret reply None = (r, true).
Proof.
  intros Ho Hd. unfold complete, response_value. rewrite Hd, bind_Ret. destruct r as [[v|]|[]| |]; cbn in Ho; try done; cbn -[FromValue ToValue Z.eqb Z.ltb]; cbn [Z.eqb].
  - destruct Ho as (t & -> & _ & Ht & Hs & Hr & (w & Ew)). rewrite Ew. cbn -[FromValue].
    by rewrite (ToValue_FromValue t v w Ht Hs Ew), bind_Ret, Hr.
  - by rewrite Ho.
  - destruct Ho as [Hst _]. by rewrite (proj2 (Z.ltb_ge 4 status)), (proj2 (Z.eqb_neq status 0)) by lia.
Qed.

(** C10. A remote call refines the local one.  When the client's request reaches the server and the
    response fits the server's limit, the frame [Dispatch] returns carries the request's identifier,
    the application state has changed exactly as by the direct call with the converted arguments, and
    the client's completion delivers its result or the error of the specification: status 1 for an
    unknown method, 2 for arguments that do not convert (the callback not run), 3 for a callback that
    throws (its details not exposed). *)
Theorem rpc_call_refines srv c c' (name : bytes) args ret id b st st' r :
  server_ok srv -> (forall m, methods_ srv !! name = Some m -> m_ret m = ret) ->
  Forall typed args -> utf8 name = true -> 0 < next_ c < 2 ^ 64 ->
  Call name args c = (c', Ret (id, b)) ->
  remote_call srv name args st = (st', r) -> r <> Undef -> r <> Blocked ->
  zlen (EnvelopeSerialize (response_of r)) <= limit_ srv < 2 ^ 31 ->
  exists reply,
    Dispatch srv b st = (st', Ret (reply, zlen b)) /\ RpcId reply = Ret id /\
    RpcFrameSize reply = Ret (zlen reply) /\ complete ret reply None = (r, true).
Proof.
  intros Hsrv Hret Ht Hn Hid Hc Hr Hu Hbl Hz. destruct (Call_Ret _ _ _ _ _ _ Hc) as (-> & _ & vs & Hv & Hb).
  destruct (remote_call_ok _ _ _ ret _ _ _ Hsrv Hret Hr) as [Ho|[|]]; [|done..].
  pose proof (Dispatch_refines srv name args vs _ b _ st Hsrv Ht Hn Hid Hv Hb) as HD. rewrite Hr in HD.
  destruct (RpcEncode (next_ c) (response_of r) (limit_ srv)) as [reply|e| |] eqn:Er.
  2-4: exfalso; unfold RpcEncode in Er; rewrite (proj2 (Z.ltb_ge _ _)), (proj2 (Z.leb_gt _ _)) in Er by lia; done.
  exists reply. destruct (RpcEncode_Ret _ _ _ _ Er) as (_ & Hz' & Eb). pose proof (response_ok _ _ Ho) as Hok. split_and!.
  - rewrite HD. by destruct r.
  - rewrite Eb, RpcId_frame by lia. by rewrite (proj2 (Z.eqb_neq _ _)) by lia.
  - pose proof (RpcFrameSize_frame (next_ c) (EnvelopeSerialize (response_of r)) [] Hz') as Hf.
    rewrite app_nil_r, <-Eb in Hf. rewrite Hf. f_equal. rewrite Eb. by rewrite frame_zlen.
  - apply complete_refines; [done|]. rewrite Eb. by apply RpcDecode_frame.
Qed.

(** ** Any bytes *)

(** Callbacks return or throw. *)
Definition callbacks_return srv : Prop :=
  map_Forall (fun _ m => forall args st, (m_function m args st).2 <> Undef /\ (m_function m args st).2 <> Blocked) (methods_ srv).

(** The frame of [payload] on the wire, and the frames that hold a request. *)
Definition rpc_frame (id : Z) (payload : bytes) : bytes := str "KVR2" ++ be_split 4 (zlen payload) ++ be_split 8 id ++ payload.
Definition request_frame (b : bytes) (id : Z) (request : Envelope) : Prop :=
  0 < id < 2 ^ 64 /\ e_type request = REQUEST /\ exists payload, zlen payload < 2 ^ 32 /\ EnvelopeParse payload = Some request /\ b = rpc_frame id payload.

(** [a] is the value of type [t] that [v] stands for. *)
Definition reads (t : ctype) (v : Value) (a : cval message) : Prop :=
  has_type t a /\
  match v, a with
  | Some (bool_value x), CBool y => x = y
  | Some (signed_value x), CSigned _ y | Some (unsigned_value x), CUnsigned _ y | Some (real_value x), CDouble y => x = y
  | Some (message_value x), CMessage y => MessageParse x = Some y
  | Some (string_value x), CString y => x = y
  | _, _ => False
  end.

(** What a request is owed: the effect of the method and its result, or one of the three errors. *)
Definition answer srv (request : Envelope) (st st' : St) (r : outcome (option (cval message))) : Prop :=
  match methods_ srv !! e_method request with
  | None => st' = st /\ r = Throw (RemoteError 1 (str "Method not found"))
  | Some m =>
      (exists args, Forall3 reads (m_args m) (e_arguments request) args /\
         match m_function m args st with
         | (s, Ret x) => st' = s /\ r = returned (m_ret m) x
         | (s, Throw _) => st' = s /\ r = Throw (RemoteError 3 (str "Method execution failed"))
         | _ => False
         end) \/
      ~ (exists args, Forall3 reads (m_args m) (e_arguments request) args) /\ st' = st /\ r = Throw (RemoteError 2 (str "Invalid method arguments"))
  end.

Lemma FromValue_reads t v : value_ok v ->
  match FromValue (message := message) t v with Ret a => reads t v a | Throw _ => forall a, ~ reads t v a | _ => False end.
Proof.
  intros Hv. unfold reads. destruct t, v as [[]|]; cbn -[Z.pow] in *; try done; try (by intros [] []).
  - destruct (_ && _)%bool eqn:E; zify_bools; [cbn -[Z.pow]; lia|]. intros [] [Ht Hx]; cbn -[Z.pow] in *; try done. lia.
  - destruct (_ <=? _) eqn:E; zify_bools; [cbn -[Z.pow]; lia|]. intros [] [Ht Hx]; cbn -[Z.pow] in *; try done. lia.
  - destruct (MessageParse s) eqn:E; [done|]. intros [] [Ht Hx]; cbn in *; done || congruence.
Qed.

Lemma Decode_reads ts vs : Forall value_ok vs -> length ts = length vs ->
  match Decode (message := message) ts vs with Ret args => Forall3 reads ts vs args | Throw _ => forall args, ~ Forall3 reads ts vs args | _ => False end.
Proof.
  intros Hv. revert ts. induction Hv as [|v vs Hv Hvs IH]; intros [|t ts] Hl; try discriminate Hl; [by constructor|].
  injection Hl as Hl. cbn [Decode]. pose proof (FromValue_reads t v Hv) as Hf. specialize (IH ts Hl). destruct (FromValue t v) as [a|e| |]; [|by intros args H; inversion H; subst; by eapply Hf|done..].
  rewrite bind_Ret. destruct (Decode ts vs) as [rest|e| |]; [by constructor|by intros args H; inversion H; subst; by eapply IH|done..].
Qed.

Lemma call_response m args st : method_ok m -> (m_function m args st).2 <> Undef -> (m_function m args st).2 <> Blocked ->
  exists r, try_catch (call m args response0) (on_failure response0) st = ((m_function m args st).1, Ret (response_of r)) /\ (exists ret, outcome_ok ret r) /\
    match (m_function m args st).2 with Ret x => r = returned (m_ret m) x | _ => r = Throw (RemoteError 3 (str "Method execution failed")) end.
Proof.
  intros Hm. specialize (Hm args st). unfold try_catch, call, mbind, M_bind. destruct (m_function m args st) as [st' [x|e| |]]; cbn [fst snd] in *; intros Hu Hb; [|clear Hu Hb|done..].
  - eexists. split; [|split; [|reflexivity]]; destruct (m_ret m) as [t|]; try done; [by destruct x as [| | | | | |[|]]| |by exists None].
    destruct Hm as (Hw & Ht & Hs). exists (Some t). assert (x = CCString None \/ received x <> CCString None) as [->|Hx] by (destruct x as [| | | | | |[|]]; by auto).
    { split; [lia|by apply ascii_check]. }
    assert (returned (Some t) x = Ret (Some (received x))) as -> by (destruct x as [| | | | | |[|]]; done).
    exists t. split; [done|]. split; [done|]. by apply received_typed.
  - eexists. split; [|split; [|reflexivity]]; [by destruct e|]. exists None. split; [lia|by apply ascii_check].
Qed.

(** The part of [Dispatch] that makes the response. *)
Definition respond_to srv (request : Envelope) : M St Envelope :=
  match methods_ srv !! e_method request with
  | None => mret (set_status_error 1 (str "Method not found") response0)
  | Some m => try_catch (invoke m request response0) (on_failure response0)
  end.

Lemma Forall3_lengths {A B C} (P : A -> B -> C -> Prop) l k k' : Forall3 P l k k' -> length l = length k.
Proof. by induction 1; cbn; f_equal. Qed.

Lemma respond_answer srv (request : Envelope) st : server_ok srv -> callbacks_return srv -> Forall value_ok (e_arguments request) ->
  exists st' r, respond_to srv request st = (st', Ret (response_of r)) /\ (exists ret, outcome_ok ret r) /\ answer srv request st st' r.
Proof.
  intros Hsrv Hc Hv. unfold respond_to, answer. destruct (methods_ srv !! e_method request) as [m|] eqn:Em.
  2:{ exists st, (Throw (RemoteError 1 (str "Method not found"))). split; [done|]. split; [|done]. exists None. split; [lia|by apply ascii_check]. }
  assert ((forall args, ~ Forall3 reads (m_args m) (e_arguments request) args) -> invoke m request response0 st = (st, Throw BadArguments) ->
    exists st' r, try_catch (invoke m request response0) (on_failure response0) st = (st', Ret (response_of r)) /\ (exists ret, outcome_ok ret r) /\
      ~ (exists args, Forall3 reads (m_args m) (e_arguments request) args) /\ st' = st /\ r = Throw (RemoteError 2 (str "Invalid method arguments"))) as Hbad.
  { intros Hno E. exists st, (Throw (RemoteError 2 (str "Invalid method arguments"))). unfold try_catch. rewrite E. split; [done|].
    split; [exists None; split; [lia|by apply ascii_check]|]. split; [|done]. intros [args Ha]. by apply (Hno args). }
  unfold invoke in *. destruct (Z.eqb_spec (zlen (e_arguments request)) (zlen (m_args m))) as [Hl|Hl]; cbn [negb] in *.
  2:{ destruct Hbad as (st' & r & E & Ho & Ha); [|done|exists st', r; by auto]. intros args Ha. apply Hl. unfold zlen. by rewrite (Forall3_lengths _ _ _ _ Ha). }
  pose proof (Decode_reads (m_args m) (e_arguments request) Hv ltac:(unfold zlen in Hl; lia)) as Hd. destruct (Decode _ _) as [args|e| |]; [| |done..].
  - destruct (Hc _ _ Em args st) as [Hu Hb]. destruct (call_response m args st (Hsrv _ _ Em) Hu Hb) as (r & E & Ho & Hr).
    eexists _, r. split; [exact E|]. split; [done|]. left. exists args. split; [done|]. destruct (m_function m args st) as [s [x|e| |]]; cbn [fst snd] in *; done.
  - destruct Hbad as (st' & r & E & Ho & Ha); [done..|]. exists st', r. by auto.
Qed.

Lemma rpc_frame_inv (b : bytes) : RPC_HEADER <= zlen b -> take 4 b = str "KVR2" -> be_combine b.[4, 4] = zlen b - RPC_HEADER ->
  b = rpc_frame (be_combine b.[8, 8]) (drop 16 b).
Proof.
  unfold RPC_HEADER, rpc_frame. intros Hb Hm Hn. assert (zlen (drop 16 b) = be_combine b.[4, 4]) as -> by (unfold zlen in *; rewrite length_drop; lia). unfold zlen in *.
  rewrite !be_split_combine by (rewrite length_take, length_drop; lia). rewrite <-Hm, <-(take_drop 4 b) at 1. f_equal.
  rewrite <-(take_drop 4 (drop 4 b)) at 1. f_equal. rewrite drop_drop.
  pose proof (take_drop 8 (drop 8 b)) as E. rewrite drop_drop in E. symmetry. exact E.
Qed.

Lemma RpcId_combine (b : bytes) : RPC_HEADER <= zlen b -> RpcId b = if be_combine b.[8, 8] =? 0 then Throw (KvError protocol) else Ret (be_combine b.[8, 8]).
Proof.
  intros Hb. unfold RpcId. rewrite (proj2 (Z.ltb_ge _ _)) by done.
  pose proof (fold_id_be b.[8, 8] [] ltac:(rewrite length_take; change (length []) with O; lia)) as Hf. cbn [app] in Hf.
  change (be_combine []) with 0 in Hf. by rewrite Hf.
Qed.

(** The dispatcher's checks accept exactly the frames of requests, and otherwise throw. *)
Lemma RpcDecode_request (b : bytes) id (request : Envelope) : request_frame b id request -> RpcDecode b = Ret request /\ RpcId b = Ret id.
Proof.
  intros (Hid & _ & payload & Hz & Hp & ->). pose proof (zlen_nonneg payload). split.
  - unfold RpcDecode, RpcFrameSize, rpc_frame. rewrite frame_zlen, (proj2 (Z.ltb_ge _ _)), take_KVR2 by lia. rewrite decide_False by (intros H'; by apply H').
    rewrite (slice_app_r (str "KVR2")) by done. rewrite take_app_length' by (by rewrite length_be_split). rewrite be_combine_split_small, bind_Ret, Z.eqb_refl by lia. cbn [negb].
    rewrite !app_assoc, (drop_app_length' _ _ 16) by (by rewrite !length_app, !length_be_split). by rewrite Hp.
  - unfold rpc_frame. rewrite RpcId_frame by lia. by rewrite (proj2 (Z.eqb_neq _ _)) by lia.
Qed.
Lemma Dispatch_rejects srv (b : bytes) st : ~ (exists id request, request_frame b id request) ->
  Dispatch srv b st = (st, Throw (KvError protocol)) \/ Dispatch srv b st = (st, Throw std_runtime_error).
Proof.
  intros Hno. unfold Dispatch, RpcDecode. destruct (zlen b <? RPC_HEADER) eqn:E1; [by left|]. unfold RpcFrameSize. rewrite E1. zify_bools.
  destruct (decide (take 4 b <> str "KVR2")) as [|Hk]; [by left|]. apply dec_stable in Hk. rewrite bind_Ret.
  destruct (Z.eqb_spec (RPC_HEADER + be_combine b.[4, 4]) (zlen b)) as [E2|]; cbn [negb]; [|by left].
  destruct (EnvelopeParse (drop 16 b)) as [request|] eqn:Ep; [|by left]. rewrite (lift_bind_Ret _ _ _ _ eq_refl), RpcId_combine by done.
  destruct (Z.eqb_spec (be_combine b.[8, 8]) 0) as [|Hid]; [by left|]. rewrite (lift_bind_Ret _ _ _ _ eq_refl).
  destruct (Z.eqb_spec (e_type request) REQUEST) as [Hty|]; cbn [negb]; [|by right]. exfalso. apply Hno. exists (be_combine b.[8, 8]), request.
  pose proof (be_combine_range b.[8, 8]) as Hr. rewrite length_take, length_drop in Hr. pose proof (be_combine_range b.[4, 4]) as Hr'. rewrite length_take, length_drop in Hr'.
  unfold zlen, RPC_HEADER in *. replace (8 `min` (length b - 8))%nat with 8%nat in Hr by lia. replace (4 `min` (length b - 4))%nat with 4%nat in Hr' by lia.
  split; [lia|]. split; [done|]. exists (drop 16 b). split; [unfold zlen; rewrite length_drop; lia|]. split; [done|]. apply rpc_frame_inv; unfold zlen, RPC_HEADER; [lia|done|lia].
Qed.

(** C33. What [Dispatch] does with any bytes of a connection, for a server whose registered callbacks have their declared types
    ([server_ok]), return or throw, and whose limit is under 2 GiB, the largest message protobuf serializes.  Bytes that are not the
    frame of a request, that is the magic number, the exact length, an identifier other than 0 and a message that parses as a
    request, are rejected with an exception and no callback runs.  A frame of a request is answered: its method is run
    on the arguments the request holds, or not at all when there is no such method (status 1) or the arguments are not of its
    types (status 2), and the reply is the frame with the same identifier of the result, or of status 3 when the callback throws;
    the whole input counts as consumed.  Only when that response exceeds the limit does it throw after the callback has run. *)
Theorem dispatch_safe srv (b : bytes) st :
  server_ok srv -> callbacks_return srv -> limit_ srv < 2 ^ 31 ->
  (~ (exists id request, request_frame b id request) ->
     Dispatch srv b st = (st, Throw (KvError protocol)) \/ Dispatch srv b st = (st, Throw std_runtime_error)) /\
  (forall id request, request_frame b id request ->
     exists st' r, answer srv request st st' r /\
       let payload := EnvelopeSerialize (response_of r) in
       (zlen payload <= limit_ srv -> Dispatch srv b st = (st', Ret (rpc_frame id payload, zlen b)) /\ EnvelopeParse payload = Some (response_of r)) /\
       (limit_ srv < zlen payload -> Dispatch srv b st = (st', Throw (KvError invalid_argument)))).
Proof.
  intros Hsrv Hc Hlim. split; [apply Dispatch_rejects|]. intros id request Hf. destruct (RpcDecode_request b id request Hf) as [Hd Hi].
  destruct Hf as (Hid & Hty & payload & _ & Hp & _). pose proof (envelope_parse_ok _ _ Hp) as Hok.
  destruct (respond_answer srv request st Hsrv Hc) as (st' & r & Hrun & (ret & Ho) & Ha); [by apply Hok|]. exists st', r. split; [done|]. cbv zeta.
  assert (Dispatch srv b st = (st', reply ← RpcEncode id (response_of r) (limit_ srv) ; Ret (reply, zlen b))) as ->.
  { unfold Dispatch. rewrite (lift_bind_Ret _ _ _ _ Hd), (lift_bind_Ret _ _ _ _ Hi), Hty. cbn [Z.eqb REQUEST negb]. fold response0. fold (respond_to srv request).
    rewrite (M_bind_run _ _ _ _ _ Hrun). by destruct (RpcEncode _ _ _). }
  pose proof (zlen_nonneg (EnvelopeSerialize (response_of r))). unfold RpcEncode. split; intros Hz.
  - rewrite (proj2 (Z.ltb_ge _ _)), (proj2 (Z.leb_gt _ _)), u32_small, id_bytes_be, app_nil_r by lia. split; [done|].
    apply envelope_parse_serialize; [by eapply response_ok|lia].
  - by rewrite (proj2 (Z.ltb_lt _ _)) by lia.
Qed.

End Correctness.
