(* ===== verification/RpcWitnesses.v ===== *)
(** A concrete envelope codec with the laws the RPC theorems assume, a server with two methods, and the
    RPC theorems applied to them. *)
From S2P Require Import Prelude RpcProtocol RpcServer RpcCorrectness.

(** * A codec *)

Fixpoint pos_bytes (p : positive) : bytes :=
  match p with xH => [] | xO p => Byte.x00 :: pos_bytes p | xI p => Byte.x01 :: pos_bytes p end.
Fixpoint pos_of (b : bytes) : option positive :=
  match b with
  | [] => Some xH
  | Byte.x00 :: b => p ← pos_of b ; Some (xO p)
  | Byte.x01 :: b => p ← pos_of b ; Some (xI p)
  | _ => None
  end.

Lemma pos_of_bytes p : pos_of (pos_bytes p) = Some p.
Proof. induction p as [p IH|p IH|]; cbn; by rewrite ?IH. Qed.

Definition kind_sum (k : Kind) : Z + (Z + (Z + (bool + (bytes + bytes)))) :=
  match k with
  | signed_value z => inl z
  | unsigned_value z => inr (inl z)
  | real_value z => inr (inr (inl z))
  | bool_value b => inr (inr (inr (inl b)))
  | string_value s => inr (inr (inr (inr (inl s))))
  | message_value s => inr (inr (inr (inr (inr s))))
  end.
Definition sum_kind (x : Z + (Z + (Z + (bool + (bytes + bytes))))) : Kind :=
  match x with
  | inl z => signed_value z
  | inr (inl z) => unsigned_value z
  | inr (inr (inl z)) => real_value z
  | inr (inr (inr (inl b))) => bool_value b
  | inr (inr (inr (inr (inl s)))) => string_value s
  | inr (inr (inr (inr (inr s)))) => message_value s
  end.
#[local] Instance Kind_countable : Countable Kind.
Proof. apply (inj_countable' kind_sum sum_kind). by intros []. Defined.

Definition fields : Type := Z * bytes * list Value * option Value * Z * bytes.
Definition to_fields (e : Envelope) : fields := (e_type e, e_method e, e_arguments e, e_result e, e_status e, e_error e).
Definition of_fields (f : fields) : Envelope := let '(t, m, a, r, s, x) := f in mkEnvelope t m a r s x.

Definition ascii_text (s : bytes) : bool := forallb (fun b => byte.unsigned b <? 128) s.
#[local] Instance value_ok_dec v : Decision (value_ok v).
Proof. destruct v as [[]|]; cbn; apply _. Defined.
Definition fields_ok (e : Envelope) : bool :=
  bool_decide (- 2 ^ 31 <= e_type e < 2 ^ 31) && ascii_text (e_method e) && bool_decide (Forall value_ok (e_arguments e)) &&
  match e_result e with Some v => bool_decide (value_ok v) | None => true end &&
  bool_decide (0 <= e_status e < 2 ^ 32) && ascii_text (e_error e).

#[local] Instance bit_codec : EnvelopeCodec := {|
  EnvelopeParse b := p ← pos_of b ; f ← decode p ; let e := of_fields f in if fields_ok e then Some e else None;
  EnvelopeSerialize e := pos_bytes (encode (to_fields e));
  utf8 := ascii_text
|}.

Lemma fields_ok_iff e : fields_ok e = true <-> envelope_ok e.
Proof.
  unfold fields_ok, envelope_ok. cbn [utf8 bit_codec]. rewrite !andb_true_iff, !bool_decide_eq_true.
  assert ((match e_result e with Some v => bool_decide (value_ok v) | None => true end) = true <-> (forall v, e_result e = Some v -> value_ok v)) as ->.
  { destruct (e_result e) as [v|]; [rewrite bool_decide_eq_true|]; (split; [|auto]); [by intros ? ? [= <-]|done]. }
  tauto.
Qed.

#[local] Instance bit_laws : EnvelopeLaws bit_codec.
Proof.
  split; cbn [EnvelopeParse EnvelopeSerialize utf8 bit_codec].
  - intros e He _. rewrite pos_of_bytes. cbn [mbind option_bind]. rewrite decode_encode. cbn [mbind option_bind]. cbv zeta.
    assert (of_fields (to_fields e) = e) as -> by (by destruct e). by rewrite (proj2 (fields_ok_iff e) He).
  - intros b e. destruct (pos_of b) as [p|]; [|done]. cbn [mbind option_bind].
    destruct (decode p : option fields) as [f|]; [|done]. cbn [mbind option_bind]. cbv zeta. destruct (fields_ok (of_fields f)) eqn:E; [|done].
    intros [= <-]. by apply fields_ok_iff.
  - intros s Hs. unfold ascii_text. induction Hs as [|b s Hb _ IH]; [done|]. cbn [forallb]. by rewrite IH, (proj2 (Z.ltb_lt _ _) Hb).
Qed.

(** The user's message type: raw bytes. *)
#[local] Instance raw_codec : MessageCodec bytes := {| MessageParse b := Some b; MessageSerialize b := b |}.
#[local] Instance raw_laws : MessageLaws raw_codec.
Proof. by split. Qed.

(** * A server *)

(** [add(int32_t, int64_t) -> int64_t], which counts its calls, and [void fail()], which throws. *)
Definition add : method bytes Z := mkMethod [TSigned 32; TSigned 64] (Some (TSigned 64)) (fun args n =>
  match args with
  | [CSigned _ x; CSigned _ y] => (n + 1, Ret (CSigned 64 ((x + y + 2 ^ 63) mod 2 ^ 64 - 2 ^ 63)))
  | _ => (n, Throw std_logic_error)
  end).
Definition fail : method bytes Z := mkMethod [] None (fun _ n => (n, Throw std_runtime_error)).

Definition calculator : rpc_server bytes Z := mkRpcServer 65536 (<[str "add" := add]> {[ str "fail" := fail ]}).

Lemma add_ok : method_ok add.
Proof.
  intros args n. cbn -[Z.pow]. destruct args as [|[] [|[] [|]]]; cbn -[Z.pow]; try done.
  pose proof (Z.mod_pos_bound (z + z0 + 2 ^ 63) (2 ^ 64) ltac:(lia)). split; [lia|]. split; [split; [done|lia]|done].
Qed.
Lemma calculator_ok : server_ok calculator.
Proof. apply map_Forall_insert_2; [apply add_ok|]. apply map_Forall_singleton. by intros args n. Qed.
Lemma calculator_returns : callbacks_return calculator.
Proof.
  apply map_Forall_insert_2; [|apply map_Forall_singleton; done].
  intros args n. cbn -[Z.pow]. by destruct args as [|[] [|[] [|]]].
Qed.

Lemma calculator_add : methods_ calculator !! str "add" = Some add.
Proof. apply lookup_insert_eq. Qed.

Definition call_args : list (cval bytes) := [CSigned 8 2; CSigned 32 40].
Lemma call_args_typed : Forall typed call_args.
Proof.
  repeat constructor; [exists (TSigned 8)|exists (TSigned 32)]; (split; [|split]); try done; cbn; lia.
Qed.

Definition sent : rpc_client * outcome (Z * bytes) := Call (str "add") call_args (mkRpcClient 65536 7).
Definition sent_bytes : bytes := match sent.2 with Ret (_, b) => b | _ => [] end.

(** The remote [add(2, 40)] returns 42 and counts one call. *)
Lemma rpc_call_refines_witness :
  exists reply, Dispatch calculator sent_bytes 0 = (1, Ret (reply, zlen sent_bytes)) /\ RpcId reply = Ret 7 /\
    complete (message := bytes) (Some (TSigned 64)) reply None = (Ret (Some (CSigned 64 42)), true).
Proof.
  destruct (rpc_call_refines calculator (mkRpcClient 65536 7) sent.1 (str "add") call_args (Some (TSigned 64)) 7 sent_bytes 0 1
              (Ret (Some (CSigned 64 42)))) as (reply & H1 & H2 & _ & H3).
  - exact calculator_ok.
  - intros m Hm. rewrite calculator_add in Hm. injection Hm as <-. reflexivity.
  - exact call_args_typed.
  - reflexivity.
  - cbn. lia.
  - apply outcome_of. vm_compute. reflexivity.
  - vm_compute. reflexivity.
  - discriminate.
  - discriminate.
  - vm_compute. split; congruence.
  - exists reply. split; [exact H1|]. split; [exact H2|exact H3].
Defined.

(** Text that is no frame is rejected; the request for [add(2, 40)] is answered with 42. *)
Lemma dispatch_safe_witness :
  (exists e, Dispatch calculator (str "GET / HTTP/1.1 - not an RPC frame") 0 = (0, Throw e)) /\
  Dispatch calculator sent_bytes 0 = (1, Ret (rpc_frame 7 (EnvelopeSerialize (response_of (Ret (Some (CSigned (message := bytes) 64 42))))), zlen sent_bytes)).
Proof.
  split.
  - destruct (dispatch_safe calculator (str "GET / HTTP/1.1 - not an RPC frame") 0 calculator_ok calculator_returns ltac:(cbn; lia)) as [H _].
    destruct H as [H|H]; [|eexists; exact H..]. intros (id & request & H). apply RpcDecode_request in H as [H _]. vm_compute in H. discriminate.
  - destruct (dispatch_safe calculator sent_bytes 0 calculator_ok calculator_returns ltac:(cbn; lia)) as [_ H].
    destruct (H 7 (mkEnvelope REQUEST (str "add") [Some (signed_value 2); Some (signed_value 40)] None 0 [])) as (st' & r & Ha & Hd & _).
    + split; [lia|]. split; [reflexivity|]. exists (drop 16 sent_bytes). split; [vm_compute; reflexivity|]. split; vm_compute; reflexivity.
    + clear H. unfold answer in Ha. cbn [e_method e_arguments] in Ha. rewrite calculator_add in Ha.
      assert (st' = 1 /\ r = Ret (Some (CSigned 64 42))) as [-> ->]; [|exact (proj1 (Hd ltac:(vm_compute; discriminate)))]. clear Hd.
      destruct Ha as [(args & Hr & Ha)|(Hno & _)].
      * apply Forall3_cons_inv_l in Hr as (? & ? & a1 & ? & [= <- <-] & -> & R1 & Hr).
        apply Forall3_cons_inv_l in Hr as (? & ? & a2 & ? & [= <- <-] & -> & R2 & Hr). inversion Hr; subst.
        destruct a1, R1 as [T1 R1]; try done. destruct a2, R2 as [T2 R2]; try done. cbn in R1, R2. subst. vm_compute in Ha. destruct Ha as [-> ->]. split; reflexivity.
      * exfalso. apply Hno. exists [CSigned 32 2; CSigned 64 40]. apply Forall3_cons; [|apply Forall3_cons; [|apply Forall3_nil]]; (split; [split; [reflexivity|lia]|reflexivity]).
Defined.
