(* ===== verification/Crc32.v ===== *)
(** The CRC of AOF records ([Crc] in KVCache/src/aof.cpp): the table, the table-driven
    loop, its equivalence with the bit-serial definition of the reflected polynomial
    0xEDB88320, and the burst-error detection that record checksums rely on. *)
From S2P Require Import Prelude.

(** [c = (c >> 1) ^ (0xedb88320u & (0u - (c & 1)))] *)
Definition crc_step (c : Z) : Z :=
  Z.lxor (Z.shiftr c 1) (Z.land 0xedb88320 (u32 (0 - Z.land c 1))).

Definition table_entry (i : Z) : Z := Nat.iter 8 crc_step i.

(** The lambda that fills the static table, and the table it leaves. *)
Definition make_table : list Z := table_entry <$> seqZ 0 256.
Definition table : list Z := Eval vm_compute in make_table.

(** [crc = table[(crc ^ data[i]) & 255] ^ (crc >> 8)] *)
Definition crc_update (crc : Z) (b : byte) : Z :=
  Z.lxor (table !!! Z.to_nat (Z.land (Z.lxor crc (byte.unsigned b)) 255)) (Z.shiftr crc 8).

Definition Crc (data : bytes) : Z :=
  u32 (Z.lnot (fold_left crc_update data 0xffffffff)).

(** Bit-serial reference: eight shifts of the register per byte, no table. *)
Definition crc_update_ref (crc : Z) (b : byte) : Z :=
  Nat.iter 8 crc_step (Z.lxor crc (byte.unsigned b)).
Definition crc_ref (data : bytes) : Z :=
  u32 (Z.lnot (fold_left crc_update_ref data 0xffffffff)).

(** * The register step *)

Definition is_u32 (z : Z) : Prop := 0 <= z < 2 ^ 32.

Lemma crc_step_odd c :
  crc_step c = Z.lxor (Z.shiftr c 1) (if Z.odd c then 0xedb88320 else 0).
Proof.
  unfold crc_step. f_equal. change (Z.land c 1) with (Z.land c (Z.ones 1)). rewrite Z.land_ones, Z.pow_1_r, Zmod_odd by lia.
  by destruct (Z.odd c).
Qed.

Lemma odd_lxor a b : Z.odd (Z.lxor a b) = xorb (Z.odd a) (Z.odd b).
Proof. by rewrite <-!Z.bit0_odd, Z.lxor_spec. Qed.

Lemma crc_step_lxor a b : crc_step (Z.lxor a b) = Z.lxor (crc_step a) (crc_step b).
Proof.
  rewrite !crc_step_odd, odd_lxor, Z.shiftr_lxor.
  apply Z.bits_inj'. intros n Hn. rewrite !Z.lxor_spec.
  destruct (Z.odd a), (Z.odd b); simpl; rewrite ?Z.bits_0; btauto.
Qed.

Lemma crc_iter_lxor n a b :
  Nat.iter n crc_step (Z.lxor a b) = Z.lxor (Nat.iter n crc_step a) (Nat.iter n crc_step b).
Proof. induction n as [|n IH]; [done|]. simpl. by rewrite IH, crc_step_lxor. Qed.

Lemma crc_step_double a : crc_step (Z.shiftl a 1) = a.
Proof.
  rewrite crc_step_odd, Z.shiftl_mul_pow2, Z.pow_1_r, Z.mul_comm, Z.odd_mul by lia. simpl.
  by rewrite Z.lxor_0_r, Z.shiftr_div_pow2, Z.pow_1_r, Z.mul_comm, Z.div_mul by lia.
Qed.

Lemma crc_iter_shiftl n a : Nat.iter n crc_step (Z.shiftl a (Z.of_nat n)) = a.
Proof.
  revert a. induction n as [|n IH]; intros a; [apply Z.shiftl_0_r|].
  rewrite Nat.iter_succ_r. replace (Z.of_nat (S n)) with (Z.of_nat n + 1) by lia.
  rewrite <-Z.shiftl_shiftl by lia. by rewrite crc_step_double.
Qed.

Lemma is_u32_testbit z : is_u32 z -> forall n, 32 <= n -> Z.testbit z n = false.
Proof.
  intros Hz n Hn. destruct (Z.eq_dec z 0) as [->|Hnz]; [apply Z.bits_0|].
  apply Z.bits_above_log2; [unfold is_u32 in Hz; lia|].
  apply Z.log2_lt_pow2; [unfold is_u32 in Hz; lia|].
  eapply Z.lt_le_trans; [apply Hz|]. apply Z.pow_le_mono_r; lia.
Qed.

Lemma is_u32_of_bits z : 0 <= z -> (forall n, 32 <= n -> Z.testbit z n = false) -> is_u32 z.
Proof.
  intros Hz Hb. split; [done|]. destruct (Z.lt_ge_cases z (2 ^ 32)) as [|Hge]; [done|exfalso].
  assert (0 < z) by lia. assert (32 <= Z.log2 z) by (apply Z.log2_le_pow2; lia).
  pose proof (Z.bit_log2 z ltac:(lia)) as Ht. by rewrite Hb in Ht.
Qed.

Lemma is_u32_lxor a b : is_u32 a -> is_u32 b -> is_u32 (Z.lxor a b).
Proof.
  intros Ha Hb. apply is_u32_of_bits.
  - apply Z.lxor_nonneg. unfold is_u32 in *. lia.
  - intros n Hn. by rewrite Z.lxor_spec, !is_u32_testbit.
Qed.

Lemma is_u32_shiftr a n : 0 <= n -> is_u32 a -> is_u32 (Z.shiftr a n).
Proof.
  intros Hn Ha. apply is_u32_of_bits.
  - apply Z.shiftr_nonneg. apply Ha.
  - intros m Hm. rewrite Z.shiftr_spec by lia. apply is_u32_testbit; [done|lia].
Qed.

Lemma is_u32_byte b : is_u32 (byte.unsigned b).
Proof. pose proof (byte.unsigned_range b). unfold is_u32. lia. Qed.

Lemma crc_step_u32 c : is_u32 c -> is_u32 (crc_step c).
Proof.
  intros. rewrite crc_step_odd. apply is_u32_lxor; [by apply is_u32_shiftr|].
  unfold is_u32. by destruct (Z.odd c).
Qed.

Lemma crc_iter_u32 n c : is_u32 c -> is_u32 (Nat.iter n crc_step c).
Proof. intros. induction n; simpl; auto using crc_step_u32. Qed.

#[export] Hint Resolve is_u32_lxor is_u32_byte crc_step_u32 crc_iter_u32 is_u32_shiftr : kv.

(** The shifted-out bit can be read back from bit 31, so the step loses nothing. *)
Lemma crc_step_inj c d : is_u32 c -> is_u32 d -> crc_step c = crc_step d -> c = d.
Proof.
  intros Hc Hd. rewrite !crc_step_odd. intros E.
  assert (Z.odd c = Z.odd d) as Eo.
  { pose proof (f_equal (fun z => Z.testbit z 31) E) as E31. cbv beta in E31.
    rewrite !Z.lxor_spec, !Z.shiftr_spec, (is_u32_testbit c), (is_u32_testbit d) in E31 by (done || lia).
    destruct (Z.odd c), (Z.odd d); try done; vm_compute in E31; done. }
  rewrite Eo in E. assert (Z.shiftr c 1 = Z.shiftr d 1) as Es.
  { apply Z.bits_inj'. intros n Hn. pose proof (f_equal (fun z => Z.testbit z n) E) as En. cbv beta in En.
    rewrite !Z.lxor_spec in En. by destruct (Z.testbit (Z.shiftr c 1) n), (Z.testbit (Z.shiftr d 1) n), (Z.testbit _ n). }
  rewrite !Z.shiftr_div_pow2, Z.pow_1_r in Es by lia.
  rewrite (Z.div_mod c 2), (Z.div_mod d 2), !Zmod_odd, Es, Eo by lia. done.
Qed.

Lemma crc_iter_inj n c d :
  is_u32 c -> is_u32 d -> Nat.iter n crc_step c = Nat.iter n crc_step d -> c = d.
Proof. intros. induction n; simpl in *; eauto using crc_step_inj, crc_iter_u32. Qed.

(** * The table *)

Lemma table_lookup i : 0 <= i < 256 -> table !!! Z.to_nat i = table_entry i.
Proof.
  intros Hi. change table with make_table. unfold make_table. apply list_lookup_total_correct.
  rewrite list_lookup_fmap, lookup_seqZ_lt by lia. simpl. f_equal. f_equal. lia.
Qed.

Lemma land_255_range z : 0 <= Z.land z 255 < 256.
Proof. change 255 with (Z.ones 8). rewrite Z.land_ones by lia. apply Z.mod_pos_bound. lia. Qed.

(** A register is its low byte plus the rest, shifted. *)
Lemma low_byte_split x : x = Z.lxor (Z.land x 255) (Z.shiftl (Z.shiftr x 8) 8).
Proof.
  apply Z.bits_inj'. intros n Hn. change 255 with (Z.ones 8).
  rewrite Z.lxor_spec, Z.land_spec, Z.shiftl_spec by lia.
  destruct (Z.lt_ge_cases n 8).
  - rewrite Z.ones_spec_low, (Z.testbit_neg_r _ (n - 8)) by lia. btauto.
  - rewrite Z.ones_spec_high, Z.shiftr_spec by lia. replace (n - 8 + 8) with n by lia. btauto.
Qed.

Lemma crc_iter8 x : Nat.iter 8 crc_step x = Z.lxor (table_entry (Z.land x 255)) (Z.shiftr x 8).
Proof.
  rewrite (low_byte_split x) at 1. rewrite crc_iter_lxor.
  pose proof (crc_iter_shiftl 8 (Z.shiftr x 8)) as E. change (Z.of_nat 8) with 8 in E. by rewrite E.
Qed.

Lemma shiftr8_byte b : Z.shiftr (byte.unsigned b) 8 = 0.
Proof. pose proof (byte.unsigned_range b). rewrite Z.shiftr_div_pow2 by lia. by apply Z.div_small. Qed.

Lemma crc_update_eq crc b : crc_update crc b = crc_update_ref crc b.
Proof.
  unfold crc_update, crc_update_ref. rewrite crc_iter8, table_lookup by apply land_255_range.
  by rewrite Z.shiftr_lxor, shiftr8_byte, Z.lxor_0_r.
Qed.

Lemma crc_fold_eq data crc : fold_left crc_update data crc = fold_left crc_update_ref data crc.
Proof. revert crc. induction data as [|b data IH]; intros crc; [done|]. simpl. by rewrite crc_update_eq. Qed.

(** * The register over a whole message *)

Lemma crc_fold_u32 data crc : is_u32 crc -> is_u32 (fold_left crc_update data crc).
Proof.
  revert crc. induction data as [|b data IH]; intros crc Hc; [done|]. simpl. apply IH.
  rewrite crc_update_eq. unfold crc_update_ref. auto with kv.
Qed.

Lemma crc_fold_inj data c d :
  is_u32 c -> is_u32 d -> fold_left crc_update data c = fold_left crc_update data d -> c = d.
Proof.
  revert c d. induction data as [|b data IH]; intros c d Hc Hd; [done|]. simpl. rewrite !crc_update_eq.
  unfold crc_update_ref. intros E. apply IH in E; [|auto with kv..]. apply crc_iter_inj in E; [|auto with kv..].
  apply (f_equal (fun z => Z.lxor z (byte.unsigned b))) in E.
  by rewrite !Z.lxor_assoc, !Z.lxor_nilpotent, !Z.lxor_0_r in E.
Qed.

(** The register after a message is the bit-serial division of the whole message. *)
Lemma crc_fold_iter data crc :
  fold_left crc_update data crc = Nat.iter (8 * length data) crc_step (Z.lxor crc (le_combine data)).
Proof.
  revert crc. induction data as [|b data IH]; intros crc; [by rewrite le_combine_nil, Z.lxor_0_r|].
  simpl fold_left. rewrite IH, crc_update_eq. unfold crc_update_ref.
  replace (8 * length (b :: data))%nat with (8 * length data + 8)%nat by (simpl; lia).
  rewrite Nat.iter_add. f_equal. change (b :: data) with ([b] ++ data).
  rewrite le_combine_app, le_combine_1. simpl length. change (Z.of_nat 1 * 8) with (Z.of_nat 8).
  rewrite <-Z.add_nocarry_lor, Z.add_nocarry_lxor, <-Z.lxor_assoc, (crc_iter_lxor _ (Z.lxor crc _)), crc_iter_shiftl;
    [done|..]; apply Z.bits_inj'; intros n Hn; rewrite Z.land_spec, Z.bits_0.
  all: destruct (Z.lt_ge_cases n 8); [rewrite Z.shiftl_spec_low by lia; btauto|].
  all: pose proof (byte.unsigned_range b); rewrite (testbit_above (p := 8)) by lia; btauto.
Qed.

Lemma crc_init_u32 : is_u32 0xffffffff.
Proof. done. Qed.
#[export] Hint Resolve crc_init_u32 crc_fold_u32 : kv.

Lemma Crc_u32 data : is_u32 (Crc data).
Proof. apply Z.mod_pos_bound. lia. Qed.

Lemma u32_lnot_inj a b : is_u32 a -> is_u32 b -> u32 (Z.lnot a) = u32 (Z.lnot b) -> a = b.
Proof. unfold is_u32, u32, Z.lnot. intros. pose proof (Z.mod_unique (Z.pred (- a)) (2 ^ 32) (-1) (2 ^ 32 - 1 - a)).
  pose proof (Z.mod_unique (Z.pred (- b)) (2 ^ 32) (-1) (2 ^ 32 - 1 - b)). lia. Qed.

Lemma le_combine_u32 w : (length w <= 4)%nat -> is_u32 (le_combine w).
Proof.
  intros. pose proof (le_combine_bound w) as [? Hb]. split; [done|]. eapply Z.lt_le_trans; [exact Hb|].
  apply Z.pow_le_mono_r; lia.
Qed.

(** IEEE CRC-32 check value of "123456789". *)
Example Crc_check : Crc (str "123456789") = 0xCBF43926.
Proof. vm_compute. reflexivity. Qed.

(** Burst detection: two messages that differ only inside a window of at most four
    consecutive bytes (32 bits) never have the same CRC. *)
Lemma Crc_detects_burst p w1 w2 s :
  length w1 = length w2 -> (length w1 <= 4)%nat -> w1 <> w2 ->
  Crc (p ++ w1 ++ s) <> Crc (p ++ w2 ++ s).
Proof.
  intros Hl Hs Hne E. apply Hne. unfold Crc in E.
  rewrite !fold_left_app in E. apply u32_lnot_inj in E; [|auto with kv..].
  apply crc_fold_inj in E; [|auto with kv..].
  rewrite (crc_fold_iter w1), (crc_fold_iter w2), Hl in E.
  apply crc_iter_inj in E; [|apply is_u32_lxor; [by auto with kv|apply le_combine_u32; lia]..].
  apply (f_equal (Z.lxor (fold_left crc_update p 0xffffffff))) in E.
  rewrite <-!Z.lxor_assoc, !Z.lxor_nilpotent, !Z.lxor_0_l in E.
  by apply le_combine_inj.
Qed.

(** * Properties *)

(** C39. The table-driven loop computes the bit-serial CRC-32 of the reflected polynomial,
    for every input: the table is an optimisation and nothing else. *)
Theorem Crc_table_driven_eq data : Crc data = crc_ref data.
Proof. unfold Crc, crc_ref. by rewrite crc_fold_eq. Qed.
