(* ===== verification/LruCache.v ===== *)
(** [kvcache::LRUCache] (KVCache/include/lru_cache.h): the list of entries, the hash index of
    list iterators into it, and the accounting.  List nodes have addresses and the index stores
    addresses, so a dangling iterator is representable ([Undef]); the invariant rules it out.
    [Spec] is the index-free contract, a list of entries in recency order, and every operation
    is proved to implement it. *)
From S2P Require Import Prelude.

(** [Cost]: [size()] of a string, [sizeof(T)] of anything else. *)
Class Cost (T : Type) := { cost : T -> Z; cost_nonneg x : 0 <= cost x }.
#[export] Instance Cost_string : Cost bytes := {| cost := zlen; cost_nonneg := zlen_nonneg |}.
Definition Cost_sizeof (T : Type) (n : Z) (Hn : 0 <= n) : Cost T := {| cost := fun _ => n; cost_nonneg _ := Hn |}.

(** [sizeof(Entry)], fixed by the ABI. *)
Class Layout := { sizeof_Entry : Z; sizeof_Entry_nonneg : 0 <= sizeof_Entry }.
#[export] Hint Resolve cost_nonneg sizeof_Entry_nonneg : kv.

(** Two strings of 32 bytes and two 64-bit integers (libstdc++, x86-64). *)
Definition Layout_x86_64 : Layout := {| sizeof_Entry := 80; sizeof_Entry_nonneg := ltac:(lia) |}.

Module LruCache.
Section LruCache.
Context {Key Value : Type} {eqK : EqDecision Key} {cntK : Countable Key}.
Context {costK : Cost Key} {costV : Cost Value} {layout : Layout}.

Record Entry := mkEntry { e_key : Key; e_value : Value; e_expires : Z; e_bytes : Z }.
Record Stats := mkStats { hits : Z; misses : Z; s_bytes : Z; evictions : Z }.

(** A list node: its address and its entry. *)
Abbreviation node := (nat * Entry)%type.

Record lru := mkLru {
  capacity_ : Z;
  max_bytes_ : Z;
  items_ : list node;
  index_ : gmap Key nat;
  next_node : nat;
  stats_ : Stats
}.

Definition set_items (f : list node -> list node) (c : lru) : lru :=
  mkLru (capacity_ c) (max_bytes_ c) (f (items_ c)) (index_ c) (next_node c) (stats_ c).
Definition set_index (f : gmap Key nat -> gmap Key nat) (c : lru) : lru :=
  mkLru (capacity_ c) (max_bytes_ c) (items_ c) (f (index_ c)) (next_node c) (stats_ c).
Definition set_stats (f : Stats -> Stats) (c : lru) : lru :=
  mkLru (capacity_ c) (max_bytes_ c) (items_ c) (index_ c) (next_node c) (f (stats_ c)).

(** [size_t] counters wrap. *)
Definition add_bytes (n : Z) (s : Stats) : Stats :=
  mkStats (hits s) (misses s) (u64 (s_bytes s + n)) (evictions s).
Definition sub_bytes (n : Z) (s : Stats) : Stats :=
  mkStats (hits s) (misses s) (u64 (s_bytes s - n)) (evictions s).
Definition incr_hits (s : Stats) : Stats := mkStats (u64 (hits s + 1)) (misses s) (s_bytes s) (evictions s).
Definition incr_misses (s : Stats) : Stats := mkStats (hits s) (u64 (misses s + 1)) (s_bytes s) (evictions s).
Definition incr_evictions (s : Stats) : Stats := mkStats (hits s) (misses s) (s_bytes s) (u64 (evictions s + 1)).

(** Constructor: both limits must be positive. *)
Definition make (capacity max_bytes : Z) : outcome lru :=
  if (capacity =? 0) || (max_bytes =? 0) then Throw std_invalid_argument
  else Ret (mkLru capacity max_bytes [] ∅ 0 (mkStats 0 0 0 0)).

(** [now] is the reading of [UnixMilliseconds()] during the call. *)
Definition Expired (now : Z) (e : Entry) : bool :=
  negb (e_expires e =? 0) && (e_expires e <=? now).

Definition entry_cost (k : Key) (v : Value) : Z := u64 (cost k + cost v + sizeof_Entry).

Definition canStore (c : lru) (k : Key) (v : Value) : bool := entry_cost k v <=? max_bytes_ c.

(** ** List and iterator primitives *)

Fixpoint find_node (l : list node) (it : nat) : option Entry :=
  match l with
  | [] => None
  | (n, e) :: l => if decide (n = it) then Some e else find_node l it
  end.

(** [*it]; dereferencing an iterator that is not in the list is undefined. *)
Definition deref (it : nat) : M lru Entry := fun c =>
  match find_node (items_ c) it with Some e => (c, Ret e) | None => (c, Undef) end.

Definition erase_node (it : nat) (l : list node) : list node := filter (fun p => p.1 <> it) l.

Definition push_front (e : Entry) : M lru unit := fun c =>
  (mkLru (capacity_ c) (max_bytes_ c) ((next_node c, e) :: items_ c) (index_ c) (S (next_node c)) (stats_ c), Ret tt).

Definition begin_ : M lru nat := fun c =>
  match items_ c with (n, _) :: _ => (c, Ret n) | [] => (c, Undef) end.

(** [std::prev(items_.end())] *)
Definition prev_end : M lru nat := fun c =>
  match list.last (items_ c) with Some (n, _) => (c, Ret n) | None => (c, Undef) end.

(** [items_.splice(items_.begin(), items_, it)] *)
Definition splice_front (it : nat) : M lru unit :=
  e ← deref it; modify (set_items (fun l => (it, e) :: erase_node it l)).

(** ** Operations *)

Definition Erase (it : nat) : M lru unit :=
  e ← deref it;
  _ ← modify (set_stats (sub_bytes (e_bytes e)));
  _ ← modify (set_index (delete (e_key e)));
  modify (set_items (erase_node it)).

Definition over_limit (c : lru) : bool :=
  (capacity_ c <? zlen (items_ c)) || (max_bytes_ c <? s_bytes (stats_ c)).

(** [while (over limit) { Erase(std::prev(items_.end())); ++stats_.evictions; }] *)
Fixpoint evict_loop (fuel : nat) : M lru unit := fun c =>
  if over_limit c then
    match fuel with
    | O => (c, Blocked)
    | S fuel =>
        (it ← prev_end; _ ← Erase it; _ ← modify (set_stats incr_evictions); evict_loop fuel) c
    end
  else (c, Ret tt).

(** What the allocator grants a call that stores: both nodes, none for the list, or none for the index. *)
Inductive memory := Ample | NoListNode | NoIndexNode.

Definition put (now : Z) (mem : memory) (k : Key) (v : Value) (expires : Z) : M lru unit :=
  let bytes := entry_cost k v in
  c ← get_state;
  if max_bytes_ c <? bytes then throw std_length_error
  else
    let old := index_ c !! k in
    if negb (expires =? 0) && (expires <=? now) then
      match old with Some it => Erase it | None => mret tt end
    else
      _ ← match mem with NoListNode => throw std_bad_alloc | _ => push_front (mkEntry k v expires bytes) end;
      _ ← match old with
          | Some it =>
              e ← deref it;
              _ ← modify (set_stats (sub_bytes (e_bytes e)));
              _ ← modify (set_items (erase_node it));
              b ← begin_;
              modify (set_index <[k := b]>)
          | None =>
              match mem with
              | NoIndexNode => _ ← modify (set_items tail); throw std_bad_alloc
              | _ => b ← begin_; modify (set_index <[k := b]>)
              end
          end;
      _ ← modify (set_stats (add_bytes bytes));
      c ← get_state;
      evict_loop (length (items_ c)).

Definition get (now : Z) (k : Key) : M lru (option Value) :=
  c ← get_state;
  found ← match index_ c !! k with
          | Some it =>
              e ← deref it;
              if Expired now e then _ ← Erase it; mret None else mret (Some it)
          | None => mret None
          end;
  match found with
  | None => _ ← modify (set_stats incr_misses); mret None
  | Some it =>
      _ ← modify (set_stats incr_hits);
      _ ← splice_front it;
      e ← deref it;
      mret (Some (e_value e))
  end.

Definition exists_ (now : Z) (k : Key) : M lru bool :=
  c ← get_state;
  match index_ c !! k with
  | None => mret false
  | Some it =>
      e ← deref it;
      if Expired now e then _ ← Erase it; mret false else mret true
  end.

Definition remove (k : Key) : M lru bool :=
  c ← get_state;
  match index_ c !! k with
  | None => mret false
  | Some it => _ ← Erase it; mret true
  end.

Definition size (c : lru) : Z := zlen (items_ c).
Definition getStats (c : lru) : Stats := stats_ c.

(** Oldest first; [nows i] is the clock reading when the [i]-th node is visited. *)
Fixpoint snapshot_from (nows : nat -> Z) (l : list node) : list Entry :=
  match l with
  | [] => []
  | (_, e) :: l =>
      let rest := snapshot_from (fun i => nows (S i)) l in
      if negb (Expired (nows O) e) then e :: rest else rest
  end.
Definition snapshot (nows : nat -> Z) (c : lru) : list Entry := snapshot_from nows (reverse (items_ c)).

(** ** Contract: a list of entries, most recently used first, no index *)

Definition entries (c : lru) : list Entry := (items_ c).*2.

Definition sum_bytes (l : list Entry) : Z := foldr (fun e z => e_bytes e + z) 0 l.

Definition spec_remove (k : Key) (l : list Entry) : list Entry := filter (fun e => e_key e <> k) l.
Fixpoint spec_find (k : Key) (l : list Entry) : option Entry :=
  match l with
  | [] => None
  | e :: l => if decide (e_key e = k) then Some e else spec_find k l
  end.

(** The longest prefix within [cap] entries and [budget] bytes. *)
Fixpoint fit (cap budget : Z) (l : list Entry) : list Entry :=
  match l with
  | [] => []
  | e :: l => if (1 <=? cap) && (e_bytes e <=? budget) then e :: fit (cap - 1) (budget - e_bytes e) l else []
  end.

Definition spec_put (cap max now : Z) (k : Key) (v : Value) (expires : Z) (l : list Entry) : list Entry :=
  if negb (expires =? 0) && (expires <=? now) then spec_remove k l
  else fit cap max (mkEntry k v expires (entry_cost k v) :: spec_remove k l).

Definition spec_get (now : Z) (k : Key) (l : list Entry) : list Entry * option Value :=
  match spec_find k l with
  | None => (l, None)
  | Some e => if Expired now e then (spec_remove k l, None) else (e :: spec_remove k l, Some (e_value e))
  end.

(** ** Invariant *)

(** [exact] tells whether the costs of the entries, sizes of objects in memory, are known to add up below 2^64; the
    byte counter is their sum modulo 2^64 in any case. *)
Record Wf (exact : Prop) (c : lru) : Prop := {
  wf_nodup : NoDup (items_ c).*1;
  wf_fresh : Forall (fun p => (p.1 < next_node c)%nat) (items_ c);
  wf_index : forall k n, index_ c !! k = Some n <-> exists e, (n, e) ∈ items_ c /\ e_key e = k;
  wf_cost : Forall (fun e => e_bytes e = entry_cost (e_key e) (e_value e)) (entries c);
  wf_counter : s_bytes (stats_ c) = u64 (sum_bytes (entries c));
  wf_range : exact -> sum_bytes (entries c) < 2 ^ 64
}.

Record Good (exact : Prop) (c : lru) : Prop := {
  inv_wf : Wf exact c;
  inv_cap : 1 <= capacity_ c;
  inv_max : 1 <= max_bytes_ c < 2 ^ 64;
  inv_size : zlen (items_ c) <= capacity_ c;
  inv_limit : exact -> s_bytes (stats_ c) <= max_bytes_ c
}.
#[local] Arguments wf_nodup {exact} c. #[local] Arguments wf_fresh {exact} c. #[local] Arguments wf_index {exact} c.
#[local] Arguments wf_cost {exact} c. #[local] Arguments wf_counter {exact} c. #[local] Arguments wf_range {exact} c.
#[local] Arguments inv_wf {exact} c. #[local] Arguments inv_cap {exact} c. #[local] Arguments inv_max {exact} c.
#[local] Arguments inv_size {exact} c. #[local] Arguments inv_limit {exact} c.

(** The invariant of a cache whose byte counter is exact. *)
Definition Inv : lru -> Prop := Good True.

(** ** List lemmas *)

Lemma entry_cost_nonneg k v : 0 <= entry_cost k v.
Proof. apply u64_range. Qed.

Lemma find_node_Some l n e : NoDup l.*1 -> (n, e) ∈ l -> find_node l n = Some e.
Proof.
  induction l as [|[m e'] l IH]; simpl; intros Hnd Hin; [by apply not_elem_of_nil in Hin|].
  apply NoDup_cons in Hnd as [Hm Hnd]. apply elem_of_cons in Hin as [[= -> ->]|Hin].
  - by rewrite decide_True.
  - rewrite decide_False; [auto|]. intros ->. apply Hm. apply list_elem_of_fmap. by exists (n, e).
Qed.

Lemma nodup_fst_inj (l : list node) n e e' : NoDup l.*1 -> (n, e) ∈ l -> (n, e') ∈ l -> e = e'.
Proof. intros Hnd H1 H2. apply (find_node_Some _ _ _ Hnd) in H1, H2. congruence. Qed.

Lemma filter_fmap_snd (P : Entry -> Prop) `{forall x, Decision (P x)} (l : list node) :
  (filter (fun p => P p.2) l).*2 = filter P l.*2.
Proof. induction l as [|[n e] l IH]; [done|]. rewrite fmap_cons, !filter_cons. simpl. by case_decide; rewrite ?fmap_cons, IH. Qed.

Lemma sum_bytes_app l k : sum_bytes (l ++ k) = sum_bytes l + sum_bytes k.
Proof. induction l; simpl; lia. Qed.

Definition bytes_nonneg (l : list Entry) : Prop := Forall (fun e => 0 <= e_bytes e) l.
Lemma sum_bytes_nonneg l : bytes_nonneg l -> 0 <= sum_bytes l.
Proof. induction 1; simpl; lia. Qed.

Lemma cost_bytes_nonneg l :
  Forall (fun e => e_bytes e = entry_cost (e_key e) (e_value e)) l -> bytes_nonneg l.
Proof. intros Hf. eapply Forall_impl; [exact Hf|]. intros e ->. apply entry_cost_nonneg. Qed.

Lemma sum_bytes_remove k e (l : list Entry) :
  NoDup (e_key <$> l) -> e ∈ l -> e_key e = k -> sum_bytes l = e_bytes e + sum_bytes (spec_remove k l).
Proof.
  induction l as [|x l IH]; intros Hnd Hin Hk; [by apply not_elem_of_nil in Hin|].
  rewrite fmap_cons in Hnd. apply NoDup_cons in Hnd as [Hx Hnd].
  unfold spec_remove. rewrite filter_cons. apply elem_of_cons in Hin as [->|Hin].
  - rewrite decide_False by tauto. simpl. f_equal. f_equal. symmetry. apply filter_all_in.
    intros y Hy ?. apply Hx, list_elem_of_fmap. exists y. split; [congruence|done].
  - rewrite decide_True; [simpl; fold (spec_remove k l); rewrite (IH Hnd Hin Hk); lia|].
    intros ?. apply Hx. apply list_elem_of_fmap. exists e. split; [congruence|done].
Qed.

(** ** Evicting from the back keeps the longest fitting prefix *)

Lemma fit_all cap budget l :
  bytes_nonneg l -> zlen l <= cap -> sum_bytes l <= budget -> fit cap budget l = l.
Proof.
  intros Hnn. revert cap budget. induction Hnn as [|e l He Hl IH]; intros cap budget Hc Hb; [done|].
  simpl in *. rewrite zlen_cons in Hc. pose proof (zlen_nonneg l). pose proof (sum_bytes_nonneg l Hl).
  replace ((1 <=? cap) && (e_bytes e <=? budget))%bool with true by lia. f_equal. apply IH; lia.
Qed.

Lemma fit_snoc cap budget l x :
  bytes_nonneg (l ++ [x]) -> cap < zlen (l ++ [x]) \/ budget < sum_bytes (l ++ [x]) ->
  fit cap budget (l ++ [x]) = fit cap budget l.
Proof.
  revert cap budget. induction l as [|e l IH]; intros cap budget Hnn Hover; simpl in *.
  - destruct (_ && _)%bool eqn:E; [|done]. autorewrite with kv in Hover. lia.
  - apply Forall_cons in Hnn as [He Hl]. autorewrite with kv in *.
    destruct (_ && _)%bool eqn:E; [|done]. f_equal. apply IH; [done|]. autorewrite with kv. lia.
Qed.

Lemma fit_prefix cap budget l : fit cap budget l `prefix_of` l.
Proof.
  revert cap budget. induction l as [|e l IH]; intros cap budget; [done|]. simpl.
  destruct (_ && _)%bool; [apply prefix_cons, IH|apply prefix_nil].
Qed.

Lemma fit_limits cap budget l :
  0 <= cap -> 0 <= budget -> zlen (fit cap budget l) <= cap /\ sum_bytes (fit cap budget l) <= budget.
Proof.
  revert cap budget. induction l as [|e l IH]; intros cap budget Hc Hb; simpl; [done|].
  destruct (_ && _)%bool eqn:E; simpl; [|done]. rewrite zlen_cons.
  destruct (IH (cap - 1) (budget - e_bytes e)); lia.
Qed.

(** ** Structural lemmas *)

Lemma wf_key_inj {x} c n e m e' :
  Wf x c -> (n, e) ∈ items_ c -> (m, e') ∈ items_ c -> e_key e = e_key e' -> (n, e) = (m, e').
Proof.
  intros Hw Hn Hm Hk. assert (index_ c !! e_key e = Some n) as E1 by (apply (wf_index c Hw); eauto).
  assert (index_ c !! e_key e = Some m) as E2 by (apply (wf_index c Hw); eauto).
  assert (n = m) as -> by congruence. f_equal. eapply nodup_fst_inj; [apply Hw|done|done].
Qed.

Lemma wf_nodup_keys {x} c : Wf x c -> NoDup (e_key <$> entries c).
Proof.
  intros Hw. unfold entries. rewrite <-list_fmap_compose. apply NoDup_fmap_2_strong.
  - intros [n e] [m e'] Hn Hm E. by eapply wf_key_inj.
  - eapply NoDup_fmap_1, (wf_nodup c Hw).
Qed.

Lemma erase_node_view {x} c n e :
  Wf x c -> (n, e) ∈ items_ c -> erase_node n (items_ c) = filter (fun p => e_key p.2 <> e_key e) (items_ c).
Proof.
  intros Hw Hin. apply filter_ext_in. intros [m e'] Hm. simpl. split; intros Hne E; apply Hne.
  - assert ((n, e) = (m, e')) by (by eapply wf_key_inj). congruence.
  - subst m. by rewrite (nodup_fst_inj _ _ _ _ (wf_nodup c Hw) Hin Hm).
Qed.

Lemma entries_erase {x} c n e :
  Wf x c -> (n, e) ∈ items_ c -> (erase_node n (items_ c)).*2 = spec_remove (e_key e) (entries c).
Proof.
  intros Hw Hin. rewrite (erase_node_view c n e Hw Hin). unfold spec_remove, entries.
  exact (filter_fmap_snd (fun x => e_key x <> e_key e) (items_ c)).
Qed.

Lemma wf_sum_erase {x} c n e :
  Wf x c -> (n, e) ∈ items_ c -> sum_bytes (entries c) = e_bytes e + sum_bytes (spec_remove (e_key e) (entries c)).
Proof.
  intros Hw Hin. eapply sum_bytes_remove; [exact (wf_nodup_keys c Hw)| |done].
  apply list_elem_of_fmap. by exists (n, e).
Qed.

Lemma wf_index_deref {x} c k n :
  Wf x c -> index_ c !! k = Some n ->
  exists e, (n, e) ∈ items_ c /\ e_key e = k /\ find_node (items_ c) n = Some e.
Proof.
  intros Hw (e & Hin & Hk)%(wf_index c Hw). exists e. split_and!; [done..|].
  eapply find_node_Some; [apply Hw|done].
Qed.

Lemma wf_index_none {x} c k : Wf x c -> index_ c !! k = None -> spec_remove k (entries c) = entries c.
Proof.
  intros Hw Hn. apply filter_all_in. intros e Hi Hk. apply list_elem_of_fmap in Hi as ([n e'] & -> & Hin). simpl in *.
  assert (index_ c !! k = Some n) by (apply (wf_index c Hw); eauto). congruence.
Qed.

Lemma spec_find_Some k e l : NoDup (e_key <$> l) -> e ∈ l -> e_key e = k -> spec_find k l = Some e.
Proof.
  induction l as [|x l IH]; intros Hnd Hin Hk; [by apply not_elem_of_nil in Hin|].
  rewrite fmap_cons in Hnd. apply NoDup_cons in Hnd as [Hx Hnd]. simpl.
  apply elem_of_cons in Hin as [<-|Hin]; [by rewrite decide_True|].
  rewrite decide_False; [auto|]. intros E. apply Hx, list_elem_of_fmap. exists e. split; [congruence|done].
Qed.

Lemma spec_find_inv k l e : spec_find k l = Some e -> e ∈ l /\ e_key e = k.
Proof.
  induction l as [|x l IH]; simpl; [done|]. case_decide.
  - intros [= ->]. by split; [left|].
  - intros []%IH. by split; [right|].
Qed.

(** The index agrees with a search of the list. *)
Lemma wf_spec_find {x} c k : Wf x c -> spec_find k (entries c) = index_ c !! k ≫= find_node (items_ c).
Proof.
  intros Hw. destruct (index_ c !! k) as [n|] eqn:E; simpl.
  - destruct (wf_index_deref c k n Hw E) as (e & Hin & Hk & ->).
    apply spec_find_Some; [exact (wf_nodup_keys c Hw)| |done]. apply list_elem_of_fmap. by exists (n, e).
  - destruct (spec_find k (entries c)) as [e|] eqn:F; [|done]. apply spec_find_inv in F as [Hin Hk].
    apply list_elem_of_fmap in Hin as ([n e'] & -> & Hin). assert (index_ c !! k = Some n) by (apply (wf_index c Hw); eauto).
    congruence.
Qed.

(** ** [Erase] and the eviction loop *)

Definition erased (c : lru) (n : nat) (e : Entry) : lru :=
  mkLru (capacity_ c) (max_bytes_ c) (erase_node n (items_ c)) (delete (e_key e) (index_ c)) (next_node c)
        (sub_bytes (e_bytes e) (stats_ c)).

Lemma Erase_run c n e : find_node (items_ c) n = Some e -> Erase n c = (erased c n e, Ret tt).
Proof. intros E. unfold Erase, mbind, M_bind, deref. by rewrite E. Qed.

Lemma elem_erase c n m e : (m, e) ∈ erase_node n (items_ c) <-> (m, e) ∈ items_ c /\ m <> n.
Proof. unfold erase_node. rewrite list_elem_of_filter. simpl. tauto. Qed.

Lemma erase_nodup n (l : list node) : NoDup l.*1 -> NoDup (erase_node n l).*1.
Proof. apply NoDup_fmap_filter. Qed.

Lemma erased_entries {x} c n e : Wf x c -> (n, e) ∈ items_ c -> entries (erased c n e) = spec_remove (e_key e) (entries c).
Proof. intros Hw Hin. unfold entries at 1. simpl. exact (entries_erase c n e Hw Hin). Qed.

Lemma erased_index {x} c n e k m :
  Wf x c -> (n, e) ∈ items_ c ->
  delete (e_key e) (index_ c) !! k = Some m <-> exists e', (m, e') ∈ erase_node n (items_ c) /\ e_key e' = k.
Proof.
  intros Hw Hin. rewrite lookup_delete_Some, (wf_index c Hw). setoid_rewrite elem_erase.
  split.
  - intros (Hne & e' & Hm & Hk). exists e'. split_and!; [done| |done]. intros ->.
    apply Hne. by rewrite (nodup_fst_inj _ _ _ _ (wf_nodup c Hw) Hin Hm).
  - intros (e' & (Hm & Hne) & Hk). split; [|by eauto]. intros E. apply Hne.
    assert ((n, e) = (m, e')) by (eapply wf_key_inj; eauto; congruence). congruence.
Qed.

Lemma erased_wf {x} c n e : Wf x c -> (n, e) ∈ items_ c -> Wf x (erased c n e).
Proof.
  intros Hw Hin. pose proof (wf_sum_erase c n e Hw Hin) as Hs.
  pose proof (cost_bytes_nonneg _ (wf_cost c Hw)) as Hnn. pose proof (wf_range c Hw) as Hr.
  assert (0 <= e_bytes e).
  { apply (proj1 (Forall_forall _ _) Hnn), list_elem_of_fmap. by exists (n, e). }
  assert (bytes_nonneg (spec_remove (e_key e) (entries c))) as Hnn' by (by apply Forall_filter_keep).
  apply sum_bytes_nonneg in Hnn'.
  split; simpl; rewrite ?(erased_entries c n e Hw Hin).
  - apply erase_nodup, Hw.
  - apply Forall_filter_keep, Hw.
  - intros. exact (erased_index c n e _ _ Hw Hin).
  - apply Forall_filter_keep, Hw.
  - rewrite (wf_counter c Hw), u64_sub_l. f_equal. lia.
  - intros Hx. specialize (Hr Hx). lia.
Qed.
Lemma wf_bytes c : Wf True c -> s_bytes (stats_ c) = sum_bytes (entries c).
Proof.
  intros Hw. rewrite (wf_counter c Hw). apply u64_small. split; [apply sum_bytes_nonneg, cost_bytes_nonneg, (wf_cost c Hw)|by apply (wf_range c Hw)].
Qed.
Lemma wf_exact {x : Prop} c : x -> Wf x c -> Wf True c.
Proof. intros Hx []. split; try done. by intros _; auto. Qed.

Lemma last_entries c n e :
  list.last (items_ c) = Some (n, e) -> exists l, items_ c = l ++ [(n, e)] /\ entries c = l.*2 ++ [e].
Proof. intros [l E]%last_Some. exists l. split; [done|]. unfold entries. by rewrite E, fmap_app. Qed.

Lemma remove_last {x} c n e l :
  Wf x c -> items_ c = l ++ [(n, e)] -> erase_node n (items_ c) = l.
Proof.
  intros Hw E. pose proof (wf_nodup c Hw) as Hnd. rewrite E in Hnd |- *. rewrite fmap_app in Hnd.
  apply NoDup_app in Hnd as (_ & Hd & _). unfold erase_node. rewrite filter_app, filter_cons_False by tauto.
  rewrite filter_nil, app_nil_r. apply filter_all_in. intros [m e'] Hm Heq. simpl in Heq. subst m.
  apply (Hd n); [apply list_elem_of_fmap; by exists (n, e')|simpl; by left].
Qed.

Lemma over_limit_nonempty {x} c :
  Wf x c -> 1 <= capacity_ c -> 1 <= max_bytes_ c -> over_limit c = true ->
  exists n e, list.last (items_ c) = Some (n, e).
Proof.
  intros Hw Hc Hm Ho. destruct (list.last (items_ c)) as [[n e]|] eqn:El; [eauto|exfalso].
  apply last_None in El. pose proof (wf_counter c Hw) as Hb. unfold over_limit in Ho. unfold entries in Hb.
  rewrite El in Hb, Ho. change (s_bytes (stats_ c) = 0) in Hb. unfold zlen in Ho. simpl in *. apply orb_true_iff in Ho as [Ho|Ho]; zify_bools; lia.
Qed.

(** The loop terminates, never touches an empty list, and leaves the longest prefix that fits. *)
Lemma evict_loop_run {x} fuel c :
  Wf x c -> 1 <= capacity_ c -> 1 <= max_bytes_ c < 2 ^ 64 -> (length (items_ c) <= fuel)%nat ->
  exists c', evict_loop fuel c = (c', Ret tt) /\ Good x c' /\
    (x -> entries c' = fit (capacity_ c) (max_bytes_ c) (entries c)) /\
    capacity_ c' = capacity_ c /\ max_bytes_ c' = max_bytes_ c.
Proof.
  revert c. induction fuel as [|fuel IH]; intros c Hw Hc Hm Hf.
  all: pose proof (cost_bytes_nonneg _ (wf_cost c Hw)) as Hnn; assert (x -> s_bytes (stats_ c) = sum_bytes (entries c)) as Hb by (intros Hx; exact (wf_bytes c (wf_exact c Hx Hw))).
  all: assert (zlen (items_ c) = zlen (entries c)) as Hz by (unfold zlen, entries; by rewrite length_fmap).
  all: unfold evict_loop; fold evict_loop; destruct (over_limit c) eqn:Eo.
  - destruct (over_limit_nonempty c Hw) as (n & e & El); try done; [lia|]. by destruct (items_ c); [|simpl in Hf; lia].
  - unfold over_limit in Eo. exists c. split_and!; try done; [split; try done; lia|]. intros Hx. specialize (Hb Hx). rewrite fit_all; [done|done|lia|lia].
  - destruct (over_limit_nonempty c Hw) as (n & e & El); try done; [lia|].
    destruct (last_entries c n e El) as (l & Ei & Ee).
    assert ((n, e) ∈ items_ c) as Hin by (rewrite Ei; apply elem_of_app; right; by left).
    unfold mbind, M_bind at 1, prev_end. rewrite El. unfold M_bind at 1.
    rewrite (Erase_run c n e) by (eapply find_node_Some; [apply Hw|done]). unfold M_bind, modify.
    pose proof (erased_wf c n e Hw Hin) as Hw'.
    edestruct (IH (set_stats incr_evictions (erased c n e))) as (c' & Hrun & Hinv & Hent & Hcap & Hmax).
    + destruct Hw'. split; done.
    + done.
    + done.
    + simpl. rewrite (remove_last c n e l Hw Ei). rewrite Ei, length_app in Hf. simpl in Hf. lia.
    + exists c'. split_and!; try done. intros Hx. specialize (Hb Hx). rewrite (Hent Hx). simpl. unfold entries at 1. simpl.
      rewrite (remove_last c n e l Hw Ei), Ee, fit_snoc; [done|by rewrite <-Ee|]. rewrite <-Ee. unfold over_limit in Eo. lia.
  - unfold over_limit in Eo. exists c. split_and!; try done; [split; try done; lia|]. intros Hx. specialize (Hb Hx). rewrite fit_all; [done|done|lia|lia].
Qed.

(** ** [put] *)

(** The cache between the insertion and the eviction loop. *)
Definition inserted (c : lru) (k : Key) (v : Value) (expires : Z) : lru :=
  mkLru (capacity_ c) (max_bytes_ c)
        ((next_node c, mkEntry k v expires (entry_cost k v)) :: filter (fun p => e_key p.2 <> k) (items_ c))
        (<[k := next_node c]> (index_ c)) (S (next_node c))
        (mkStats (hits (stats_ c)) (misses (stats_ c))
                 (u64 (entry_cost k v + sum_bytes (spec_remove k (entries c)))) (evictions (stats_ c))).

Lemma inserted_entries c k v ex :
  entries (inserted c k v ex) = mkEntry k v ex (entry_cost k v) :: spec_remove k (entries c).
Proof.
  unfold entries. simpl. f_equal. exact (filter_fmap_snd (fun x => e_key x <> k) (items_ c)).
Qed.

Lemma inserted_wf {x : Prop} c k v ex :
  Wf x c -> (x -> sum_bytes (entries c) + entry_cost k v < 2 ^ 64) -> Wf x (inserted c k v ex).
Proof.
  intros Hw Hs. pose proof (cost_bytes_nonneg _ (wf_cost c Hw)) as Hnn.
  assert (sum_bytes (spec_remove k (entries c)) <= sum_bytes (entries c)) as Hle.
  { clear -Hnn. unfold bytes_nonneg, spec_remove in *. induction Hnn; [done|]. rewrite filter_cons. case_decide; simpl; lia. }
  split; rewrite ?inserted_entries; simpl.
  - constructor; [|by apply NoDup_fmap_filter, Hw].
    intros ([n e] & E & [_ Hn]%list_elem_of_filter)%list_elem_of_fmap. simpl in E. subst n.
    pose proof (proj1 (Forall_forall _ _) (wf_fresh c Hw) _ Hn) as Hf. simpl in Hf. lia.
  - constructor; [simpl; lia|]. apply Forall_filter_keep. eapply Forall_impl; [apply (wf_fresh c Hw)|]. simpl. lia.
  - intros k' n. rewrite lookup_insert_Some, (wf_index c Hw). setoid_rewrite elem_of_cons.
    setoid_rewrite list_elem_of_filter. simpl. split.
    + intros [[-> <-]|(Hne & e & He & Hk)]; [eexists; split; [by left|done]|]. exists e. split; [|done].
      right. split; [congruence|done].
    + intros (e & [[= -> ->]|[Hne He]] & Hk); simpl in *; [by left|]. right. split; [congruence|]. eauto.
  - constructor; [done|]. apply Forall_filter_keep, Hw.
  - done.
  - intros Hx. specialize (Hs Hx). lia.
Qed.

Lemma put_insert_run {x} now c k v ex (old := index_ c !! k) :
  Wf x c -> (negb (ex =? 0) && (ex <=? now))%bool = false -> (max_bytes_ c <? entry_cost k v) = false ->
  put now Ample k v ex c = evict_loop (length (items_ (inserted c k v ex))) (inserted c k v ex).
Proof.
  intros Hw Hex Hmx. unfold put, get_state, mbind, M_bind at 1. rewrite Hmx, Hex. unfold M_bind, push_front. subst old.
  destruct (index_ c !! k) as [n|] eqn:Ek.
  - destruct (wf_index_deref c k n Hw Ek) as (e & Hin & Hk & Hf). subst k.
    assert (next_node c <> n) as Hfresh.
    { pose proof (proj1 (Forall_forall _ _) (wf_fresh c Hw) _ Hin) as Hf'. simpl in Hf'. lia. }
    unfold deref. simpl. rewrite decide_False by done. rewrite Hf. unfold modify, set_stats, set_items, begin_. simpl.
    unfold erase_node at 1 2 3. rewrite filter_cons, decide_True by done. simpl. fold (erase_node n (items_ c)).
    rewrite (erase_node_view c n e Hw Hin). pose proof (wf_sum_erase c n e Hw Hin).
    unfold inserted, add_bytes, sub_bytes, set_index. simpl. rewrite (wf_counter c Hw), u64_sub_l, u64_add_l.
    replace (sum_bytes (entries c) - e_bytes e + entry_cost (e_key e) v)
      with (entry_cost (e_key e) v + sum_bytes (spec_remove (e_key e) (entries c))) by lia. done.
  - unfold begin_, modify, set_index, set_stats, add_bytes. simpl.
    assert (filter (fun p => e_key p.2 <> k) (items_ c) = items_ c) as Ef.
    { apply filter_all_in. intros [n e] Hin Hke. simpl in Hke.
      assert (index_ c !! k = Some n) by (apply (wf_index c Hw); eauto). congruence. }
    unfold inserted. rewrite Ef, (wf_index_none c k Hw Ek), (wf_counter c Hw), u64_add_l. by rewrite Z.add_comm.
Qed.

(** Inserting never wraps the byte counter: true whenever [max_bytes_ < 2^63], or while the
    cached objects fit an address space. *)
Definition no_wrap (c : lru) (k : Key) (v : Value) : Prop := s_bytes (stats_ c) + entry_cost k v < 2 ^ 64.

Lemma inv_bytes c : Inv c -> s_bytes (stats_ c) <= max_bytes_ c.
Proof. intros Hi. by apply (inv_limit c Hi). Qed.
Lemma no_wrap_max c k v :
  Inv c -> max_bytes_ c < 2 ^ 63 -> canStore c k v = true -> no_wrap c k v.
Proof. intros Hi Hm Hs. pose proof (inv_bytes c Hi). unfold canStore, no_wrap in *. lia. Qed.
Lemma good_exact {x : Prop} c : x -> Good x c -> Inv c.
Proof. intros Hx [Hw ? ? ? ?]. split; try done; [exact (wf_exact c Hx Hw)|by intros _; auto]. Qed.

Lemma inv_shrink {x} c c' :
  Good x c -> Wf x c' -> capacity_ c' = capacity_ c -> max_bytes_ c' = max_bytes_ c ->
  zlen (entries c') <= zlen (entries c) -> sum_bytes (entries c') <= sum_bytes (entries c) -> Good x c'.
Proof.
  intros [Hw ? ? Hs Hb] Hw' Ec Em Hl Hsum. split; [done|congruence|congruence| |].
  - unfold entries, zlen in *. rewrite !length_fmap in Hl. lia.
  - intros Hx. specialize (Hb Hx). rewrite (wf_bytes c (wf_exact c Hx Hw)) in Hb. rewrite (wf_bytes c' (wf_exact c' Hx Hw')). lia.
Qed.

Lemma spec_remove_le k l : bytes_nonneg l -> zlen (spec_remove k l) <= zlen l /\ sum_bytes (spec_remove k l) <= sum_bytes l.
Proof.
  unfold bytes_nonneg, spec_remove. induction 1 as [|e l He Hl IH]; [done|]. rewrite filter_cons.
  case_decide; simpl; rewrite ?zlen_cons; lia.
Qed.

Lemma erased_inv {x} c n e : Good x c -> (n, e) ∈ items_ c -> Good x (erased c n e).
Proof.
  intros Hi Hin. pose proof (inv_wf c Hi) as Hw.
  destruct (spec_remove_le (e_key e) (entries c)); [by apply cost_bytes_nonneg, Hw|].
  apply (inv_shrink c); try done; [by apply erased_wf| |]; rewrite (erased_entries c n e Hw Hin); done.
Qed.

Lemma put_any_run {x : Prop} now c k v ex :
  Good x c -> (x -> no_wrap c k v) ->
  exists c', put now Ample k v ex c = (c', if canStore c k v then Ret tt else Throw std_length_error) /\
    Good x c' /\ capacity_ c' = capacity_ c /\ max_bytes_ c' = max_bytes_ c /\
    (x -> entries c' = if canStore c k v then spec_put (capacity_ c) (max_bytes_ c) now k v ex (entries c) else entries c).
Proof.
  intros Hi Hnw. pose proof (inv_wf c Hi) as Hw. unfold canStore, no_wrap in *.
  destruct (Z.leb_spec (entry_cost k v) (max_bytes_ c)) as [Hfit|Hbig]; last first.
  { exists c. split_and!; try done. unfold put, get_state, mbind, M_bind. by rewrite (proj2 (Z.ltb_lt _ _)). }
  unfold spec_put. destruct (negb (ex =? 0) && (ex <=? now))%bool eqn:Eex.
  - unfold put, get_state, mbind, M_bind. rewrite (proj2 (Z.ltb_ge _ _)), Eex by done.
    destruct (index_ c !! k) as [n|] eqn:Ek.
    + destruct (wf_index_deref c k n Hw Ek) as (e & Hin & <- & Hf). rewrite (Erase_run c n e Hf).
      eexists. split_and!; [done|by apply erased_inv|done|done|intros _; exact (erased_entries c n e Hw Hin)].
    + exists c. split_and!; try done. by rewrite (wf_index_none c k Hw).
  - rewrite (put_insert_run now c k v ex Hw) by (done || by apply Z.ltb_ge).
    destruct (evict_loop_run (x := x) (length (items_ (inserted c k v ex))) (inserted c k v ex)) as (c' & Hr & Hi' & He & Hc & Hm);
      [|apply Hi|apply Hi|done|].
    + apply inserted_wf; [done|]. intros Hx. rewrite <-(wf_bytes c (wf_exact c Hx Hw)). by apply Hnw.
    + exists c'. rewrite inserted_entries in He. done.
Qed.
Lemma put_run now c k v ex :
  Inv c -> no_wrap c k v ->
  exists c', put now Ample k v ex c = (c', if canStore c k v then Ret tt else Throw std_length_error) /\
    Inv c' /\ capacity_ c' = capacity_ c /\ max_bytes_ c' = max_bytes_ c /\
    entries c' = if canStore c k v then spec_put (capacity_ c) (max_bytes_ c) now k v ex (entries c) else entries c.
Proof. intros Hi Hnw. destruct (put_any_run (x := True) now c k v ex Hi (fun _ => Hnw)) as (c' & ? & ? & ? & ? & He). exists c'. split_and!; auto. Qed.

Lemma miss_inv {x} c f : Good x c -> (forall st, s_bytes (f st) = s_bytes st) -> Good x (set_stats f c).
Proof. intros [[] ? ? ? ?] Hf. split; simpl; rewrite ?Hf; try done. split; simpl; rewrite ?Hf; done. Qed.

(** Moving a node to the front keeps the structure: same nodes, same index. *)
Lemma splice_inv {x} c n e :
  Good x c -> (n, e) ∈ items_ c ->
  Good x (set_items (fun l => (n, e) :: erase_node n l) c) /\
  entries (set_items (fun l => (n, e) :: erase_node n l) c) = e :: spec_remove (e_key e) (entries c).
Proof.
  intros Hi Hin. pose proof (inv_wf c Hi) as Hw.
  assert (entries (set_items (fun l => (n, e) :: erase_node n l) c) = e :: spec_remove (e_key e) (entries c)) as Ee.
  { unfold entries at 1. simpl. f_equal. exact (entries_erase c n e Hw Hin). }
  split; [|done]. pose proof (wf_sum_erase c n e Hw Hin) as Hs.
  assert (zlen (items_ (set_items (fun l => (n, e) :: erase_node n l) c)) <= zlen (items_ c)) as Hz.
  { simpl. unfold zlen, erase_node. simpl length.
    pose proof (length_filter_lt (fun p : node => p.1 <> n) (items_ c) (n, e) Hin ltac:(by intros [])). lia. }
  pose proof (inv_size c Hi). split; [|apply Hi|apply Hi|simpl; simpl in Hz; lia|apply Hi].
  split; rewrite ?Ee; simpl.
  - constructor; [|by apply erase_nodup, Hw].
    intros ([m e'] & -> & [? _]%list_elem_of_filter)%list_elem_of_fmap. done.
  - constructor; [apply (proj1 (Forall_forall _ _) (wf_fresh c Hw) _ Hin)|apply Forall_filter_keep, Hw].
  - intros k m. rewrite (wf_index c Hw). setoid_rewrite elem_of_cons. setoid_rewrite elem_erase. split.
    + intros (e' & He' & Hk). exists e'. split; [|done]. destruct (decide (m = n)) as [->|]; [left|by right].
      by rewrite (nodup_fst_inj _ _ _ _ (wf_nodup c Hw) Hin He').
    + intros (e' & [[= -> ->]|[He' _]] & Hk); eauto.
  - constructor; [|apply Forall_filter_keep, Hw].
    apply (proj1 (Forall_forall _ _) (wf_cost c Hw)), list_elem_of_fmap. by exists (n, e).
  - rewrite (wf_counter c Hw). f_equal. lia.
  - intros Hx. pose proof (wf_range c Hw Hx). lia.
Qed.

(** ** The other operations *)

Lemma get_run {x} now k c :
  Good x c ->
  exists c' r, get now k c = (c', Ret r) /\ (entries c', r) = spec_get now k (entries c) /\ Good x c' /\
    capacity_ c' = capacity_ c /\ max_bytes_ c' = max_bytes_ c.
Proof.
  intros Hi. pose proof (inv_wf c Hi) as Hw. unfold get, spec_get, get_state, mbind, M_bind.
  rewrite (wf_spec_find c k Hw). destruct (index_ c !! k) as [n|] eqn:Ek; simpl; last first.
  { eexists _, _. split_and!; [done|done|by apply miss_inv|done|done]. }
  destruct (wf_index_deref c k n Hw Ek) as (e & Hin & <- & Hf). unfold deref at 1. rewrite Hf.
  destruct (Expired now e) eqn:Ex.
  - rewrite (Erase_run c n e Hf). eexists _, _. split_and!; [done| |by apply miss_inv; [apply erased_inv|]|done|done].
    f_equal. change (entries (set_stats incr_misses (erased c n e))) with (entries (erased c n e)).
    exact (erased_entries c n e Hw Hin).
  - unfold splice_front, mbind, M_bind, deref, modify. simpl. rewrite Hf. simpl. rewrite decide_True by done.
    destruct (splice_inv (x := x) (set_stats incr_hits c) n e) as [Hi' He]; [by apply miss_inv|done|].
    eexists _, _. split_and!; [done| |exact Hi'|done|done]. f_equal. exact He.
Qed.

Lemma remove_run {x} k c :
  Good x c ->
  exists c', remove k c = (c', Ret (bool_decide (is_Some (spec_find k (entries c))))) /\ Good x c' /\
    entries c' = spec_remove k (entries c) /\ capacity_ c' = capacity_ c /\ max_bytes_ c' = max_bytes_ c.
Proof.
  intros Hi. pose proof (inv_wf c Hi) as Hw. unfold remove, get_state, mbind, M_bind.
  rewrite (wf_spec_find c k Hw). destruct (index_ c !! k) as [n|] eqn:Ek; simpl.
  - destruct (wf_index_deref c k n Hw Ek) as (e & Hin & <- & Hf). rewrite Hf, (Erase_run c n e Hf).
    eexists. split_and!; [by rewrite bool_decide_true by done|by apply erased_inv|exact (erased_entries c n e Hw Hin)|done|done].
  - exists c. split_and!; try done. by rewrite (wf_index_none c k Hw).
Qed.

Lemma exists_run {x} now k c :
  Good x c ->
  exists c' b, exists_ now k c = (c', Ret b) /\ Good x c' /\
    b = match spec_find k (entries c) with Some e => negb (Expired now e) | None => false end /\
    entries c' = (if b then entries c else spec_remove k (entries c)) /\
    capacity_ c' = capacity_ c /\ max_bytes_ c' = max_bytes_ c.
Proof.
  intros Hi. pose proof (inv_wf c Hi) as Hw. unfold exists_, get_state, mbind, M_bind.
  rewrite (wf_spec_find c k Hw). destruct (index_ c !! k) as [n|] eqn:Ek; simpl; last first.
  { exists c, false. split_and!; try done. by rewrite (wf_index_none c k Hw). }
  destruct (wf_index_deref c k n Hw Ek) as (e & Hin & <- & Hf). unfold deref. rewrite Hf.
  destruct (Expired now e) eqn:Ex.
  - rewrite (Erase_run c n e Hf). eexists _, _. split_and!; [done|by apply erased_inv|done|exact (erased_entries c n e Hw Hin)|done|done].
  - exists c, true. by split_and!.
Qed.

(** A failed allocation changes nothing but, for the index, the address that was used; only a call that would store fails so. *)
Lemma put_memory now mem k v ex c :
  put now mem k v ex c = put now Ample k v ex c \/
  mem <> Ample /\ canStore c k v = true /\ exists n, (next_node c <= n)%nat /\
    put now mem k v ex c = (mkLru (capacity_ c) (max_bytes_ c) (items_ c) (index_ c) n (stats_ c), Throw std_bad_alloc).
Proof.
  destruct (canStore c k v) eqn:Es; [|left; unfold canStore in Es; unfold put, get_state, mbind, M_bind; by rewrite (proj2 (Z.ltb_lt _ _)) by lia].
  unfold canStore in Es. unfold put, get_state, mbind, M_bind. rewrite (proj2 (Z.ltb_ge _ _)) by lia.
  destruct (negb (ex =? 0) && (ex <=? now))%bool; [by left|]. destruct mem; [by left|..].
  - right. split; [done|]. split; [done|]. exists (next_node c). split; [done|]. by destruct c.
  - destruct (index_ c !! k); [by left|]. right. split; [done|]. split; [done|]. exists (S (next_node c)). split; [lia|done].
Qed.

(** When the call returns, the allocation did not matter. *)
Lemma put_Ret_true now mem k v ex c c' u : put now mem k v ex c = (c', Ret u) -> put now Ample k v ex c = (c', Ret u).
Proof. destruct (put_memory now mem k v ex c) as [->|(_ & _ & n & _ & ->)]; done. Qed.

Lemma renamed_good {x} c n : Good x c -> (next_node c <= n)%nat -> Good x (mkLru (capacity_ c) (max_bytes_ c) (items_ c) (index_ c) n (stats_ c)).
Proof. intros [[] ? ? ? ?] Hn. split; simpl; try done. split; try done. eapply Forall_impl; [eassumption|]. simpl. lia. Qed.

Lemma make_inv cap max c : 0 <= cap -> 0 <= max < 2 ^ 64 -> make cap max = Ret c -> Inv c /\ entries c = [].
Proof.
  unfold make. intros Hc Hm. destruct (_ || _)%bool eqn:E; [done|]. intros [= <-]. zify_bools.
  split; [|done]. split; simpl; [|lia|lia|unfold zlen; simpl; lia|lia].
  split; simpl; [constructor|constructor| |constructor|done|lia].
  intros. rewrite lookup_empty. split; [done|]. by intros (e & []%not_elem_of_nil & _).
Qed.

Lemma make_Ret cap max : cap <> 0 -> max <> 0 -> exists c, make cap max = Ret c.
Proof. intros. unfold make. rewrite !(proj2 (Z.eqb_neq _ _)) by done. eauto. Qed.

Lemma fit_minimal cap budget l x rest :
  l = fit cap budget l ++ x :: rest ->
  cap < zlen (fit cap budget l) + 1 \/ budget < sum_bytes (fit cap budget l) + e_bytes x.
Proof.
  revert cap budget. induction l as [|e l IH]; intros cap budget E; simpl in *; [done|].
  destruct (_ && _)%bool eqn:Eb.
  - simpl in *. injection E as E. apply IH in E. rewrite zlen_cons. lia.
  - simpl in *. injection E as -> ->. unfold zlen. simpl. lia.
Qed.

Lemma spec_put_head cap max now k v ex l :
  1 <= cap -> entry_cost k v <= max -> (negb (ex =? 0) && (ex <=? now))%bool = false ->
  exists rest, spec_put cap max now k v ex l = mkEntry k v ex (entry_cost k v) :: rest.
Proof.
  intros Hc Hm Hex. unfold spec_put. rewrite Hex. simpl.
  rewrite (proj2 (Z.leb_le _ _)), (proj2 (Z.leb_le _ _)) by done. simpl. eauto.
Qed.

(** ** Lookups in the contract *)

Lemma spec_find_remove k k' l :
  spec_find k' (spec_remove k l) = if decide (k' = k) then None else spec_find k' l.
Proof.
  unfold spec_remove. induction l as [|e l IH]; [by case_decide|]. rewrite filter_cons.
  destruct (decide (e_key e = k)) as [Ek|Ek].
  - rewrite decide_False, IH by tauto. simpl. repeat case_decide; congruence.
  - rewrite decide_True by done. simpl. rewrite IH. repeat case_decide; congruence.
Qed.

Lemma spec_find_prefix k l l' : l' `prefix_of` l -> spec_find k l' = spec_find k l \/ spec_find k l' = None.
Proof.
  intros [r ->]. induction l' as [|e l' IH]; [by right|]. simpl. by case_decide; [left|].
Qed.

Lemma spec_find_get now k k' l :
  spec_find k' (spec_get now k l).1 =
  match spec_find k' l with
  | Some e => if (bool_decide (k' = k) && Expired now e)%bool then None else Some e
  | None => None
  end.
Proof.
  unfold spec_get. destruct (spec_find k l) as [e|] eqn:Ek; simpl.
  - destruct (spec_find_inv _ _ _ Ek) as [_ Hk].
    destruct (Expired now e) eqn:Ex; simpl; [rewrite spec_find_remove|rewrite Hk, spec_find_remove].
    all: destruct (decide (k' = k)) as [->|]; rewrite ?Ek, ?Ex; simpl.
    all: rewrite ?(bool_decide_true (k = k)), ?(bool_decide_false (k' = k)), ?decide_True, ?decide_False by done; try done.
    all: by destruct (spec_find k' l).
  - destruct (decide (k' = k)) as [->|]; [by rewrite Ek|]. rewrite bool_decide_false by done. by destruct (spec_find k' l).
Qed.

(** ** Call sequences *)

(** One call, with the clock reading and the allocation outcome it observes. *)
Inductive op :=
| OpPut (now : Z) (mem : memory) (k : Key) (v : Value) (expires : Z)
| OpGet (now : Z) (k : Key)
| OpExists (now : Z) (k : Key)
| OpRemove (k : Key).

Definition run_op (o : op) : M lru unit :=
  match o with
  | OpPut now mem k v ex => put now mem k v ex
  | OpGet now k => _ ← get now k; mret tt
  | OpExists now k => _ ← exists_ now k; mret tt
  | OpRemove k => _ ← remove k; mret tt
  end.

(** States reached from the constructor by calls that [P] allows; an exception leaves the object usable. *)
Inductive reachable (P : lru -> op -> Prop) (cap max : Z) : lru -> Prop :=
| reach_make c : make cap max = Ret c -> reachable P cap max c
| reach_op c o : reachable P cap max c -> P c o -> reachable P cap max (run_op o c).1.

(** The costs of the entries and of the one being stored, all of them sizes of objects in memory, add up below 2^64. *)
Definition fits_memory (c : lru) (o : op) : Prop :=
  match o with OpPut _ _ k v _ => canStore c k v = true -> no_wrap c k v | _ => True end.
Lemma fits_small c o : Inv c -> max_bytes_ c < 2 ^ 63 -> fits_memory c o.
Proof. intros Hi Hm. destruct o; try done. intros Hs. by apply no_wrap_max. Qed.

Definition returns_or_throws {A} (o : outcome A) : Prop :=
  match o with Ret _ | Throw _ => True | Undef | Blocked => False end.

Definition put_post (x : Prop) (c : lru) (r : lru * outcome unit) : Prop :=
  returns_or_throws r.2 /\ Good x r.1 /\ capacity_ r.1 = capacity_ c /\ max_bytes_ r.1 = max_bytes_ c.

Lemma put_any_safe {x : Prop} now mem k v ex c : Good x c -> (x -> canStore c k v = true -> no_wrap c k v) -> put_post x c (put now mem k v ex c).
Proof.
  intros Hi Hm. destruct (put_memory now mem k v ex c) as [->|(_ & _ & n & Hn & ->)]; [|split; [done|]; split; [by apply renamed_good|done]].
  destruct (canStore c k v) eqn:Es; [|unfold put, get_state, mbind, M_bind, canStore in *; by rewrite (proj2 (Z.ltb_lt _ _)) by lia].
  destruct (put_any_run now c k v ex Hi) as (c' & -> & ? & ? & ? & _); [by auto|]. by rewrite Es.
Qed.
Lemma run_op_any_safe {x : Prop} o c : Good x c -> (x -> fits_memory c o) -> put_post x c (run_op o c).
Proof.
  intros Hi Hm. unfold put_post. destruct o as [now mem k v ex|now k|now k|k]; simpl; [by apply put_any_safe|..].
  - unfold mbind, M_bind. by destruct (get_run now k c Hi) as (c' & r & -> & _ & ?).
  - unfold mbind, M_bind. by destruct (exists_run now k c Hi) as (c' & r & -> & ? & _ & _ & ?).
  - unfold mbind, M_bind. by destruct (remove_run k c Hi) as (c' & -> & ? & _ & ?).
Qed.
Lemma put_safe now mem k v ex c : Inv c -> max_bytes_ c < 2 ^ 63 -> put_post True c (put now mem k v ex c).
Proof. intros Hi Hm. apply put_any_safe; [done|]. intros _ Hs. by apply no_wrap_max. Qed.
Lemma run_op_safe o c : Inv c -> max_bytes_ c < 2 ^ 63 -> put_post True c (run_op o c).
Proof. intros Hi Hm. apply run_op_any_safe; [done|]. intros _. by apply fits_small. Qed.

Definition op_key (o : op) : Key :=
  match o with OpPut _ _ k _ _ | OpGet _ k | OpExists _ k | OpRemove k => k end.

Lemma spec_remove_incl k l e : e ∈ spec_remove k l -> e ∈ l.
Proof. unfold spec_remove. by intros [_ ?]%list_elem_of_filter. Qed.

Lemma spec_put_incl cap max now k v ex l e : e ∈ spec_put cap max now k v ex l -> e ∈ l \/ e_key e = k.
Proof.
  unfold spec_put. destruct (_ && _)%bool; [left; by eapply spec_remove_incl|]. intros He.
  eapply elem_of_prefix in He; [|apply fit_prefix].
  apply elem_of_cons in He as [->|He]; [by right|left; by eapply spec_remove_incl].
Qed.

Lemma spec_get_incl now k l e : e ∈ (spec_get now k l).1 -> e ∈ l.
Proof.
  unfold spec_get. destruct (spec_find k l) as [x|] eqn:E; [|done]. apply spec_find_inv in E as [Hx _].
  destruct (Expired now x); simpl; [apply spec_remove_incl|].
  intros [->|?]%elem_of_cons; [done|by eapply spec_remove_incl].
Qed.

(** A call only ever adds entries for its own key. *)
Lemma run_op_entries o c e :
  Inv c -> max_bytes_ c < 2 ^ 63 -> e ∈ entries (run_op o c).1 -> e ∈ entries c \/ e_key e = op_key o.
Proof.
  intros Hi Hm. destruct o as [now mem k v ex|now k|now k|k]; simpl.
  - destruct (put_memory now mem k v ex c) as [->|(_ & _ & n & _ & ->)]; [|by left]. destruct (canStore c k v) eqn:Es.
    + destruct (put_run now c k v ex Hi) as (c' & -> & _ & _ & _ & E); [by apply no_wrap_max|]. simpl.
      rewrite E, Es. apply spec_put_incl.
    + unfold put, get_state, mbind, M_bind, canStore in *. rewrite (proj2 (Z.ltb_lt _ _)) by lia. by left.
  - unfold mbind, M_bind. destruct (get_run now k c Hi) as (c' & r & -> & E & _). simpl. intros He. left.
    apply (spec_get_incl now k). by rewrite <-E.
  - unfold mbind, M_bind. destruct (exists_run now k c Hi) as (c' & b & -> & _ & _ & E & _). simpl. rewrite E.
    destruct b; [by left|left; by eapply spec_remove_incl].
  - unfold mbind, M_bind. destruct (remove_run k c Hi) as (c' & -> & _ & E & _). simpl. rewrite E.
    left. by eapply spec_remove_incl.
Qed.

(** ** Rebuilding from a snapshot *)

(** Puts in list order, [nows i] being the clock at the [i]-th. *)
Fixpoint put_all (nows : nat -> Z) (l : list Entry) : M lru unit :=
  match l with
  | [] => mret tt
  | e :: l => _ ← put (nows O) Ample (e_key e) (e_value e) (e_expires e); put_all (fun i => nows (S i)) l
  end.

(** Every entry is still alive when it is put. *)
Fixpoint all_live (nows : nat -> Z) (l : list Entry) : Prop :=
  match l with
  | [] => True
  | e :: l => Expired (nows O) e = false /\ all_live (fun i => nows (S i)) l
  end.

Lemma spec_remove_fresh k l : k ∉ e_key <$> l -> spec_remove k l = l.
Proof. intros Hk. apply filter_all_in. intros e He <-. apply Hk, list_elem_of_fmap. eauto. Qed.

Lemma put_all_run nows l c :
  Inv c -> max_bytes_ c < 2 ^ 63 -> NoDup (e_key <$> entries c ++ l) ->
  Forall (fun e => e_bytes e = entry_cost (e_key e) (e_value e)) l ->
  zlen (entries c ++ l) <= capacity_ c -> sum_bytes (entries c ++ l) <= max_bytes_ c -> all_live nows l ->
  exists c', put_all nows l c = (c', Ret tt) /\ Inv c' /\ entries c' = reverse l ++ entries c /\
    capacity_ c' = capacity_ c /\ max_bytes_ c' = max_bytes_ c.
Proof.
  revert nows c. induction l as [|e l IH]; intros nows c Hi Hm Hnd Hco Hl Hs Hlive.
  { exists c. by split_and!. }
  destruct Hlive as [Hx Hlive]. apply Forall_cons in Hco as [He Hco].
  pose proof (cost_bytes_nonneg _ (wf_cost c (inv_wf c Hi))) as Hnn. pose proof (sum_bytes_nonneg _ Hnn).
  pose proof (cost_bytes_nonneg _ Hco) as Hnl. pose proof (sum_bytes_nonneg _ Hnl).
  assert (0 <= e_bytes e) by (rewrite He; apply entry_cost_nonneg).
  rewrite sum_bytes_app in Hs. simpl in Hs. autorewrite with kv in Hl.
  assert (canStore c (e_key e) (e_value e) = true) as Hst by (unfold canStore; lia).
  rewrite fmap_app, fmap_cons in Hnd. apply NoDup_app in Hnd as (Hnd1 & Hdis & [Hnew Hnd2]%NoDup_cons).
  destruct (put_run (nows O) c (e_key e) (e_value e) (e_expires e) Hi) as (c1 & Hp & Hi1 & Hc1 & Hm1 & He1);
    [by apply no_wrap_max|]. rewrite Hst in Hp, He1.
  unfold spec_put in He1. unfold Expired in Hx. rewrite Hx, <-He in He1.
  replace (mkEntry (e_key e) (e_value e) (e_expires e) (e_bytes e)) with e in He1 by (by destruct e).
  rewrite spec_remove_fresh, fit_all in He1.
  2: { constructor; done. } 2: { rewrite zlen_cons. pose proof (zlen_nonneg l). lia. } 2: { simpl. lia. }
  2: { intros Hk. apply (Hdis _ Hk). by left. }
  destruct (IH (fun i => nows (S i)) c1) as (c' & Hr & Hi' & He' & Hc' & Hm'); rewrite ?He1, ?Hc1, ?Hm1; try done.
  - rewrite <-app_comm_cons, fmap_cons, fmap_app. constructor.
    + intros [Hk|Hk]%elem_of_app; [apply (Hdis _ Hk); by left|done].
    + apply NoDup_app. split_and!; [done| |done]. intros k Hk1 Hk2. apply (Hdis k Hk1). by right.
  - rewrite zlen_app, zlen_cons. lia.
  - rewrite sum_bytes_app. simpl. lia.
  - exists c'. split_and!; [|done| |congruence|congruence].
    + simpl. unfold mbind, M_bind. by rewrite Hp.
    + rewrite He', He1, reverse_cons. by rewrite <-app_assoc.
Qed.

Lemma snapshot_from_sublist nows (l : list node) : snapshot_from nows l `sublist_of` l.*2.
Proof.
  revert nows. induction l as [|[n e] l IH]; intros nows; [done|]. simpl.
  destruct (negb _); [by apply sublist_skip|by apply sublist_cons].
Qed.

Lemma snapshot_sublist nows c : snapshot nows c `sublist_of` reverse (entries c).
Proof. unfold snapshot, entries. rewrite <-fmap_reverse. apply (snapshot_from_sublist nows (reverse (items_ c))). Qed.

Lemma snapshot_from_keeps nows (l : list node) n e :
  (n, e) ∈ l -> (forall i, Expired (nows i) e = false) -> e ∈ snapshot_from nows l.
Proof.
  revert nows. induction l as [|[m x] l IH]; intros nows Hin Hl; [by apply not_elem_of_nil in Hin|].
  simpl. apply elem_of_cons in Hin as [[= <- <-]|Hin].
  - rewrite Hl. by left.
  - destruct (negb _); [right|]; by apply IH.
Qed.

Lemma snapshot_from_or nows (l : list node) e :
  e ∈ l.*2 -> e ∈ snapshot_from nows l \/ exists i, Expired (nows i) e = true.
Proof.
  revert nows. induction l as [|[n x] l IH]; intros nows Hin; [by apply not_elem_of_nil in Hin|]. cbn in *.
  apply elem_of_cons in Hin as [->|Hin].
  - destruct (Expired (nows O) x) eqn:E; [right; by exists O|left; by left].
  - destruct (IH (fun i => nows (S i)) Hin) as [Hs|[i Hi]]; [left|right; by exists (S i)].
    destruct (negb _); [by right|done].
Qed.

(** Every entry is in the snapshot unless a clock reading found it expired. *)
Lemma snapshot_or nows c e : e ∈ entries c -> e ∈ snapshot nows c \/ exists i, Expired (nows i) e = true.
Proof.
  intros Hin. apply snapshot_from_or. rewrite fmap_reverse. by apply elem_of_reverse.
Qed.

Lemma snapshot_nodup {x} nows c : Wf x c -> NoDup (e_key <$> snapshot nows c).
Proof.
  intros Hw. eapply sublist_NoDup; [|apply sublist_fmap, snapshot_sublist].
  rewrite fmap_reverse, reverse_Permutation. exact (wf_nodup_keys c Hw).
Qed.

Lemma snapshot_incl nows c e : e ∈ snapshot nows c -> e ∈ entries c.
Proof. intros Hin. apply elem_of_reverse. eapply sublist_elem; [apply snapshot_sublist|exact Hin]. Qed.

Lemma sublist_sum_bytes l k : l `sublist_of` k -> bytes_nonneg k -> sum_bytes l <= sum_bytes k.
Proof. induction 1; intros Hk; [done|..]; apply Forall_cons in Hk as [? Hk]; specialize (IHsublist Hk); simpl; lia. Qed.

Lemma sum_bytes_reverse l : sum_bytes (reverse l) = sum_bytes l.
Proof. induction l as [|e l IH]; [done|]. rewrite reverse_cons, sum_bytes_app, IH. simpl. lia. Qed.

(** ** Properties *)

(** C12. [put] implements the recency-list contract: it throws [length_error] and changes nothing
    when the entry exceeds the byte budget; otherwise it removes the key (already expired), or
    moves it to the front with its new value and keeps the longest prefix within both limits. *)
Theorem put_refines_spec now k v ex c :
  Inv c -> no_wrap c k v ->
  exists c', put now Ample k v ex c = (c', if canStore c k v then Ret tt else Throw std_length_error) /\
    Inv c' /\ capacity_ c' = capacity_ c /\ max_bytes_ c' = max_bytes_ c /\
    entries c' = if canStore c k v then spec_put (capacity_ c) (max_bytes_ c) now k v ex (entries c) else entries c.
Proof. apply put_run. Qed.

(** Eviction is least-recently-used and minimal: after storing a live entry the cache is a
    prefix of "new entry first, then the others in their old order", and if anything was evicted,
    keeping even the most recent victim would break the entry or the byte limit. *)
Lemma put_evicts_least_recent now k v ex c c' :
  Inv c -> no_wrap c k v -> (ex = 0 \/ now < ex) -> put now Ample k v ex c = (c', Ret tt) ->
  exists victims,
    mkEntry k v ex (entry_cost k v) :: spec_remove k (entries c) = entries c' ++ victims /\
    forall x rest, victims = x :: rest ->
      capacity_ c < zlen (entries c') + 1 \/ max_bytes_ c < sum_bytes (entries c') + e_bytes x.
Proof.
  intros Hi Hnw Hex Hp. destruct (put_run now c k v ex Hi Hnw) as (c1 & Hp1 & _ & _ & _ & He).
  rewrite Hp in Hp1. injection Hp1 as <- Hr. destruct (canStore c k v); [|done].
  unfold spec_put in He. replace (negb (ex =? 0) && (ex <=? now))%bool with false in He by lia.
  destruct (fit_prefix (capacity_ c) (max_bytes_ c) (mkEntry k v ex (entry_cost k v) :: spec_remove k (entries c)))
    as [victims Hv]. exists victims. rewrite He. split; [done|].
  intros x rest ->. by eapply fit_minimal.
Qed.

(** A [put] that throws leaves the cache as it was: contents, recency order, index, limits and
    counters, both when the entry is too large and when a node cannot be allocated. *)
Lemma put_failure_leaves_cache now mem k v ex c c' e :
  Inv c -> max_bytes_ c < 2 ^ 63 -> put now mem k v ex c = (c', Throw e) ->
  items_ c' = items_ c /\ index_ c' = index_ c /\ stats_ c' = stats_ c /\
  capacity_ c' = capacity_ c /\ max_bytes_ c' = max_bytes_ c /\
  (e = std_length_error <-> canStore c k v = false) /\ (e = std_bad_alloc -> mem <> Ample).
Proof.
  intros Hi Hm Hp. destruct (put_memory now mem k v ex c) as [E|(Hmem & -> & n & _ & E)]; rewrite E in Hp; [|by injection Hp as <- <-].
  destruct (canStore c k v) eqn:Es.
  - destruct (put_run now c k v ex Hi) as (c1 & Ht & _); [by apply no_wrap_max|]. rewrite Es in Ht. congruence.
  - unfold canStore in Es. unfold put, get_state, mbind, M_bind in Hp.
    rewrite (proj2 (Z.ltb_lt _ _)) in Hp by lia. by injection Hp as <- <-.
Qed.

(** [get] implements its contract: a live entry is returned and becomes the most recent, an
    expired one is dropped and missed, an absent one is missed; the index always agrees with the list. *)
Lemma get_refines_spec now k c :
  Inv c ->
  exists c' r, get now k c = (c', Ret r) /\ (entries c', r) = spec_get now k (entries c) /\ Inv c'.
Proof. intros Hi. destruct (get_run now k c Hi) as (c' & r & ? & ? & ? & _). eauto. Qed.

(** Read your write: a value stored with a deadline in the future (or none) is what the next
    [get] of that key returns, as long as it has not expired by then. *)
Lemma put_then_get now now' k v ex c c' :
  Inv c -> no_wrap c k v -> put now Ample k v ex c = (c', Ret tt) ->
  (ex = 0 \/ now < ex) -> (ex = 0 \/ now' < ex) ->
  exists c'', get now' k c' = (c'', Ret (Some v)).
Proof.
  intros Hi Hnw Hp H1 H2. destruct (put_run now c k v ex Hi Hnw) as (c1 & Hp1 & Hi1 & _ & _ & He).
  rewrite Hp in Hp1. injection Hp1 as <- Hr. destruct (canStore c k v) eqn:Es; [|done].
  destruct (spec_put_head (capacity_ c) (max_bytes_ c) now k v ex (entries c)) as [rest Eh];
    [apply Hi|unfold canStore in Es; lia|lia|].
  destruct (get_run now' k c' Hi1) as (c'' & r & Hg & Hs & _). rewrite He, Eh in Hs.
  unfold spec_get, Expired in Hs. simpl in Hs. rewrite decide_True in Hs by done. simpl in Hs.
  replace (negb (ex =? 0) && (ex <=? now'))%bool with false in Hs by lia. injection Hs as _ ->. eauto.
Qed.

Lemma reachable_good (x : Prop) (P : lru -> op -> Prop) cap max c :
  0 <= cap -> 0 <= max < 2 ^ 64 -> (x -> max < 2 ^ 63 \/ forall c o, P c o -> fits_memory c o) -> reachable P cap max c -> Good x c /\ max_bytes_ c = max /\ capacity_ c = cap.
Proof.
  intros Hc Hm Hx Hr. induction Hr as [c Hmk|c o Hr (Hg & <- & <-) Ho].
  - destruct (make_inv cap max c) as [[[] ? ? ? ?] _]; [done|lia|done|]. split; [split; try done; [split; try done|]; by auto|].
    unfold make in Hmk. destruct (_ || _)%bool; [done|]. by injection Hmk as <-.
  - destruct (run_op_any_safe o c Hg) as (_ & ? & -> & ->); [|done]. intros HX. destruct (Hx HX) as [Hs|Hf]; [|by apply Hf]. apply fits_small; [by apply (good_exact c HX)|done].
Qed.

(** C31. Memory safety and the invariant over every history, for all limits that a [size_t] can hold, the default
    [SIZE_MAX] included: from the constructor, no sequence of calls, whatever allocations fail, ever dereferences a dangling
    iterator or loops forever, and in every reachable state the index is exact, the number of entries is within the
    capacity and the byte counter is the sum of the entries' costs modulo 2^64.  The counter is the sum itself, and within
    [max_bytes], when [max_bytes < 2^63], or when every entry that was stored fitted into 64 bits together with those in the cache,
    as it does when the costs are sizes of objects in memory. *)
Theorem lru_reachable_safe (P : lru -> op -> Prop) cap max c o :
  0 <= cap -> 0 <= max < 2 ^ 64 -> reachable P cap max c ->
  returns_or_throws (run_op o c).2 /\
  Wf False c /\ zlen (items_ c) <= cap /\
  (max < 2 ^ 63 \/ (forall c o, P c o -> fits_memory c o) -> s_bytes (stats_ c) = sum_bytes (entries c) /\ s_bytes (stats_ c) <= max).
Proof.
  intros Hc Hm Hr. destruct (reachable_good False P cap max c Hc Hm ltac:(done) Hr) as (Hg & Em & Ec).
  split; [apply (run_op_any_safe (x := False) o c Hg); done|]. split; [apply Hg|]. split; [rewrite <-Ec; apply Hg|].
  intros Hx. destruct (reachable_good True P cap max c Hc Hm (fun _ => Hx) Hr) as (Hi & _ & _). split; [apply wf_bytes, Hi|]. rewrite <-Em. by apply inv_bytes.
Qed.

(** A snapshot rebuilds the cache: replaying it oldest-first into a fresh cache with the same
    limits, while its entries are live, gives exactly the snapshotted entries in the same recency
    order; nothing that was live throughout is lost and nothing is evicted. *)
Lemma snapshot_rebuilds nows nows' c c0 :
  Inv c -> max_bytes_ c < 2 ^ 63 -> make (capacity_ c) (max_bytes_ c) = Ret c0 ->
  all_live nows' (snapshot nows c) ->
  exists c', put_all nows' (snapshot nows c) c0 = (c', Ret tt) /\ Inv c' /\
    entries c' = reverse (snapshot nows c) /\ entries c' `sublist_of` entries c /\
    forall e, e ∈ entries c -> (forall i, Expired (nows i) e = false) -> e ∈ entries c'.
Proof.
  intros Hi Hm Hmk Hl. pose proof (inv_wf c Hi) as Hw. pose proof (snapshot_sublist nows c) as Hsub.
  pose proof (inv_cap c Hi). pose proof (inv_max c Hi).
  destruct (make_inv (capacity_ c) (max_bytes_ c) c0) as [Hi0 He0]; [lia|lia|done|].
  assert (capacity_ c0 = capacity_ c /\ max_bytes_ c0 = max_bytes_ c) as [Ec Em].
  { unfold make in Hmk. destruct (_ || _)%bool; [done|]. by injection Hmk as <-. }
  pose proof (cost_bytes_nonneg _ (wf_cost c Hw)) as Hnn.
  destruct (put_all_run nows' (snapshot nows c) c0) as (c' & Hr & Hi' & He' & _); rewrite ?He0, ?Ec, ?Em; try done.
  - simpl. eapply sublist_NoDup; [|by apply sublist_fmap, Hsub]. rewrite fmap_reverse, reverse_Permutation. exact (wf_nodup_keys c Hw).
  - apply Forall_forall. intros e He. apply (proj1 (Forall_forall _ _) (wf_cost c Hw)).
    apply elem_of_reverse. by eapply sublist_elem.
  - simpl. apply sublist_length in Hsub. rewrite length_reverse in Hsub. pose proof (inv_size c Hi).
    unfold zlen, entries in *. rewrite length_fmap in Hsub. lia.
  - simpl. pose proof (sublist_sum_bytes _ _ Hsub ltac:(by apply Forall_reverse)). rewrite sum_bytes_reverse in *.
    pose proof (inv_bytes c Hi). rewrite (wf_bytes c Hw) in *. lia.
  - exists c'. rewrite He0, app_nil_r in He'. split_and!; try done; rewrite He'.
    + rewrite <-(reverse_involutive (entries c)). by apply sublist_reverse.
    + intros e He Hlive. apply elem_of_reverse. apply list_elem_of_fmap in He as ([n e'] & -> & Hin).
      eapply snapshot_from_keeps; [|done]. by apply elem_of_reverse.
Qed.

End LruCache.

(** ** Witnesses: a cache of two entries and 400 bytes holding one key *)

#[local] Instance demo_layout : Layout := Layout_x86_64.

Definition demo_big : bytes := replicate 300 Byte.x61.
Definition demo0 : @lru bytes bytes _ _ := mkLru 2 400 [] ∅ 0 (mkStats 0 0 0 0).
Definition demo1 : @lru bytes bytes _ _ := (put 5 Ample (str "a") (str "1") 0 demo0).1.
Definition demo2 : @lru bytes bytes _ _ := (put 7 Ample (str "b") demo_big 0 demo1).1.

Lemma demo0_inv : Inv demo0.
Proof. apply (make_inv 2 400); [lia|lia|reflexivity]. Defined.
Lemma demo1_inv : Inv demo1.
Proof. apply put_safe; [apply demo0_inv|reflexivity]. Defined.
Lemma demo1_limits : capacity_ demo1 = 2 /\ max_bytes_ demo1 = 400 /\ s_bytes (stats_ demo1) = 82.
Proof. vm_compute. auto. Defined.
Lemma demo1_no_wrap k v : entry_cost k v <= 400 -> no_wrap demo1 k v.
Proof. intros. unfold no_wrap. destruct demo1_limits as (_ & _ & ->). lia. Defined.

Lemma put_refines_spec_witness :
  Inv demo1 /\ exists c', put 7 Ample (str "b") (str "2") 9 demo1 = (c', Ret tt) /\
    entries c' = [mkEntry (str "b") (str "2") 9 82; mkEntry (str "a") (str "1") 0 82].
Proof.
  split; [exact demo1_inv|].
  assert (no_wrap demo1 (str "b") (str "2")) as Hn by (apply demo1_no_wrap; vm_compute; discriminate).
  destruct (put_refines_spec 7 (str "b") (str "2") 9 demo1 demo1_inv Hn) as (c' & W & _ & _ & _ & E).
  exists c'. rewrite W, E. split; [f_equal|]; vm_compute; reflexivity.
Defined.


(** The default limit. *)
Definition size_max : Z := 2 ^ 64 - 1.
Definition roomy : @lru bytes bytes _ _ := mkLru 2 size_max [] ∅ 0 (mkStats 0 0 0 0).
Lemma lru_reachable_safe_witness :
  let c := (run_op (OpPut 5 Ample (str "a") (str "1") 0) roomy).1 in
  returns_or_throws (run_op (OpRemove (str "a")) c).2 /\ Wf False c /\ s_bytes (stats_ c) = 82 /\ s_bytes (stats_ c) <= size_max.
Proof.
  destruct (lru_reachable_safe fits_memory 2 size_max (run_op (OpPut 5 Ample (str "a") (str "1") 0) roomy).1 (OpRemove (str "a"))) as (H1 & H2 & _ & H3).
  - lia.
  - vm_compute. split; congruence.
  - apply (reach_op fits_memory 2 size_max roomy); [apply reach_make; reflexivity|]. intros _. vm_compute. reflexivity.
  - cbv zeta. split; [exact H1|]. split; [exact H2|]. destruct H3 as [_ H3]; [right; intros c o H; exact H|]. split; [vm_compute; reflexivity|exact H3].
Defined.

End LruCache.
