(* ===== verification/ShardedCache.v ===== *)
(** [kvcache::ShardedCache] (KVCache/include/sharded_cache.h): a vector of LRU caches selected by
    key hash.  The constructor partitions both budgets exactly; every operation runs on one shard
    and leaves the others alone; the whole never exceeds the configured limits. *)
From S2P Require Import Prelude LruCache.

(** [std::hash<Key>]: any function to [size_t]. *)
Class Hash (Key : Type) := { hash_ : Key -> Z; hash_range k : 0 <= hash_ k < 2 ^ 64 }.

Module ShardedCache.
Section ShardedCache.
Context {Key Value : Type} {eqK : EqDecision Key} {cntK : Countable Key}.
Context {costK : Cost Key} {costV : Cost Value} {layout : Layout} {hashK : Hash Key}.

Abbreviation lru := (@LruCache.lru Key Value eqK cntK).
Abbreviation Entry := (@LruCache.Entry Key Value).

Record sharded := mkSharded { num_shards_ : Z; shards_ : list lru }.

(** [total / n + (i < total % n ? 1 : 0)] *)
Definition share (total n i : Z) : Z := total / n + (if i <? total mod n then 1 else 0).

Fixpoint make_shards (capacity max_bytes n : Z) (ids : list Z) : outcome (list lru) :=
  match ids with
  | [] => Ret []
  | i :: ids =>
      c ← LruCache.make (share capacity n i) (share max_bytes n i);
      rest ← make_shards capacity max_bytes n ids;
      Ret (c :: rest)
  end.

Definition make (capacity num_shards max_bytes : Z) : outcome sharded :=
  if (capacity =? 0) || (num_shards =? 0) then Throw std_invalid_argument
  else
    let n := Z.min capacity num_shards in
    shards ← make_shards capacity max_bytes n (seqZ 0 n);
    Ret (mkSharded n shards).

(** [shards_[hash_(key) % num_shards_]] *)
Definition shard_index (s : sharded) (k : Key) : nat := Z.to_nat (hash_ k mod num_shards_ s).

Definition on_shard {A} (k : Key) (m : M lru A) : M sharded A := fun s =>
  match shards_ s !! shard_index s k with
  | Some c => let '(c', o) := m c in (mkSharded (num_shards_ s) (<[shard_index s k := c']> (shards_ s)), o)
  | None => (s, Undef)
  end.

Definition canStore (s : sharded) (k : Key) (v : Value) : bool :=
  match shards_ s !! shard_index s k with Some c => LruCache.canStore c k v | None => false end.
Definition put (now : Z) (mem : LruCache.memory) (k : Key) (v : Value) (expires : Z) : M sharded unit :=
  on_shard k (LruCache.put now mem k v expires).
Definition get (now : Z) (k : Key) : M sharded (option Value) := on_shard k (LruCache.get now k).
Definition remove (k : Key) : M sharded bool := on_shard k (LruCache.remove k).
Definition exists_ (now : Z) (k : Key) : M sharded bool := on_shard k (LruCache.exists_ now k).

Definition size (s : sharded) : Z := fold_left (fun total c => u64 (total + LruCache.size c)) (shards_ s) 0.

Definition getStats (s : sharded) : LruCache.Stats :=
  fold_left (fun t c =>
    let st := LruCache.getStats c in
    LruCache.mkStats (u64 (LruCache.hits t + LruCache.hits st)) (u64 (LruCache.misses t + LruCache.misses st))
                     (u64 (LruCache.s_bytes t + LruCache.s_bytes st))
                     (u64 (LruCache.evictions t + LruCache.evictions st)))
    (shards_ s) (LruCache.mkStats 0 0 0 0).

(** [nows i j] is the clock when the [j]-th oldest node of shard [i] is visited. *)
Fixpoint snapshot_shards (nows : nat -> nat -> Z) (l : list lru) : list Entry :=
  match l with
  | [] => []
  | c :: l => LruCache.snapshot (nows O) c ++ snapshot_shards (fun i => nows (S i)) l
  end.
Definition snapshot (nows : nat -> nat -> Z) (s : sharded) : list Entry := snapshot_shards nows (shards_ s).

(** ** Partitioning the budgets *)

Definition sum_with (f : lru -> Z) (l : list lru) : Z := foldr (fun c z => f c + z) 0 l.

Lemma share_sum total n m :
  0 <= total -> 0 < n -> Z.of_nat m <= n ->
  foldr (fun i z => share total n i + z) 0 (seqZ 0 (Z.of_nat m)) = Z.of_nat m * (total / n) + Z.min (Z.of_nat m) (total mod n).
Proof.
  intros Ht Hn. pose proof (Z.mod_pos_bound total n Hn) as Hb. induction m as [|m IH]; intros Hm.
  { simpl. lia. }
  assert (forall l z, foldr (fun i z => share total n i + z) z l = foldr (fun i z => share total n i + z) 0 l + z) as Hacc.
  { clear. intros l z. induction l; simpl; lia. }
  replace (Z.of_nat (S m)) with (Z.of_nat m + 1) by lia. rewrite seqZ_app, foldr_app by lia.
  rewrite Hacc, IH by lia. replace (seqZ (0 + Z.of_nat m) 1) with [Z.of_nat m] by (simpl; f_equal; lia).
  simpl. unfold share. destruct (Z.ltb_spec (Z.of_nat m) (total mod n)); lia.
Qed.

Lemma share_sum_all total n :
  0 <= total -> 0 < n -> foldr (fun i z => share total n i + z) 0 (seqZ 0 n) = total.
Proof.
  intros Ht Hn. pose proof (share_sum total n (Z.to_nat n) Ht Hn) as E.
  rewrite Z2Nat.id in E by lia. rewrite E by lia.
  pose proof (Z.mod_pos_bound total n Hn). pose proof (Z.div_mod total n). lia.
Qed.

Lemma share_pos total n i : 0 < n -> n <= total -> 1 <= share total n i.
Proof.
  intros Hn Ht. unfold share. assert (1 <= total / n) by (apply Z.div_le_lower_bound; lia).
  destruct (_ <? _); lia.
Qed.

Lemma share_bounds total n i : 0 <= total -> 0 < n -> 0 <= i -> 0 <= share total n i <= total.
Proof.
  intros Ht Hn Hi. unfold share. pose proof (Z.div_pos total n Ht Hn).
  pose proof (Z.div_mod total n ltac:(lia)). pose proof (Z.mod_pos_bound total n Hn).
  destruct (Z.ltb_spec i (total mod n)); nia.
Qed.

(** ** Construction *)

Definition shard_made (capacity max_bytes n i : Z) (c : lru) : Prop :=
  LruCache.capacity_ c = share capacity n i /\ LruCache.max_bytes_ c = share max_bytes n i /\
  LruCache.Inv c /\ LruCache.entries c = [].

Lemma make_shards_run capacity max_bytes n ids :
  0 < n -> n <= capacity < 2 ^ 64 -> n <= max_bytes < 2 ^ 64 -> Forall (fun i => 0 <= i) ids ->
  exists l, make_shards capacity max_bytes n ids = Ret l /\ Forall2 (shard_made capacity max_bytes n) ids l.
Proof.
  intros Hn Hc Hm. induction 1 as [|i ids Hi Hids IH]; [by exists []; simpl|]. simpl.
  pose proof (share_pos capacity n i Hn ltac:(lia)). pose proof (share_pos max_bytes n i Hn ltac:(lia)).
  pose proof (share_bounds capacity n i ltac:(lia) Hn Hi). pose proof (share_bounds max_bytes n i ltac:(lia) Hn Hi).
  destruct (LruCache.make_Ret (Key := Key) (Value := Value) (share capacity n i) (share max_bytes n i)) as [c Ec]; [lia|lia|].
  destruct IH as (l & El & Hl). rewrite Ec, El. simpl. exists (c :: l). split; [done|]. constructor; [|done].
  destruct (LruCache.make_inv (share capacity n i) (share max_bytes n i) c) as [Hinv He]; [lia|lia|done|].
  unfold LruCache.make in Ec. destruct (_ || _)%bool; [done|]. by injection Ec as <-.
Qed.

Lemma make_shards_zero capacity max_bytes n ids i :
  i ∈ ids -> share max_bytes n i = 0 -> make_shards capacity max_bytes n ids = Throw std_invalid_argument.
Proof.
  intros Hin Hz. induction ids as [|j ids IH]; [by apply not_elem_of_nil in Hin|]. simpl.
  apply elem_of_cons in Hin as [<-|Hin].
  - unfold LruCache.make. rewrite Hz. simpl. by rewrite orb_true_r.
  - unfold LruCache.make. destruct (_ || _)%bool; [done|]. simpl. by rewrite IH.
Qed.

(** ** Invariant *)

Record Inv (s : sharded) : Prop := {
  si_num : num_shards_ s = zlen (shards_ s);
  si_pos : 1 <= num_shards_ s;
  si_lru : Forall LruCache.Inv (shards_ s);
  si_max : Forall (fun c => LruCache.max_bytes_ c < 2 ^ 63) (shards_ s);
  si_route : forall i c e, shards_ s !! i = Some c -> e ∈ LruCache.entries c -> shard_index s (LruCache.e_key e) = i
}.

Lemma shard_lookup s k :
  Inv s -> exists c, shards_ s !! shard_index s k = Some c /\ LruCache.Inv c /\ LruCache.max_bytes_ c < 2 ^ 63.
Proof.
  intros Hi. pose proof (Z.mod_pos_bound (hash_ k) (num_shards_ s) ltac:(pose proof (si_pos s Hi); lia)) as Hb.
  destruct (lookup_lt_is_Some_2 (shards_ s) (shard_index s k)) as [c Hc].
  { unfold shard_index. rewrite (si_num s Hi) in *. unfold zlen in *. lia. }
  exists c. split; [done|]. split; [apply (Forall_lookup_1 _ _ _ _ (si_lru s Hi) Hc)|apply (Forall_lookup_1 _ _ _ _ (si_max s Hi) Hc)].
Qed.

(** What a call on one shard must guarantee for the whole to stay well formed. *)
Lemma on_shard_inv {A} k (m : M lru A) s c :
  Inv s -> shards_ s !! shard_index s k = Some c ->
  LruCache.Inv (m c).1 -> LruCache.max_bytes_ (m c).1 = LruCache.max_bytes_ c ->
  (forall e, e ∈ LruCache.entries (m c).1 -> e ∈ LruCache.entries c \/ LruCache.e_key e = k) ->
  (on_shard k m s).2 = (m c).2 /\ Inv (on_shard k m s).1 /\
  num_shards_ (on_shard k m s).1 = num_shards_ s /\
  shards_ (on_shard k m s).1 = <[shard_index s k := (m c).1]> (shards_ s).
Proof.
  intros Hi Hc Hinv Hmax Hent. unfold on_shard. rewrite Hc. destruct (m c) as [c' o] eqn:Em. simpl in *.
  split_and!; [done| |done|done]. pose proof (lookup_lt_Some _ _ _ Hc).
  split; simpl.
  - rewrite (si_num s Hi). unfold zlen. by rewrite length_insert.
  - apply Hi.
  - apply Forall_insert; [apply Hi|done].
  - apply Forall_insert; [apply Hi|]. rewrite Hmax. by apply (Forall_lookup_1 _ _ _ _ (si_max s Hi) Hc).
  - intros i x e Hx He. unfold shard_index. simpl. fold (shard_index s (LruCache.e_key e)).
    apply list_lookup_insert_Some in Hx as [(<- & <- & _)|(Hne & Hx)]; [|by eapply si_route].
    apply Hent in He as [He| ->]; [by eapply si_route|done].
Qed.

(** ** Call sequences *)

Definition run_op (o : LruCache.op) : M sharded unit := on_shard (LruCache.op_key o) (LruCache.run_op o).

Inductive reachable (capacity num_shards max_bytes : Z) : sharded -> Prop :=
| reach_make s : make capacity num_shards max_bytes = Ret s -> reachable capacity num_shards max_bytes s
| reach_op s o : reachable capacity num_shards max_bytes s -> reachable capacity num_shards max_bytes (run_op o s).1.

Lemma run_op_run o s :
  Inv s -> exists c, shards_ s !! shard_index s (LruCache.op_key o) = Some c /\
    (run_op o s).2 = (LruCache.run_op o c).2 /\ Inv (run_op o s).1 /\
    num_shards_ (run_op o s).1 = num_shards_ s /\
    shards_ (run_op o s).1 = <[shard_index s (LruCache.op_key o) := (LruCache.run_op o c).1]> (shards_ s).
Proof.
  intros Hi. destruct (shard_lookup s (LruCache.op_key o) Hi) as (c & Hc & Hinv & Hm). exists c. split; [done|].
  destruct (LruCache.run_op_safe o c Hinv Hm) as (_ & Hinv' & _ & Hmax).
  apply on_shard_inv; try done. intros e He. by apply LruCache.run_op_entries.
Qed.

Lemma sum_with_insert f l i c c' :
  l !! i = Some c -> sum_with f (<[i := c']> l) = sum_with f l - f c + f c'.
Proof.
  revert i. induction l as [|x l IH]; intros [|i] Hi; simplify_eq/=; [lia|]. rewrite (IH i Hi). lia.
Qed.

Lemma sum_with_le f g l : Forall (fun c => f c <= g c) l -> sum_with f l <= sum_with g l.
Proof. induction 1; simpl; lia. Qed.

Lemma sum_with_nonneg f l : Forall (fun c => 0 <= f c) l -> 0 <= sum_with f l.
Proof. induction 1; simpl; lia. Qed.

Lemma fold_u64_sum f l z :
  Forall (fun c => 0 <= f c) l -> 0 <= z -> z + sum_with f l < 2 ^ 64 ->
  fold_left (fun t c => u64 (t + f c)) l z = z + sum_with f l.
Proof.
  intros Hl. revert z. induction Hl as [|c l Hc Hl IH]; intros z Hz Hs; simpl in *; [lia|].
  pose proof (sum_with_nonneg f l Hl). rewrite u64_small, IH by lia. lia.
Qed.
(** ** Totals *)

Lemma Forall2_sum f (g : Z -> Z) ids l :
  Forall2 (fun i c => f c = g i) ids l -> sum_with f l = foldr (fun i z => g i + z) 0 ids.
Proof. induction 1; simpl; congruence. Qed.

Lemma make_run capacity num_shards max_bytes :
  0 < capacity < 2 ^ 64 -> 0 < num_shards < 2 ^ 64 -> Z.min capacity num_shards <= max_bytes < 2 ^ 64 ->
  exists s, make capacity num_shards max_bytes = Ret s /\ num_shards_ s = Z.min capacity num_shards /\
    zlen (shards_ s) = Z.min capacity num_shards /\
    sum_with LruCache.capacity_ (shards_ s) = capacity /\ sum_with LruCache.max_bytes_ (shards_ s) = max_bytes /\
    Forall (fun c => LruCache.Inv c /\ LruCache.entries c = [] /\ LruCache.max_bytes_ c <= max_bytes) (shards_ s).
Proof.
  intros Hc Hn Hm. unfold make. rewrite !(proj2 (Z.eqb_neq _ _)) by lia. simpl.
  set (n := Z.min capacity num_shards) in *.
  destruct (make_shards_run capacity max_bytes n (seqZ 0 n)) as (l & -> & Hl); [lia|lia|lia| |].
  { apply Forall_forall. intros j Hj%elem_of_seqZ. lia. }
  exists (mkSharded n l). simpl. split_and!; [done|done|..].
  - pose proof (Forall2_length _ _ _ Hl) as Hlen. unfold zlen. rewrite <-Hlen, length_seqZ. lia.
  - rewrite (Forall2_sum _ (share capacity n) (seqZ 0 n)); [apply share_sum_all; lia|].
    eapply Forall2_impl; [exact Hl|]. by intros ? ? (? & _).
  - rewrite (Forall2_sum _ (share max_bytes n) (seqZ 0 n)); [apply share_sum_all; lia|].
    eapply Forall2_impl; [exact Hl|]. by intros ? ? (_ & ? & _).
  - apply Forall_forall. intros c Hin.
    apply list_elem_of_lookup in Hin as [j Hj]. destruct (Forall2_lookup_r _ _ _ _ _ Hl Hj) as (i & Hi' & _ & E & ? & ?).
    apply list_elem_of_lookup_2, elem_of_seqZ in Hi'. split_and!; [done|done|].
    rewrite E. apply share_bounds; lia.
Qed.

Lemma make_Inv capacity num_shards max_bytes s :
  0 < capacity < 2 ^ 64 -> 0 < num_shards < 2 ^ 64 -> Z.min capacity num_shards <= max_bytes < 2 ^ 63 ->
  make capacity num_shards max_bytes = Ret s -> Inv s.
Proof.
  intros Hc Hn Hm Hs. destruct (make_run capacity num_shards max_bytes) as (s' & Hs' & E1 & E2 & _ & _ & Hf); [done|done|lia|].
  rewrite Hs in Hs'. injection Hs' as <-. split.
  - congruence.
  - lia.
  - eapply Forall_impl; [exact Hf|]. by intros c (? & _).
  - eapply Forall_impl; [exact Hf|]. intros c (_ & _ & ?). cbv beta. lia.
  - intros i c e Hi He. apply (Forall_lookup_1 _ _ _ _ Hf) in Hi as (_ & Hz & _). rewrite Hz in He.
    by apply not_elem_of_nil in He.
Qed.

Lemma Inv_totals s :
  Inv s -> sum_with LruCache.size (shards_ s) <= sum_with LruCache.capacity_ (shards_ s) /\
    sum_with (fun c => LruCache.s_bytes (LruCache.stats_ c)) (shards_ s) <= sum_with LruCache.max_bytes_ (shards_ s).
Proof.
  intros Hi. split; apply sum_with_le; eapply Forall_impl; try exact (si_lru s Hi); intros c Hc.
  - apply Hc.
  - by apply LruCache.inv_bytes.
Qed.

Lemma stats_bytes l t :
  LruCache.s_bytes (fold_left (fun t c =>
    let st := LruCache.getStats c in
    LruCache.mkStats (u64 (LruCache.hits t + LruCache.hits st)) (u64 (LruCache.misses t + LruCache.misses st))
                     (u64 (LruCache.s_bytes t + LruCache.s_bytes st))
                     (u64 (LruCache.evictions t + LruCache.evictions st))) l t) =
  fold_left (fun z (c : lru) => u64 (z + LruCache.s_bytes (LruCache.stats_ c))) l (LruCache.s_bytes t).
Proof. revert t. induction l as [|c l IH]; intros t; [done|]. simpl. by rewrite IH. Qed.

Lemma reachable_Inv capacity num_shards max_bytes s :
  0 < capacity < 2 ^ 64 -> 0 < num_shards < 2 ^ 64 -> Z.min capacity num_shards <= max_bytes < 2 ^ 63 ->
  reachable capacity num_shards max_bytes s ->
  Inv s /\ sum_with LruCache.capacity_ (shards_ s) = capacity /\ sum_with LruCache.max_bytes_ (shards_ s) = max_bytes.
Proof.
  intros Hc Hn Hm. induction 1 as [s Hs|s o Hr (IHi & IHc & IHm)].
  - split; [by apply (make_Inv capacity num_shards max_bytes)|]. destruct (make_run capacity num_shards max_bytes) as (s' & Hs' & _ & _ & ? & ? & _);
      [done|done|lia|]. rewrite Hs in Hs'. injection Hs' as <-. done.
  - destruct (run_op_run o s IHi) as (c & Hsh & _ & Hi' & _ & Es). split; [done|]. rewrite Es.
    pose proof (Forall_lookup_1 _ _ _ _ (si_lru s IHi) Hsh) as Hci. pose proof (Forall_lookup_1 _ _ _ _ (si_max s IHi) Hsh) as Hcm.
    destruct (LruCache.run_op_safe o c Hci Hcm) as (_ & _ & E1 & E2).
    rewrite !(sum_with_insert _ _ _ _ _ Hsh), E1, E2. lia.
Qed.

(** ** Contents by key *)

Definition view (s : sharded) (k : Key) : option Entry :=
  shards_ s !! shard_index s k ≫= fun c => LruCache.spec_find k (LruCache.entries c).

Lemma view_insert s k c k' :
  shards_ s !! shard_index s k = Some c -> forall c',
  view (mkSharded (num_shards_ s) (<[shard_index s k := c']> (shards_ s))) k' =
  if decide (shard_index s k' = shard_index s k) then LruCache.spec_find k' (LruCache.entries c') else view s k'.
Proof.
  intros Hc c'. unfold view. simpl. unfold shard_index at 1. simpl. fold (shard_index s k'). pose proof (lookup_lt_Some _ _ _ Hc).
  case_decide as E.
  - rewrite E, list_lookup_insert_eq by done. done.
  - by rewrite list_lookup_insert_ne by congruence.
Qed.
(** Limits never change; [canStore] depends on nothing else. *)
Definition limits (s : sharded) : Z * list (Z * Z) :=
  (num_shards_ s, (fun c => (LruCache.capacity_ c, LruCache.max_bytes_ c)) <$> shards_ s).

Lemma canStore_limits s s' k v : limits s = limits s' -> canStore s k v = canStore s' k v.
Proof.
  unfold limits, canStore. intros [= En El]. unfold shard_index. rewrite En.
  pose proof (f_equal (fun l : list (Z * Z) => l !! Z.to_nat (hash_ k mod num_shards_ s')) El) as E. cbv beta in E.
  rewrite !list_lookup_fmap in E. destruct (shards_ s !! _), (shards_ s' !! _); simplify_eq/=; [|done].
  unfold LruCache.canStore. congruence.
Qed.

Lemma limits_insert s i c c' :
  shards_ s !! i = Some c -> LruCache.capacity_ c' = LruCache.capacity_ c -> LruCache.max_bytes_ c' = LruCache.max_bytes_ c ->
  limits (mkSharded (num_shards_ s) (<[i := c']> (shards_ s))) = limits s.
Proof.
  intros Hc E1 E2. unfold limits. simpl. f_equal. rewrite list_fmap_insert, E1, E2.
  apply list_insert_id. by rewrite list_lookup_fmap, Hc.
Qed.

(** Two keys of the same shard, or of different ones: an update seen through [view]. *)
Lemma view_update s k c c' (f : Key -> option Entry -> option Entry) :
  shards_ s !! shard_index s k = Some c ->
  (forall k', k' <> k -> f k' (view s k') = view s k') ->
  (forall k', LruCache.spec_find k' (LruCache.entries c') = f k' (LruCache.spec_find k' (LruCache.entries c))) ->
  forall k', view (mkSharded (num_shards_ s) (<[shard_index s k := c']> (shards_ s))) k' = f k' (view s k').
Proof.
  intros Hc Hne Hf k'. rewrite (view_insert s k c) by done. case_decide as E.
  - rewrite Hf. unfold view. by rewrite E, Hc.
  - symmetry. apply Hne. by intros ->.
Qed.

Lemma put_view now k v ex s :
  Inv s -> canStore s k v = true ->
  exists s', put now LruCache.Ample k v ex s = (s', Ret tt) /\ Inv s' /\ limits s' = limits s /\
    view s' k = (if (negb (ex =? 0) && (ex <=? now))%bool then None
                 else Some (LruCache.mkEntry k v ex (LruCache.entry_cost k v))) /\
    (forall k', k' <> k -> view s' k' = view s k' \/ view s' k' = None).
Proof.
  intros Hi Hst. destruct (shard_lookup s k Hi) as (c & Hc & Hci & Hcm). unfold canStore in Hst. rewrite Hc in Hst.
  destruct (LruCache.put_run now c k v ex Hci) as (c' & Hr & Hci' & E1 & E2 & He); [by apply LruCache.no_wrap_max|].
  rewrite Hst in Hr, He.
  destruct (on_shard_inv k (LruCache.put now LruCache.Ample k v ex) s c Hi Hc) as (_ & Hi' & _ & _); rewrite ?Hr; try done.
  { intros e. simpl. rewrite He. apply LruCache.spec_put_incl. }
  revert Hi'. unfold put, on_shard. rewrite Hc, Hr. simpl. intros Hi'.
  eexists. split; [done|]. split; [done|]. split; [by eapply limits_insert|]. split.
  - rewrite (view_insert s k c), decide_True, He by done. unfold LruCache.spec_put.
    destruct (_ && _)%bool eqn:Ex; [by rewrite LruCache.spec_find_remove, decide_True|].
    destruct (LruCache.spec_put_head (LruCache.capacity_ c) (LruCache.max_bytes_ c) now k v ex (LruCache.entries c)) as [rest Eh];
      [apply Hci|unfold LruCache.canStore in Hst; lia|done|].
    unfold LruCache.spec_put in Eh. rewrite Ex in Eh. rewrite Eh. simpl. by rewrite decide_True.
  - intros k' Hne. rewrite (view_insert s k c) by done. case_decide as E; [|by left].
    unfold view. rewrite E, Hc. simpl. rewrite He. unfold LruCache.spec_put. destruct (_ && _)%bool.
    + left. by rewrite LruCache.spec_find_remove, decide_False.
    + destruct (LruCache.spec_find_prefix k' _ _ (LruCache.fit_prefix (LruCache.capacity_ c) (LruCache.max_bytes_ c)
        (LruCache.mkEntry k v ex (LruCache.entry_cost k v) :: LruCache.spec_remove k (LruCache.entries c)))) as [->| ->]; [|by right].
      left. simpl. rewrite decide_False by congruence. by rewrite LruCache.spec_find_remove, decide_False.
Qed.

Lemma sharded_put_Ret_true now mem k v ex s s' u : put now mem k v ex s = (s', Ret u) -> put now LruCache.Ample k v ex s = (s', Ret u).
Proof.
  unfold put, on_shard. destruct (shards_ s !! shard_index s k) as [c|]; [|done].
  destruct (LruCache.put now mem k v ex c) as [c' r] eqn:E. intros [= <- ->]. apply LruCache.put_Ret_true in E. by rewrite E.
Qed.

Lemma put_total now mem k v ex s s' r :
  Inv s -> canStore s k v = true -> put now mem k v ex s = (s', r) -> r = Ret tt \/ (r = Throw std_bad_alloc /\ mem <> LruCache.Ample).
Proof.
  intros Hi Hst E. destruct (put_view now k v ex s Hi Hst) as (s1 & E1 & _). revert E E1. unfold put, on_shard. destruct (shards_ s !! shard_index s k) as [c|]; [|done].
  destruct (LruCache.put_memory now mem k v ex c) as [->|(Hm & _ & n & _ & ->)]; [intros ->; intros [=]; auto|intros [=]; auto].
Qed.

Lemma get_view now k s :
  Inv s ->
  exists s', get now k s = (s', Ret (match view s k with
                                     | Some e => if LruCache.Expired now e then None else Some (LruCache.e_value e)
                                     | None => None
                                     end)) /\ Inv s' /\ limits s' = limits s /\
    (forall k', view s' k' = match view s k' with
                            | Some e => if (bool_decide (k' = k) && LruCache.Expired now e)%bool then None else Some e
                            | None => None
                            end).
Proof.
  intros Hi. destruct (shard_lookup s k Hi) as (c & Hc & Hci & Hcm).
  destruct (LruCache.get_run now k c Hci) as (c' & r & Hr & He & Hci' & E1 & E2).
  destruct (on_shard_inv k (LruCache.get now k) s c Hi Hc) as (_ & Hi' & _ & _); rewrite ?Hr; try done.
  { intros e. simpl. intros Hin. left. apply (LruCache.spec_get_incl now k). by rewrite <-He. }
  revert Hi'. unfold get, on_shard. rewrite Hc, Hr. simpl. intros Hi'.
  eexists. split; [f_equal; f_equal|split; [done|split; [by eapply limits_insert|]]].
  - unfold view. rewrite Hc. simpl. unfold LruCache.spec_get in He.
    destruct (LruCache.spec_find k (LruCache.entries c)) as [e|]; [destruct (LruCache.Expired now e)|]; congruence.
  - apply (view_update s k c c' (fun k' o => match o with
      | Some e => if (bool_decide (k' = k) && LruCache.Expired now e)%bool then None else Some e | None => None end)); [done|..].
    + intros k' Hne. destruct (view s k'); [|done]. by rewrite bool_decide_false.
    + intros k'. rewrite <-LruCache.spec_find_get, <-He. done.
Qed.

Lemma remove_view k s :
  Inv s ->
  exists s', remove k s = (s', Ret (bool_decide (is_Some (view s k)))) /\ Inv s' /\ limits s' = limits s /\
    (forall k', view s' k' = if decide (k' = k) then None else view s k').
Proof.
  intros Hi. destruct (shard_lookup s k Hi) as (c & Hc & Hci & Hcm).
  destruct (LruCache.remove_run k c Hci) as (c' & Hr & Hci' & He & E1 & E2).
  destruct (on_shard_inv k (LruCache.remove k) s c Hi Hc) as (_ & Hi' & _ & _); rewrite ?Hr; try done.
  { intros e. simpl. rewrite He. intros Hin. left. by eapply LruCache.spec_remove_incl. }
  revert Hi'. unfold remove, on_shard. rewrite Hc, Hr. simpl. intros Hi'.
  eexists. split; [f_equal; unfold view; by rewrite Hc|split; [done|split; [by eapply limits_insert|]]].
  apply (view_update s k c c' (fun k' o => if decide (k' = k) then None else o)); [done|..].
  - intros k' Hne. by rewrite decide_False.
  - intros k'. by rewrite He, LruCache.spec_find_remove.
Qed.

(** ** Snapshots *)

Lemma elem_of_snapshot_shards nows l e :
  e ∈ snapshot_shards nows l <-> exists i c, l !! i = Some c /\ e ∈ LruCache.snapshot (nows i) c.
Proof.
  revert nows. induction l as [|c l IH]; intros nows; simpl.
  - split; [by intros ?%not_elem_of_nil|by intros (i & c & ? & _)].
  - rewrite elem_of_app, IH. split.
    + intros [Hin|(i & c' & Hi & Hin)]; [by exists O, c|by exists (S i), c'].
    + intros ([|i] & c' & Hi & Hin); simplify_eq/=; [by left|right; eauto].
Qed.

Lemma view_entry s i c e : Inv s -> shards_ s !! i = Some c -> e ∈ LruCache.entries c -> view s (LruCache.e_key e) = Some e.
Proof.
  intros Hi Hc He. unfold view. rewrite (si_route s Hi i c e Hc He), Hc. simpl.
  pose proof (Forall_lookup_1 _ _ _ _ (si_lru s Hi) Hc) as [Hw]. by apply LruCache.spec_find_Some; [exact (LruCache.wf_nodup_keys c Hw)|..].
Qed.

Lemma view_inv s k e : view s k = Some e -> exists c, shards_ s !! shard_index s k = Some c /\ e ∈ LruCache.entries c /\ LruCache.e_key e = k.
Proof.
  unfold view. intros (c & Hc & Hf)%bind_Some. exists c. apply LruCache.spec_find_inv in Hf as [??]. done.
Qed.

(** A snapshot holds only entries of the cache, and each unless it was found expired. *)
Lemma snapshot_view nows s e : Inv s -> e ∈ snapshot nows s -> view s (LruCache.e_key e) = Some e.
Proof.
  intros Hi (i & c & Hc & He)%elem_of_snapshot_shards. eapply view_entry; [done|done|]. by eapply LruCache.snapshot_incl.
Qed.

Lemma view_snapshot nows s k e :
  view s k = Some e -> e ∈ snapshot nows s \/ exists i j, LruCache.Expired (nows i j) e = true.
Proof.
  intros (c & Hc & He & _)%view_inv. destruct (LruCache.snapshot_or (nows (shard_index s k)) c e He) as [Hin|[j Hj]]; [left|eauto].
  apply elem_of_snapshot_shards. eauto.
Qed.

Lemma snapshot_shards_nodup nows l :
  Forall (LruCache.Wf True) l ->
  (forall i j c c' e e', l !! i = Some c -> l !! j = Some c' -> e ∈ LruCache.entries c -> e' ∈ LruCache.entries c' ->
     LruCache.e_key e = LruCache.e_key e' -> i = j) ->
  NoDup (LruCache.e_key <$> snapshot_shards nows l).
Proof.
  intros Hw. revert nows. induction Hw as [|c l Hc Hw IH]; intros nows Hsep; [constructor|]. simpl.
  rewrite fmap_app. apply NoDup_app. split_and!.
  - exact (LruCache.snapshot_nodup _ c Hc).
  - intros k (e & -> & He)%list_elem_of_fmap (e' & Hk & (i & c' & Hi & He')%elem_of_snapshot_shards)%list_elem_of_fmap.
    apply LruCache.snapshot_incl in He, He'. by pose proof (Hsep O (S i) c c' e e' eq_refl Hi He He' Hk).
  - apply IH. intros i j c1 c2 e e' H1 H2 He He' Hk. by pose proof (Hsep (S i) (S j) c1 c2 e e' H1 H2 He He' Hk) as [=].
Qed.

Lemma sharded_snapshot_nodup nows s : Inv s -> NoDup (LruCache.e_key <$> snapshot nows s).
Proof.
  intros Hi. apply snapshot_shards_nodup.
  - eapply Forall_impl; [apply (si_lru s Hi)|]. by intros c [].
  - intros i j c c' e e' Hc Hc' He He' Hk. rewrite <-(si_route s Hi i c e Hc He), Hk. by apply (si_route s Hi j c' e').
Qed.

(** ** Properties *)

(** The constructor splits both budgets without rounding anything up or losing anything: it
    fails exactly when a limit is zero or a shard would get no bytes, and otherwise makes
    [min(capacity, num_shards)] empty shards whose capacities and byte budgets add up exactly. *)
Lemma make_partitions_budgets capacity num_shards max_bytes :
  0 <= capacity < 2 ^ 64 -> 0 <= num_shards < 2 ^ 64 -> 0 <= max_bytes < 2 ^ 64 ->
  if bool_decide (capacity = 0 \/ num_shards = 0 \/ max_bytes < Z.min capacity num_shards)
  then make capacity num_shards max_bytes = Throw std_invalid_argument
  else exists s, make capacity num_shards max_bytes = Ret s /\
    zlen (shards_ s) = Z.min capacity num_shards /\
    sum_with LruCache.capacity_ (shards_ s) = capacity /\ sum_with LruCache.max_bytes_ (shards_ s) = max_bytes /\
    Forall (fun c => LruCache.Inv c /\ LruCache.entries c = []) (shards_ s).
Proof.
  intros Hc Hn Hm. case_bool_decide as Hbad.
  - unfold make. destruct ((capacity =? 0) || (num_shards =? 0))%bool eqn:E; [done|].
    set (n := Z.min capacity num_shards) in *.
    rewrite (make_shards_zero capacity max_bytes n (seqZ 0 n) (n - 1)); [done|apply elem_of_seqZ; lia|].
    unfold share. rewrite Z.div_small, Z.mod_small by lia. rewrite (proj2 (Z.ltb_ge _ _)) by lia. done.
  - destruct (make_run capacity num_shards max_bytes) as (s & Hs & _ & ? & ? & ? & Hf); [lia|lia|lia|].
    exists s. split_and!; try done. eapply Forall_impl; [exact Hf|]. by intros c (? & ? & _).
Qed.

(** Whatever calls are made, the sharded cache stays within the configured totals: at most
    [capacity] entries and [max_bytes] accounted bytes, every entry sits in the shard its hash
    selects, and no call is undefined or diverges. *)
Lemma sharded_within_limits capacity num_shards max_bytes s o :
  0 < capacity < 2 ^ 64 -> 0 < num_shards < 2 ^ 64 -> Z.min capacity num_shards <= max_bytes < 2 ^ 63 ->
  reachable capacity num_shards max_bytes s ->
  size s <= capacity /\ LruCache.s_bytes (getStats s) <= max_bytes /\
  (forall i c e, shards_ s !! i = Some c -> e ∈ LruCache.entries c -> shard_index s (LruCache.e_key e) = i) /\
  LruCache.returns_or_throws (run_op o s).2.
Proof.
  intros Hc Hn Hm Hr. destruct (reachable_Inv _ _ _ s Hc Hn Hm Hr) as (Hi & Ec & Em).
  destruct (Inv_totals s Hi) as [Hsz Hby]. split_and!.
  - unfold size. rewrite fold_u64_sum; [lia| |lia|lia].
    eapply Forall_impl; [apply (si_lru s Hi)|]. intros c _. apply zlen_nonneg.
  - unfold getStats. rewrite stats_bytes, (fold_u64_sum (fun c => LruCache.s_bytes (LruCache.stats_ c))); simpl; [lia| |lia|lia].
    eapply Forall_impl; [apply (si_lru s Hi)|]. intros c [Hw]. rewrite (LruCache.wf_bytes c Hw).
    apply LruCache.sum_bytes_nonneg, LruCache.cost_bytes_nonneg, Hw.
  - apply Hi.
  - destruct (run_op_run o s Hi) as (c & Hsh & -> & _).
    apply LruCache.run_op_safe; [apply (Forall_lookup_1 _ _ _ _ (si_lru s Hi) Hsh)|apply (Forall_lookup_1 _ _ _ _ (si_max s Hi) Hsh)].
Qed.

(** Map behaviour through the shards: storing a live value makes exactly that value readable
    under its key, and for every other key the visible entry is unchanged or evicted, never altered. *)
Lemma sharded_put_get now now' k v ex s s' :
  Inv s -> canStore s k v = true -> (ex = 0 \/ now < ex) -> (ex = 0 \/ now' < ex) ->
  put now LruCache.Ample k v ex s = (s', Ret tt) ->
  (exists s'', get now' k s' = (s'', Ret (Some v))) /\
  forall k', k' <> k -> view s' k' = view s k' \/ view s' k' = None.
Proof.
  intros Hi Hst H1 H2 Hp. destruct (put_view now k v ex s Hi Hst) as (s1 & Hp1 & Hi1 & _ & Hv & Ho).
  rewrite Hp in Hp1. injection Hp1 as <-. split; [|done].
  destruct (get_view now' k s' Hi1) as (s'' & Hg & _). exists s''. rewrite Hg, Hv.
  replace (negb (ex =? 0) && (ex <=? now))%bool with false by lia. simpl. unfold LruCache.Expired. simpl.
  by replace (negb (ex =? 0) && (ex <=? now'))%bool with false by lia.
Qed.

End ShardedCache.

(** A concrete hash: the key's bytes as a little-endian number. *)
Definition hash_le : Hash bytes := {| hash_ := fun k => u64 (le_combine k); hash_range k := u64_range (le_combine k) |}.

End ShardedCache.
