(* ===== verification/Disk.v ===== *)
(** The operating system as the AOF uses it: a script of system-call answers chosen by the
    kernel (short counts, EINTR, errors), files with a durable and a cached part, the log's
    directory entry, and the exact-transfer loops [ReadExact], [WriteExact], [Sync] and
    [SyncDirectory] of KVCache/src/aof.cpp.  Writes append: the log is opened with O_APPEND
    and a replacement is written from empty.  Every state the disk goes through is recorded, so that
    theorems can speak of a crash at any point. *)
From S2P Require Import Prelude.

(** One answer of the kernel: a non-negative or zero result, [EINTR], or another error. *)
Inductive reply := Done (n : Z) | Eintr | Failed.

(** A file: what [fsync] has made durable, and what has been appended since. *)
Record file := mkFile { synced : bytes; unsynced : bytes }.
Definition content (f : file) : bytes := synced f ++ unsynced f.
Definition file_append (b : bytes) (f : file) : file := mkFile (synced f) (unsynced f ++ b).
Definition file_sync (f : file) : file := mkFile (content f) [].
Definition empty_file : file := mkFile [] [].

(** [linked] is the file behind [fd_], to which the log's name refers; [shadows] are the files the
    on-disk directory may still name because a rename has not been synced; [temp] is the rewrite's
    temporary file; [pos] is the read offset. *)
Record disk := mkDisk { linked : file; shadows : list file; temp : option file; pos : nat }.

Definition on_linked (f : file -> file) (d : disk) : disk := mkDisk (f (linked d)) (shadows d) (temp d) (pos d).
Definition on_temp (f : file -> file) (d : disk) : disk := mkDisk (linked d) (shadows d) (f <$> temp d) (pos d).
Definition seek (n : nat) (d : disk) : disk := mkDisk (linked d) (shadows d) (temp d) n.
Definition create_temp (d : disk) : disk := mkDisk (linked d) (shadows d) (Some empty_file) (pos d).
Definition unlink_temp (d : disk) : disk := mkDisk (linked d) (shadows d) None (pos d).
(** [rename(temp, name)]: atomic for observers, durable only after the directory is synced. *)
Definition rename_temp (d : disk) : disk :=
  match temp d with
  | Some f => mkDisk f (linked d :: shadows d) None (length (content f))
  | None => d
  end.
Definition sync_dir (d : disk) : disk := mkDisk (linked d) [] (temp d) (pos d).

(** What the log may hold after a crash: the durable part of a file its name may refer to, and
    any prefix of what was not yet synced. *)
Inductive crash_content (d : disk) : bytes -> Prop :=
| crash_linked p : p `prefix_of` unsynced (linked d) -> crash_content d (synced (linked d) ++ p)
| crash_shadow f p : f ∈ shadows d -> p `prefix_of` unsynced f -> crash_content d (synced f ++ p).

(** [trace] lists every disk state so far, newest first, the current one included. *)
Record os := mkOs { replies : list reply; dsk : disk; trace : list disk }.

Definition syscall : M os reply := fun o =>
  match replies o with
  | [] => (o, Blocked)
  | r :: rs => (mkOs rs (dsk o) (trace o), Ret r)
  end.
Definition effect (f : disk -> disk) : M os unit := fun o =>
  (mkOs (replies o) (f (dsk o)) (f (dsk o) :: trace o), Ret tt).

(** A call whose negative result is reported as an exception. *)
Definition must (e : exn) : M os Z :=
  r ← syscall;
  match r with Done n => if n <? 0 then throw e else mret n | Eintr | Failed => throw e end.

(** [WriteExact]: the loop consumes one answer per [write]. *)
Fixpoint write_loop (upd : (file -> file) -> disk -> disk) (rs : list reply) (d : disk) (tr : list disk) (data : bytes)
  : os * outcome unit :=
  match data with
  | [] => (mkOs rs d tr, Ret tt)
  | _ =>
      match rs with
      | [] => (mkOs [] d tr, Blocked)
      | Eintr :: rs => write_loop upd rs d tr data
      | Failed :: rs => (mkOs rs d tr, Throw std_runtime_error)
      | Done n :: rs =>
          if n <=? 0 then (mkOs rs d tr, Throw std_runtime_error)
          else
            let k := Nat.min (Z.to_nat n) (length data) in
            let d' := upd (file_append (take k data)) d in
            write_loop upd rs d' (d' :: tr) (drop k data)
      end
  end.
Definition WriteExact (upd : (file -> file) -> disk -> disk) (data : bytes) : M os unit := fun o =>
  write_loop upd (replies o) (dsk o) (trace o) data.

(** [ReadExact] on [fd_]: at end of file [read] returns zero, which is an error. *)
Fixpoint read_loop (rs : list reply) (d : disk) (tr : list disk) (size : nat) (acc : bytes) : os * outcome bytes :=
  match size with
  | O => (mkOs rs d tr, Ret acc)
  | _ =>
      match rs with
      | [] => (mkOs [] d tr, Blocked)
      | Eintr :: rs => read_loop rs d tr size acc
      | Failed :: rs => (mkOs rs d tr, Throw std_runtime_error)
      | Done n :: rs =>
          let chunk := take (Nat.min (Z.to_nat n) size) (drop (pos d) (content (linked d))) in
          match chunk with
          | [] => (mkOs rs d tr, Throw std_runtime_error)
          | _ => read_loop rs (seek (pos d + length chunk) d) tr (size - length chunk) (acc ++ chunk)
          end
      end
  end.
Definition ReadExact (size : nat) : M os bytes := fun o => read_loop (replies o) (dsk o) (trace o) size [].

(** [Sync]: retry on EINTR; [eff] is what a successful [fsync] makes durable. *)
Fixpoint sync_loop (eff : disk -> disk) (rs : list reply) (d : disk) (tr : list disk) : os * outcome unit :=
  match rs with
  | [] => (mkOs [] d tr, Blocked)
  | Eintr :: rs => sync_loop eff rs d tr
  | Failed :: rs => (mkOs rs d tr, Throw std_runtime_error)
  | Done n :: rs => if n <? 0 then (mkOs rs d tr, Throw std_runtime_error) else (mkOs rs (eff d) (eff d :: tr), Ret tt)
  end.
Definition Sync (eff : disk -> disk) : M os unit := fun o => sync_loop eff (replies o) (dsk o) (trace o).

Definition SyncDirectory : M os unit :=
  _ ← must std_runtime_error;
  Sync sync_dir.

(** * Lemmas on the transfer loops *)

Definition reply_ok (r : reply) : Prop := match r with Done n => 0 < n | Eintr => True | Failed => False end.
Definition is_done (r : reply) : bool := match r with Done _ => true | _ => false end.
Definition dones (rs : list reply) : nat := length (List.filter is_done rs).

(** The kernel keeps making progress: no error, and at least [n] successful answers to come. *)
Definition ready (n : nat) (rs : list reply) : Prop := Forall reply_ok rs /\ (n <= dones rs)%nat.

Lemma ready_weaken n m rs : (m <= n)%nat -> ready n rs -> ready m rs.
Proof. intros ? []. split; [done|lia]. Qed.

Lemma read_loop_sound rs d tr size acc o bs :
  read_loop rs d tr size acc = (o, Ret bs) ->
  (size <= length (drop (pos d) (content (linked d))))%nat /\
  bs = acc ++ take size (drop (pos d) (content (linked d))) /\ dsk o = seek (pos d + size) d /\ trace o = tr.
Proof.
  revert d size acc. induction rs as [|r rs IH]; intros d size acc E; destruct size as [|size]; simpl in E.
  1, 3: injection E as <- <-; rewrite Nat.add_0_r, take_0, app_nil_r; split_and!; try done; [lia|by destruct d].
  { done. }
  destruct r as [n| |]; [|by apply IH|done].
  set (av := drop (pos d) (content (linked d))) in *. set (k := Nat.min (Z.to_nat n) (S size)) in *.
  destruct (take k av) as [|b0 l0] eqn:Et; [done|]. rewrite <-Et in E.
  apply IH in E as (Hl & -> & Hd & Ht). simpl in Hl, Hd. unfold seek in Hl; simpl in Hl.
  assert (length (take k av) <= S size)%nat as Hk by (rewrite length_take; lia).
  rewrite <-drop_drop in *. fold av in Hl |- *. rewrite length_drop in Hl.
  assert (take k av = take (length (take k av)) av) as Hkk by (by rewrite length_take, take_min_length).
  pose proof (length_take av k) as Hlk. simpl. split_and!; [lia| | |done].
  - rewrite <-app_assoc. f_equal. rewrite <-drop_drop. fold av. rewrite Hkk at 1. rewrite take_take_drop. f_equal. lia.
  - rewrite Hd. unfold seek. simpl. f_equal. lia.
Qed.

Lemma read_loop_run rs d tr size acc :
  ready size rs -> (size <= length (drop (pos d) (content (linked d))))%nat ->
  exists rs', read_loop rs d tr size acc =
      (mkOs rs' (seek (pos d + size) d) tr, Ret (acc ++ take size (drop (pos d) (content (linked d))))) /\
    Forall reply_ok rs' /\ (dones rs <= dones rs' + size)%nat.
Proof.
  revert d size acc. induction rs as [|r rs IH]; intros d size acc [Hok Hd] Hl; destruct size as [|size].
  1, 3: eexists; simpl; rewrite Nat.add_0_r, take_0, app_nil_r; split; [by destruct d|split; [done|lia]].
  { unfold dones in Hd. simpl in Hd. lia. }
  apply Forall_cons in Hok as [Hr Hok]. destruct r as [n| |]; [|by apply IH|done]. simpl.
  set (av := drop (pos d) (content (linked d))) in *. set (k := Nat.min (Z.to_nat n) (S size)) in *.
  assert (length (take k av) = k) as Hk by (rewrite length_take; simpl in Hr; lia).
  assert (1 <= k <= S size)%nat as Hk1 by (simpl in Hr; lia).
  destruct (take k av) as [|b0 l0] eqn:Et; [simpl in Hk; lia|]. rewrite <-Et in *. rewrite Hk.
  unfold dones in Hd. simpl in Hd. fold (dones rs) in Hd.
  destruct (IH (seek (pos d + k) d) (S size - k)%nat (acc ++ take k av)) as (rs' & E & Hok' & Hd'); simpl.
  - split; [done|lia].
  - rewrite <-drop_drop, length_drop. fold av. lia.
  - exists rs'. simpl in E. rewrite E. split; [|split; [done|unfold dones in *; simpl; lia]].
    f_equal; [f_equal; unfold seek; simpl; f_equal; lia|].
    rewrite <-app_assoc, <-drop_drop. fold av. rewrite take_take_drop. do 2 f_equal. f_equal. lia.
Qed.

(** Reading past the end fails, however the kernel splits the reads. *)
Lemma read_loop_eof rs d tr size acc :
  ready size rs -> (length (drop (pos d) (content (linked d))) < size)%nat ->
  exists o, read_loop rs d tr size acc = (o, Throw std_runtime_error).
Proof.
  revert d size acc. induction rs as [|r rs IH]; intros d size acc [Hok Hd] Hl; (destruct size as [|size]; [lia|]).
  { unfold dones in Hd. simpl in Hd. lia. }
  apply Forall_cons in Hok as [Hr Hok]. destruct r as [n| |]; [|by apply IH|done]. simpl.
  set (av := drop (pos d) (content (linked d))) in *. set (k := Nat.min (Z.to_nat n) (S size)) in *.
  destruct (take k av) as [|b0 l0] eqn:Et; [eauto|]. rewrite <-Et.
  pose proof (length_take av k) as Hlk. assert (1 <= length (take k av))%nat by (rewrite Et; simpl; lia).
  unfold dones in Hd. simpl in Hd. fold (dones rs) in Hd.
  apply IH; simpl; [split; [done|lia]|]. rewrite <-drop_drop, length_drop. fold av. lia.
Qed.

(** Where a write goes: an update of a file that appends compose. *)
Class AppendTo (upd : (file -> file) -> disk -> disk) := {
  upd_nil d : upd (file_append []) d = d;
  upd_app a b d : upd (file_append b) (upd (file_append a) d) = upd (file_append (a ++ b)) d
}.

Lemma file_append_nil f : file_append [] f = f.
Proof. destruct f. unfold file_append. by rewrite app_nil_r. Qed.
Lemma file_append_app a b f : file_append b (file_append a f) = file_append (a ++ b) f.
Proof. unfold file_append. simpl. by rewrite app_assoc. Qed.

#[export] Instance AppendTo_linked : AppendTo on_linked.
Proof. split; intros; unfold on_linked; simpl; [rewrite file_append_nil; by destruct d|by rewrite file_append_app]. Qed.
#[export] Instance AppendTo_temp : AppendTo on_temp.
Proof.
  split; intros; unfold on_temp; simpl; destruct d as [l sh [f|] p]; simpl; [by rewrite file_append_nil|done|by rewrite file_append_app|done].
Qed.

Section Writes.
Context (upd : (file -> file) -> disk -> disk) {Hupd : AppendTo upd}.

(** [WriteExact] under any kernel behaviour: a prefix of the data is appended, all of it on
    success, and every intermediate disk state has a prefix appended. *)
Lemma write_loop_any rs d tr data o r :
  write_loop upd rs d tr data = (o, r) ->
  exists p, p `prefix_of` data /\ dsk o = upd (file_append p) d /\
    (forall d', d' ∈ trace o -> d' ∈ tr \/ exists q, q `prefix_of` data /\ d' = upd (file_append q) d) /\
    match r with Ret _ => p = data | Throw e => e = std_runtime_error | Blocked => True | Undef => False end.
Proof.
  revert d tr data. induction rs as [|x rs IH]; intros d tr data E; destruct data as [|b0 data]; simpl in E.
  1, 3: injection E as <- <-; exists []; rewrite upd_nil; split_and!; try done; by left.
  { injection E as <- <-. exists []. rewrite upd_nil. split_and!; [apply prefix_nil|done|by left|done]. }
  destruct x as [n| |]; [|by apply IH|].
  2: { injection E as <- <-. exists []. rewrite upd_nil. split_and!; [apply prefix_nil|done|by left|done]. }
  destruct (n <=? 0).
  { injection E as <- <-. exists []. rewrite upd_nil. split_and!; [apply prefix_nil|done|by left|done]. }
  set (dat := b0 :: data) in *. set (k := Nat.min (Z.to_nat n) (S (length data))) in *.
  apply IH in E as (p & [s Hs] & Hd & Ht & Hr). rewrite upd_app in Hd.
  assert (dat = take k dat ++ p ++ s) as Es by (by rewrite <-Hs, take_drop).
  exists (take k dat ++ p). split_and!; [|done| |].
  - exists s. by rewrite <-app_assoc.
  - intros d' [Hin|(q & [s' Hq] & ->)]%Ht.
    + apply elem_of_cons in Hin as [->|Hin]; [|by left]. right. exists (take k dat). split; [apply prefix_take|done].
    + right. exists (take k dat ++ q). rewrite upd_app. split; [|done]. exists s'. by rewrite <-app_assoc, <-Hq, take_drop.
  - destruct r; try done. by rewrite Hr, take_drop.
Qed.

Lemma write_loop_run rs d tr data :
  ready (length data) rs ->
  exists rs' tr', write_loop upd rs d tr data = (mkOs rs' (upd (file_append data) d) tr', Ret tt) /\
    Forall reply_ok rs' /\ (dones rs <= dones rs' + length data)%nat.
Proof.
  revert d tr data. induction rs as [|x rs IH]; intros d tr data [Hok Hd]; destruct data as [|b0 data].
  1, 3: eexists _, _; simpl; rewrite upd_nil; split; [done|split; [done|lia]].
  { unfold dones in Hd. simpl in Hd. lia. }
  apply Forall_cons in Hok as [Hr Hok]. destruct x as [n| |]; [|by apply IH|done]. simpl. simpl in Hr.
  rewrite (proj2 (Z.leb_gt _ _)) by done. set (k := Nat.min (Z.to_nat n) (S (length data))) in *. set (dat := b0 :: data) in *.
  unfold dones in Hd. simpl in Hd. fold (dones rs) in Hd.
  assert (length (drop k dat) = S (length data) - k)%nat as Hl by (by rewrite length_drop).
  destruct (IH (upd (file_append (take k dat)) d) (upd (file_append (take k dat)) d :: tr) (drop k dat)) as (rs' & tr' & E & ? & ?).
  { split; [done|lia]. }
  exists rs', tr'. rewrite E, upd_app, take_drop. split; [done|]. split; [done|]. unfold dones in *. simpl. lia.
Qed.

End Writes.

Lemma sync_loop_any eff rs d tr o r :
  sync_loop eff rs d tr = (o, r) ->
  match r with
  | Ret _ => dsk o = eff d /\ trace o = eff d :: tr
  | Throw e => e = std_runtime_error /\ dsk o = d /\ trace o = tr
  | Blocked => dsk o = d /\ trace o = tr
  | Undef => False
  end.
Proof.
  induction rs as [|x rs IH]; simpl; [by intros [= <- <-]|].
  destruct x as [n| |]; [destruct (n <? 0); by intros [= <- <-]|done|by intros [= <- <-]].
Qed.

Lemma sync_loop_run eff rs d tr :
  ready 1 rs ->
  exists rs', sync_loop eff rs d tr = (mkOs rs' (eff d) (eff d :: tr), Ret tt) /\
    Forall reply_ok rs' /\ (dones rs <= dones rs' + 1)%nat.
Proof.
  induction rs as [|x rs IH]; intros [Hok Hd]; [unfold dones in Hd; simpl in Hd; lia|].
  apply Forall_cons in Hok as [Hr Hok]. destruct x as [n| |]; simpl in *; [|by apply IH|done].
  rewrite (proj2 (Z.ltb_ge _ _)) by lia. eexists. split; [done|]. split; [done|]. unfold dones. simpl. lia.
Qed.

Lemma must_any e o o' r :
  must e o = (o', r) ->
  dsk o' = dsk o /\ trace o' = trace o /\ match r with Ret _ | Blocked => True | Throw e' => e' = e | Undef => False end.
Proof.
  unfold must, syscall, mbind, M_bind. destruct (replies o) as [|[n| |] rs]; [by intros [= <- <-]| |by intros [= <- <-]|by intros [= <- <-]].
  destruct (n <? 0); by intros [= <- <-].
Qed.
