(* ===== verification/Aof.v ===== *)
(** [kvcache::AofLogger] (KVCache/include/aof.h, KVCache/src/aof.cpp): the append-only file.
    Record encoding, opening, batch append with one fsync, rewrite through a temporary file, and
    replay of checksummed and legacy records. *)
From S2P Require Import Prelude KvProtocol Crc32 Disk.

Record Mutation := mkMutation { m_command : Command; m_key : bytes; m_value : bytes }.
#[export] Instance Mutation_eq_dec : EqDecision Mutation.
Proof. solve_decision. Defined.

Definition AOF2 : bytes := str "AOF2".

Definition Encode (m : Mutation) : outcome bytes :=
  if negb (bool_decide (m_command m = SET) || bool_decide (m_command m = DEL) || bool_decide (m_command m = SET_TTL)) ||
     (bool_decide (m_command m = DEL) && negb (bool_decide (m_value m = [])))
  then Throw std_invalid_argument
  else
    payload ← Message.encode (m_command m) (m_key m) (m_value m);
    Ret (AOF2 ++ be_split 4 (zlen payload) ++ be_split 4 (Crc payload) ++ payload).

(** [for (m : mutations) result += Encode(m).size();] *)
Fixpoint Size_from (result : Z) (ms : list Mutation) : outcome Z :=
  match ms with
  | [] => Ret result
  | m :: ms => b ← Encode m; Size_from (u64 (result + zlen b)) ms
  end.
Definition Size (ms : list Mutation) : outcome Z := Size_from 0 ms.

Record AofStats := mkAofStats { records : Z; syncs : Z; a_bytes : Z; rewrites : Z; sync_us : Z }.

Record AofLogger := mkAofLogger {
  bytes_ : Z;
  rewritten_at_ : Z;
  max_bytes_ : Z;
  failed_ : bool;
  started_ : bool;
  stats_ : AofStats
}.

(** A logger and the operating system it runs on. *)
Record aof := mkAof { log_ : AofLogger; os_ : os }.

Definition on_os {A} (m : M os A) : M aof A := fun a =>
  let '(o, r) := m (os_ a) in (mkAof (log_ a) o, r).
Definition on_log (f : AofLogger -> AofLogger) : M aof unit := fun a => (mkAof (f (log_ a)) (os_ a), Ret tt).

Definition set_failed (l : AofLogger) : AofLogger :=
  mkAofLogger (bytes_ l) (rewritten_at_ l) (max_bytes_ l) true (started_ l) (stats_ l).
Definition set_started (b : bool) (l : AofLogger) : AofLogger :=
  mkAofLogger (bytes_ l) (rewritten_at_ l) (max_bytes_ l) (failed_ l) b (stats_ l).

(** Constructor: lock file, [flock], the log itself, its lock, its size; [regular] is [S_ISREG]. *)
Definition open_log (max_bytes : Z) (regular : bool) : M os AofLogger :=
  _ ← must std_runtime_error;
  _ ← must std_runtime_error;
  _ ← must std_runtime_error;
  _ ← must std_runtime_error;
  r ← must std_runtime_error;
  o ← get_state;
  let size := zlen (content (linked (dsk o))) in
  if negb (r =? 0) || negb regular || (max_bytes <? size) then throw std_runtime_error
  else
    _ ← SyncDirectory;
    mret (mkAofLogger size 0 max_bytes false false (mkAofStats 0 0 size 0 0)).

Definition start : M aof unit := on_log (set_started true).
Definition stop : M aof unit := on_log (set_started false).

Definition needsRewrite (l : AofLogger) (ms : list Mutation) : outcome bool :=
  if bool_decide (ms = []) then Ret false
  else
    size ← Size ms;
    Ret ((u64 (max_bytes_ l - bytes_ l) <? size) ||
         ((max_bytes_ l / 2 <? bytes_ l) && (max_bytes_ l / 4 <? u64 (bytes_ l - rewritten_at_ l)))).

Fixpoint write_all (upd : (file -> file) -> disk -> disk) (ms : list Mutation) : M os unit :=
  match ms with
  | [] => mret tt
  | m :: ms => b ← lift (Encode m); _ ← WriteExact upd b; write_all upd ms
  end.

(** [elapsed] is the duration of the fsync in microseconds. *)
Definition logBatch (elapsed : Z) (ms : list Mutation) : M aof unit :=
  if bool_decide (ms = []) then mret tt
  else
    a ← get_state;
    let l := log_ a in
    if negb (started_ l) || failed_ l then throw std_runtime_error
    else
      size ← lift (Size ms);
      if u64 (max_bytes_ l - bytes_ l) <? size then throw AofCapacityError
      else
        _ ← try_catch
              (_ ← on_os (write_all on_linked ms);
               _ ← on_os (Sync (on_linked file_sync));
               on_log (fun l => mkAofLogger (bytes_ l) (rewritten_at_ l) (max_bytes_ l) (failed_ l) (started_ l)
                 (mkAofStats (records (stats_ l)) (syncs (stats_ l)) (a_bytes (stats_ l)) (rewrites (stats_ l))
                             (u64 (sync_us (stats_ l) + elapsed)))))
              (fun e => _ ← on_log set_failed; throw e);
        on_log (fun l =>
          let b := u64 (bytes_ l + size) in
          mkAofLogger b (rewritten_at_ l) (max_bytes_ l) (failed_ l) (started_ l)
            (mkAofStats (u64 (records (stats_ l) + zlen ms)) (u64 (syncs (stats_ l) + 1)) b (rewrites (stats_ l))
                        (sync_us (stats_ l)))).

Definition log (elapsed : Z) (c : Command) (key value : bytes) : M aof unit := logBatch elapsed [mkMutation c key value].

(** A call reported by a non-zero result ([flock], [rename]). *)
Definition must_zero (e : exn) : M os unit :=
  r ← must e;
  if r =? 0 then mret tt else throw e.

(** Lock, fill and sync the temporary file, and rename it over the log. *)
Definition write_replacement (snapshot : list Mutation) : M os unit :=
  _ ← must_zero std_runtime_error;
  _ ← write_all on_temp snapshot;
  _ ← Sync (on_temp file_sync);
  _ ← must_zero std_runtime_error;
  effect rename_temp.

(** The [renamed] flag splits the try block in two: before the rename a failure unlinks the
    temporary file, after it a failure disables the logger. *)
Definition rewrite (snapshot : list Mutation) : M aof unit :=
  a ← get_state;
  if failed_ (log_ a) then throw std_runtime_error
  else
    size ← lift (Size snapshot);
    if max_bytes_ (log_ a) <? size then throw AofCapacityError
    else
      _ ← on_os (must std_runtime_error);
      _ ← on_os (effect create_temp);
      _ ← try_catch (on_os (write_replacement snapshot))
            (fun e => _ ← on_os (effect unlink_temp); throw e);
      try_catch
        (_ ← on_log (fun l => mkAofLogger size size (max_bytes_ l) (failed_ l) (started_ l)
               (mkAofStats (records (stats_ l)) (syncs (stats_ l)) size (u64 (rewrites (stats_ l) + 1)) (sync_us (stats_ l))));
         on_os SyncDirectory)
        (fun e => _ ← on_log set_failed; throw e).

(** ** Replay *)

(** Body of one record: the payload, and what remains of the file after it. *)
Definition read_payload (remaining : Z) : M os (Z * bytes) :=
  if remaining <? HEADER_SIZE then throw std_runtime_error
  else
    header ← ReadExact 12;
    let remaining := remaining - 12 in
    if bool_decide (header.[0, 4] = AOF2) then
      let length := be_combine header.[4, 4] in
      let crc := be_combine header.[8, 4] in
      if (length <? HEADER_SIZE) || (MAX_FRAME_SIZE <? length) || (remaining <? length) then throw std_runtime_error
      else
        payload ← ReadExact (Z.to_nat length);
        if Crc payload =? crc then mret (remaining - length, payload) else throw std_runtime_error
    else
      h ← lift (Message.decodeHeader header);
      _ ← lift (Message.validate h);
      let length := key_len h + value_len h in
      if remaining <? length then throw std_runtime_error
      else
        body ← ReadExact (Z.to_nat length);
        mret (remaining - length, header ++ body).

(** The mutation a payload stands for. *)
Definition parse_payload (payload : bytes) : outcome Mutation :=
  h ← Message.decodeHeader payload;
  _ ← Message.validate h;
  if negb (Message.total h =? zlen payload) ||
     (negb (command h =? command_code SET) && negb (command h =? command_code DEL) && negb (command h =? command_code SET_TTL)) ||
     ((command h =? command_code DEL) && negb (value_len h =? 0))
  then Throw std_runtime_error
  else Ret (mkMutation (command_of (command h)) (Message.body_key h payload) (Message.body_value h payload)).

(** The loop interleaves reading with the callback; [St] is the state the callback changes. *)
Section Replay.
Context {St : Type} (callback : Mutation -> M St unit).

Definition on_fst {A} (m : M os A) : M (os * St) A := fun s => let '(o, r) := m s.1 in ((o, s.2), r).
Definition on_snd {A} (m : M St A) : M (os * St) A := fun s => let '(t, r) := m s.2 in ((s.1, t), r).

Fixpoint replay_loop (fuel : nat) (remaining : Z) : M (os * St) unit :=
  if remaining =? 0 then mret tt
  else
    match fuel with
    | O => fun s => (s, Blocked)
    | S fuel =>
        r ← on_fst (read_payload remaining);
        m ← lift (parse_payload r.2);
        _ ← on_snd (callback m);
        replay_loop fuel r.1
    end.

(** Every iteration takes at least a header off [remaining], so [bytes_] rounds are enough. *)
Definition replay (l : AofLogger) : M (os * St) unit :=
  if started_ l then throw std_logic_error
  else
    _ ← on_fst (must std_runtime_error);
    _ ← on_fst (modify (fun o => mkOs (replies o) (seek 0 (dsk o)) (trace o)));
    replay_loop (Z.to_nat (bytes_ l)) (bytes_ l).
End Replay.

(** * Encoded records *)

(** The mutations the log accepts. *)
Definition loggable (m : Mutation) : Prop :=
  (m_command m = SET \/ m_command m = DEL \/ m_command m = SET_TTL) /\ (m_command m = DEL -> m_value m = []) /\
  zlen (m_key m) <= MAX_KEY_SIZE /\ zlen (m_value m) <= MAX_WIRE_VALUE_SIZE.

#[export] Instance loggable_dec m : Decision (loggable m).
Proof. unfold loggable. apply _. Defined.

Definition payload (m : Mutation) : bytes :=
  header_bytes (header_of (m_command m) (m_key m) (m_value m)) ++ m_key m ++ m_value m.
Definition sealed (p : bytes) : bytes := AOF2 ++ be_split 4 (zlen p) ++ be_split 4 (Crc p) ++ p.
Definition frame (m : Mutation) : bytes := sealed (payload m).
Definition frames (ms : list Mutation) : bytes := concat (frame <$> ms).

Lemma loggable_encodable m : loggable m -> encodable (m_command m) (m_key m) (m_value m).
Proof. intros (Hc & _ & ? & ?). split_and!; [|done|done]. intros E. rewrite E in Hc. by destruct Hc as [|[|]]. Qed.

Lemma loggable_command m :
  m_command m = SET \/ m_command m = DEL \/ m_command m = SET_TTL <->
  (bool_decide (m_command m = SET) || bool_decide (m_command m = DEL) || bool_decide (m_command m = SET_TTL))%bool = true.
Proof. destruct (m_command m); simpl; split; try done; try tauto; by intros [|[|]]. Qed.

Lemma Encode_Ret m : loggable m -> Encode m = Ret (frame m).
Proof.
  intros Hl. pose proof (loggable_encodable m Hl) as He. destruct Hl as (Hc & Hd & _).
  unfold Encode. rewrite (proj1 (loggable_command m) Hc). simpl.
  destruct (bool_decide (m_command m = DEL)) eqn:Ed; simpl.
  - rewrite (Hd (bool_decide_eq_true_1 _ Ed)) in *. simpl. rewrite encode_Ret by done. simpl. unfold frame, payload. by rewrite (Hd (bool_decide_eq_true_1 _ Ed)).
  - by rewrite encode_Ret.
Qed.

Lemma Encode_Ret_inv m b : Encode m = Ret b -> loggable m /\ b = frame m.
Proof.
  intros E. assert (loggable m) as Hl; [|split; [done|]; rewrite Encode_Ret in E by done; by injection E].
  revert E. unfold Encode. destruct (negb _ || _)%bool eqn:Eg; [done|]. apply orb_false_iff in Eg as [Ec Ed].
  apply negb_false_iff, loggable_command in Ec. intros (p & Hp & _)%outcome_bind_Ret.
  apply encode_Ret_inv in Hp as [(_ & ? & ?) _]. split_and!; try done. intros Hdel.
  rewrite bool_decide_true in Ed by done. simpl in Ed. by apply negb_false_iff, bool_decide_eq_true_1 in Ed.
Qed.

Lemma Encode_error m :
  ~ loggable m -> Encode m = Throw std_invalid_argument \/ Encode m = Throw std_length_error.
Proof.
  intros Hn. unfold Encode. destruct (negb _ || _)%bool eqn:Eg; [by left|].
  apply orb_false_iff in Eg as [Ec%negb_false_iff Ed]. apply loggable_command in Ec.
  destruct (encode_cases (m_command m) (m_key m) (m_value m)) as [[b Hb]|[->|[Hu _]]]; [|by right|].
  - destruct Hn. apply (Encode_Ret_inv m (sealed b)). unfold Encode.
    rewrite (proj1 (loggable_command m) Ec), Ed, Hb. done.
  - rewrite Hu in Ec. by destruct Ec as [|[|]].
Qed.

Lemma frames_cons m ms : frames (m :: ms) = frame m ++ frames ms.
Proof. done. Qed.

Lemma frames_app ms ns : frames (ms ++ ns) = frames ms ++ frames ns.
Proof. unfold frames. by rewrite fmap_app, concat_app. Qed.

Lemma Size_from_Ret r ms : Forall loggable ms -> Size_from (u64 r) ms = Ret (u64 (r + zlen (frames ms))).
Proof.
  intros Hl. revert r. induction Hl as [|m ms Hm _ IH]; intros r; [unfold frames; simpl; by rewrite Z.add_0_r|].
  cbn [Size_from]. rewrite Encode_Ret, bind_Ret by done. rewrite frames_cons, zlen_app, Z.add_assoc, <-IH.
  f_equal. unfold u64. by rewrite Zplus_mod_idemp_l.
Qed.

Lemma Size_Ret ms : Forall loggable ms -> Size ms = Ret (u64 (zlen (frames ms))).
Proof. apply (Size_from_Ret 0). Qed.

Lemma Size_from_error r ms :
  ~ Forall loggable ms -> Size_from r ms = Throw std_invalid_argument \/ Size_from r ms = Throw std_length_error.
Proof.
  revert r. induction ms as [|m ms IH]; intros r Hn; [by destruct Hn|]. cbn [Size_from].
  destruct (decide (loggable m)) as [Hm|Hm]; [|by destruct (Encode_error m Hm) as [-> | ->]; [left|right]].
  rewrite Encode_Ret, bind_Ret by done. apply IH. intros Hms. apply Hn. by constructor.
Qed.

Lemma Size_error ms : ~ Forall loggable ms -> Size ms = Throw std_invalid_argument \/ Size ms = Throw std_length_error.
Proof. apply Size_from_error. Qed.

(** * Writing a batch *)

(** Every disk state the run from [o] to [o'] went through satisfies [P]. *)
Definition through (P : disk -> Prop) (o o' : os) : Prop := forall d, d ∈ trace o' -> d ∈ trace o \/ P d.

Lemma through_refl P o : through P o o.
Proof. by left. Qed.
Lemma through_trans P o1 o2 o3 : through P o1 o2 -> through P o2 o3 -> through P o1 o3.
Proof. intros H1 H2 d Hd. destruct (H2 d Hd) as [Hd'|]; [by apply H1|by right]. Qed.
Lemma through_weaken P Q o o' : (forall d, P d -> Q d) -> through P o o' -> through Q o o'.
Proof. intros HPQ H d Hd. destruct (H d Hd); [by left|right; auto]. Qed.
Lemma through_same P o o' : trace o' = trace o -> through P o o'.
Proof. intros E d Hd. left. by rewrite <-E. Qed.
Lemma through_one P o o' d : trace o' = d :: trace o -> P d -> through P o o'.
Proof. intros E Hd x Hx. rewrite E in Hx. apply elem_of_cons in Hx as [->|]; [by right|by left]. Qed.
#[export] Hint Resolve through_refl through_same : kv.

Section WriteAll.
Context (upd : (file -> file) -> disk -> disk) {Hupd : AppendTo upd}.

Lemma WriteExact_any data o o' r :
  WriteExact upd data o = (o', r) ->
  exists p, p `prefix_of` data /\ dsk o' = upd (file_append p) (dsk o) /\
    through (fun d => exists q, q `prefix_of` data /\ d = upd (file_append q) (dsk o)) o o' /\
    match r with Ret _ => p = data | Throw e => e = std_runtime_error | Blocked => True | Undef => False end.
Proof. apply write_loop_any; done. Qed.

Lemma write_all_any ms o o' r :
  Forall loggable ms -> write_all upd ms o = (o', r) ->
  exists p, p `prefix_of` frames ms /\ dsk o' = upd (file_append p) (dsk o) /\
    through (fun d => exists q, q `prefix_of` frames ms /\ d = upd (file_append q) (dsk o)) o o' /\
    match r with Ret _ => p = frames ms | Throw e => e = std_runtime_error | Blocked => True | Undef => False end.
Proof.
  intros Hl. revert o. induction Hl as [|m ms Hm _ IH]; intros o E.
  { injection E as <- <-. exists []. rewrite upd_nil. split_and!; auto with kv. }
  cbn [write_all] in E. rewrite (lift_bind_Ret _ _ _ (frame m)) in E by (by apply Encode_Ret).
  unfold mbind, M_bind in E. destruct (WriteExact upd (frame m) o) as [o1 r1] eqn:E1.
  apply WriteExact_any in E1 as (p & Hp & Hd & Ht & Hr). rewrite frames_cons.
  assert (through (fun d => exists q, q `prefix_of` frame m ++ frames ms /\ d = upd (file_append q) (dsk o)) o o1) as Ht'.
  { eapply through_weaken; [|exact Ht]. intros d (q & Hq & ->). exists q. split; [by apply prefix_app_r|done]. }
  destruct r1 as [[]|e| |]; try done.
  2,3: injection E as <- <-; exists p; split_and!; [by apply prefix_app_r|done..].
  subst p. destruct (IH o1 E) as (p & Hp' & Hd' & Ht2 & Hr'). exists (frame m ++ p). split_and!.
  - by apply prefix_app.
  - by rewrite Hd', Hd, upd_app.
  - eapply through_trans; [exact Ht'|]. eapply through_weaken; [|exact Ht2]. intros d (q & Hq & ->).
    exists (frame m ++ q). split; [by apply prefix_app|]. by rewrite Hd, upd_app.
  - destruct r; try done. by subst p.
Qed.

Lemma write_all_run ms o :
  Forall loggable ms -> ready (length (frames ms)) (replies o) ->
  exists rs tr, write_all upd ms o = (mkOs rs (upd (file_append (frames ms)) (dsk o)) tr, Ret tt) /\
    Forall reply_ok rs /\ (dones (replies o) <= dones rs + length (frames ms))%nat.
Proof.
  intros Hl. revert o. induction Hl as [|m ms Hm _ IH]; intros o [Hok Hd].
  { exists (replies o), (trace o). rewrite upd_nil. split; [by destruct o|]. split; [done|]. unfold frames. simpl. lia. }
  rewrite frames_cons, length_app in *. cbn [write_all]. rewrite (lift_bind_Ret _ _ _ (frame m)) by (by apply Encode_Ret).
  destruct (write_loop_run upd (replies o) (dsk o) (trace o) (frame m)) as (rs & tr & E & Hok1 & Hd1); [split; [done|lia]|].
  rewrite (M_bind_run _ _ _ _ _ E).
  destruct (IH (mkOs rs (upd (file_append (frame m)) (dsk o)) tr)) as (rs' & tr' & E' & Hok2 & Hd2); [split; [done|simpl; lia]|].
  exists rs', tr'. rewrite E'. simpl in *. rewrite upd_app. split; [done|]. split; [done|lia].
Qed.
End WriteAll.
