(* ===== verification/AofLog.v ===== *)
(** Reading the log back.  [log_records] is the pure meaning of a log file: the mutations it
    holds, and how reading it ends.  [AofLogger::replay] delivers exactly those mutations whatever
    way the kernel splits its reads; encoded batches, legacy records, torn tails and corrupted
    payloads are then facts about [log_records]. *)
From S2P Require Import Prelude KvProtocol Crc32 Disk Aof.

(** * The meaning of a log *)

(** First record's payload and the bytes after it. *)
Definition next_payload (b : bytes) : outcome (bytes * bytes) :=
  if zlen b <? HEADER_SIZE then Throw std_runtime_error
  else if bool_decide (b.[0, 4] = AOF2) then
    let length := be_combine b.[4, 4] in
    if (length <? HEADER_SIZE) || (MAX_FRAME_SIZE <? length) || (zlen b - 12 <? length) then Throw std_runtime_error
    else
      let p := b.[12, Z.to_nat length] in
      if Crc p =? be_combine b.[8, 4] then Ret (p, drop (12 + Z.to_nat length) b) else Throw std_runtime_error
  else
    h ← Message.decodeHeader b;
    _ ← Message.validate h;
    let length := key_len h + value_len h in
    if zlen b - 12 <? length then Throw std_runtime_error
    else Ret (take (12 + Z.to_nat length) b, drop (12 + Z.to_nat length) b).

Definition next_record (b : bytes) : outcome (Mutation * bytes) :=
  r ← next_payload b; m ← parse_payload r.1; Ret (m, r.2).

Fixpoint records_fuel (fuel : nat) (b : bytes) : list Mutation * outcome unit :=
  match b with
  | [] => ([], Ret tt)
  | _ =>
      match fuel with
      | O => ([], Blocked)
      | S fuel =>
          match next_record b with
          | Ret (m, rest) => let '(ms, e) := records_fuel fuel rest in (m :: ms, e)
          | Throw e => ([], Throw e)
          | Undef => ([], Undef)
          | Blocked => ([], Blocked)
          end
      end
  end.
Definition log_records (b : bytes) : list Mutation * outcome unit := records_fuel (length b) b.

(** * Lemmas on the next record *)

Lemma slice_app_long {A} (a b : list A) i n : (i + n <= length a)%nat -> (a ++ b).[i, n] = a.[i, n].
Proof.
  intros. rewrite drop_app_le by lia. rewrite take_app_le; [done|]. rewrite length_drop. lia.
Qed.

Lemma next_payload_app b p rest x : next_payload b = Ret (p, rest) -> next_payload (b ++ x) = Ret (p, rest ++ x).
Proof.
  unfold next_payload. pose proof (zlen_nonneg x). rewrite zlen_app.
  destruct (Z.ltb_spec (zlen b) HEADER_SIZE) as [|Hl]; [done|]. rewrite (proj2 (Z.ltb_ge (zlen b + zlen x) _)) by lia.
  unfold zlen, HEADER_SIZE in Hl. rewrite (slice_app_long b x 0 4), (slice_app_long b x 4 4), (slice_app_long b x 8 4) by lia.
  case_bool_decide.
  - set (n := be_combine b.[4, 4]). destruct (_ || _ || _)%bool eqn:E; [done|]. zify_bools.
    replace (_ || _ || _)%bool with false by (symmetry; lia). unfold HEADER_SIZE, zlen in *.
    rewrite slice_app_long by lia. destruct (_ =? _); [|done]. intros [= <- <-]. by rewrite drop_app_le by lia.
  - destruct (decodeHeader_total b) as (h & Hd & Hok & Hb); [unfold zlen, HEADER_SIZE; lia|].
    rewrite <-(decodeHeader_prefix b (b ++ x)) by (first [by apply prefix_app_r|unfold zlen, HEADER_SIZE; lia]).
    rewrite Hd. cbn. destruct (Message.validate h); try done. cbn.
    destruct Hok as (_ & _ & _ & ? & ?). destruct (Z.ltb_spec (zlen b - 12) (key_len h + value_len h)) as [|Hk]; [done|].
    rewrite (proj2 (Z.ltb_ge (zlen b + zlen x - 12) _)) by lia. unfold zlen in Hk. intros [= <- <-].
    by rewrite take_app_le, drop_app_le by lia.
Qed.

Lemma next_payload_shrinks b p rest : next_payload b = Ret (p, rest) -> (length rest < length b)%nat.
Proof.
  unfold next_payload. destruct (Z.ltb_spec (zlen b) HEADER_SIZE) as [|Hl]; [done|]. unfold zlen, HEADER_SIZE in Hl.
  case_bool_decide.
  - destruct (_ || _ || _)%bool; [done|]. destruct (_ =? _); [|done]. intros [= <- <-]. rewrite length_drop. lia.
  - destruct (Message.decodeHeader b) as [h| | |]; try done. cbn. destruct (Message.validate h); try done. cbn.
    destruct (_ <? _); [done|]. intros [= <- <-]. rewrite length_drop. lia.
Qed.

Lemma next_record_Ret b m rest :
  next_record b = Ret (m, rest) <-> exists p, next_payload b = Ret (p, rest) /\ parse_payload p = Ret m.
Proof.
  unfold next_record. split.
  - intros ([p r] & E & (m' & E' & [= -> ->])%outcome_bind_Ret)%outcome_bind_Ret. eauto.
  - intros (p & -> & E). cbn. by rewrite E.
Qed.

Lemma next_record_app b m rest x : next_record b = Ret (m, rest) -> next_record (b ++ x) = Ret (m, rest ++ x).
Proof. rewrite !next_record_Ret. intros (p & Hp & Hm). exists p. split; [by apply next_payload_app|done]. Qed.

Lemma next_record_shrinks b m rest : next_record b = Ret (m, rest) -> (length rest < length b)%nat.
Proof. intros (p & Hp & _)%next_record_Ret. by eapply next_payload_shrinks. Qed.

(** * Unfolding and composing [log_records] *)

Lemma records_fuel_enough n b : (length b <= n)%nat -> records_fuel n b = log_records b.
Proof.
  unfold log_records. remember (length b) as k eqn:Hk. assert (length b <= k)%nat as Hb by lia. clear Hk.
  revert n b Hb. induction k as [|k IH]; intros n b Hb Hn.
  { destruct b; [by destruct n|simpl in Hb; lia]. }
  destruct b as [|b0 b]; [by destruct n|]. destruct n as [|n]; [lia|]. cbn [records_fuel].
  destruct (next_record (b0 :: b)) as [[m rest]| | |] eqn:E; try done.
  apply next_record_shrinks in E. simpl in E, Hb. by rewrite !(IH _ rest) by lia.
Qed.

Lemma log_records_step b :
  b <> [] ->
  log_records b =
    match next_record b with
    | Ret (m, rest) => (m :: (log_records rest).1, (log_records rest).2)
    | Throw e => ([], Throw e)
    | Undef => ([], Undef)
    | Blocked => ([], Blocked)
    end.
Proof.
  intros Hb. unfold log_records at 1. destruct b as [|b0 b]; [done|]. cbn [records_fuel length].
  destruct (next_record (b0 :: b)) as [[m rest]| | |] eqn:E; try done.
  apply next_record_shrinks in E. simpl in E. rewrite records_fuel_enough by lia. by destruct (log_records rest).
Qed.

Lemma next_record_nonempty b m rest : next_record b = Ret (m, rest) -> b <> [].
Proof. intros E ->. by apply next_record_shrinks in E; simpl in E; lia. Qed.

Lemma log_records_cons b m rest :
  next_record b = Ret (m, rest) -> log_records b = (m :: (log_records rest).1, (log_records rest).2).
Proof. intros E. rewrite log_records_step by (by eapply next_record_nonempty). by rewrite E. Qed.

(** Bytes after a complete log are read as a log of their own. *)
Lemma log_records_app b H x :
  log_records b = (H, Ret tt) -> log_records (b ++ x) = (H ++ (log_records x).1, (log_records x).2).
Proof.
  remember (length b) as n eqn:Hn. revert b H Hn. induction n as [n IH] using lt_wf_ind. intros b H -> Hb.
  destruct (decide (b = [])) as [->|Hne]; [injection Hb as <-; apply surjective_pairing|].
  rewrite log_records_step in Hb by done.
  destruct (next_record b) as [[m rest]| | |] eqn:E; try done. injection Hb as <- Hr.
  rewrite (log_records_cons (b ++ x) m (rest ++ x)) by (by apply next_record_app).
  apply next_record_shrinks in E.
  rewrite (IH (length rest) E rest (log_records rest).1); [done|done|].
  by destruct (log_records rest); simpl in *; subst.
Qed.

(** * Encoded records *)

Lemma length_AOF2 : length AOF2 = 4%nat.
Proof. done. Qed.

Lemma zlen_payload m : zlen (payload m) = HEADER_SIZE + zlen (m_key m) + zlen (m_value m).
Proof. apply zlen_frame. Qed.

Lemma payload_bounds m : loggable m -> HEADER_SIZE <= zlen (payload m) <= MAX_FRAME_SIZE.
Proof.
  intros (_ & _ & ? & ?). rewrite zlen_payload. pose proof (zlen_nonneg (m_key m)). pose proof (zlen_nonneg (m_value m)).
  unfold MAX_FRAME_SIZE. lia.
Qed.

Lemma parse_payload_payload m : loggable m -> parse_payload (payload m) = Ret m.
Proof.
  intros Hl. pose proof (loggable_encodable m Hl) as He. destruct Hl as (Hc & Hd & _).
  unfold parse_payload, payload. rewrite <-(app_nil_r (header_bytes _ ++ _)). rewrite decodeHeader_frame by done. cbn.
  unfold Message.validate. rewrite header_of_valid by done. cbn. rewrite body_key_frame, body_value_frame.
  rewrite app_nil_r, zlen_frame. unfold Message.total. cbn. rewrite Z.eqb_refl. cbn. rewrite command_of_code.
  destruct m as [c k v]. cbn in *. destruct c; try done; try (by destruct Hc as [|[|]]).
  rewrite Hd by done. done.
Qed.

(** A sealed payload, whatever checksum is stored with it. *)
Definition sealed_as (crc : Z) (p : bytes) : bytes := AOF2 ++ be_split 4 (zlen p) ++ be_split 4 crc ++ p.

Lemma length_sealed_as crc p : length (sealed_as crc p) = (12 + length p)%nat.
Proof. unfold sealed_as. rewrite !length_app, !length_be_split. done. Qed.

Lemma sealed_as_fields crc p x :
  (sealed_as crc p ++ x).[0, 4] = AOF2 /\ (sealed_as crc p ++ x).[4, 4] = be_split 4 (zlen p) /\
  (sealed_as crc p ++ x).[8, 4] = be_split 4 crc /\ drop 12 (sealed_as crc p ++ x) = p ++ x.
Proof.
  unfold sealed_as. pose proof (length_be_split 4 (zlen p)) as L1. pose proof (length_be_split 4 crc) as L2.
  destruct (be_split 4 (zlen p)) as [|? [|? [|? [|? []]]]], (be_split 4 crc) as [|? [|? [|? [|? []]]]]; done.
Qed.

Lemma next_payload_sealed crc p x :
  0 <= crc < 2 ^ 32 -> HEADER_SIZE <= zlen p <= MAX_FRAME_SIZE ->
  next_payload (sealed_as crc p ++ x) = if Crc p =? crc then Ret (p, x) else Throw std_runtime_error.
Proof.
  intros Hcrc Hp. pose proof (zlen_nonneg x). destruct (sealed_as_fields crc p x) as (F0 & F4 & F8 & F12).
  unfold next_payload. rewrite F0, F4, F8, bool_decide_true by done.
  assert (zlen (sealed_as crc p ++ x) = 12 + zlen p + zlen x) as ->.
  { rewrite zlen_app. unfold zlen. rewrite length_sealed_as. lia. }
  rewrite !be_combine_split_small by (unfold MAX_FRAME_SIZE, HEADER_SIZE, MAX_KEY_SIZE, MAX_WIRE_VALUE_SIZE, MAX_VALUE_SIZE in *; lia).
  rewrite (proj2 (Z.ltb_ge (12 + _ + _) _)) by (unfold HEADER_SIZE in *; lia).
  rewrite (proj2 (Z.ltb_ge (zlen p) _)), (proj2 (Z.ltb_ge _ (zlen p))), (proj2 (Z.ltb_ge _ (zlen p))) by lia. cbn [orb].
  rewrite <-drop_drop, F12. unfold zlen. rewrite Nat2Z.id, take_app_length, drop_app_length. done.
Qed.

Lemma next_payload_frame m x : loggable m -> next_payload (frame m ++ x) = Ret (payload m, x).
Proof.
  intros Hl. change (frame m) with (sealed_as (Crc (payload m)) (payload m)).
  rewrite next_payload_sealed by (first [apply Crc_u32|by apply payload_bounds]). by rewrite Z.eqb_refl.
Qed.

(** Version-1 logs hold bare frames. *)
Lemma payload_not_AOF2 m x : (payload m ++ x).[0, 4] <> AOF2.
Proof.
  unfold payload, header_bytes. change (magic (header_of (m_command m) (m_key m) (m_value m))) with MAGIC.
  assert (be_split 2 MAGIC = map byte.of_Z [0xca; 0xfe]) as -> by (vm_compute; done). done.
Qed.

Lemma decodeHeader_payload m x :
  loggable m -> Message.decodeHeader (payload m ++ x) = Ret (header_of (m_command m) (m_key m) (m_value m)).
Proof. intros. by apply decodeHeader_frame, loggable_encodable. Qed.

Lemma next_payload_legacy m x : loggable m -> next_payload (payload m ++ x) = Ret (payload m, x).
Proof.
  intros Hl. pose proof (loggable_encodable m Hl) as He. pose proof (zlen_nonneg x).
  unfold next_payload. rewrite bool_decide_false by apply payload_not_AOF2.
  pose proof (zlen_nonneg (m_key m)). pose proof (zlen_nonneg (m_value m)). rewrite zlen_app, zlen_payload.
  rewrite (proj2 (Z.ltb_ge (HEADER_SIZE + _ + _ + _) _)) by lia. rewrite decodeHeader_payload by done. cbn.
  unfold Message.validate. rewrite header_of_valid by done. cbn.
  rewrite (proj2 (Z.ltb_ge _ _)) by (unfold HEADER_SIZE; lia).
  assert (12 + Z.to_nat (zlen (m_key m) + zlen (m_value m)) = length (payload m))%nat as E.
  { pose proof (zlen_payload m) as Z1. unfold zlen, HEADER_SIZE in *. lia. }
  simpl in E. rewrite E, take_app_length, drop_app_length. done.
Qed.

(** A record as either generation of the format stores it. *)
Definition image (legacy : bool) (m : Mutation) : bytes := if legacy then payload m else frame m.

Lemma next_record_image l m x : loggable m -> next_record (image l m ++ x) = Ret (m, x).
Proof.
  intros Hl. apply next_record_Ret. exists (payload m). split; [|by apply parse_payload_payload].
  destruct l; [by apply next_payload_legacy|by apply next_payload_frame].
Qed.

Lemma log_records_image l m x :
  loggable m -> log_records (image l m ++ x) = (m :: (log_records x).1, (log_records x).2).
Proof. intros. by apply log_records_cons, next_record_image. Qed.

Lemma log_records_images ms x :
  Forall (fun r => loggable r.2) ms ->
  log_records (concat ((fun r => image r.1 r.2) <$> ms) ++ x) = (ms.*2 ++ (log_records x).1, (log_records x).2).
Proof.
  induction 1 as [|[l m] ms Hm _ IH]; [apply surjective_pairing|].
  rewrite !fmap_cons. cbn [concat fst snd].
  rewrite <-app_assoc, log_records_image, IH by done. done.
Qed.

Lemma log_records_frames ms x :
  Forall loggable ms -> log_records (frames ms ++ x) = (ms ++ (log_records x).1, (log_records x).2).
Proof.
  intros Hl. pose proof (log_records_images (pair false <$> ms) x) as E. rewrite <-!list_fmap_compose in E.
  unfold compose in E. cbn in E. rewrite list_fmap_id in E. apply E. by apply Forall_fmap.
Qed.

(** * Torn and corrupted records *)

Lemma next_payload_torn l m p :
  loggable m -> p `prefix_of` image l m -> p <> image l m -> next_payload p = Throw std_runtime_error.
Proof.
  intros Hl [k Hk] Hne. unfold next_payload. destruct (Z.ltb_spec (zlen p) HEADER_SIZE) as [|Hs]; [done|].
  assert (zlen p < zlen (image l m)) as Hlt.
  { rewrite Hk, zlen_app. destruct k; [by rewrite app_nil_r in Hk|]. rewrite zlen_cons. pose proof (zlen_nonneg k). lia. }
  assert (12 <= length p)%nat as H12 by (unfold zlen, HEADER_SIZE in Hs; lia).
  rewrite <-(slice_app_long p k 0 4), <-(slice_app_long p k 4 4), <-Hk by lia. destruct l; simpl image in *.
  - pose proof (payload_not_AOF2 m []) as Hx. rewrite app_nil_r in Hx. rewrite bool_decide_false by done.
    rewrite (decodeHeader_prefix p (payload m)) by (done || by exists k).
    pose proof (decodeHeader_payload m [] Hl) as Hd. rewrite app_nil_r in Hd. rewrite Hd. cbn.
    unfold Message.validate. rewrite header_of_valid by (by apply loggable_encodable). cbn.
    rewrite zlen_payload in Hlt. rewrite (proj2 (Z.ltb_lt _ _)) by (unfold HEADER_SIZE in *; lia). done.
  - destruct (sealed_as_fields (Crc (payload m)) (payload m) []) as (F0 & F4 & _). rewrite !app_nil_r in F0, F4.
    change (frame m) with (sealed_as (Crc (payload m)) (payload m)) in *. rewrite F0, F4, bool_decide_true by done.
    pose proof (payload_bounds m Hl) as Hb. unfold zlen in Hlt at 2. rewrite length_sealed_as in Hlt.
    rewrite be_combine_split_small by (unfold MAX_FRAME_SIZE, HEADER_SIZE, MAX_KEY_SIZE, MAX_WIRE_VALUE_SIZE, MAX_VALUE_SIZE in *; lia).
    rewrite (proj2 (Z.ltb_lt (zlen p - 12) _)) by (unfold zlen in *; lia). by rewrite orb_true_r.
Qed.

Lemma next_record_Throw b : next_payload b = Throw std_runtime_error -> next_record b = Throw std_runtime_error.
Proof. unfold next_record. by intros ->. Qed.

Lemma log_records_torn l m p :
  loggable m -> p `prefix_of` image l m -> p <> image l m -> p <> [] -> log_records p = ([], Throw std_runtime_error).
Proof.
  intros Hl Hp Hne Hn. rewrite log_records_step by done. by rewrite (next_record_Throw p) by (by eapply next_payload_torn).
Qed.

(** A prefix of a batch is some of its records followed by nothing or by a torn one. *)
Lemma log_records_prefix ms p :
  Forall loggable ms -> p `prefix_of` frames ms ->
  exists k r, log_records p = (take k ms, r) /\ (r = Ret tt \/ r = Throw std_runtime_error).
Proof.
  intros Hl. revert p. induction Hl as [|m ms Hm Hms IH]; intros p Hp.
  { apply prefix_nil_inv in Hp as ->. exists 0%nat, (Ret tt). by auto. }
  change (frames (m :: ms)) with (frame m ++ frames ms) in Hp.
  destruct (decide (frame m `prefix_of` p)) as [[q ->]|Hn].
  - apply prefix_app_inv in Hp. destruct (IH q Hp) as (k & r & E & Hr). exists (S k), r. split; [|done].
    pose proof (log_records_image false m q Hm) as E'. simpl image in E'. by rewrite E', E.
  - destruct (decide (p = [])) as [->|Hne]; [exists 0%nat, (Ret tt); by auto|].
    exists 0%nat, (Throw std_runtime_error). rewrite take_0. split; [|by right].
    apply (log_records_torn false m); [done| |by intros ->|done].
    by destruct (prefix_weak_total p (frame m) (frame m ++ frames ms) Hp ltac:(by apply prefix_app_r)).
Qed.

Lemma log_records_bad_crc crc p x :
  0 <= crc < 2 ^ 32 -> HEADER_SIZE <= zlen p <= MAX_FRAME_SIZE -> Crc p <> crc ->
  log_records (sealed_as crc p ++ x) = ([], Throw std_runtime_error).
Proof.
  intros Hc Hp Hne. rewrite log_records_step by done. rewrite (next_record_Throw (sealed_as crc p ++ x)); [done|].
  rewrite next_payload_sealed by done. by rewrite (proj2 (Z.eqb_neq _ _)) by done.
Qed.

(** * Replay delivers the records of the log *)

(** What is left to read, and that the kernel will serve it. *)
Definition unread (o : os) : bytes := drop (pos (dsk o)) (content (linked (dsk o))).
Definition served (o : os) : Prop := ready (length (unread o)) (replies o).

Lemma ReadExact_run n o :
  served o -> (n <= length (unread o))%nat ->
  exists o', ReadExact n o = (o', Ret (take n (unread o))) /\ unread o' = drop n (unread o) /\ served o'.
Proof.
  intros [Hok Hd] Hn. unfold ReadExact.
  destruct (read_loop_run (replies o) (dsk o) (trace o) n []) as (rs' & E & Hok' & Hd'); [split; [done|lia]|done|].
  fold (unread o) in E. exists (mkOs rs' (seek (pos (dsk o) + n) (dsk o)) (trace o)).
  assert (unread (mkOs rs' (seek (pos (dsk o) + n) (dsk o)) (trace o)) = drop n (unread o)) as Hu.
  { unfold unread. simpl. by rewrite drop_drop. }
  split; [done|]. split; [done|]. split; [done|]. rewrite Hu, length_drop. simpl. lia.
Qed.

Lemma zlen_drop {A} n (l : list A) : (n <= length l)%nat -> zlen (drop n l) = zlen l - Z.of_nat n.
Proof. intros. unfold zlen. rewrite length_drop. lia. Qed.

Lemma read_payload_run o :
  served o ->
  match next_payload (unread o) with
  | Ret (p, rest) => exists o', read_payload (zlen (unread o)) o = (o', Ret (zlen rest, p)) /\ unread o' = rest /\ served o'
  | Throw e => exists o', read_payload (zlen (unread o)) o = (o', Throw e)
  | _ => False
  end.
Proof.
  intros Ho. unfold next_payload, read_payload. destruct (Z.ltb_spec (zlen (unread o)) HEADER_SIZE) as [|Hl]; [by eexists|].
  unfold zlen, HEADER_SIZE in Hl. destruct (ReadExact_run 12 o Ho) as (o1 & E1 & Hu1 & Ho1); [lia|].
  rewrite (M_bind_run _ _ _ _ _ E1). set (b := unread o) in *. set (h12 := take 12 b).
  assert (length h12 = 12)%nat as L12 by (unfold h12; rewrite length_take; lia).
  assert (b = h12 ++ drop 12 b) as Eb by (by unfold h12; rewrite take_drop).
  assert (forall i n, (i + n <= 12)%nat -> h12.[i, n] = b.[i, n]) as Hsl.
  { intros i n Hin. rewrite Eb at 1. by rewrite slice_app_long by lia. }
  rewrite !Hsl by lia. cbv zeta. case_bool_decide.
  - set (n := be_combine b.[4, 4]). destruct (_ || _ || _)%bool eqn:Eg; [by eexists|]. zify_bools. unfold HEADER_SIZE in *.
    assert (Z.to_nat n <= length (unread o1))%nat as Hn by (rewrite Hu1, length_drop; unfold zlen in *; lia).
    destruct (ReadExact_run (Z.to_nat n) o1 Ho1 Hn) as (o2 & E2 & Hu2 & Ho2).
    rewrite Hu1 in E2, Hu2. rewrite (M_bind_run _ _ _ _ _ E2). destruct (_ =? _); [|by eexists].
    exists o2. rewrite <-drop_drop. split; [|done].
    rewrite !zlen_drop by (rewrite ?length_drop; unfold zlen in *; lia).
    unfold mret, M_ret. do 3 f_equal. lia.
  - assert (Message.decodeHeader b = Message.decodeHeader h12) as Hd.
    { symmetry. apply decodeHeader_prefix; [by exists (drop 12 b)|]. unfold zlen. by rewrite L12. }
    rewrite Hd. destruct (decodeHeader_total h12) as (h & Hh & Hok & _); [unfold zlen; by rewrite L12|]. rewrite Hh.
    destruct Hok as (_ & _ & _ & Hk & Hv). rewrite (lift_bind_Ret (Ret h) _ _ h), bind_Ret by done.
    unfold Message.validate. destruct (Message.valid h) eqn:Ev; [rewrite bind_Ret|eexists; by apply lift_bind_Throw].
    rewrite (lift_bind_Ret (Ret tt) _ _ tt) by done.
    set (n := key_len h + value_len h). destruct (Z.ltb_spec (zlen b - 12) n) as [|Hn]; [by eexists|].
    assert (Z.to_nat n <= length (unread o1))%nat as Hn' by (rewrite Hu1, length_drop; unfold zlen in *; lia).
    destruct (ReadExact_run (Z.to_nat n) o1 Ho1 Hn') as (o2 & E2 & Hu2 & Ho2).
    rewrite Hu1 in E2, Hu2. rewrite (M_bind_run _ _ _ _ _ E2).
    exists o2. rewrite <-drop_drop. split; [|done].
    rewrite !zlen_drop by (rewrite ?length_drop; unfold zlen in *; lia).
    unfold mret, M_ret, h12. rewrite take_take_drop. do 3 f_equal. lia.
Qed.

Section Play.
Context {St : Type} (callback : Mutation -> M St unit).

(** The callback on each mutation in turn, stopping at the first exception. *)
Fixpoint run_all (ms : list Mutation) : M St unit :=
  match ms with
  | [] => mret tt
  | m :: ms => _ ← callback m; run_all ms
  end.

Definition play (b : bytes) : M St unit := _ ← run_all (log_records b).1; lift (log_records b).2.

Lemma play_nil s : play [] s = (s, Ret tt).
Proof. done. Qed.

Lemma play_cons b m rest s :
  next_record b = Ret (m, rest) -> play b s = mbind (M := M St) (fun _ => play rest) (callback m) s.
Proof.
  intros E. unfold play. rewrite (log_records_cons _ _ _ E). cbn [fst snd run_all]. unfold mbind, M_bind.
  by destruct (callback m s) as [s' [|e| |]].
Qed.

Lemma play_Throw b e s : b <> [] -> next_record b = Throw e -> play b s = (s, Throw e).
Proof. intros Hb E. unfold play. by rewrite log_records_step, E. Qed.

Lemma next_payload_defined b :
  match next_payload b with Ret (p, _) => 12 <= zlen p | Throw _ => True | _ => False end.
Proof.
  unfold next_payload. destruct (Z.ltb_spec (zlen b) HEADER_SIZE) as [|Hb]; [done|]. case_bool_decide.
  - destruct (_ || _ || _)%bool eqn:Eg; [done|]. zify_bools. unfold HEADER_SIZE, zlen in *.
    destruct (_ =? _); [|done]. rewrite length_take, length_drop. lia.
  - destruct (decodeHeader_total b) as (h & -> & _); [done|]. rewrite bind_Ret. unfold Message.validate.
    destruct (Message.valid h); [|done]. rewrite bind_Ret. destruct (_ <? _); [done|].
    unfold HEADER_SIZE, zlen in *. rewrite length_take. lia.
Qed.

Lemma next_record_defined b : next_record b <> Undef /\ next_record b <> Blocked.
Proof.
  unfold next_record. pose proof (next_payload_defined b) as Hp.
  destruct (next_payload b) as [[p rest]| | |]; try done. rewrite bind_Ret. cbn [fst snd]. unfold parse_payload.
  destruct (decodeHeader_total p Hp) as (h & -> & _). cbn. unfold Message.validate.
  destruct (Message.valid h); [|done]. cbn. by destruct (_ || _)%bool.
Qed.

Lemma replay_loop_run fuel o s :
  served o -> (length (unread o) <= fuel)%nat ->
  exists o', replay_loop callback fuel (zlen (unread o)) (o, s) = ((o', (play (unread o) s).1), (play (unread o) s).2).
Proof.
  revert o s. induction fuel as [|fuel IH]; intros o s Ho Hf.
  { destruct (unread o); [|simpl in Hf; lia]. by exists o. }
  cbn [replay_loop]. destruct (Z.eqb_spec (zlen (unread o)) 0) as [Hz|Hz].
  { destruct (unread o); [by exists o|]. rewrite zlen_cons in Hz. pose proof (zlen_nonneg l). lia. }
  assert (unread o <> []) as Hne by (by intros E; rewrite E in Hz).
  pose proof (read_payload_run o Ho) as Hr. pose proof (next_record_defined (unread o)) as [Hu Hb].
  pose proof (fun e => play_Throw (unread o) e s Hne) as Ht. unfold next_record in *.
  destruct (next_payload (unread o)) as [[p rest]|e| |] eqn:Ep; try done.
  - destruct Hr as (o1 & E1 & <- & Ho1). rewrite bind_Ret in *. cbn [fst snd] in *.
    assert (on_fst (St := St) (read_payload (zlen (unread o))) (o, s) = ((o1, s), Ret (zlen (unread o1), p))) as E2.
    { unfold on_fst. cbn [fst snd]. by rewrite E1. }
    rewrite (M_bind_run _ _ _ _ _ E2). cbn [fst snd].
    destruct (parse_payload p) as [m|e| |] eqn:Em; try done.
    + rewrite (lift_bind_Ret (Ret m) _ _ m) by done.
      rewrite (play_cons _ m (unread o1)) by (apply next_record_Ret; eauto). unfold mbind at 1, M_bind, on_snd. cbn [fst snd].
      unfold mbind, M_bind. destruct (callback m s) as [s1 [[]|e| |]]; try by exists o1.
      apply IH; [done|]. apply next_payload_shrinks in Ep. lia.
    + rewrite (Ht e) by done. by exists o1.
  - destruct Hr as (o1 & E1). rewrite (Ht e) by done. exists o1. unfold mbind, M_bind, on_fst. cbn [fst snd]. by rewrite E1.
Qed.
End Play.

(** * Replay on any kernel: what it returns is what the file says *)

Lemma ReadExact_sound n o o' b :
  ReadExact n o = (o', Ret b) ->
  b = take n (unread o) /\ unread o' = drop n (unread o) /\ (n <= length (unread o))%nat /\
  linked (dsk o') = linked (dsk o) /\ shadows (dsk o') = shadows (dsk o) /\ trace o' = trace o.
Proof.
  intros (Hl & -> & Hd & Ht)%read_loop_sound. unfold unread. rewrite Hd. cbn. rewrite drop_drop. by split_and!.
Qed.

Lemma read_payload_sound o o' n p :
  read_payload (zlen (unread o)) o = (o', Ret (n, p)) ->
  next_payload (unread o) = Ret (p, unread o') /\ n = zlen (unread o') /\
  linked (dsk o') = linked (dsk o) /\ shadows (dsk o') = shadows (dsk o) /\ trace o' = trace o.
Proof.
  unfold read_payload, next_payload. destruct (Z.ltb_spec (zlen (unread o)) HEADER_SIZE) as [|Hl]; [done|].
  intros (o1 & h12 & E1 & E)%M_bind_Ret. apply ReadExact_sound in E1 as (-> & Hu1 & H12 & Hlk1 & Hsh1 & Ht1).
  set (b := unread o) in *. assert (length (take 12 b) = 12)%nat as L12 by (rewrite length_take; lia).
  assert (forall i n, (i + n <= 12)%nat -> (take 12 b).[i, n] = b.[i, n]) as Hsl.
  { intros i m Hin. rewrite <-(take_drop 12 b) at 2. by rewrite slice_app_long by lia. }
  rewrite !Hsl in E by lia. cbv zeta in E. case_bool_decide.
  - destruct (_ || _ || _)%bool eqn:Eg; [done|]. zify_bools. unfold HEADER_SIZE in *.
    apply M_bind_Ret in E as (o2 & p' & E2 & E). apply ReadExact_sound in E2 as (-> & Hu2 & Hn2 & Hlk2 & Hsh2 & Ht2).
    rewrite Hu1 in *. destruct (_ =? _); [|done]. injection E as <- <- <-. rewrite Hu2, drop_drop.
    split_and!; [done| |congruence..]. unfold zlen in *. rewrite length_drop. rewrite length_drop in Hn2. lia.
  - apply M_bind_Ret in E as (o2 & h & [= -> Hh] & E). apply M_bind_Ret in E as (o3 & u & [= -> Hv] & E).
    rewrite <-(decodeHeader_prefix (take 12 b) b) by (first [by exists (drop 12 b); rewrite take_drop|unfold zlen, HEADER_SIZE; lia]).
    rewrite Hh, bind_Ret, Hv, bind_Ret. destruct (Z.ltb_spec (zlen b - 12) (key_len h + value_len h)) as [|Hn]; [done|].
    apply M_bind_Ret in E as (o4 & body & E2 & [= -> <- <-]). apply ReadExact_sound in E2 as (-> & Hu2 & Hn2 & Hlk2 & Hsh2 & Ht2).
    rewrite Hu1 in *. rewrite Hu2, drop_drop, take_take_drop. split_and!; [done| |congruence..].
    unfold zlen in *. rewrite length_drop. rewrite length_drop in Hn2.
    destruct (decodeHeader_total (take 12 b)) as (h' & Hh' & (_ & _ & _ & ? & ?) & _); [unfold zlen, HEADER_SIZE; lia|].
    rewrite Hh in Hh'. injection Hh' as <-. lia.
Qed.

Lemma replay_loop_sound {St} (callback : Mutation -> M St unit) fuel o s o' s' :
  replay_loop callback fuel (zlen (unread o)) (o, s) = ((o', s'), Ret tt) ->
  play callback (unread o) s = (s', Ret tt) /\ linked (dsk o') = linked (dsk o) /\ shadows (dsk o') = shadows (dsk o) /\ trace o' = trace o.
Proof.
  revert o s. induction fuel as [|fuel IH]; intros o s E; cbn [replay_loop] in E.
  { destruct (Z.eqb_spec (zlen (unread o)) 0) as [Hz|]; [|done]. injection E as <- <-.
    destruct (unread o); [done|]. rewrite zlen_cons in Hz. pose proof (zlen_nonneg l). lia. }
  destruct (Z.eqb_spec (zlen (unread o)) 0) as [Hz|Hz].
  { injection E as <- <-. destruct (unread o); [done|]. rewrite zlen_cons in Hz. pose proof (zlen_nonneg l). lia. }
  apply M_bind_Ret in E as (os1 & [n p] & E1 & E). unfold on_fst in E1. cbn [fst snd] in E1.
  destruct (read_payload (zlen (unread o)) o) as [o2 r2] eqn:E2. injection E1 as <- ->.
  apply read_payload_sound in E2 as (Hp & -> & Hlk & Hsh & Ht). cbn [fst snd] in E.
  apply M_bind_Ret in E as (x & m & [= <- Hm] & E). apply M_bind_Ret in E as (os3 & u & E3 & E). unfold on_snd in E3. cbn [fst snd] in E3.
  destruct (callback m s) as [t r] eqn:Ecb. injection E3 as <- ->. destruct u.
  destruct (IH o2 t E) as (Hplay & Hlk' & Hsh' & Ht'). split_and!; [|congruence..].
  rewrite (play_cons _ _ m (unread o2)) by (apply next_record_Ret; eauto). unfold mbind, M_bind. by rewrite Ecb.
Qed.

Lemma replay_sound {St} (callback : Mutation -> M St unit) l o s o' s' :
  bytes_ l = zlen (content (linked (dsk o))) -> replay callback l (o, s) = ((o', s'), Ret tt) ->
  play callback (content (linked (dsk o))) s = (s', Ret tt) /\
  linked (dsk o') = linked (dsk o) /\ shadows (dsk o') = shadows (dsk o) /\ trace o' = trace o.
Proof.
  intros Hb E. unfold replay in E. destruct (started_ l); [done|]. apply M_bind_Ret in E as (os1 & z & E1 & E).
  unfold on_fst in E1. cbn [fst snd] in E1. destruct (must std_runtime_error o) as [o2 r2] eqn:Em. injection E1 as <- ->.
  apply must_any in Em as (Hd & Ht & _). apply M_bind_Ret in E as (os3 & u & E3 & E). injection E3 as <- _.
  set (o3 := mkOs (replies o2) (seek 0 (dsk o2)) (trace o2)) in *.
  assert (unread o3 = content (linked (dsk o))) as Hu by (unfold unread; cbn; by rewrite Hd, drop_0).
  rewrite Hb, <-Hu in E. apply replay_loop_sound in E as (Hp & Hlk & Hsh & Htr). rewrite <-Hu. split; [done|].
  cbn in Hlk, Hsh, Htr. rewrite Hd in *. by rewrite Htr, Ht.
Qed.

(** * Properties of replay *)

(** [b] is how the log stores [m]: what [Encode] writes now, or the bare frame of a version-1 log. *)
Definition stored (m : Mutation) (b : bytes) : Prop :=
  Encode m = Ret b \/ (loggable m /\ Message.encode (m_command m) (m_key m) (m_value m) = Ret b).

Lemma stored_image m b : stored m b -> loggable m /\ exists l, b = image l m.
Proof.
  intros [[Hl ->]%Encode_Ret_inv|[Hl [_ ->]%encode_Ret_inv]]; (split; [done|]); [by exists false|by exists true].
Qed.

Lemma log_records_stored ms bs x :
  Forall2 stored ms bs -> log_records (concat bs ++ x) = (ms ++ (log_records x).1, (log_records x).2).
Proof.
  induction 1 as [|m b ms bs Hm _ IH]; [apply surjective_pairing|].
  apply stored_image in Hm as [Hl [l ->]]. cbn [concat]. by rewrite <-app_assoc, log_records_image, IH.
Qed.

(** A logger that has just opened its file, on a kernel that will serve the whole of it. *)
Definition opened (l : AofLogger) (o : os) (b : bytes) : Prop :=
  started_ l = false /\ content (linked (dsk o)) = b /\ bytes_ l = zlen b /\
  exists rs, replies o = Done 0 :: rs /\ ready (length b) rs.

Section ReplayProperties.
Context {St : Type} (callback : Mutation -> M St unit).

Lemma replay_run l o b s :
  opened l o b -> exists o', replay callback l (o, s) = ((o', (play callback b s).1), (play callback b s).2).
Proof.
  intros (Hs & Hc & Hb & rs & Hrs & Hr). unfold replay. rewrite Hs.
  set (o1 := mkOs rs (seek 0 (dsk o)) (trace o)). assert (unread o1 = b) as Hu by (by unfold unread; simpl; rewrite Hc).
  rewrite (M_bind_run _ _ _ (mkOs rs (dsk o) (trace o), s) 0) by
    (unfold on_fst, must, syscall, mbind, M_bind; cbn [fst snd]; by rewrite Hrs).
  rewrite (M_bind_run _ _ _ (o1, s) tt) by done. rewrite Hb, <-Hu. apply replay_loop_run.
  - unfold served. by rewrite Hu.
  - unfold zlen. lia.
Qed.

(** C26. Replay is faithful to the file: however the kernel splits or interrupts its reads,
    [AofLogger::replay] calls the callback on exactly the records [log_records] finds in the
    file, in order, and ends as [log_records] ends. *)
Theorem replay_delivers_log l o b s :
  opened l o b ->
  exists o', replay callback l (o, s) =
    let '(s', r) := (_ ← run_all callback (log_records b).1; lift (log_records b).2) s in ((o', s'), r).
Proof. intros H. destruct (replay_run l o b s H) as [o' ->]. exists o'. fold (play callback b). by destruct (play callback b s). Qed.

(** Round trip with a crash at the end: a file that holds stored records of either
    generation replays exactly those mutations; if a torn record follows them, replay delivers
    them all and then reports the truncation. *)
Lemma replay_roundtrip l o s ms bs m torn tail :
  Forall2 stored ms bs -> stored m torn -> tail `prefix_of` torn -> tail <> torn ->
  opened l o (concat bs ++ tail) ->
  exists o', replay callback l (o, s) =
    let '(s', r) :=
      (_ ← run_all callback ms; lift (if decide (tail = []) then Ret tt else Throw std_runtime_error)) s in
    ((o', s'), r).
Proof.
  intros Hms [Hl [g ->]]%stored_image Hp Hne Ho. destruct (replay_run l o _ s Ho) as [o' ->]. exists o'.
  unfold play. rewrite (log_records_stored ms bs) by done. case_decide as Ht.
  - subst tail. change (log_records []) with (@nil Mutation, @Ret unit tt). cbn [fst snd]. rewrite app_nil_r. by case_match.
  - rewrite (log_records_torn g m) by done. cbn [fst snd]. rewrite app_nil_r. by case_match.
Qed.

(** C27. Corruption is never replayed: if up to four consecutive bytes of a record's payload
    are altered, replay delivers the records before it, rejects it, and delivers nothing after. *)
Theorem replay_rejects_corruption l o s ms bs m a w w' c rest :
  Forall2 stored ms bs -> loggable m -> Message.encode (m_command m) (m_key m) (m_value m) = Ret (a ++ w ++ c) ->
  length w = length w' -> (length w <= 4)%nat -> w <> w' ->
  opened l o (concat bs ++ (AOF2 ++ be_split 4 (zlen (a ++ w ++ c)) ++ be_split 4 (Crc (a ++ w ++ c)) ++ a ++ w' ++ c) ++ rest) ->
  exists o', replay callback l (o, s) =
    let '(s', r) := (_ ← run_all callback ms; throw std_runtime_error) s in ((o', s'), r).
Proof.
  intros Hms Hl [_ Hpay]%encode_Ret_inv Hlen H4 Hne Ho. change (_ = _) with (a ++ w ++ c = payload m) in Hpay.
  destruct (replay_run l o _ s Ho) as [o' ->]. exists o'. unfold play. rewrite (log_records_stored ms bs) by done.
  assert (zlen (a ++ w ++ c) = zlen (a ++ w' ++ c)) as Hz by (unfold zlen; rewrite !length_app; lia).
  rewrite Hz. change (AOF2 ++ _) with (sealed_as (Crc (a ++ w ++ c)) (a ++ w' ++ c)).
  rewrite log_records_bad_crc.
  - cbn [fst snd]. rewrite app_nil_r. unfold throw, lift. by case_match.
  - apply Crc_u32.
  - rewrite <-Hz, Hpay. by apply payload_bounds.
  - by apply not_eq_sym, Crc_detects_burst.
Qed.
End ReplayProperties.

(** ** Witnesses *)

(** A callback that collects what it is given, and a kernel that answers in small pieces. *)
Definition collect (m : Mutation) : M (list Mutation) unit := fun s => (s ++ [m], Ret tt).
Definition stutter : list reply := Done 5 :: Eintr :: Done 1 :: replicate 200 (Done 7).
Definition booted (b : bytes) : os := mkOs (Done 0 :: stutter) (mkDisk (mkFile b []) [] None 0) [].
Definition unstarted (b : bytes) : AofLogger := mkAofLogger (zlen b) 0 (2 ^ 20) false false (mkAofStats 0 0 0 0 0).

Lemma stutter_ready n : (n <= 202)%nat -> ready n stutter.
Proof.
  intros. split; [repeat constructor; by apply Forall_replicate|].
  replace (dones stutter) with 202%nat by (vm_compute; reflexivity). done.
Qed.

Lemma booted_opened b : (length b <= 202)%nat -> opened (unstarted b) (booted b) b.
Proof. intros. split_and!; [done|apply app_nil_r|done|]. exists stutter. split; [done|by apply stutter_ready]. Qed.

Definition sample_set : Mutation := mkMutation SET (str "k") (str "v").
Definition sample_del : Mutation := mkMutation DEL (str "k") [].
Definition sample_set_bytes : bytes := Eval vm_compute in match Encode sample_set with Ret b => b | _ => [] end.
Definition sample_del_v1 : bytes := Eval vm_compute in match Message.encode DEL (str "k") [] with Ret b => b | _ => [] end.

Lemma replay_delivers_log_witness :
  exists o', replay collect (unstarted (sample_set_bytes ++ str "junk")) (booted (sample_set_bytes ++ str "junk"), []) =
    ((o', [sample_set]), Throw std_runtime_error).
Proof.
  destruct (replay_delivers_log collect (unstarted (sample_set_bytes ++ str "junk")) (booted (sample_set_bytes ++ str "junk"))
    (sample_set_bytes ++ str "junk") []) as [o' E].
  - apply booted_opened. vm_compute. lia.
  - exists o'. rewrite E. vm_compute. reflexivity.
Defined.

Lemma replay_rejects_corruption_witness :
  let b := concat [sample_set_bytes] ++ (take 25 sample_set_bytes ++ str "w") ++ sample_set_bytes in
  exists o', replay collect (unstarted b) (booted b, []) = ((o', [sample_set]), Throw std_runtime_error).
Proof.
  intros b. destruct (replay_rejects_corruption collect (unstarted b) (booted b) [] [sample_set] [sample_set_bytes] sample_set
    (take 13 (drop 12 sample_set_bytes)) (str "v") (str "w") [] sample_set_bytes) as [o' E].
  - apply Forall2_cons. split; [left; vm_compute; reflexivity|constructor].
  - split_and!; [by left|done|done|done].
  - vm_compute. reflexivity.
  - reflexivity.
  - simpl. lia.
  - discriminate.
  - assert (b = concat [sample_set_bytes] ++ (AOF2 ++ be_split 4 (zlen (take 13 (drop 12 sample_set_bytes) ++ str "v" ++ [])) ++
      be_split 4 (Crc (take 13 (drop 12 sample_set_bytes) ++ str "v" ++ [])) ++ take 13 (drop 12 sample_set_bytes) ++ str "w" ++ [])
      ++ sample_set_bytes) as <- by (vm_compute; reflexivity).
    apply booted_opened. vm_compute. lia.
  - exists o'. rewrite E. vm_compute. reflexivity.
Defined.
