(* ===== verification/AofDurability.v ===== *)
(** Durability of [AofLogger::logBatch] and [AofLogger::rewrite] for every answer of the kernel
    and a crash at every point: what a batch or a compaction leaves in the file, in the logger and
    in the crash images of every intermediate disk state. *)
From S2P Require Import Prelude KvProtocol Crc32 Disk Aof AofLog.

(** * Running the two writers *)

Lemma on_os_run {A} (m : M os A) a : on_os m a = (mkAof (log_ a) (m (os_ a)).1, (m (os_ a)).2).
Proof. unfold on_os. by destruct (m (os_ a)). Qed.

(** The logger after a batch of [size] bytes. *)
Definition logged (elapsed : Z) (ms : list Mutation) (l : AofLogger) : AofLogger :=
  let b := bytes_ l + zlen (frames ms) in
  mkAofLogger b (rewritten_at_ l) (max_bytes_ l) (failed_ l) (started_ l)
    (mkAofStats (u64 (records (stats_ l) + zlen ms)) (u64 (syncs (stats_ l) + 1)) b (rewrites (stats_ l))
                (u64 (sync_us (stats_ l) + elapsed))).

(** What the size arithmetic of the logger relies on. *)
Definition sane (l : AofLogger) : Prop := 0 <= rewritten_at_ l <= bytes_ l /\ bytes_ l <= max_bytes_ l < 2 ^ 64.

Definition appended (ms : list Mutation) (D : disk) (d : disk) : Prop :=
  (exists q, q `prefix_of` frames ms /\ d = on_linked (file_append q) D) \/
  d = on_linked file_sync (on_linked (file_append (frames ms)) D).

Lemma logBatch_cases elapsed ms a a' r :
  ms <> [] -> Forall loggable ms -> sane (log_ a) -> started_ (log_ a) = true -> failed_ (log_ a) = false ->
  bytes_ (log_ a) + zlen (frames ms) <= max_bytes_ (log_ a) ->
  logBatch elapsed ms a = (a', r) ->
  let D := dsk (os_ a) in
  through (appended ms D) (os_ a) (os_ a') /\
  match r with
  | Ret _ => dsk (os_ a') = on_linked file_sync (on_linked (file_append (frames ms)) D) /\ log_ a' = logged elapsed ms (log_ a)
  | Throw e => e = std_runtime_error /\ log_ a' = set_failed (log_ a) /\
               exists p, p `prefix_of` frames ms /\ dsk (os_ a') = on_linked (file_append p) D
  | Blocked => log_ a' = log_ a /\ exists p, p `prefix_of` frames ms /\ dsk (os_ a') = on_linked (file_append p) D
  | Undef => False
  end.
Proof.
  intros Hne Hl [Hrw Hmax] Hs Hf Hfit E D. pose proof (zlen_nonneg (frames ms)).
  unfold logBatch in E. rewrite bool_decide_false in E by done. unfold get_state in E.
  rewrite (M_bind_run _ _ _ a a) in E by done. rewrite Hs, Hf in E. cbn [negb orb] in E.
  rewrite (lift_bind_Ret _ _ _ _ (Size_Ret ms Hl)) in E.
  rewrite !u64_small, (proj2 (Z.ltb_ge _ _)) in E by lia.
  unfold mbind, M_bind, try_catch in E. rewrite on_os_run in E.
  destruct (write_all on_linked ms (os_ a)) as [o1 r1] eqn:E1. cbn [fst snd] in E.
  apply (write_all_any on_linked) in E1 as (p & Hp & Hd & Ht & Hr); [|done].
  assert (through (appended ms D) (os_ a) o1) as Ht1 by (eapply through_weaken; [intros d Hq; left; exact Hq|exact Ht]).
  destruct r1 as [[]|e| |]; [|by injection E as <- <-; split; [|eauto]|done|by injection E as <- <-; split; [|eauto]].
  subst p. rewrite on_os_run in E. cbn [os_] in E. destruct (Sync (on_linked file_sync) o1) as [o2 r2] eqn:E2. cbn [fst snd] in E.
  apply sync_loop_any in E2. rewrite Hd in E2. fold D in E2.
  destruct r2 as [[]|e| |]; cbn in E; injection E as <- <-; cbn [os_ log_].
  - destruct E2 as [-> Htr]. split; [|split; [done|]].
    + eapply through_trans; [exact Ht1|]. eapply through_one; [exact Htr|by right].
    + unfold logged. by rewrite u64_small by lia.
  - destruct E2 as (-> & Hd2 & Htr). split; [eapply through_trans; [exact Ht1|by apply through_same]|eauto].
  - done.
  - destruct E2 as (Hd2 & Htr). split; [eapply through_trans; [exact Ht1|by apply through_same]|eauto].
Qed.

Lemma logBatch_run elapsed ms a :
  ms <> [] -> Forall loggable ms -> sane (log_ a) -> started_ (log_ a) = true -> failed_ (log_ a) = false ->
  bytes_ (log_ a) + zlen (frames ms) <= max_bytes_ (log_ a) ->
  ready (length (frames ms) + 1) (replies (os_ a)) ->
  exists a', logBatch elapsed ms a = (a', Ret tt) /\ Forall reply_ok (replies (os_ a')) /\
    (dones (replies (os_ a)) <= dones (replies (os_ a')) + length (frames ms) + 1)%nat.
Proof.
  intros Hne Hl [Hrw Hmax] Hs Hf Hfit [Hok Hn]. pose proof (zlen_nonneg (frames ms)).
  unfold logBatch. rewrite bool_decide_false by done. unfold get_state.
  rewrite (M_bind_run _ _ _ a a) by done. rewrite Hs, Hf. cbn [negb orb].
  rewrite (lift_bind_Ret _ _ _ _ (Size_Ret ms Hl)).
  rewrite !u64_small, (proj2 (Z.ltb_ge _ _)) by lia.
  destruct (write_all_run on_linked ms (os_ a)) as (rs & tr & E1 & Hok1 & Hn1); [done|split; [done|lia]|].
  destruct (sync_loop_run (on_linked file_sync) rs (on_linked (file_append (frames ms)) (dsk (os_ a))) tr) as (rs' & E2 & Hok2 & Hn2);
    [split; [done|lia]|].
  unfold mbind, M_bind, try_catch. rewrite on_os_run, E1. cbn [fst snd os_]. rewrite on_os_run. unfold Sync. cbn [os_ replies dsk trace].
  rewrite E2. cbn. eexists. split; [done|]. cbn [os_ replies]. split; [done|lia].
Qed.

(** The logger after a compaction to [ms]. *)
Definition rewritten (ms : list Mutation) (l : AofLogger) : AofLogger :=
  let size := zlen (frames ms) in
  mkAofLogger size size (max_bytes_ l) (failed_ l) (started_ l)
    (mkAofStats (records (stats_ l)) (syncs (stats_ l)) size (u64 (rewrites (stats_ l) + 1)) (sync_us (stats_ l))).

(** Disk states of a compaction: before the rename the log is untouched, after it the log is the
    new file, synced, with the old one possibly still named by the on-disk directory. *)
Definition unpublished (D : disk) (d : disk) : Prop := linked d = linked D /\ shadows d = shadows D.
Definition published (ms : list Mutation) (D : disk) (d : disk) : Prop :=
  linked d = mkFile (frames ms) [] /\ (shadows d = linked D :: shadows D \/ shadows d = []).

Lemma must_zero_any e o o' r :
  must_zero e o = (o', r) ->
  dsk o' = dsk o /\ trace o' = trace o /\ match r with Ret _ | Blocked => True | Throw e' => e' = e | Undef => False end.
Proof.
  unfold must_zero, mbind, M_bind. destruct (must e o) as [o1 r1] eqn:E1. apply must_any in E1 as (Hd & Ht & Hr).
  destruct r1 as [z|e1| |]; [destruct (z =? 0)| | |]; by intros [= <- <-].
Qed.

Lemma write_replacement_any ms o o' r :
  Forall loggable ms -> temp (dsk o) = Some empty_file -> write_replacement ms o = (o', r) ->
  let D := dsk o in
  through (fun d => unpublished D d \/ published ms D d) o o' /\
  match r with
  | Ret _ => linked (dsk o') = mkFile (frames ms) [] /\ shadows (dsk o') = linked D :: shadows D /\ temp (dsk o') = None
  | Throw e => e = std_runtime_error /\ unpublished D (dsk o')
  | Blocked => unpublished D (dsk o')
  | Undef => False
  end.
Proof.
  intros Hl Ht0 E D. unfold write_replacement, mbind, M_bind in E.
  destruct (must_zero std_runtime_error o) as [o1 r1] eqn:E1. apply must_zero_any in E1 as (Hd1 & Ht1 & Hr1).
  assert (through (fun d => unpublished D d \/ published ms D d) o o1) as T1 by auto with kv.
  destruct r1 as [[]|e| |]; [|injection E as <- <-; rewrite ?Hd1; by split..].
  destruct (write_all on_temp ms o1) as [o2 r2] eqn:E2.
  apply (write_all_any on_temp) in E2 as (p & Hp & Hd2 & T2 & Hr2); [|done]. rewrite Hd1 in Hd2, T2. fold D in Hd2, T2.
  assert (through (fun d => unpublished D d \/ published ms D d) o o2) as T12.
  { eapply through_trans; [exact T1|]. eapply through_weaken; [|exact T2]. intros d (q & _ & ->). by left. }
  destruct r2 as [[]|e| |]; [|injection E as <- <-; rewrite ?Hd2; by split..].
  subst p. destruct (Sync (on_temp file_sync) o2) as [o3 r3] eqn:E3. apply sync_loop_any in E3. rewrite Hd2 in E3.
  destruct r3 as [[]|e| |]; [|injection E as <- <-; try (destruct E3 as (? & Hd3 & Ht3) || destruct E3 as (Hd3 & Ht3)); rewrite ?Hd3;
    by split; [eapply through_trans; [exact T12|by apply through_same]|]..].
  destruct E3 as [Hd3 Ht3].
  assert (through (fun d => unpublished D d \/ published ms D d) o o3) as T3.
  { eapply through_trans; [exact T12|]. eapply through_one; [exact Ht3|by left]. }
  destruct (must_zero std_runtime_error o3) as [o4 r4] eqn:E4. apply must_zero_any in E4 as (Hd4 & Ht4 & Hr4).
  rewrite Hd3 in Hd4. assert (through (fun d => unpublished D d \/ published ms D d) o o4) as T4.
  { eapply through_trans; [exact T3|by apply through_same]. }
  destruct r4 as [[]|e| |]; [|injection E as <- <-; rewrite ?Hd4; by split..].
  injection E as <- <-. cbn [dsk trace]. unfold effect in *. cbn [dsk].
  assert (rename_temp (dsk o4) = mkDisk (mkFile (frames ms) []) (linked D :: shadows D) None (length (frames ms))) as ->.
  { rewrite Hd4. unfold rename_temp, on_temp. cbn. fold D in Ht0. rewrite Ht0. cbn. unfold file_sync, file_append, content. cbn.
    by rewrite app_nil_r. }
  split; [|done]. eapply through_trans; [exact T4|]. eapply through_one; [done|]. right. split; [done|by left].
Qed.

Lemma SyncDirectory_any o o' r :
  SyncDirectory o = (o', r) ->
  match r with
  | Ret _ => dsk o' = sync_dir (dsk o) /\ trace o' = sync_dir (dsk o) :: trace o
  | Throw e => e = std_runtime_error /\ dsk o' = dsk o /\ trace o' = trace o
  | Blocked => dsk o' = dsk o /\ trace o' = trace o
  | Undef => False
  end.
Proof.
  unfold SyncDirectory, mbind, M_bind. destruct (must std_runtime_error o) as [o1 r1] eqn:E1.
  apply must_any in E1 as (Hd & Ht & Hr). destruct r1 as [z|e| |]; [|by intros [= <- <-]..].
  intros E. apply sync_loop_any in E. by rewrite Hd, Ht in E.
Qed.

Lemma rewrite_cases ms a a' r :
  Forall loggable ms -> sane (log_ a) -> failed_ (log_ a) = false -> zlen (frames ms) <= max_bytes_ (log_ a) ->
  rewrite ms a = (a', r) ->
  let D := dsk (os_ a) in
  through (fun d => unpublished D d \/ published ms D d) (os_ a) (os_ a') /\
  match r with
  | Ret _ => published ms D (dsk (os_ a')) /\ shadows (dsk (os_ a')) = [] /\ temp (dsk (os_ a')) = None /\ log_ a' = rewritten ms (log_ a)
  | Throw e => e = std_runtime_error /\
      ((unpublished D (dsk (os_ a')) /\ (temp (dsk (os_ a')) = None \/ dsk (os_ a') = D) /\ log_ a' = log_ a) \/
       (published ms D (dsk (os_ a')) /\ log_ a' = set_failed (rewritten ms (log_ a))))
  | Blocked => (unpublished D (dsk (os_ a')) /\ log_ a' = log_ a) \/ (published ms D (dsk (os_ a')) /\ log_ a' = rewritten ms (log_ a))
  | Undef => False
  end.
Proof.
  intros Hl [Hrw Hmax] Hf Hfit E D. pose proof (zlen_nonneg (frames ms)).
  unfold rewrite in E. unfold get_state in E. rewrite (M_bind_run _ _ _ a a) in E by done. rewrite Hf in E.
  rewrite (lift_bind_Ret _ _ _ _ (Size_Ret ms Hl)) in E. rewrite !u64_small, (proj2 (Z.ltb_ge _ _)) in E by lia.
  unfold mbind at 1, M_bind at 1 in E. rewrite on_os_run in E.
  destruct (must std_runtime_error (os_ a)) as [o1 r1] eqn:E1. cbn [fst snd] in E. apply must_any in E1 as (Hd1 & Ht1 & Hr1).
  destruct r1 as [r1|e| |]; [|injection E as <- <-; cbn [os_ log_]; rewrite ?Hd1..].
  2: { subst e. split; [by apply through_same|]. split; [done|]. left. split; [done|]. split; [by right|done]. }
  2: done.
  2: { split; [by apply through_same|by left]. }
  unfold mbind at 1, M_bind at 1 in E. rewrite on_os_run in E. cbn [fst snd os_ log_ effect] in E. rewrite Hd1 in E. fold D in E.
  set (o2 := mkOs (replies o1) (create_temp D) (create_temp D :: trace o1)) in E.
  assert (through (fun d => unpublished D d \/ published ms D d) (os_ a) o2) as T2.
  { eapply (through_one _ _ _ (create_temp D)); [by unfold o2; cbn; rewrite Ht1|by left]. }
  unfold mbind at 1, M_bind at 1, try_catch at 1 in E. rewrite on_os_run in E. cbn [os_ log_] in E.
  destruct (write_replacement ms o2) as [o3 r3] eqn:E3. cbn [fst snd] in E.
  apply write_replacement_any in E3 as [T3 H3]; [|done..].
  assert (through (fun d => unpublished D d \/ published ms D d) (os_ a) o3) as T23 by (eapply through_trans; [exact T2|exact T3]).
  destruct r3 as [[]|e| |]; [| |done|injection E as <- <-; cbn; split; [done|by left]].
  2: { destruct H3 as [-> [Hu Hs]]. injection E as <- <-. cbn. split; [|split; [done|left; split; [done|split; [by left|done]]]].
       eapply through_trans; [exact T23|]. by eapply through_one; [|left]. }
  destruct H3 as (Hlk & Hsh & Htm). cbn [dsk o2 linked shadows create_temp] in Hsh.
  unfold try_catch, on_log, mbind, M_bind in E. cbn [os_ log_] in E. rewrite on_os_run in E. cbn [os_ log_] in E.
  destruct (SyncDirectory o3) as [o4 r4] eqn:E4. apply SyncDirectory_any in E4. cbn [fst snd] in E.
  destruct r4 as [[]|e| |]; [| |done|]; cbn in E; injection E as <- <-; cbn [os_ log_].
  - destruct E4 as [-> Ht4]. split; [|split; [split; [done|by right]|by split_and!]].
    eapply through_trans; [exact T23|]. eapply through_one; [exact Ht4|]. right. by split; [|right].
  - destruct E4 as (-> & Hd4 & Ht4). split; [eapply through_trans; [exact T23|by apply through_same]|].
    rewrite Hd4. split; [done|]. right. by split; [split; [|left]|].
  - destruct E4 as (Hd4 & Ht4). split; [eapply through_trans; [exact T23|by apply through_same]|].
    rewrite Hd4. right. by split; [split; [|left]|].
Qed.

(** * Opening *)

Lemma open_log_Ret max regular o o' l :
  open_log max regular o = (o', Ret l) ->
  let size := zlen (content (linked (dsk o))) in
  l = mkAofLogger size 0 max false false (mkAofStats 0 0 size 0 0) /\ size <= max /\ regular = true /\
  linked (dsk o') = linked (dsk o) /\ shadows (dsk o') = [].
Proof.
  intros E size. unfold open_log in E.
  apply M_bind_Ret in E as (o1 & z1 & [D1 _]%must_any & E). apply M_bind_Ret in E as (o2 & z2 & [D2 _]%must_any & E).
  apply M_bind_Ret in E as (o3 & z3 & [D3 _]%must_any & E). apply M_bind_Ret in E as (o4 & z4 & [D4 _]%must_any & E).
  apply M_bind_Ret in E as (o5 & z5 & [D5 _]%must_any & E). apply M_bind_Ret in E as (o6 & x & [= <- <-] & E).
  rewrite D5, D4, D3, D2, D1 in E. fold size in E. destruct (_ || _ || _)%bool eqn:Eg; [done|]. zify_bools.
  apply M_bind_Ret in E as (o7 & u & E7 & [= -> <-]). apply SyncDirectory_any in E7 as [-> _].
  rewrite D5, D4, D3, D2, D1. by split_and!.
Qed.

(** * Durable logs *)

(** The logger is healthy, everything in its file is durable, its counters describe the file, and
    the file replays to the history [H]. *)
Definition Durable (H : list Mutation) (a : aof) : Prop :=
  failed_ (log_ a) = false /\ sane (log_ a) /\
  bytes_ (log_ a) = zlen (synced (linked (dsk (os_ a)))) /\ unsynced (linked (dsk (os_ a))) = [] /\ shadows (dsk (os_ a)) = [] /\
  log_records (synced (linked (dsk (os_ a)))) = (H, Ret tt).

(** What a crash in state [d] may leave behind satisfies [P]. *)
Definition survives (P : list Mutation * outcome unit -> Prop) (d : disk) : Prop := forall c, crash_content d c -> P (log_records c).

Lemma survives_clean d b H :
  linked d = mkFile b [] -> shadows d = [] -> log_records b = (H, Ret tt) -> survives (eq (H, Ret tt)) d.
Proof.
  intros Hl Hs Hr c [p Hp|f p Hf _]; [|by rewrite Hs in Hf; apply not_elem_of_nil in Hf].
  rewrite Hl in *. apply prefix_nil_inv in Hp as ->. simpl. by rewrite app_nil_r.
Qed.

Lemma clean_file f : unsynced f = [] -> f = mkFile (synced f) [].
Proof. destruct f. simpl. by intros ->. Qed.

Lemma crash_clean f p : unsynced f = [] -> p `prefix_of` unsynced f -> synced f ++ p = synced f.
Proof. intros -> ->%prefix_nil_inv. apply app_nil_r. Qed.

Lemma logged_file f b : unsynced f = [] -> file_sync (file_append b f) = mkFile (synced f ++ b) [].
Proof. intros E. unfold file_sync, content, file_append. simpl. by rewrite E. Qed.

Lemma frames_read ms : Forall loggable ms -> log_records (frames ms) = (ms, Ret tt).
Proof.
  intros Hl. pose proof (log_records_frames ms [] Hl) as E. rewrite app_nil_r in E. rewrite E.
  change (log_records []) with (@nil Mutation, @Ret unit tt). simpl. by rewrite app_nil_r.
Qed.

Lemma history_app b H ms :
  log_records b = (H, Ret tt) -> Forall loggable ms -> log_records (b ++ frames ms) = (H ++ ms, Ret tt).
Proof. intros Hb Hl. rewrite (log_records_app b H) by done. by rewrite frames_read. Qed.

(** A batch in progress: the history and some of the batch. *)
Definition partial (H ms : list Mutation) (x : list Mutation * outcome unit) : Prop :=
  exists k, x.1 = H ++ take k ms /\ (x.2 = Ret tt \/ x.2 = Throw std_runtime_error).

Lemma appended_survives H a ms d :
  Durable H a -> Forall loggable ms -> appended ms (dsk (os_ a)) d -> survives (partial H ms) d.
Proof.
  intros (_ & _ & _ & Hu & Hs & Hr) Hl [(q & Hq & ->)| ->] c Hc.
  - destruct Hc as [p Hp|f p Hf _]; [|simpl in Hf; by rewrite Hs in Hf; apply not_elem_of_nil in Hf].
    simpl in *. rewrite Hu in Hp. simpl in Hp.
    destruct (log_records_prefix ms p) as (k & r & E & Hr'); [done|by etrans|].
    exists k. rewrite (log_records_app _ H) by done. rewrite E. done.
  - assert (survives (eq (H ++ ms, Ret tt)) (on_linked file_sync (on_linked (file_append (frames ms)) (dsk (os_ a))))) as Hsv.
    { eapply survives_clean; [by apply logged_file|done|by apply history_app]. }
    exists (length ms). rewrite <-(Hsv c Hc). rewrite take_ge by done. by auto.
Qed.

Lemma logBatch_nil elapsed a : logBatch elapsed [] a = (a, Ret tt).
Proof. done. Qed.

(** Every refusal comes before the first byte is written. *)
Lemma logBatch_refused elapsed ms a a' r :
  logBatch elapsed ms a = (a', r) -> ms <> [] ->
  sane (log_ a) -> zlen (frames ms) < 2 ^ 64 ->
  (started_ (log_ a) = false \/ failed_ (log_ a) = true -> a' = a /\ r = Throw std_runtime_error) /\
  (started_ (log_ a) = true -> failed_ (log_ a) = false -> ~ Forall loggable ms ->
     a' = a /\ (r = Throw std_invalid_argument \/ r = Throw std_length_error)) /\
  (started_ (log_ a) = true -> failed_ (log_ a) = false -> Forall loggable ms ->
     max_bytes_ (log_ a) < bytes_ (log_ a) + zlen (frames ms) -> a' = a /\ r = Throw AofCapacityError).
Proof.
  intros E Hne [Hrw Hmax] Hz. pose proof (zlen_nonneg (frames ms)). unfold logBatch in E. rewrite bool_decide_false in E by done.
  unfold get_state in E. rewrite (M_bind_run _ _ _ a a) in E by done. split_and!.
  - intros [Hs|Hf]; [rewrite Hs in E|rewrite Hf, orb_true_r in E]; by injection E as <- <-.
  - intros Hs Hf Hl. rewrite Hs, Hf in E. cbn [negb orb] in E.
    destruct (Size_error ms Hl) as [Hsz|Hsz]; rewrite (lift_bind_Throw _ _ _ _ Hsz) in E; injection E as <- <-; auto.
  - intros Hs Hf Hl Hbig. rewrite Hs, Hf in E. cbn [negb orb] in E. rewrite (lift_bind_Ret _ _ _ _ (Size_Ret ms Hl)) in E.
    rewrite !u64_small, (proj2 (Z.ltb_lt _ _)) in E by lia. by injection E as <- <-.
Qed.

Lemma logBatch_spec elapsed H ms a a' r :
  Durable H a -> started_ (log_ a) = true -> zlen (frames ms) < 2 ^ 64 -> logBatch elapsed ms a = (a', r) ->
  match r with
  | Ret _ => Durable (H ++ ms) a' /\ started_ (log_ a') = true /\ max_bytes_ (log_ a') = max_bytes_ (log_ a) /\
             bytes_ (log_ a') = bytes_ (log_ a) + zlen (frames ms) /\ Forall loggable ms
  | Throw e =>
      (a' = a /\ ~ Forall loggable ms /\ (e = std_invalid_argument \/ e = std_length_error)) \/
      (a' = a /\ e = AofCapacityError /\ max_bytes_ (log_ a) < bytes_ (log_ a) + zlen (frames ms)) \/
      (e = std_runtime_error /\ failed_ (log_ a') = true)
  | Blocked => True
  | Undef => False
  end.
Proof.
  intros HD Hs Hz E. pose proof HD as (Hf & Hsane & Hb & Hu & Hsh & Hr).
  destruct (decide (ms = [])) as [->|Hne].
  { rewrite logBatch_nil in E. injection E as <- <-. rewrite app_nil_r. change (zlen (frames [])) with 0.
    split; [done|]. split_and!; [done|done|lia|by constructor]. }
  destruct (logBatch_refused _ _ _ _ _ E Hne Hsane Hz) as (_ & Href & Hcap).
  destruct (decide (Forall loggable ms)) as [Hl|Hl].
  2: { destruct (Href Hs Hf Hl) as [-> [-> | ->]]; left; auto. }
  destruct (Z.lt_ge_cases (max_bytes_ (log_ a)) (bytes_ (log_ a) + zlen (frames ms))) as [Hbig|Hfit].
  { destruct (Hcap Hs Hf Hl Hbig) as [-> ->]. by right; left. }
  apply logBatch_cases in E as [_ Hc]; [|done..]. destruct r as [[]|e| |]; [|by destruct Hc as (-> & -> & _); right; right|done..].
  destruct Hc as [Hd Hlg]. pose proof (zlen_nonneg (frames ms)). destruct Hsane as [? ?].
  unfold Durable, sane. rewrite Hlg, Hd. split; [|by split_and!].
  cbn [logged failed_ rewritten_at_ bytes_ max_bytes_ on_linked linked shadows]. rewrite !logged_file by done. cbn [synced unsynced].
  split_and!; [done|lia..|by rewrite zlen_app, Hb|done|done|by apply history_app].
Qed.

Lemma logBatch_survives elapsed H ms a a' r :
  Durable H a -> started_ (log_ a) = true -> zlen (frames ms) < 2 ^ 64 -> logBatch elapsed ms a = (a', r) ->
  through (survives (partial H ms)) (os_ a) (os_ a').
Proof.
  intros HD Hs Hz E. pose proof HD as (Hf & Hsane & _).
  destruct (decide (ms = [])) as [->|Hne]; [injection E as <- <-; apply through_refl|].
  destruct (logBatch_refused _ _ _ _ _ E Hne Hsane Hz) as (_ & Href & Hcap).
  destruct (decide (Forall loggable ms)) as [Hl|Hl]; [|destruct (Href Hs Hf Hl) as [-> _]; apply through_refl].
  destruct (Z.lt_ge_cases (max_bytes_ (log_ a)) (bytes_ (log_ a) + zlen (frames ms))) as [Hbig|Hfit].
  { destruct (Hcap Hs Hf Hl Hbig) as [-> _]. apply through_refl. }
  apply logBatch_cases in E as [Ht _]; [|done..]. eapply through_weaken; [|exact Ht]. intros d Hd. by eapply appended_survives.
Qed.

Lemma rewrite_refused ms a a' r :
  rewrite ms a = (a', r) -> sane (log_ a) -> zlen (frames ms) < 2 ^ 64 ->
  (failed_ (log_ a) = true -> a' = a /\ r = Throw std_runtime_error) /\
  (failed_ (log_ a) = false -> ~ Forall loggable ms -> a' = a /\ (r = Throw std_invalid_argument \/ r = Throw std_length_error)) /\
  (failed_ (log_ a) = false -> Forall loggable ms -> max_bytes_ (log_ a) < zlen (frames ms) -> a' = a /\ r = Throw AofCapacityError).
Proof.
  intros E [Hrw Hmax] Hz. pose proof (zlen_nonneg (frames ms)). unfold rewrite, get_state in E.
  rewrite (M_bind_run _ _ _ a a) in E by done. split_and!.
  - intros Hf. rewrite Hf in E. by injection E as <- <-.
  - intros Hf Hl. rewrite Hf in E.
    destruct (Size_error ms Hl) as [Hsz|Hsz]; rewrite (lift_bind_Throw _ _ _ _ Hsz) in E; injection E as <- <-; auto.
  - intros Hf Hl Hbig. rewrite Hf in E. rewrite (lift_bind_Ret _ _ _ _ (Size_Ret ms Hl)) in E.
    rewrite !u64_small, (proj2 (Z.ltb_lt _ _)) in E by lia. by injection E as <- <-.
Qed.

Lemma rewrite_spec H ms a a' r :
  Durable H a -> zlen (frames ms) < 2 ^ 64 -> rewrite ms a = (a', r) ->
  match r with
  | Ret _ => Durable ms a' /\ log_ a' = rewritten ms (log_ a) /\ Forall loggable ms
  | Throw e =>
      (a' = a /\ ~ Forall loggable ms /\ (e = std_invalid_argument \/ e = std_length_error)) \/
      (a' = a /\ e = AofCapacityError /\ max_bytes_ (log_ a) < zlen (frames ms)) \/
      (e = std_runtime_error /\ Durable H a' /\ log_ a' = log_ a) \/
      (e = std_runtime_error /\ failed_ (log_ a') = true)
  | Blocked => True
  | Undef => False
  end.
Proof.
  intros HD Hz E. pose proof HD as (Hf & Hsane & Hb & Hu & Hsh & Hr).
  destruct (rewrite_refused _ _ _ _ E Hsane Hz) as (_ & Href & Hcap).
  destruct (decide (Forall loggable ms)) as [Hl|Hl].
  2: { destruct (Href Hf Hl) as [-> [-> | ->]]; left; auto. }
  destruct (Z.lt_ge_cases (max_bytes_ (log_ a)) (zlen (frames ms))) as [Hbig|Hfit].
  { destruct (Hcap Hf Hl Hbig) as [-> ->]. by right; left. }
  apply rewrite_cases in E as [_ Hc]; [|done..]. pose proof (zlen_nonneg (frames ms)). destruct r as [[]|e| |]; try done.
  - destruct Hc as ([Hlk _] & Hs' & _ & Hlg). split; [|done]. unfold Durable, sane. rewrite Hlg, Hlk, Hs'. destruct Hsane.
    split_and!; cbn; try done; try lia. by apply frames_read.
  - destruct Hc as [-> [([Hlk Hs'] & _ & Hlg)|[_ Hlg]]]; [right; right; left|by right; right; right; rewrite Hlg].
    split; [done|]. split; [|done]. unfold Durable. rewrite Hlg, Hlk, Hs'. done.
Qed.

(** Compaction is atomic: a crash finds the old history or the new one, whole. *)
Lemma rewrite_survives H ms a a' r :
  Durable H a -> zlen (frames ms) < 2 ^ 64 -> rewrite ms a = (a', r) ->
  through (survives (fun x => x = (H, Ret tt) \/ x = (ms, Ret tt))) (os_ a) (os_ a').
Proof.
  intros HD Hz E. pose proof HD as (Hf & Hsane & Hb & Hu & Hsh & Hr).
  destruct (rewrite_refused _ _ _ _ E Hsane Hz) as (_ & Href & Hcap).
  destruct (decide (Forall loggable ms)) as [Hl|Hl]; [|destruct (Href Hf Hl) as [-> _]; apply through_refl].
  destruct (Z.lt_ge_cases (max_bytes_ (log_ a)) (zlen (frames ms))) as [Hbig|Hfit].
  { destruct (Hcap Hf Hl Hbig) as [-> _]. apply through_refl. }
  apply rewrite_cases in E as [Ht _]; [|done..]. eapply through_weaken; [|exact Ht].
  intros d [[Hlk Hs']|[Hlk Hs']] c [p Hp|f p Hin Hp].
  - rewrite Hlk in *. left. by rewrite crash_clean.
  - rewrite Hs', Hsh in Hin. by apply not_elem_of_nil in Hin.
  - rewrite Hlk in *. right. rewrite crash_clean by done. by apply frames_read.
  - destruct Hs' as [Hs'|Hs']; rewrite Hs' in Hin; [|by apply not_elem_of_nil in Hin].
    rewrite Hsh in Hin. apply list_elem_of_singleton in Hin as ->. left. by rewrite crash_clean.
Qed.

(** * Properties *)

(** [logBatch] on a healthy log, for every behaviour of the kernel: on return the batch
    is durable after the history and the counters agree with the file; an invalid mutation or
    a full log is refused with the logger and the disk untouched; an I/O failure disables the
    logger.  A valid batch that fits is accepted whenever the kernel keeps making progress. *)
Lemma logBatch_durable elapsed H ms a a' r :
  Durable H a -> started_ (log_ a) = true -> zlen (frames ms) < 2 ^ 64 -> logBatch elapsed ms a = (a', r) ->
  match r with
  | Ret _ => Durable (H ++ ms) a' /\ Forall loggable ms /\ bytes_ (log_ a') = bytes_ (log_ a) + zlen (frames ms)
  | Throw e =>
      (a' = a /\ ~ Forall loggable ms /\ (e = std_invalid_argument \/ e = std_length_error)) \/
      (a' = a /\ e = AofCapacityError /\ max_bytes_ (log_ a) < bytes_ (log_ a) + zlen (frames ms)) \/
      (e = std_runtime_error /\ failed_ (log_ a') = true)
  | Blocked => True
  | Undef => False
  end /\
  (Forall loggable ms -> bytes_ (log_ a) + zlen (frames ms) <= max_bytes_ (log_ a) ->
   ready (length (frames ms) + 1) (replies (os_ a)) -> r = Ret tt).
Proof.
  intros HD Hs Hz E. split.
  - pose proof (logBatch_spec _ _ _ _ _ _ HD Hs Hz E) as Hsp. destruct r; try done. by destruct Hsp as (? & ? & ? & ? & ?).
  - intros Hl Hfit Hk. destruct (decide (ms = [])) as [->|Hne]; [by injection E as _ <-|].
    destruct (logBatch_run elapsed ms a) as (a1 & E1 & _); try done; [apply HD..|]. rewrite E1 in E. by injection E.
Qed.

(** C11. Crash safety of [logBatch]: whatever the kernel answers and wherever the machine stops,
    the file replays to the whole history followed by some leading part of the batch (ending
    cleanly or in a torn record that replay rejects); once [logBatch] has returned, to the
    history and the whole batch. *)
Theorem logBatch_crash_safe elapsed H ms a a' r :
  Durable H a -> started_ (log_ a) = true -> zlen (frames ms) < 2 ^ 64 -> logBatch elapsed ms a = (a', r) ->
  (forall d c, d ∈ trace (os_ a') -> d ∈ trace (os_ a) \/ (crash_content d c ->
     exists k, (log_records c).1 = H ++ take k ms /\
       ((log_records c).2 = Ret tt \/ (log_records c).2 = Throw std_runtime_error))) /\
  (r = Ret tt -> forall c, crash_content (dsk (os_ a')) c -> log_records c = (H ++ ms, Ret tt)).
Proof.
  intros HD Hs Hz E. split.
  - intros d c Hd. destruct (logBatch_survives _ _ _ _ _ _ HD Hs Hz E d Hd) as [|Hsv]; [by left|right; apply Hsv].
  - intros -> c Hc. destruct (logBatch_spec _ _ _ _ _ _ HD Hs Hz E) as [(_ & _ & _ & Hu & Hsh & Hr) _].
    symmetry. by eapply survives_clean; [apply clean_file|..].
Qed.

(** Compaction: on return the log is exactly the snapshot, durable, with the byte
    counters equal to its size; a refusal changes nothing; an I/O failure before the rename
    leaves the old log in use and healthy, one after it disables the logger. *)
Lemma rewrite_durable H ms a a' r :
  Durable H a -> zlen (frames ms) < 2 ^ 64 -> rewrite ms a = (a', r) ->
  match r with
  | Ret _ => Durable ms a' /\ bytes_ (log_ a') = zlen (frames ms) /\ rewritten_at_ (log_ a') = zlen (frames ms)
  | Throw e =>
      (a' = a /\ ~ Forall loggable ms /\ (e = std_invalid_argument \/ e = std_length_error)) \/
      (a' = a /\ e = AofCapacityError /\ max_bytes_ (log_ a) < zlen (frames ms)) \/
      (e = std_runtime_error /\ Durable H a') \/
      (e = std_runtime_error /\ failed_ (log_ a') = true)
  | Blocked => True
  | Undef => False
  end.
Proof.
  intros HD Hz E. pose proof (rewrite_spec _ _ _ _ _ HD Hz E) as Hs. destruct r as [[]|e| |]; try done.
  - destruct Hs as (HD' & -> & _). by split_and!.
  - destruct Hs as [?|[?|[(? & ? & _)|?]]]; auto.
Qed.

(** C15. Compaction is atomic under crashes: at every disk state it goes through, a crash
    leaves a file that replays either to the whole old history or to the whole snapshot. *)
Theorem rewrite_crash_atomic H ms a a' r d c :
  Durable H a -> zlen (frames ms) < 2 ^ 64 -> rewrite ms a = (a', r) ->
  d ∈ trace (os_ a') -> d ∉ trace (os_ a) -> crash_content d c ->
  log_records c = (H, Ret tt) \/ log_records c = (ms, Ret tt).
Proof. intros HD Hz E Hd Hn Hc. destruct (rewrite_survives _ _ _ _ _ HD Hz E d Hd) as [|Hs]; [done|by apply Hs]. Qed.

(** ** Witnesses *)

Definition running (rs : list reply) : aof :=
  mkAof (mkAofLogger (zlen sample_set_bytes) 0 (2 ^ 20) false true (mkAofStats 1 1 (zlen sample_set_bytes) 0 0))
        (mkOs rs (mkDisk (mkFile sample_set_bytes []) [] None 0) []).

Lemma running_Durable rs : Durable [sample_set] (running rs).
Proof. unfold Durable, sane. split_and!; vm_compute; done. Qed.


(** The disk fills up after ten bytes: the torn record is rejected on replay. *)
Lemma logBatch_crash_safe_witness :
  log_records (sample_set_bytes ++ take 10 sample_set_bytes) = ([sample_set], Throw std_runtime_error) /\
  forall d c, d ∈ trace (os_ (logBatch 0 [sample_set] (running [Done 10; Failed])).1) ->
    crash_content d c -> exists k, (log_records c).1 = [sample_set] ++ take k [sample_set].
Proof.
  split; [vm_compute; reflexivity|]. intros d c Hd Hc.
  assert (E : logBatch 0 [sample_set] (running [Done 10; Failed]) =
    ((logBatch 0 [sample_set] (running [Done 10; Failed])).1, Throw std_runtime_error)).
  { apply outcome_of. vm_compute. reflexivity. }
  assert (Hz : zlen (frames [sample_set]) < 2 ^ 64) by (vm_compute; reflexivity).
  destruct (proj1 (logBatch_crash_safe 0 [sample_set] [sample_set] (running [Done 10; Failed]) _ _ (running_Durable _) eq_refl Hz E) d c Hd) as [Hin|Hx]; [exfalso; exact (not_elem_of_nil d Hin)|].
  destruct (Hx Hc) as (k & Hk & _). exists k. exact Hk.
Defined.

Definition compacting : list reply := Done 0 :: Done 0 :: replicate 9 (Done 3) ++ [Done 0; Done 0; Done 3; Eintr; Done 0].

(** The directory sync fails: both files are possible after a crash. *)
Lemma rewrite_crash_atomic_witness :
  crash_content (dsk (os_ (rewrite [sample_del] (running (Done 0 :: Done 0 :: replicate 25 (Done 1) ++ [Done 0; Done 0; Failed]))).1)) sample_set_bytes /\
  (log_records sample_set_bytes = ([sample_set], Ret tt) \/ log_records sample_set_bytes = ([sample_del], Ret tt)).
Proof.
  set (rs := Done 0 :: Done 0 :: replicate 25 (Done 1) ++ [Done 0; Done 0; Failed]).
  assert (crash_content (dsk (os_ (rewrite [sample_del] (running rs)).1)) sample_set_bytes) as Hc.
  { rewrite <-(app_nil_r sample_set_bytes). apply (crash_shadow _ (mkFile sample_set_bytes []) []); [|apply prefix_nil].
    vm_compute. by left. }
  split; [exact Hc|].
  apply (rewrite_crash_atomic [sample_set] [sample_del] (running rs) (rewrite [sample_del] (running rs)).1
    (Throw std_runtime_error) (dsk (os_ (rewrite [sample_del] (running rs)).1)) sample_set_bytes (running_Durable rs)).
  - vm_compute. reflexivity.
  - apply outcome_of. vm_compute. reflexivity.
  - vm_compute. by left.
  - apply not_elem_of_nil.
  - exact Hc.
Defined.
