(* ===== verification/CacheService.v ===== *)
(** [kvcache::CacheService] (KVCache/include/cache_service.h): the request pipeline that joins
    the wire protocol, the sharded cache and the append-only file.  A batch is parsed, its
    mutations are logged and synced, and only then applied and answered. *)
From stdpp Require Import pretty.
From S2P Require Import Prelude KvProtocol TcpServer LruCache ShardedCache Disk Aof AofLog AofDurability.

(** [kvrpc::wire::CacheValue] of proto/rpc.proto.  [unknown] are the fields the parser did not
    recognise, which the runtime keeps and serializes again. *)
Record CacheValue := mkCacheValue {
  cv_found : bool;
  cv_value : bytes;
  cv_expires_unix_ms : Z;
  cv_ttl_ms : Z;
  cv_unknown : bytes
}.

(** The generated protobuf codec, a parameter of everything below. *)
Class CacheValueCodec := {
  ParseFromString : bytes -> option CacheValue;
  SerializeAsString : CacheValue -> bytes
}.

Record Request := mkRequest { q_command : Command; q_key : bytes; q_value : bytes; q_expires : Z }.

Definition default_request : Request := mkRequest GET [] [] 0.
Definition default_reply : Reply := mkReply 0 [] false.

(** Which exceptions [catch (const std::runtime_error&)] stops. *)
Definition is_runtime_error (e : exn) : bool :=
  match e with
  | std_runtime_error | std_system_error | AofCapacityError | KvError _ | RemoteError _ _ => true
  | _ => false
  end.

(** What a call observes of its environment: the clock when input [i] is parsed, when request [i]
    is applied and when the snapshot visits a node; which nodes of request [i] can be
    allocated; how long the fsync takes. *)
Record env := mkEnv {
  now_parse : nat -> Z;
  now_apply : nat -> Z;
  now_snap : nat -> nat -> Z;
  allocation : nat -> LruCache.memory;
  sync_time : Z
}.

Section CacheService.
Context {layout : Layout} {hashB : Hash bytes} {codec : CacheValueCodec}.

Abbreviation cache := (@ShardedCache.sharded bytes bytes _ _).

(** [metrics_] maps the moment of the call to the text it returns. *)
Record service := mkService {
  cache_ : cache;
  aof_ : aof;
  failed_ : bool;
  metrics_ : option (nat -> bytes)
}.

Definition on_cache {A} (m : M cache A) : M service A := fun s =>
  let '(c, r) := m (cache_ s) in (mkService c (aof_ s) (failed_ s) (metrics_ s), r).
Definition on_aof {A} (m : M aof A) : M service A := fun s =>
  let '(a, r) := m (aof_ s) in (mkService (cache_ s) a (failed_ s) (metrics_ s), r).
Definition set_failed : M service unit := fun s => (mkService (cache_ s) (aof_ s) true (metrics_ s), Ret tt).

(** ** Constructor *)

(** The callback given to [AofLogger::replay]; [clock i] is the time when record [i] is applied. *)
Definition replay_record (clock : nat -> Z) (mem : nat -> LruCache.memory) (m : Mutation) : M (cache * nat) unit := fun '(c, i) =>
  let on {A} (x : M cache A) : (cache * nat) * outcome unit := let '(c', r) := x c in ((c', S i), _ ← r; Ret tt) in
  match m_command m with
  | SET => on (ShardedCache.put (clock i) (mem i) (m_key m) (m_value m) 0)
  | SET_TTL =>
      match ParseFromString (m_value m) with
      | Some item =>
          if cv_expires_unix_ms item =? 0 then ((c, i), Throw std_runtime_error)
          else on (ShardedCache.put (clock i) (mem i) (m_key m) (cv_value item) (cv_expires_unix_ms item))
      | None => ((c, i), Throw std_runtime_error)
      end
  | _ => on (ShardedCache.remove (m_key m))
  end.

(** [aof_.replay(...)] followed by [aof_.start()]. *)
Definition recover (clock : nat -> Z) (mem : nat -> LruCache.memory) (c : cache) (l : AofLogger) : M os service := fun o =>
  match replay (replay_record clock mem) l (o, (c, O)) with
  | ((o', (c', _)), Ret _) => (o', Ret (mkService c' (start (mkAof l o')).1 false None))
  | ((o', _), Throw e) => (o', Throw e)
  | ((o', _), Undef) => (o', Undef)
  | ((o', _), Blocked) => (o', Blocked)
  end.

Definition construct (clock : nat -> Z) (mem : nat -> LruCache.memory) (capacity shards max_aof_bytes max_cache_bytes : Z) (regular : bool)
  : M os service :=
  c ← lift (ShardedCache.make capacity shards max_cache_bytes);
  l ← open_log max_aof_bytes regular;
  recover clock mem c l.

(** ** Parsing a batch *)

(** One input: [None] while it is incomplete, otherwise the request, the bytes it takes and the
    mutation to log. *)
Definition parse_input (c : cache) (now : Z) (data : bytes) : outcome (option (Request * Z * option Mutation)) :=
  if zlen data <? HEADER_SIZE then Ret None
  else
    h ← Message.decodeHeader data;
    _ ← Message.validate h;
    let command := command_of (command h) in
    if (negb (bool_decide (command = SET)) && negb (bool_decide (command = SET_TTL)) && negb (value_len h =? 0)) ||
       (bool_decide (command = STATS) && negb (key_len h =? 0))
    then Throw std_runtime_error
    else if zlen data <? Message.total h then Ret None
    else
      let key := Message.body_key h data in
      let value := Message.body_value h data in
      match command with
      | SET_TTL =>
          match ParseFromString value with
          | Some item =>
              if (cv_ttl_ms item =? 0) || (315360000000 <? cv_ttl_ms item) then Throw std_runtime_error
              else
                let expires := u64 (now + cv_ttl_ms item) in
                let logged := mkCacheValue (cv_found item) (cv_value item) expires 0 (cv_unknown item) in
                if (MAX_VALUE_SIZE <? zlen (cv_value item)) || negb (ShardedCache.canStore c key (cv_value item))
                then Throw std_runtime_error
                else Ret (Some (mkRequest command key (cv_value item) expires, Message.total h,
                                Some (mkMutation command key (SerializeAsString logged))))
          | None => Throw std_runtime_error
          end
      | SET =>
          if (MAX_VALUE_SIZE <? zlen value) || negb (ShardedCache.canStore c key value) then Throw std_runtime_error
          else Ret (Some (mkRequest command key value 0, Message.total h, Some (mkMutation command key value)))
      | DEL => Ret (Some (mkRequest command key value 0, Message.total h, Some (mkMutation command key value)))
      | _ => Ret (Some (mkRequest command key value 0, Message.total h, None))
      end.

(** The parse loop; a rejected input closes its connection and contributes nothing. *)
Fixpoint parse_from (c : cache) (clock : nat -> Z) (i : nat) (inputs : list bytes)
  : outcome (list (Request * Reply) * list Mutation) :=
  match inputs with
  | [] => Ret ([], [])
  | data :: inputs =>
      p ← match parse_input c (clock i) data with
          | Ret None => Ret ((default_request, default_reply), [])
          | Ret (Some (q, total, m)) => Ret ((q, mkReply total [] false), option_list m)
          | Throw e => if is_runtime_error e then Ret ((default_request, mkReply 0 [] true), []) else Throw e
          | Undef => Undef
          | Blocked => Blocked
          end;
      rest ← parse_from c clock (S i) inputs;
      Ret (p.1 :: rest.1, p.2 ++ rest.2)
  end.

(** ** Applying a batch *)

Definition to_string (z : Z) : bytes := str (pretty z).

Definition stats_text (st : LruCache.Stats) (disk : AofStats) : bytes :=
  str "Hits: " ++ to_string (LruCache.hits st) ++ str ", Misses: " ++ to_string (LruCache.misses st) ++
  str ", AOF records: " ++ to_string (records disk) ++ str ", AOF syncs: " ++ to_string (syncs disk) ++
  str ", AOF bytes: " ++ to_string (a_bytes disk) ++ str ", Cache bytes: " ++ to_string (LruCache.s_bytes st) ++
  str ", Evictions: " ++ to_string (LruCache.evictions st) ++ str ", AOF rewrites: " ++ to_string (rewrites disk) ++
  str ", AOF sync us: " ++ to_string (sync_us disk).

(** The response body of request [i]. *)
Definition respond (now : Z) (mem : LruCache.memory) (i : nat) (q : Request) : M service bytes :=
  match q_command q with
  | SET | SET_TTL => _ ← on_cache (ShardedCache.put now mem (q_key q) (q_value q) (q_expires q)); mret []
  | DEL => _ ← on_cache (ShardedCache.remove (q_key q)); mret []
  | GET => v ← on_cache (ShardedCache.get now (q_key q)); mret (default [] v)
  | LOOKUP =>
      v ← on_cache (ShardedCache.get now (q_key q));
      mret (SerializeAsString (mkCacheValue (bool_decide (is_Some v)) (default [] v) 0 0 []))
  | STATS | UNKNOWN =>
      s ← get_state;
      let text := stats_text (ShardedCache.getStats (cache_ s)) (stats_ (log_ (aof_ s))) in
      match q_command q, metrics_ s with
      | STATS, Some metrics => mret (text ++ metrics i)
      | _, _ => mret text
      end
  end.

Definition apply_one (e : env) (i : nat) (q : Request) (r : Reply) : M service Reply :=
  if (consumed r =? 0) || close r then mret r
  else
    response ← respond (now_apply e i) (allocation e i) i q;
    b ← lift (Message.encode (q_command q) (q_key q) response);
    mret (mkReply (consumed r) b (close r)).

Fixpoint apply_from (e : env) (i : nat) (l : list (Request * Reply)) : M service (list Reply) :=
  match l with
  | [] => mret []
  | (q, r) :: l => r' ← apply_one e i q r; rest ← apply_from e (S i) l; mret (r' :: rest)
  end.

(** ** Operations *)

Definition snapshot_mutation (x : @LruCache.Entry bytes bytes) : Mutation :=
  if negb (LruCache.e_expires x =? 0) then
    mkMutation SET_TTL (LruCache.e_key x)
      (SerializeAsString (mkCacheValue false (LruCache.e_value x) (LruCache.e_expires x) 0 []))
  else mkMutation SET (LruCache.e_key x) (LruCache.e_value x).

Definition CompactLocked (e : env) : M service unit :=
  s ← get_state;
  on_aof (rewrite (snapshot_mutation <$> ShardedCache.snapshot (now_snap e) (cache_ s))).
Definition Compact (e : env) : M service unit := CompactLocked e.

Definition HandleBatch (e : env) (inputs : list bytes) : M service (list Reply) :=
  s ← get_state;
  if failed_ s then throw std_runtime_error
  else
    p ← lift (parse_from (cache_ s) (now_parse e) O inputs);
    let '(pairs, mutations) := p in
    try_catch
      (need ← lift (needsRewrite (log_ (aof_ s)) mutations);
       _ ← (if need : bool then CompactLocked e else mret tt);
       _ ← on_aof (logBatch (sync_time e) mutations);
       apply_from e O pairs)
      (fun x => if bool_decide (x = AofCapacityError) then throw x else _ ← set_failed; throw x).

(** [consumed] is the output argument, reset on entry. *)
Definition Handle (e : env) (data : bytes) : M service (Z * bytes) :=
  replies ← HandleBatch e [data];
  match replies with
  | reply :: _ => if close reply then throw std_runtime_error else mret (consumed reply, r_bytes reply)
  | [] => lift Undef
  end.

Definition SetTransportMetrics (callback : nat -> bytes) : M service unit := fun s =>
  (mkService (cache_ s) (aof_ s) (failed_ s) (Some callback), Ret tt).
End CacheService.
