(* ===== verification/ServiceHistory.v ===== *)
(** The history a service writes and what its cache may show of it.  [last_write] is the abstract
    key-value map of a history of mutations; [agrees] says that every cached entry is the last
    write of its key (or has already expired), so a reply is never stale and never invented. *)
From S2P Require Import Prelude KvProtocol TcpServer LruCache ShardedCache Disk Aof AofLog AofDurability CacheService.

(** What the service relies on in the protobuf runtime: fields are 64-bit, serializing and parsing
    round-trips below the runtime's 2 GiB limit (unknown fields included), and a message of known fields adds at most 32 bytes of
    tags and lengths to its value. *)
Definition cv_ok (v : CacheValue) : Prop := 0 <= cv_expires_unix_ms v < 2 ^ 64 /\ 0 <= cv_ttl_ms v < 2 ^ 64.

Class CodecLaws (codec : CacheValueCodec) := {
  parse_ok b v : ParseFromString b = Some v -> cv_ok v /\ zlen (cv_value v) + zlen (cv_unknown v) <= zlen b;
  parse_serialize v :
    cv_ok v -> zlen (cv_value v) + zlen (cv_unknown v) < 2 ^ 31 -> (cv_unknown v = [] \/ exists b w, ParseFromString b = Some w /\ cv_unknown w = cv_unknown v) ->
    ParseFromString (SerializeAsString v) = Some v;
  serialize_overhead v :
    cv_ok v -> cv_unknown v = [] -> zlen (cv_value v) < 2 ^ 31 -> zlen (SerializeAsString v) <= zlen (cv_value v) + 32
}.

Section History.
Context {layout : Layout} {hashB : Hash bytes} {codec : CacheValueCodec} {laws : CodecLaws codec}.
Abbreviation cache := (@ShardedCache.sharded bytes bytes _ _).
Abbreviation Entry := (@LruCache.Entry bytes bytes).

(** * The abstract map *)

(** Value and expiry a mutation gives its key. *)
Definition meaning (m : Mutation) : option (bytes * Z) :=
  match m_command m with
  | SET => Some (m_value m, 0)
  | SET_TTL => v ← ParseFromString (m_value m); Some (cv_value v, cv_expires_unix_ms v)
  | _ => None
  end.

Definition last_write (H : list Mutation) (k : bytes) : option (bytes * Z) :=
  fold_left (fun o m => if decide (m_key m = k) then meaning m else o) H None.

Lemma last_write_snoc H m k : last_write (H ++ [m]) k = if decide (m_key m = k) then meaning m else last_write H k.
Proof. unfold last_write. by rewrite fold_left_app. Qed.

Lemma last_write_app_ne H ms k : Forall (fun m => m_key m <> k) ms -> last_write (H ++ ms) k = last_write H k.
Proof.
  induction ms as [|m ms IH] using rev_ind; [by rewrite app_nil_r|]. intros [Hm Hk]%Forall_app.
  apply Forall_cons in Hk as [Hk _]. rewrite app_assoc, last_write_snoc, decide_False by done. by apply IH.
Qed.

(** A mutation written once for its key is that key's last write. *)
Lemma last_write_unique H m :
  NoDup (m_key <$> H) -> m ∈ H -> last_write H (m_key m) = meaning m.
Proof.
  intros Hnd (H1 & H2 & ->)%list_elem_of_split. rewrite fmap_app, fmap_cons in Hnd.
  apply NoDup_app in Hnd as (_ & _ & [Hnd _]%NoDup_cons).
  change (m :: H2) with ([m] ++ H2). rewrite app_assoc, last_write_app_ne.
  - by rewrite last_write_snoc, decide_True.
  - apply Forall_forall. intros x Hx E. apply Hnd. rewrite <-E. by apply list_elem_of_fmap_2.
Qed.

(** * Agreement of a cache with a history *)

(** [T] is a time up to which expired entries may have been dropped from the log. *)
Definition agrees (T : Z) (H : list Mutation) (c : cache) : Prop :=
  forall k x, ShardedCache.view c k = Some x ->
    last_write H k = Some (LruCache.e_value x, LruCache.e_expires x) \/ (LruCache.e_expires x <> 0 /\ LruCache.e_expires x <= T).

(** Cached entries fit the protocol. *)
Definition fits (c : cache) : Prop :=
  forall k x, ShardedCache.view c k = Some x ->
    zlen k <= MAX_KEY_SIZE /\ zlen (LruCache.e_value x) <= MAX_VALUE_SIZE /\ 0 <= LruCache.e_expires x < 2 ^ 64.

Lemma agrees_later T T' H c : T <= T' -> agrees T H c -> agrees T' H c.
Proof. intros HT Ha k x Hx. destruct (Ha k x Hx) as [|[? ?]]; [by left|right; lia]. Qed.

(** Writing [m] to the cache keeps the agreement: the key of [m] shows nothing or what [m] says,
    every other key shows what it showed or nothing. *)
Lemma agrees_write T H m c c' :
  agrees T H c ->
  (forall x, ShardedCache.view c' (m_key m) = Some x -> meaning m = Some (LruCache.e_value x, LruCache.e_expires x)) ->
  (forall k, k <> m_key m -> ShardedCache.view c' k = ShardedCache.view c k \/ ShardedCache.view c' k = None) ->
  agrees T (H ++ [m]) c'.
Proof.
  intros Ha Hm Ho k x Hx. rewrite last_write_snoc. case_decide as E.
  - subst k. left. by apply Hm.
  - destruct (Ho k) as [Ek|Ek]; [congruence| |congruence]. rewrite Ek in Hx. by apply Ha.
Qed.

(** Forgetting entries keeps it too. *)
Lemma agrees_shrink T H c c' :
  agrees T H c -> (forall k x, ShardedCache.view c' k = Some x -> ShardedCache.view c k = Some x) -> agrees T H c'.
Proof. intros Ha Hs k x Hx. by apply Ha, Hs. Qed.

Lemma fits_shrink c c' :
  fits c -> (forall k x, ShardedCache.view c' k = Some x -> ShardedCache.view c k = Some x) -> fits c'.
Proof. intros Ha Hs k x Hx. by apply Ha, Hs. Qed.

Lemma fits_write k0 c c' :
  fits c ->
  (forall x, ShardedCache.view c' k0 = Some x ->
     zlen k0 <= MAX_KEY_SIZE /\ zlen (LruCache.e_value x) <= MAX_VALUE_SIZE /\ 0 <= LruCache.e_expires x < 2 ^ 64) ->
  (forall k, k <> k0 -> ShardedCache.view c' k = ShardedCache.view c k \/ ShardedCache.view c' k = None) -> fits c'.
Proof.
  intros Hf Hk Ho k x Hx. destruct (decide (k = k0)) as [->|Hne]; [by apply Hk|].
  destruct (Ho k Hne) as [E|E]; rewrite E in Hx; [by apply Hf|done].
Qed.

(** * Compaction *)

Lemma snapshot_mutation_key x : m_key (snapshot_mutation x) = LruCache.e_key x.
Proof. unfold snapshot_mutation. by destruct (negb _). Qed.

Lemma snapshot_mutation_meaning x :
  zlen (LruCache.e_value x) <= MAX_VALUE_SIZE -> 0 <= LruCache.e_expires x < 2 ^ 64 ->
  meaning (snapshot_mutation x) = Some (LruCache.e_value x, LruCache.e_expires x).
Proof.
  intros Hv Hx. unfold MAX_VALUE_SIZE in Hv. unfold snapshot_mutation. destruct (Z.eqb_spec (LruCache.e_expires x) 0) as [E|E]; cbn [negb]; unfold meaning; cbn [m_command m_value].
  - by rewrite E.
  - rewrite parse_serialize; [done|split; cbn; lia|cbn; rewrite zlen_nil; lia|by left].
Qed.

Lemma snapshot_mutation_loggable x :
  zlen (LruCache.e_key x) <= MAX_KEY_SIZE -> zlen (LruCache.e_value x) <= MAX_VALUE_SIZE -> 0 <= LruCache.e_expires x < 2 ^ 64 ->
  loggable (snapshot_mutation x).
Proof.
  intros Hk Hv Hx. unfold snapshot_mutation, loggable, MAX_WIRE_VALUE_SIZE.
  destruct (negb _); cbn [m_command m_key m_value]; split_and!; try done; auto; [|lia].
  pose proof (serialize_overhead (mkCacheValue false (LruCache.e_value x) (LruCache.e_expires x) 0 [])) as Ho.
  unfold MAX_VALUE_SIZE in *. specialize (Ho ltac:(split; cbn; lia) eq_refl). cbn in Ho. lia.
Qed.

Definition snapshot_log (nows : nat -> nat -> Z) (c : cache) : list Mutation := snapshot_mutation <$> ShardedCache.snapshot nows c.

Lemma snapshot_log_keys nows c : m_key <$> snapshot_log nows c = LruCache.e_key <$> ShardedCache.snapshot nows c.
Proof. unfold snapshot_log. rewrite <-list_fmap_compose. apply list_fmap_ext. intros i x _. apply snapshot_mutation_key. Qed.

Lemma snapshot_log_agrees T nows c :
  ShardedCache.Inv c -> fits c -> (forall i j, nows i j <= T) -> agrees T (snapshot_log nows c) c.
Proof.
  intros Hi Hf HT k x Hx. pose proof (ShardedCache.view_inv c k x Hx) as (_ & _ & _ & Hk).
  destruct (ShardedCache.view_snapshot nows c k x Hx) as [Hin|(i & j & He)].
  - left. rewrite <-Hk, <-snapshot_mutation_key, <-snapshot_mutation_meaning by (by apply (Hf k)).
    apply last_write_unique; [|by apply list_elem_of_fmap_2]. rewrite snapshot_log_keys. by apply ShardedCache.sharded_snapshot_nodup.
  - right. specialize (HT i j). unfold LruCache.Expired in He. lia.
Qed.

Lemma snapshot_log_loggable nows c : ShardedCache.Inv c -> fits c -> Forall loggable (snapshot_log nows c).
Proof.
  intros Hi Hf. apply Forall_fmap, Forall_forall. intros x Hx%(ShardedCache.snapshot_view nows c x Hi).
  destruct (Hf _ _ Hx) as (? & ? & ?). by apply snapshot_mutation_loggable.
Qed.

(** * Parsing *)

(** What the parse loop guarantees of a request it lets through. *)
Definition accepted (c : cache) (q : Request) (total : Z) (mo : option Mutation) : Prop :=
  HEADER_SIZE <= total /\ zlen (q_key q) <= MAX_KEY_SIZE /\
  match q_command q with
  | SET => mo = Some (mkMutation SET (q_key q) (q_value q)) /\ q_expires q = 0 /\
           ShardedCache.canStore c (q_key q) (q_value q) = true /\ zlen (q_value q) <= MAX_VALUE_SIZE
  | SET_TTL => (exists b, mo = Some (mkMutation SET_TTL (q_key q) b) /\
                  meaning (mkMutation SET_TTL (q_key q) b) = Some (q_value q, q_expires q)) /\
               0 < q_expires q < 2 ^ 64 /\
               ShardedCache.canStore c (q_key q) (q_value q) = true /\ zlen (q_value q) <= MAX_VALUE_SIZE
  | DEL => mo = Some (mkMutation DEL (q_key q) [])
  | UNKNOWN => False
  | _ => mo = None
  end.

Lemma body_key_size h data : 0 <= key_len h -> zlen (Message.body_key h data) <= key_len h.
Proof. intros. unfold Message.body_key, zlen. rewrite length_take. lia. Qed.

Lemma body_value_size h data : 0 <= value_len h -> zlen (Message.body_value h data) <= value_len h.
Proof. intros. unfold Message.body_value, zlen. rewrite length_take. lia. Qed.

Lemma body_value_nil h data : value_len h = 0 -> Message.body_value h data = [].
Proof. intros E. unfold Message.body_value. by rewrite E. Qed.

Lemma command_of_valid z : 1 <= z <= 6 -> command_of z <> UNKNOWN.
Proof. intros Hz E. pose proof (command_code_of z Hz) as Hc. rewrite E in Hc. simpl in Hc. lia. Qed.

(** A parse never leaves its data, and only ever throws what the loop catches. *)
Lemma parse_input_cases c now data :
  0 <= now < 2 ^ 63 ->
  match parse_input c now data with
  | Ret None => True
  | Ret (Some (q, total, mo)) => accepted c q total mo
  | Throw e => e = std_runtime_error
  | Undef | Blocked => False
  end.
Proof.
  intros Hnow. unfold parse_input. destruct (Z.ltb_spec (zlen data) HEADER_SIZE) as [|Hl]; [done|].
  destruct (decodeHeader_total data Hl) as (h & -> & Hok & _). rewrite bind_Ret. unfold Message.validate.
  destruct (Message.valid h) eqn:Ev; [|done]. rewrite bind_Ret. destruct Hok as (_ & _ & _ & Hk0 & Hv0).
  apply valid_iff in Ev as (_ & _ & Hc & Hk & Hv). pose proof (command_of_valid _ Hc) as Hun.
  pose proof (body_key_size h data (proj1 Hk0)) as Hks. cbv zeta.
  destruct (_ || _)%bool eqn:Eg; [done|]. destruct (zlen data <? Message.total h); [done|].
  assert (HEADER_SIZE <= Message.total h) as Ht by (unfold Message.total; lia).
  destruct (command_of (command h)) eqn:Ec; cbn in Eg; try done; unfold accepted; cbn [q_command q_key q_value q_expires].
  - destruct ((MAX_VALUE_SIZE <? _) || _)%bool eqn:Ef; [done|]. zify_bools. cbn. split_and!; try done; lia.
  - split_and!; [done|lia|done].
  - destruct (Z.eqb_spec (value_len h) 0); [|done]. rewrite body_value_nil by done. split_and!; [done|lia|done].
  - split_and!; [done|lia|done].
  - split_and!; [done|lia|done].
  - destruct (ParseFromString (Message.body_value h data)) as [item|] eqn:Ep; [|done].
    destruct ((cv_ttl_ms item =? 0) || _)%bool eqn:Et; [done|]. destruct ((MAX_VALUE_SIZE <? _) || _)%bool eqn:Ef; [done|]. zify_bools.
    cbn. pose proof (parse_ok _ _ Ep) as [[He Hti] Hps]. rewrite u64_small by lia.
    split; [done|]. split; [lia|]. split; [|split_and!; [lia|lia|done|lia]].
    eexists. split; [done|]. unfold meaning. cbn [m_command m_value]. rewrite parse_serialize; [done| | |].
    + split; cbn; lia.
    + cbn. pose proof (body_value_size h data (proj1 Hv0)). unfold MAX_WIRE_VALUE_SIZE, MAX_VALUE_SIZE in *. lia.
    + right. by exists (Message.body_value h data), item.
Qed.

(** The fate of one input, on its own. *)
Definition verdict (c : cache) (now : Z) (data : bytes) : (Request * Reply) * option Mutation :=
  match parse_input c now data with
  | Ret (Some (q, total, mo)) => ((q, mkReply total [] false), mo)
  | Throw _ => ((default_request, mkReply 0 [] true), None)
  | _ => ((default_request, default_reply), None)
  end.
Definition verdicts (c : cache) (clock : nat -> Z) (inputs : list bytes) : list ((Request * Reply) * option Mutation) :=
  imap (fun n data => verdict c (clock n) data) inputs.
Definition muts (vs : list ((Request * Reply) * option Mutation)) : list Mutation := concat (option_list <$> vs.*2).

Definition clock_ok (clock : nat -> Z) : Prop := forall n, 0 <= clock n < 2 ^ 63.

Lemma parse_from_verdicts c clock i inputs :
  clock_ok clock ->
  parse_from c clock i inputs =
    Ret ((verdicts c (fun n => clock (i + n)%nat) inputs).*1, muts (verdicts c (fun n => clock (i + n)%nat) inputs)).
Proof.
  intros Hclk. revert i. induction inputs as [|data inputs IH]; intros i; [done|]. cbn [parse_from]. rewrite IH.
  assert (verdicts c (fun n => clock (i + n)%nat) (data :: inputs) =
    verdict c (clock i) data :: verdicts c (fun n => clock (S i + n)%nat) inputs) as ->.
  { unfold verdicts. rewrite imap_cons. f_equal; [by rewrite Nat.add_0_r|]. apply imap_ext. intros n x _. cbn. by rewrite Nat.add_succ_r. }
  pose proof (parse_input_cases c (clock i) data (Hclk i)) as Hp. unfold verdict.
  destruct (parse_input c (clock i) data) as [[[[q total] mo]|]|e| |]; try done. by subst e.
Qed.

Definition pair_ok (c : cache) (v : (Request * Reply) * option Mutation) : Prop :=
  (consumed v.1.2 = 0 /\ r_bytes v.1.2 = [] /\ v.2 = None) \/
  (exists total, v.1.2 = mkReply total [] false /\ accepted c v.1.1 total v.2).

Lemma verdict_ok c now data : 0 <= now < 2 ^ 63 -> pair_ok c (verdict c now data).
Proof.
  intros Hnow. pose proof (parse_input_cases c now data Hnow) as Hp. unfold verdict, pair_ok.
  destruct (parse_input c now data) as [[[[q total] mo]|]|e| |]; try done; cbn; [right; eauto|by left..].
Qed.

Lemma verdicts_ok c clock inputs : clock_ok clock -> Forall (pair_ok c) (verdicts c clock inputs).
Proof.
  intros Hclk. apply Forall_lookup_2. intros n v. unfold verdicts. rewrite list_lookup_imap.
  intros (data & _ & ->)%fmap_Some_1. by apply verdict_ok.
Qed.

Lemma verdicts_take c clock n inputs : verdicts c clock (take n inputs) = take n (verdicts c clock inputs).
Proof.
  unfold verdicts. apply list_eq. intros j. destruct (Nat.lt_ge_cases j n).
  - by rewrite list_lookup_imap, !lookup_take_lt, list_lookup_imap by done.
  - rewrite lookup_take_ge, list_lookup_imap, lookup_take_ge by done. done.
Qed.

Lemma muts_cons v vs : muts (v :: vs) = option_list v.2 ++ muts vs.
Proof. done. Qed.

(** * Mutations the service writes *)

Definition modest (m : Mutation) : Prop :=
  zlen (m_key m) <= MAX_KEY_SIZE /\ forall v ex, meaning m = Some (v, ex) -> zlen v <= MAX_VALUE_SIZE /\ 0 <= ex < 2 ^ 64.

Lemma accepted_modest c q total m : accepted c q total (Some m) -> modest m.
Proof.
  intros (_ & Hk & Hq). destruct q as [cmd k v ex]. cbn [q_command q_key q_value q_expires] in *. destruct cmd; try done.
  - destruct Hq as ([= ->] & _ & _ & ?). split; [done|]. intros v' ex' [= <- <-]. lia.
  - by injection Hq as ->.
  - destruct Hq as ((b & [= ->] & Hm) & ? & _ & ?). split; [done|]. intros v' ex'. rewrite Hm. intros [= <- <-]. lia.
Qed.

Lemma muts_modest c vs : Forall (pair_ok c) vs -> Forall modest (muts vs).
Proof.
  induction 1 as [|[p mo] vs Hv _ IH]; [constructor|]. rewrite muts_cons. apply Forall_app. split; [|done]. cbn.
  destruct mo as [m|]; [|constructor]. constructor; [|constructor].
  destruct Hv as [(_ & _ & ?)|(total & _ & Hacc)]; [done|]. by eapply accepted_modest.
Qed.

Lemma snapshot_log_modest nows c : ShardedCache.Inv c -> fits c -> Forall modest (snapshot_log nows c).
Proof.
  intros Hi Hf. apply Forall_fmap, Forall_forall. intros x Hx%(ShardedCache.snapshot_view nows c x Hi).
  destruct (Hf _ _ Hx) as (? & ? & ?). split; [by rewrite snapshot_mutation_key|].
  intros v ex. cbn. rewrite snapshot_mutation_meaning by done. by intros [= <- <-].
Qed.

(** * Applying *)

(** What a read of [k] at time [now] shows. *)
Definition visible (now : Z) (c : cache) (k : bytes) : option bytes :=
  match ShardedCache.view c k with
  | Some x => if LruCache.Expired now x then None else Some (LruCache.e_value x)
  | None => None
  end.

Definition response_ok (now : Z) (c : cache) (q : Request) (resp : bytes) : Prop :=
  match q_command q with
  | GET => resp = default [] (visible now c (q_key q))
  | LOOKUP => resp = SerializeAsString (mkCacheValue (bool_decide (is_Some (visible now c (q_key q))))
                                                     (default [] (visible now c (q_key q))) 0 0 [])
  | STATS | UNKNOWN => True
  | _ => resp = []
  end.

(** The service is ready to apply requests accepted under the limits of [c0]. *)
Definition applicable (c0 c : cache) : Prop :=
  ShardedCache.Inv c /\ ShardedCache.limits c = ShardedCache.limits c0 /\ fits c.

Lemma on_cache_run {A} (m : M cache A) s :
  on_cache m s = (mkService (m (cache_ s)).1 (aof_ s) (CacheService.failed_ s) (metrics_ s), (m (cache_ s)).2).
Proof. unfold on_cache. by destruct (m (cache_ s)). Qed.

(** Only the cache moved, and it followed the mutations. *)
Definition applied (c0 : cache) (ms : list Mutation) (s s' : service) : Prop :=
  exists c', s' = mkService c' (aof_ s) (CacheService.failed_ s) (metrics_ s) /\ applicable c0 c' /\
    (forall T H, agrees T H (cache_ s) -> agrees T (H ++ ms) c').

Lemma put_applied c0 now mem m v ex s s' u :
  applicable c0 (cache_ s) -> zlen (m_key m) <= MAX_KEY_SIZE -> meaning m = Some (v, ex) -> 0 <= ex < 2 ^ 64 ->
  ShardedCache.canStore c0 (m_key m) v = true -> zlen v <= MAX_VALUE_SIZE ->
  on_cache (ShardedCache.put now mem (m_key m) v ex) s = (s', Ret u) -> applied c0 [m] s s'.
Proof.
  intros (Hi & Hlim & Hf) Hk Hm Hex Hst Hv E. rewrite on_cache_run in E.
  rewrite (ShardedCache.canStore_limits c0 (cache_ s)) in Hst by done.
  destruct (ShardedCache.put_view now (m_key m) v ex (cache_ s) Hi Hst) as (c' & Hp & Hi' & Hl' & Hvk & Ho).
  injection E as E1 E2. destruct (ShardedCache.put now mem _ _ _ _) as [c1 r1] eqn:Er. cbn in E1, E2. subst r1.
  destruct u. apply ShardedCache.sharded_put_Ret_true in Er. rewrite Hp in Er. injection Er as <-. exists c'. split; [done|].
  assert (forall x, ShardedCache.view c' (m_key m) = Some x -> LruCache.e_value x = v /\ LruCache.e_expires x = ex) as Hx.
  { intros x. rewrite Hvk. destruct (_ && _)%bool; [done|]. by intros [= <-]. }
  split; [split_and!; [done|congruence|]|].
  - eapply (fits_write (m_key m)); [done| |done]. intros x [-> ->]%Hx. done.
  - intros T H Ha. eapply agrees_write; [done| |done]. intros x [-> ->]%Hx. done.
Qed.

Lemma remove_applied c0 k v s s' b :
  applicable c0 (cache_ s) -> on_cache (ShardedCache.remove k) s = (s', Ret b) -> applied c0 [mkMutation DEL k v] s s'.
Proof.
  intros (Hi & Hlim & Hf) E. rewrite on_cache_run in E.
  destruct (ShardedCache.remove_view k (cache_ s) Hi) as (c' & Hr & Hi' & Hl' & Hvk). rewrite Hr in E. injection E as <- <-.
  exists c'. split; [done|]. split; [split_and!; [done|congruence|]|].
  - eapply fits_shrink; [done|]. intros k' x. cbn. rewrite Hvk. by case_decide.
  - intros T H Ha. eapply agrees_write; [done| |].
    + intros x. cbn. rewrite Hvk, decide_True by done. done.
    + intros k' Hne. cbn. rewrite Hvk, decide_False by done. by left.
Qed.

Lemma get_applied c0 now k s s' v :
  applicable c0 (cache_ s) -> on_cache (ShardedCache.get now k) s = (s', Ret v) ->
  applied c0 [] s s' /\ v = visible now (cache_ s) k.
Proof.
  intros (Hi & Hlim & Hf) E. rewrite on_cache_run in E.
  destruct (ShardedCache.get_view now k (cache_ s) Hi) as (c' & Hr & Hi' & Hl' & Hvk). rewrite Hr in E. injection E as <- <-.
  assert (forall k' x, ShardedCache.view c' k' = Some x -> ShardedCache.view (cache_ s) k' = Some x) as Hsub.
  { intros k' x. rewrite Hvk. destruct (ShardedCache.view (cache_ s) k'); [|done]. by destruct (_ && _)%bool. }
  split; [|done]. exists c'. split; [done|]. split; [split_and!; [done|congruence|by eapply fits_shrink]|].
  intros T H Ha. cbn. rewrite app_nil_r. by eapply agrees_shrink.
Qed.

Lemma applied_refl c0 s : applicable c0 (cache_ s) -> applied c0 [] s s.
Proof. intros Ha. exists (cache_ s). split; [by destruct s|]. split; [done|]. intros. cbn. by rewrite app_nil_r. Qed.

Lemma applied_trans c0 ms ms' s1 s2 s3 : applied c0 ms s1 s2 -> applied c0 ms' s2 s3 -> applied c0 (ms ++ ms') s1 s3.
Proof.
  intros (c2 & -> & _ & H12) (c3 & -> & Ha3 & H23). exists c3. cbn in *. split; [done|]. split; [done|].
  intros T H Ha. rewrite app_assoc. by apply H23, H12.
Qed.

Lemma applied_applicable c0 ms s s' : applied c0 ms s s' -> applicable c0 (cache_ s').
Proof. by intros (c' & -> & ? & _). Qed.

Lemma respond_Ret c0 now mem i q total mo s s' resp :
  accepted c0 q total mo -> applicable c0 (cache_ s) -> respond now mem i q s = (s', Ret resp) ->
  response_ok now (cache_ s) q resp /\ applied c0 (option_list mo) s s'.
Proof.
  intros (_ & Hk & Hq) Ha E. unfold respond, response_ok in *. destruct q as [cmd k v ex]. cbn [q_command q_key q_value q_expires] in *.
  destruct cmd; try done.
  - destruct Hq as (-> & -> & Hst & Hv). apply M_bind_Ret in E as (s1 & u & E & [= -> <-]). split; [done|].
    eapply (put_applied c0 now mem (mkMutation SET k v)); done.
  - subst mo. apply M_bind_Ret in E as (s1 & u & E & [= -> <-]). apply (get_applied c0) in E as [Hap ->]; done.
  - subst mo. apply M_bind_Ret in E as (s1 & u & E & [= -> <-]). split; [done|]. by eapply remove_applied.
  - subst mo. split; [done|]. unfold mbind, M_bind, get_state in E. destruct (metrics_ s); injection E as <- _; by apply applied_refl.
  - subst mo. apply M_bind_Ret in E as (s1 & u & E & [= -> <-]). apply (get_applied c0) in E as [Hap ->]; done.
  - destruct Hq as ((b & -> & Hm) & Hex & Hst & Hv). apply M_bind_Ret in E as (s1 & u & E & [= -> <-]). split; [done|].
    eapply (put_applied c0 now mem (mkMutation SET_TTL k b)); try done. lia.
Qed.

(** The reply to one pair: skipped inputs keep theirs, the others get an encoded response. *)
Definition answered (now : Z) (c : cache) (p : Request * Reply) (r' : Reply) : Prop :=
  (consumed p.2 = 0 /\ r' = p.2) \/
  (consumed p.2 <> 0 /\ exists resp, response_ok now c p.1 resp /\
     Message.encode (q_command p.1) (q_key p.1) resp = Ret (r_bytes r') /\ consumed r' = consumed p.2 /\ close r' = false).

Lemma apply_one_Ret c0 e i v s s' r' :
  pair_ok c0 v -> applicable c0 (cache_ s) -> apply_one e i v.1.1 v.1.2 s = (s', Ret r') ->
  applied c0 (option_list v.2) s s' /\ answered (now_apply e i) (cache_ s) v.1 r'.
Proof.
  destruct v as [[q r] mo]. unfold pair_ok, apply_one, answered. cbn [fst snd].
  intros [(Hr & _ & ->)|(total & -> & Hacc)] Ha E.
  - rewrite Hr in E. cbn in E. injection E as <- <-. split; [by apply applied_refl|by left].
  - pose proof Hacc as (Ht & _). cbn [consumed close r_bytes] in *. unfold HEADER_SIZE in Ht.
    rewrite (proj2 (Z.eqb_neq _ _)) in E by lia. cbn in E. apply M_bind_Ret in E as (s1 & resp & E1 & E).
    apply M_bind_Ret in E as (s2 & b & [= -> E2] & [= -> <-]).
    destruct (respond_Ret c0 _ _ _ _ _ _ _ _ _ Hacc Ha E1) as [Hresp Hap]. split; [done|]. right. split; [lia|].
    exists resp. by split_and!.
Qed.

Lemma apply_from_Ret c0 e i vs s s' replies :
  Forall (pair_ok c0) vs -> applicable c0 (cache_ s) -> apply_from e i vs.*1 s = (s', Ret replies) ->
  applied c0 (muts vs) s s' /\ length replies = length vs /\
  forall n v, vs !! n = Some v -> exists r' sn, replies !! n = Some r' /\
    applied c0 (muts (take n vs)) s sn /\ answered (now_apply e (i + n)) (cache_ sn) v.1 r'.
Proof.
  intros Hvs. revert i s replies. induction Hvs as [|v vs Hv _ IH]; intros i s replies Ha E.
  { injection E as <- <-. split; [by apply applied_refl|]. by split. }
  destruct v as [[q r] mo]. cbn [fmap list_fmap fst apply_from] in E.
  apply M_bind_Ret in E as (s1 & r' & E1 & E). apply M_bind_Ret in E as (s2 & rest & E2 & [= -> <-]).
  destruct (apply_one_Ret c0 e i ((q, r), mo) _ _ _ Hv Ha E1) as [Hap Han].
  destruct (IH (S i) s1 rest (applied_applicable _ _ _ _ Hap) E2) as (Hap' & Hlen & Hn). rewrite muts_cons.
  split; [by eapply applied_trans|]. split; [simpl; lia|]. intros [|n] v Hl; cbn in Hl.
  - injection Hl as <-. exists r', s. rewrite Nat.add_0_r. split; [done|]. split; [by apply applied_refl|done].
  - destruct (Hn n v Hl) as (r1 & sn & Hr & Hapn & Hans). exists r1, sn. split; [done|].
    cbn [take]. rewrite muts_cons. split; [by eapply applied_trans|]. by rewrite Nat.add_succ_r.
Qed.
End History.
