(* ===== verification/ServiceCorrectness.v ===== *)
(** Correctness of [kvcache::CacheService]: what a batch does to the log, to the cache and to its
    replies, for every answer of the kernel, and what a restart finds. *)
From S2P Require Import Prelude KvProtocol TcpServer LruCache ShardedCache Disk Aof AofLog AofDurability CacheService ServiceHistory.

Section Correctness.
Context {layout : Layout} {hashB : Hash bytes} {codec : CacheValueCodec} {laws : CodecLaws codec}.
Abbreviation cache := (@ShardedCache.sharded bytes bytes _ _).
Abbreviation failed := CacheService.failed_.

(** * Applying never goes wrong *)

(** The only exception of the apply phase before encoding is a failed allocation. *)
Lemma respond_total c0 now mem i q total mo s s' r :
  accepted c0 q total mo -> applicable c0 (cache_ s) -> respond now mem i q s = (s', r) ->
  (exists resp, r = Ret resp) \/ (r = Throw std_bad_alloc /\ mem <> LruCache.Ample).
Proof.
  intros (_ & Hk & Hq) (Hi & Hlim & Hf) E. unfold respond in E. destruct q as [cmd k v ex]. cbn [q_command q_key q_value q_expires] in *.
  assert (forall c : cache, ShardedCache.limits c = ShardedCache.limits c0 -> ShardedCache.canStore c0 k v = true ->
    ShardedCache.canStore c k v = true) as Hcs.
  { intros c Hl <-. by apply ShardedCache.canStore_limits. }
  assert ((_ ← on_cache (ShardedCache.put now mem k v ex); mret []) s = (s', r) -> ShardedCache.canStore c0 k v = true ->
    (exists resp, r = Ret resp) \/ (r = Throw std_bad_alloc /\ mem <> LruCache.Ample)) as Hput.
  { intros Ep Hst. unfold mbind, M_bind in Ep. rewrite on_cache_run in Ep.
    destruct (ShardedCache.put now mem k v ex (cache_ s)) as [c1 r1] eqn:Er.
    destruct (ShardedCache.put_total _ _ _ _ _ _ _ _ Hi (Hcs _ Hlim Hst) Er) as [->|[-> Hm]]; cbn in Ep; injection Ep as _ <-; eauto. }
  destruct (ShardedCache.get_view now k (cache_ s) Hi) as (c1 & Hg & _).
  destruct (ShardedCache.remove_view k (cache_ s) Hi) as (c2 & Hr & _).
  destruct cmd; try done.
  - apply Hput; [done|apply Hq].
  - unfold mbind, M_bind in E. rewrite on_cache_run, Hg in E. injection E as _ <-. eauto.
  - unfold mbind, M_bind in E. rewrite on_cache_run, Hr in E. injection E as _ <-. eauto.
  - unfold mbind, M_bind, get_state in E. destruct (metrics_ s); injection E as _ <-; eauto.
  - unfold mbind, M_bind in E. rewrite on_cache_run, Hg in E. injection E as _ <-. eauto.
  - apply Hput; [done|apply Hq].
Qed.

Definition apply_failure (x : exn) : Prop := x = std_bad_alloc \/ x = std_length_error.

Lemma apply_one_total c0 e i v s s' r :
  pair_ok c0 v -> applicable c0 (cache_ s) -> apply_one e i v.1.1 v.1.2 s = (s', r) ->
  (exists r', r = Ret r') \/ (exists x, r = Throw x /\ apply_failure x).
Proof.
  destruct v as [[q rp] mo]. unfold pair_ok, apply_one. cbn [fst snd]. intros [(Hr & _ & ->)|(total & -> & Hacc)] Ha E.
  - rewrite Hr in E. cbn in E. injection E as _ <-. eauto.
  - pose proof Hacc as (Ht & Hk & Hq). cbn [consumed close r_bytes] in *. unfold HEADER_SIZE in Ht.
    rewrite (proj2 (Z.eqb_neq _ _)) in E by lia. cbn in E. unfold mbind, M_bind in E.
    destruct (respond (now_apply e i) (allocation e i) i q s) as [s1 r1] eqn:E1.
    destruct (respond_total c0 _ _ _ _ _ _ _ _ _ Hacc Ha E1) as [[resp ->]|[-> _]].
    2: { injection E as _ <-. right. eexists. split; [done|by left]. }
    unfold lift in E. destruct (encode_cases (q_command q) (q_key q) resp) as [[b Hb]|[Hb|[Hu _]]].
    + rewrite Hb in E. injection E as _ <-. eauto.
    + rewrite Hb in E. injection E as _ <-. right. eexists. split; [done|by right].
    + by rewrite Hu in Hq.
Qed.

Lemma apply_from_total c0 e i vs s s' r :
  Forall (pair_ok c0) vs -> applicable c0 (cache_ s) -> apply_from e i vs.*1 s = (s', r) ->
  (exists l, r = Ret l) \/ (exists x, r = Throw x /\ apply_failure x).
Proof.
  intros Hvs. revert i s s' r. induction Hvs as [|v vs Hv _ IH]; intros i s s' r Ha E; [injection E as _ <-; eauto|].
  destruct v as [[q rp] mo]. cbn [fmap list_fmap fst apply_from] in E. unfold mbind, M_bind in E.
  destruct (apply_one e i q rp s) as [s1 r1] eqn:E1.
  destruct (apply_one_total c0 e i ((q, rp), mo) _ _ _ Hv Ha E1) as [[r' ->]|(x & -> & Hx)]; [|injection E as _ <-; eauto].
  destruct (apply_one_Ret c0 e i ((q, rp), mo) _ _ _ Hv Ha E1) as [Hap _].
  destruct (apply_from e (S i) vs.*1 s1) as [s2 r2] eqn:E2.
  destruct (IH (S i) s1 s2 r2 (applied_applicable _ _ _ _ Hap) E2) as [[l ->]|(x & -> & Hx)]; injection E as _ <-; eauto.
Qed.

(** * A healthy service *)

(** Everything acknowledged so far is durable as the history [H], and the cache agrees with it. *)
Definition Healthy (H : list Mutation) (T : Z) (s : service) : Prop :=
  failed s = false /\ ShardedCache.Inv (cache_ s) /\ fits (cache_ s) /\
  Durable H (aof_ s) /\ started_ (log_ (aof_ s)) = true /\ agrees T H (cache_ s) /\ Forall modest H.

(** Clock readings are 63-bit, and sizes stay within [size_t]. *)
Definition in_range (e : env) (inputs : list bytes) (s : service) : Prop :=
  clock_ok (now_parse e) /\
  zlen (frames (muts (verdicts (cache_ s) (now_parse e) inputs))) < 2 ^ 64 /\
  zlen (frames (snapshot_log (now_snap e) (cache_ s))) < 2 ^ 64.

(** The history the log holds once the batch may be appended: unchanged, or compacted. *)
Definition base (H : list Mutation) (e : env) (s : service) (H0 : list Mutation) : Prop :=
  H0 = H \/ H0 = snapshot_log (now_snap e) (cache_ s).

Lemma on_aof_run {A} (m : M aof A) s :
  on_aof m s = (mkService (cache_ s) (m (aof_ s)).1 (failed s) (metrics_ s), (m (aof_ s)).2).
Proof. unfold on_aof. by destruct (m (aof_ s)). Qed.

(** Compaction, seen from the service: the cache is untouched, and the log is the old history or
    the snapshot unless an I/O error disabled it. *)
Lemma CompactLocked_cases H T e s s' r :
  Healthy H T s -> zlen (frames (snapshot_log (now_snap e) (cache_ s))) < 2 ^ 64 -> CompactLocked e s = (s', r) ->
  exists a', s' = mkService (cache_ s) a' (failed s) (metrics_ s) /\
  match r with
  | Ret _ => Durable (snapshot_log (now_snap e) (cache_ s)) a' /\ log_ a' = rewritten (snapshot_log (now_snap e) (cache_ s)) (log_ (aof_ s))
  | Throw x => (x = AofCapacityError /\ a' = aof_ s) \/ (x = std_runtime_error /\ Durable H a' /\ log_ a' = log_ (aof_ s)) \/
               (x = std_runtime_error /\ Aof.failed_ (log_ a') = true)
  | Blocked => True
  | Undef => False
  end.
Proof.
  intros (Hf & Hi & Hfit & HD & Hst & Ha & Hmod) Hz E. unfold CompactLocked, get_state in E. rewrite (M_bind_run _ _ _ s s) in E by done.
  rewrite on_aof_run in E. fold (snapshot_log (now_snap e) (cache_ s)) in E.
  destruct (rewrite (snapshot_log (now_snap e) (cache_ s)) (aof_ s)) as [a' r'] eqn:Er. injection E as <- <-. exists a'. split; [done|].
  pose proof (rewrite_spec _ _ _ _ _ HD Hz Er) as Hs. cbn [snd fst]. destruct r' as [[]|x| |]; try done.
  - by destruct Hs as (? & ? & _).
  - pose proof (snapshot_log_loggable (now_snap e) _ Hi Hfit) as Hl.
    destruct Hs as [(_ & Hn & _)|[(-> & -> & _)|[(-> & ? & ?)|(-> & ?)]]]; [done|auto 10..].
Qed.

(** The log phase: compaction if needed, then the batch. *)
Definition log_phase (e : env) (l : AofLogger) (ms : list Mutation) : M service unit :=
  need ← lift (needsRewrite l ms);
  _ ← (if need : bool then CompactLocked e else mret tt);
  on_aof (logBatch (sync_time e) ms).

Lemma needsRewrite_cases l ms :
  (exists b, needsRewrite l ms = Ret b) \/ needsRewrite l ms = Throw std_invalid_argument \/ needsRewrite l ms = Throw std_length_error.
Proof.
  unfold needsRewrite. destruct (bool_decide (ms = [])); [eauto|].
  destruct (decide (Forall loggable ms)) as [Hl|Hl]; [rewrite Size_Ret by done; cbn; eauto|].
  destruct (Size_error ms Hl) as [-> | ->]; auto.
Qed.

Lemma log_phase_cases H T e ms s s' r :
  Healthy H T s -> zlen (frames ms) < 2 ^ 64 -> zlen (frames (snapshot_log (now_snap e) (cache_ s))) < 2 ^ 64 ->
  log_phase e (log_ (aof_ s)) ms s = (s', r) ->
  exists a', s' = mkService (cache_ s) a' (failed s) (metrics_ s) /\
  match r with
  | Ret _ => exists H0, base H e s H0 /\ Durable (H0 ++ ms) a' /\ started_ (log_ a') = true
  | Throw x => x = AofCapacityError -> exists H0, base H e s H0 /\ Durable H0 a' /\ started_ (log_ a') = true
  | Blocked => True
  | Undef => False
  end.
Proof.
  intros HH Hz Hzs E. pose proof HH as (Hf & Hi & Hfit & HD & Hst & Ha & Hmod). unfold log_phase in E.
  destruct (needsRewrite_cases (log_ (aof_ s)) ms) as [[need Hn]|[Hn|Hn]].
  2, 3: rewrite (lift_bind_Throw _ _ _ _ Hn) in E; injection E as <- <-; exists (aof_ s); split; [by destruct s|done].
  rewrite (lift_bind_Ret _ _ _ _ Hn) in E.
  assert (forall a1 H0 s1 r1, base H e s H0 -> Durable H0 a1 -> started_ (log_ a1) = true ->
    on_aof (logBatch (sync_time e) ms) (mkService (cache_ s) a1 (failed s) (metrics_ s)) = (s1, r1) ->
    exists a', s1 = mkService (cache_ s) a' (failed s) (metrics_ s) /\
    match r1 with
    | Ret _ => exists H0, base H e s H0 /\ Durable (H0 ++ ms) a' /\ started_ (log_ a') = true
    | Throw x => x = AofCapacityError -> exists H0, base H e s H0 /\ Durable H0 a' /\ started_ (log_ a') = true
    | Blocked => True
    | Undef => False
    end) as Hlog.
  { intros a1 H0 s1 r1 Hb HD1 Hs1 E1. rewrite on_aof_run in E1. cbn [aof_ cache_ CacheService.failed_ metrics_] in E1.
    destruct (logBatch (sync_time e) ms a1) as [a' r'] eqn:El. injection E1 as <- <-. exists a'. split; [done|].
    pose proof (logBatch_spec _ _ _ _ _ _ HD1 Hs1 Hz El) as Hsp. cbn [snd fst]. destruct r' as [[]|x| |]; try done.
    - destruct Hsp as (? & ? & _). eauto.
    - intros ->. destruct Hsp as [(_ & _ & [?|?])|[(-> & _)|(? & _)]]; [done|done| |done]. eauto. }
  destruct need.
  - unfold mbind, M_bind in E. destruct (CompactLocked e s) as [s1 r1] eqn:Ec.
    destruct (CompactLocked_cases H T e s s1 r1 HH Hzs Ec) as (a1 & -> & Hr). destruct r1 as [[]|x| |]; try done.
    + destruct Hr as [HD1 Hl1]. eapply Hlog; [by right|done|by rewrite Hl1|done].
    + injection E as <- <-. exists a1. split; [done|]. intros ->. destruct Hr as [[_ ->]|[[? _]|[? _]]]; [|done|done].
      exists H. split; [by left|done].
    + injection E as <- <-. eauto.
  - rewrite (M_bind_run _ _ _ s tt) in E by done. eapply (Hlog (aof_ s) H); [by left|done|done|]. by destruct s.
Qed.

(** Applying touches only the cache, even when it throws. *)
Definition keeps_aof {A} (m : M service A) : Prop := forall s, aof_ (m s).1 = aof_ s.

Lemma keeps_aof_bind {A B} (m : M service A) (f : A -> M service B) : keeps_aof m -> (forall a, keeps_aof (f a)) -> keeps_aof (mbind f m).
Proof. intros Hm Hf s. unfold mbind, M_bind. specialize (Hm s). destruct (m s) as [s1 []]; cbn in *; [rewrite Hf|..]; done. Qed.
Lemma keeps_aof_ret {A} (a : A) : keeps_aof (mret a).
Proof. done. Qed.
Lemma keeps_aof_lift {A} (o : outcome A) : keeps_aof (lift o).
Proof. done. Qed.
Lemma keeps_aof_get : keeps_aof get_state.
Proof. done. Qed.
Lemma keeps_aof_cache {A} (m : M cache A) : keeps_aof (on_cache m).
Proof. intros s. by rewrite on_cache_run. Qed.
Hint Resolve keeps_aof_bind keeps_aof_ret keeps_aof_lift keeps_aof_get keeps_aof_cache : kv.

Lemma respond_aof now mem i q : keeps_aof (respond now mem i q).
Proof. unfold respond. destruct (q_command q); eauto with kv; apply keeps_aof_bind; auto with kv; intros s; destruct (metrics_ s); auto with kv. Qed.

Lemma apply_from_aof e i l : keeps_aof (apply_from e i l).
Proof.
  revert i. induction l as [|[q r] l IH]; intros i; [apply keeps_aof_ret|]. cbn [apply_from].
  apply keeps_aof_bind; [|intros r'; apply keeps_aof_bind; [apply IH|auto with kv]].
  unfold apply_one. destruct (_ || _)%bool; [auto with kv|]. apply keeps_aof_bind; [apply respond_aof|intros; auto with kv].
Qed.

(** * A batch *)

Lemma HandleBatch_cases H T e inputs s s' r :
  Healthy H T s -> in_range e inputs s -> HandleBatch e inputs s = (s', r) ->
  let vs := verdicts (cache_ s) (now_parse e) inputs in
  match r with
  | Ret replies => exists a1 H0, base H e s H0 /\ Durable (H0 ++ muts vs) a1 /\ started_ (log_ a1) = true /\
      apply_from e O vs.*1 (mkService (cache_ s) a1 false (metrics_ s)) = (s', Ret replies)
  | Throw x =>
      (x = AofCapacityError /\ exists a' H0, s' = mkService (cache_ s) a' false (metrics_ s) /\
         base H e s H0 /\ Durable H0 a' /\ started_ (log_ a') = true) \/
      (x <> AofCapacityError /\ failed s' = true /\
         (cache_ s' = cache_ s \/ exists H0, base H e s H0 /\ Durable (H0 ++ muts vs) (aof_ s')))
  | Blocked => cache_ s' = cache_ s
  | Undef => False
  end.
Proof.
  intros HH (Hclk & Hz & Hzs) E vs. pose proof HH as (Hf & Hi & Hfit & HD & Hst & Ha & Hmod).
  unfold HandleBatch, get_state in E. rewrite (M_bind_run _ _ _ s s) in E by done. rewrite Hf in E.
  rewrite (lift_bind_Ret _ _ _ _ (parse_from_verdicts (cache_ s) (now_parse e) O inputs Hclk)) in E.
  change (verdicts (cache_ s) (fun n => now_parse e (0 + n)%nat) inputs) with vs in E.
  assert ((need ← lift (needsRewrite (log_ (aof_ s)) (muts vs));
           _ ← (if need : bool then CompactLocked e else mret tt);
           _ ← on_aof (logBatch (sync_time e) (muts vs)); apply_from e O vs.*1) s =
          (_ ← log_phase e (log_ (aof_ s)) (muts vs); apply_from e O vs.*1) s) as Eb.
  { unfold log_phase, mbind, M_bind, lift. destruct (needsRewrite (log_ (aof_ s)) (muts vs)) as [need| | |]; try done.
    destruct ((if need then CompactLocked e else mret tt) s) as [s1 [[]| | |]]; try done. }
  unfold try_catch in E. rewrite Eb in E. clear Eb. unfold mbind, M_bind in E.
  destruct (log_phase e (log_ (aof_ s)) (muts vs) s) as [s1 r1] eqn:El.
  destruct (log_phase_cases H T e (muts vs) s s1 r1 HH Hz Hzs El) as (a1 & -> & Hr). rewrite Hf in *.
  destruct r1 as [[]|x| |]; [|..|done|]; last (by injection E as <- <-).
  - destruct Hr as (H0 & Hb & HD1 & Hs1).
    assert (Forall (pair_ok (cache_ s)) vs) as Hok by (by apply verdicts_ok).
    destruct (apply_from e O vs.*1 (mkService (cache_ s) a1 false (metrics_ s))) as [s2 r2] eqn:Eap.
    pose proof (apply_from_aof e O vs.*1 (mkService (cache_ s) a1 false (metrics_ s))) as Haof. rewrite Eap in Haof. cbn in Haof.
    assert (applicable (cache_ s) (cache_ s)) as Hap by (by split_and!).
    destruct (apply_from_total (cache_ s) e O vs (mkService (cache_ s) a1 false (metrics_ s)) _ _ Hok Hap Eap) as [[l ->]|(x & -> & Hx)].
    + injection E as <- <-. eauto 10.
    + assert (x <> AofCapacityError) as Hne by (by destruct Hx as [-> | ->]).
      rewrite bool_decide_false in E by done. injection E as <- <-. right. split; [done|]. split; [done|]. right. exists H0. cbn. by rewrite Haof.
  - case_bool_decide as Ex; injection E as <- <-.
    + left. split; [done|]. destruct (Hr Ex) as (H0 & ? & ? & ?). eauto 10.
    + right. by split_and!; [..|left].
Qed.

(** Clock readings of a call, against the mark [T] of the history and the mark [T'] after it. *)
Definition clocks (T T' : Z) (e : env) : Prop :=
  T <= T' /\ (forall n, T <= now_apply e n) /\ (forall i j, now_snap e i j <= T').

Lemma base_agrees H T T' e s H0 :
  Healthy H T s -> clocks T T' e -> base H e s H0 -> agrees T' H0 (cache_ s).
Proof.
  intros (_ & Hi & Hf & _ & _ & Ha & _) (HT & _ & Hsn) [-> | ->]; [by eapply agrees_later|by apply snapshot_log_agrees].
Qed.

Lemma base_modest H T e s H0 : Healthy H T s -> base H e s H0 -> Forall modest H0.
Proof. intros (_ & Hi & Hf & _ & _ & _ & Hm) [-> | ->]; [done|by apply snapshot_log_modest]. Qed.

Lemma base_Healthy H T T' e s H0 a : Healthy H T s -> clocks T T' e -> base H e s H0 -> Durable H0 a -> started_ (log_ a) = true ->
  Healthy H0 T' (mkService (cache_ s) a false (metrics_ s)).
Proof.
  intros HH Hc Hb HD Hs. pose proof (base_agrees _ _ _ _ _ _ HH Hc Hb) as Ha. pose proof (base_modest _ _ _ _ _ HH Hb) as Hm.
  destruct HH as (_ & Hi & Hfit & _). by split_and!.
Qed.

Lemma Healthy_applicable H T s : Healthy H T s -> applicable (cache_ s) (cache_ s).
Proof. intros (_ & ? & ? & _). by split_and!. Qed.

(** Everything a returned batch tells, in one place. *)
Lemma HandleBatch_Ret H T T' e inputs s s' replies :
  Healthy H T s -> in_range e inputs s -> clocks T T' e -> HandleBatch e inputs s = (s', Ret replies) ->
  let vs := verdicts (cache_ s) (now_parse e) inputs in
  (exists H0, base H e s H0 /\ Healthy (H0 ++ muts vs) T' s') /\ length replies = length inputs /\
  forall n data, inputs !! n = Some data ->
    exists r' c, replies !! n = Some r' /\ answered (now_apply e n) c (verdict (cache_ s) (now_parse e n) data).1 r' /\
      agrees T (H ++ muts (take n vs)) c /\ fits c.
Proof.
  intros HH Hr Hclk E vs. pose proof (HandleBatch_cases _ _ _ _ _ _ _ HH Hr E) as (a1 & H0 & Hb & HD & Hst & Eap).
  fold vs in HD, Eap. pose proof (verdicts_ok (cache_ s) (now_parse e) inputs (proj1 Hr)) as Hok. fold vs in Hok.
  assert (length vs = length inputs) as Hlv by (unfold vs, verdicts; by rewrite length_imap).
  destruct (apply_from_Ret (cache_ s) e O vs (mkService (cache_ s) a1 false (metrics_ s)) _ _ Hok (Healthy_applicable _ _ _ HH) Eap) as
     ((c' & -> & (Hi' & _ & Hf') & Hag) & Hlen & Hn).
  cbn [aof_ CacheService.failed_ metrics_ cache_] in *.
  split; [|split; [congruence|]].
  - exists H0. split; [done|]. split_and!; try done.
    + apply Hag. by eapply base_agrees.
    + apply Forall_app. split; [by eapply base_modest|by eapply muts_modest].
  - intros n data Hd. assert (vs !! n = Some (verdict (cache_ s) (now_parse e n) data)) as Hvn.
    { unfold vs, verdicts. by rewrite list_lookup_imap, Hd. }
    destruct (Hn n _ Hvn) as (r' & sn & Hr' & (cn & -> & (_ & _ & Hfn) & Hagn) & Hans). exists r', cn. split; [done|]. split; [done|].
    split; [|done]. apply Hagn. apply HH.
Qed.

(** The verdict on a well-formed read. *)
Lemma verdict_read c now cmd key data :
  cmd = GET \/ cmd = LOOKUP -> Message.encode cmd key [] = Ret data ->
  verdict c now data = ((mkRequest cmd key [] 0, mkReply (zlen data) [] false), None).
Proof.
  intros Hcmd [He ->]%encode_Ret_inv. unfold verdict, parse_input. pose proof (zlen_nonneg key).
  rewrite zlen_frame, (proj2 (Z.ltb_ge _ _)) by (rewrite zlen_nil; lia).
  rewrite <-(app_nil_r (header_bytes _ ++ _)). rewrite decodeHeader_frame, bind_Ret by done.
  unfold Message.validate. rewrite header_of_valid, bind_Ret by done. cbv zeta.
  rewrite body_key_frame, body_value_frame. unfold Message.total, header_of. cbn [command key_len value_len].
  rewrite command_of_code, Z.ltb_irrefl. by destruct Hcmd as [-> | ->].
Qed.

(** * Properties of a batch *)

(** C8. Durability and consistency of a batch: when [HandleBatch] returns, every mutation it
    accepted is durable in the log, after the previous history or after the snapshot a
    compaction put in its place, the service is healthy again, and the cache agrees with that
    history; there is one reply per input. *)
Theorem HandleBatch_durable H T T' e inputs s s' replies :
  Healthy H T s -> in_range e inputs s -> clocks T T' e -> HandleBatch e inputs s = (s', Ret replies) ->
  length replies = length inputs /\
  exists H0, (H0 = H \/ H0 = snapshot_log (now_snap e) (cache_ s)) /\
    Healthy (H0 ++ muts (verdicts (cache_ s) (now_parse e) inputs)) T' s'.
Proof. intros HH Hr Hc E. destruct (HandleBatch_Ret _ _ _ _ _ _ _ _ HH Hr Hc E) as ((H0 & Hb & HH') & Hlen & _). eauto. Qed.

(** C14. Reads are never stale and never invented: the reply to a GET or LOOKUP carries either
    no value or exactly the last value written to its key by the durable history followed by the
    mutations accepted earlier in the same batch, and that value has not expired. *)
Theorem HandleBatch_reads_last_write H T T' e inputs s s' replies n data cmd key :
  Healthy H T s -> in_range e inputs s -> clocks T T' e -> HandleBatch e inputs s = (s', Ret replies) ->
  inputs !! n = Some data -> cmd = GET \/ cmd = LOOKUP -> Message.encode cmd key [] = Ret data ->
  exists v b, replies !! n = Some (mkReply (zlen data) b false) /\
    Message.encode cmd key
      (if bool_decide (cmd = GET) then default [] v
       else SerializeAsString (mkCacheValue (bool_decide (is_Some v)) (default [] v) 0 0 [])) = Ret b /\
    forall x, v = Some x -> exists ex,
      last_write (H ++ muts (verdicts (cache_ s) (now_parse e) (take n inputs))) key = Some (x, ex) /\
      (ex = 0 \/ now_apply e n < ex).
Proof.
  intros HH Hr Hc E Hd Hcmd Henc. destruct (HandleBatch_Ret _ _ _ _ _ _ _ _ HH Hr Hc E) as (_ & _ & Hn).
  destruct (Hn n data Hd) as (r' & c & Hr' & Hans & Hag & _). rewrite (verdict_read _ _ cmd key data Hcmd Henc) in Hans.
  assert (zlen data <> 0) as Hz.
  { apply encode_Ret_inv in Henc as [_ ->]. rewrite zlen_frame, zlen_nil. pose proof (zlen_nonneg key). unfold HEADER_SIZE. lia. }
  destruct Hans as [[Hz' _]|(_ & resp & Hresp & Hb & Hcons & Hcl)]; [done|]. cbn [fst snd q_command q_key consumed] in *.
  exists (visible (now_apply e n) c key), (r_bytes r'). split; [|split].
  - rewrite Hr'. f_equal. destruct r'. cbn in *. congruence.
  - rewrite <-Hb. f_equal. unfold response_ok in Hresp. cbn [q_command q_key] in Hresp. by destruct Hcmd as [-> | ->].
  - intros x Hx. unfold visible in Hx. destruct (ShardedCache.view c key) as [y|] eqn:Ey; [|done].
    destruct (LruCache.Expired (now_apply e n) y) eqn:Ex; [done|]. injection Hx as <-.
    rewrite verdicts_take. destruct Hc as (_ & HT & _). specialize (HT n). unfold LruCache.Expired in Ex.
    destruct (Hag key y Ey) as [Hl|[? ?]]; [|lia]. exists (LruCache.e_expires y). split; [done|]. lia.
Qed.

(** C17. Write-ahead and failure handling: if [HandleBatch] throws, no reply is sent; either the
    log is full and the service stays healthy with the cache untouched, or the service is
    disabled for good, and even then the cache has not moved unless the whole batch is durable. *)
Theorem HandleBatch_write_ahead H T T' e inputs s s' x :
  Healthy H T s -> in_range e inputs s -> clocks T T' e -> HandleBatch e inputs s = (s', Throw x) ->
  (x = AofCapacityError /\ cache_ s' = cache_ s /\
     exists H0, (H0 = H \/ H0 = snapshot_log (now_snap e) (cache_ s)) /\ Healthy H0 T' s') \/
  (x <> AofCapacityError /\
     (cache_ s' = cache_ s \/
      exists H0, (H0 = H \/ H0 = snapshot_log (now_snap e) (cache_ s)) /\
        Durable (H0 ++ muts (verdicts (cache_ s) (now_parse e) inputs)) (aof_ s')) /\
     forall e' inputs', HandleBatch e' inputs' s' = (s', Throw std_runtime_error)).
Proof.
  intros HH Hr Hc E. destruct (HandleBatch_cases _ _ _ _ _ _ _ HH Hr E) as [(-> & a' & H0 & -> & Hb & HD & Hs)|(Hne & Hf & Hcc)].
  - left. split; [done|]. split; [done|]. exists H0. split; [done|]. by eapply base_Healthy.
  - right. split; [done|]. split; [done|]. intros e' inputs'. unfold HandleBatch, get_state.
    rewrite (M_bind_run _ _ _ s' s') by done. by rewrite Hf.
Qed.

(** The verdict on a well-formed SET_TTL. *)
Lemma parse_input_ttl c now key value data item :
  Message.encode SET_TTL key value = Ret data -> ParseFromString value = Some item ->
  0 < cv_ttl_ms item <= 315360000000 -> zlen (cv_value item) <= MAX_VALUE_SIZE ->
  ShardedCache.canStore c key (cv_value item) = true ->
  let expires := u64 (now + cv_ttl_ms item) in
  parse_input c now data = Ret (Some (mkRequest SET_TTL key (cv_value item) expires, zlen data,
    Some (mkMutation SET_TTL key (SerializeAsString (mkCacheValue (cv_found item) (cv_value item) expires 0 (cv_unknown item)))))).
Proof.
  intros [He ->]%encode_Ret_inv Hp Httl Hv Hst expires. unfold parse_input. pose proof (zlen_nonneg key). pose proof (zlen_nonneg value).
  rewrite zlen_frame, (proj2 (Z.ltb_ge _ _)) by lia.
  rewrite <-(app_nil_r (header_bytes _ ++ _)). rewrite decodeHeader_frame, bind_Ret by done.
  unfold Message.validate. rewrite header_of_valid, bind_Ret by done. cbv zeta.
  rewrite body_key_frame, body_value_frame. unfold Message.total, header_of. cbn [command key_len value_len].
  rewrite command_of_code, Z.ltb_irrefl. cbn. rewrite Hp.
  rewrite (proj2 (Z.eqb_neq (cv_ttl_ms item) 0)), (proj2 (Z.ltb_ge 315360000000 (cv_ttl_ms item))) by lia. cbn [orb].
  rewrite (proj2 (Z.ltb_ge MAX_VALUE_SIZE _)), Hst by lia. done.
Qed.

(** C40. A single request can disable the storage: a SET_TTL that passes every check of the
    parse loop but whose re-serialized record is above the wire limit makes [HandleBatch] throw
    after the point where it treats failures as fatal, and every later batch is refused. *)
Theorem oversized_ttl_disables_storage H T e s data q total m :
  Healthy H T s -> clock_ok (now_parse e) ->
  parse_input (cache_ s) (now_parse e O) data = Ret (Some (q, total, Some m)) -> MAX_WIRE_VALUE_SIZE < zlen (m_value m) ->
  exists s' x, HandleBatch e [data] s = (s', Throw x) /\ (x = std_invalid_argument \/ x = std_length_error) /\
    cache_ s' = cache_ s /\ aof_ s' = aof_ s /\
    forall e' inputs', HandleBatch e' inputs' s' = (s', Throw std_runtime_error).
Proof.
  intros (Hf & _) Hclk Hp Hbig. set (s' := mkService (cache_ s) (aof_ s) true (metrics_ s)).
  assert (forall x, Size [m] = Throw x -> x <> AofCapacityError -> HandleBatch e [data] s = (s', Throw x)) as Hrun.
  { intros x E Hx. unfold HandleBatch, get_state. rewrite (M_bind_run _ _ _ s s) by done. rewrite Hf.
    rewrite (lift_bind_Ret _ _ _ _ (parse_from_verdicts (cache_ s) (now_parse e) O [data] Hclk)).
    assert (muts (verdicts (cache_ s) (fun n => now_parse e (0 + n)%nat) [data]) = [m]) as ->.
    { unfold verdicts. cbn. unfold verdict. by rewrite Hp. }
    unfold try_catch. rewrite (lift_bind_Throw _ _ _ x); [by rewrite (bool_decide_false (x = AofCapacityError))|].
    unfold needsRewrite. by rewrite bool_decide_false, E. }
  assert (~ Forall loggable [m]) as Hn by (intros [(_ & _ & _ & ?) _]%Forall_cons; lia).
  destruct (Size_error [m] Hn) as [E|E]; eexists s', _; (split; [by apply Hrun|split_and!; [by auto|done|done|done]]).
Qed.
End Correctness.
