(* ===== verification/ServiceInputs.v ===== *)
(** What the service makes of the bytes of a connection ([CacheService::HandleBatch]): which inputs are requests, which
    are the beginning of one and which are neither, by the format on the wire, and that those of the last two kinds
    leave no trace on the rest of the batch. *)
From S2P Require Import Prelude KvProtocol TcpServer LruCache ShardedCache Disk Aof AofLog AofDurability CacheService ServiceHistory ServiceCorrectness.

Section Inputs.
Context {layout : Layout} {hashB : Hash bytes} {codec : CacheValueCodec} {laws : CodecLaws codec}.
Abbreviation cache := (@ShardedCache.sharded bytes bytes _ _).

(** * Three kinds of input *)

(** The bodies a command can have, as the header shows, and those that the service accepts. *)
Definition shaped (cmd : Command) (key value : bytes) : Prop :=
  match cmd with SET | SET_TTL => True | STATS => key = [] /\ value = [] | _ => value = [] end.
Definition allowed (c : cache) (cmd : Command) (key value : bytes) : Prop :=
  match cmd with
  | SET => zlen value <= MAX_VALUE_SIZE /\ ShardedCache.canStore c key value = true
  | SET_TTL => exists item, ParseFromString value = Some item /\ cv_ttl_ms item <> 0 /\ cv_ttl_ms item <= 315360000000 /\
                 zlen (cv_value item) <= MAX_VALUE_SIZE /\ ShardedCache.canStore c key (cv_value item) = true
  | _ => shaped cmd key value
  end.

(** [data] begins with the frame [f] of an acceptable request; [data] ends before a frame does. *)
Definition request_of (c : cache) (data f : bytes) (cmd : Command) (key : bytes) : Prop :=
  exists value, Message.encode cmd key value = Ret f /\ f `prefix_of` data /\ allowed c cmd key value.
Definition is_request (c : cache) (data : bytes) : Prop := exists f cmd key, request_of c data f cmd key.
Definition incomplete (data : bytes) : Prop :=
  zlen data < HEADER_SIZE \/
  exists cmd key value f, Message.encode cmd key value = Ret f /\ shaped cmd key value /\ data `prefix_of` f /\ zlen data < zlen f.

Lemma allowed_shaped c cmd key value : allowed c cmd key value -> shaped cmd key value.
Proof. by destruct cmd. Qed.
Lemma encode_zlen cmd key value f : Message.encode cmd key value = Ret f -> zlen f = Message.total (header_of cmd key value) /\ HEADER_SIZE <= zlen f.
Proof. intros [_ ->]%encode_Ret_inv. rewrite zlen_frame. pose proof (zlen_nonneg key). pose proof (zlen_nonneg value). split; [done|lia]. Qed.

(** The header in [data] is that of the frame, whichever of the two is longer. *)
Lemma header_seen cmd key value f data : Message.encode cmd key value = Ret f -> f `prefix_of` data \/ data `prefix_of` f -> HEADER_SIZE <= zlen data ->
  Message.decodeHeader data = Ret (header_of cmd key value) /\ Message.valid (header_of cmd key value) = true.
Proof.
  intros Hf Hp Hl. destruct (encode_zlen _ _ _ _ Hf) as [_ Hz]. apply encode_Ret_inv in Hf as [He Ef].
  pose proof (decodeHeader_frame cmd key value [] He) as Hd. rewrite app_nil_r, <-Ef in Hd. split; [|by apply header_of_valid].
  rewrite <-Hd. destruct Hp as [Hp|Hp]; [symmetry|]; by apply decodeHeader_prefix.
Qed.
(** Any data with a valid header belongs to a frame. *)
Lemma frame_around data h : HEADER_SIZE <= zlen data -> Message.decodeHeader data = Ret h -> Message.valid h = true -> header_ok h ->
  exists key value f, Message.encode (command_of (command h)) key value = Ret f /\ h = header_of (command_of (command h)) key value /\
    (Message.total h <= zlen data -> f `prefix_of` data) /\ (zlen data <= Message.total h -> data `prefix_of` f).
Proof.
  intros Hl Hd Hv Hok. pose proof (total_bounds h Hok Hv) as [Ht _].
  assert (exists f, zlen f = Message.total h /\ HEADER_SIZE <= zlen f /\ (Message.total h <= zlen data -> f `prefix_of` data) /\ (zlen data <= Message.total h -> data `prefix_of` f)) as (f & Hz & Hf & H1 & H2).
  { destruct (Z.le_ge_cases (Message.total h) (zlen data)) as [Hle|Hge].
    - exists (take (Z.to_nat (Message.total h)) data). assert (zlen (take (Z.to_nat (Message.total h)) data) = Message.total h) as E by (unfold zlen in *; rewrite length_take; unfold HEADER_SIZE in *; lia).
      split; [done|]. split; [lia|]. split; intros; [by exists (drop (Z.to_nat (Message.total h)) data); rewrite take_drop|].
      rewrite take_ge; [done|]. unfold zlen in *. lia.
    - exists (data ++ replicate (Z.to_nat (Message.total h - zlen data)) Byte.x00). assert (zlen (data ++ replicate (Z.to_nat (Message.total h - zlen data)) Byte.x00) = Message.total h) as E.
      { rewrite zlen_app. unfold zlen at 2. rewrite length_replicate. lia. }
      split; [done|]. split; [lia|]. split; intros; [|by eexists]. replace (Message.total h - zlen data) with 0 by lia. cbn. by rewrite app_nil_r. }
  assert (Message.decodeHeader f = Ret h) as Hdf.
  { rewrite <-Hd. destruct (Z.le_ge_cases (Message.total h) (zlen data)) as [Hle|Hge]; [|symmetry]; apply decodeHeader_prefix; auto. }
  pose proof (decode_encode_canonical f h Hdf Hv Hz) as He. exists (Message.body_key h f), (Message.body_value h f), f. split; [done|]. split; [|done].
  destruct (header_seen _ _ _ _ f He (or_introl (reflexivity f)) Hf) as [E _]. congruence.
Qed.

(** The service's check of a header, and what it means. *)
Definition refused (h : Header) : bool :=
  (negb (bool_decide (command_of (command h) = SET)) && negb (bool_decide (command_of (command h) = SET_TTL)) && negb (value_len h =? 0)) ||
  (bool_decide (command_of (command h) = STATS) && negb (key_len h =? 0)).
Lemma refused_shaped cmd key value f : Message.encode cmd key value = Ret f -> shaped cmd key value <-> refused (header_of cmd key value) = false.
Proof.
  intros [(Hu & _) _]%encode_Ret_inv. unfold refused, shaped. cbn [command key_len value_len header_of]. rewrite command_of_code.
  assert (forall b (x : bytes), (zlen (b :: x) =? 0) = false) as Hz by (intros b x; rewrite zlen_cons; pose proof (zlen_nonneg x); lia).
  destruct key as [|b key], value as [|b' value]; rewrite ?Hz; change (zlen [] =? 0) with true; destruct cmd; cbn; naive_solver.
Qed.

Lemma request_seen c data f cmd key value h : Message.encode cmd key value = Ret f -> f `prefix_of` data -> Message.decodeHeader data = Ret h ->
  h = header_of cmd key value /\ Message.valid h = true /\ command_of (command h) = cmd /\ Message.body_key h data = key /\ Message.body_value h data = value /\
  Message.total h = zlen f /\ zlen f <= zlen data /\ (allowed c cmd key value -> refused h = false).
Proof.
  intros Hf Hp Hd. destruct (encode_zlen _ _ _ _ Hf) as [Ez Hz]. assert (zlen f <= zlen data) as Hle by (apply prefix_length in Hp; unfold zlen; lia).
  destruct (header_seen _ _ _ _ data Hf (or_introl Hp) ltac:(lia)) as [Hd' Hv]. assert (h = header_of cmd key value) as -> by congruence.
  destruct Hp as [rest ->]. pose proof Hf as [_ Ef]%encode_Ret_inv. rewrite Ef at 1 2. rewrite body_key_frame, body_value_frame. cbn [command header_of]. rewrite command_of_code.
  split_and!; try done. intros Ha%allowed_shaped. by apply (refused_shaped _ _ _ _ Hf).
Qed.

Lemma not_request c data h : Message.decodeHeader data = Ret h ->
  refused h = true \/ Message.valid h = false \/ zlen data < Message.total h \/ ~ allowed c (command_of (command h)) (Message.body_key h data) (Message.body_value h data) ->
  ~ is_request c data.
Proof.
  intros Hd Hc (f & cmd & key & value & Hf & Hp & Ha). destruct (request_seen c data f cmd key value h Hf Hp Hd) as (Eh & Hv & Ec & Ek & Ev & Et & Hl & Hr).
  rewrite Ec, Ek, Ev, Et, Hv, (Hr Ha) in Hc. destruct Hc as [?|[?|[?|?]]]; done || lia.
Qed.
Lemma not_incomplete data h : HEADER_SIZE <= zlen data -> Message.decodeHeader data = Ret h ->
  refused h = true \/ Message.valid h = false \/ Message.total h <= zlen data -> ~ incomplete data.
Proof.
  intros Hl Hd Hc [?|(cmd & key & value & f & Hf & Hs & Hp & Hlt)]; [lia|]. destruct (header_seen _ _ _ _ data Hf (or_intror Hp) Hl) as [Hd' Hv].
  assert (h = header_of cmd key value) as -> by congruence. apply (refused_shaped _ _ _ _ Hf) in Hs. destruct (encode_zlen _ _ _ _ Hf) as [Ez _].
  rewrite Hv, Hs in Hc. destruct Hc as [?|[?|?]]; done || lia.
Qed.

(** The verdict on an input is its kind. *)
Lemma parse_input_kind c now data :
  match parse_input c now data with
  | Ret (Some (q, total, _)) => exists f, request_of c data f (q_command q) (q_key q) /\ total = zlen f
  | Ret None => incomplete data /\ ~ is_request c data
  | Throw _ => ~ incomplete data /\ ~ is_request c data
  | _ => False
  end.
Proof.
  unfold parse_input. destruct (Z.ltb_spec (zlen data) HEADER_SIZE) as [Hlt|Hl].
  { split; [by left|]. intros (f & cmd & key & value & Hf & Hp & _). apply encode_zlen in Hf as [_ Hf]. apply prefix_length in Hp. unfold zlen in *. lia. }
  destruct (decodeHeader_total data Hl) as (h & Hd & Hok & _). rewrite Hd, bind_Ret. unfold Message.validate.
  destruct (Message.valid h) eqn:Hv; [|split; [apply (not_incomplete data h)|apply (not_request c data h)]; auto]. rewrite bind_Ret. cbv zeta. fold (refused h).
  destruct (refused h) eqn:Er; [split; [apply (not_incomplete data h)|apply (not_request c data h)]; auto|].
  destruct (frame_around data h Hl Hd Hv Hok) as (key & value & f & Hf & Eh & H1 & H2). destruct (encode_zlen _ _ _ _ Hf) as [Ez _]. rewrite <-Eh in Ez.
  destruct (Z.ltb_spec (zlen data) (Message.total h)) as [Hlt|Hge].
  { split; [|apply (not_request c data h); auto]. right. exists (command_of (command h)), key, value, f. split; [done|]. split; [apply (refused_shaped _ _ _ _ Hf); congruence|].
    split; [apply H2|]; lia. }
  specialize (H1 Hge). destruct (request_seen c data f _ key value h Hf H1 Hd) as (_ & _ & _ & Ek & Ev & _). rewrite Ek, Ev.
  assert ((~ allowed c (command_of (command h)) key value) -> ~ incomplete data /\ ~ is_request c data) as Hbad.
  { intros Hno. split; [apply (not_incomplete data h); auto|apply (not_request c data h); [done|]]. right. right. right. by rewrite Ek, Ev. }
  assert (forall q, q_command q = command_of (command h) -> q_key q = key -> allowed c (command_of (command h)) key value ->
    exists f, request_of c data f (q_command q) (q_key q) /\ Message.total h = zlen f) as Hgood.
  { intros q -> -> Ha. exists f. split; [|done]. by exists value. }
  assert (shaped (command_of (command h)) key value) as Hs by (apply (refused_shaped _ _ _ _ Hf); congruence).
  destruct (command_of (command h)) eqn:Ec; try (apply Hgood; done).
  - destruct (_ || _)%bool eqn:Eg; [apply Hbad; intros [? Hc]; rewrite Hc in Eg; zify_bools; destruct Eg; done || lia|].
    apply orb_false_iff in Eg as [? ?]. zify_bools. by apply Hgood.
  - destruct (ParseFromString value) as [item|] eqn:Ep; [|apply Hbad; intros (i & Hi & _); congruence].
    destruct ((cv_ttl_ms item =? 0) || _)%bool eqn:Et; [apply Hbad; intros (i & Hi & ? & ? & _); assert (i = item) as -> by congruence; zify_bools; destruct Et; lia|].
    destruct ((MAX_VALUE_SIZE <? _) || _)%bool eqn:Eg; [apply Hbad; intros (i & Hi & _ & _ & ? & Hc); assert (i = item) as -> by congruence; rewrite Hc in Eg; zify_bools; destruct Eg; done || lia|].
    zify_bools. apply Hgood; [done|done|]. exists item. split_and!; done || lia.
Qed.

(** * The batch *)

(** A parsed input that takes no part in the batch, and two parses that differ at most in such inputs. *)
Definition inert (p : Request * Reply) : Prop := consumed p.2 = 0.
Definition alike (p p' : Request * Reply) : Prop := p = p' \/ inert p /\ inert p'.

Lemma apply_one_inert e i q r s : inert (q, r) -> apply_one e i q r s = (s, Ret r).
Proof. unfold inert, apply_one. cbn [snd]. by intros ->. Qed.

Lemma apply_from_alike e i l l' s : Forall2 alike l l' ->
  (apply_from e i l s).1 = (apply_from e i l' s).1 /\
  match (apply_from e i l s).2, (apply_from e i l' s).2 with
  | Ret rs, Ret rs' => forall n, l !! n = l' !! n -> rs !! n = rs' !! n
  | r, r' => r = r'
  end.
Proof.
  intros H. revert i s. induction H as [|[q r] [q' r'] l l' Hp _ IH]; intros i s; [done|]. cbn [apply_from]. unfold mbind, M_bind.
  assert ((apply_one e i q r s).1 = (apply_one e i q' r' s).1 /\
    match (apply_one e i q r s).2, (apply_one e i q' r' s).2 with Ret x, Ret y => (q, r) = (q', r') -> x = y | x, y => x = y end) as [H1 H2].
  { destruct Hp as [[= <- <-]|[Hi Hi']]; [destruct (apply_one e i q r s) as [? []]; done|].
    rewrite (apply_one_inert e i q r s Hi), (apply_one_inert e i q' r' s Hi'). split; [done|]. by intros [= _ <-]. }
  destruct (apply_one e i q r s) as [s1 o1], (apply_one e i q' r' s) as [s1' o1']. cbn [fst snd] in H1, H2. subst s1'.
  destruct o1 as [x|x| |], o1' as [y|y| |]; try done; try (by injection H2 as <-). destruct (IH (S i) s1) as [I1 I2].
  destruct (apply_from e (S i) l s1) as [s2 o2], (apply_from e (S i) l' s1) as [s2' o2']. cbn [fst snd] in I1, I2. subst s2'.
  destruct o2 as [rs|x'| |], o2' as [rs'|y'| |]; try done; try (by injection I2 as <-). split; [done|]. cbn. intros [|n]; cbn; [intros [= -> ->]; f_equal; by apply H2|apply I2].
Qed.

Lemma apply_from_replies e i l s s' rs : apply_from e i l s = (s', Ret rs) ->
  length rs = length l /\ forall n p, l !! n = Some p -> close p.2 = false \/ inert p ->
    if consumed p.2 =? 0 then rs !! n = Some p.2
    else exists b resp, rs !! n = Some (mkReply (consumed p.2) b false) /\ Message.encode (q_command p.1) (q_key p.1) resp = Ret b.
Proof.
  revert i s s' rs. induction l as [|[q r] l IH]; intros i s s' rs; cbn [apply_from]; [by intros [= _ <-]|].
  intros (s1 & r' & H1 & H)%M_bind_Ret. apply M_bind_Ret in H as (s2 & rest & H2 & H). injection H as _ <-. destruct (IH _ _ _ _ H2) as [Hl Hn].
  split; [cbn; by f_equal|]. intros [|n] p Hp Hc; [|by apply Hn]. injection Hp as <-. cbn [fst snd] in *. unfold inert in Hc. cbn [snd] in Hc. unfold apply_one in H1.
  destruct (consumed r =? 0) eqn:E; [by injection H1 as _ <-|]. zify_bools. destruct Hc as [Hc|Hc]; [|done]. rewrite Hc in H1. cbn in H1.
  apply M_bind_Ret in H1 as (s3 & resp & _ & H1). apply M_bind_Ret in H1 as (s4 & b & H1 & H3). injection H3 as _ <-.
  exists b, resp. split; [done|]. unfold lift in H1. by injection H1.
Qed.

Lemma verdict_inert c now data : ~ is_request c data ->
  (verdict c now data).2 = None /\ inert (verdict c now data).1 /\
  ((verdict c now data).1.2 = mkReply 0 [] false /\ incomplete data \/ (verdict c now data).1.2 = mkReply 0 [] true /\ ~ incomplete data).
Proof.
  intros Hno. pose proof (parse_input_kind c now data) as Hk. unfold verdict. destruct (parse_input c now data) as [[[[q total] mo]|]|x| |]; try done.
  - destruct Hk as (f & Hf & _). destruct Hno. by exists f, (q_command q), (q_key q).
  - split; [done|]. split; [done|]. left. by split; [|apply Hk].
  - split; [done|]. split; [done|]. right. by split; [|apply Hk].
Qed.
Lemma verdict_request c now data f cmd key : request_of c data f cmd key ->
  let v := (verdict c now data).1 in v.2 = mkReply (zlen f) [] false /\ q_command v.1 = cmd /\ q_key v.1 = key /\ 0 < zlen f.
Proof.
  intros Hr. pose proof (parse_input_kind c now data) as Hk. assert (is_request c data) as His by (by exists f, cmd, key).
  unfold verdict. destruct (parse_input c now data) as [[[[q total] mo]|]|x| |]; [|by destruct Hk..]. destruct Hk as (f' & (value' & Hf' & Hp' & _) & ->).
  destruct Hr as (value & Hf & Hp & _). destruct (encode_zlen _ _ _ _ Hf) as [_ Hz].
  assert (HEADER_SIZE <= zlen data) as Hl by (apply prefix_length in Hp; unfold zlen in *; lia). destruct (decodeHeader_total data Hl) as (h & Hd & _).
  destruct (request_seen c data f cmd key value h Hf Hp Hd) as (_ & _ & E1 & E2 & _ & E3 & _). destruct (request_seen c data f' _ _ value' h Hf' Hp' Hd) as (_ & _ & E1' & E2' & _ & E3' & _).
  cbn. unfold HEADER_SIZE in Hz. split; [f_equal; congruence|]. split; [congruence|]. split; [congruence|lia].
Qed.

Lemma verdicts_alike c clock inputs inputs' :
  Forall2 (fun a b => a = b \/ ~ is_request c a /\ ~ is_request c b) inputs inputs' ->
  Forall2 alike (verdicts c clock inputs).*1 (verdicts c clock inputs').*1 /\ muts (verdicts c clock inputs) = muts (verdicts c clock inputs').
Proof.
  intros H. revert clock. induction H as [|a b inputs inputs' Hab _ IH]; intros clock; [done|]. unfold verdicts. rewrite !imap_cons. destruct (IH (fun n => clock (S n))) as [H1 H2].
  rewrite !muts_cons, !fmap_cons. unfold verdicts in H1, H2. unfold compose. rewrite H2. destruct Hab as [<-|[Ha Hb]]; [split; [constructor; [by left|done]|done]|].
  destruct (verdict_inert c (clock O) a Ha) as (E1 & I1 & _), (verdict_inert c (clock O) b Hb) as (E2 & I2 & _). rewrite E1, E2. split; [constructor; [by right|done]|done].
Qed.

(** The batch after parsing. *)
Definition apply_batch (e : env) (s : service) (ms : list Mutation) (m : M service (list Reply)) : M service (list Reply) :=
  try_catch
    (need ← lift (needsRewrite (log_ (aof_ s)) ms);
     _ ← (if need : bool then CompactLocked e else mret tt);
     _ ← on_aof (logBatch (sync_time e) ms);
     m)
    (fun x => if bool_decide (x = AofCapacityError) then throw x else _ ← set_failed; throw x).

Lemma HandleBatch_parsed e inputs s : clock_ok (now_parse e) -> CacheService.failed_ s = false ->
  let vs := verdicts (cache_ s) (now_parse e) inputs in HandleBatch e inputs s = apply_batch e s (muts vs) (apply_from e O vs.*1) s.
Proof.
  intros Hc Hf. unfold HandleBatch. rewrite (M_bind_run get_state _ _ _ _ eq_refl), Hf. rewrite (lift_bind_Ret _ _ _ _ (parse_from_verdicts _ _ O inputs Hc)). done.
Qed.

(** The last step decides alone between two runs of the batch. *)
Lemma apply_batch_cases e s ms m m' :
  (apply_batch e s ms m s = apply_batch e s ms m' s /\ forall r, (apply_batch e s ms m s).2 <> Ret r) \/
  exists s1, forall k : M service (list Reply), k = m \/ k = m' -> apply_batch e s ms k s =
    match k s1 with (s2, Throw x) => (if bool_decide (x = AofCapacityError) then throw x else _ ← set_failed; throw x) s2 | r => r end.
Proof.
  unfold apply_batch, try_catch, mbind, M_bind. destruct (lift (needsRewrite (log_ (aof_ s)) ms) s) as [s1 [need|x| |]]; [|left; split; [done|]; intros r; by destruct (bool_decide _)|by left..].
  destruct ((if need then CompactLocked e else mret tt) s1) as [s2 [u|x| |]]; [|left; split; [done|]; intros r; by destruct (bool_decide _)|by left..].
  destruct (on_aof (logBatch (sync_time e) ms) s2) as [s3 [u'|x| |]]; [|left; split; [done|]; intros r; by destruct (bool_decide _)|by left..].
  right. exists s3. intros k _. by destruct (k s3) as [s4 []].
Qed.

Lemma verdicts_lookup c clock inputs n data : inputs !! n = Some data -> (verdicts c clock inputs).*1 !! n = Some (verdict c (clock n) data).1.
Proof. intros H. unfold verdicts. by rewrite list_lookup_fmap, list_lookup_imap, H. Qed.
Lemma verdicts_same c clock inputs inputs' n : inputs !! n = inputs' !! n -> (verdicts c clock inputs).*1 !! n = (verdicts c clock inputs').*1 !! n.
Proof. intros H. unfold verdicts. by rewrite !list_lookup_fmap, !list_lookup_imap, H. Qed.

(** What each input of a batch is answered. *)
Lemma replies_by_kind e c i inputs s s' replies : apply_from e i (verdicts c (now_parse e) inputs).*1 s = (s', Ret replies) ->
  length replies = length inputs /\ forall n data, inputs !! n = Some data ->
    (forall f cmd key, request_of c data f cmd key -> exists b resp, replies !! n = Some (mkReply (zlen f) b false) /\ Message.encode cmd key resp = Ret b) /\
    (~ is_request c data -> replies !! n = Some (mkReply 0 [] false) /\ incomplete data \/ replies !! n = Some (mkReply 0 [] true) /\ ~ incomplete data).
Proof.
  intros (Hl & Hn)%apply_from_replies. split; [rewrite Hl; unfold verdicts; by rewrite length_fmap, length_imap|]. intros n data Hd. specialize (Hn n _ (verdicts_lookup c _ _ n data Hd)). split.
  - intros f cmd key Hr. destruct (verdict_request c (now_parse e n) data f cmd key Hr) as (E & <- & <- & Hz). rewrite E in Hn. cbn [close consumed] in Hn.
    rewrite (proj2 (Z.eqb_neq _ _)) in Hn by lia. apply Hn. by left.
  - intros Hno. destruct (verdict_inert c (now_parse e n) data Hno) as (_ & Hi & Hc). specialize (Hn (or_intror Hi)). rewrite Hi in Hn.
    rewrite Hn. destruct Hc as [[-> ?]|[-> ?]]; [left|right]; done.
Qed.

(** C34. Inputs that are not requests leave no trace on their batch.  By the format on the wire, an input begins with a request
    the service accepts, or ends before a frame is complete, or is neither.  Replacing inputs that are not requests by other such
    inputs (another client's garbage, half a frame, nothing) changes neither the state that the service is left in, nor whether the
    batch fails, nor the reply to any other input.  When the batch is answered, there is one reply for each input: a request is
    consumed exactly and answered with a frame of its own command and key, an incomplete input is left pending, and any
    other closes its own connection. *)
Theorem HandleBatch_isolates_inputs e inputs inputs' s :
  clock_ok (now_parse e) ->
  Forall2 (fun a b => a = b \/ ~ is_request (cache_ s) a /\ ~ is_request (cache_ s) b) inputs inputs' ->
  (HandleBatch e inputs s).1 = (HandleBatch e inputs' s).1 /\
  match (HandleBatch e inputs s).2, (HandleBatch e inputs' s).2 with
  | Ret replies, Ret replies' =>
      (forall n, inputs !! n = inputs' !! n -> replies !! n = replies' !! n) /\
      length replies = length inputs /\
      forall n data, inputs !! n = Some data ->
        (forall f cmd key, request_of (cache_ s) data f cmd key ->
           exists b resp, replies !! n = Some (mkReply (zlen f) b false) /\ Message.encode cmd key resp = Ret b) /\
        (~ is_request (cache_ s) data ->
           replies !! n = Some (mkReply 0 [] false) /\ incomplete data \/ replies !! n = Some (mkReply 0 [] true) /\ ~ incomplete data)
  | r, r' => r = r'
  end.
Proof.
  intros Hc Hab. destruct (CacheService.failed_ s) eqn:Ef.
  { unfold HandleBatch. rewrite !(M_bind_run get_state _ _ _ _ eq_refl), Ef. done. }
  rewrite !HandleBatch_parsed by done. cbv zeta. destruct (verdicts_alike _ (now_parse e) _ _ Hab) as [Ha <-].
  destruct (apply_batch_cases e s (muts (verdicts (cache_ s) (now_parse e) inputs)) (apply_from e O (verdicts (cache_ s) (now_parse e) inputs).*1)
    (apply_from e O (verdicts (cache_ s) (now_parse e) inputs').*1)) as [[<- Hno]|[s1 Hk]].
  { split; [done|]. destruct (apply_batch _ _ _ _ s).2 as [r| | |] eqn:E; try done. by destruct (Hno r). }
  rewrite !Hk by auto. destruct (apply_from_alike e O _ _ s1 Ha) as [H1 H2].
  destruct (apply_from e O (verdicts (cache_ s) (now_parse e) inputs).*1 s1) as [s2 o] eqn:E, (apply_from e O (verdicts (cache_ s) (now_parse e) inputs').*1 s1) as [s2' o'].
  cbn [fst snd] in H1, H2. subst s2'. destruct o as [rs|x| |], o' as [rs'|x'| |]; try done.
  - split; [done|]. cbn [snd]. destruct (replies_by_kind e _ O inputs s1 s2 rs E) as [Hl Hn]. split; [|done]. intros n Hs. apply H2. by apply verdicts_same.
  - injection H2 as <-. split; [done|]. by destruct (bool_decide _).
Qed.
End Inputs.
