(* ===== verification/ServiceRecovery.v ===== *)
(** Restart of [kvcache::CacheService]: the constructor rebuilds a cache that agrees with the log,
    and a crash at any point of a batch followed by a restart loses nothing that was acknowledged
    and shows nothing that was not requested. *)
From S2P Require Import Prelude KvProtocol TcpServer LruCache ShardedCache Disk Aof AofLog AofDurability CacheService ServiceHistory ServiceCorrectness.

Section Recovery.
Context {layout : Layout} {hashB : Hash bytes} {codec : CacheValueCodec} {laws : CodecLaws codec}.
Abbreviation cache := (@ShardedCache.sharded bytes bytes _ _).

(** * Replaying into a cache *)

Lemma put_Ret_canStore (now : Z) (mem : LruCache.memory) (k v : bytes) (ex : Z) (c c' : cache) (u : unit) :
  ShardedCache.put now mem k v ex c = (c', Ret u) -> ShardedCache.canStore c k v = true.
Proof.
  unfold ShardedCache.put, ShardedCache.on_shard, ShardedCache.canStore.
  destruct (ShardedCache.shards_ c !! _) as [x|]; [|done]. unfold LruCache.put, LruCache.canStore, mbind, M_bind, get_state.
  destruct (Z.ltb_spec (LruCache.max_bytes_ x) (LruCache.entry_cost k v)); [done|]. intros _. lia.
Qed.

(** One replayed record moves the cache as its mutation says. *)
Lemma replay_record_Ret clock mem m c i c' i' u :
  modest m -> ShardedCache.Inv c -> fits c -> replay_record clock mem m (c, i) = ((c', i'), Ret u) ->
  ShardedCache.Inv c' /\ fits c' /\ forall T H, agrees T H c -> agrees T (H ++ [m]) c'.
Proof.
  intros [Hk Hm] Hi Hf. set (s := mkService c (mkAof (mkAofLogger 0 0 0 false false (mkAofStats 0 0 0 0 0)) (mkOs [] (mkDisk empty_file [] None 0) [])) false None).
  assert (applicable c (cache_ s)) as Ha by (by split_and!).
  assert (forall v ex r, meaning m = Some (v, ex) -> ShardedCache.put (clock i) (mem i) (m_key m) v ex c = (c', Ret r) ->
    ShardedCache.Inv c' /\ fits c' /\ forall T H, agrees T H c -> agrees T (H ++ [m]) c') as Hput.
  { intros v ex r Hmv Ep. destruct (Hm v ex Hmv). pose proof (put_Ret_canStore _ _ _ _ _ _ _ _ Ep) as Hst.
    destruct (put_applied c (clock i) (mem i) m v ex s (mkService c' (aof_ s) false None) r Ha) as (c1 & [= <-] & (? & _ & ?) & ?); try done.
    unfold on_cache, s. cbn [cache_]. by rewrite Ep. }
  assert (forall x, ShardedCache.remove (m_key m) c = (c', Ret x) -> meaning m = None ->
    ShardedCache.Inv c' /\ fits c' /\ forall T H, agrees T H c -> agrees T (H ++ [m]) c') as Hrem.
  { intros x Er Hmn. destruct (ShardedCache.remove_view (m_key m) c Hi) as (c1 & Er' & Hi' & _ & Hv). rewrite Er in Er'. injection Er' as <- _.
    split; [done|]. split; [eapply fits_shrink; [done|]; intros k' y; rewrite Hv; by case_decide|].
    intros T H Hag. eapply agrees_write; [done| |]; intros k'; rewrite Hv; case_decide; try done; by left. }
  unfold replay_record, meaning in *. destruct (m_command m) eqn:Ec.
  1: destruct (ShardedCache.put _ _ _ _ _ c) as [c1 [r| | |]] eqn:Ep; try done; intros [= <- _ _]; eauto.
  5: { destruct (ParseFromString (m_value m)) as [item|]; [|done]. destruct (cv_expires_unix_ms item =? 0); [done|].
       destruct (ShardedCache.put _ _ _ _ _ c) as [c1 [r| | |]] eqn:Ep; try done. intros [= <- _ _]. by eapply Hput. }
  all: destruct (ShardedCache.remove (m_key m) c) as [c1 [r| | |]] eqn:Er; try done; intros [= <- _ _]; eauto.
Qed.

Lemma run_all_replay clock mem T ms H c i c' i' u :
  Forall modest ms -> ShardedCache.Inv c -> fits c -> agrees T H c ->
  run_all (replay_record clock mem) ms (c, i) = ((c', i'), Ret u) ->
  ShardedCache.Inv c' /\ fits c' /\ agrees T (H ++ ms) c'.
Proof.
  intros Hms. revert H c i. induction Hms as [|m ms Hm _ IH]; intros H c i Hi Hf Ha E.
  { injection E as <- _ _. by rewrite app_nil_r. }
  cbn [run_all] in E. apply M_bind_Ret in E as ([c1 i1] & x & E1 & E).
  destruct (replay_record_Ret _ _ _ _ _ _ _ _ Hm Hi Hf E1) as (Hi1 & Hf1 & Ha1).
  change (m :: ms) with ([m] ++ ms). rewrite app_assoc. eapply IH; eauto.
Qed.

(** * The constructor *)

Definition sizes_ok (capacity shards max_aof_bytes max_cache_bytes : Z) : Prop :=
  0 < capacity < 2 ^ 64 /\ 0 < shards < 2 ^ 64 /\ max_aof_bytes < 2 ^ 64 /\ Z.min capacity shards <= max_cache_bytes < 2 ^ 63.

Lemma empty_agrees (T : Z) (c : cache) : (forall k, ShardedCache.view c k = None) -> agrees T [] c /\ fits c.
Proof. intros Hv. split; intros k x; by rewrite Hv. Qed.

Lemma make_view (capacity shards max_cache : Z) (c : cache) (k : bytes) :
  sizes_ok capacity shards 0 max_cache -> ShardedCache.make capacity shards max_cache = Ret c ->
  ShardedCache.view c k = None.
Proof.
  intros (Hc & Hs & _ & Hm) E. destruct (ShardedCache.make_run capacity shards max_cache) as (c' & E' & _ & _ & _ & _ & Hf); [done|done|lia|].
  rewrite E in E'. injection E' as <-. unfold ShardedCache.view.
  destruct (ShardedCache.shards_ c !! ShardedCache.shard_index c k) as [x|] eqn:Ex; [|done]. cbn.
  apply (Forall_lookup_1 _ _ _ _ Hf) in Ex as (_ & -> & _). done.
Qed.

(** A service that comes up has read its whole file, and agrees with it. *)
Lemma construct_Ret clock mem capacity shards max_aof max_cache regular o o' s b T :
  sizes_ok capacity shards max_aof max_cache -> linked (dsk o) = mkFile b [] -> Forall modest (log_records b).1 ->
  construct clock mem capacity shards max_aof max_cache regular o = (o', Ret s) ->
  (log_records b).2 = Ret tt /\ Healthy (log_records b).1 T s /\ os_ (aof_ s) = o'.
Proof.
  intros Hsz Hlk Hmod E. unfold construct in E. apply M_bind_Ret in E as (o0 & c & [= <- Ec] & E).
  apply M_bind_Ret in E as (o1 & l & El & E). apply open_log_Ret in El as (-> & Hle & _ & Hlk1 & Hsh1). rewrite Hlk in *.
  unfold content in *. cbn [synced unsynced] in *. rewrite app_nil_r in *.
  unfold recover in E. set (l := mkAofLogger _ _ _ _ _ _) in E.
  destruct (replay (replay_record clock mem) l (o1, (c, O))) as [[o2 [c' i']] r] eqn:Er. destruct r as [[]| | |]; try done. injection E as <- <-.
  apply replay_sound in Er as (Hp & Hlk2 & Hsh2 & _).
  2: { rewrite Hlk1. unfold content. cbn. by rewrite app_nil_r. }
  rewrite Hlk1 in Hp, Hlk2. unfold content in Hp. cbn [synced unsynced] in Hp. rewrite app_nil_r in Hp.
  unfold play in Hp. apply M_bind_Ret in Hp as ([c1 i1] & u & Hrun & [= -> -> Hend]). split; [done|]. split; [|done].
  assert (sizes_ok capacity shards 0 max_cache) as Hsz0 by (destruct Hsz as (? & ? & _ & ?); unfold sizes_ok; lia).
  destruct (empty_agrees T c (fun k => make_view _ _ _ _ k Hsz0 Ec)) as [Ha Hf].
  destruct Hsz as (Hcap & Hshards & Hmaof & Hmc).
  destruct (run_all_replay clock mem T _ [] c O c' i' u Hmod) as (Hi' & Hf' & Ha'); [|done|done|done|].
  { by apply (ShardedCache.make_Inv capacity shards max_cache). }
  pose proof (zlen_nonneg b). unfold Healthy, Durable, sane. cbn [aof_ cache_ CacheService.failed_ start on_log fst log_ os_].
  rewrite Hlk2, Hsh2, Hsh1. cbn [synced unsynced l bytes_ rewritten_at_ max_bytes_ started_ set_started Aof.failed_].
  split_and!; try done; try lia. by destruct (log_records b); simpl in *; subst.
Qed.

(** * Crashes during a batch *)

(** What a crash may leave: a base history and some leading part of the batch. *)
Definition crash_history (H : list Mutation) (e : env) (s : service) (ms : list Mutation) (x : list Mutation * outcome unit) : Prop :=
  exists H0 k, base H e s H0 /\ x.1 = H0 ++ take k ms.

Lemma CompactLocked_through H T e s s' r ms :
  Healthy H T s -> zlen (frames (snapshot_log (now_snap e) (cache_ s))) < 2 ^ 64 -> CompactLocked e s = (s', r) ->
  through (survives (crash_history H e s ms)) (os_ (aof_ s)) (os_ (aof_ s')).
Proof.
  intros (Hf & Hi & Hfit & HD & Hst & Ha & Hmod) Hz E. unfold CompactLocked, get_state in E. rewrite (M_bind_run _ _ _ s s) in E by done.
  rewrite on_aof_run in E. fold (snapshot_log (now_snap e) (cache_ s)) in E.
  destruct (rewrite (snapshot_log (now_snap e) (cache_ s)) (aof_ s)) as [a' r'] eqn:Er. injection E as <- <-. cbn [aof_].
  eapply through_weaken; [|by eapply rewrite_survives]. intros d Hd c Hc.
  destruct (Hd c Hc) as [-> | ->]; [exists H, O|exists (snapshot_log (now_snap e) (cache_ s)), O]; rewrite take_0, app_nil_r; split; auto; [by left|by right].
Qed.

Lemma log_phase_through H T e ms s s' r :
  Healthy H T s -> zlen (frames ms) < 2 ^ 64 -> zlen (frames (snapshot_log (now_snap e) (cache_ s))) < 2 ^ 64 ->
  log_phase e (log_ (aof_ s)) ms s = (s', r) ->
  through (survives (crash_history H e s ms)) (os_ (aof_ s)) (os_ (aof_ s')).
Proof.
  intros HH Hz Hzs E. pose proof HH as (Hf & Hi & Hfit & HD & Hst & Ha & Hmod). unfold log_phase in E.
  destruct (needsRewrite_cases (log_ (aof_ s)) ms) as [[need Hn]|[Hn|Hn]].
  2, 3: rewrite (lift_bind_Throw _ _ _ _ Hn) in E; injection E as <- <-; apply through_refl.
  rewrite (lift_bind_Ret _ _ _ _ Hn) in E.
  assert (forall a1 H0 s1 r1, base H e s H0 -> Durable H0 a1 -> started_ (log_ a1) = true ->
    on_aof (logBatch (sync_time e) ms) (mkService (cache_ s) a1 (CacheService.failed_ s) (metrics_ s)) = (s1, r1) ->
    through (survives (crash_history H e s ms)) (os_ a1) (os_ (aof_ s1))) as Hlog.
  { intros a1 H0 s1 r1 Hb HD1 Hs1 E1. rewrite on_aof_run in E1. cbn [aof_ cache_ CacheService.failed_ metrics_] in E1.
    destruct (logBatch (sync_time e) ms a1) as [a' r'] eqn:El. injection E1 as <- <-. cbn [aof_].
    eapply through_weaken; [|exact (logBatch_survives _ _ _ _ _ _ HD1 Hs1 Hz El)]. intros d Hd c Hc. destruct (Hd c Hc) as (k & Hk & _). exists H0, k. done. }
  destruct need.
  - unfold mbind, M_bind in E. destruct (CompactLocked e s) as [s1 r1] eqn:Ec.
    pose proof (CompactLocked_through H T e s s1 r1 ms HH Hzs Ec) as Ht.
    destruct (CompactLocked_cases H T e s s1 r1 HH Hzs Ec) as (a1 & -> & Hr). destruct r1 as [[]|x| |]; try (by injection E as <- <-).
    destruct Hr as [HD1 Hl1]. eapply through_trans; [exact Ht|]. eapply (Hlog a1 _ s' r); [by right|exact HD1|by rewrite Hl1|done].
  - rewrite (M_bind_run _ _ _ s tt) in E by done. eapply (Hlog (aof_ s) H); [by left|done|done|]. by destruct s.
Qed.

(** The log is only touched by the log phase. *)
Lemma HandleBatch_aof H T e inputs s s' r :
  Healthy H T s -> in_range e inputs s -> HandleBatch e inputs s = (s', r) ->
  exists s1 r1, log_phase e (log_ (aof_ s)) (muts (verdicts (cache_ s) (now_parse e) inputs)) s = (s1, r1) /\ aof_ s' = aof_ s1.
Proof.
  intros (Hf & _) (Hclk & _) E. unfold HandleBatch, get_state in E. rewrite (M_bind_run _ _ _ s s) in E by done. rewrite Hf in E.
  rewrite (lift_bind_Ret _ _ _ _ (parse_from_verdicts (cache_ s) (now_parse e) O inputs Hclk)) in E.
  change (verdicts (cache_ s) (fun n => now_parse e (0 + n)%nat) inputs) with (verdicts (cache_ s) (now_parse e) inputs) in E.
  set (vs := verdicts (cache_ s) (now_parse e) inputs) in *. pose proof (apply_from_aof e O vs.*1) as Hk.
  unfold try_catch, log_phase, mbind, M_bind, lift in *.
  destruct (needsRewrite (log_ (aof_ s)) (muts vs)) as [need|x| |]; [|eexists _, _; split; [done|]..].
  2: destruct (bool_decide _); by injection E as <- _.
  2, 3: by injection E as <- _.
  destruct ((if need then CompactLocked e else mret tt) s) as [s1 [[]|x| |]]; [|eexists _, _; split; [done|]..].
  2: destruct (bool_decide _); by injection E as <- _.
  2, 3: by injection E as <- _.
  destruct (on_aof (logBatch (sync_time e) (muts vs)) s1) as [s2 [[]|x| |]]; eexists _, _; split; try done.
  2: destruct (bool_decide _); by injection E as <- _.
  2, 3: by injection E as <- _.
  specialize (Hk s2). destruct (apply_from e O vs.*1 s2) as [s3 [l|x| |]]; cbn in Hk.
  2: destruct (bool_decide _); by injection E as <- _.
  all: by injection E as <- _.
Qed.

(** * A write followed by a read *)

Lemma HandleBatch_run e inputs s s1 s2 replies :
  CacheService.failed_ s = false -> clock_ok (now_parse e) ->
  log_phase e (log_ (aof_ s)) (muts (verdicts (cache_ s) (now_parse e) inputs)) s = (s1, Ret tt) ->
  apply_from e O (verdicts (cache_ s) (now_parse e) inputs).*1 s1 = (s2, Ret replies) ->
  HandleBatch e inputs s = (s2, Ret replies).
Proof.
  intros Hf Hclk El Ea. unfold HandleBatch, get_state. rewrite (M_bind_run _ _ _ s s) by done. rewrite Hf.
  rewrite (lift_bind_Ret _ _ _ _ (parse_from_verdicts (cache_ s) (now_parse e) O inputs Hclk)).
  change (verdicts (cache_ s) (fun n => now_parse e (0 + n)%nat) inputs) with (verdicts (cache_ s) (now_parse e) inputs).
  set (vs := verdicts (cache_ s) (now_parse e) inputs) in *. unfold try_catch, log_phase, mbind, M_bind, lift in *.
  destruct (needsRewrite (log_ (aof_ s)) (muts vs)) as [need| | |]; try done.
  destruct ((if need then CompactLocked e else mret tt) s) as [s' [[]| | |]]; try done.
  rewrite El, Ea. done.
Qed.

Lemma Handle_one e data s s' r :
  HandleBatch e [data] s = (s', Ret [r]) -> close r = false -> Handle e data s = (s', Ret (consumed r, r_bytes r)).
Proof. intros E Hc. unfold Handle. rewrite (M_bind_run _ _ _ _ _ E). by rewrite Hc. Qed.

Lemma verdict_set c now key v data :
  Message.encode SET key v = Ret data -> zlen v <= MAX_VALUE_SIZE -> ShardedCache.canStore c key v = true ->
  verdict c now data = ((mkRequest SET key v 0, mkReply (zlen data) [] false), Some (mkMutation SET key v)).
Proof.
  intros [He ->]%encode_Ret_inv Hv Hst. unfold verdict, parse_input. pose proof (zlen_nonneg key). pose proof (zlen_nonneg v).
  rewrite zlen_frame, (proj2 (Z.ltb_ge _ _)) by lia.
  rewrite <-(app_nil_r (header_bytes _ ++ _)). rewrite decodeHeader_frame, bind_Ret by done.
  unfold Message.validate. rewrite header_of_valid, bind_Ret by done. cbv zeta.
  rewrite body_key_frame, body_value_frame. unfold Message.total, header_of. cbn [command key_len value_len].
  rewrite command_of_code, Z.ltb_irrefl. cbn. rewrite (proj2 (Z.ltb_ge _ _)), Hst by done. done.
Qed.

Lemma needsRewrite_room l m :
  loggable m -> sane l -> bytes_ l + zlen (frames [m]) <= max_bytes_ l / 2 -> needsRewrite l [m] = Ret false.
Proof.
  intros Hl [Hrw Hmax] Hroom. pose proof (zlen_nonneg (frames [m])). assert (max_bytes_ l / 2 <= max_bytes_ l) by (apply Z.div_le_upper_bound; lia).
  unfold needsRewrite. rewrite bool_decide_false by done. rewrite Size_Ret by (by constructor). rewrite bind_Ret.
  rewrite !(u64_small (zlen _)), !(u64_small (max_bytes_ l - bytes_ l)) by lia.
  rewrite (proj2 (Z.ltb_ge _ _)), (proj2 (Z.ltb_ge (max_bytes_ l / 2) _)) by lia. done.
Qed.

Lemma apply_one_pair e i q total s s1 resp b :
  HEADER_SIZE <= total -> respond (now_apply e i) (allocation e i) i q s = (s1, Ret resp) ->
  Message.encode (q_command q) (q_key q) resp = Ret b ->
  apply_from e i [(q, mkReply total [] false)] s = (s1, Ret [mkReply total b false]).
Proof.
  intros Ht Er Eb. unfold HEADER_SIZE in Ht. cbn [apply_from]. unfold apply_one. cbn [consumed close].
  rewrite (proj2 (Z.eqb_neq _ _)) by lia. cbn [orb]. unfold mbind, M_bind. rewrite Er. unfold lift. by rewrite Eb.
Qed.

Lemma zlen_encoded c key v data : Message.encode c key v = Ret data -> HEADER_SIZE <= zlen data.
Proof.
  intros [_ ->]%encode_Ret_inv. rewrite zlen_frame. pose proof (zlen_nonneg key). pose proof (zlen_nonneg v). lia.
Qed.

(** Storing a value that fits, on a log with room and a kernel that makes progress. *)
Lemma Handle_set_run H T e s key v data :
  Healthy H T s -> clock_ok (now_parse e) -> allocation e O = LruCache.Ample ->
  Message.encode SET key v = Ret data -> zlen v <= MAX_VALUE_SIZE -> ShardedCache.canStore (cache_ s) key v = true ->
  bytes_ (log_ (aof_ s)) + zlen (frames [mkMutation SET key v]) <= max_bytes_ (log_ (aof_ s)) / 2 ->
  ready (length (frames [mkMutation SET key v]) + 1) (replies (os_ (aof_ s))) ->
  exists s1 b, Handle e data s = (s1, Ret (zlen data, b)) /\ Message.encode SET key [] = Ret b /\
    CacheService.failed_ s1 = false /\ ShardedCache.Inv (cache_ s1) /\
    ShardedCache.view (cache_ s1) key = Some (LruCache.mkEntry key v 0 (LruCache.entry_cost key v)).
Proof.
  intros HH Hclk Hal Henc Hv Hst Hroom Hk. pose proof HH as (Hf & Hi & Hfit & (Hff & Hsane & _) & Hstart & _).
  set (m := mkMutation SET key v) in *. pose proof (encode_Ret_inv _ _ _ _ Henc) as [(Hne & Hkey & Hval) _].
  assert (loggable m) as Hl by (split_and!; [by left|done|done|done]).
  assert (max_bytes_ (log_ (aof_ s)) / 2 <= max_bytes_ (log_ (aof_ s))) as Hh by (apply Z.div_le_upper_bound; destruct Hsane; lia).
  destruct (logBatch_run (sync_time e) [m] (aof_ s)) as (a1 & El & _); [done|by constructor|done|done|done|lia|done|].
  assert (verdicts (cache_ s) (now_parse e) [data] = [((mkRequest SET key v 0, mkReply (zlen data) [] false), Some m)]) as Hvs.
  { unfold verdicts. cbn. f_equal. by apply verdict_set. }
  set (s0 := mkService (cache_ s) a1 (CacheService.failed_ s) (metrics_ s)).
  destruct (ShardedCache.put_view (now_apply e O) key v 0 (cache_ s) Hi Hst) as (c1 & Hp & Hi1 & _ & Hvk & _).
  set (s1 := mkService c1 a1 (CacheService.failed_ s) (metrics_ s)).
  assert (encodable SET key []) as He by (split_and!; [done|done|by vm_compute]).
  pose proof (encode_Ret _ _ _ He) as Hb. set (b := header_bytes _ ++ _) in Hb.
  exists s1, b. split; [|split_and!; [done|done|done|exact Hvk]].
  apply (Handle_one e data s s1 (mkReply (zlen data) b false)); [|done]. apply (HandleBatch_run e [data] s s0); [done|done|rewrite Hvs|rewrite Hvs].
  - change (muts _) with [m]. unfold log_phase. rewrite (lift_bind_Ret _ _ _ _ (needsRewrite_room _ _ Hl Hsane Hroom)).
    rewrite (M_bind_run _ _ _ s tt) by done. rewrite on_aof_run, El. done.
  - apply (apply_one_pair e O _ _ _ s1 []); [by eapply zlen_encoded| |done].
    unfold respond. cbn [q_command q_key q_value q_expires]. unfold mbind, M_bind. rewrite on_cache_run, Hal. cbn [cache_ s0]. by rewrite Hp.
Qed.

(** Reading a live entry. *)
Lemma Handle_get_run e s key v data :
  CacheService.failed_ s = false -> ShardedCache.Inv (cache_ s) -> clock_ok (now_parse e) -> zlen v <= MAX_VALUE_SIZE ->
  ShardedCache.view (cache_ s) key = Some (LruCache.mkEntry key v 0 (LruCache.entry_cost key v)) ->
  Message.encode GET key [] = Ret data ->
  exists s1 b, Handle e data s = (s1, Ret (zlen data, b)) /\ Message.encode GET key v = Ret b.
Proof.
  intros Hf Hi Hclk Hv Hvk Henc. pose proof (encode_Ret_inv _ _ _ _ Henc) as [(_ & Hkey & _) _].
  assert (verdicts (cache_ s) (now_parse e) [data] = [((mkRequest GET key [] 0, mkReply (zlen data) [] false), None)]) as Hvs.
  { unfold verdicts. cbn. f_equal. apply verdict_read; [by left|done]. }
  destruct (ShardedCache.get_view (now_apply e O) key (cache_ s) Hi) as (c1 & Hg & _). rewrite Hvk in Hg. cbn in Hg.
  assert (encodable GET key v) as He by (split_and!; [done|done|unfold MAX_WIRE_VALUE_SIZE; lia]).
  pose proof (encode_Ret _ _ _ He) as Hb. set (b := header_bytes _ ++ _) in Hb.
  set (s1 := mkService c1 (aof_ s) (CacheService.failed_ s) (metrics_ s)). exists s1, b. split; [|done].
  apply (Handle_one e data s s1 (mkReply (zlen data) b false)); [|done]. apply (HandleBatch_run e [data] s s); [done|done|rewrite Hvs|rewrite Hvs].
  - unfold log_phase. change (muts _) with (@nil Mutation). rewrite (M_bind_run _ _ _ s false), (M_bind_run _ _ _ s tt) by done.
    rewrite on_aof_run. cbn. by destruct s.
  - apply (apply_one_pair e O _ _ _ s1 v); [by eapply zlen_encoded| |done].
    unfold respond. cbn [q_command q_key]. unfold mbind, M_bind. by rewrite on_cache_run, Hg.
Qed.

(** * Properties *)

(** C24. Recovery is sound: whatever the kernel answers, a service that comes up has read its
    log to the end, and starts healthy on exactly the history the file holds. *)
Theorem construct_recovers clock mem capacity shards max_aof max_cache regular o o' s b T :
  sizes_ok capacity shards max_aof max_cache -> linked (dsk o) = mkFile b [] -> Forall modest (log_records b).1 ->
  construct clock mem capacity shards max_aof max_cache regular o = (o', Ret s) ->
  (log_records b).2 = Ret tt /\ Healthy (log_records b).1 T s.
Proof. intros Hsz Hl Hm E. by destruct (construct_Ret _ _ _ _ _ _ _ _ _ _ _ T Hsz Hl Hm E) as (? & ? & _). Qed.

(** C1. Crash and restart, end to end: take any batch, any kernel behaviour, and a crash in any
    disk state the batch goes through.  A service that comes up on what the crash left is healthy
    on the history before the batch (as it was, or compacted) followed by some leading part of the
    batch; if the batch had been acknowledged, by all of it. *)
Theorem crash_restart H T e inputs s s' r d c clock mem capacity shards max_aof max_cache regular o o' s2 T2 :
  Healthy H T s -> in_range e inputs s -> HandleBatch e inputs s = (s', r) ->
  d ∈ trace (os_ (aof_ s')) -> d ∉ trace (os_ (aof_ s)) -> crash_content d c ->
  sizes_ok capacity shards max_aof max_cache -> linked (dsk o) = mkFile c [] ->
  construct clock mem capacity shards max_aof max_cache regular o = (o', Ret s2) ->
  (exists H0 k, (H0 = H \/ H0 = snapshot_log (now_snap e) (cache_ s)) /\
     Healthy (H0 ++ take k (muts (verdicts (cache_ s) (now_parse e) inputs))) T2 s2) /\
  (forall replies, r = Ret replies -> d = dsk (os_ (aof_ s')) ->
     exists H0, (H0 = H \/ H0 = snapshot_log (now_snap e) (cache_ s)) /\
       Healthy (H0 ++ muts (verdicts (cache_ s) (now_parse e) inputs)) T2 s2).
Proof.
  intros HH Hr E Hd Hnd Hc Hsz Hlk Econ. set (ms := muts (verdicts (cache_ s) (now_parse e) inputs)).
  assert (forall H0, base H e s H0 -> forall k, Forall modest (H0 ++ take k ms)) as Hmod.
  { intros H0 Hb k. apply Forall_app. split; [by eapply base_modest|]. by eapply Forall_take, muts_modest, verdicts_ok, Hr. }
  assert (forall H0 k, base H e s H0 -> (log_records c).1 = H0 ++ take k ms -> Healthy (H0 ++ take k ms) T2 s2) as Hup.
  { intros H0 k Hb Hlog. rewrite <-Hlog.
    by destruct (construct_Ret _ _ _ _ _ _ _ _ _ _ _ T2 Hsz Hlk ltac:(rewrite Hlog; by apply Hmod) Econ) as (_ & ? & _). }
  destruct (HandleBatch_aof _ _ _ _ _ _ _ HH Hr E) as (s1 & r1 & El & Eaof). fold ms in El. rewrite Eaof in Hd.
  split.
  - destruct (log_phase_through H T e ms s s1 r1 HH) with (4 := Hd) as [|Hsv]; [apply Hr|apply Hr|done|done|].
    destruct (Hsv c Hc) as (H0 & k & Hb & Hlog). exists H0, k. split; [done|]. by apply Hup.
  - intros replies -> ->. pose proof (HandleBatch_cases _ _ _ _ _ _ _ HH Hr E) as (a1 & H0 & Hb & (_ & _ & _ & Hu & Hsh & Hlog) & _ & Eap).
    fold ms in Hlog. exists H0. split; [done|].
    pose proof (apply_from_aof e O (verdicts (cache_ s) (now_parse e) inputs).*1 (mkService (cache_ s) a1 false (metrics_ s))) as Ha.
    rewrite Eap in Ha. cbn in Ha. subst a1. assert (log_records c = (H0 ++ ms, Ret tt)) as Hl.
    { symmetry. by eapply survives_clean; [apply clean_file|..]. }
    rewrite <-(take_ge ms (length ms)) by done. apply Hup; [done|]. by rewrite Hl, take_ge by done.
Qed.

(** C25. Read your write: storing a value that fits succeeds whenever the log has room and the
    kernel makes progress, and the next read of that key, at any later time, returns the value. *)
Theorem set_then_get H T e s key v data :
  Healthy H T s -> clock_ok (now_parse e) -> allocation e O = LruCache.Ample ->
  Message.encode SET key v = Ret data -> zlen v <= MAX_VALUE_SIZE -> ShardedCache.canStore (cache_ s) key v = true ->
  bytes_ (log_ (aof_ s)) + zlen (frames [mkMutation SET key v]) <= max_bytes_ (log_ (aof_ s)) / 2 ->
  ready (length (frames [mkMutation SET key v]) + 1) (replies (os_ (aof_ s))) ->
  exists s1 b1, Handle e data s = (s1, Ret (zlen data, b1)) /\ Message.encode SET key [] = Ret b1 /\
  forall e' data', clock_ok (now_parse e') -> Message.encode GET key [] = Ret data' ->
    exists s2 b2, Handle e' data' s1 = (s2, Ret (zlen data', b2)) /\ Message.encode GET key v = Ret b2.
Proof.
  intros HH Hclk Hal Henc Hv Hst Hroom Hk.
  destruct (Handle_set_run H T e s key v data HH Hclk Hal Henc Hv Hst Hroom Hk) as (s1 & b1 & E1 & Eb & Hf & Hi & Hvk).
  exists s1, b1. split_and!; [done|done|]. intros e' data' Hclk' Henc'. by eapply Handle_get_run.
Qed.
End Recovery.
