(* ===== verification/ServiceWitnesses.v ===== *)
(** Concrete runs of the service: a codec that satisfies the laws, a small cache on a fresh log,
    and the instances of the service theorems at a few requests. *)
From S2P Require Import Prelude KvProtocol TcpServer LruCache ShardedCache Disk Aof AofLog AofDurability CacheService ServiceHistory ServiceCorrectness ServiceInputs ServiceRecovery.

(** * A codec *)

(** Short and long integers instead of varints, no tags, unknown fields last. *)
Definition put_int (z : Z) : bytes := if z <? 256 then Byte.x00 :: be_split 1 z else Byte.x01 :: be_split 8 z.
Definition get_int (b : bytes) : option (Z * bytes) :=
  match b with
  | Byte.x00 :: r => if zlen r <? 1 then None else Some (be_combine (take 1 r), drop 1 r)
  | Byte.x01 :: r => if zlen r <? 8 then None else Some (be_combine (take 8 r), drop 8 r)
  | _ => None
  end.

Definition plain_serialize (v : CacheValue) : bytes :=
  (if cv_found v then Byte.x01 else Byte.x00) ::
  put_int (cv_expires_unix_ms v) ++ put_int (cv_ttl_ms v) ++ be_split 4 (zlen (cv_value v)) ++ cv_value v ++ cv_unknown v.

Definition plain_parse (b : bytes) : option CacheValue :=
  match b with
  | f :: b =>
      x ← get_int b;
      y ← get_int x.2;
      let n := be_combine (take 4 y.2) in
      if (zlen y.2 <? 4) || (zlen y.2 - 4 <? n) then None
      else Some (mkCacheValue (negb (bool_decide (f = Byte.x00))) y.2.[4, Z.to_nat n] x.1 y.1 (drop (4 + Z.to_nat n) y.2))
  | [] => None
  end.

#[local] Instance plain_codec : CacheValueCodec := {| ParseFromString := plain_parse; SerializeAsString := plain_serialize |}.

Lemma be_combine_take (l : bytes) n : 0 <= be_combine (take n l) < 2 ^ (8 * Z.of_nat n).
Proof.
  pose proof (be_combine_range (take n l)) as [? Hb]. split; [done|]. eapply Z.lt_le_trans; [exact Hb|].
  apply Z.pow_le_mono_r; [lia|]. rewrite length_take. lia.
Qed.

Lemma get_int_bounds b z r : get_int b = Some (z, r) -> 0 <= z < 2 ^ 64 /\ zlen r <= zlen b.
Proof.
  unfold get_int. destruct b as [|[] b]; try done; destruct (_ <? _); try done; intros [= <- <-]; rewrite zlen_cons; unfold zlen; rewrite length_drop.
  - pose proof (be_combine_take b 1). lia.
  - pose proof (be_combine_take b 8). lia.
Qed.

Lemma get_put_int z r : 0 <= z < 2 ^ 64 -> get_int (put_int z ++ r) = Some (z, r).
Proof.
  intros Hz. unfold put_int, get_int. pose proof (zlen_nonneg r). destruct (Z.ltb_spec z 256); cbn [app].
  - rewrite (proj2 (Z.ltb_ge _ _)) by (rewrite zlen_app; unfold zlen at 1; rewrite length_be_split; lia).
    rewrite take_app_length', drop_app_length' by (by rewrite length_be_split). by rewrite be_combine_split_small by lia.
  - rewrite (proj2 (Z.ltb_ge _ _)) by (rewrite zlen_app; unfold zlen at 1; rewrite length_be_split; lia).
    rewrite take_app_length', drop_app_length' by (by rewrite length_be_split). by rewrite be_combine_split_small by lia.
Qed.

Lemma zlen_be_split n z : zlen (be_split n z) = Z.of_nat n.
Proof. unfold zlen. by rewrite length_be_split. Qed.

Lemma zlen_put_int z : zlen (put_int z) = if z <? 256 then 2 else 9.
Proof. unfold put_int. destruct (_ <? _); by rewrite zlen_cons, zlen_be_split. Qed.

Lemma plain_parse_serialize v :
  cv_ok v -> zlen (cv_value v) + zlen (cv_unknown v) < 2 ^ 31 -> plain_parse (plain_serialize v) = Some v.
Proof.
  destruct v as [fd v ex ttl u]. intros [Hex Httl] Hlen. cbn [cv_found cv_value cv_expires_unix_ms cv_ttl_ms cv_unknown] in *.
  unfold plain_serialize, plain_parse. cbn [cv_found cv_value cv_expires_unix_ms cv_ttl_ms cv_unknown].
  rewrite get_put_int by done. cbn. rewrite get_put_int by done. cbn. pose proof (zlen_nonneg v). pose proof (zlen_nonneg u).
  rewrite take_app_length' by (by rewrite length_be_split). rewrite be_combine_split_small by lia.
  rewrite !zlen_app, zlen_be_split. rewrite (proj2 (Z.ltb_ge _ _)), (proj2 (Z.ltb_ge _ _)) by lia. cbn [orb].
  change (S (S (S (S (Z.to_nat (zlen v)))))) with (4 + Z.to_nat (zlen v))%nat.
  rewrite <-drop_drop, drop_app_length' by (by rewrite length_be_split). unfold zlen. rewrite Nat2Z.id, take_app_length, drop_app_length.
  by destruct fd.
Qed.

#[local] Instance plain_laws : CodecLaws plain_codec.
Proof.
  split; cbn [ParseFromString SerializeAsString plain_codec].
  - intros b v. unfold plain_parse. destruct b as [|f b]; [done|].
    destruct (get_int b) as [[ex r1]|] eqn:E1; [|done]. cbn. destruct (get_int r1) as [[ttl r2]|] eqn:E2; [|done]. cbn.
    apply get_int_bounds in E1 as [? ?], E2 as [? ?]. destruct (_ || _)%bool eqn:E; [done|]. zify_bools. intros [= <-].
    split; [by split|]. cbn [cv_value cv_unknown]. rewrite zlen_cons. pose proof (be_combine_take r2 4).
    unfold zlen in *. rewrite length_take, !length_drop. lia.
  - intros v Hv Hlen _. by apply plain_parse_serialize.
  - intros v _ Hu _. unfold plain_serialize. rewrite Hu, zlen_cons, !zlen_app, !zlen_put_int, zlen_be_split, zlen_nil.
    repeat destruct (_ <? _); lia.
Qed.

(** * A small service on a fresh log *)

#[local] Instance small_layout : Layout := Layout_x86_64.
#[local] Instance small_hash : Hash bytes := ShardedCache.hash_le.

Definition small_cache : @ShardedCache.sharded bytes bytes _ _ :=
  match ShardedCache.make 4 2 1000 with Ret c => c | _ => ShardedCache.mkSharded 0 [] end.

Definition small_log (rs : list reply) : aof :=
  mkAof (mkAofLogger 0 0 (2 ^ 20) false true (mkAofStats 0 0 0 0 0)) (mkOs rs (mkDisk empty_file [] None 0) []).

Definition small (rs : list reply) : service := mkService small_cache (small_log rs) false None.

(** A clock that stands at [t], and an allocator that never fails. *)
Definition at_time (t : Z) : env := mkEnv (fun _ => t) (fun _ => t) (fun _ _ => t) (fun _ => LruCache.Ample) 7.

Lemma small_Healthy rs : Healthy [] 0 (small rs).
Proof.
  assert (sizes_ok 4 2 0 1000) as Hsz by (unfold sizes_ok; lia).
  destruct (empty_agrees 0 small_cache) as [Ha Hf].
  { intros k. apply (make_view 4 2 1000); [done|reflexivity]. }
  split; [done|]. split; [apply (ShardedCache.make_Inv 4 2 1000); [lia|lia|lia|reflexivity]|]. split; [done|].
  split; [|split; [done|split; [done|constructor]]]. unfold Durable, sane. split_and!; vm_compute; done.
Qed.

Lemma clock_at t : 0 <= t < 2 ^ 63 -> clock_ok (now_parse (at_time t)).
Proof. intros Ht n. done. Qed.

Lemma clocks_at t : 0 <= t -> clocks 0 t (at_time t).
Proof. intros. split_and!; cbn; lia. Qed.

Definition set_frame : bytes := Eval vm_compute in match Message.encode SET (str "k") (str "v") with Ret b => b | _ => [] end.
Definition get_frame : bytes := Eval vm_compute in match Message.encode GET (str "k") [] with Ret b => b | _ => [] end.
Definition get_reply : bytes := Eval vm_compute in match Message.encode GET (str "k") (str "v") with Ret b => b | _ => [] end.
Definition set_reply : bytes := Eval vm_compute in match Message.encode SET (str "k") [] with Ret b => b | _ => [] end.

(** A write, a read of it, a frame that is not one, and an incomplete one. *)
Definition mixed : list bytes := [set_frame; get_frame; str "not a frame!"; take 13 set_frame].
Definition mixed_replies : list Reply :=
  [mkReply 14 set_reply false; mkReply 13 get_reply false; mkReply 0 [] true; mkReply 0 [] false].

Lemma mixed_in_range rs : in_range (at_time 1000) mixed (small rs).
Proof. split_and!; [by apply clock_at|vm_compute; reflexivity|vm_compute; reflexivity]. Qed.

Lemma mixed_run :
  HandleBatch (at_time 1000) mixed (small stutter) = ((HandleBatch (at_time 1000) mixed (small stutter)).1, Ret mixed_replies).
Proof. apply outcome_of. vm_compute. reflexivity. Qed.

Lemma HandleBatch_durable_witness :
  exists H0, (H0 = [] \/ H0 = snapshot_log (now_snap (at_time 1000)) small_cache) /\
    Healthy (H0 ++ [mkMutation SET (str "k") (str "v")]) 1000 (HandleBatch (at_time 1000) mixed (small stutter)).1.
Proof.
  exact (proj2 (HandleBatch_durable [] 0 1000 (at_time 1000) mixed (small stutter) _ mixed_replies (small_Healthy stutter)
    (mixed_in_range stutter) (clocks_at 1000 ltac:(lia)) mixed_run)).
Defined.

Lemma HandleBatch_reads_last_write_witness :
  exists v b, mixed_replies !! 1%nat = Some (mkReply 13 b false) /\
    Message.encode GET (str "k") (default [] v) = Ret b /\
    forall x, v = Some x -> exists ex, last_write [mkMutation SET (str "k") (str "v")] (str "k") = Some (x, ex) /\ (ex = 0 \/ 1000 < ex).
Proof.
  exact (HandleBatch_reads_last_write [] 0 1000 (at_time 1000) mixed (small stutter) _ mixed_replies 1 get_frame GET (str "k")
    (small_Healthy stutter) (mixed_in_range stutter) (clocks_at 1000 ltac:(lia)) mixed_run eq_refl (or_introl eq_refl)
    ltac:(vm_compute; reflexivity)).
Defined.

(** The disk fails in the middle of the record: no reply, nothing cached, and no further service. *)
Lemma HandleBatch_write_ahead_witness :
  let s' := (HandleBatch (at_time 1000) mixed (small [Done 3; Failed])).1 in
  HandleBatch (at_time 1000) mixed (small [Done 3; Failed]) = (s', Throw std_runtime_error) /\
  forall e' inputs', HandleBatch e' inputs' s' = (s', Throw std_runtime_error).
Proof.
  intros s'. assert (E : HandleBatch (at_time 1000) mixed (small [Done 3; Failed]) = (s', Throw std_runtime_error)).
  { apply outcome_of. vm_compute. reflexivity. }
  split; [exact E|].
  destruct (HandleBatch_write_ahead [] 0 1000 (at_time 1000) mixed (small [Done 3; Failed]) s' std_runtime_error (small_Healthy _)
    (mixed_in_range _) (clocks_at 1000 ltac:(lia)) E) as [[Hx _]|(_ & _ & Hs)]; [discriminate Hx|exact Hs].
Defined.

(** The same batch without the frame that is not one, and with less of the incomplete one. *)
Definition cleaned : list bytes := [set_frame; get_frame; []; take 2 set_frame].
Lemma HandleBatch_isolates_inputs_witness :
  (HandleBatch (at_time 1000) cleaned (small stutter)).1 = (HandleBatch (at_time 1000) mixed (small stutter)).1 /\
  exists replies, (HandleBatch (at_time 1000) cleaned (small stutter)).2 = Ret replies /\ replies !! 1%nat = Some (mkReply 13 get_reply false).
Proof.
  assert (forall d, match parse_input small_cache 1000 d with Ret (Some _) => False | _ => True end -> ~ is_request small_cache d) as Hno.
  { intros d Hd. pose proof (parse_input_kind small_cache 1000 d) as Hk. destruct (parse_input small_cache 1000 d) as [[|]|x| |]; [destruct Hd|apply Hk..|destruct Hk|destruct Hk]. }
  destruct (HandleBatch_isolates_inputs (at_time 1000) cleaned mixed (small stutter)) as [H1 H2].
  - apply clock_at. lia.
  - constructor; [left; reflexivity|]. constructor; [left; reflexivity|]. constructor; [right; split; apply Hno; vm_compute; exact I|].
    constructor; [right; split; apply Hno; vm_compute; exact I|constructor].
  - split; [exact H1|]. rewrite mixed_run in H2. destruct (HandleBatch (at_time 1000) cleaned (small stutter)).2 as [rs|x| |]; [|discriminate H2..].
    destruct H2 as [H2 _]. exists rs. split; [reflexivity|]. exact (H2 1%nat eq_refl).
Defined.

(** * Restarts *)

Definition is_Ret {A} (o : outcome A) : bool := match o with Ret _ => true | _ => false end.
Definition get_Ret {A} (x : A) (o : outcome A) : A := match o with Ret a => a | _ => x end.
Lemma run_Ret {S A} (x : A) (r : S * outcome A) : is_Ret r.2 = true -> r = (r.1, Ret (get_Ret x r.2)).
Proof. destruct r as [s []]; done. Qed.

(** The calls of the constructor, then the reads of replay. *)
Definition boot : list reply := replicate 6 (Done 0) ++ Done 0 :: Done 0 :: stutter.
Definition rebooted (b : bytes) : os := mkOs boot (mkDisk (mkFile b []) [] None 0) [].
Definition restarted (b : bytes) : os * outcome service :=
  construct (fun _ => 2000) (fun _ => LruCache.Ample) 4 2 (2 ^ 20) 1000 true (rebooted b).

Lemma small_sizes : sizes_ok 4 2 (2 ^ 20) 1000.
Proof. unfold sizes_ok. lia. Qed.

Lemma sample_modest : Forall modest [mkMutation SET (str "k") (str "v")].
Proof. constructor; [|constructor]. split; [vm_compute; discriminate|]. intros v ex [= <- <-]. split; [vm_compute; discriminate|lia]. Qed.

Lemma construct_recovers_witness :
  Healthy [mkMutation SET (str "k") (str "v")] 0 (get_Ret (small []) (restarted sample_set_bytes).2).
Proof.
  assert (E : restarted sample_set_bytes = ((restarted sample_set_bytes).1, Ret (get_Ret (small []) (restarted sample_set_bytes).2))).
  { apply run_Ret. vm_compute. reflexivity. }
  assert (Hl : log_records sample_set_bytes = ([mkMutation SET (str "k") (str "v")], Ret tt)) by (vm_compute; reflexivity).
  assert (Hm : Forall modest (log_records sample_set_bytes).1) by (rewrite Hl; exact sample_modest).
  assert (HH : Healthy (log_records sample_set_bytes).1 0 (get_Ret (small []) (restarted sample_set_bytes).2)).
  { apply (construct_recovers (fun _ => 2000) (fun _ => LruCache.Ample) 4 2 (2 ^ 20) 1000 true (rebooted sample_set_bytes)
      (restarted sample_set_bytes).1 (get_Ret (small []) (restarted sample_set_bytes).2) sample_set_bytes 0).
    - exact small_sizes.
    - reflexivity.
    - exact Hm.
    - exact E. }
  rewrite Hl in HH. exact HH.
Defined.

(** The write of the mixed batch survives a crash right after it. *)
Lemma crash_restart_witness :
  exists H0, (H0 = [] \/ H0 = snapshot_log (now_snap (at_time 1000)) small_cache) /\
    Healthy (H0 ++ [mkMutation SET (str "k") (str "v")]) 0 (get_Ret (small []) (restarted sample_set_bytes).2).
Proof.
  set (s' := (HandleBatch (at_time 1000) mixed (small stutter)).1).
  assert (Hd : dsk (os_ (aof_ s')) = mkDisk (mkFile sample_set_bytes []) [] None 0) by (vm_compute; reflexivity).
  assert (Hin : mkDisk (mkFile sample_set_bytes []) [] None 0 ∈ trace (os_ (aof_ s'))) by (vm_compute; left).
  assert (Hc : crash_content (mkDisk (mkFile sample_set_bytes []) [] None 0) sample_set_bytes).
  { exact (crash_linked (mkDisk (mkFile sample_set_bytes []) [] None 0) [] (prefix_nil _)). }
  assert (E : restarted sample_set_bytes = ((restarted sample_set_bytes).1, Ret (get_Ret (small []) (restarted sample_set_bytes).2))).
  { apply run_Ret. vm_compute. reflexivity. }
  exact (proj2 (crash_restart [] 0 (at_time 1000) mixed (small stutter) s' (Ret mixed_replies) _ sample_set_bytes
    (fun _ => 2000) (fun _ => LruCache.Ample) 4 2 (2 ^ 20) 1000 true (rebooted sample_set_bytes) _ _ 0
    (small_Healthy stutter) (mixed_in_range stutter) mixed_run Hin (not_elem_of_nil _) Hc small_sizes eq_refl E)
    mixed_replies eq_refl (eq_sym Hd)).
Defined.

Lemma set_then_get_witness :
  exists s1, Handle (at_time 5) set_frame (small stutter) = (s1, Ret (14, set_reply)) /\
  exists s2, Handle (at_time 9) get_frame s1 = (s2, Ret (13, get_reply)).
Proof.
  destruct (set_then_get [] 0 (at_time 5) (small stutter) (str "k") (str "v") set_frame (small_Healthy stutter)
    (clock_at 5 ltac:(lia)) eq_refl) as (s1 & b1 & E1 & Hb1 & Hget).
  - vm_compute. reflexivity.
  - vm_compute. discriminate.
  - vm_compute. reflexivity.
  - vm_compute. discriminate.
  - apply stutter_ready. vm_compute. lia.
  - assert (Ret b1 = Ret set_reply) as [= ->] by (rewrite <-Hb1; vm_compute; reflexivity). exists s1. split; [exact E1|].
    destruct (Hget (at_time 9) get_frame (clock_at 9 ltac:(lia))) as (s2 & b2 & E2 & Hb2); [vm_compute; reflexivity|].
    assert (Ret b2 = Ret get_reply) as [= ->] by (rewrite <-Hb2; vm_compute; reflexivity). exists s2. exact E2.
Defined.

(** * A request that disables the storage *)

(** One byte of ttl on the wire becomes eight bytes of expiry in the log; the unknown field
    fills the request up to the wire limit. *)
Definition padding : bytes := replicate (Z.to_nat (MAX_WIRE_VALUE_SIZE - 9)) Byte.x00.
Definition padded_item : CacheValue := mkCacheValue false [] 0 5 padding.
Definition padded_frame : bytes :=
  header_bytes (header_of SET_TTL (str "k") (plain_serialize padded_item)) ++ str "k" ++ plain_serialize padded_item.

Lemma zlen_padding : zlen padding = MAX_WIRE_VALUE_SIZE - 9.
Proof. unfold padding, zlen. rewrite length_replicate, Z2Nat.id; unfold MAX_WIRE_VALUE_SIZE, MAX_VALUE_SIZE; lia. Qed.

Lemma padded_size : zlen (plain_serialize padded_item) = MAX_WIRE_VALUE_SIZE.
Proof.
  unfold plain_serialize, padded_item. cbn [cv_found cv_value cv_expires_unix_ms cv_ttl_ms cv_unknown].
  rewrite zlen_cons, !zlen_app, !zlen_put_int, zlen_be_split, zlen_padding. simpl. rewrite zlen_nil. lia.
Qed.

Lemma padded_encode : Message.encode SET_TTL (str "k") (plain_serialize padded_item) = Ret padded_frame.
Proof. apply encode_Ret. split_and!; [done|vm_compute; discriminate|by rewrite padded_size]. Qed.

Lemma oversized_ttl_disables_storage_witness :
  exists s' x, HandleBatch (at_time 1000) [padded_frame] (small stutter) = (s', Throw x) /\
    forall e' inputs', HandleBatch e' inputs' s' = (s', Throw std_runtime_error).
Proof.
  destruct (oversized_ttl_disables_storage [] 0 (at_time 1000) (small stutter) padded_frame
    (mkRequest SET_TTL (str "k") [] (u64 (1000 + 5))) (zlen padded_frame)
    (mkMutation SET_TTL (str "k") (SerializeAsString (mkCacheValue false [] (u64 (1000 + 5)) 0 padding)))) as (s' & x & E & _ & _ & _ & Hs).
  - exact (small_Healthy stutter).
  - exact (clock_at 1000 ltac:(lia)).
  - apply (parse_input_ttl small_cache 1000 (str "k") (plain_serialize padded_item) padded_frame padded_item).
    + exact padded_encode.
    + apply plain_parse_serialize; [unfold cv_ok; cbn; lia|]. cbn [cv_value cv_unknown padded_item].
      rewrite zlen_padding. unfold MAX_WIRE_VALUE_SIZE, MAX_VALUE_SIZE. rewrite zlen_nil. lia.
    + cbn. lia.
    + vm_compute. discriminate.
    + vm_compute. reflexivity.
  - cbn [m_value SerializeAsString plain_codec]. unfold plain_serialize. cbn [cv_found cv_value cv_expires_unix_ms cv_ttl_ms cv_unknown].
    rewrite zlen_cons, !zlen_app, !zlen_put_int, zlen_be_split, zlen_padding. vm_compute. reflexivity.
  - exists s', x. split; [exact E|exact Hs].
Defined.
