(* ===== verification/ServerMain.v ===== *)
(** The server program (KVCache/src/main.cpp): the command line, the environment, and the assembly of the
    service and the TCP server from them.  [std::stoull] and [std::stoi] are modelled as the
    standard library defines them. *)
From stdpp Require Import pretty.
From S2P Require Import Prelude KvProtocol TcpServer TcpServerInv TcpServerLifecycle LruCache ShardedCache Disk Aof CacheService ServiceWitnesses.
Import TcpServer(ServerOptions, mkServerOptions, server, mkServer, TcpServer_make, configure, max_connections_, max_frame_bytes_, options_).
Import Lifecycle(tcp, mkTcp, members, setFrameSizer, setHandler, setBatchHandler).

(** * Numbers in text *)

Definition is_space (c : byte) : bool := let z := byte.unsigned c in ((9 <=? z) && (z <=? 13)) || (z =? 32).
Definition is_digit (c : byte) : bool := let z := byte.unsigned c in (48 <=? z) && (z <=? 57).
(** The longest prefix of characters that satisfy [f]. *)
Fixpoint span (f : byte -> bool) (b : bytes) : bytes * bytes :=
  match b with
  | [] => ([], [])
  | c :: b' => if f c then let '(l, r) := span f b' in (c :: l, r) else ([], b)
  end.
Definition sign_of (b : bytes) : bool * bytes :=
  match b with
  | c :: r => if byte.unsigned c =? 45 then (true, r) else if byte.unsigned c =? 43 then (false, r) else (false, b)
  | [] => (false, b)
  end.
Definition decimal (digits : bytes) : Z := fold_left (fun z c => 10 * z + (byte.unsigned c - 48)) digits 0.

(** The subject sequence of [strtoull] and [strtol] in base ten: its sign, its digits and how far it reaches. *)
Definition scan (text : bytes) : option (bool * Z * Z) :=
  let '(_, b) := span is_space text in
  let '(negative, b) := sign_of b in
  let '(digits, rest) := span is_digit b in
  if bool_decide (digits = []) then None else Some (negative, decimal digits, zlen text - zlen rest).

(** A minus sign negates the value modulo [2 ^ 64]. *)
Definition stoull (text : bytes) : outcome (Z * Z) :=
  match scan text with
  | None => Throw std_invalid_argument
  | Some (negative, v, used) => if 2 ^ 64 - 1 <? v then Throw std_out_of_range else Ret (if negative : bool then u64 (- v) else v, used)
  end.
Definition stoi (text : bytes) : outcome (Z * Z) :=
  match scan text with
  | None => Throw std_invalid_argument
  | Some (negative, v, used) =>
      let v := if negative : bool then - v else v in
      if (v <? - 2 ^ 31) || (2 ^ 31 - 1 <? v) then Throw std_out_of_range else Ret (v, used)
  end.

(** * Settings *)

Definition environment : Type := string -> option bytes.

Definition Setting (env : environment) (name : string) (fallback : Z) : outcome Z :=
  match env name with
  | None => Ret fallback
  | Some text =>
      match text with
      | [] => Throw std_invalid_argument
      | c :: _ =>
          if byte.unsigned c =? 45 then Throw std_invalid_argument else
          r ← stoull text ;
          if (r.1 =? 0) || negb (r.2 =? zlen text) then Throw std_invalid_argument else Ret r.1
      end
  end.

(** [std::chrono::milliseconds] counts in a signed 64-bit integer. *)
Definition int64 (z : Z) : Z := let w := u64 z in if w <? 2 ^ 63 then w else w - 2 ^ 64.

Definition metrics_text (s : TcpServer.Stats) : bytes :=
  str ", Active connections: " ++ to_string (TcpServer.st_active s) ++ str ", Rejected: " ++ to_string (TcpServer.st_rejected s) ++
  str ", Queued tasks: " ++ to_string (TcpServer.st_queued_tasks s) ++ str ", Queued bytes: " ++ to_string (TcpServer.st_queued_bytes s) ++
  str ", Timeouts: " ++ to_string (TcpServer.st_timeouts s) ++ str ", Handler us: " ++ to_string (TcpServer.st_handler_us s) ++
  str ", Handler errors: " ++ to_string (TcpServer.st_handler_errors s).

(** * Start-up *)

Section Main.
Context {layout : Layout} {hashB : Hash bytes} {codec : CacheValueCodec}.

(** What the program meets when it starts: the clock and the allocator during recovery, whether the log is
    a regular file, whether [inet_pton] accepts an address, whether the signals can be blocked, and
    the counters of the running server. *)
Record world := mkWorld {
  w_clock : nat -> Z; w_alloc : nat -> LruCache.memory; w_regular : bool; w_address : bytes -> bool; w_signals : bool; w_stats : nat -> TcpServer.Stats
}.

(** The command line after the program's name. *)
Definition port_of (args : list bytes) : outcome Z :=
  let text := default (str "8080") (args !! O) in
  r ← stoi text ;
  if negb (r.2 =? zlen text) || (r.1 <? 1) || (65535 <? r.1) then Throw std_invalid_argument else Ret r.1.
Definition bind_of (args : list bytes) : bytes := default (str "127.0.0.1") (args !! 2%nat).
Definition sync_of (args : list bytes) : bytes := default (str "group") (args !! 3%nat).

(** The settings of the service: entries, shards, bytes of the log and bytes of the cache. *)
Definition service_settings (env : environment) : outcome (Z * Z * Z * Z) :=
  a ← Setting env "KVRPC_CACHE_ENTRIES" 1000 ;
  b ← Setting env "KVRPC_CACHE_SHARDS" 16 ;
  c ← Setting env "KVRPC_AOF_BYTES" (1024 * 1024 * 1024) ;
  d ← Setting env "KVRPC_CACHE_BYTES" (64 * 1024 * 1024) ;
  Ret (a, b, c, d).
Definition server_settings (env : environment) : outcome ServerOptions :=
  io ← Setting env "KVRPC_IO_THREADS" 2 ;
  cap ← Setting env "KVRPC_QUEUE_CAPACITY" 1024 ;
  bytes ← Setting env "KVRPC_QUEUE_BYTES" (64 * 1024 * 1024) ;
  out ← Setting env "KVRPC_OUTPUT_BYTES" (8 * 1024 * 1024) ;
  idle ← Setting env "KVRPC_IDLE_MS" 30000 ;
  Ret (mkServerOptions io 1 cap bytes out 1 (int64 idle)).

(** The server with its handler; a service handler is a batch handler exactly in group mode. *)
Definition build_server (w : world) (env : environment) (port : Z) (bind : bytes) (group : bool) : outcome tcp :=
  connections ← Setting env "KVRPC_CONNECTIONS" 4096 ;
  s ← TcpServer_make port (w_address w bind) connections MAX_FRAME_SIZE ;
  o ← server_settings env ;
  s ← configure o s ;
  let t := setFrameSizer (Some frame_size) (mkTcp s false) in
  Ret (if group then setBatchHandler true t else setHandler true t).

(** [main] up to the start of the server's threads, on the disk: [None] after [--help]. *)
Definition setup (w : world) (args : list bytes) (env : environment) : M os (option (service * tcp)) :=
  if bool_decide (args !! O = Some (str "--help")) then mret None else
  if 4 <? zlen args then throw std_invalid_argument else
  port ← lift (port_of args) ;
  if negb (w_signals w) then throw std_runtime_error else
  p ← lift (service_settings env) ;
  let '(entries, shards, aof_bytes, cache_bytes) := p in
  service ← construct (w_clock w) (w_alloc w) entries shards aof_bytes cache_bytes (w_regular w) ;
  let sync := sync_of args in
  if negb (bool_decide (sync = str "group")) && negb (bool_decide (sync = str "always")) then throw std_invalid_argument else
  server ← lift (build_server w env port (bind_of args) (bool_decide (sync = str "group"))) ;
  mret (Some (mkService (cache_ service) (aof_ service) (failed_ service) (Some (fun i => metrics_text (w_stats w i))), server)).
End Main.

(** * Reading numbers *)

Definition digit (z : Z) : byte := byte.of_Z (48 + z).
Lemma is_digit_spec c : is_digit c = true <-> 48 <= byte.unsigned c <= 57.
Proof. unfold is_digit. lia. Qed.

Lemma span_spec f b : let '(l, r) := span f b in b = l ++ r /\ Forall (fun c => f c = true) l /\ (r = [] \/ exists c r', r = c :: r' /\ f c = false).
Proof.
  induction b as [|c b IH]; [by split; [|split; [|left]]|]. cbn. destruct (f c) eqn:E; [|split; [done|]; split; [done|]; right; by eauto].
  destruct (span f b) as [l r]. destruct IH as (-> & ? & ?). split; [done|]. split; [by constructor|done].
Qed.
Lemma span_all f l r : Forall (fun c => f c = true) l -> (forall c, r !! O = Some c -> f c = false) -> span f (l ++ r) = (l, r).
Proof.
  induction 1 as [|c l Hc _ IH]; intros Hr; cbn; [destruct r as [|c r]; [done|]; cbn; by rewrite (Hr c)|]. rewrite Hc. by rewrite (IH Hr).
Qed.

Lemma decimal_snoc l c : decimal (l ++ [c]) = 10 * decimal l + (byte.unsigned c - 48).
Proof. unfold decimal. by rewrite fold_left_app. Qed.
Lemma decimal_nonneg l : Forall (fun c => is_digit c = true) l -> 0 <= decimal l.
Proof. induction l as [|c l IH] using rev_ind; [done|]. intros [H1 H2]%Forall_app. apply Forall_singleton, is_digit_spec in H2. rewrite decimal_snoc. specialize (IH H1). lia. Qed.

(** What [to_string] writes is digits with that value. *)
Lemma pretty_digits (x : N) s : (0 < x)%N -> exists ds, str (pretty_N_go x s) = ds ++ str s /\ ds <> [] /\ Forall (fun c => is_digit c = true) ds /\ decimal ds = Z.of_N x.
Proof.
  revert s. induction (N.lt_wf_0 x) as [x _ IH]. intros s Hx. rewrite pretty_N_go_step by done.
  set (c := pretty_N_char (x mod 10)). assert (exists d, str (String c s) = d :: str s /\ byte.unsigned d = 48 + Z.of_N (x mod 10)) as (d & Hd & Hv).
  { exists (Ascii.byte_of_ascii c). split; [done|]. unfold c. pose proof (N.mod_lt x 10 ltac:(done)) as Hm. generalize dependent (x mod 10)%N. intros m Hm.
    destruct m as [|q]; [done|]. do 4 (destruct q as [q|q|]; try done; try lia). }
  assert (is_digit d = true) as Hdig by (apply is_digit_spec; pose proof (proj1 (N2Z.inj_lt _ _) (N.mod_lt x 10 ltac:(done))); pose proof (N2Z.is_nonneg (x mod 10)); lia).
  assert (Z.of_N x = 10 * Z.of_N (x / 10) + Z.of_N (x mod 10)) as Hdm by (pose proof (f_equal Z.of_N (N.div_mod x 10 ltac:(done))) as Hx10; by rewrite N2Z.inj_add, N2Z.inj_mul in Hx10).
  destruct (decide (x / 10 = 0)%N) as [Hz|Hz].
  - rewrite Hz, pretty_N_go_0, Hd. exists [d]. split; [done|]. split; [done|]. split; [by constructor|]. rewrite Hdm, Hz. unfold decimal. cbn [fold_left]. lia.
  - destruct (IH (x / 10)%N) with (s := String c s) as (ds & E & Hne & Hf & Hdec); [by apply N.div_lt|by apply N.neq_0_lt_0|]. exists (ds ++ [d]). rewrite E, Hd, <-app_assoc. split; [done|].
    split; [by destruct ds|]. split; [apply Forall_app; split; [done|by constructor]|]. rewrite decimal_snoc, Hdec, Hv, Hdm. lia.
Qed.
Lemma to_string_digits n : 0 < n -> to_string n <> [] /\ Forall (fun c => is_digit c = true) (to_string n) /\ decimal (to_string n) = n.
Proof.
  intros Hn. destruct n as [|x|x]; [lia| |lia]. destruct (pretty_digits (Npos x) "") as (ds & E & Hne & Hf & Hd); [done|].
  assert (to_string (Zpos x) = ds) as -> by (rewrite app_nil_r in E; exact E). done.
Qed.

Lemma digit_not_space c : is_digit c = true -> is_space c = false /\ (byte.unsigned c =? 45) = false /\ (byte.unsigned c =? 43) = false.
Proof. intros Hc%is_digit_spec. unfold is_space. lia. Qed.

Lemma scan_digits ds : ds <> [] -> Forall (fun c => is_digit c = true) ds -> scan ds = Some (false, decimal ds, zlen ds).
Proof.
  intros Hne Hf. destruct ds as [|c ds]; [done|]. pose proof Hf as [Hc _]%Forall_cons. destruct (digit_not_space c Hc) as (Hs & Hm & Hp).
  unfold scan. pose proof (span_all is_space [] (c :: ds) ltac:(done) ltac:(by intros ? [= <-])) as E1. cbn [app] in E1. rewrite E1. cbn [sign_of]. rewrite Hm, Hp. pose proof (span_all is_digit (c :: ds) [] Hf ltac:(done)) as E2.
  rewrite app_nil_r in E2. rewrite E2. rewrite bool_decide_eq_false_2 by done. by rewrite zlen_nil, Z.sub_0_r.
Qed.

(** What [scan] accepts is a number in the middle of the text. *)
Lemma scan_Some text neg v used : scan text = Some (neg, v, used) -> exists pre sgn ds rest, text = pre ++ sgn ++ ds ++ rest /\ Forall (fun c => is_space c = true) pre /\
  (sgn = [] \/ exists c, sgn = [c] /\ byte.unsigned c = (if neg then 45 else 43)) /\ (neg = true -> sgn <> []) /\ ds <> [] /\ Forall (fun c => is_digit c = true) ds /\
  v = decimal ds /\ used = zlen text - zlen rest.
Proof.
  unfold scan. pose proof (span_spec is_space text) as Hp. destruct (span is_space text) as [pre b]. destruct Hp as (-> & Hpre & _).
  assert (exists sgn, b = sgn ++ (sign_of b).2 /\ (sgn = [] \/ exists c, sgn = [c] /\ byte.unsigned c = (if (sign_of b).1 then 45 else 43)) /\ ((sign_of b).1 = true -> sgn <> [])) as (sgn & Hb & Hs1 & Hs2).
  { destruct b as [|c b]; [exists []; by split; [|split; [left|]]|]. cbn. destruct (Z.eqb_spec (byte.unsigned c) 45); [exists [c]; split; [done|]; split; [right; by exists c|done]|].
    destruct (Z.eqb_spec (byte.unsigned c) 43); [exists [c]; split; [done|]; split; [right; by exists c|done]|]. exists []. by split; [|split; [left|]]. }
  destruct (sign_of b) as [n b2]. cbn [fst snd] in *. pose proof (span_spec is_digit b2) as Hd. destruct (span is_digit b2) as [ds rest]. destruct Hd as (-> & Hds & _).
  case_bool_decide; [done|]. intros [= <- <- <-]. exists pre, sgn, ds, rest. by rewrite Hb.
Qed.

(** [text] is white space, a sign and the digits of [v]. *)
Definition numeral (neg : bool) (v : Z) (text : bytes) : Prop :=
  exists pre sgn ds, text = pre ++ sgn ++ ds /\ Forall (fun c => is_space c = true) pre /\
    (sgn = [] /\ neg = false \/ exists c, sgn = [c] /\ byte.unsigned c = (if neg then 45 else 43)) /\ ds <> [] /\ Forall (fun c => is_digit c = true) ds /\ v = decimal ds.

Lemma scan_numeral text neg v : scan text = Some (neg, v, zlen text) -> numeral neg v text.
Proof.
  intros (pre & sgn & ds & rest & Ht & Hpre & Hs & Hn & Hne & Hds & Hv & Hu)%scan_Some. assert (rest = []) as ->.
  { destruct rest as [|c rest]; [done|]. pose proof (zlen_nonneg rest). rewrite zlen_cons in Hu. lia. }
  exists pre, sgn, ds. rewrite app_nil_r in Ht. split; [done|]. split; [done|]. split; [|done]. destruct Hs as [->|?]; [left|by right]. split; [done|]. destruct neg; [by destruct Hn|done].
Qed.

(** A setting is a number and nothing else: the decimal text of any nonzero 64-bit value is read as that
    value; and what is accepted is white space, a sign and digits with nothing behind them, whose
    value fits 64 bits and is not zero.  A minus sign gets past the check of the first character
    only behind white space, and then counts modulo 2^64. *)
Lemma Setting_reads_numbers env name fallback n :
  (0 < n < 2 ^ 64 -> env name = Some (to_string n) -> Setting env name fallback = Ret n) /\
  (Setting env name fallback = Ret n -> (env name = None /\ n = fallback) \/
    exists text neg v, env name = Some text /\ numeral neg v text /\ 0 <= v < 2 ^ 64 /\ 0 < n < 2 ^ 64 /\ n = (if neg then u64 (- v) else v) /\
      (neg = true -> exists c rest, text = c :: rest /\ is_space c = true)).
Proof.
  split.
  - intros Hn He. destruct (to_string_digits n ltac:(lia)) as (Hne & Hf & Hd). unfold Setting, stoull. rewrite He. pose proof (scan_digits _ Hne Hf) as Hs. rewrite Hd in Hs.
    destruct (to_string n) as [|c ds] eqn:E; [done|]. pose proof Hf as [Hc _]%Forall_cons. destruct (digit_not_space c Hc) as (_ & -> & _). rewrite Hs.
    rewrite (proj2 (Z.ltb_ge _ _)) by lia. cbn [mbind outcome_bind fst snd]. rewrite Z.eqb_refl, (proj2 (Z.eqb_neq _ _)) by lia. done.
  - unfold Setting, stoull. destruct (env name) as [text|]; [|intros [= <-]; by left]. destruct text as [|c text]; [done|]. destruct (Z.eqb_spec (byte.unsigned c) 45) as [|Hc]; [done|].
    destruct (scan (c :: text)) as [[[neg v] used]|] eqn:Es; [|done]. destruct (Z.ltb_spec (2 ^ 64 - 1) v) as [|Hv]; [done|]. cbn [mbind outcome_bind fst snd].
    destruct (_ || _) eqn:Eb; [done|]. apply orb_false_iff in Eb as [Eb1 Eb2]. apply negb_false_iff in Eb2. zify_bools. intros [= <-]. right. subst used.
    pose proof (scan_numeral _ _ _ Es) as Hnum. exists (c :: text), neg, v. split; [done|]. split; [done|]. destruct Hnum as (pre & sgn & ds & Ht & Hpre & Hs & _ & Hds & Hd).
    assert (0 <= v) as Hv0 by (rewrite Hd; by apply decimal_nonneg). pose proof (u64_range (- v)). split; [lia|]. split; [destruct neg; lia|]. split; [done|]. intros ->.
    exists c, text. split; [done|]. destruct pre as [|c' pre]; [|injection Ht as <- _; by apply Forall_cons in Hpre as [? _]].
    destruct Hs as [[_ ?]|(c' & -> & Hc')]; [done|]. injection Ht as -> _. done.
Qed.

(** The check for a minus sign misses one behind white space. *)
Lemma Setting_accepts_negative : Setting (fun _ => Some (str " -1")) "KVRPC_CONNECTIONS" 4096 = Ret (2 ^ 64 - 1).
Proof. vm_compute. reflexivity. Qed.

(** * The assembled server *)

Lemma Setting_range env name fallback n : 0 < fallback < 2 ^ 64 -> Setting env name fallback = Ret n -> 0 < n < 2 ^ 64.
Proof.
  intros Hf. unfold Setting, stoull. destruct (env name) as [[|c text]|]; [done| |by intros [= <-]]. destruct (_ =? 45); [done|].
  destruct (scan (c :: text)) as [[[neg v] used]|] eqn:Es; [|done]. destruct (Z.ltb_spec (2 ^ 64 - 1) v) as [|Hv]; [done|]. cbn [mbind outcome_bind fst snd].
  destruct (_ || _) eqn:Eb; [done|]. apply orb_false_iff in Eb as [Eb _]. zify_bools. intros [= <-].
  destruct (scan_Some _ _ _ _ Es) as (pre & sgn & ds & rest & _ & _ & _ & _ & _ & Hds & Hd & _). assert (0 <= v) by (rewrite Hd; by apply decimal_nonneg). pose proof (u64_range (- v)). destruct neg; lia.
Qed.

Lemma server_settings_Ret env o : server_settings env = Ret o -> 0 < TcpServer.io_threads o < 2 ^ 64 /\ 0 < TcpServer.queue_capacity o < 2 ^ 64 /\ 0 < TcpServer.queue_bytes o < 2 ^ 64 /\ 0 < TcpServer.output_bytes o < 2 ^ 64 /\
  TcpServer.workers o = 1 /\ TcpServer.pipeline o = 1.
Proof.
  unfold server_settings. intros (io & Hio%Setting_range & H)%outcome_bind_Ret; [|lia]. apply outcome_bind_Ret in H as (cap & Hcap%Setting_range & H); [|lia].
  apply outcome_bind_Ret in H as (qb & Hqb%Setting_range & H); [|lia]. apply outcome_bind_Ret in H as (out & Hout%Setting_range & H); [|lia].
  apply outcome_bind_Ret in H as (idle & _ & [= <-]). done.
Qed.

(** The server that [build_server] makes. *)
Definition assembled (srv : server) (group : bool) : Prop :=
  max_frame_bytes_ srv = MAX_FRAME_SIZE /\ TcpServer.sizer_ srv = Some frame_size /\ TcpServer.batch_handler_ srv = group /\ 0 < max_connections_ srv < 2 ^ 64 /\
  0 < TcpServer.io_threads (options_ srv) <= 256 /\ TcpServer.workers (options_ srv) = 1 /\ TcpServer.pipeline (options_ srv) = 1 /\ 0 < TcpServer.idle_timeout (options_ srv) /\
  MAX_FRAME_SIZE <= TcpServer.output_bytes (options_ srv) < 2 ^ 64 /\ 0 < TcpServer.queue_capacity (options_ srv) < 2 ^ 64 /\ 0 < TcpServer.queue_bytes (options_ srv) < 2 ^ 64.

Lemma build_server_Ret w env port bind group t : build_server w env port bind group = Ret t -> assembled (members t) group /\ Lifecycle.start t false = Ret tt.
Proof.
  unfold build_server. intros (n & Hn%Setting_range & H)%outcome_bind_Ret; [|lia]. apply outcome_bind_Ret in H as (s & Hs & H). apply outcome_bind_Ret in H as (o & Ho & H).
  apply outcome_bind_Ret in H as (s' & Hs' & [= <-]). destruct (server_settings_Ret _ _ Ho) as (H0 & H1 & H2 & H3 & H4 & H5).
  unfold TcpServer_make in Hs. destruct (_ || _) eqn:E in Hs; [done|]. injection Hs as <-. unfold configure in Hs'. destruct (_ || _) eqn:E' in Hs'; [done|]. injection Hs' as <-.
  repeat (apply orb_false_iff in E' as [E' ?]). zify_bools. cbn [max_connections_ max_frame_bytes_ options_] in *. unfold assembled. destruct group; cbn; split_and!; done || lia.
Qed.

Lemma assembled_ok srv group : assembled srv group -> config_ok srv.
Proof.
  intros (Hf & Hs & _ & Hc & _ & _ & Hp & _ & Ho & Hq & Hb). unfold config_ok. rewrite Hf, Hp. unfold MAX_FRAME_SIZE, MAX_WIRE_VALUE_SIZE, MAX_VALUE_SIZE, MAX_KEY_SIZE, HEADER_SIZE in *.
  split_and!; try lia. intros f b n Hfb Hn. assert (f = frame_size) as -> by congruence.
  destruct (frame_size_Ret_inv b n Hn) as [[-> _]|(h & _ & Hv & Hok & ->)]; [done|]. pose proof (total_bounds h Hok Hv). unfold HEADER_SIZE in *. lia.
Qed.

Lemma lift_bind_inv {S A B} (c : outcome A) (f : A -> M S B) s s' b : mbind f (lift c) s = (s', Ret b) -> exists a, c = Ret a /\ f a s = (s', Ret b).
Proof. destruct c; [by eauto|done..]. Qed.

Section Setup.
Context {layout : Layout} {hashB : Hash bytes} {codec : CacheValueCodec}.

(** C35. The program starts what it was told to: when [main] reaches the start of the server, the port is a
    port, the service is the one recovered from the log with the configured sizes, the server frames
    by the KV protocol within the protocol's frame size and hands whole batches to the service
    exactly in group mode, so that it can be started; whatever the environment says, its options are in the ranges that
    the theorems on the TCP server ask for ([config_ok]). *)
Theorem setup_well_formed w args env o o' svc t :
  setup w args env o = (o', Ret (Some (svc, t))) -> let srv := members t in
  (exists port, port_of args = Ret port /\ 1 <= port <= 65535) /\ Lifecycle.start t false = Ret tt /\ assembled srv (bool_decide (sync_of args = str "group")) /\
  config_ok srv /\
  exists entries shards aof_bytes cache_bytes recovered, service_settings env = Ret (entries, shards, aof_bytes, cache_bytes) /\
    construct (w_clock w) (w_alloc w) entries shards aof_bytes cache_bytes (w_regular w) o = (o', Ret recovered) /\ cache_ svc = cache_ recovered /\ aof_ svc = aof_ recovered.
Proof.
  unfold setup. destruct (bool_decide (args !! O = _)); [done|]. destruct (4 <? _); [done|]. intros (port & Hp & H)%lift_bind_inv. destruct (negb (w_signals w)); [done|].
  apply lift_bind_inv in H as ([[[a b] c] d] & Hs & H). apply M_bind_Ret in H as (o1 & svc0 & Hc & H). cbv zeta in H. destruct (negb _ && negb _); [done|].
  apply lift_bind_inv in H as (srv0 & Hb & H). injection H as -> <- <-. destruct (build_server_Ret _ _ _ _ _ _ Hb) as [Ha Hst]. split; [|split; [done|split; [done|split]]].
  - exists port. split; [done|]. unfold port_of in Hp. apply outcome_bind_Ret in Hp as (r & _ & Hp). destruct (_ || _) eqn:E; [done|]. injection Hp as <-.
    apply orb_false_iff in E as [E E2]. apply orb_false_iff in E as [_ E1]. zify_bools. lia.
  - by eapply assembled_ok.
  - by exists a, b, c, d, svc0.
Qed.
End Setup.

(** * A start *)

#[local] Existing Instance plain_codec.
#[local] Existing Instance small_layout.
#[local] Existing Instance small_hash.

Definition quiet_world : world := mkWorld (fun _ => 1000) (fun _ => LruCache.Ample) true (fun _ => true) true (fun _ => TcpServer.mkStats 0 0 0 0 0 0 0 0 0).
Definition sample_env : environment := fun name => if bool_decide (name = "KVRPC_IO_THREADS"%string) then Some (str "8") else None.
Definition started : os * outcome (option (service * tcp)) := setup quiet_world [str "9000"; str "x.aof"; str "0.0.0.0"; str "always"] sample_env (rebooted []).

Lemma setup_well_formed_witness : exists o' svc t, started = (o', Ret (Some (svc, t))) /\ assembled (members t) false /\ TcpServer.io_threads (options_ (members t)) = 8.
Proof.
  destruct started as [o' [[[svc t]|]| | |]] eqn:E; try (exfalso; apply (f_equal (fun x => match x.2 with Ret (Some _) => true | _ => false end)) in E; vm_compute in E; discriminate E).
  exists o', svc, t. split; [reflexivity|].
  destruct (setup_well_formed quiet_world [str "9000"; str "x.aof"; str "0.0.0.0"; str "always"] sample_env (rebooted []) o' svc t E) as (_ & _ & Ha & _). split; [exact Ha|].
  apply (f_equal (fun x => match x.2 with Ret (Some y) => TcpServer.io_threads (options_ (members y.2)) | _ => 0 end)) in E. vm_compute in E. symmetry. exact E.
Defined.
