(* ===== verification/ServerProgram.v ===== *)
(** The server program from its start to its exit code (KVCache/src/main.cpp): the thread that waits for a
    signal and stops the server, the run of the server, and what is printed at the end. *)
From S2P Require Import Prelude KvProtocol EventLoop TcpServer TcpServerInv TcpServerCorrectness TcpServerLifecycle TcpServerShutdown TcpServerProgress TcpServerWitnesses TcpServerShutdownWitnesses LruCache ShardedCache Disk Aof CacheService ServiceWitnesses ServerMain.
Import TcpServer(options_, io_threads, workers, max_connections_, stats, st_accepted, st_requests, st_rejected, st_timeouts, w_rt, jobs).
Import Lifecycle.

(** * The threads of the program *)

(** The thread that waits for SIGINT and SIGTERM: waiting, inside [server.stop()], or gone. *)
Inductive watcher := Watching | Stopping | Gone.
(** The main thread: inside [server.start()], joining the watcher with how [start] ended, or at the exit. *)
Inductive main_at := InStart | Joining (result : outcome unit) | Exited (code : Z).

Record program := mkProgram { p_life : life; p_watcher : watcher; p_done : bool; p_main : main_at; p_output : bytes }.

(** What is printed. *)
Definition quoted (s : string) : bytes := [byte.of_Z 34] ++ str s ++ [byte.of_Z 34].
Definition newline : bytes := [byte.of_Z 10].
Definition usage : bytes := str "Usage: kv_server [port=8080] [aof=appendonly.aof] [bind=127.0.0.1] [sync=group|always]" ++ newline.
Definition starting_line (port io : Z) : bytes :=
  str "{" ++ quoted "event" ++ str ":" ++ quoted "starting" ++ str "," ++ quoted "port" ++ str ":" ++ to_string port ++ str "," ++
  quoted "io_threads" ++ str ":" ++ to_string io ++ str "}" ++ newline.
Definition stopped_line (s : TcpServer.Stats) : bytes :=
  str "{" ++ quoted "event" ++ str ":" ++ quoted "stopped" ++ str "," ++ quoted "accepted" ++ str ":" ++ to_string (st_accepted s) ++
  str "," ++ quoted "requests" ++ str ":" ++ to_string (st_requests s) ++ str "," ++ quoted "rejected" ++ str ":" ++ to_string (st_rejected s) ++
  str "," ++ quoted "timeouts" ++ str ":" ++ to_string (st_timeouts s) ++ str "}" ++ newline.

Section Program.
Context (t : tcp) (port : Z).

(** After [setup]: the watcher is started, the first line printed, and [server.start()] called. *)
Definition begin_program : program := mkProgram (initial t) Watching false InStart (starting_line port (io_threads (options_ (members t)))).

(** The end of [main], once the watcher is joined: on an exception the handler prints to the error stream. *)
Definition exit_program (result : outcome unit) (p : program) : program :=
  match result with
  | Ret _ => mkProgram (p_life p) (p_watcher p) (p_done p) (Exited 0) (p_output p ++ stopped_line (stats (w_rt (world_ (p_life p)))))
  | _ => mkProgram (p_life p) (p_watcher p) (p_done p) (Exited 1) (p_output p)
  end.

(** One step of one thread.  Only the watcher calls [stop]. *)
Inductive p_step : Z -> program -> program -> Prop :=
| ps_server k l l' w d o : l_step t k l l' -> stopping l' = stopping l -> stopped l' = stopped l -> p_step k (mkProgram l w d InStart o) (mkProgram l' w d InStart o)
| ps_returned l result w d o : phase_ l = Done result -> p_step 0 (mkProgram l w d InStart o) (mkProgram l w true (Joining result) o)
| ps_exit p result : p_main p = Joining result -> p_watcher p = Gone -> p_step 0 p (exit_program result p)
| ps_signal l d m o : p_step 0 (mkProgram l Watching d m o) (mkProgram (stop_flag l) Stopping d m o)
| ps_stop l d m o : p_step 0 (mkProgram l Stopping d m o) (mkProgram (stop_accept l) Gone d m o)
| ps_watch l m o : p_step 0 (mkProgram l Watching false m o) (mkProgram l Watching false m o)
| ps_unwatch l m o : p_step 0 (mkProgram l Watching true m o) (mkProgram l Gone true m o).

Inductive p_reachable : Z -> program -> Prop :=
| p_begin : p_reachable 1 begin_program
| p_more n k p p' : p_reachable n p -> p_step k p p' -> p_reachable (n + k) p'.
End Program.

(** [main]: what is printed and the exit code when the server is never started, and otherwise the program that
    runs it. *)
Section Main.
Context {layout : Layout} {hashB : Hash bytes} {codec : CacheValueCodec}.
Definition main (w : world) (args : list bytes) (env : environment) : M os ((bytes * Z) + service * program) :=
  try_catch
    (r ← setup w args env ;
     match r with
     | None => mret (inl (usage, 0))
     | Some (service, t) => port ← lift (port_of args) ; mret (inr (service, begin_program t port))
     end)
    (fun _ => mret (inl ([], 1))).
End Main.

(** * The exit *)

Section Exit.
Context (t : tcp) (port : Z).

Record program_inv (n : Z) (p : program) : Prop := {
  pv_life : l_reachable t n (p_life p);
  pv_main : match p_main p with
            | InStart => p_done p = false
            | Joining result => phase_ (p_life p) = Done result /\ p_done p = true
            | Exited code => exists result, phase_ (p_life p) = Done result /\ p_watcher p = Gone /\ code = match result with Ret _ => 0 | _ => 1 end
            end;
  pv_stopping : p_watcher p = Stopping -> stopping (p_life p) = true;
  pv_gone : p_watcher p = Gone -> p_main p = InStart -> stopped (p_life p) = true;
  pv_output : p_output p = starting_line port (io_threads (options_ (members t))) ++
                match p_main p with Exited 0 => stopped_line (stats (w_rt (world_ (p_life p)))) | _ => [] end
}.

Lemma p_step_inv n k p p' : program_inv n p -> p_step t k p p' -> program_inv (n + k) p'.
Proof.
  intros V H. revert V. destruct H as [k l l' w d o Hs E1 E2|l result w d o Hd|p result Hm Hw|l d m o|l d m o|l m o|l m o]; intros [H1 H2 H3 H4 H5];
    cbn [p_life p_watcher p_done p_main p_output] in *; rewrite ?Z.add_0_r.
  - constructor; cbn; [by eapply l_more|done|by rewrite E1|by rewrite E2|done].
  - by constructor.
  - rewrite Hm in *. destruct H2 as [H2 Hd]. rewrite app_nil_r in H5. unfold exit_program. destruct result; constructor; cbn; rewrite ?app_nil_r, ?H5; try done; by eexists.
  - constructor; cbn; try done; [rewrite <-(Z.add_0_r n); by eapply l_more; [|constructor]|destruct m; [done|done|]; by destruct H2 as (? & _ & ? & _)].
  - constructor; cbn; try done; [rewrite <-(Z.add_0_r n); eapply l_more; [done|]; constructor; by apply H3|destruct m; [done|done|]; by destruct H2 as (? & _ & ? & _)].
  - done.
  - constructor; cbn; try done; destruct m; try done. by destruct H2 as (? & _ & ? & _).
Qed.
Lemma p_reachable_inv n p : p_reachable t port n p -> program_inv n p.
Proof.
  induction 1; [|by eapply p_step_inv]. constructor; cbn; try done; [constructor|by rewrite app_nil_r].
Qed.
End Exit.

Section Running.
Context (t : tcp) (port : Z) (cfg : config_ok (members t)) (threads : 0 < io_threads (options_ (members t)) /\ 0 < workers (options_ (members t))) (ready : start t false = Ret tt).

(** Nearer to the exit: first the main thread, then the watcher, then the server. *)
Definition main_left (m : main_at) : nat := match m with InStart => 2 | Joining _ => 1 | Exited _ => 0 end.
Definition watcher_left (w : watcher) : nat := match w with Watching => 2 | Stopping => 1 | Gone => 0 end.
Definition ordered (R : life -> life -> Prop) (p' p : program) : Prop :=
  (main_left (p_main p') < main_left (p_main p))%nat \/ main_left (p_main p') = main_left (p_main p) /\
  ((watcher_left (p_watcher p') < watcher_left (p_watcher p))%nat \/ watcher_left (p_watcher p') = watcher_left (p_watcher p) /\ R (p_life p') (p_life p)).

Lemma ordered_wf : well_founded (ordered (nearer t)).
Proof.
  intros p. remember (main_left (p_main p)) as a eqn:Ea. revert p Ea. induction (lt_wf a) as [a _ IHa]. intros p Ea.
  remember (watcher_left (p_watcher p)) as b eqn:Eb. revert p Ea Eb. induction (lt_wf b) as [b _ IHb]. intros p Ea Eb.
  remember (p_life p) as l eqn:El. revert p Ea Eb El. induction (nearer_wf t l) as [l _ IHl]. intros p -> -> ->. constructor.
  intros p' [Hm|[Hm [Hw|[Hw Hl]]]]; [by eapply IHa|by eapply IHb|by eapply IHl].
Qed.
Lemma no_further_refl l : no_further t l l.
Proof. by right. Qed.
Lemma p_step_no_further n k p p' : program_inv t port n p -> p_step t k p p' -> ordered (no_further t) p' p.
Proof.
  intros V H. revert V. destruct H as [k l l' w d o Hs E1 E2|l result w d o Hd|p result Hm Hw|l d m o|l d m o|l m o|l m o]; intros [H1 _ _ _ _].
  - right. split; [done|right]. split; [done|]. apply (l_step_no_further t k); [|done]. by eapply (l_reachable_inv t (some_worker t threads)).
  - left. cbn. lia.
  - left. rewrite Hm. unfold exit_program. destruct result; cbn; lia.
  - right. split; [done|left]. cbn. lia.
  - right. split; [done|left]. cbn. lia.
  - right. split; [done|right]. split; [done|]. apply no_further_refl.
  - right. split; [done|left]. cbn. lia.
Qed.

(** A server that was told to stop, from the call of [start] on. *)
Lemma stopping_server_moves n l : l_reachable t n l -> n + 2 < 2 ^ 64 -> error_ l = None -> stopped l = true -> (exists result, phase_ l = Done result) \/ moves t l.
Proof.
  intros H Hn He Hs. destruct (decide (stage (phase_ l) = 5%nat)) as [E|E]; [|apply (stopped_moves t cfg threads n); try done; by intros Ep; rewrite Ep in E].
  assert (phase_ l = Starting) as Ep by (by destruct (phase_ l)). right. apply (moves_by t 0 l (with_phase Building l)); [|left; cbn; rewrite Ep; cbn; lia|done..].
  constructor. unfold runtime_. by rewrite Ep.
Qed.

Lemma stopping_program_moves n p : program_inv t port n p -> n + 2 < 2 ^ 64 -> error_ (p_life p) = None -> p_watcher p <> Watching \/ p_main p <> InStart ->
  (exists code, p_main p = Exited code) \/ exists k p', p_step t k p p' /\ ordered (nearer t) p' p.
Proof.
  intros [H1 H2 H3 H4 _] Hn He Hs. destruct p as [l w d m o]. cbn [p_life p_watcher p_done p_main p_output] in *. destruct m as [|result|code]; [right|right|by left; eexists].
  - destruct w; [by destruct Hs| |].
    + exists 0, (mkProgram (stop_accept l) Gone d InStart o). split; [constructor|]. right. split; [done|left]. cbn. lia.
    + destruct (stopping_server_moves n l H1 Hn He (H4 eq_refl eq_refl)) as [[result Hd]|(k & l' & Hst & Hnr & E1 & E2)].
      * exists 0, (mkProgram l Gone true (Joining result) o). split; [by constructor|]. left. cbn. lia.
      * exists k, (mkProgram l' Gone d InStart o). split; [by constructor|]. right. split; [done|right]. by split.
  - destruct H2 as [Hd ->]. destruct w.
    + exists 0, (mkProgram l Gone true (Joining result) o). split; [constructor|]. right. split; [done|left]. cbn. lia.
    + exists 0, (mkProgram (stop_accept l) Gone true (Joining result) o). split; [constructor|]. right. split; [done|left]. cbn. lia.
    + exists 0, (exit_program result (mkProgram l Gone true (Joining result) o)). split; [by constructor|]. left. unfold exit_program. destruct result; cbn; lia.
Qed.

(** C36. The program ends as it should.  Once a signal has been received, or the server has ended, and until
    a reactor fails, it has exited or some thread brings the exit nearer, in an order without endless
    descent; no step takes it further away.  When it has exited every thread has ended and no request
    is queued or being handled; the code is 0 exactly when the server ended without an exception,
    and then no connection is open and the final counters were printed. *)
Theorem program_ends n p : p_reachable t port n p -> n + 2 < 2 ^ 64 ->
  (error_ (p_life p) = None -> p_watcher p <> Watching \/ p_main p <> InStart ->
     (exists code, p_main p = Exited code) \/ exists k p', p_step t k p p' /\ ordered (nearer t) p' p) /\
  well_founded (ordered (nearer t)) /\ (forall k p', p_step t k p p' -> ordered (no_further t) p' p) /\
  forall code, p_main p = Exited code -> exists result, phase_ (p_life p) = Done result /\ (code = 0 <-> result = Ret tt) /\
    p_watcher p = Gone /\ (Running ∉ reactors_ (p_life p)) /\ Forall (eq Left) (workers_ (p_life p)) /\
    jobs (w_rt (world_ (p_life p))) = [] /\ TcpServer.w_batches (world_ (p_life p)) = [] /\
    (code = 0 -> TcpServer.st_active (stats (w_rt (world_ (p_life p)))) = 0 /\
       p_output p = starting_line port (io_threads (options_ (members t))) ++ stopped_line (stats (w_rt (world_ (p_life p))))).
Proof.
  intros H Hn. pose proof (p_reachable_inv t port n p H) as V. split; [by apply (stopping_program_moves n)|]. split; [apply ordered_wf|]. split; [intros k p'; by apply (p_step_no_further n)|].
  intros code Hc. destruct V as [Hl Hm _ _ Ho]. rewrite Hc in Hm, Ho. destruct Hm as (result & Hd & Hw & ->). destruct (ended_threads t threads n _ result Hl Hd) as (H1 & H2 & [H3 H4] & H5).
  assert (match result with Ret _ => 0 | _ => 1 end = 0 <-> result = Ret tt) as Hiff by (destruct result as [[]| | |]; split; congruence).
  exists result. split; [done|]. split; [exact Hiff|]. do 5 (split; [done|]). intros Hz. pose proof (proj1 Hiff Hz) as ->. destruct (H5 eq_refl) as [He _]. split; [|done].
  by apply (ended_connections t cfg threads n (p_life p) (Ret tt) Hl ltac:(lia) Hd He).
Qed.
End Running.

(** * A run *)

Definition calls_stop (m : move) : bool := match m with MStopFlag | MStopAccept => true | _ => false end.
Lemma play_stop t m l r : play t m l = Some r -> calls_stop m = false -> stopping r.2 = stopping l /\ stopped r.2 = stopped l.
Proof. intros H Hc. unfold play, after in H. repeat (case_match; try done); simplify_eq; done. Qed.
Lemma plays_program t port (count : (0 < thread_count t)%nat) w d o ms : forall n l r, p_reachable t port n (mkProgram l w d InStart o) -> Forall (fun m => calls_stop m = false) ms ->
  plays t ms (n, l) = Some r -> p_reachable t port r.1 (mkProgram r.2 w d InStart o).
Proof.
  induction ms as [|m ms IH]; intros n l r H Hf E; cbn [plays fst snd] in E; [by injection E as <-|]. apply Forall_cons in Hf as [Hm Hf]. destruct (play t m l) as [x|] eqn:Ep; [|done].
  eapply IH; [|done|exact E]. apply (p_more t port n x.1 (mkProgram l w d InStart o)); [done|]. destruct (play_stop t m l x Ep Hm) as [E1 E2]. constructor; [|done..].
  apply (play_step t m); [|done]. eapply l_reachable_inv; [exact count|]. exact (pv_life _ _ _ _ (p_reachable_inv t port n _ H)).
Qed.

(** A request is being handled when the signal comes. *)
Definition before_signal : list move :=
  [MStart; MSpawnWorker; MSpawnReactor 0; MListen 8080; MAccept [TcpServer.Accepted 7 (str "abc")]; MTask 0 TcpServerWitnesses.quiet_env; MEvent 0 reading 1 EventLoop.EPOLLIN; MTake 0].
Definition after_signal : list move :=
  [MAcceptEnd; MComplete 0 (Ret [mkReply 2 (str "xyz") false]) 9; MTask 0 writing; MLeave 0; MJoinWorkers; MTask 0 TcpServerWitnesses.quiet_env; MReturn 0; MJoinReactors].
Definition signalled : Z * life := default start_life (plays tiny_tcp before_signal start_life).
Definition told : life := stop_accept (stop_flag signalled.2).
Definition finished : Z * life := default start_life (plays tiny_tcp after_signal (signalled.1, told)).
Definition exited : program := exit_program (Ret tt) (mkProgram finished.2 Gone true (Joining (Ret tt)) (starting_line 8080 1)).

Lemma exited_reachable : p_reachable tiny_tcp 8080 11 exited.
Proof.
  assert (p_reachable tiny_tcp 8080 signalled.1 (mkProgram signalled.2 Watching false InStart (starting_line 8080 1))) as R1.
  { apply (plays_program tiny_tcp 8080 ltac:(vm_compute; lia) _ _ _ before_signal 1 (initial tiny_tcp)); [constructor|by repeat constructor|]. vm_compute. reflexivity. }
  assert (p_reachable tiny_tcp 8080 signalled.1 (mkProgram told Gone false InStart (starting_line 8080 1))) as R2.
  { rewrite <-(Z.add_0_r signalled.1). apply (p_more _ _ _ _ (mkProgram (stop_flag signalled.2) Stopping false InStart (starting_line 8080 1))); [|apply ps_stop].
    rewrite <-(Z.add_0_r signalled.1). eapply p_more; [exact R1|apply ps_signal]. }
  assert (p_reachable tiny_tcp 8080 finished.1 (mkProgram finished.2 Gone false InStart (starting_line 8080 1))) as R3.
  { apply (plays_program tiny_tcp 8080 ltac:(vm_compute; lia) _ _ _ after_signal signalled.1 told); [exact R2|by repeat constructor|]. vm_compute. reflexivity. }
  assert (finished.1 = 11) as E by (vm_compute; reflexivity). rewrite E in R3.
  assert (p_reachable tiny_tcp 8080 (11 + 0) (mkProgram finished.2 Gone true (Joining (Ret tt)) (starting_line 8080 1))) as R4.
  { eapply p_more; [exact R3|]. constructor. vm_compute. reflexivity. }
  eapply (p_more _ _ 11 0); [exact R4|]. by constructor.
Qed.

Lemma program_ends_witness : p_main exited = Exited 0 /\ TcpServer.st_active (stats (w_rt (world_ (p_life exited)))) = 0 /\
  TcpServer.st_requests (stats (w_rt (world_ (p_life exited)))) = 1.
Proof.
  destruct (program_ends tiny_tcp 8080 tiny_tcp_ok tiny_threads ltac:(vm_compute; reflexivity) 11 exited exited_reachable) as (_ & _ & _ & H).
  - lia.
  - destruct (H 0 ltac:(reflexivity)) as (result & _ & _ & _ & _ & _ & _ & _ & H0). destruct (H0 eq_refl) as [Ha _]. split; [reflexivity|]. split; [exact Ha|]. vm_compute. reflexivity.
Defined.
