(* ===== verification/TransportRuns.v ===== *)
(** Running a transport step by step on scripts of system calls, for concrete runs. *)
From S2P Require Import Prelude Executor EventLoop AsyncTransport ServiceWitnesses.
Import EventLoop AsyncTransport.

Section Runs.
Context (cfg : config).

(** The next task of the reactor, and an event on the first connection. *)
Definition task_run (ps : list pump_env) (ds : list dial_reply) (s : impl) : impl * outcome unit :=
  exec cfg (hd TNothing (tasks_ (evloop s))) (upd_env ps ds (upd_loop (pop_task (evloop s)) s)).
Definition event_run (ps : list pump_env) (ds : list dial_reply) (s : impl) : impl * outcome unit := notify cfg O (upd_env ps ds s).

Lemma task_step ps ds s : tasks_ (evloop s) <> [] -> is_Ret (task_run ps ds s).2 = true -> step cfg (2 * zlen ds + 1) s (task_run ps ds s).1.
Proof.
  intros Ht Hr. destruct (tasks_ (evloop s)) as [|t ts] eqn:E; [done|]. eapply (step_task _ _ ps ds t ts); [done|].
  pose proof (run_Ret tt _ Hr) as Hx. unfold task_run in Hx at 1. rewrite E in Hx. destruct (get_Ret tt _). exact Hx.
Qed.
Lemma event_step ps ds tk x s : watches_ (evloop s) !! tk = Some x -> w_callback x = O -> is_Ret (event_run ps ds s).2 = true -> step cfg (2 * zlen ds + 1) s (event_run ps ds s).1.
Proof.
  intros Ht Hx0 Hr. eapply (step_event _ _ ps ds tk x); [done|]. destruct x as [f k]. cbn in Hx0. subst k. pose proof (run_Ret tt _ Hr) as Hx. unfold event_run in Hx at 1.
  destruct (get_Ret tt _). exact Hx.
Qed.
End Runs.

(** Pumps that send what there is, in pieces, or receive. *)
Definition sending : pump_env := mkPumpEnv false true [Took 5; SEintr; Took 100000] [] true.
Definition receiving (l : list recv_reply) : pump_env := mkPumpEnv false true [] l true.
(** A connection made at once. *)
Definition dialed : dial_reply := Dialed 5 false true 0.
Definition visit_all (q : gmap Z nat) : list (Z * nat) := map_to_list q.
