(* ===== verification/Network.v ===== *)
(** A session of [AsyncTransport] connected over TCP to a [TcpServer] with a handler: what the client receives
    are replies of the handler to the requests it sent, and those to later requests are later replies. *)
From S2P Require Import Prelude Buffer EventLoop TcpServer TcpServerInv TcpServerCorrectness TcpServerReplies TcpServerOrder AsyncTransport AsyncTransportInv AsyncTransportCorrectness.
Import TcpServer(server, Peer, sizer_).

Section Network.
Context (srv : server) {St : Type} (handle : handler St) (h0 : St) (ios : nat).

(** The state [y] of the system comes after [y']. *)
Definition later (y' y : system St) : Prop := rtc (fun a b => exists k, sys_step srv handle k a b) y' y.

(** TCP between a session of a client and a connection of the server, up to the end of the session or to now:
    what the server received is a prefix of what the client sent, and conversely.  A session that received
    nothing need not have reached the server. *)
Definition connected (y : system St) (x : AsyncTransport.Session) : Prop :=
  AsyncTransport.stream x = [] \/
  exists n y' p, sys_reachable srv handle h0 ios n y' /\ n < 2 ^ 64 /\ later y' y /\ serving y' p /\
    TcpServer.stream p `prefix_of` AsyncTransport.wire x /\ AsyncTransport.stream x `prefix_of` TcpServer.wire p.

(** The same since the moment when the server was in [y1] and the client had the sessions [old]: the session is
    one of these, or its connection had by then received no more than the session, as it was, had sent. *)
Definition followed (n1 : Z) (y1 : system St) (old : list AsyncTransport.Session) (y : system St) (x : AsyncTransport.Session) : Prop :=
  AsyncTransport.stream x = [] \/ x ∈ old /\ connected y x \/
  exists n y' p i token, since srv handle n1 y1 n y' /\ n < 2 ^ 64 /\ later y' y /\ peer_at (sy_world y') i token = Some p /\
    TcpServer.stream p `prefix_of` AsyncTransport.wire x /\ AsyncTransport.stream x `prefix_of` TcpServer.wire p /\
    forall p1, peer_at (sy_world y1) i token = Some p1 -> exists x1, x1 ∈ old /\
      AsyncTransport.dispatched x1 `prefix_of` AsyncTransport.dispatched x /\ TcpServer.stream p1 `prefix_of` AsyncTransport.wire x1.

Lemma peer_at_serving (y : system St) i token p : peer_at (sy_world y) i token = Some p -> serving y p.
Proof. unfold peer_at. intros H. destruct (TcpServer.w_ios (sy_world y) !! i) as [[l ps]|] eqn:E; [|done]. by exists i, l, ps, token. Qed.
Lemma followed_connected n1 y1 old y x : sys_reachable srv handle h0 ios n1 y1 -> followed n1 y1 old y x -> connected y x.
Proof.
  intros H1 [E|[[_ Hc]|(n & y' & p & i & token & Hs & Hn & Hl & Hp & Hin & Hout & _)]]; [by left|done|right]. exists n, y', p. split; [by eapply since_reachable|]. by apply peer_at_serving in Hp.
Qed.

Lemma later_mono {I : St -> Prop} {Q : St -> bytes -> Reply -> Prop} {handles : Handles handle I Q} y' y : later y' y -> I (sy_handler y') -> I (sy_handler y) /\ forall b x, Q (sy_handler y') b x -> Q (sy_handler y) b x.
Proof.
  induction 1 as [|a b c [k Hs] _ IH]; [done|]. intros Ha. assert (I (sy_handler b) /\ forall r x, Q (sy_handler a) r x -> Q (sy_handler b) r x) as [Hb Hab].
  { destruct Hs as [|h h' w l batch r handled us _ Hx _]; [done|]. cbn in *. split; [by eapply handles_inv|]. intros r' x. by eapply handles_mono. }
  destruct (IH Hb) as [? Hbc]. split; [done|]. auto.
Qed.

Context (cfg : TcpServerInv.config_ok srv) {I : St -> Prop} {Q : St -> bytes -> Reply -> Prop} {handles : Handles handle I Q} (start : I h0) (some : (0 < ios)%nat).

(** The requests of a session as the server receives them. *)
Section Requests.
Context (f : bytes -> outcome Z) (framing : sizer_ srv = Some f) (local : forall a r r', 0 < zlen a -> f (a ++ r) = Ret (zlen a) -> f (a ++ r') = Ret (zlen a)).

Definition sent_well (x : AsyncTransport.Session) : Prop :=
  AsyncTransport.wire x `prefix_of` concat (AsyncTransport.dispatched x).*2 /\ Forall (fun b => forall rest, f (b ++ rest) = Ret (zlen b)) (AsyncTransport.dispatched x).*2.

Lemma frames_sent p x : concat (TcpServer.frames p) `prefix_of` TcpServer.stream p -> Forall (TcpServerInv.delimited srv) (TcpServer.frames p) ->
  TcpServer.stream p `prefix_of` AsyncTransport.wire x -> sent_well x -> TcpServer.frames p `prefix_of` (AsyncTransport.dispatched x).*2.
Proof.
  intros Hst Hdel Hin [Hw Hreq]. apply (frames_unique f); [done| |done|by do 2 (etrans; [eassumption|])]. eapply Forall_impl; [exact Hdel|]. intros b [Hb Hd]. split; [done|]. by rewrite framing in Hd.
Qed.

(** The replies a session has received, with the requests they answer: requests of this session, and in
    their order when the server handles one at a time. *)
Lemma connected_replies y x : connected y x -> sent_well x ->
  exists l : list (bytes * Reply), AsyncTransport.stream x `prefix_of` concat ((fun a => r_bytes a.2) <$> l) /\
    Forall (fun a => a.1 ∈ (AsyncTransport.dispatched x).*2 /\ Q (sy_handler y) a.1 a.2 /\ close a.2 = false /\ consumed a.2 = zlen a.1) l /\
    (TcpServer.limit srv = 1 -> l.*1 `prefix_of` (AsyncTransport.dispatched x).*2).
Proof.
  intros [E|(n & y' & p & Hy & Hn & Hl & Hp & Hin & Hout)] Hx; [exists []; rewrite E; split; [done|]; split; [done|]; intros _; apply prefix_nil|].
  destruct (connection_replies srv handle cfg _ _ _ _ _ Hy start some Hn ltac:(by rewrite framing) Hp) as (Hst & Hdel & Hwire & Hsub & Hpre & Ha).
  destruct (sys_reachable_inv srv handle cfg _ _ _ _ Hy start some Hn) as (_ & Hi & _). destruct (later_mono _ _ Hl Hi) as [_ Hmono].
  pose proof (frames_sent p x Hst Hdel Hin Hx) as Hf.
  exists (TcpServer.answers p). split; [by etrans|]. split; [|intros Hlim; etrans; [by apply Hpre|done]].
  apply Forall_forall. intros a Hin'. eapply Forall_forall in Ha; [|exact Hin']. destruct Ha as (? & ? & ?). split; [|by auto].
  eapply elem_of_prefix; [|exact Hf]. eapply elem_of_submseteq; [|exact Hsub]. by apply list_elem_of_fmap_2.
Qed.

(** The replies to requests whose identifiers no session had then are replies of the handler since then. *)
Lemma followed_replies {I' : St -> Prop} {Q' : St -> bytes -> Reply -> Prop} {handles' : Handles handle I' Q'} (known : Z -> Prop) n1 y1 old y x : TcpServer.limit srv = 1 ->
  sys_reachable srv handle h0 ios n1 y1 -> I' (sy_handler y1) -> Forall (fun x1 => sent_well x1 /\ Forall (fun d => known d.1) (AsyncTransport.dispatched x1)) old ->
  followed n1 y1 old y x -> sent_well x ->
  exists l : list (bytes * Reply), AsyncTransport.stream x `prefix_of` concat ((fun a => r_bytes a.2) <$> l) /\
    Forall (fun a => Q (sy_handler y) a.1 a.2 /\ close a.2 = false /\ consumed a.2 = zlen a.1) l /\ l.*1 `prefix_of` (AsyncTransport.dispatched x).*2 /\
    forall k a d, l !! k = Some a -> AsyncTransport.dispatched x !! k = Some d -> known d.1 \/ Q' (sy_handler y) a.1 a.2.
Proof.
  intros one Hy1 HI1 Hold Hfol Hx. destruct Hfol as [E|[[Hin Hc]|(n & y' & p & i & token & Hs & Hn & Hl & Hp & Hin & Hout & Hcause)]].
  - exists []. rewrite E. split; [done|]. split; [done|]. split; [apply prefix_nil|done].
  - destruct (connected_replies y x Hc Hx) as (l & H1 & H2 & H3). exists l. split; [done|]. split; [eapply Forall_impl; [exact H2|]; by intros a (_ & ? & ?)|]. split; [auto|].
    intros k a d _ Hd. left. eapply Forall_forall in Hold; [|exact Hin]. destruct Hold as [_ Hk]. by eapply (Forall_lookup_1 _ _ k) in Hk.
  - pose proof (since_reachable _ _ _ _ _ _ _ _ Hy1 Hs) as Hy. pose proof (peer_at_serving _ _ _ _ Hp) as Hsv.
    destruct (connection_replies srv handle cfg _ _ _ _ _ Hy start some Hn ltac:(by rewrite framing) Hsv) as (Hst & Hdel & Hwire & Hsub & Hpre & Ha).
    destruct (sys_reachable_inv srv handle cfg _ _ _ _ Hy start some Hn) as (_ & Hi & _). destruct (later_mono _ _ Hl Hi) as [_ Hmono].
    pose proof (frames_sent p x Hst Hdel Hin Hx) as Hf. pose proof (since_bound _ _ _ _ _ _ Hs) as Hb.
    destruct (since_recent srv handle cfg one h0 ios n1 y1 n y' Hy1 start some Hs Hn HI1) as [HI' Hrec]. destruct (later_mono _ _ Hl HI') as [_ Hmono'].
    exists (TcpServer.answers p). split; [by etrans|]. split; [eapply Forall_impl; [exact Ha|]; intros a (? & ? & ?); auto|]. split; [etrans; [by apply Hpre|done]|].
    intros k a d Hk Hd. destruct (decide (base (sy_world y1) i token <= k)%nat) as [Hle|Hgt].
    { right. unfold peer_at in Hp. destruct (TcpServer.w_ios (sy_world y') !! i) as [[io ps]|] eqn:Hi'; [|done]. cbn in Hp.
      apply Hmono'. by eapply (rc_answers _ _ _ Hrec). }
    left. unfold base in Hgt. destruct (peer_at (sy_world y1) i token) as [p1|] eqn:Hp1; [|lia]. destruct (Hcause p1 eq_refl) as (x1 & Hx1 & Hgrown & Hs1).
    eapply Forall_forall in Hold; [|exact Hx1]. destruct Hold as [Hw1 Hknown].
    destruct (connection_replies srv handle cfg _ _ _ _ _ Hy1 start some ltac:(lia) ltac:(by rewrite framing) (peer_at_serving _ _ _ _ Hp1)) as (Hst1 & Hdel1 & _).
    pose proof (prefix_length _ _ (frames_sent p1 x1 Hst1 Hdel1 Hs1 Hw1)) as Hlen. rewrite length_fmap in Hlen.
    destruct (lookup_lt_is_Some_2 (AsyncTransport.dispatched x1) k ltac:(lia)) as [d1 Hd1]. pose proof (prefix_lookup_Some _ _ _ _ Hd1 Hgrown) as Hd'. rewrite Hd in Hd'. injection Hd' as <-.
    by eapply (Forall_lookup_1 _ _ k) in Hknown.
Qed.
End Requests.
End Network.
