(* ===== verification/KvClient.v ===== *)
(** [kvrpc::KVCacheClient] (include/kvrpc/kvcache_client.h): the calls of the KV protocol over
    [AsyncTransport], and the completion that turns a response into the value of a future.  Over a
    peer that answers each connection's requests in order, a future holds the reply to its own call. *)
From S2P Require Import Prelude KvProtocol Buffer Executor EventLoop AsyncTransport AsyncTransportInv AsyncTransportStable AsyncTransportCorrectness TcpConnection ConnectionPool CacheService.

Module KvClient.

Section KvClient.
Context {codec : CacheValueCodec}.

(** * Data *)

(** The type [T] of [Request<T>] and its values. *)
Inductive kind := KBool | KString | KOptional.
Inductive result := RBool (b : bool) | RString (s : bytes) | ROptional (o : option bytes).
(** What a completion captures. *)
Record call := mkCall { c_kind : kind; c_command : Command; c_key : bytes; c_value : bytes }.
(** [promises] are the calls made, by identifier. *)
Record client := mkClient { options_ : ClientOptions; next_ : Z; transport_ : AsyncTransport.impl; promises : gmap Z call }.

Definition kv_config (t : TransportOptions) (o : ClientOptions) (visit : gmap Z nat -> list (Z * nat)) : AsyncTransport.config :=
  AsyncTransport.mkConfig t o frame_size None visit.

(** * Completion *)

Definition is_write (c : Command) : bool := bool_decide (c = SET) || bool_decide (c = SET_TTL) || bool_decide (c = DEL).

(** The value of a response; its body runs off the buffer when the header announces more. *)
Definition response_value (limit : Z) (x : call) (b : bytes) : outcome result :=
  h ← Message.decodeHeader b ;
  if negb (command h =? command_code (c_command x)) || negb (key_len h =? zlen (c_key x)) || (limit <? zlen b) ||
     (is_write (c_command x) && negb (value_len h =? 0))
  then Throw (KvError protocol) else
  if zlen b <? Message.total h then Undef else
  let response_key := Message.body_key h b in
  let value := Message.body_value h b in
  if negb (bool_decide (response_key = c_key x)) then Throw (KvError protocol) else
  match c_kind x with
  | KBool => Ret (RBool true)
  | KOptional =>
      match ParseFromString value with
      | Some item => Ret (ROptional (if cv_found item then Some (cv_value item) else None))
      | None => Throw (KvError protocol)
      end
  | KString => Ret (RString value)
  end.

(** What the promise holds, and whether the response was acceptable. *)
Definition complete (limit : Z) (x : call) (b : bytes) (error : option exn) : outcome result * bool :=
  match error with
  | Some e => (Throw e, true)
  | None =>
      match response_value limit x b with
      | Ret v => (Ret v, true)
      | Throw (KvError code) => (Throw (KvError code), bool_decide (code <> protocol))
      | r => (r, false)
      end
  end.

(** * Calls *)

Section Calls.
Context (t : TransportOptions) (visit : gmap Z nat -> list (Z * nat)).

Definition fetch_add : M client Z := fun c =>
  (mkClient (options_ c) (u64 (next_ c + 1)) (transport_ c) (promises c), Ret (next_ c)).
Definition submit (now id : Z) (request : bytes) (x : call) : M client unit := modify (fun c =>
  mkClient (options_ c) (next_ c)
    (AsyncTransport.Submit (kv_config t (options_ c) visit) now id request (fun b e => (complete (max_frame_bytes (options_ c)) x b e).2) (transport_ c))
    (<[id := x]> (promises c))).

(** The identifier stands for the future. *)
Definition Request (now : Z) (k : kind) (command : Command) (key value : bytes) : M client Z :=
  c ← get_state ;
  if (MAX_KEY_SIZE <? zlen key) ||
     ((if bool_decide (command = SET_TTL) then MAX_WIRE_VALUE_SIZE else MAX_VALUE_SIZE) <? zlen value) ||
     (max_frame_bytes (options_ c) <? HEADER_SIZE + zlen key + zlen value)
  then throw (KvError invalid_argument) else
  request ← lift (Message.encode command key value) ;
  id ← fetch_add ;
  submit now id request (mkCall k command key value) ;;
  mret id.

Definition Set_ (now : Z) (key value : bytes) : M client Z := Request now KBool SET key value.
Definition Get (now : Z) (key : bytes) : M client Z := Request now KString GET key [].
Definition Delete (now : Z) (key : bytes) : M client Z := Request now KBool DEL key [].
Definition Stats (now : Z) : M client Z := Request now KString STATS [] [].
Definition Lookup (now : Z) (key : bytes) : M client Z := Request now KOptional LOOKUP key [].
Definition SetWithTTL (now : Z) (key value : bytes) (ttl : Z) : M client Z :=
  if (ttl <=? 0) || (MAX_VALUE_SIZE <? zlen value) then throw (KvError invalid_argument)
  else Request now KBool SET_TTL key (SerializeAsString (mkCacheValue false value 0 (u64 ttl) [])).

(** ** Interleavings *)

Inductive operation := OSet (key value : bytes) | OGet (key : bytes) | ODelete (key : bytes) | OStats | OLookup (key : bytes) | OSetWithTTL (key value : bytes) (ttl : Z).
Definition run (now : Z) (o : operation) : M client Z :=
  match o with
  | OSet k v => Set_ now k v
  | OGet k => Get now k
  | ODelete k => Delete now k
  | OStats => Stats now
  | OLookup k => Lookup now k
  | OSetWithTTL k v d => SetWithTTL now k v d
  end.

(** A call, or a step of the transport that is not a submission. *)
Inductive step : Z -> client -> client -> Prop :=
| step_call c now o c' id : run now o c = (c', Ret id) -> step 0 c c'
| step_transport n c s' : AsyncTransport.step (kv_config t (options_ c) visit) n (transport_ c) s' ->
    AsyncTransport.submitted s' = AsyncTransport.submitted (transport_ c) -> step n c (mkClient (options_ c) (next_ c) s' (promises c)).
End Calls.

(** The two public constructors; a null pool has no endpoint. *)
Definition Endpoint (pool : option ConnectionPool.pool) : outcome ClientEndpoint :=
  match pool with None => Throw (KvError invalid_argument) | Some p => Ret (ConnectionPool.Endpoint p) end.
Definition construct (visit : gmap Z nat -> list (Z * nat)) (e : ClientEndpoint) (o : ClientOptions) : outcome client :=
  s ← AsyncTransport.make (port e) (valid_address e) (connections e) (kv_config (timeouts e) o visit) ; Ret (mkClient o 1 s ∅).

(** With the identifiers given out by the reactor, and the calls made. *)
Inductive reachable (visit : gmap Z nat -> list (Z * nat)) (e : ClientEndpoint) (o : ClientOptions) : Z -> Z -> client -> Prop :=
| reach_construct c : construct visit e o = Ret c -> reachable visit e o 1 0 c
| reach_step n k m c c' : reachable visit e o n m c -> step (timeouts e) visit k c c' -> reachable visit e o (n + k) (m + 1) c'.
End KvClient.

(** * The frame sizer as the transport's framing *)

Lemma kv_config_ok t o visit : (forall q, visit q ≡ₚ map_to_list q) -> 0 < max_frame_bytes o <= 2 ^ 62 -> 0 < queue_capacity o < 2 ^ 64 ->
  0 <= queue_bytes o < 2 ^ 64 -> 0 < max_inflight o < 2 ^ 64 -> config_ok (kv_config t o visit).
Proof.
  intros Hv Hf Hc Hb Hi. split; cbn; try done.
  - intros b. unfold frame_size. destruct (Z.ltb_spec (zlen b) HEADER_SIZE) as [|Hl]; [done|]. destruct (decodeHeader_total b Hl) as (h & -> & Hok & _). cbn.
    unfold Message.validate. destruct (Message.valid h) eqn:Ev; [|done]. pose proof (total_bounds h Hok Ev). unfold HEADER_SIZE in *. cbn. lia.
  - intros b [[_ Hl]|(h & _ & Hv' & Hok & Hn)]%frame_size_Ret_inv; [unfold HEADER_SIZE in *; lia|].
    pose proof (total_bounds h Hok Hv'). unfold HEADER_SIZE in *. lia.
Qed.

(** The size of a frame depends on the frame alone. *)
Lemma frame_size_local a r r' : 0 < zlen a -> frame_size (a ++ r) = Ret (zlen a) -> frame_size (a ++ r') = Ret (zlen a).
Proof.
  intros Ha Hf. destruct (frame_size_Ret_inv _ _ Hf) as [[? _]|(h & Hd & Hv & Hok & Hn)]; [lia|]. pose proof (total_bounds h Hok Hv) as Ht.
  assert (HEADER_SIZE <= zlen a) as Hl by lia. pose proof (zlen_nonneg r'). rewrite <-(decodeHeader_prefix a (a ++ r)) in Hd by (done || by apply prefix_app_r).
  unfold frame_size. rewrite zlen_app, (proj2 (Z.ltb_ge _ _)) by lia. rewrite <-(decodeHeader_prefix a (a ++ r')) by (done || by apply prefix_app_r).
  rewrite Hd. cbn. unfold Message.validate. rewrite Hv. cbn. by rewrite Hn.
Qed.

Section Client.
Context {codec : CacheValueCodec}.

(** * What a response is worth *)

Definition kind_of (c : Command) : kind := match c with SET | SET_TTL | DEL => KBool | LOOKUP => KOptional | _ => KString end.

(** [r] answers the request [y] as the protocol requires. *)
Definition well_formed_reply (y r : bytes) : Prop :=
  forall cmd key value, Message.encode cmd key value = Ret y -> exists resp, Message.encode cmd key resp = Ret r /\
    (is_write cmd = true -> resp = []) /\ (cmd = LOOKUP -> is_Some (ParseFromString resp)).

(** The value [resp] stands for. *)
Definition meaning (k : kind) (resp : bytes) : result :=
  match k with
  | KBool => RBool true
  | KString => RString resp
  | KOptional => ROptional (match ParseFromString resp with Some item => if cv_found item then Some (cv_value item) else None | None => None end)
  end.

Lemma complete_reply limit x resp r : c_kind x = kind_of (c_command x) -> Message.encode (c_command x) (c_key x) resp = Ret r -> zlen r <= limit ->
  (is_write (c_command x) = true -> resp = []) -> (c_command x = LOOKUP -> is_Some (ParseFromString resp)) ->
  complete limit x r None = (Ret (meaning (c_kind x) resp), true).
Proof.
  intros Hk [He ->]%encode_Ret_inv Hl Hw Hlook. unfold complete, response_value. rewrite <-(app_nil_r (header_bytes _ ++ _)) in *.
  rewrite decodeHeader_frame by done. rewrite bind_Ret. cbn [command header_of key_len value_len].
  rewrite !Z.eqb_refl. cbn [negb orb]. rewrite (proj2 (Z.ltb_ge _ _)) by done. cbn [orb].
  assert (is_write (c_command x) && negb (zlen resp =? 0) = false) as ->. { destruct (is_write (c_command x)); [by rewrite Hw|done]. }
  rewrite body_key_frame, body_value_frame. rewrite app_nil_r, zlen_frame. unfold Message.total. cbn [header_of key_len value_len]. rewrite Z.ltb_irrefl.
  rewrite bool_decide_eq_true_2 by done. cbn [negb]. cbv zeta. destruct (c_kind x) eqn:E; try done. cbn [meaning].
  destruct Hlook as [item ->]; [|done]. destruct (c_command x); cbn in Hk; congruence.
Qed.

(** * Reachable clients *)

Lemma Request_makes_call t visit now k cmd key value c c' i : Request t visit now k cmd key value c = (c', Ret i) ->
  exists b, Message.encode cmd key value = Ret b /\ i = next_ c /\
    c' = mkClient (options_ c) (u64 (next_ c + 1))
           (AsyncTransport.Submit (kv_config t (options_ c) visit) now (next_ c) b
              (fun b e => (complete (max_frame_bytes (options_ c)) (mkCall k cmd key value) b e).2) (transport_ c))
           (<[next_ c := mkCall k cmd key value]> (promises c)).
Proof.
  unfold Request, get_state, mbind, M_bind. cbv beta iota. destruct (_ || _ || _); [done|]. unfold lift. destruct (Message.encode cmd key value) as [b|e| |]; try done.
  intros [= <- <-]. by exists b.
Qed.
Lemma run_makes_call t visit now o c c' i : run t visit now o c = (c', Ret i) ->
  exists x b, Message.encode (c_command x) (c_key x) (c_value x) = Ret b /\ c_kind x = kind_of (c_command x) /\ i = next_ c /\
    c' = mkClient (options_ c) (u64 (next_ c + 1))
           (AsyncTransport.Submit (kv_config t (options_ c) visit) now (next_ c) b (fun b e => (complete (max_frame_bytes (options_ c)) x b e).2) (transport_ c))
           (<[next_ c := x]> (promises c)).
Proof.
  assert (forall k cmd key value, k = kind_of cmd -> Request t visit now k cmd key value c = (c', Ret i) -> exists x b,
    Message.encode (c_command x) (c_key x) (c_value x) = Ret b /\ c_kind x = kind_of (c_command x) /\ i = next_ c /\
    c' = mkClient (options_ c) (u64 (next_ c + 1))
           (AsyncTransport.Submit (kv_config t (options_ c) visit) now (next_ c) b (fun b e => (complete (max_frame_bytes (options_ c)) x b e).2) (transport_ c))
           (<[next_ c := x]> (promises c))) as H.
  { intros k cmd key value Hk (b & Hb & Hi & Hc)%Request_makes_call. by exists (mkCall k cmd key value), b. }
  destruct o as [key v|key|key| |key|key v d]; cbn [run]; unfold Set_, Get, Delete, Stats, Lookup, SetWithTTL; [by apply H..|]. destruct (_ || _); [done|by apply H].
Qed.

(** The request of a call. *)
Definition made (ps : gmap Z call) (i : Z) (b : bytes) : Prop :=
  exists x, ps !! i = Some x /\ c_kind x = kind_of (c_command x) /\ Message.encode (c_command x) (c_key x) (c_value x) = Ret b.

Record client_inv (cfg : AsyncTransport.config) (e : ClientEndpoint) (n m : Z) (c : client) : Prop := {
  ci_transport : AsyncTransport.reachable cfg (port e) (valid_address e) (connections e) n (transport_ c);
  ci_next : 1 <= next_ c <= m + 1;
  ci_ids : Forall (fun i => i < next_ c) (AsyncTransport.submitted (transport_ c));
  ci_promises : map_Forall (fun i _ => i < next_ c) (promises c);
  ci_made : requested (made (promises c)) (transport_ c)
}.

Section Reachable.
Context (visit : gmap Z nat -> list (Z * nat)) (e : ClientEndpoint) (o : ClientOptions).
Abbreviation cfg := (kv_config (timeouts e) o visit).

Lemma submitted_Submit now i b v s : AsyncTransport.submitted (AsyncTransport.Submit cfg now i b v s) = AsyncTransport.submitted s ++ [i].
Proof. unfold AsyncTransport.Submit. cbv zeta. by destruct (_ || _ || _). Qed.

Lemma client_reachable_inv n m c : reachable visit e o n m c -> m + 1 < 2 ^ 64 -> options_ c = o /\ client_inv cfg e n m c.
Proof.
  induction 1 as [c Hc|n k m c c' Hr IH Hstep]; intros Hm.
  - unfold construct in Hc. destruct (AsyncTransport.make _ _ _ _) as [s|x| |] eqn:E; try done. injection Hc as <-. split; [done|].
    split; cbn; [by apply AsyncTransport.reach_make|lia| | |]; unfold AsyncTransport.make in E; destruct (_ || _); try done; injection E as <-; cbn; [by apply Forall_nil_2|].
    split; [apply map_Forall_empty|]. unfold sessions. cbn. apply Forall_fmap, Forall_replicate. constructor.
  - destruct IH as [Ho [C1 C2 C3 C4 C5]]; [lia|]. destruct Hstep as [c now op c' i Hx|k c s' Hx Hsub].
    + destruct (run_makes_call _ _ _ _ _ _ _ Hx) as (x & b & Hb & Hk & -> & ->). rewrite Ho. split; [done|].
      assert (forall j, j < next_ c -> j < u64 (next_ c + 1)) as Hlt by (intros j Hj; rewrite u64_small; lia).
      split; cbn [transport_ next_ promises]; [|rewrite u64_small; lia|rewrite submitted_Submit; apply Forall_app; split; [by eapply Forall_impl|apply Forall_singleton; rewrite u64_small; lia]| |].
      * rewrite Z.add_0_r. rewrite <-(Z.add_0_r n). eapply AsyncTransport.reach_step; [exact C1|]. apply AsyncTransport.step_submit.
        intros Hin. eapply Forall_forall in C3; [|exact Hin]. lia.
      * apply map_Forall_insert_2; [rewrite u64_small; lia|]. eapply map_Forall_impl; [exact C4|]. intros j y. apply Hlt.
      * apply requested_Submit; [exists x; by rewrite lookup_insert_eq|]. eapply requested_mono; [|exact C5]. intros j y (x' & Hj & ?). exists x'. split; [|done].
        rewrite lookup_insert_ne; [done|]. specialize (C4 j x' Hj). cbn in C4. lia.
    + split; [done|]. split; cbn [transport_ next_ promises]; rewrite ?Hsub; try done; [|lia|].
      * eapply AsyncTransport.reach_step; [exact C1|]. by rewrite <-Ho.
      * eapply requested_step; [|exact C5|exact Hx]. intros now i bs v ->. rewrite Ho, submitted_Submit in Hsub. apply (f_equal length) in Hsub. rewrite length_app in Hsub. cbn in Hsub. lia.
Qed.

(** The peer of a session: it answers, by [R], the requests of the connection in their order. *)
Definition in_order (R : Z -> bytes -> bytes -> Prop) (x : AsyncTransport.Session) : Prop :=
  exists rs, Forall2 (fun d r => R d.1 d.2 r) (take (length rs) (AsyncTransport.dispatched x)) rs /\ AsyncTransport.stream x `prefix_of` concat rs.

Lemma replies_delimited (R : Z -> bytes -> bytes -> Prop) ds rs : Forall (fun d => exists cmd key value, Message.encode cmd key value = Ret d.2) ds -> (forall i y r, R i y r -> well_formed_reply y r) ->
  Forall2 (fun (d : Z * bytes) r => R d.1 d.2 r) ds rs -> Forall (fun r => forall rest, frame_size (r ++ rest) = Ret (zlen r)) rs.
Proof.
  intros Hy HR. induction 1 as [|d r ds rs Hr _ IH]; [done|]. apply Forall_cons in Hy as [(cmd & key & value & Hy) Hys]. constructor; [|by apply IH].
  destruct (HR d.1 d.2 r Hr cmd key value Hy) as (resp & [He ->]%encode_Ret_inv & _). intros rest. by rewrite frame_size_frame, zlen_frame.
Qed.

(** A completion with a response carries the peer's reply to the bytes sent for that request. *)
Lemma reply_of_request R n m c i b : reachable visit e o n m c -> n < 2 ^ 64 -> m + 1 < 2 ^ 64 -> config_ok cfg ->
  (forall j y r, R j y r -> well_formed_reply y r) -> (forall x, x ∈ sessions (transport_ c) -> in_order R x) -> (i, (b, None)) ∈ AsyncTransport.completed (transport_ c) ->
  exists y, made (promises c) i y /\ R i y b /\ zlen b <= max_frame_bytes o.
Proof.
  intros Hr Hn Hm Hok HR Hord Hc. destruct (client_reachable_inv _ _ _ Hr Hm) as [Ho [C1 C2 C3 C4 [_ C5]]].
  destruct (response_session cfg Hok _ _ _ _ _ C1 Hn i b Hc) as (x & Hx & _ & Hstr & Hdel & _ & k & Hk & Hi). cbn [AsyncTransport.ids kv_config] in Hi.
  destruct (Hord x Hx) as (rs & H2 & Hp). eapply Forall_forall in C5; [|exact Hx].
  assert (Forall (fun d => exists cmd key value, Message.encode cmd key value = Ret d.2) (take (length rs) (AsyncTransport.dispatched x))) as Hys.
  { apply Forall_take. eapply Forall_impl; [exact C5|]. intros y (z & _ & _ & Hz). by do 3 eexists. }
  assert ((AsyncTransport.answers x).*2 `prefix_of` rs) as Hpre.
  { apply (frames_unique frame_size); [apply frame_size_local| |by eapply replies_delimited|by etrans]. apply Forall_fmap. eapply Forall_impl; [exact Hdel|]. intros y [[? _] ?]. done. }
  assert (rs !! k = Some b) as Hb by (eapply prefix_lookup_Some; [|exact Hpre]; by rewrite list_lookup_fmap, Hk).
  destruct (Forall2_lookup_r _ _ _ _ _ H2 Hb) as ([j y] & Hy & HRy). apply lookup_take_Some in Hy as [Hy _]. rewrite list_lookup_fmap, Hy in Hi. injection Hi as ->. exists y. split; [|split; [done|]].
  - by eapply (Forall_lookup_1 _ _ k) in C5; [|exact Hy].
  - eapply (Forall_lookup_1 _ _ k) in Hdel; [|exact Hk]. destruct Hdel as [[_ Hd] _]. cbn [snd] in Hd. etrans; [exact Hd|]. pose proof (cf_frame _ Hok) as Hf.
    unfold AsyncTransport.max_response. cbn. rewrite u64_small; cbn in Hf; lia.
Qed.

(** A call gets its own answer: over peers that answer the requests of each connection in order, by any
    relation [R] whose replies are well formed, the future of a call completed with a response holds
    the value of the peer's reply to that very call; no response is refused. *)
Lemma kv_call_gets_its_reply R n m c i b :
  reachable visit e o n m c -> n < 2 ^ 64 -> m + 1 < 2 ^ 64 -> config_ok cfg ->
  (forall j y r, R j y r -> well_formed_reply y r) -> (forall x, x ∈ sessions (transport_ c) -> in_order R x) ->
  (i, (b, None)) ∈ AsyncTransport.completed (transport_ c) ->
  exists x y resp, promises c !! i = Some x /\ Message.encode (c_command x) (c_key x) (c_value x) = Ret y /\ R i y b /\
    Message.encode (c_command x) (c_key x) resp = Ret b /\ complete (max_frame_bytes o) x b None = (Ret (meaning (c_kind x) resp), true).
Proof.
  intros Hr Hn Hm Hok HR Hord Hc. destruct (reply_of_request R n m c i b Hr Hn Hm Hok HR Hord Hc) as (y & (x & Hx & Hk & Hy) & Hb & Hl).
  destruct (HR i y b Hb _ _ _ Hy) as (resp & He & Hw & Hlook). exists x, y, resp. do 4 (split; [done|]). by apply complete_reply.
Qed.
End Reachable.
End Client.
End KvClient.
