(* ===== verification/KvEndToEnd.v ===== *)
(** The KV client over the KV service: what the future of a call holds when the peers of the client's
    connections are healthy services that answer each connection in order. *)
From S2P Require Import Prelude KvProtocol TcpServer LruCache ShardedCache Disk Aof AofLog AofDurability CacheService ServiceHistory ServiceCorrectness Executor AsyncTransport AsyncTransportInv TcpConnection KvClient.
Import KvClient.

Section EndToEnd.
Context {layout : Layout} {hashB : Hash bytes} {codec : CacheValueCodec} {laws : CodecLaws codec}.

(** A batch handled by a service whose durable history is [b_history]. *)
Record batch := mkBatch {
  b_history : list Mutation; b_before : service; b_env : env; b_inputs : list bytes; b_after : service; b_replies : list Reply; b_time : Z; b_time' : Z
}.
Definition batch_ok (B : batch) : Prop :=
  Healthy (b_history B) (b_time B) (b_before B) /\ in_range (b_env B) (b_inputs B) (b_before B) /\ clocks (b_time B) (b_time' B) (b_env B) /\
  HandleBatch (b_env B) (b_inputs B) (b_before B) = (b_after B, Ret (b_replies B)).
(** Its mutations, and those before input [n]. *)
Definition b_mutations (B : batch) : list Mutation := muts (verdicts (cache_ (b_before B)) (now_parse (b_env B)) (b_inputs B)).
Definition b_earlier (B : batch) (n : nat) : list Mutation := muts (verdicts (cache_ (b_before B)) (now_parse (b_env B)) (take n (b_inputs B))).
(** Input [n] of [B] is the request [y], and it was accepted and answered with [r]. *)
Definition answers (B : batch) (n : nat) (y r : bytes) : Prop :=
  b_inputs B !! n = Some y /\ b_replies B !! n = Some (mkReply (zlen y) r false).
Definition served (y r : bytes) : Prop := exists B n, batch_ok B /\ answers B n y r.

(** * What the service made of a request *)

Lemma parse_request c now cmd key value y q total mo : Message.encode cmd key value = Ret y -> parse_input c now y = Ret (Some (q, total, mo)) ->
  q_command q = cmd /\ q_key q = key /\ total = zlen y /\ (is_write cmd = true -> exists mu, mo = Some mu /\ m_command mu = cmd /\ m_key mu = key).
Proof.
  intros [He ->]%encode_Ret_inv. unfold parse_input. pose proof (zlen_nonneg key). pose proof (zlen_nonneg value).
  rewrite zlen_frame, (proj2 (Z.ltb_ge _ _)) by lia. rewrite <-(app_nil_r (header_bytes _ ++ _)). rewrite decodeHeader_frame, bind_Ret by done.
  unfold Message.validate. rewrite header_of_valid, bind_Ret by done. cbv zeta. rewrite body_key_frame, body_value_frame. cbn [command header_of]. rewrite command_of_code.
  destruct (_ || _); [done|]. destruct (_ <? _); [done|]. unfold Message.total. cbn [header_of key_len value_len].
  destruct cmd; repeat case_match; try done; intros [= <- <- <-]; (split; [done|]; split; [done|]; split; [lia|]); by eauto.
Qed.

Lemma answered_request B n y r cmd key value : batch_ok B -> answers B n y r -> Message.encode cmd key value = Ret y ->
  exists c resp q, q_command q = cmd /\ q_key q = key /\ response_ok (now_apply (b_env B) n) c q resp /\ Message.encode cmd key resp = Ret r /\
    agrees (b_time B) (b_history B ++ b_earlier B n) c /\ fits c /\ (is_write cmd = true -> exists mu, mu ∈ b_mutations B /\ m_command mu = cmd /\ m_key mu = key).
Proof.
  intros (HH & Hr & Hc & E) [Hy Hn] Henc. destruct (HandleBatch_Ret _ _ _ _ _ _ _ _ HH Hr Hc E) as (_ & _ & Hans). destruct (Hans n y Hy) as (r' & c & Hr' & Ha & Hag & Hfit).
  rewrite Hn in Hr'. injection Hr' as <-. assert (0 < zlen y) as Hpos.
  { apply encode_Ret_inv in Henc as [_ ->]. rewrite zlen_frame. pose proof (zlen_nonneg key). pose proof (zlen_nonneg value). unfold HEADER_SIZE. lia. }
  pose proof (list_lookup_imap (fun n data => verdict (cache_ (b_before B)) (now_parse (b_env B) n) data) (b_inputs B) n) as Hv. rewrite Hy in Hv. cbn in Hv.
  fold (verdicts (cache_ (b_before B)) (now_parse (b_env B)) (b_inputs B)) in Hv. unfold verdict in Ha, Hv.
  destruct (parse_input (cache_ (b_before B)) (now_parse (b_env B) n) y) as [[[[q total] mo]|]|x| |] eqn:Ep; destruct Ha as [[Hz Hrep]|(Hz & resp & Hok & Hb & _)]; cbn in *; try done; try (injection Hrep; lia).
  destruct (parse_request _ _ _ _ _ _ _ _ _ Henc Ep) as (Hcmd & Hkey & _ & Hmu). exists c, resp, q. rewrite Hcmd, Hkey in Hb. do 4 (split; [done|]).
  split; [unfold b_earlier; by rewrite verdicts_take|]. split; [done|]. intros Hw. destruct (Hmu Hw) as (mu & -> & ? & ?). exists mu. split; [|done].
  unfold b_mutations, muts. apply list_elem_of_In, in_concat. exists (option_list (Some mu)). split; [|by left].
  apply list_elem_of_In, list_elem_of_fmap_2, (list_elem_of_lookup_2 _ n). by rewrite list_lookup_fmap, Hv.
Qed.

(** A value read is the last one written, and has not expired. *)
Definition current (B : batch) (n : nat) (key : bytes) (v : option bytes) : Prop :=
  forall w, v = Some w -> exists ex, last_write (b_history B ++ b_earlier B n) key = Some (w, ex) /\ (ex = 0 \/ now_apply (b_env B) n < ex).
Lemma visible_current B n key c : batch_ok B -> agrees (b_time B) (b_history B ++ b_earlier B n) c -> current B n key (visible (now_apply (b_env B) n) c key).
Proof.
  intros (_ & _ & (_ & HT & _) & _) Hag w Hw. specialize (HT n). unfold visible in Hw. destruct (ShardedCache.view c key) as [z|] eqn:Ez; [|done].
  destruct (LruCache.Expired (now_apply (b_env B) n) z) eqn:Ex; [done|]. injection Hw as <-. unfold LruCache.Expired in Ex.
  destruct (Hag key z Ez) as [Hl|[? ?]]; [|lia]. exists (LruCache.e_expires z). split; [done|lia].
Qed.

Lemma lookup_parses now c q resp : fits c -> q_command q = LOOKUP -> response_ok now c q resp ->
  ParseFromString resp = Some (mkCacheValue (bool_decide (is_Some (visible now c (q_key q)))) (default [] (visible now c (q_key q))) 0 0 []).
Proof.
  intros Hf Hq Hr. unfold response_ok in Hr. rewrite Hq in Hr. rewrite Hr. apply parse_serialize; [split; cbn; lia| |by left]. cbn [cv_value cv_unknown]. rewrite zlen_nil.
  unfold visible. destruct (ShardedCache.view c (q_key q)) as [z|] eqn:Ez; [|done]. destruct (Hf _ _ Ez) as (_ & Hz & _). unfold MAX_VALUE_SIZE in Hz.
  destruct (LruCache.Expired now z); cbn; [done|lia].
Qed.

Lemma served_well_formed y r : served y r -> well_formed_reply y r.
Proof.
  intros (B & n & HB & Ha) cmd key value Hy. destruct (answered_request B n y r cmd key value HB Ha Hy) as (c & resp & q & Hc & Hk & Hok & He & _ & Hf & _).
  exists resp. split; [done|]. split.
  - intros Hw. unfold response_ok in Hok. rewrite Hc in Hok. by destruct cmd.
  - intros ->. by rewrite (lookup_parses _ _ _ _ Hf Hc Hok).
Qed.

(** What the future of call [x] holds when it was answered as input [k] of [B]: a write returns true, and its
    mutation is among those of the batch; a read returns nothing or the last value written to its
    key, unexpired. *)
Definition fulfilled (B : batch) (k : nat) (x : call) (future : outcome result) : Prop :=
  match c_command x with
  | SET | SET_TTL | DEL => future = Ret (RBool true) /\ exists mu, mu ∈ b_mutations B /\ m_command mu = c_command x /\ m_key mu = c_key x
  | GET => exists v, future = Ret (RString (default [] v)) /\ current B k (c_key x) v
  | LOOKUP => exists v, future = Ret (ROptional v) /\ current B k (c_key x) v
  | STATS | UNKNOWN => exists text, future = Ret (RString text)
  end.

Lemma answer_fulfils limit x y B k b : c_kind x = kind_of (c_command x) -> Message.encode (c_command x) (c_key x) (c_value x) = Ret y -> batch_ok B -> answers B k y b ->
  zlen b <= limit -> exists v, complete limit x b None = (Ret v, true) /\ fulfilled B k x (Ret v).
Proof.
  intros Hk Hy HB Ha Hl. destruct (answered_request B k y b _ _ _ HB Ha Hy) as (cc & resp & q & Hqc & Hqk & Hrok & He & Hag & Hf & Hmu).
  assert (c_command x = LOOKUP -> is_Some (ParseFromString resp)) as Hlook by (intros Heq; rewrite Heq in Hqc; by rewrite (lookup_parses _ _ _ _ Hf Hqc Hrok)).
  assert (is_write (c_command x) = true -> resp = []) as Hw by (unfold response_ok in Hrok; rewrite Hqc in Hrok; by destruct (c_command x)).
  eexists. split; [exact (complete_reply limit x resp b Hk He Hl Hw Hlook)|]. pose proof (visible_current B k (c_key x) cc HB Hag) as Hcur. rewrite Hk. unfold fulfilled.
  destruct (c_command x) eqn:Ec; cbn [kind_of meaning]; try (split; [done|]; by apply Hmu); try (by eexists).
  - exists (visible (now_apply (b_env B) k) cc (c_key x)). split; [|done]. unfold response_ok in Hrok. rewrite Hqc, Hqk in Hrok. by rewrite Hrok.
  - exists (visible (now_apply (b_env B) k) cc (c_key x)). split; [|done]. rewrite (lookup_parses _ _ _ _ Hf Hqc Hrok), Hqk. cbn [cv_found cv_value].
    by destruct (visible _ _ _).
Qed.

(** * The whole path *)

Section Path.
Context (visit : gmap Z nat -> list (Z * nat)) (e : ClientEndpoint) (o : ClientOptions).

(** From the call to the log and back: over connections whose peers are healthy services answering in
    order, a call completed with a response was accepted in some batch of a service, and its future
    holds what that makes of it; no response is refused. *)
Lemma kv_end_to_end n m c i b :
  reachable visit e o n m c -> n < 2 ^ 64 -> m + 1 < 2 ^ 64 -> config_ok (kv_config (timeouts e) o visit) ->
  (forall x, x ∈ sessions (transport_ c) -> in_order (fun _ => served) x) -> (i, (b, None)) ∈ AsyncTransport.completed (transport_ c) ->
  exists x y B k v, promises c !! i = Some x /\ Message.encode (c_command x) (c_key x) (c_value x) = Ret y /\ batch_ok B /\ answers B k y b /\
    complete (max_frame_bytes o) x b None = (Ret v, true) /\ fulfilled B k x (Ret v).
Proof.
  intros Hr Hn Hm Hok Hord Hc. destruct (reply_of_request visit e o (fun _ => served) n m c i b Hr Hn Hm Hok (fun _ => served_well_formed) Hord Hc) as (y & (x & Hx & Hk & Hy) & (B & k & HB & Ha) & Hl).
  destruct (answer_fulfils (max_frame_bytes o) x y B k b Hk Hy HB Ha Hl) as (v & Hv & Hf). by exists x, y, B, k, v.
Qed.
End Path.
End EndToEnd.
