(* ===== verification/KvSystem.v ===== *)
(** The KV server as it runs, the [TcpServer] of KVCache/src/main.cpp with [CacheService] behind its handler, and
    KV clients connected to it over TCP: what the future of a call holds is what one sequence of
    batches of the service made of the call. *)
From S2P Require Import Prelude KvProtocol Buffer EventLoop TcpServer TcpServerInv TcpServerCorrectness TcpServerReplies TcpServerOrder Network LruCache ShardedCache Disk Aof AofLog AofDurability CacheService ServiceHistory ServiceCorrectness ServerMain Executor AsyncTransport AsyncTransportInv AsyncTransportStable AsyncTransportCorrectness TcpConnection KvClient KvEndToEnd.
Import KvClient.
Import TcpServer(server, Peer, batch_handler_, sizer_, max_connections_, options_).

Section System.
Context {layout : Layout} {hashB : Hash bytes} {codec : CacheValueCodec} {laws : CodecLaws codec}.

(** * The service as a handler *)

(** One call of [HandleBatch]. *)
Record event := mkEvent { ev_time : Z; ev_before : service; ev_env : env; ev_inputs : list bytes; ev_after : service; ev_result : outcome (list Reply); ev_time' : Z }.
(** The service, the mark of its clock, and the calls so far. *)
Record kv_state := mkKv { k_service : service; k_time : Z; k_events : list event }.

(** The handler [main] installs: whole batches in group mode, one request at a time otherwise, where [Work] makes a
    reply of what [Handle] returns. *)
Definition serve (group : bool) (e : env) (inputs : list bytes) : M service (list Reply) :=
  if group then HandleBatch e inputs
  else match inputs with
       | [data] => r ← Handle e data ; mret [mkReply r.1 r.2 false]
       | _ => lift Undef
       end.

Definition returned {A} (r : outcome A) : Prop := match r with Ret _ | Throw _ => True | _ => False end.

Definition kv_handle (group : bool) : handler kv_state := fun h inputs h' r =>
  exists e t', in_range e inputs (k_service h) /\ clocks (k_time h) t' e /\ serve group e inputs (k_service h) = (k_service h', r) /\ returned r /\ k_time h' = t' /\
    k_events h' = k_events h ++ [mkEvent (k_time h) (k_service h) e inputs (k_service h') (HandleBatch e inputs (k_service h)).2 t'].

(** What the log of a service holds. *)
Definition history_of (s : service) : list Mutation := (log_records (synced (linked (dsk (os_ (aof_ s)))))).1.
Lemma Healthy_history H T s : Healthy H T s -> H = history_of s.
Proof. intros (_ & _ & _ & (_ & _ & _ & _ & _ & E) & _). unfold history_of. by rewrite E. Qed.

(** The calls follow one another on one service. *)
Fixpoint chained (s : service) (es : list event) (s' : service) : Prop :=
  match es with
  | [] => s = s'
  | x :: es => ev_before x = s /\ HandleBatch (ev_env x) (ev_inputs x) s = (ev_after x, ev_result x) /\ chained (ev_after x) es s'
  end.
Definition batch_of (x : event) (rs : list Reply) : batch :=
  mkBatch (history_of (ev_before x)) (ev_before x) (ev_env x) (ev_inputs x) (ev_after x) rs (ev_time x) (ev_time' x).

Definition kv_ok (s0 : service) (h : kv_state) : Prop :=
  (Healthy (history_of (k_service h)) (k_time h) (k_service h) \/ CacheService.failed_ (k_service h) = true) /\
  Forall (fun x => forall rs, ev_result x = Ret rs -> batch_ok (batch_of x rs)) (k_events h) /\ chained s0 (k_events h) (k_service h).

(** [x] is what the service replied to the input [b] in one of the calls. *)
Definition replied_in (es : list event) (b : bytes) (x : Reply) : Prop :=
  exists ev rs k, ev ∈ es /\ ev_result ev = Ret rs /\ ev_inputs ev !! k = Some b /\ rs !! k = Some x.

Lemma chained_snoc s es s' x : chained s es s' -> ev_before x = s' -> HandleBatch (ev_env x) (ev_inputs x) s' = (ev_after x, ev_result x) -> chained s (es ++ [x]) (ev_after x).
Proof. revert s. induction es as [|y es IH]; cbn; [by intros s -> ? ?|]. intros s (? & ? & ?) ? ?. split; [done|]. split; [done|]. by apply IH. Qed.

(** In either mode the service has gone through one call of [HandleBatch]; what is passed on was its reply. *)
Lemma serve_batch group e inputs s s' r : serve group e inputs s = (s', r) -> returned r ->
  (HandleBatch e inputs s).1 = s' /\ returned (HandleBatch e inputs s).2 /\
  forall rs k x, r = Ret rs -> rs !! k = Some x -> close x = false -> exists rs', (HandleBatch e inputs s).2 = Ret rs' /\ rs' !! k = Some x.
Proof.
  unfold serve. destruct group.
  - intros -> Hr. split; [done|]. split; [done|]. intros rs k x -> Hx _. by exists rs.
  - destruct inputs as [|data [|]]; try (by intros [= <- <-]). unfold Handle, mbind, M_bind. destruct (HandleBatch e [data] s) as [s1 [rs|x| |]] eqn:E; cbn; try (by intros [= <- <-]).
    destruct rs as [|[n b c] rs]; cbn; [by intros [= <- <-]|]. destruct c; cbn; intros [= <- <-] _; (split; [done|]); (split; [done|]); [done|].
    intros rs' [|k] x [= <-]; [|done]. intros [= <-] _. by exists (mkReply n b false :: rs).
Qed.

(** A service that is healthy or has failed stays so. *)
Lemma HandleBatch_next T T' e inputs s s' r : Healthy (history_of s) T s -> in_range e inputs s -> clocks T T' e -> HandleBatch e inputs s = (s', r) ->
  returned r -> Healthy (history_of s') T' s' \/ CacheService.failed_ s' = true.
Proof.
  intros HH Hr Hc E Hret. destruct r as [rs|x| |]; try done.
  - destruct (HandleBatch_Ret _ _ _ _ _ _ _ _ HH Hr Hc E) as ((H0 & _ & HH') & _). left. by rewrite <-(Healthy_history _ _ _ HH').
  - destruct (HandleBatch_cases _ _ _ _ _ _ _ HH Hr E) as [(_ & a & H0 & -> & Hb & HD & Hs)|(_ & Hf & _)]; [left|by right].
    pose proof (base_Healthy _ _ _ _ _ _ _ HH Hc Hb HD Hs) as HH'. by rewrite <-(Healthy_history _ _ _ HH').
Qed.

Lemma replied_more es es' b x : replied_in es b x -> replied_in (es ++ es') b x.
Proof. intros (ev & rs & k & Hev & ?). exists ev, rs, k. split; [|done]. apply elem_of_app. by left. Qed.
Lemma replied_later es es' b x : replied_in es' b x -> replied_in (es ++ es') b x.
Proof. intros (ev & rs & k & Hev & ?). exists ev, rs, k. split; [|done]. apply elem_of_app. by right. Qed.
(** What a call of the handler replies is in the event it adds. *)
Lemma handle_replies group h ins h' rs k b x : kv_handle group h ins h' (Ret rs) -> ins !! k = Some b -> rs !! k = Some x -> close x = false ->
  replied_in (drop (length (k_events h)) (k_events h')) b x.
Proof.
  intros (e & t' & _ & _ & Hserve & Hret & _ & ->) Hb Hx Hc. rewrite drop_app_length. destruct (serve_batch _ _ _ _ _ _ Hserve Hret) as (_ & _ & H).
  destruct (H rs k x eq_refl Hx Hc) as (rs' & E & Hx'). eexists _, rs', k. split; [by apply list_elem_of_singleton|]. done.
Qed.

#[local] Instance kv_handles group s0 : Handles (kv_handle group) (kv_ok s0) (fun h => replied_in (k_events h)).
Proof.
  split.
  - intros h ins h' r (Hs & Hev & Hch) (e & t' & Hrg & Hck & Hserve & Hret & <- & Hes). destruct (serve_batch _ _ _ _ _ _ Hserve Hret) as (E1 & E2 & _).
    destruct (HandleBatch e ins (k_service h)) as [s1 r1] eqn:E. cbn in E1, E2. subst s1. cbn [snd] in *. unfold kv_ok. rewrite Hes. split; [|split].
    + destruct Hs as [HH|Hf]; [by eapply HandleBatch_next|]. right. unfold HandleBatch, get_state in E. rewrite (M_bind_run _ _ _ (k_service h) (k_service h)), Hf in E by done. by injection E as <- _.
    + apply Forall_app. split; [done|]. apply Forall_singleton. cbn. intros rs ->. destruct Hs as [HH|Hf]; [by split_and!|].
      unfold HandleBatch, get_state in E. by rewrite (M_bind_run _ _ _ (k_service h) (k_service h)), Hf in E by done.
    + eapply (chained_snoc s0 (k_events h) (k_service h)); done.
  - intros h ins h' r b x _ (e & t' & _ & _ & _ & _ & _ & ->) H. by apply replied_more.
  - intros h ins h' rs k b x _ Hh _. rewrite <-(firstn_skipn (length (k_events h)) (k_events h')). intros Hb Hx Hc. apply replied_later. by eapply handle_replies.
Qed.
(** What it replies after the first [past] calls comes from the calls after these. *)
Lemma kv_handles_since group past : Handles (kv_handle group) (fun h => past <= length (k_events h))%nat (fun h => replied_in (drop past (k_events h))).
Proof.
  split.
  - intros h ins h' r Hp (e & t' & _ & _ & _ & _ & _ & ->). rewrite length_app. lia.
  - intros h ins h' r b x Hp (e & t' & _ & _ & _ & _ & _ & ->) H. rewrite drop_app_le by done. by apply replied_more.
  - intros h ins h' rs k b x Hp Hh _ Hb Hx Hc. pose proof (handle_replies _ _ _ _ _ _ _ _ Hh Hb Hx Hc) as H.
    destruct Hh as (e & t' & _ & _ & _ & _ & _ & E). rewrite E in *. rewrite drop_app_length in H. rewrite drop_app_le by done. by apply replied_later.
Qed.

(** * Connections *)

Section Server.
Context (srv : server) (group : bool) (Hsrv : assembled srv group) (s0 : service) (T0 : Z) (H0 : list Mutation) (Hs0 : Healthy H0 T0 s0).

Abbreviation running ios n y := (sys_reachable srv (kv_handle group) (mkKv s0 T0 []) ios n y).
Lemma start_ok : kv_ok s0 (mkKv s0 T0 []).
Proof. split; [left; cbn; by rewrite <-(Healthy_history _ _ _ Hs0)|]. by split. Qed.
Lemma assembled_limit : sizer_ srv = Some frame_size /\ TcpServer.limit srv = 1.
Proof. destruct Hsrv as (_ & Hs & _ & _ & _ & _ & Hp & _). split; [done|]. unfold TcpServer.limit. by destruct (_ || _). Qed.

Lemma encoded_sent x : AsyncTransport.wire x `prefix_of` concat (AsyncTransport.dispatched x).*2 ->
  Forall (fun d => exists cmd key value, Message.encode cmd key value = Ret d.2) (AsyncTransport.dispatched x) -> sent_well frame_size x.
Proof.
  intros Hw Hreq. split; [done|]. apply Forall_fmap. eapply Forall_impl; [exact Hreq|]. intros d (cmd & key & value & [He Hd]%encode_Ret_inv) rest. cbn. rewrite Hd. by rewrite frame_size_frame, zlen_frame.
Qed.
(** The replies to the requests of a session, those to new requests from new calls of the service. *)
Definition served_since (known : Z -> Prop) (past : nat) (es : list event) (i : Z) (b r : bytes) : Prop :=
  exists ev rs k, ev ∈ es /\ (known i \/ ev ∈ drop past es) /\ ev_result ev = Ret rs /\ batch_ok (batch_of ev rs) /\ answers (batch_of ev rs) k b r.
Lemma replied_served known past es i b x : Forall (fun x => forall rs, ev_result x = Ret rs -> batch_ok (batch_of x rs)) es -> replied_in es b x ->
  known i \/ replied_in (drop past es) b x -> close x = false -> consumed x = zlen b -> served_since known past es i b (r_bytes x).
Proof.
  intros Hev H Hnew Hc Hn. assert (exists ev rs k, (ev ∈ es /\ (known i \/ ev ∈ drop past es)) /\ ev_result ev = Ret rs /\ ev_inputs ev !! k = Some b /\ rs !! k = Some x) as (ev & rs & k & [Hin ?] & Hrs & Hb & Hx).
  { destruct Hnew as [Hk|(ev & rs & k & Hin & ?)]; [destruct H as (ev & rs & k & ? & ?); exists ev, rs, k; auto|]. exists ev, rs, k. split; [|done]. split; [|by right].
    apply list_elem_of_lookup in Hin as [j Hj]. rewrite lookup_drop in Hj. by eapply list_elem_of_lookup_2. }
  exists ev, rs, k. do 3 (split; [done|]). eapply Forall_forall in Hev; [|exact Hin]. split; [by apply Hev|]. split; [done|]. cbn. rewrite Hx. destruct x as [z ? ?]. cbn in *. by subst.
Qed.

Lemma served_since_served known past es i b r : served_since known past es i b r -> served b r.
Proof. intros (ev & rs & k & _ & _ & _ & HB & Ha). by exists (batch_of ev rs), k. Qed.
Lemma since_events n1 y1 n y : since srv (kv_handle group) n1 y1 n y -> k_events (sy_handler y1) `prefix_of` k_events (sy_handler y).
Proof.
  induction 1 as [|n k y y' _ IH Hs]; [done|]. destruct Hs as [|h h' w a batch b handled us _ (e & t' & _ & _ & _ & _ & _ & Hes) _]; [done|]. cbn in *. rewrite Hes. by apply prefix_app_r.
Qed.
(** The mutations of a call that went well are in the log when it returns. *)
Lemma answered_logged ev rs : batch_ok (batch_of ev rs) -> b_mutations (batch_of ev rs) `suffix_of` history_of (ev_after ev).
Proof.
  intros (HH & Hrg & Hck & E). destruct (HandleBatch_Ret _ _ _ _ _ _ _ _ HH Hrg Hck E) as ((H1 & _ & HH') & _). change (ev_after ev) with (b_after (batch_of ev rs)). rewrite <-(Healthy_history _ _ _ HH'). by eexists.
Qed.

Lemma followed_in_order known ios n1 y1 old y x : running ios n1 y1 -> (0 < ios)%nat -> kv_ok s0 (sy_handler y) ->
  Forall (fun x1 => sent_well frame_size x1 /\ Forall (fun d => known d.1) (AsyncTransport.dispatched x1)) old ->
  followed srv (kv_handle group) (mkKv s0 T0 []) ios n1 y1 old y x -> sent_well frame_size x ->
  in_order (served_since known (length (k_events (sy_handler y1))) (k_events (sy_handler y))) x.
Proof.
  intros Hy1 Hios (_ & Hev & _) Hold Hfol Hx. destruct assembled_limit as [Hsz Hl].
  destruct (followed_replies srv (kv_handle group) _ ios (assembled_ok _ _ Hsrv) start_ok Hios frame_size Hsz frame_size_local
    (handles' := kv_handles_since group (length (k_events (sy_handler y1)))) known n1 y1 old y x Hl Hy1 (Nat.le_refl _) Hold Hfol Hx) as (l & Hst & Ha & Hpre & Hnew).
  exists ((fun a => r_bytes a.2) <$> l). split; [|done]. rewrite length_fmap. pose proof (prefix_length _ _ Hpre) as Hlen. rewrite !length_fmap in Hlen.
  apply Forall2_same_length_lookup_2; [rewrite length_take, length_fmap; lia|]. intros k d r Hd Hr. apply lookup_take_Some in Hd as [Hd _].
  rewrite list_lookup_fmap in Hr. destruct (l !! k) as [a|] eqn:Hk; [|done]. injection Hr as <-.
  assert (d.2 = a.1) as ->. { assert (l.*1 !! k = Some a.1) as E by (by rewrite list_lookup_fmap, Hk). apply (prefix_lookup_Some _ _ _ _) with (2 := Hpre) in E. rewrite list_lookup_fmap, Hd in E. by injection E. }
  eapply (Forall_lookup_1 _ _ k) in Ha; [|exact Hk]. destruct Ha as (HQ & Hc & Hn). apply replied_served; try done. by eapply Hnew.
Qed.

(** * Clients *)

Section Client.
Context (visit : gmap Z nat -> list (Z * nat)) (e : ClientEndpoint) (o : ClientOptions).

Lemma sessions_sent n m c x : reachable visit e o n m c -> n < 2 ^ 64 -> m + 1 < 2 ^ 64 -> AsyncTransportInv.config_ok (kv_config (timeouts e) o visit) -> x ∈ sessions (transport_ c) ->
  sent_well frame_size x /\ Forall (fun d => is_Some (promises c !! d.1)) (AsyncTransport.dispatched x).
Proof.
  intros Hr Hn Hm Hok Hx. destruct (client_reachable_inv visit e o n m c Hr Hm) as [_ [C1 _ _ _ [_ C5]]]. eapply Forall_forall in C5; [|exact Hx]. split.
  - apply encoded_sent; [by apply (session_reachable _ Hok _ _ _ _ _ C1 Hn)|]. eapply Forall_impl; [exact C5|]. intros [j r] (z & _ & _ & Hz). by do 3 eexists.
  - eapply Forall_impl; [exact C5|]. intros [j r] (z & Hz & _). by eexists.
Qed.

(** C2. The whole KV system: a client whose connections reach the running server over TCP, the server with its
    reactors, queue and workers, the service with its log and cache, in every interleaving, is
    linearizable.  The calls of the service form one sequence from the state it started in, and the
    calls until any earlier moment, when the server was in [y1] and the client in [c1], are its beginning.
    A call completed with a response is one input of one of them, and its future holds what that made of
    it: a write returns true, and its mutation is in the log when the call returns; a read returns nothing
    or the last value the log and the batch had for its key, unexpired; no response is refused.  If the
    client made the call after that moment, it is an input of one of the calls of the service after it:
    after every call, of any client, answered before. *)
Theorem kv_system ios n1 y1 ny y nc1 mc1 c1 n m c i b :
  running ios n1 y1 -> (0 < ios)%nat -> since srv (kv_handle group) n1 y1 ny y -> ny < 2 ^ 64 ->
  reachable visit e o nc1 mc1 c1 -> nc1 < 2 ^ 64 -> mc1 + 1 < 2 ^ 64 -> reachable visit e o n m c -> n < 2 ^ 64 -> m + 1 < 2 ^ 64 ->
  AsyncTransportInv.config_ok (kv_config (timeouts e) o visit) ->
  (forall x, x ∈ sessions (transport_ c) -> followed srv (kv_handle group) (mkKv s0 T0 []) ios n1 y1 (sessions (transport_ c1)) y x) ->
  (i, (b, None)) ∈ AsyncTransport.completed (transport_ c) ->
  chained s0 (k_events (sy_handler y)) (k_service (sy_handler y)) /\
  exists later_events, k_events (sy_handler y) = k_events (sy_handler y1) ++ later_events /\
  exists x request ev rs k v, promises c !! i = Some x /\ Message.encode (c_command x) (c_key x) (c_value x) = Ret request /\
    ev ∈ k_events (sy_handler y) /\ (promises c1 !! i = None -> ev ∈ later_events) /\ ev_result ev = Ret rs /\ answers (batch_of ev rs) k request b /\
    complete (max_frame_bytes o) x b None = (Ret v, true) /\ fulfilled (batch_of ev rs) k x (Ret v) /\
    b_mutations (batch_of ev rs) `suffix_of` history_of (ev_after ev).
Proof.
  intros Hy1 Hios Hs Hny Hr1 Hn1 Hm1 Hr Hn Hm Hok Hfol Hc. pose proof (since_reachable _ _ _ _ _ _ _ _ Hy1 Hs) as Hy.
  destruct (sys_reachable_inv srv (kv_handle group) (assembled_ok _ _ Hsrv) _ _ _ _ Hy start_ok Hios Hny) as (_ & Hkv & _).
  split; [apply Hkv|]. destruct (since_events _ _ _ _ Hs) as [es Hes]. exists es. split; [done|].
  assert (forall x, x ∈ sessions (transport_ c) -> in_order (served_since (fun j => is_Some (promises c1 !! j)) (length (k_events (sy_handler y1))) (k_events (sy_handler y))) x) as Hord.
  { intros x Hx. apply (followed_in_order _ ios n1 y1 (sessions (transport_ c1))); try done; [|by apply Hfol|by eapply sessions_sent]. apply Forall_forall. intros x1 Hx1. by eapply sessions_sent. }
  destruct (reply_of_request visit e o _ n m c i b Hr Hn Hm Hok (fun j p q H => served_well_formed p q (served_since_served _ _ _ j p q H)) Hord Hc)
    as (request & (x & Hx & Hk & Hreq) & (ev & rs & k & Hev & Hnew & Hrs & HB & Ha) & Hl).
  destruct (answer_fulfils (max_frame_bytes o) x request _ k b Hk Hreq HB Ha Hl) as (v & Hv & Hf). exists x, request, ev, rs, k, v. do 3 (split; [done|]).
  split; [rewrite Hes, drop_app_length in Hnew; intros Hfresh; destruct Hnew as [[? ?]|?]; [congruence|done]|]. do 4 (split; [done|]). by apply answered_logged.
Qed.
End Client.
End Server.
End System.
