(* ===== verification/KvClientWitnesses.v ===== *)
(** A concrete KV client: two calls on one connection, run to their answers, and the instances of the theorems
    on the transport there. *)
From S2P Require Import Prelude KvProtocol TcpServer LruCache ShardedCache Disk Aof AofLog AofDurability CacheService ServiceHistory ServiceCorrectness ServiceWitnesses Buffer Executor EventLoop AsyncTransport AsyncTransportInv AsyncTransportStable AsyncTransportCorrectness TcpConnection KvClient KvEndToEnd TransportRuns.
Import EventLoop KvClient.

#[local] Existing Instance plain_codec.
#[local] Existing Instance plain_laws.
#[local] Existing Instance small_layout.
#[local] Existing Instance small_hash.

(** * A run *)

Definition local_endpoint : ClientEndpoint := mkClientEndpoint true 8080 1 default_transport_options.
Definition local_config : AsyncTransport.config := kv_config default_transport_options default_client_options visit_all.
Lemma local_config_ok : config_ok local_config.
Proof. by apply kv_config_ok. Qed.

Abbreviation live n m c := (reachable visit_all local_endpoint default_client_options n m c).

Definition with_transport (c : client) (s : AsyncTransport.impl) : client := mkClient (options_ c) (next_ c) s (promises c).
Definition client0 : client := mkClient default_client_options 1 (get_Ret (AsyncTransport.mkImpl EventLoop.new_loop [] [] ∅ ∅ 0 0 false false [] [] [] [] [])
  (AsyncTransport.make 8080 true 1 local_config)) ∅.
Lemma live0 : live 1 0 client0.
Proof. by apply reach_construct. Qed.

(** One call, one task and one event. *)
Definition after_call (now : Z) (op : operation) (c : client) : client := (run default_transport_options visit_all now op c).1.
Lemma live_call now op n m c : live n m c -> is_Ret (run default_transport_options visit_all now op c).2 = true -> live n (m + 1) (after_call now op c).
Proof.
  intros Hl Hr. rewrite <-(Z.add_0_r n). eapply reach_step; [exact Hl|]. eapply (step_call _ _ _ now op). by apply (run_Ret 0).
Qed.
Lemma live_step ds n m c s' : live n m c -> options_ c = default_client_options -> AsyncTransport.step local_config (2 * zlen ds + 1) (transport_ c) s' ->
  AsyncTransport.submitted s' = AsyncTransport.submitted (transport_ c) -> live (n + (2 * zlen (ds : list AsyncTransport.dial_reply) + 1)) (m + 1) (with_transport c s').
Proof. intros Hl Ho Hs Hsub. eapply reach_step; [exact Hl|]. apply step_transport; [|done]. by rewrite Ho. Qed.

(** The first call is sent on a new connection, the second waits for its answer; the answers arrive, the
    first one in two pieces. *)
Definition client1 : client := after_call 0 (OSet (str "k") (str "v")) client0.
Definition client2 : client := with_transport client1 (task_run local_config [sending] [dialed] (transport_ client1)).1.
Definition client3 : client := after_call 10 (OGet (str "k")) client2.
Definition client4 : client := with_transport client3 (task_run local_config [] [] (transport_ client3)).1.
Definition client5 : client := with_transport client4
  (event_run local_config [receiving [AsyncTransport.Got (take 7 set_reply); AsyncTransport.Got (drop 7 set_reply)]; sending] [] (transport_ client4)).1.
Definition client6 : client := with_transport client5 (event_run local_config [receiving [AsyncTransport.Got get_reply]] [] (transport_ client5)).1.

Lemma live2 : live 4 2 client2.
Proof.
  apply (live_step [dialed] 1 1 client1); [apply (live_call 0 _ 1 0 client0 live0); vm_compute; reflexivity|done|apply task_step; [by vm_compute|vm_compute; reflexivity]|vm_compute; reflexivity].
Qed.
Lemma live4 : live 5 4 client4.
Proof. apply (live_step [] 4 3 client3); [apply (live_call 10 _ 4 2 client2 live2); vm_compute; reflexivity|done|apply task_step; [by vm_compute|vm_compute; reflexivity]|vm_compute; reflexivity]. Qed.
Lemma live5 : live 6 5 client5.
Proof. apply (live_step [] 5 4 client4); [apply live4|done|eapply (event_step _ _ _ 2); [vm_compute; reflexivity|done|vm_compute; reflexivity]|vm_compute; reflexivity]. Qed.
Lemma live6 : live 7 6 client6.
Proof. apply (live_step [] 6 5 client5); [apply live5|done|eapply (event_step _ _ _ 2); [vm_compute; reflexivity|done|vm_compute; reflexivity]|vm_compute; reflexivity]. Qed.

Lemma completed6 : AsyncTransport.completed (transport_ client6) = [(1, (set_reply, None)); (2, (get_reply, None))].
Proof. vm_compute. reflexivity. Qed.

(** * The transport's theorems there *)

Lemma transport_live n m c : live n m c -> m + 1 < 2 ^ 64 -> AsyncTransport.reachable local_config 8080 true 1 n (transport_ c).
Proof. intros Hl Hm. exact (ci_transport _ _ _ _ _ (proj2 (client_reachable_inv _ _ _ _ _ _ Hl Hm))). Qed.

Lemma submitted6 : AsyncTransport.submitted (transport_ client6) = [1; 2].
Proof. vm_compute. reflexivity. Qed.

Lemma transport_completes_once_witness : [1; 2] ≡ₚ (AsyncTransport.completed (transport_ client6)).*1 ++ outstanding (transport_ client6).
Proof.
  pose proof (transport_completes_once local_config local_config_ok 8080 true 1 7 (transport_ client6) (transport_live 7 6 client6 live6 ltac:(lia)) ltac:(lia)) as (_ & H & _).
  rewrite submitted6 in H. exact H.
Defined.

Lemma transport_matches_responses_witness : exists x, x ∈ sessions (transport_ client6) /\ 2 ∈ (AsyncTransport.dispatched x).*1.
Proof.
  destruct (transport_matches_responses local_config local_config_ok 8080 true 1 7 (transport_ client6) (transport_live 7 6 client6 live6 ltac:(lia)) ltac:(lia) 2 get_reply)
    as (x & Hx & _ & _ & _ & Hin & _); [rewrite completed6; by right; left|].
  exists x. split; [exact Hx|exact Hin].
Defined.

Lemma armed2 : armed (AsyncTransport.evloop (transport_ client2)) = {[1 := (5000000000, AsyncTransport.TTimeout 1)]} /\
  timers_ (AsyncTransport.evloop (transport_ client2)) = [(5000000000, (1, AsyncTransport.TTimeout 1))] /\ AsyncTransport.requests (transport_ client2) !! 1 = Some O.
Proof. vm_compute. done. Qed.

Lemma transport_deadline_completes_witness :
  match AsyncTransport.exec local_config (AsyncTransport.TTimeout 1)
    (AsyncTransport.upd_env [] [] (AsyncTransport.upd_loop (pop_timer (5000000000, (1, AsyncTransport.TTimeout 1)) (AsyncTransport.evloop (transport_ client2))).1 (transport_ client2))) with
  | (s', Ret _) => 1 ∈ (AsyncTransport.completed s').*1
  | (_, Throw x) => x = std_system_error
  | _ => False
  end.
Proof.
  destruct armed2 as (Ha & Ht & Hq).
  destruct (transport_deadline_completes local_config local_config_ok 8080 true 1 4 (transport_ client2) (transport_live 4 2 client2 live2 ltac:(lia)) ltac:(lia) 1 O Hq)
    as (r & _ & _ & Hr & Hrun).
  rewrite Ha in Hr. apply lookup_singleton_Some in Hr as [Htm [= He]].
  rewrite <-Htm, <-He in Hrun. by apply (Hrun [] [] [] Ht).
Defined.

Lemma transport_within_limits_witness : AsyncTransport.admitted (transport_ client4) = zlen (outstanding (transport_ client4)) /\ AsyncTransport.admitted (transport_ client4) = 2.
Proof.
  split; [|vm_compute; reflexivity].
  apply (transport_within_limits local_config local_config_ok 8080 true 1 5 (transport_ client4) (transport_live 5 4 client4 live4 ltac:(lia)) ltac:(lia)).
Defined.

Lemma transport_callbacks_return_witness :
  wp (AsyncTransport.exec local_config (AsyncTransport.TTimeout 1)) (fun _ _ => True)
    (AsyncTransport.upd_env [receiving [AsyncTransport.RFailed]] [] (AsyncTransport.upd_loop (pop_timer (5000000000, (1, AsyncTransport.TTimeout 1)) (AsyncTransport.evloop (transport_ client2))).1 (transport_ client2))).
Proof.
  destruct armed2 as (_ & Ht & _).
  destruct (transport_callbacks_return local_config local_config_ok 8080 true 1 4 (transport_ client2) (transport_live 4 2 client2 live2 ltac:(lia)) ltac:(lia)
    [receiving [AsyncTransport.RFailed]] []) as (_ & Htim & _); [done|].
  exact (Htim _ [] Ht).
Defined.

Lemma sessions6 : sessions (transport_ client6) = [AsyncTransport.mkSession [(1, set_frame); (2, get_frame)] (set_frame ++ get_frame) (set_reply ++ get_reply) [(1, set_reply); (2, get_reply)]].
Proof. vm_compute. reflexivity. Qed.
