(* ===== verification/KvSystemWitnesses.v ===== *)
(** A run of the KV server on the connection of the concrete KV client: the write is answered before the read arrives,
    and the theorem on the whole system at that moment. *)
From S2P Require Import Prelude KvProtocol Buffer EventLoop TcpServer TcpServerInv TcpServerCorrectness TcpServerReplies TcpServerOrder ServerRuns Network LruCache ShardedCache Disk Aof AofLog AofDurability CacheService ServiceHistory ServiceCorrectness ServiceWitnesses ServerMain Executor AsyncTransport AsyncTransportInv TcpConnection KvClient KvEndToEnd KvSystem TransportRuns KvClientWitnesses.
Import KvClient.
Import TcpServer(server, mkServer, mkServerOptions, max_connections_).

#[local] Existing Instance plain_codec.
#[local] Existing Instance plain_laws.
#[local] Existing Instance small_layout.
#[local] Existing Instance small_hash.

Definition kv_server : server := mkServer 4 MAX_FRAME_SIZE (mkServerOptions 1 1 8 (64 * 1024 * 1024) (8 * 1024 * 1024) 1 1000) true (Some frame_size).
Lemma kv_server_assembled : assembled kv_server true.
Proof. unfold assembled. cbn. split_and!; done || lia. Qed.

(** The handler's next state. *)
Definition next_kv (h : kv_state) (inputs : list bytes) : kv_state :=
  mkKv (HandleBatch (at_time 1000) inputs (k_service h)).1 1000
    (k_events h ++ [mkEvent (k_time h) (k_service h) (at_time 1000) inputs (HandleBatch (at_time 1000) inputs (k_service h)).1 (HandleBatch (at_time 1000) inputs (k_service h)).2 1000]).
Definition result_kv (h : kv_state) (inputs : list bytes) : outcome (list Reply) := (HandleBatch (at_time 1000) inputs (k_service h)).2.
Lemma kv_handles_next h inputs : in_range (at_time 1000) inputs (k_service h) -> k_time h <= 1000 -> returned (result_kv h inputs) ->
  kv_handle true h inputs (next_kv h inputs) (result_kv h inputs).
Proof.
  intros Hr Ht Hret. exists (at_time 1000), 1000. split; [done|]. split; [split_and!; cbn; lia|]. split; [apply surjective_pairing|]. done.
Qed.

Definition kv0 : kv_state := mkKv (small stutter) 0 [].
Definition receive (n : Z) : TcpServer.io_env := TcpServer.mkIoEnv [] [TcpServer.Got n] true 5.
Definition send_all : TcpServer.io_env := TcpServer.mkIoEnv [TcpServer.Took 100 6] [] true 6.
Definition next_batch (y : system kv_state) : system kv_state :=
  answered_by O (next_kv (sy_handler y) (TcpServer.j_input <$> default [] (TcpServer.w_batches (sy_world y) !! O)))
    (result_kv (sy_handler y) (TcpServer.j_input <$> default [] (TcpServer.w_batches (sy_world y) !! O))) y.
(** A request arrives, a worker takes it and completes it, and the reactor sends the reply. *)
Definition arrived (n : Z) : system kv_state -> system kv_state := on_network (after_event kv_server (receive n) 1 EventLoop.EPOLLIN).
Definition answered : system kv_state -> system kv_state := fun y => on_network (after_task kv_server send_all) (next_batch (on_network (after_take kv_server) y)).

Definition y0 : system kv_state := mkSystem _ kv0 (TcpServer.start_world 1).
Definition y1 : system kv_state := on_network (TcpServer.accept_ready kv_server 128 [TcpServer.Accepted 7 (set_frame ++ get_frame)]) y0.
Definition y2 : system kv_state := on_network (after_task kv_server (receive 100)) y1.
Definition y3 : system kv_state := arrived 14 y2.
Definition y4 : system kv_state := answered y3.
Definition y5 : system kv_state := arrived 100 y4.
Definition y6 : system kv_state := answered y5.

(** From [y1] to [y]. *)
Abbreviation kv_since n1 y1 n y := (since kv_server (kv_handle true) n1 y1 n y).
Definition good_result (r : outcome (list Reply)) : bool := match r with Ret rs => forallb (fun x => 0 <=? consumed x) rs | _ => false end.
Lemma since_next n1 y n k f z : kv_since n1 y n z -> TcpServer.step kv_server k (sy_world z) (f (sy_world z)) ->
  (length (TcpServer.w_batches (sy_world z)) <= length (TcpServer.w_batches (f (sy_world z))))%nat -> kv_since n1 y (n + k) (on_network f z).
Proof. intros Hz Hs Hl. eapply since_more; [exact Hz|]. by apply network_step. Qed.
Lemma since_arrived n1 y n x k z : kv_since n1 y n z -> length (TcpServer.w_ios (sy_world z)) = 1%nat -> EventLoop.watches_ (io_of (sy_world z)).1 !! 1 = Some x -> EventLoop.w_callback x = 1 ->
  (event_of kv_server (receive k) 1 EventLoop.EPOLLIN (sy_world z)).2 = Ret tt -> kv_since n1 y (n + 2) (arrived k z).
Proof. intros Hz Hl Hx Hc Hr. apply (since_next _ _ _ 2); [done|by apply (event_run_step kv_server (receive k) 1 EventLoop.EPOLLIN x)|done]. Qed.
Lemma since_batch n1 y n z batch : kv_since n1 y n z -> TcpServer.w_batches (sy_world z) !! O = Some batch -> k_time (sy_handler z) <= 1000 ->
  zlen (frames (muts (verdicts (cache_ (k_service (sy_handler z))) (now_parse (at_time 1000)) (TcpServer.j_input <$> batch)))) < 2 ^ 64 ->
  zlen (frames (snapshot_log (now_snap (at_time 1000)) (cache_ (k_service (sy_handler z))))) < 2 ^ 64 ->
  good_result (result_kv (sy_handler z) (TcpServer.j_input <$> batch)) = true -> kv_since n1 y (n + 0) (next_batch z).
Proof.
  intros Hz Hb Ht H1 H2 Hg. unfold next_batch. rewrite Hb. cbn [default]. unfold good_result in Hg. eapply since_more; [exact Hz|]. apply (handle_step kv_server (kv_handle true) O _ _ z batch Hb).
  - apply kv_handles_next; [|done|by destruct (result_kv _ _)]. split; [by apply clock_at|]. done.
  - destruct (result_kv _ _) as [rs| | |]; try done. apply Forall_forall. intros x Hx. apply list_elem_of_In in Hx. eapply forallb_forall in Hg; [|exact Hx]. lia.
Qed.
Lemma since_answered n1 y n z batch : kv_since n1 y n z -> TcpServer.jobs (TcpServer.w_rt (sy_world z)) <> [] ->
  TcpServer.w_batches (after_take kv_server (sy_world z)) !! O = Some batch -> k_time (sy_handler z) <= 1000 ->
  zlen (frames (muts (verdicts (cache_ (k_service (sy_handler z))) (now_parse (at_time 1000)) (TcpServer.j_input <$> batch)))) < 2 ^ 64 ->
  zlen (frames (snapshot_log (now_snap (at_time 1000)) (cache_ (k_service (sy_handler z))))) < 2 ^ 64 ->
  good_result (result_kv (sy_handler z) (TcpServer.j_input <$> batch)) = true ->
  length (TcpServer.w_ios (sy_world (next_batch (on_network (after_take kv_server) z)))) = 1%nat ->
  EventLoop.tasks_ (io_of (sy_world (next_batch (on_network (after_take kv_server) z)))).1 <> [] ->
  (task_of kv_server send_all (sy_world (next_batch (on_network (after_take kv_server) z)))).2 = Ret tt -> kv_since n1 y (n + 0 + 0 + 3) (answered z).
Proof.
  intros Hz Hj Hb Ht H1 H2 Hg Hl Hts Hr. apply (since_next _ _ _ 3); [|by apply (task_run_step kv_server send_all)|done]. apply (since_batch _ _ _ _ batch); try done.
  apply since_next; [done|by apply take_run_step|]. cbn. rewrite length_app. lia.
Qed.

(** The write has been answered in [y4]; the read arrives afterwards. *)
Lemma since2 : kv_since 1 y0 3 y2.
Proof.
  apply (since_next _ _ 1 2 (after_task kv_server (receive 100)) y1).
  - apply (since_next _ _ 1 0 _ y0); [constructor|apply TcpServer.step_accept|vm_compute; lia].
  - apply (task_run_step kv_server (receive 100)); [vm_compute; reflexivity|vm_compute; discriminate|vm_compute; reflexivity].
  - vm_compute. lia.
Qed.
Lemma since3 : kv_since 1 y0 5 y3.
Proof. apply (since_arrived _ _ 3 (EventLoop.mkWatch 7 1) 14 y2 since2); vm_compute; reflexivity. Qed.
Lemma since4 : kv_since 1 y0 8 y4.
Proof. apply (since_answered _ _ 5 y3 [TcpServer.mkJob set_frame 0 1 14 true] since3); vm_compute; reflexivity || discriminate. Qed.
Lemma runs4 : sys_reachable kv_server (kv_handle true) kv0 1 8 y4.
Proof. apply (since_reachable kv_server (kv_handle true) kv0 1 1 y0 8 y4); [constructor|exact since4]. Qed.
Lemma since5 : kv_since 8 y4 10 y5.
Proof. apply (since_arrived _ _ 8 (EventLoop.mkWatch 7 1) 100 y4 (since_now _ _ _ _)); vm_compute; reflexivity. Qed.
Lemma since6 : kv_since 8 y4 13 y6.
Proof. apply (since_answered _ _ 10 y5 [TcpServer.mkJob get_frame 0 1 13 true] since5); vm_compute; reflexivity || discriminate. Qed.

(** Until then the server had received what the client had sent for its first call. *)
Lemma session2 : sessions (transport_ client2) = [AsyncTransport.mkSession [(1, set_frame)] set_frame [] []].
Proof. vm_compute. reflexivity. Qed.
Lemma peers4 : TcpServer.stream <$> (io_of (sy_world y4)).2 = {[1 := set_frame]} /\ length (TcpServer.w_ios (sy_world y4)) = 1%nat.
Proof. vm_compute. split; reflexivity. Qed.
Lemma peer_stream w i token p b : TcpServer.stream <$> (io_of w).2 = {[1 := b]} -> length (TcpServer.w_ios w) = 1%nat -> peer_at w i token = Some p -> TcpServer.stream p = b.
Proof.
  intros Hp Hl. unfold peer_at. destruct i as [|i].
  - rewrite (io_of_lookup _ Hl). cbn [mbind option_bind snd]. intros H. assert ((TcpServer.stream <$> (io_of w).2) !! token = Some (TcpServer.stream p)) as E by (by rewrite lookup_fmap, H).
    rewrite Hp in E. by apply lookup_singleton_Some in E as [_ <-].
  - rewrite lookup_ge_None_2; [done|]. rewrite Hl. lia.
Qed.
Lemma peer4 i token p : peer_at (sy_world y4) i token = Some p -> TcpServer.stream p = set_frame.
Proof. destruct peers4 as [Hp Hl]. exact (peer_stream (sy_world y4) i token p set_frame Hp Hl). Qed.
Definition kv_peer : TcpServer.Peer := default (TcpServer.new_peer 0 []) ((io_of (sy_world y6)).2 !! 1).
Lemma kv_peer_at : peer_at (sy_world y6) O 1 = Some kv_peer.
Proof. vm_compute. reflexivity. Qed.
Lemma kv_peer_bytes : TcpServer.stream kv_peer = set_frame ++ get_frame /\ TcpServer.wire kv_peer = set_reply ++ get_reply.
Proof. vm_compute. split; reflexivity. Qed.
Lemma followed6 x : x ∈ sessions (transport_ client6) -> followed kv_server (kv_handle true) kv0 1 8 y4 (sessions (transport_ client2)) y6 x.
Proof.
  rewrite sessions6, session2. intros ->%list_elem_of_singleton. right. right. exists 13, y6, kv_peer, O, 1. destruct kv_peer_bytes as [H1 H2]. split; [exact since6|]. split; [lia|]. split; [apply rtc_refl|].
  split; [exact kv_peer_at|]. rewrite H1, H2. split; [by exists []; rewrite app_nil_r|]. split; [by exists []; rewrite app_nil_r|].
  intros p1 ->%peer4. eexists. split; [by apply list_elem_of_singleton|]. split; [by exists [(2, get_frame)]|done].
Qed.

(** The read is in a call of the service after the write's. *)
Lemma kv_system_witness :
  exists later_events, k_events (sy_handler y6) = k_events (sy_handler y4) ++ later_events /\
  exists x request ev rs k v, promises client6 !! 2 = Some x /\ Message.encode (c_command x) (c_key x) (c_value x) = Ret request /\
    ev ∈ later_events /\ answers (batch_of ev rs) k request get_reply /\ fulfilled (batch_of ev rs) k x (Ret v).
Proof.
  destruct (kv_system kv_server true kv_server_assembled (small stutter) 0 [] (small_Healthy stutter) visit_all local_endpoint default_client_options
    1 8 y4 13 y6 4 2 client2 7 6 client6 2 get_reply runs4 ltac:(lia) since6 ltac:(lia) live2 ltac:(lia) ltac:(lia) live6 ltac:(lia) ltac:(lia) local_config_ok followed6)
    as (_ & es & Hes & x & request & ev & rs & k & v & Hx & Hr & _ & Hnew & _ & Ha & _ & Hf & _); [rewrite completed6; by right; left|].
  exists es. split; [exact Hes|]. exists x, request, ev, rs, k, v. split; [exact Hx|]. split; [exact Hr|]. split; [apply Hnew; vm_compute; reflexivity|]. split; [exact Ha|exact Hf].
Defined.
