(* ===== verification/RpcEndToEnd.v ===== *)
(** [kvrpc::RpcClient] over [AsyncTransport] (include/kvrpc/rpc_client.h): many calls share a connection and may
    be answered out of order; a call completed with a response has the answer to its own request. *)
From S2P Require Import Prelude Buffer Executor EventLoop AsyncTransport AsyncTransportInv AsyncTransportStable AsyncTransportCorrectness TcpConnection ConnectionPool RpcProtocol RpcServer RpcCorrectness.

Module RpcClient.
Section RpcClient.
Context {codec : EnvelopeCodec} {message : Type} {mcodec : MessageCodec message}.

(** What a completion captures, with the call it belongs to. *)
Record call := mkCall { c_name : bytes; c_args : list (cval message); c_ret : option ctype }.
(** [promises] are the calls submitted, by identifier. *)
Record client := mkClient { calls_ : rpc_client; transport_ : AsyncTransport.impl; promises : gmap Z call }.

Definition rpc_config (t : TransportOptions) (o : ClientOptions) (visit : gmap Z nat -> list (Z * nat)) : AsyncTransport.config :=
  AsyncTransport.mkConfig t o RpcFrameSize (Some RpcId) visit.
(** A null pool has no endpoint. *)
Definition Endpoint (pool : option ConnectionPool.pool) : outcome ClientEndpoint :=
  match pool with None => Throw (KvError invalid_argument) | Some p => Ret (ConnectionPool.Endpoint p) end.
Definition construct (visit : gmap Z nat -> list (Z * nat)) (e : ClientEndpoint) (o : ClientOptions) : outcome client :=
  s ← AsyncTransport.make (port e) (valid_address e) (connections e) (rpc_config (timeouts e) o visit) ;
  Ret (mkClient (mkRpcClient (Executor.max_frame_bytes o) 1) s ∅).

(** [Call], with the submission; an exception after [fetch_add] leaves the identifier unused. *)
Definition Call_async (cfg : AsyncTransport.config) (now : Z) (x : call) : M client Z := fun c =>
  match Call (c_name x) (c_args x) (calls_ c) with
  | (r, Ret (id, b)) => (mkClient r (AsyncTransport.Submit cfg now id b (fun b e => (complete (c_ret x) b e).2) (transport_ c)) (<[id := x]> (promises c)), Ret id)
  | (r, Throw e) => (mkClient r (transport_ c) (promises c), Throw e)
  | (r, Undef) => (mkClient r (transport_ c) (promises c), Undef)
  | (r, Blocked) => (mkClient r (transport_ c) (promises c), Blocked)
  end.

(** A call with well-typed arguments, returning or throwing, or a step of the transport that is not a submission. *)
Inductive step (cfg : AsyncTransport.config) : Z -> client -> client -> Prop :=
| step_call c now x c' r : Forall typed (c_args x) -> utf8 (c_name x) = true -> Call_async cfg now x c = (c', r) -> match r with Ret _ | Throw _ => True | _ => False end -> step cfg 0 c c'
| step_transport n c s' : AsyncTransport.step cfg n (transport_ c) s' ->
    AsyncTransport.submitted s' = AsyncTransport.submitted (transport_ c) -> step cfg n c (mkClient (calls_ c) s' (promises c)).
Inductive reachable (visit : gmap Z nat -> list (Z * nat)) (e : ClientEndpoint) (o : ClientOptions) : Z -> Z -> client -> Prop :=
| reach_construct c : construct visit e o = Ret c -> reachable visit e o 1 0 c
| reach_step n k m c c' : reachable visit e o n m c -> step (rpc_config (timeouts e) o visit) k c c' -> reachable visit e o (n + k) (m + 1) c'.
End RpcClient.

(** * The framing *)

Lemma RpcFrameSize_cases b : (zlen b < RPC_HEADER /\ RpcFrameSize b = Ret 0) \/ (RPC_HEADER <= zlen b /\ RpcFrameSize b = Throw (KvError protocol)) \/
  (RPC_HEADER <= zlen b /\ take 4 b = str "KVR2" /\ RpcFrameSize b = Ret (RPC_HEADER + be_combine b.[4, 4]) /\ 0 <= be_combine b.[4, 4] < 2 ^ 32).
Proof.
  unfold RpcFrameSize. destruct (Z.ltb_spec (zlen b) RPC_HEADER) as [|Hl]; [by left|right]. destruct (decide (take 4 b <> _)) as [|Hn]; [by left|right].
  apply dec_stable in Hn. pose proof (be_combine_range b.[4, 4]) as Hr. assert (length (b.[4, 4]) = 4%nat) as Hlen by (rewrite length_take, length_drop; unfold zlen, RPC_HEADER in Hl; lia).
  rewrite Hlen in Hr. split_and!; [done|done|done|lia|lia].
Qed.

Lemma rpc_config_ok t o visit : (forall q, visit q ≡ₚ map_to_list q) -> 0 < Executor.max_frame_bytes o <= 2 ^ 62 -> 0 < queue_capacity o < 2 ^ 64 ->
  0 <= queue_bytes o < 2 ^ 64 -> 0 < max_inflight o < 2 ^ 64 -> config_ok (rpc_config t o visit).
Proof.
  intros Hv Hf Hc Hb Hi. split; cbn; try done.
  - intros b. destruct (RpcFrameSize_cases b) as [[_ ->]|[[_ ->]|(_ & _ & -> & ?)]]; [done|done|unfold RPC_HEADER; lia].
  - intros f b n [= <-] Hn Hl. destruct (RpcFrameSize_cases b) as [[_ E]|[[_ E]|(Hb' & _ & E & ?)]]; rewrite E in Hn; [injection Hn as <-; lia|done|]. injection Hn as <-.
    unfold RpcId. rewrite (proj2 (Z.ltb_ge _ _)); [cbv zeta; by destruct (_ =? 0)|]. unfold zlen in *. rewrite length_take. unfold RPC_HEADER in *. lia.
  - intros b. destruct (RpcFrameSize_cases b) as [[Hl ->]|[[_ ->]|(_ & _ & -> & ?)]]; [unfold RPC_HEADER in *; lia|done|intros [= E]; unfold RPC_HEADER in *; lia].
Qed.

Lemma RpcFrameSize_local a r r' : 0 < zlen a -> RpcFrameSize (a ++ r) = Ret (zlen a) -> RpcFrameSize (a ++ r') = Ret (zlen a).
Proof.
  intros Ha E. destruct (RpcFrameSize_cases (a ++ r)) as [[_ E']|[[_ E']|(_ & H4 & E' & ?)]]; rewrite E' in E; [injection E; lia|done|]. injection E as E. unfold RPC_HEADER in E.
  assert (16 <= length a)%nat as Hl by (unfold zlen in E; lia). pose proof (zlen_nonneg r'). unfold RpcFrameSize. rewrite zlen_app, (proj2 (Z.ltb_ge _ _)) by (unfold RPC_HEADER; lia).
  rewrite take_app_le in H4 |- * by lia. rewrite decide_False by (by intros Hn; apply Hn). rewrite !drop_app_le, !take_app_le in E |- * by (rewrite ?length_drop; lia).
  unfold RPC_HEADER. by rewrite E.
Qed.

Section Client.
Context {codec : EnvelopeCodec} {laws : EnvelopeLaws codec} {message : Type} {mcodec : MessageCodec message} {mlaws : MessageLaws mcodec}.
Abbreviation client := (@client message).
Abbreviation call := (@call message).

(** * Reachable clients *)

(** The request of a call. *)
Definition made (ps : gmap Z call) (i : Z) (b : bytes) : Prop :=
  exists x vs limit, ps !! i = Some x /\ 0 < i < 2 ^ 64 /\ Forall typed (c_args x) /\ utf8 (c_name x) = true /\
    to_values (c_args x) = Ret vs /\ RpcEncode i (mkEnvelope REQUEST (c_name x) vs None 0 []) limit = Ret b.

Record rpc_client_inv (cfg : AsyncTransport.config) (e : ClientEndpoint) (n m : Z) (c : client) : Prop := {
  ri_transport : AsyncTransport.reachable cfg (port e) (valid_address e) (connections e) n (transport_ c);
  ri_next : 1 <= next_ (calls_ c) <= m + 1;
  ri_ids : Forall (fun i => i < next_ (calls_ c)) (AsyncTransport.submitted (transport_ c));
  ri_promises : map_Forall (fun i _ => i < next_ (calls_ c)) (promises c);
  ri_made : requested (made (promises c)) (transport_ c)
}.

Lemma Call_next name args c c' r : Call (message := message) name args c = (c', r) -> next_ c' = next_ c \/ next_ c' = u64 (next_ c + 1).
Proof.
  unfold Call, mbind, M_bind, lift, fetch_add, get_state. destruct (to_values args); [|intros [= <- _]; by left..]. cbn. destruct (RpcEncode _ _ _); intros [= <- _]; by right.
Qed.

Section Reachable.
Context (visit : gmap Z nat -> list (Z * nat)) (e : ClientEndpoint) (o : ClientOptions).
Abbreviation cfg := (rpc_config (timeouts e) o visit).

Lemma rpc_submitted now i b v s : AsyncTransport.submitted (AsyncTransport.Submit cfg now i b v s) = AsyncTransport.submitted s ++ [i].
Proof. unfold AsyncTransport.Submit. cbv zeta. by destruct (_ || _ || _). Qed.

Lemma later_inv n m c r : rpc_client_inv cfg e n m c -> m + 2 < 2 ^ 64 -> next_ r = next_ (calls_ c) \/ next_ r = u64 (next_ (calls_ c) + 1) -> rpc_client_inv cfg e n (m + 1) (mkClient r (transport_ c) (promises c)).
Proof.
  intros [C1 C2 C3 C4 C5] Hm Hr. assert (next_ (calls_ c) <= next_ r <= next_ (calls_ c) + 1) as Hn by (destruct Hr as [-> | ->]; rewrite ?u64_small; lia).
  split; cbn; [done|lia| | |done]; [eapply Forall_impl; [exact C3|]|eapply map_Forall_impl; [exact C4|]]; cbn; lia.
Qed.

Lemma rpc_reachable_inv n m c : reachable visit e o n m c -> m + 1 < 2 ^ 64 -> rpc_client_inv cfg e n m c.
Proof.
  induction 1 as [c Hc|n k m c c' Hr IH Hstep]; intros Hm.
  - unfold construct in Hc. destruct (AsyncTransport.make _ _ _ _) as [s|x| |] eqn:E; try done. injection Hc as <-.
    split; cbn; [by apply AsyncTransport.reach_make|lia| | |]; unfold AsyncTransport.make in E; destruct (_ || _); try done; injection E as <-; cbn; [by apply Forall_nil_2|].
    split; [apply map_Forall_empty|]. unfold sessions. cbn. apply Forall_fmap, Forall_replicate. constructor.
  - specialize (IH ltac:(lia)). destruct Hstep as [c now x c' r Ht Hu Hx Hr'|k c s' Hx Hsub].
    + rewrite Z.add_0_r. unfold Call_async in Hx. destruct (Call (c_name x) (c_args x) (calls_ c)) as [rc [[i b]|ex| |]] eqn:Ec; injection Hx as <- <-; try done;
        [|apply later_inv; [done|lia|by eapply Call_next]].
      pose proof (Call_next _ _ _ _ _ Ec) as Hnext. destruct (Call_Ret _ _ _ _ _ _ Ec) as (-> & Hn & vs & Hvs & Hb). pose proof IH as [C1 C2 C3 C4 C5]. rewrite u64_small in Hn by lia.
      assert (next_ (calls_ c) ∉ AsyncTransport.submitted (transport_ c)) as Hfresh by (intros Hin; eapply Forall_forall in C3; [|exact Hin]; cbn in C3; lia).
      split; cbn [transport_ calls_ promises]; rewrite ?Hn; [|lia|rewrite rpc_submitted; apply Forall_app; split; [eapply Forall_impl; [exact C3|]; cbn; lia|apply Forall_singleton; lia]| |].
      * rewrite <-(Z.add_0_r n). eapply AsyncTransport.reach_step; [exact C1|]. by apply AsyncTransport.step_submit.
      * apply map_Forall_insert_2; [lia|]. eapply map_Forall_impl; [exact C4|]. cbn. lia.
      * apply requested_Submit; [exists x, vs, (max_frame_bytes (calls_ c)); rewrite lookup_insert_eq; split_and!; done || lia|]. eapply requested_mono; [|exact C5].
        intros j y (x' & vs' & l' & Hj & ?). exists x', vs', l'. split; [|done]. rewrite lookup_insert_ne; [done|]. specialize (C4 j x' Hj). cbn in C4. lia.
    + destruct IH as [C1 C2 C3 C4 C5]. split; cbn [transport_ calls_ promises]; rewrite ?Hsub; try done; [by eapply AsyncTransport.reach_step|lia|].
      eapply requested_step; [|exact C5|exact Hx]. intros now i bs v ->. rewrite rpc_submitted in Hsub. apply (f_equal length) in Hsub. rewrite length_app in Hsub. cbn in Hsub. lia.
Qed.

(** * The peer *)

Context {St : Type}.

(** A server whose methods have the result types the client expects has answered [y] with [r]; this is what
    the call [x] is worth on it. *)
Definition answered (ps : gmap Z call) (y r : bytes) (srv : rpc_server message St) (st st' : St) : Prop :=
  server_ok srv /\ (forall i x m, ps !! i = Some x -> methods_ srv !! c_name x = Some m -> m_ret m = c_ret x) /\ Dispatch srv y st = (st', Ret (r, zlen y)).
Definition rpc_served (ps : gmap Z call) (y r : bytes) : Prop := exists srv st st', answered ps y r srv st st'.

(** The peer of a session: it answers requests of the connection, in any order. *)
Definition multiplexed (R : bytes -> bytes -> Prop) (x : AsyncTransport.Session) : Prop :=
  exists rs, Forall (fun r => exists y, y ∈ (AsyncTransport.dispatched x).*2 /\ R y r) rs /\ AsyncTransport.stream x `prefix_of` concat rs.

Lemma answered_call ps j y r srv st st' : made ps j y -> answered ps y r srv st st' ->
  RpcId r = Ret j /\ (forall rest, RpcFrameSize (r ++ rest) = Ret (zlen r)) /\
  exists x v, ps !! j = Some x /\ remote_call srv (c_name x) (c_args x) st = (st', v) /\ complete (c_ret x) r None = (v, true).
Proof.
  intros (x & vs & limit & Hx & Hj & Ht & Hu & Hvs & Hy) (Hsrv & Hret & Hd). rewrite (Dispatch_refines srv (c_name x) (c_args x) vs j y limit st Hsrv Ht Hu Hj Hvs Hy) in Hd.
  destruct (remote_call srv (c_name x) (c_args x) st) as [st1 v] eqn:Er. assert (st1 = st' /\ RpcEncode j (response_of v) (limit_ srv) = Ret r) as [-> Henc].
  { destruct v as [v|ex| |]; try done; injection Hd as -> Hd; (apply outcome_bind_Ret in Hd as (reply & Hreply & [= ->]); done). }
  destruct (RpcEncode_Ret _ _ _ _ Henc) as (_ & Hz & Eb). destruct (remote_call_ok _ _ _ (c_ret x) _ _ _ Hsrv ltac:(intros m; by apply (Hret j)) Er) as [Hok|Hbad]; [|by destruct Hbad as [-> | ->]].
  pose proof (response_ok _ _ Hok) as Henv. split; [rewrite Eb, RpcId_frame by lia; by rewrite (proj2 (Z.eqb_neq _ _)) by lia|]. split.
  - intros rest. rewrite Eb, RpcFrameSize_frame, frame_zlen by done. done.
  - exists x, v. split; [done|]. split; [done|]. apply complete_refines; [done|]. rewrite Eb. by apply RpcDecode_frame.
Qed.

(** A remote call over a shared connection: whatever the order in which the peers answer the requests of a
    connection, by a relation [R] that only holds for answers of servers, a call completed with a
    response has the answer to its own request. *)
Lemma rpc_end_to_end (R : bytes -> bytes -> Prop) n m c i b :
  reachable visit e o n m c -> n < 2 ^ 64 -> m + 1 < 2 ^ 64 -> config_ok cfg -> (forall y r, R y r -> rpc_served (promises c) y r) ->
  (forall x, x ∈ sessions (transport_ c) -> multiplexed R x) ->
  (i, (b, None)) ∈ AsyncTransport.completed (transport_ c) ->
  exists y, made (promises c) i y /\ R y b.
Proof.
  intros Hr Hn Hm Hok HR Hpeer Hc. destruct (rpc_reachable_inv _ _ _ Hr Hm) as [C1 C2 C3 C4 [_ C5]].
  destruct (response_session cfg Hok _ _ _ _ _ C1 Hn i b Hc) as (x & Hx & _ & Hstr & Hdel & _ & k & Hk & Hi). cbn [AsyncTransport.ids rpc_config] in Hi.
  destruct (Hpeer x Hx) as (rs & Hrs & Hp). eapply Forall_forall in C5; [|exact Hx].
  assert (Forall (fun r => exists j y, made (promises c) j y /\ R y r) rs) as Hall.
  { eapply Forall_impl; [exact Hrs|]. intros r (y & Hy & Ha). apply list_elem_of_fmap in Hy as ([j y'] & -> & Hjy). eapply Forall_forall in C5; [|exact Hjy]. by exists j, y'. }
  assert (forall j y r, made (promises c) j y -> R y r -> RpcId r = Ret j /\ (forall rest, RpcFrameSize (r ++ rest) = Ret (zlen r))) as Hans.
  { intros j y r Hmade Ha. destruct (HR y r Ha) as (srv & st & st' & Hs). destruct (answered_call _ _ _ _ _ _ _ Hmade Hs) as (? & ? & _). done. }
  assert ((AsyncTransport.answers x).*2 `prefix_of` rs) as Hpre.
  { apply (frames_unique RpcFrameSize); [apply RpcFrameSize_local| | |by etrans].
    - apply Forall_fmap. eapply Forall_impl; [exact Hdel|]. intros y [[? _] ?]. done.
    - eapply Forall_impl; [exact Hall|]. intros r (j & y & Hmade & Ha). by apply (Hans j y). }
  assert (rs !! k = Some b) as Hb by (eapply prefix_lookup_Some; [|exact Hpre]; by rewrite list_lookup_fmap, Hk).
  eapply (Forall_lookup_1 _ _ k) in Hall; [|exact Hb]. destruct Hall as (j & y & Hmade & Ha). destruct (Hans j y b Hmade Ha) as [Hj _]. assert (j = i) as -> by congruence. by exists y.
Qed.
End Reachable.
End Client.
End RpcClient.
