(* ===== verification/RpcSystem.v ===== *)
(** The RPC server as it runs, [RpcServer] on its [TcpServer] (include/kvrpc/rpc_server.h), and RPC clients connected
    to it over TCP: calls pipelined on a connection run on several workers and are answered in any
    order, and the future of a call holds what the registered function made of that call. *)
From S2P Require Import Prelude Buffer EventLoop TcpServer TcpServerInv TcpServerCorrectness TcpServerLifecycle TcpServerReplies Network Executor AsyncTransport AsyncTransportInv AsyncTransportStable AsyncTransportCorrectness TcpConnection RpcProtocol RpcServer RpcCorrectness RpcEndToEnd.
Import RpcClient.
Import TcpServer(server, mkServer, batch_handler_, sizer_, max_connections_, max_frame_bytes_, options_).
Import Lifecycle(tcp, mkTcp, members, handler_, setFrameSizer, setHandler, life).

Section System.
Context {codec : EnvelopeCodec} {laws : EnvelopeLaws codec} {message : Type} {mcodec : MessageCodec message} {mlaws : MessageLaws mcodec} {St : Type}.
Abbreviation rpc_server := (rpc_server message St).

(** * The server *)

(** The constructor; [max_payload + RPC_HEADER] is a [size_t]. *)
Definition RpcServer_make (port : Z) (valid_address : bool) (peers max_payload : Z) : outcome (tcp * rpc_server) :=
  s ← TcpServer.TcpServer_make port valid_address peers (u64 (max_payload + RPC_HEADER)) ;
  Ret (setHandler true (setFrameSizer (Some RpcFrameSize) (mkTcp s false)), mkRpcServer max_payload ∅).
Definition Configure (o : TcpServer.ServerOptions) (s : tcp * rpc_server) : outcome (tcp * rpc_server) :=
  t ← TcpServer.configure o (members s.1) ; Ret (mkTcp t (handler_ s.1), s.2).

(** The rest is the TCP server's. *)
Definition Start (s : tcp * rpc_server) (runtime : bool) : outcome unit := Lifecycle.start s.1 runtime.
Definition Stop (l : life) : life := Lifecycle.stop l.
Definition Stats (l : life) : TcpServer.Stats := TcpServer.stats (TcpServer.w_rt (Lifecycle.world_ l)).
Definition Port (l : life) : Z := Lifecycle.port l.

(** What they make of the TCP server. *)
Definition rpc_assembled (srv : server) : Prop := TcpServerInv.config_ok srv /\ sizer_ srv = Some RpcFrameSize /\ batch_handler_ srv = false.

Lemma RpcServer_make_assembled port va peers payload t rs : 0 <= peers < 2 ^ 64 -> RpcServer_make port va peers payload = Ret (t, rs) ->
  rpc_assembled (members t) /\ Start (t, rs) false = Ret tt /\ rs = mkRpcServer payload ∅.
Proof.
  intros Hp (s & Hs & [= <- <-])%outcome_bind_Ret. unfold TcpServer.TcpServer_make in Hs. destruct (_ || _) eqn:E in Hs; [done|]. injection Hs as <-. split; [|done].
  repeat (apply orb_false_iff in E as [E ?]). pose proof (u64_range (payload + RPC_HEADER)). zify_bools. split; [|done]. unfold TcpServerInv.config_ok. cbn -[u64].
  split_and!; try lia. intros f b n [= <-] Hn. destruct (RpcFrameSize_cases b) as [[_ E']|[[_ E']|(_ & _ & E' & ?)]]; rewrite E' in Hn; [injection Hn as <-; lia|done|].
  injection Hn as <-. unfold RPC_HEADER. lia.
Qed.
(** [Configure] may only refuse. *)
Lemma Configure_assembled o t rs t' rs' : 0 < TcpServer.pipeline o < 2 ^ 64 -> TcpServer.queue_bytes o < 2 ^ 64 -> TcpServer.queue_capacity o < 2 ^ 64 -> TcpServer.output_bytes o < 2 ^ 64 ->
  0 <= TcpServer.queue_bytes o -> 0 <= TcpServer.queue_capacity o -> 0 <= TcpServer.io_threads o -> 0 <= TcpServer.workers o ->
  rpc_assembled (members t) -> Configure o (t, rs) = Ret (t', rs') ->
  rpc_assembled (members t') /\ handler_ t' = handler_ t /\ rs' = rs /\ options_ (members t') = o /\ 0 < TcpServer.io_threads o /\ 0 < TcpServer.workers o.
Proof.
  intros Hp Hqb Hqc Hob H0 H1 H2 H3 (Hc & Hs & Hb) (s & Hcf & [= <- <-])%outcome_bind_Ret. cbn [fst snd] in *. unfold TcpServer.configure in Hcf. destruct (_ || _) eqn:E in Hcf; [done|]. injection Hcf as <-.
  repeat (apply orb_false_iff in E as [E ?]). zify_bools. cbn. split; [|split_and!; done || lia]. split; [|done]. unfold TcpServerInv.config_ok in *. cbn. destruct_and!. split_and!; done || lia.
Qed.

(** * Its handler *)

(** One call of [Dispatch], on the state of the application. *)
Record event := mkEvent { ev_before : St; ev_request : bytes; ev_after : St; ev_result : outcome (bytes * Z) }.
Record rpc_state := mkRpcState { r_state : St; r_events : list event }.

Definition rpc_handle (rs : rpc_server) : handler rpc_state := fun h inputs h' r =>
  exists data st out, inputs = [data] /\ Dispatch rs data (r_state h) = (st, out) /\
    h' = mkRpcState st (r_events h ++ [mkEvent (r_state h) data st out]) /\ r = (x ← out ; Ret [mkReply x.2 x.1 false]).

Fixpoint chained (rs : rpc_server) (st : St) (es : list event) (st' : St) : Prop :=
  match es with
  | [] => st = st'
  | x :: es => ev_before x = st /\ Dispatch rs (ev_request x) st = (ev_after x, ev_result x) /\ chained rs (ev_after x) es st'
  end.
Definition rpc_ok (rs : rpc_server) (st0 : St) (h : rpc_state) : Prop := chained rs st0 (r_events h) (r_state h).
Definition replied_in (h : rpc_state) (b : bytes) (x : Reply) : Prop :=
  exists ev, ev ∈ r_events h /\ ev_request ev = b /\ ev_result ev = Ret (r_bytes x, consumed x).

Lemma dispatches_snoc rs st es st' x : chained rs st es st' -> ev_before x = st' -> Dispatch rs (ev_request x) st' = (ev_after x, ev_result x) -> chained rs st (es ++ [x]) (ev_after x).
Proof. revert st. induction es as [|y es IH]; cbn; [by intros st -> ? ?|]. intros st (? & ? & ?) ? ?. split; [done|]. split; [done|]. by apply IH. Qed.
Lemma dispatches_elem rs st es st' x : chained rs st es st' -> x ∈ es -> Dispatch rs (ev_request x) (ev_before x) = (ev_after x, ev_result x).
Proof.
  revert st. induction es as [|y es IH]; cbn; [by intros ? _ ?%elem_of_nil|]. intros st (Hb & E & Hc) [->|Hx]%elem_of_cons; [by rewrite Hb|by eapply IH].
Qed.

#[local] Instance rpc_handles rs st0 : Handles (rpc_handle rs) (rpc_ok rs st0) replied_in.
Proof.
  split.
  - intros h ins h' r Hok (data & st & out & _ & E & -> & _). by apply (dispatches_snoc rs st0 (r_events h) (r_state h) (mkEvent (r_state h) data st out)).
  - intros h ins h' r b x _ (data & st & out & _ & _ & -> & _) (ev & Hev & ?). exists ev. split; [|done]. apply elem_of_app. by left.
  - intros h ins h' l k b x _ (data & st & out & -> & _ & -> & Hr) _ Hb Hx _. destruct out as [[reply n]| | |]; try done. injection Hr as ->. destruct k as [|k]; [|done].
    injection Hb as <-. injection Hx as <-. eexists. split; [apply elem_of_app; right; by apply list_elem_of_singleton|]. done.
Qed.

(** * Clients *)

Section Client.
Context (srv : server) (Hsrv : rpc_assembled srv) (rs : rpc_server) (Hrs : server_ok rs) (st0 : St).
Context (visit : gmap Z nat -> list (Z * nat)) (e : ClientEndpoint) (o : ClientOptions).

(** The server answered the request [b] with [r] in one of its calls. *)
Definition dispatched_in (es : list event) (b r : bytes) : Prop := exists ev, ev ∈ es /\ ev_request ev = b /\ ev_result ev = Ret (r, zlen b).

Lemma connected_multiplexed ios y x : (0 < ios)%nat -> connected srv (rpc_handle rs) (mkRpcState st0 []) ios y x ->
  AsyncTransport.wire x `prefix_of` concat (AsyncTransport.dispatched x).*2 ->
  Forall (fun b => forall rest, RpcFrameSize (b ++ rest) = Ret (zlen b)) (AsyncTransport.dispatched x).*2 -> multiplexed (dispatched_in (r_events (sy_handler y))) x.
Proof.
  intros Hios Hcon Hw Hreq. destruct Hsrv as (Hcfg & Hsz & _).
  destruct (connected_replies srv (rpc_handle rs) (mkRpcState st0 []) ios Hcfg (I := rpc_ok rs st0) eq_refl Hios RpcFrameSize Hsz RpcFrameSize_local y x Hcon (conj Hw Hreq)) as (l & Hst & Ha & _).
  exists ((fun a => r_bytes a.2) <$> l). split; [|done]. apply Forall_fmap. eapply Forall_impl; [exact Ha|]. intros [b r] (Hin & (ev & Hev & Hb & Hr) & _ & Hc). cbn in *.
  exists b. split; [done|]. exists ev. split; [done|]. split; [done|]. by rewrite Hr, Hc.
Qed.

Lemma made_delimited (ps : gmap Z call) i b : made ps i b -> forall rest, RpcFrameSize (b ++ rest) = Ret (zlen b).
Proof. intros (x & vs & limit & _ & _ & _ & _ & _ & (_ & Hz & ->)%RpcEncode_Ret) rest. by rewrite RpcFrameSize_frame, frame_zlen. Qed.

(** C5. The whole RPC system: a client whose connections reach the running server over TCP, with calls pipelined
    on shared connections, the server's reactors, queue and workers, and the registered functions, in
    every interleaving and with responses in any order.  The calls of the functions form one sequence
    of states of the application.  A call completed with a response is one of them, and its future holds
    exactly what the direct call gives in that state, its result or its remote error. *)
Theorem rpc_system ios ny y n m c i b :
  sys_reachable srv (rpc_handle rs) (mkRpcState st0 []) ios ny y -> (0 < ios)%nat -> ny < 2 ^ 64 ->
  reachable visit e o n m c -> n < 2 ^ 64 -> m + 1 < 2 ^ 64 -> AsyncTransportInv.config_ok (rpc_config (timeouts e) o visit) ->
  (forall j x f, promises c !! j = Some x -> methods_ rs !! c_name x = Some f -> m_ret f = c_ret x) ->
  (forall x, x ∈ sessions (transport_ c) -> connected srv (rpc_handle rs) (mkRpcState st0 []) ios y x) ->
  (i, (b, None)) ∈ AsyncTransport.completed (transport_ c) ->
  chained rs st0 (r_events (sy_handler y)) (r_state (sy_handler y)) /\
  exists x ev v, promises c !! i = Some x /\ ev ∈ r_events (sy_handler y) /\ ev_result ev = Ret (b, zlen (ev_request ev)) /\
    remote_call rs (c_name x) (c_args x) (ev_before ev) = (ev_after ev, v) /\ complete (c_ret x) b None = (v, true).
Proof.
  intros Hy Hios Hny Hr Hn Hm Hok Hret Hcon Hc.
  destruct (sys_reachable_inv srv (rpc_handle rs) (proj1 Hsrv) (I := rpc_ok rs st0) _ _ _ _ Hy eq_refl Hios Hny) as (_ & Hch & _). split; [done|].
  assert (forall z r, dispatched_in (r_events (sy_handler y)) z r -> exists ev, ev ∈ r_events (sy_handler y) /\ ev_request ev = z /\ ev_result ev = Ret (r, zlen z) /\
    answered (promises c) z r rs (ev_before ev) (ev_after ev)) as Hans.
  { intros z r (ev & Hev & Hz & Hres). exists ev. do 3 (split; [done|]). split; [done|]. split; [done|]. rewrite <-Hz. rewrite (dispatches_elem _ _ _ _ _ Hch Hev). by rewrite Hres, Hz. }
  destruct (rpc_reachable_inv visit e o n m c Hr Hm) as [C1 _ _ _ [_ C5]].
  destruct (rpc_end_to_end (St := St) visit e o (dispatched_in (r_events (sy_handler y))) n m c i b Hr Hn Hm Hok) as (request & Hmade & Hreq).
  - intros z r (ev & _ & _ & _ & Ha)%Hans. by exists rs, (ev_before ev), (ev_after ev).
  - intros x Hx. eapply Forall_forall in C5; [|exact Hx]. apply (connected_multiplexed ios); [done|by apply Hcon|by apply (session_reachable _ Hok _ _ _ _ _ C1 Hn)|].
    apply Forall_fmap. eapply Forall_impl; [exact C5|]. intros [j z] Hj rest. by eapply made_delimited.
  - done.
  - apply Hans in Hreq as (ev & Hev & Hz & Hres & Ha). destruct (answered_call _ _ _ _ _ _ _ Hmade Ha) as (_ & _ & x & v & Hx & Hcall & Hcomp).
    exists x, ev, v. rewrite Hz. done.
Qed.
End Client.
End System.
