(* ===== verification/RpcSystemWitnesses.v ===== *)
(** A concrete RPC client and server: two calls of [add] share a connection to the calculator, are handed to two
    workers and answered in the opposite order, and the theorem on the whole system holds there. *)
From S2P Require Import Prelude Buffer Executor EventLoop AsyncTransport AsyncTransportInv AsyncTransportStable AsyncTransportCorrectness TcpConnection RpcProtocol RpcServer RpcCorrectness RpcWitnesses ServiceWitnesses TransportRuns RpcEndToEnd TcpServer TcpServerInv TcpServerCorrectness TcpServerLifecycle TcpServerReplies ServerRuns Network RpcSystem.
Import EventLoop RpcClient.
Import TcpServer(server).

#[local] Existing Instance bit_codec.
#[local] Existing Instance bit_laws.
#[local] Existing Instance raw_codec.
#[local] Existing Instance raw_laws.

Definition rpc_endpoint : ClientEndpoint := mkClientEndpoint true 8081 1 default_transport_options.
Definition shared_config : AsyncTransport.config := rpc_config default_transport_options default_client_options visit_all.
Lemma shared_config_ok : AsyncTransportInv.config_ok shared_config.
Proof. by apply rpc_config_ok. Qed.

Abbreviation calling n m c := (reachable (message := bytes) visit_all rpc_endpoint default_client_options n m c).

Abbreviation client := (@client bytes).
Abbreviation call := (@call bytes).
Definition over (c : client) (s : AsyncTransport.impl) : client := mkClient (message := bytes) (calls_ c) s (promises c).
Definition caller0 : client := get_Ret (mkClient (mkRpcClient 0 0) (AsyncTransport.mkImpl EventLoop.new_loop [] [] ∅ ∅ 0 0 false false [] [] [] [] []) ∅)
  (construct visit_all rpc_endpoint default_client_options).
Lemma calling0 : calling 1 0 caller0.
Proof. by apply reach_construct. Qed.

Definition adding (x y : Z) : call := mkCall (str "add") [CSigned 8 x; CSigned 32 y] (Some (TSigned 64)).
Lemma adding_typed x y : - 2 ^ 7 <= x < 2 ^ 7 -> - 2 ^ 31 <= y < 2 ^ 31 -> Forall (typed (message := bytes)) (c_args (adding x y)).
Proof. intros Hx Hy. repeat constructor; [exists (TSigned 8)|exists (TSigned 32)]; (split; [|split]); try done; cbn; lia. Qed.

Definition submit_call (x : call) (c : client) : client := (Call_async shared_config 0 x c).1.
Lemma calling_call x n m c : calling n m c -> Forall (typed (message := bytes)) (c_args x) -> utf8 (c_name x) = true ->
  is_Ret (Call_async shared_config 0 x c).2 = true -> calling n (m + 1) (submit_call x c).
Proof.
  intros Hl Ht Hu Hr. rewrite <-(Z.add_0_r n). eapply reach_step; [exact Hl|]. eapply (step_call _ _ 0 x); [done|done|by apply (run_Ret 0)|done].
Qed.
Lemma calling_step (ds : list AsyncTransport.dial_reply) n m c s' : calling n m c -> AsyncTransport.step shared_config (2 * zlen ds + 1) (transport_ c) s' ->
  AsyncTransport.submitted s' = AsyncTransport.submitted (transport_ c) -> calling (n + (2 * zlen ds + 1)) (m + 1) (over c s').
Proof. intros Hl Hs Hsub. eapply reach_step; [exact Hl|]. by apply step_transport. Qed.

(** Both requests are sent before any response arrives. *)
Definition caller2 : client := submit_call (adding 7 (-9)) (submit_call (adding 2 40) caller0).
Definition caller3 : client := over caller2 (task_run shared_config [sending] [dialed] (transport_ caller2)).1.
Definition caller4 : client := over caller3 (task_run shared_config [sending] [] (transport_ caller3)).1.

Definition request_bytes (x : call) (i : Z) : bytes := match (Call (c_name x) (c_args x) (mkRpcClient (Executor.max_frame_bytes default_client_options) i)).2 with Ret (_, b) => b | _ => [] end.
Definition reply_bytes (y : bytes) : bytes := match (Dispatch calculator y 0).2 with Ret (r, _) => r | _ => [] end.
Definition request1 : bytes := request_bytes (adding 2 40) 1.
Definition request2 : bytes := request_bytes (adding 7 (-9)) 2.
Definition caller5 : client := over caller4 (event_run shared_config
  [receiving [AsyncTransport.Got (reply_bytes request2 ++ take 20 (reply_bytes request1)); AsyncTransport.Got (drop 20 (reply_bytes request1))]] [] (transport_ caller4)).1.

Lemma calling2 : calling 1 2 caller2.
Proof.
  apply (calling_call _ 1 1); [apply (calling_call _ 1 0); [apply calling0| |done|vm_compute; reflexivity]| |done|vm_compute; reflexivity]; apply adding_typed; lia.
Qed.
Lemma calling4 : calling 5 4 caller4.
Proof.
  apply (calling_step [] 4 3 caller3); [apply (calling_step [dialed] 1 2 caller2); [apply calling2| |vm_compute; reflexivity]| |vm_compute; reflexivity];
    (apply task_step; [by vm_compute|vm_compute; reflexivity]).
Qed.
Lemma calling5 : calling 6 5 caller5.
Proof. apply (calling_step [] 5 4 caller4); [apply calling4|eapply (event_step _ _ _ 2); [vm_compute; reflexivity|done|vm_compute; reflexivity]|vm_compute; reflexivity]. Qed.

Lemma completed5 : AsyncTransport.completed (transport_ caller5) = [(2, (reply_bytes request2, None)); (1, (reply_bytes request1, None))].
Proof. vm_compute. reflexivity. Qed.
Lemma sessions5 : sessions (transport_ caller5) =
  [AsyncTransport.mkSession [(1, request1); (2, request2)] (request1 ++ request2) (reply_bytes request2 ++ reply_bytes request1) [(2, reply_bytes request2); (1, reply_bytes request1)]].
Proof. vm_compute. reflexivity. Qed.
Lemma promises5 : promises caller5 = <[2 := adding 7 (-9)]> {[1 := adding 2 40]}.
Proof. vm_compute. reflexivity. Qed.
Lemma returns5 i x m : promises caller5 !! i = Some x -> methods_ calculator !! c_name x = Some m -> m_ret m = c_ret x.
Proof.
  rewrite promises5. intros Hx Hm. assert (c_name x = str "add" /\ c_ret x = Some (TSigned 64)) as [Hn ->].
  { apply lookup_insert_Some in Hx as [[_ <-]|[_ [_ <-]%lookup_singleton_Some]]; done. }
  rewrite Hn, calculator_add in Hm. by injection Hm as <-.
Qed.
(** * The server *)

Definition made_server : outcome (Lifecycle.tcp * rpc_server bytes Z) := RpcServer_make 8081 true 4 65536.
Definition rpc_tcp : Lifecycle.tcp := match made_server with Ret (s, _) => s | _ => Lifecycle.mkTcp (TcpServer.mkServer 0 0 TcpServer.default_options false None) false end.
Definition rpc_srv : server := Lifecycle.members rpc_tcp.
Lemma rpc_srv_assembled : rpc_assembled rpc_srv.
Proof. apply (RpcServer_make_assembled 8081 true 4 65536 rpc_tcp (mkRpcServer (message := bytes) (St := Z) 65536 ∅)); [lia|]. vm_compute. reflexivity. Qed.

Definition rpc0 : rpc_state := mkRpcState 0 [].
Abbreviation rpc_runs n y := (sys_reachable rpc_srv (rpc_handle calculator) rpc0 1 n y).
Definition take_in : TcpServer.io_env := TcpServer.mkIoEnv [] [TcpServer.Got 10000] true 5.
Definition send_out : TcpServer.io_env := TcpServer.mkIoEnv [TcpServer.Took 10000 6] [] true 6.

(** The call of a worker on the request [data]. *)
Definition dispatch_next (h : rpc_state) (data : bytes) : rpc_state :=
  mkRpcState (Dispatch calculator data (r_state h)).1 (r_events h ++ [mkEvent (r_state h) data (Dispatch calculator data (r_state h)).1 (Dispatch calculator data (r_state h)).2]).
Definition dispatch_reply (h : rpc_state) (data : bytes) : outcome (list Reply) := x ← (Dispatch calculator data (r_state h)).2 ; Ret [mkReply x.2 x.1 false].
Definition worker_done (i : nat) (data : bytes) (y : system rpc_state) : system rpc_state := answered_by i (dispatch_next (sy_handler y) data) (dispatch_reply (sy_handler y) data) y.
Lemma runs_dispatch i data job n y : rpc_runs n y -> TcpServer.w_batches (sy_world y) !! i = Some [job] -> TcpServer.j_input job = data ->
  is_Ret (dispatch_reply (sy_handler y) data) = true -> 0 <= (get_Ret ([], 0) (Dispatch calculator data (r_state (sy_handler y))).2).2 -> rpc_runs n (worker_done i data y).
Proof.
  intros Hy Hb Hj Hr Hc. apply (runs_handle rpc_srv (rpc_handle calculator) rpc0 1 i _ _ n y [job] Hy Hb).
  - exists data, (Dispatch calculator data (r_state (sy_handler y))).1, (Dispatch calculator data (r_state (sy_handler y))).2. split; [cbn; by rewrite Hj|]. split; [apply surjective_pairing|]. done.
  - unfold dispatch_reply in *. destruct (Dispatch _ _ _).2 as [[r k]| | |]; try done. by repeat constructor.
Qed.

Definition z0 : system rpc_state := mkSystem _ rpc0 (TcpServer.start_world 1).
Definition z1 : system rpc_state := on_network (TcpServer.accept_ready rpc_srv 128 [TcpServer.Accepted 7 (request1 ++ request2)]) z0.
Definition z2 : system rpc_state := on_network (after_task rpc_srv take_in) z1.
Definition z3 : system rpc_state := on_network (after_event rpc_srv take_in 1 EPOLLIN) z2.
Definition z4 : system rpc_state := on_network (after_take rpc_srv) (on_network (after_take rpc_srv) z3).
Definition z5 : system rpc_state := worker_done 1 request2 z4.
Definition z6 : system rpc_state := worker_done 0 request1 z5.
Definition z7 : system rpc_state := on_network (after_task rpc_srv send_out) z6.
Definition z8 : system rpc_state := on_network (after_task rpc_srv send_out) z7.
Definition rpc_peer : TcpServer.Peer := default (TcpServer.new_peer 0 []) ((io_of (sy_world z8)).2 !! 1).
Lemma rpc_peer_bytes : TcpServer.stream rpc_peer = request1 ++ request2 /\ TcpServer.wire rpc_peer = reply_bytes request2 ++ reply_bytes request1.
Proof. vm_compute. split; reflexivity. Qed.

Lemma rpc_runs4 : rpc_runs 5 z4.
Proof.
  apply (runs_network rpc_srv _ _ _ _ 5 0); [apply (runs_network rpc_srv _ _ _ _ 5 0); [apply (runs_network rpc_srv _ _ _ _ 3 2); [apply (runs_network rpc_srv _ _ _ _ 1 2); [apply (runs_network rpc_srv _ _ _ _ 1 0); [constructor|apply TcpServer.step_accept|vm_compute; lia]|..]|..]|..]|..].
  - apply (task_run_step rpc_srv take_in); [vm_compute; reflexivity|vm_compute; discriminate|vm_compute; reflexivity].
  - vm_compute. lia.
  - by apply (event_run_step rpc_srv take_in 1 EPOLLIN (mkWatch 7 1)); vm_compute.
  - vm_compute. lia.
  - apply take_run_step. vm_compute. discriminate.
  - vm_compute. lia.
  - apply take_run_step. vm_compute. discriminate.
  - vm_compute. lia.
Qed.
Definition job (data : bytes) : TcpServer.Job := TcpServer.mkJob data 0 1 (zlen data) true.
Lemma rpc_runs6 : rpc_runs 5 z6.
Proof.
  apply (runs_dispatch 0 request1 (job request1)); [apply (runs_dispatch 1 request2 (job request2)); [exact rpc_runs4|..]|..]; vm_compute; reflexivity || discriminate.
Qed.
Lemma rpc_runs8 : rpc_runs 11 z8.
Proof.
  apply (runs_network rpc_srv _ _ _ _ 8 3); [apply (runs_network rpc_srv _ _ _ _ 5 3); [exact rpc_runs6|..]|..].
  - apply (task_run_step rpc_srv send_out); [vm_compute; reflexivity|vm_compute; discriminate|vm_compute; reflexivity].
  - vm_compute. lia.
  - apply (task_run_step rpc_srv send_out); [vm_compute; reflexivity|vm_compute; discriminate|vm_compute; reflexivity].
  - vm_compute. lia.
Qed.

Lemma rpc_serving : serving z8 rpc_peer.
Proof. exists O, (io_of (sy_world z8)).1, (io_of (sy_world z8)).2, 1. split; [apply io_of_lookup|]; vm_compute; reflexivity. Qed.
Lemma connected8 x : x ∈ sessions (transport_ caller5) -> connected rpc_srv (rpc_handle calculator) rpc0 1 z8 x.
Proof.
  rewrite sessions5. intros ->%list_elem_of_singleton. right. exists 11, z8, rpc_peer. destruct rpc_peer_bytes as [H1 H2]. split; [exact rpc_runs8|]. split; [lia|]. split; [apply rtc_refl|].
  split; [exact rpc_serving|]. rewrite H1, H2. clear. split; exists []; symmetry; apply app_nil_r.
Qed.

Lemma rpc_system_witness :
  exists x ev v, promises caller5 !! 2 = Some x /\ ev ∈ r_events (sy_handler z8) /\ remote_call calculator (c_name x) (c_args x) (ev_before ev) = (ev_after ev, v) /\
    complete (c_ret x) (reply_bytes request2) None = (v, true).
Proof.
  destruct (rpc_system rpc_srv rpc_srv_assembled calculator calculator_ok 0 visit_all rpc_endpoint default_client_options
    1 11 z8 6 5 caller5 2 (reply_bytes request2) rpc_runs8 ltac:(lia) ltac:(lia) calling5 ltac:(lia) ltac:(lia) shared_config_ok returns5 connected8)
    as (_ & x & ev & v & Hx & Hev & _ & Hr & Hc); [rewrite completed5; by left|].
  exists x, ev, v. split; [exact Hx|]. split; [exact Hev|]. split; [exact Hr|exact Hc].
Defined.
