(* ===== verification/Examples.v ===== *)
(** The example programs (examples/rpc_server.cpp, examples/profile_demo.cpp): the methods they register and the
    order in which they start and stop their servers. *)
From S2P Require Import Prelude KvProtocol Executor EventLoop TcpServer TcpServerInv TcpServerCorrectness TcpServerLifecycle TcpServerShutdown TcpServerProgress RpcProtocol RpcServer RpcCorrectness RpcSystem ServerMain ServerProgram.
Import TcpServer(options_, io_threads, workers, default_options, mkServerOptions).
Import Lifecycle.

(** * The RPC server (examples/rpc_server.cpp) *)

Section RpcExample.
Context {codec : EnvelopeCodec} {message : Type} {mcodec : MessageCodec message} {St : Type}.
Abbreviation method := (method message St).

(** [int64_t(a) + b]; the addition is on [int64_t]. *)
Definition example_add : method := mkMethod [TSigned 32; TSigned 32] (Some (TSigned 64)) (fun args st =>
  match args with
  | [CSigned _ a; CSigned _ b] => (st, if decide (- 2 ^ 63 <= a + b < 2 ^ 63) then Ret (CSigned 64 (a + b)) else Undef)
  | _ => (st, Undef)
  end).
Definition example_echo : method := mkMethod [TString] (Some TString) (fun args st =>
  match args with [CString value] => (st, Ret (CString value)) | _ => (st, Undef) end).
Definition example_ping : method := mkMethod [] None (fun _ st => (st, Ret (CBool true))).

(** The options of the command line; [std::stoul] reads an [unsigned long] of 64 bits. *)
Definition example_options (args : list bytes) : outcome TcpServer.ServerOptions :=
  let o := default_options in
  io ← match args !! 1%nat with Some text => r ← stoull text ; Ret r.1 | None => Ret (io_threads o) end ;
  ws ← match args !! 2%nat with Some text => r ← stoull text ; Ret r.1 | None => Ret (workers o) end ;
  Ret (mkServerOptions io ws (TcpServer.queue_capacity o) (TcpServer.queue_bytes o) (TcpServer.output_bytes o) (TcpServer.pipeline o) (TcpServer.idle_timeout o)).

Definition register_all (rs : rpc_server message St) : outcome (rpc_server message St) :=
  let '(rs, r) := (Register (str "add") example_add ;; Register (str "echo") example_echo ;; Register (str "ping") example_ping) rs in
  r ← r ; Ret rs.
(** [args] after the program's name; the address "127.0.0.1" is one [inet_pton] accepts. *)
Definition example_server (args : list bytes) : outcome (tcp * rpc_server message St) :=
  port ← match args !! O with Some text => r ← stoi text ; Ret r.1 | None => Ret 8081 end ;
  s ← RpcServer_make port true 4096 (2 * 1024 * 1024) ;
  o ← example_options args ;
  s ← Configure o s ;
  rs ← register_all s.2 ;
  Ret (s.1, rs).

Lemma register_new (name : bytes) (m : method) (limit : Z) (ms : gmap bytes method) : 0 < zlen name <= limit -> ms !! name = None ->
  Register name m (mkRpcServer limit ms) = (mkRpcServer limit (<[name := m]> ms), Ret tt).
Proof.
  intros Hn Hm. unfold Register. cbn [methods_ limit_]. rewrite (proj2 (Z.eqb_neq _ _)), (proj2 (Z.ltb_ge _ _)) by lia. by rewrite Hm.
Qed.
Definition example_methods : gmap bytes method := <[str "ping" := example_ping]> (<[str "echo" := example_echo]> {[ str "add" := example_add ]}).
Lemma register_all_Ret limit : 4 <= limit -> register_all (mkRpcServer limit ∅) = Ret (mkRpcServer limit example_methods).
Proof.
  intros H. unfold register_all, mbind, M_bind. rewrite register_new; [|change (zlen (str "add")) with 3; lia|done].
  rewrite register_new; [|change (zlen (str "echo")) with 4; lia|by rewrite lookup_insert_ne].
  rewrite register_new; [|change (zlen (str "ping")) with 4; lia|by rewrite !lookup_insert_ne].
  cbn. by rewrite insert_empty.
Qed.

Lemma stoull_nonneg text z used : stoull text = Ret (z, used) -> 0 <= z < 2 ^ 64.
Proof.
  unfold stoull. destruct (scan text) as [[[neg v] u]|] eqn:E; [|done]. apply scan_Some in E as (pre & sgn & ds & rest & _ & _ & _ & _ & _ & Hd & -> & _).
  destruct (_ <? _) eqn:El; [done|]. intros [= <- _]. pose proof (decimal_nonneg ds Hd). pose proof (u64_range (- decimal ds)). zify_bools. destruct neg; lia.
Qed.
Lemma example_options_Ret args o : example_options args = Ret o -> 0 <= io_threads o < 2 ^ 64 /\ 0 <= workers o < 2 ^ 64 /\
  TcpServer.queue_capacity o = 1024 /\ TcpServer.queue_bytes o = 64 * 1024 * 1024 /\ TcpServer.output_bytes o = 8 * 1024 * 1024 /\ TcpServer.pipeline o = 16.
Proof.
  assert (forall (a : option bytes) d z, 0 <= d < 2 ^ 64 -> match a with Some text => r ← stoull text ; Ret r.1 | None => Ret d end = Ret z -> 0 <= z < 2 ^ 64) as Hr.
  { intros [text|] d z Hd; [|by intros [= <-]]. intros ([v u] & Hv & [= <-])%outcome_bind_Ret. by eapply stoull_nonneg. }
  unfold example_options. cbv zeta. intros (io & Hio & H)%outcome_bind_Ret. apply outcome_bind_Ret in H as (ws & Hws & [= <-]). apply Hr in Hio; [|done]. apply Hr in Hws; [|done]. by cbn.
Qed.

Lemma example_methods_ok limit : server_ok (mkRpcServer limit example_methods).
Proof.
  unfold server_ok. cbn [methods_]. apply map_Forall_insert_2; [by intros args st|]. apply map_Forall_insert_2; [|apply map_Forall_singleton].
  - intros args st. cbn. destruct args as [|[] []]; done.
  - intros args st. cbn -[Z.pow]. destruct args as [|[] [|[] []]]; cbn -[Z.pow]; try done. destruct (decide _) as [Hd|]; cbn -[Z.pow]; [|done]. split; [lia|]. split; [split; [done|lia]|done].
Qed.

(** The example server comes up whatever numbers it is given, or refuses them: what its command line makes
    is a server to which every theorem on the RPC server, its connections and its shutdown applies;
    remote [add] is the exact sum of any two 32-bit integers, never an overflow, [echo] gives
    back any string, [ping] returns nothing, and no call is undefined behaviour, whatever its method and
    arguments. *)
Lemma example_server_serves args t rs : example_server args = Ret (t, rs) ->
  rpc_assembled (members t) /\ (0 < io_threads (options_ (members t)) /\ 0 < workers (options_ (members t))) /\ Start (t, rs) false = Ret tt /\ server_ok rs /\
  (forall a b st, - 2 ^ 31 <= a < 2 ^ 31 -> - 2 ^ 31 <= b < 2 ^ 31 -> remote_call rs (str "add") [CSigned 32 a; CSigned 32 b] st = (st, Ret (Some (CSigned 64 (a + b))))) /\
  (forall v st, remote_call rs (str "echo") [CString v] st = (st, Ret (Some (CString v)))) /\
  (forall st, remote_call rs (str "ping") [] st = (st, Ret None)) /\
  (forall name vs st, let r := remote_call rs name vs st in r.1 = st /\ match r.2 with Ret _ | Throw (RemoteError _ _) => True | _ => False end).
Proof.
  unfold example_server. intros (port & _ & H)%outcome_bind_Ret. apply outcome_bind_Ret in H as ([t0 rs0] & Hm & H). apply outcome_bind_Ret in H as (o & Ho & H).
  apply outcome_bind_Ret in H as ([t1 rs1] & Hc & H). apply outcome_bind_Ret in H as (rs2 & Hr & [= <- <-]). cbn [fst snd] in *.
  destruct (RpcServer_make_assembled port true 4096 _ t0 rs0 ltac:(lia) Hm) as (Ha & Hs & ->). destruct (example_options_Ret args o Ho) as (Hi & Hw & Hqc & Hqb & Hob & Hp).
  destruct (Configure_assembled o t0 (mkRpcServer (2 * 1024 * 1024) ∅) t1 rs1) as (Ha1 & Hh & -> & Eo & Hi1 & Hw1); try done; try lia. rewrite register_all_Ret in Hr by lia. injection Hr as <-.
  assert (handler_ t0 = true) as Hh0 by (unfold RpcServer_make in Hm; by apply outcome_bind_Ret in Hm as (s & _ & [= <-])).
  split; [done|]. split; [by rewrite Eo|]. split; [unfold Start, start; cbn [fst]; by rewrite Hh, Hh0|]. split; [apply example_methods_ok|].
  assert (forall name m, example_methods !! name = Some m -> m = example_ping \/ m = example_echo \/ m = example_add) as Hall.
  { intros name m. unfold example_methods. intros [[_ <-]|[_ [[_ <-]|[_ [_ <-]%lookup_singleton_Some]]%lookup_insert_Some]]%lookup_insert_Some; auto. }
  split_and!; unfold remote_call; cbn [methods_].
  - intros a b st Ha0 Hb0. change (example_methods !! str "add") with (Some example_add). cbn -[Z.pow]. rewrite !decide_True by lia. cbn -[Z.pow]. by rewrite decide_True by lia.
  - intros v st. by change (example_methods !! str "echo") with (Some example_echo).
  - intros st. by change (example_methods !! str "ping") with (Some example_ping).
  - intros name vs st. destruct (example_methods !! name) as [m|] eqn:Em; [|done]. destruct (convert_all (m_args m) vs) as [xs|] eqn:Ec; [|done].
    assert (length (m_args m) = length vs) as Hl by (destruct (decide (length (m_args m) = length vs)); [done|]; by rewrite convert_all_length in Ec).
    destruct (Hall name m Em) as [->|[->| ->]]; [done|..]; cbn [m_args m_ret m_function example_echo example_add] in *.
    + destruct vs as [|v [|]]; try done. destruct v as [| | | | | |[s|]]; cbn in Ec; try done; injection Ec as <-; done.
    + destruct vs as [|v [|v' [|]]]; try done. destruct v as [|w z| | | | |[]], v' as [|w' z'| | | | |[]]; cbn -[Z.pow] in Ec; repeat case_decide; try done.
      injection Ec as <-. cbn -[Z.pow]. rewrite decide_True by lia. done.
Qed.
End RpcExample.

(** ** Its threads *)

(** The program of ServerProgram with a watcher that waits in [sigwait]; [p_done] is whether a signal is pending. *)
Section ExampleMain.
Context (t : tcp).

Inductive x_step : Z -> program -> program -> Prop :=
| xs_server k l l' w d o : l_step t k l l' -> stopping l' = stopping l -> stopped l' = stopped l -> x_step k (mkProgram l w d InStart o) (mkProgram l' w d InStart o)
| xs_threw l e w d o : phase_ l = Done (Throw e) -> x_step 0 (mkProgram l w d InStart o) (mkProgram l w true (Joining (Throw e)) o)
| xs_returned l w d o : phase_ l = Done (Ret tt) -> x_step 0 (mkProgram l w d InStart o) (mkProgram l w d (Joining (Ret tt)) o)
| xs_exit l result d o : x_step 0 (mkProgram l Gone d (Joining result) o) (mkProgram l Gone d (Exited (match result with Ret _ => 0 | _ => 1 end)) o)
| xs_signal l w d m o : x_step 0 (mkProgram l w d m o) (mkProgram l w true m o)
| xs_sigwait l m o : x_step 0 (mkProgram l Watching true m o) (mkProgram (stop_flag l) Stopping false m o)
| xs_stop l d m o : x_step 0 (mkProgram l Stopping d m o) (mkProgram (stop_accept l) Gone d m o).

Inductive x_reachable : Z -> program -> Prop :=
| x_begin : x_reachable 1 (mkProgram (initial t) Watching false InStart [])
| x_more n k p p' : x_reachable n p -> x_step k p p' -> x_reachable (n + k) p'.

Record example_inv (n : Z) (p : program) : Prop := {
  xv_life : l_reachable t n (p_life p);
  xv_watching : p_watcher p = Watching -> stopping (p_life p) = false;
  xv_stopping : p_watcher p = Stopping -> stopping (p_life p) = true;
  xv_gone : p_watcher p = Gone -> stopped (p_life p) = true;
  xv_main : match p_main p with
            | InStart => True
            | Joining result => phase_ (p_life p) = Done result /\ (p_watcher p = Watching -> result <> Ret tt -> p_done p = true) /\ ends result
            | Exited code => p_watcher p = Gone /\ exists result, phase_ (p_life p) = Done result /\ code = match result with Ret _ => 0 | _ => 1 end /\ ends result
            end
}.
Lemma x_step_inv n k p p' : example_inv n p -> x_step k p p' -> example_inv (n + k) p'.
Proof.
  intros V H. revert V. destruct H as [k l l' w d o Hs E1 E2|l e w d o Hd|l w d o Hd|l result d o|l w d m o|l m o|l d m o]; intros [H1 H2 H3 H4 H5];
    cbn [p_life p_watcher p_done p_main p_output] in *; rewrite ?Z.add_0_r.
  - constructor; cbn; [by eapply l_more|by rewrite E1|by rewrite E1|by rewrite E2|done].
  - by constructor.
  - by constructor.
  - constructor; cbn; try done. split; [done|]. exists result. by destruct H5 as (? & _ & ?).
  - constructor; cbn; try done. destruct m; try done. by destruct H5 as (? & _ & ?).
  - constructor; cbn; try done; [rewrite <-(Z.add_0_r n); by eapply l_more; [|constructor]|]. destruct m; try done; [by destruct H5 as (? & _ & ?)|by destruct H5].
  - constructor; cbn; try done; [rewrite <-(Z.add_0_r n); eapply l_more; [done|]; constructor; by apply H3|]. destruct m; try done; [by destruct H5 as (? & _ & ?)|by destruct H5].
Qed.
Lemma x_reachable_inv n p : x_reachable n p -> example_inv n p.
Proof. induction 1; [|by eapply x_step_inv]. constructor; cbn; try done. constructor. Qed.

Context (cfg : config_ok (members t)) (threads : 0 < io_threads (options_ (members t)) /\ 0 < workers (options_ (members t))) (ready : start t false = Ret tt).

Lemma example_moves n p : example_inv n p -> n + 2 < 2 ^ 64 -> error_ (p_life p) = None -> p_watcher p <> Watching \/ p_done p = true \/ p_main p <> InStart ->
  (exists code, p_main p = Exited code) \/ exists k p', x_step k p p' /\ ordered (nearer t) p' p.
Proof.
  intros [H1 H2 H3 H4 H5] Hn He Hs. destruct p as [l w d m o]. cbn [p_life p_watcher p_done p_main p_output] in *. destruct m as [|result|code]; [right|right|by left; eexists]; destruct w.
  - assert (d = true) as -> by (by destruct Hs as [?|[?|?]]). eexists 0, _. split; [apply xs_sigwait|]. right. split; [done|left]. cbn. lia.
  - eexists 0, _. split; [apply xs_stop|]. right. split; [done|left]. cbn. lia.
  - destruct (stopping_server_moves t cfg threads ready n l H1 Hn He (H4 eq_refl)) as [[result Hd]|(k & l' & Hst & Hnr & E1 & E2)].
    + assert (ends result) as Hends by (by eapply done_ends). destruct result as [[]|e| |]; try done.
      * eexists 0, _. split; [by apply xs_returned|]. left. cbn. lia.
      * eexists 0, _. split; [by apply xs_threw|]. left. cbn. lia.
    + eexists k, _. split; [by apply xs_server|]. right. split; [done|right]. by split.
  - destruct H5 as (Hd & Hp & Hends). assert (d = true) as ->.
    { destruct result as [[]|e| |]; try done; [|by apply Hp]. destruct (ended_threads t threads n l (Ret tt) H1 Hd) as (_ & _ & _ & Hr). destruct (Hr eq_refl) as (_ & Hst & _). by rewrite H2 in Hst. }
    eexists 0, _. split; [apply xs_sigwait|]. right. split; [done|left]. cbn. lia.
  - eexists 0, _. split; [apply xs_stop|]. right. split; [done|left]. cbn. lia.
  - eexists 0, _. split; [apply xs_exit|]. left. cbn. lia.
Qed.
End ExampleMain.

(** * The read-through cache (examples/profile_demo.cpp) *)

Module Profile.

(** ** The source *)

(** [std::getline] until it fails: the lines of a file, the last one also without a newline. *)
Fixpoint lines_from (line : bytes) (b : bytes) : list bytes :=
  match b with
  | [] => if bool_decide (line = []) then [] else [line]
  | c :: b => if byte.unsigned c =? 10 then line :: lines_from [] b else lines_from (line ++ [c]) b
  end.
Definition lines (content : bytes) : list bytes := lines_from [] content.
(** [line.find('\t')], with the text before and after. *)
Definition at_tab (line : bytes) : option (bytes * bytes) :=
  match span (fun c => negb (byte.unsigned c =? 9)) line with (before, _ :: rest) => Some (before, rest) | _ => None end.

(** The loop of [profile.get] over the lines. *)
Fixpoint find_profile (id : bytes) (ls : list bytes) : outcome bytes :=
  match ls with
  | [] => Throw std_runtime_error
  | line :: ls =>
      match at_tab line with
      | Some (before, profile) =>
          if bool_decide (before = id) then if bool_decide (profile = []) then Throw std_runtime_error else Ret profile else find_profile id ls
      | None => find_profile id ls
      end
  end.
(** The authoritative source: the file, [None] when it cannot be opened. *)
Definition source (file : option bytes) (id : bytes) : outcome bytes :=
  match file with None => Throw std_runtime_error | Some content => find_profile id (lines content) end.

(** ** The cache *)

(** How a call on the cache goes: as asked; with the entry gone before it ([Lost]: expired or evicted); or with a
    [kvrpc::Error], a write having taken effect or not. *)
Inductive weather := Fine | Lost | Outage (error : ErrorCode) (taken : bool).
(** What the methods share: the entries of the cache, the calls to come, and [source_reads]. *)
Record demo := mkDemo { cache : gmap bytes bytes; ahead_ : list weather; source_reads : Z }.

Definition next_weather (k : bytes) : M demo weather := fun d =>
  match ahead_ d with
  | [] => (d, Ret Fine)
  | w :: ws => (mkDemo (match w with Lost => delete k (cache d) | _ => cache d end) ws (source_reads d), Ret w)
  end.
Definition on_cache (f : gmap bytes bytes -> gmap bytes bytes) : M demo unit := modify (fun d => mkDemo (f (cache d)) (ahead_ d) (source_reads d)).
(** The limits at which the client refuses a request. *)
Definition refused (k v : bytes) : bool :=
  (MAX_KEY_SIZE <? zlen k) || (MAX_VALUE_SIZE <? zlen v) || (Executor.max_frame_bytes default_client_options <? HEADER_SIZE + zlen k + zlen v).
(** [Get(key).get()]: the empty string for a key that is not there. *)
Definition Get (k : bytes) : M demo bytes :=
  if refused k [] then throw (KvError invalid_argument) else
  w ← next_weather k ;
  match w with
  | Outage error _ => throw (KvError error)
  | _ => d ← get_state ; mret (default [] (cache d !! k))
  end.
Definition write (k v : bytes) (f : gmap bytes bytes -> gmap bytes bytes) : M demo unit :=
  if refused k v then throw (KvError invalid_argument) else
  w ← next_weather k ;
  match w with
  | Outage error taken => (if taken then on_cache f else mret tt) ;; throw (KvError error)
  | _ => on_cache f
  end.
Definition Set_ (k v : bytes) : M demo unit := write k v (insert k v).
Definition Delete (k : bytes) : M demo unit := write k [] (delete k).

(** ** The methods *)

Section Methods.
Context (revision : bytes) (file : option bytes).

Definition key (id : bytes) : bytes := str "profile:" ++ revision ++ str ":" ++ id.

(** [catch (const kvrpc::Error&)]. *)
Definition catch_kv {A} (m h : M demo A) : M demo A := try_catch m (fun e => match e with KvError _ => h | _ => throw e end).

Definition profile_get (id : bytes) : M demo bytes :=
  cached ← catch_kv (c ← Get (key id) ; mret (Some c)) (mret None) ;
  match cached with
  | Some (c :: cs) => mret (c :: cs)
  | _ =>
      modify (fun d => mkDemo (cache d) (ahead_ d) (u64 (source_reads d + 1))) ;;
      profile ← lift (source file id) ;
      catch_kv (Set_ (key id) profile) (mret tt) ;;
      mret profile
  end.
Definition profile_invalidate (id : bytes) : M demo unit := Delete (key id).
Definition profile_source_reads : M demo Z := d ← get_state ; mret (source_reads d).

(** [main] between the start of the service and its stop, each call answered by the service: what is printed. *)
Definition verify : M demo bytes :=
  let id := str "42" in
  profile_invalidate id ;;
  first ← profile_get id ;
  second ← profile_get id ;
  n ← profile_source_reads ;
  if negb (bool_decide (first = second)) || negb (n =? 1) then throw std_runtime_error else
  profile_invalidate id ;;
  third ← profile_get id ;
  n ← profile_source_reads ;
  if negb (bool_decide (third = first)) || negb (n =? 2) then throw std_runtime_error else
  mret (str "Profile: " ++ first ++ newline ++ str "3 RPC lookups, 2 source reads; cache hit and invalidation verified" ++ newline).
End Methods.

(** ** [main] *)

(** What [main] does with its thread: starts the server on it, stops the server, waits for it, leaves the block whose
    variables the methods refer to; and what it prints. *)
Inductive act := Spawned | Stopped | Waited | Left | Printed (text : bytes) | Complained (text : option bytes).
Definition note (a : act) : M (list act) unit := modify (fun l => l ++ [a]).

(** The parts that can fail: the port and the pool, the thread, a server that ends before it has a port, the calls,
    and the server when it has been stopped.  [get] leaves the future without a state. *)
Section Main.
Context (making spawning : outcome unit) (early : option exn) (calls : outcome bytes) (served : outcome unit).

Definition demo_calls : M (list act) unit :=
  try_catch (text ← lift calls ; note (Printed text)) (fun e => note Stopped ;; note Waited ;; throw e).
Definition demo_body : M (list act) unit :=
  lift making ;;
  lift spawning ;;
  note Spawned ;;
  match early with Some e => note Waited ;; throw e | None => mret tt end ;;
  demo_calls ;;
  note Stopped ;;
  note Waited ;;
  lift served.
Definition demo_block : M (list act) unit := try_catch (demo_body ;; note Left) (fun e => note Left ;; throw e).
(** [serving.valid()] *)
Definition still_valid : bool := match making, spawning, early, calls with Ret _, Ret _, None, Throw _ => true | _, _, _, _ => false end.
Definition demo_main (args : list bytes) : M (list act) Z :=
  if negb (Nat.eqb (length args) 3) then note (Complained (Some (str "Usage: profile_demo kv_port profiles.tsv source_revision" ++ newline))) ;; mret 1 else
  try_catch (demo_block ;; mret 0) (fun _ =>
    note Stopped ;; (if still_valid then note Waited else mret tt) ;; note (Complained None) ;; mret 1).

(** The methods' variables outlive the server, on every path: a server that was started has been waited for before
    [main] leaves the block.  The program succeeds when the calls and the server did. *)
Lemma demo_main_outlives args : ends making -> ends spawning -> ends served -> match calls with Ret _ | Throw _ => True | _ => False end ->
  let '(trace, r) := demo_main args [] in
  (Spawned ∉ trace \/ exists before after, trace = before ++ Left :: after /\ (Spawned ∈ before -> Waited ∈ before) /\ Spawned ∉ after) /\
  (r = Ret 1 \/ r = Ret 0 /\ length args = 3%nat /\ making = Ret tt /\ spawning = Ret tt /\ early = None /\ served = Ret tt /\ exists text, calls = Ret text /\ Printed text ∈ trace).
Proof.
  intros Hm Hsp Hse Hc. unfold demo_main. destruct (Nat.eqb_spec (length args) 3) as [->|_]; cbn [negb]; [|cbn; split; [left; set_solver|by left]].
  unfold still_valid, demo_block, demo_body, demo_calls, try_catch, note, modify, lift, mbind, M_bind.
  destruct making as [[]| | |]; try done; [|cbn; split; [right; by exists [], [Stopped; Complained None]; set_solver|by left]].
  destruct spawning as [[]| | |]; try done; [|cbn; split; [right; by exists [], [Stopped; Complained None]; set_solver|by left]].
  destruct early as [e|]; [cbn; split; [right; exists [Spawned; Waited], [Stopped; Complained None]; set_solver|by left]|].
  destruct calls as [text|e| |]; try done; [|cbn; split; [right; exists [Spawned; Stopped; Waited], [Stopped; Waited; Complained None]; set_solver|by left]].
  destruct served as [[]|e| |]; try done; cbn; (split; [right|]).
  - exists [Spawned; Printed text; Stopped; Waited], []. set_solver.
  - right. split_and!; try done. exists text. set_solver.
  - exists [Spawned; Printed text; Stopped; Waited], [Stopped; Complained None]. set_solver.
  - by left.
Qed.
End Main.

(** ** As RPC methods *)

Section Service.
Context {message : Type} (revision : bytes) (file : option bytes).

Definition get_method : method message demo := mkMethod [TString] (Some TString) (fun args =>
  match args with [CString id] => r ← profile_get revision file id ; mret (CString r) | _ => lift Undef end).
Definition invalidate_method : method message demo := mkMethod [TString] None (fun args =>
  match args with [CString id] => profile_invalidate revision id ;; mret (CBool true) | _ => lift Undef end).
Definition source_reads_method : method message demo := mkMethod [] (Some (TUnsigned 64)) (fun _ => n ← profile_source_reads ; mret (CUnsigned 64 (u64 n))).
Definition profile_service (limit : Z) : rpc_server message demo :=
  mkRpcServer limit (<[str "profile.source_reads" := source_reads_method]> (<[str "profile.invalidate" := invalidate_method]> {[ str "profile.get" := get_method ]})).
End Service.

(** ** Correctness *)

Section Correct.
Context (revision : bytes) (file : option bytes).
Abbreviation key := (key revision).

#[local] Instance key_inj : Inj (=) (=) key.
Proof. intros a b H. unfold Profile.key in H. by do 3 apply app_inv_head in H. Qed.

(** Every entry under the revision is what the source has. *)
Definition coherent (d : demo) : Prop := forall id v, cache d !! key id = Some v -> v = [] \/ source file id = Ret v.

Lemma source_cases id : (exists v, source file id = Ret v /\ v <> []) \/ source file id = Throw std_runtime_error.
Proof.
  unfold source. destruct file as [content|]; [|by right]. induction (lines content) as [|l ls IH]; [by right|]. cbn [find_profile]. destruct (at_tab l) as [[before p]|]; [|done].
  case_bool_decide; [|done]. case_bool_decide; [by right|left; by exists p].
Qed.

Lemma coherent_next k d : coherent d -> coherent (next_weather k d).1 /\ source_reads (next_weather k d).1 = source_reads d /\ exists w, (next_weather k d).2 = Ret w.
Proof.
  intros H. unfold next_weather. destruct (ahead_ d) as [|w ws]; [by eauto|]. cbn. split; [|by eauto]. intros id v. cbn [cache]. destruct w; [apply H| |apply H]. rewrite lookup_delete_Some. intros [_ ?]. by apply H.
Qed.

(** A write that keeps the cache coherent, whether it is done or not. *)
Lemma write_coherent k v f d : coherent d -> (forall d, coherent d -> coherent (mkDemo (f (cache d)) (ahead_ d) (source_reads d))) ->
  let '(d', r) := write k v f d in coherent d' /\ source_reads d' = source_reads d /\ (r = Ret tt /\ (exists c, cache d' = f c) \/ exists e, r = Throw (KvError e)).
Proof.
  intros H Hf. unfold write. destruct (refused k v); [cbn; eauto|]. destruct (coherent_next k d H) as (H1 & H2 & w & Hw). unfold mbind, M_bind. destruct (next_weather k d) as [d1 r1]. cbn [fst snd] in *. subst r1.
  destruct w as [| |e []]; cbn; (split; [auto|]; split; [done|]); [left; split; eauto..|right; by exists e|right; by exists e].
Qed.

Lemma Get_coherent id d : coherent d -> let '(d', r) := Get (key id) d in coherent d' /\ source_reads d' = source_reads d /\
  ((exists e, r = Throw (KvError e)) \/ r = Ret [] \/ exists v, r = Ret v /\ v <> [] /\ cache d !! key id = Some v /\ source file id = Ret v).
Proof.
  intros H. unfold Get. destruct (refused (key id) []); [split; [done|]; split; [done|]; left; by eexists|]. destruct (coherent_next (key id) d H) as (H1 & H2 & w & Hw). unfold mbind, M_bind.
  assert (forall v, cache (next_weather (key id) d).1 !! key id = Some v -> cache d !! key id = Some v) as Hc.
  { intros v. unfold next_weather. destruct (ahead_ d) as [|[] ws]; cbn -[Profile.key]; try done. by rewrite lookup_delete_eq. }
  destruct (next_weather (key id) d) as [d1 r1]. cbn [fst snd] in *. subst r1. destruct w as [| |e taken]; cbn -[Profile.key]; (split; [done|]; split; [done|]); [right..|left; by exists e].
  all: destruct (cache d1 !! key id) as [v|] eqn:E; [|by left]; cbn -[Profile.key]; destruct (decide (v = [])) as [->|Hne]; [by left|right; exists v; destruct (H1 id v E); [done|split_and!; auto]].
Qed.

(** A miss. *)
Definition read_source (id : bytes) : M demo bytes :=
  modify (fun d => mkDemo (cache d) (ahead_ d) (u64 (source_reads d + 1))) ;;
  profile ← lift (source file id) ;
  catch_kv (Set_ (key id) profile) (mret tt) ;;
  mret profile.
Lemma read_source_coherent id d : coherent d -> let '(d', r) := read_source id d in r = source file id /\ coherent d' /\ source_reads d' = u64 (source_reads d + 1).
Proof.
  intros H. unfold read_source. unfold mbind at 1, M_bind at 1, modify. set (d0 := mkDemo _ _ _). assert (coherent d0) as H0 by exact H. unfold mbind at 1, M_bind at 1, lift.
  destruct (source_cases id) as [(v & E & Hv)|E]; rewrite E; [|done]. unfold catch_kv, try_catch, Set_. unfold mbind, M_bind.
  pose proof (write_coherent (key id) v (insert (key id) v) d0 H0) as HW. destruct (write (key id) _ _ d0) as [d1 r]. destruct HW as (H1 & H2 & Hr).
  { intros d2 Hd2 id' v'. cbn [cache]. intros [[Heq <-]|[_ ?]]%lookup_insert_Some; [|by apply Hd2]. apply key_inj in Heq as ->. by right. }
  destruct Hr as [[-> _]|[e ->]]; done.
Qed.

Lemma profile_get_cases id d : profile_get revision file id d =
  match Get (key id) d with
  | (d1, Ret (c :: cs)) => (d1, Ret (c :: cs)) | (d1, Ret []) | (d1, Throw (KvError _)) => read_source id d1
  | (d1, Throw e) => (d1, Throw e) | (d1, Undef) => (d1, Undef) | (d1, Blocked) => (d1, Blocked)
  end.
Proof. unfold profile_get, read_source. generalize (Get (key id)). intros G. unfold mbind, M_bind, catch_kv, try_catch. destruct (G d) as [d1 [[|c cs]|[]| |]]; reflexivity. Qed.
Lemma profile_get_coherent id d : coherent d -> let '(d', r) := profile_get revision file id d in
  r = source file id /\ coherent d' /\ (source_reads d' = source_reads d /\ (exists v, cache d !! key id = Some v /\ source file id = Ret v) \/ source_reads d' = u64 (source_reads d + 1)).
Proof.
  intros H. pose proof (Get_coherent id d H) as HG. rewrite profile_get_cases.
  destruct (Get (key id) d) as [d1 r]. destruct HG as (H1 & H2 & Hr). pose proof (read_source_coherent id d1 H1) as HS. destruct Hr as [[e ->]|[->|(v & -> & Hv & Hc & Hs)]].
  1,2: destruct (read_source id d1) as [d' r]; destruct HS as (-> & H3 & H4); rewrite H2 in H4; auto.
  destruct v as [|c cs]; [done|]. split; [done|]. split; [done|]. left. split; [done|]. by exists (c :: cs).
Qed.
Lemma profile_invalidate_coherent id d : coherent d -> let '(d', r) := profile_invalidate revision id d in
  coherent d' /\ source_reads d' = source_reads d /\ (r = Ret tt /\ cache d' !! key id = None \/ exists e, r = Throw (KvError e)).
Proof.
  intros H. pose proof (write_coherent (key id) [] (delete (key id)) d H) as HW. unfold profile_invalidate, Delete. destruct (write (key id) _ _ d) as [d1 r]. destruct HW as (H1 & H2 & Hr).
  { intros d2 Hd2 id' v'. cbn [cache]. intros [_ ?]%lookup_delete_Some. by apply Hd2. }
  split; [done|]. split; [done|]. destruct Hr as [[-> [c ->]]|He]; [left|by right]. split; [done|]. apply lookup_delete_eq.
Qed.

(** With a working cache. *)
Lemma run_bind {A B} (m : M demo A) (f : A -> M demo B) d d' a : m d = (d', Ret a) -> mbind f m d = f a d'.
Proof. intros E. unfold mbind, M_bind. by rewrite E. Qed.
Lemma invalidate_fine id c n : refused (key id) [] = false -> profile_invalidate revision id (mkDemo c [] n) = (mkDemo (delete (key id) c) [] n, Ret tt).
Proof. intros Hf. unfold profile_invalidate, Delete, write. by rewrite Hf. Qed.
Lemma Get_fine id c n : refused (key id) [] = false -> Get (key id) (mkDemo c [] n) = (mkDemo c [] n, Ret (default [] (c !! key id))).
Proof. intros Hf. unfold Get. by rewrite Hf. Qed.
Lemma get_miss id c n p : refused (key id) [] = false -> refused (key id) p = false -> c !! key id = None -> source file id = Ret p ->
  profile_get revision file id (mkDemo c [] n) = (mkDemo (<[key id := p]> c) [] (u64 (n + 1)), Ret p).
Proof.
  intros Hf Hf' Hc Hs. unfold profile_get. rewrite (run_bind _ _ _ (mkDemo c [] n) (Some [])) by (unfold catch_kv, try_catch, mbind, M_bind; by rewrite Get_fine, Hc).
  unfold mbind at 1, M_bind at 1, modify. unfold mbind at 1, M_bind at 1, lift. rewrite Hs. unfold catch_kv, try_catch, Set_, write. by rewrite Hf'.
Qed.
Lemma get_hit id c n x p : refused (key id) [] = false -> c !! key id = Some (x :: p) -> profile_get revision file id (mkDemo c [] n) = (mkDemo c [] n, Ret (x :: p)).
Proof.
  intros Hf Hc. unfold profile_get. rewrite (run_bind _ _ _ (mkDemo c [] n) (Some (x :: p))) by (unfold catch_kv, try_catch, mbind, M_bind; by rewrite Get_fine, Hc). done.
Qed.

(** The demonstration demonstrates: with a working cache, whatever was in it before, and a source that has the
    profile, within the limits of the protocol, the calls [main] makes find one source read for the first
    two lookups, a second one after the invalidation, and print the profile of the source. *)
Lemma profile_demo_verifies c p : source file (str "42") = Ret p -> refused (key (str "42")) p = false ->
  (verify revision file (mkDemo c [] 0)).2 = Ret (str "Profile: " ++ p ++ newline ++ str "3 RPC lookups, 2 source reads; cache hit and invalidation verified" ++ newline).
Proof.
  intros E Hp. assert (refused (key (str "42")) [] = false) as Hf.
  { unfold refused in *. rewrite !orb_false_iff, !Z.ltb_ge in *. change (zlen (@nil byte)) with 0. pose proof (zlen_nonneg p). unfold MAX_VALUE_SIZE in *. lia. }
  destruct (source_cases (str "42")) as [(v & E' & Hv)|E']; rewrite E in E'; [|done]. injection E' as <-. destruct p as [|x p]; [done|]. unfold verify. cbv zeta.
  rewrite (run_bind _ _ _ _ _ (invalidate_fine _ _ _ Hf)). rewrite (run_bind _ _ _ _ _ (get_miss _ _ _ _ Hf Hp (lookup_delete_eq _ _) E)).
  rewrite (run_bind _ _ _ _ _ (get_hit _ _ _ x p Hf (lookup_insert_eq _ _ _))). rewrite (run_bind profile_source_reads _ _ _ _ eq_refl). change (negb (_ =? 1)) with false.
  rewrite bool_decide_eq_true_2 by done. cbn [negb orb]. rewrite (run_bind _ _ _ _ _ (invalidate_fine _ _ _ Hf)).
  rewrite (run_bind _ _ _ _ _ (get_miss _ _ _ _ Hf Hp (lookup_delete_eq _ _) E)). rewrite (run_bind profile_source_reads _ _ _ _ eq_refl). change (negb (_ =? 2)) with false.
  rewrite bool_decide_eq_true_2 by done. done.
Qed.

(** ** Called over RPC *)

Section Remote.
Context {message : Type} {mcodec : MessageCodec message}.

(** What the methods throw, in any state. *)
Lemma write_throws k v f d : match (write k v f d).2 with Ret _ | Throw (KvError _) => True | _ => False end.
Proof. unfold write. destruct (refused k v); [done|]. unfold mbind, M_bind, next_weather. destruct (ahead_ d) as [|[| |e []] ws]; done. Qed.
Lemma Get_throws k d : match (Get k d).2 with Ret _ | Throw (KvError _) => True | _ => False end.
Proof. unfold Get. destruct (refused k []); [done|]. unfold mbind, M_bind, next_weather. destruct (ahead_ d) as [|[] ws]; done. Qed.
Lemma read_source_throws id d : match (read_source id d).2 with Ret _ | Throw std_runtime_error => True | _ => False end.
Proof.
  unfold read_source. unfold mbind at 1, M_bind at 1, modify. set (d0 := mkDemo _ _ _). unfold mbind at 1, M_bind at 1, lift.
  destruct (source_cases id) as [(v & E & Hv)|E]; rewrite E; [|done]. unfold catch_kv, try_catch, Set_, mbind, M_bind.
  pose proof (write_throws (key id) v (insert (key id) v) d0) as HW. by destruct (write (key id) _ _ d0) as [d1 [|[]| |]].
Qed.
Lemma profile_get_throws id d : match (profile_get revision file id d).2 with Ret _ | Throw std_runtime_error => True | _ => False end.
Proof. rewrite profile_get_cases. pose proof (Get_throws (key id) d) as HG. destruct (Get (key id) d) as [d1 [[|c cs]|[]| |]]; try done; apply read_source_throws. Qed.

Lemma profile_service_ok limit : server_ok (profile_service (message := message) revision file limit).
Proof.
  unfold server_ok, profile_service. cbn [methods_]. apply map_Forall_insert_2; [|apply map_Forall_insert_2; [|apply map_Forall_singleton]]; intros args st.
  - cbn. split; [lia|]. split; [split; [done|apply u64_range]|done].
  - cbn -[profile_invalidate]. destruct args as [|[] []]; try done. unfold mbind, M_bind, profile_invalidate, Delete. pose proof (write_throws (key s) [] (delete (key s)) st) as HW.
    by destruct (write _ _ _ st) as [d1 [|[]| |]].
  - cbn -[profile_get]. destruct args as [|[] []]; try done. unfold mbind, M_bind. pose proof (profile_get_throws s st) as HG. by destruct (profile_get _ _ s st) as [d1 [|[]| |]].
Qed.

(** C37. The read-through service never serves a wrong profile, whatever becomes of the cache: with errors on any
    call, entries evicted or expired at any time and writes of unknown effect, a remote [profile.get]
    returns exactly what the source says, or fails when the source does, and reads the source once
    unless the cache holds the answer; [profile.invalidate] either fails or leaves no entry.  Both keep every
    entry of the revision coherent with the source, so this goes on for ever. *)
Theorem profile_read_through limit id d : coherent d ->
  server_ok (profile_service (message := message) revision file limit) /\
  (let '(d', r) := remote_call (message := message) (profile_service revision file limit) (str "profile.get") [CString id] d in
     r = match source file id with Ret v => Ret (Some (CString v)) | _ => Throw (RemoteError 3 (str "Method execution failed")) end /\ coherent d' /\
     (source_reads d' = source_reads d /\ (exists v, cache d !! key id = Some v /\ source file id = Ret v) \/ source_reads d' = u64 (source_reads d + 1))) /\
  (let '(d', r) := remote_call (message := message) (profile_service revision file limit) (str "profile.invalidate") [CString id] d in
     coherent d' /\ source_reads d' = source_reads d /\ (r = Ret None /\ cache d' !! key id = None \/ r = Throw (RemoteError 3 (str "Method execution failed")))) /\
  remote_call (message := message) (profile_service revision file limit) (str "profile.source_reads") [] d = (d, Ret (Some (CUnsigned 64 (u64 (source_reads d))))).
Proof.
  intros H. split; [apply profile_service_ok|]. unfold remote_call, profile_service. cbn [methods_].
  split; [|split; [|by rewrite lookup_insert_eq]]; [rewrite !lookup_insert_ne, lookup_singleton_eq by done|rewrite lookup_insert_ne, lookup_insert_eq by done]; cbn -[Profile.key u64 profile_get profile_invalidate source]; unfold mbind, M_bind.
  - pose proof (profile_get_coherent id d H) as HG. destruct (profile_get revision file id d) as [d' r]. destruct HG as (-> & Hc & Hr).
    destruct (source_cases id) as [(v & E & _)|E]; rewrite E in *; done.
  - pose proof (profile_invalidate_coherent id d H) as HI. destruct (profile_invalidate revision id d) as [d' r]. destruct HI as (Hc & Hs & [[-> Hn]|[e ->]]); (split; [done|]; split; [done|]); [by left|by right].
Qed.
End Remote.
End Correct.
End Profile.
