(* ===== verification/ExampleClients.v ===== *)
(** The example clients (examples/kvcache.cpp, examples/rpc_client.cpp): the calls they make, each answered by the
    service, and what they print. *)
From S2P Require Import Prelude KvProtocol Executor TcpServer Disk Aof LruCache ShardedCache CacheService KvClient RpcProtocol RpcServer RpcCorrectness ServerProgram Examples.
Import KvClient(call, mkCall, kind, result, KBool, KString, KOptional, RBool, RString, ROptional, c_command, c_key, c_value, complete).

(** * The KV client (examples/kvcache.cpp) *)

Section KvExample.
Context {layout : Layout} {hashB : Hash bytes} {codec : CacheValueCodec}.

(** A call and its [get()], alone with the service. *)
Definition ask (e : env) (x : call) : M service result :=
  request ← lift (Message.encode (c_command x) (c_key x) (c_value x)) ;
  rs ← HandleBatch e [request] ;
  match rs with
  | [r] => lift (complete (Executor.max_frame_bytes default_client_options) x (r_bytes r) None).1
  | _ => lift Undef
  end.
Definition ask_set (e : env) (k v : bytes) : M service unit := ask e (mkCall KBool SET k v) ;; mret tt.
Definition ask_delete (e : env) (k : bytes) : M service unit := ask e (mkCall KBool DEL k []) ;; mret tt.
Definition ask_ttl (e : env) (k v : bytes) (ttl : Z) : M service unit :=
  ask e (mkCall KBool SET_TTL k (SerializeAsString (mkCacheValue false v 0 (u64 ttl) []))) ;; mret tt.
Definition ask_string (e : env) (c : Command) (k : bytes) : M service bytes :=
  r ← ask e (mkCall KString c k []) ; match r with RString s => mret s | _ => lift Undef end.
Definition ask_lookup (e : env) (k : bytes) : M service (option bytes) :=
  r ← ask e (mkCall KOptional LOOKUP k []) ; match r with ROptional o => mret o | _ => lift Undef end.

(** What it prints; [now] is the clock of each call, with 30 ms between the last write and the lookup after it. *)
Definition kvcache_example (now : nat -> env) : M service bytes :=
  ask_set (now 0%nat) (str "example:key") (str "hello") ;;
  value ← ask_string (now 1%nat) GET (str "example:key") ;
  if negb (bool_decide (value = str "hello")) then throw std_runtime_error else
  stats ← ask_string (now 2%nat) STATS [] ;
  ask_delete (now 3%nat) (str "example:key") ;;
  missing ← ask_lookup (now 4%nat) (str "example:key") ;
  if bool_decide (is_Some missing) then throw std_runtime_error else
  ask_set (now 5%nat) (str "example:empty") [] ;;
  empty ← ask_lookup (now 6%nat) (str "example:empty") ;
  if negb (bool_decide (empty = Some [])) then throw std_runtime_error else
  ask_ttl (now 7%nat) (str "example:ttl") (str "temporary") 20 ;;
  expired ← ask_lookup (now 8%nat) (str "example:ttl") ;
  if bool_decide (is_Some expired) then throw std_runtime_error else
  ask_delete (now 9%nat) (str "example:empty") ;;
  mret (value ++ newline ++ stats ++ newline).
End KvExample.

(** * The RPC client (examples/rpc_client.cpp) *)

Section RpcExample.
Context {message : Type} {mcodec : MessageCodec message} {St : Type}.

Definition rpc_client_example (rs : rpc_server message St) : M St bytes :=
  sum ← remote_call rs (str "add") [CSigned 32 20; CSigned 32 22] ;
  sum ← match sum with Some (CSigned 64 z) => mret z | _ => lift Undef end ;
  text ← remote_call rs (str "echo") [CCString (Some (str "RPC round trip"))] ;
  text ← match text with Some (CString s) => mret s | _ => lift Undef end ;
  remote_call rs (str "ping") [] ;;
  mret (str "add(20, 22) = " ++ to_string sum ++ newline ++ text ++ newline).

(** The two RPC examples fit: what the client prints when the server is the example server. *)
Lemma rpc_examples_meet limit st :
  rpc_client_example (mkRpcServer limit example_methods) st = (st, Ret (str "add(20, 22) = 42" ++ newline ++ str "RPC round trip" ++ newline)).
Proof. reflexivity. Qed.
End RpcExample.
