(* ===== verification/ExampleWitnesses.v ===== *)
(** The examples on concrete inputs: the RPC server on two command lines, the KV client alone with a service, and
    the read-through cache on the profiles that come with it. *)
From S2P Require Import Prelude KvProtocol Executor TcpServer TcpServerLifecycle Disk Aof AofLog AofDurability LruCache ShardedCache CacheService ServiceHistory ServiceCorrectness ServiceWitnesses RpcProtocol RpcServer RpcCorrectness RpcWitnesses RpcSystem ServerProgram Examples ExampleClients.
Import TcpServer(options_, io_threads, workers).
Import Lifecycle.

#[local] Existing Instance plain_codec.
#[local] Existing Instance small_layout.
#[local] Existing Instance small_hash.
#[local] Existing Instance raw_codec.
#[local] Existing Instance bit_codec.

(** The sample programs do what they are meant to. *)
Lemma kvcache_example_runs : (kvcache_example (fun n => at_time (if (n <? 8)%nat then 1000 else 1030)) (small stutter)).2 =
  Ret (str "hello" ++ newline ++ str "Hits: 1, Misses: 0, AOF records: 1, AOF syncs: 1, AOF bytes: 40, Cache bytes: 96, Evictions: 0, AOF rewrites: 0, AOF sync us: 7" ++ newline).
Proof. vm_compute. reflexivity. Qed.

(** A port, one reactor and four workers; and a negative port. *)
Definition command_line : list bytes := [str "9000"; str "1"; str "4"].
Lemma command_line_accepted : is_Ret (example_server (message := bytes) (St := Z) command_line) = true /\ is_Ret (example_server (message := bytes) (St := Z) [str "-1"]) = false.
Proof. vm_compute. split; reflexivity. Qed.
Lemma example_server_adds : exists t rs, example_server (message := bytes) (St := Z) command_line = Ret (t, rs) /\
  remote_call rs (str "add") [CSigned 32 (2 ^ 31 - 1); CSigned 32 (2 ^ 31 - 1)] 0 = (0, Ret (Some (CSigned 64 (2 ^ 31 - 1 + (2 ^ 31 - 1))))).
Proof.
  destruct (example_server (message := bytes) (St := Z) command_line) as [[t rs]|x| |] eqn:E; [|pose proof (proj1 command_line_accepted) as H; rewrite E in H; discriminate H..].
  exists t, rs. split; [reflexivity|]. destruct (example_server_serves command_line t rs E) as (_ & _ & _ & _ & H & _). apply H; lia.
Qed.

(** The file of the demonstration (examples/profiles.tsv), and a cache that fails twice: its answer is late, and
    then the connection breaks with the write done. *)
Definition tab : bytes := [byte.of_Z 9].
Definition profiles : bytes :=
  str "42" ++ tab ++ str "Ada | backend engineer | synthetic example" ++ newline ++ str "73" ++ tab ++ str "Lin | platform engineer | synthetic example" ++ newline.
Definition failing : Profile.demo := Profile.mkDemo ∅ [Profile.Outage timeout false; Profile.Outage connection true] 0.
Lemma profile_demo_runs : (Profile.verify (str "r1") (Some profiles) (Profile.mkDemo ∅ [] 0)).2 =
  Ret (str "Profile: Ada | backend engineer | synthetic example" ++ newline ++ str "3 RPC lookups, 2 source reads; cache hit and invalidation verified" ++ newline).
Proof. rewrite (Profile.profile_demo_verifies _ _ ∅ (str "Ada | backend engineer | synthetic example")); vm_compute; reflexivity. Qed.
Lemma profile_read_through_witness :
  (remote_call (message := bytes) (Profile.profile_service (str "r1") (Some profiles) 65536) (str "profile.get") [CString (str "42")] failing).2 =
    Ret (Some (CString (str "Ada | backend engineer | synthetic example"))).
Proof.
  destruct (Profile.profile_read_through (message := bytes) (str "r1") (Some profiles) 65536 (str "42") failing) as (_ & H & _); [intros id v Hv; discriminate Hv|].
  destruct (remote_call _ _ _ failing) as [d' r]. destruct H as [-> _]. vm_compute. reflexivity.
Defined.
